(** * Hermes2D multi-mesh traversal (src/hermes2d/src/mesh/traverse.cpp)

    A shallow embedding of the synchronized traversal engine: the
    fixed-point rectangle arithmetic, the bit-packed sub-element address,
    the explicit state stack with its heap-allocated per-mesh arrays, the
    leaf emission of [Traverse::get_states], the compatibility checks and
    the leaf case of [Traverse::union_recurrent]. *)

From Stdlib Require Import ZArith Lia List Bool String.
From Stdlib Require Import Floats.
From stdpp Require Import base gmap list.

Local Open Scope Z_scope.

(** ** Machine integers *)

(** [uint64_t] arithmetic wraps modulo 2^64. *)
Definition wrap64 (z : Z) : Z := z mod 2 ^ 64.

(** ** Results of fallible code *)

(** Behaviours the C++ leaves undefined, and [assert] failures. *)
Inductive undefined : Type :=
| NullDeref
| OutOfBounds
| Uninitialized
| BadCell
| IntOverflow
| AssertFailed.

Inductive error : Type :=
| Exception (msg : string)
| ValueException (name : string)
| Undefined (why : undefined)
| OutOfFuel.

Inductive result (A : Type) : Type :=
| Ok (a : A)
| Err (e : error).
Arguments Ok {A} a.
Arguments Err {A} e.

(** ** Rectangles *)

(** [struct Rect { uint64_t l, b, r, t; }], the field order being the one
    the initialiser [H2D_UNITY = { 0, 0, ONE, ONE }] relies on. *)
Record Rect : Type := mkRect { r_l : Z; r_b : Z; r_r : Z; r_t : Z }.

Definition hmid_of (x : Rect) : Z := Z.shiftr (wrap64 (r_l x + r_r x)) 1.
Definition vmid_of (x : Rect) : Z := Z.shiftr (wrap64 (r_t x + r_b x)) 1.

(** [move_to_son(rnew, rold, son)]: the value left in [*rnew]. *)
Definition move_to_son (rold : Rect) (son : Z) : Rect :=
  let hmid := hmid_of rold in
  let vmid := vmid_of rold in
  match son with
  | 0 => mkRect (r_l rold) (r_b rold) hmid vmid
  | 1 => mkRect hmid (r_b rold) (r_r rold) vmid
  | 2 => mkRect hmid vmid (r_r rold) (r_t rold)
  | 3 => mkRect (r_l rold) vmid hmid (r_t rold)
  | 4 => mkRect (r_l rold) (r_b rold) (r_r rold) vmid
  | 5 => mkRect (r_l rold) vmid (r_r rold) (r_t rold)
  | 6 => mkRect (r_l rold) (r_b rold) hmid (r_t rold)
  | 7 => mkRect hmid (r_b rold) (r_r rold) (r_t rold)
  | _ => rold
  end.

(** The loop guard shared by [init_transforms] and [init_idx]:
    [cr.l > r.l || cr.r < r.r || cr.b > r.b || cr.t < r.t]. *)
Definition rect_mismatch (cr x : Rect) : bool :=
  (r_l x <? r_l cr) || (r_r cr <? r_r x) || (r_b x <? r_b cr) || (r_t cr <? r_t x).

(** The if-chain of [Traverse::init_transforms]; [None] is the [assert(0)]
    branch. *)
Definition transforms_son (cr x : Rect) : option Z :=
  let hmid := hmid_of x in
  let vmid := vmid_of x in
  if (r_r cr <=? hmid) && (r_t cr <=? vmid) then Some 0
  else if (hmid <=? r_l cr) && (r_t cr <=? vmid) then Some 1
  else if (hmid <=? r_l cr) && (vmid <=? r_b cr) then Some 2
  else if (r_r cr <=? hmid) && (vmid <=? r_b cr) then Some 3
  else if r_r cr <=? hmid then Some 6
  else if hmid <=? r_l cr then Some 7
  else if r_t cr <=? vmid then Some 4
  else if vmid <=? r_b cr then Some 5
  else None.

(** The if-chain of [Traverse::init_idx]; it tests the horizontal cuts
    (sons 4, 5) before the vertical ones (6, 7). *)
Definition idx_son (cr x : Rect) : option Z :=
  let hmid := hmid_of x in
  let vmid := vmid_of x in
  if (r_r cr <=? hmid) && (r_t cr <=? vmid) then Some 0
  else if (hmid <=? r_l cr) && (r_t cr <=? vmid) then Some 1
  else if (hmid <=? r_l cr) && (vmid <=? r_b cr) then Some 2
  else if (r_r cr <=? hmid) && (vmid <=? r_b cr) then Some 3
  else if r_t cr <=? vmid then Some 4
  else if vmid <=? r_b cr then Some 5
  else if r_r cr <=? hmid then Some 6
  else if hmid <=? r_l cr then Some 7
  else None.

(** ** Sub-element addresses *)

(** [(sub_idx << 3) + son + 1] on [uint64_t]. *)
Definition push_idx (idx son : Z) : Z := wrap64 (Z.shiftl idx 3 + son + 1).

(** The address reached from [idx] by a sequence of descent steps. *)
Definition path_idx (idx : Z) (path : list Z) : Z := fold_left push_idx path idx.

(** [Traverse::init_idx]: the [while] loop, with the tracked rectangle
    returned next to the index.  The loop need not terminate, hence the
    fuel. *)
Fixpoint init_idx_loop (fuel : nat) (cr x : Rect) (idx : Z) : result (Z * Rect) :=
  if rect_mismatch cr x then
    match fuel with
    | O => Err OutOfFuel
    | S fuel' =>
        match idx_son cr x with
        | Some son => init_idx_loop fuel' cr (move_to_son x son) (push_idx idx son)
        | None => Err (Undefined AssertFailed)
        end
    end
  else Ok (idx, x).

Definition init_idx (fuel : nat) (cr er : Rect) : result Z :=
  match init_idx_loop fuel cr er 0 with
  | Ok (idx, _) => Ok idx
  | Err e => Err e
  end.

(** ** Boundary flags *)

(** [bool bnd[4]]. *)
Record Bnd : Type := mkBnd { bnd0 : bool; bnd1 : bool; bnd2 : bool; bnd3 : bool }.

Definition bnd_all (v : bool) : Bnd := mkBnd v v v v.

Definition in_sons (son : Z) (allowed : list Z) : bool :=
  existsb (Z.eqb son) allowed.

(** The flag part of [State::push_transform]. *)
Definition push_bnd (bnd : Bnd) (son : Z) (is_triangle : bool) : Bnd :=
  if is_triangle then
    if son <? 3 then
      match son with
      | 0 => mkBnd (bnd0 bnd) false (bnd2 bnd) (bnd3 bnd)
      | 1 => mkBnd (bnd0 bnd) (bnd1 bnd) false (bnd3 bnd)
      | 2 => mkBnd false (bnd1 bnd) (bnd2 bnd) (bnd3 bnd)
      | _ => bnd
      end
    else bnd_all false
  else
    mkBnd (bnd0 bnd && in_sons son [0; 1; 4; 6; 7])
          (bnd1 bnd && in_sons son [1; 2; 7; 4; 5])
          (bnd2 bnd && in_sons son [2; 3; 5; 6; 7])
          (bnd3 bnd && in_sons son [3; 0; 6; 4; 5]).

(** ** Elements and meshes

    The mesh classes live in mesh.h, outside the traversal source.  The
    records below carry the attributes the traversal reads. *)

(** Modelled from the spec: the split type of a refined quadrilateral
    ("unsplit / horizontal / vertical / both"), which the missing
    [Element::bsplit()] and [Element::hsplit()] inspect. *)
Inductive Split : Type := SplitNone | SplitH | SplitV | SplitBoth.

#[warnings="-register-all"]
Inductive Element : Type := mkElement {
  el_id : Z;
  el_used : bool;
  el_active : bool;
  el_is_triangle : bool;
  el_split : Split;
  el_sons : list (option Element);
  el_en_bnd : list bool;
  el_vn_bnd : list bool;
  el_area : float
}.

Definition bsplit (e : Element) : bool :=
  match el_split e with SplitBoth => true | _ => false end.
Definition hsplit (e : Element) : bool :=
  match el_split e with SplitH => true | _ => false end.

(** A mesh: its element array indexed by id, with the counters returned by
    [get_num_base_elements()] and [get_num_active_elements()]. *)
Record Mesh : Type := mkMesh {
  mesh_elements : list Element;
  mesh_num_base : Z;
  mesh_num_active : Z
}.

Definition zlookup {A : Type} (xs : list A) (i : Z) : option A :=
  if i <? 0 then None else xs !! Z.to_nat i.

(** ** The heap of per-state arrays *)

(** One cell of a [new T[num]] array; [Indet] is a cell never written. *)
Inductive cell : Type :=
| Indet
| CElem (p : option Element)
| CRect (x : Rect)
| CIdx (v : Z).

(** A pointer to an array; [None] is [nullptr]. *)
Definition ptr : Type := option positive.

(** [Traverse::State]. *)
Record State : Type := mkState {
  st_e : ptr;
  st_er : ptr;
  st_sub_idx : ptr;
  st_cr : Rect;
  st_bnd : Bnd;
  st_rep : option Element;
  st_rep_i : Z;
  st_visited : bool;
  st_isurf : Z;
  st_isBnd : bool;
  st_num : Z
}.

Definition set_ptrs (pe per ps : ptr) (s : State) : State :=
  mkState pe per ps (st_cr s) (st_bnd s) (st_rep s) (st_rep_i s)
          (st_visited s) (st_isurf s) (st_isBnd s) (st_num s).
Definition set_cr (x : Rect) (s : State) : State :=
  mkState (st_e s) (st_er s) (st_sub_idx s) x (st_bnd s) (st_rep s) (st_rep_i s)
          (st_visited s) (st_isurf s) (st_isBnd s) (st_num s).
Definition set_bnd (x : Bnd) (s : State) : State :=
  mkState (st_e s) (st_er s) (st_sub_idx s) (st_cr s) x (st_rep s) (st_rep_i s)
          (st_visited s) (st_isurf s) (st_isBnd s) (st_num s).
Definition set_rep (x : option Element) (s : State) : State :=
  mkState (st_e s) (st_er s) (st_sub_idx s) (st_cr s) (st_bnd s) x (st_rep_i s)
          (st_visited s) (st_isurf s) (st_isBnd s) (st_num s).
Definition set_rep_i (x : Z) (s : State) : State :=
  mkState (st_e s) (st_er s) (st_sub_idx s) (st_cr s) (st_bnd s) (st_rep s) x
          (st_visited s) (st_isurf s) (st_isBnd s) (st_num s).
Definition set_visited (x : bool) (s : State) : State :=
  mkState (st_e s) (st_er s) (st_sub_idx s) (st_cr s) (st_bnd s) (st_rep s) (st_rep_i s)
          x (st_isurf s) (st_isBnd s) (st_num s).
Definition set_isurf (x : Z) (s : State) : State :=
  mkState (st_e s) (st_er s) (st_sub_idx s) (st_cr s) (st_bnd s) (st_rep s) (st_rep_i s)
          (st_visited s) x (st_isBnd s) (st_num s).
Definition set_isBnd (x : bool) (s : State) : State :=
  mkState (st_e s) (st_er s) (st_sub_idx s) (st_cr s) (st_bnd s) (st_rep s) (st_rep_i s)
          (st_visited s) (st_isurf s) x (st_num s).
Definition set_num (x : Z) (s : State) : State :=
  mkState (st_e s) (st_er s) (st_sub_idx s) (st_cr s) (st_bnd s) (st_rep s) (st_rep_i s)
          (st_visited s) (st_isurf s) (st_isBnd s) x.

(** A [State] after [memset(.., 0, sizeof(State))]. *)
Definition zero_State : State :=
  mkState None None None (mkRect 0 0 0 0) (bnd_all false) None 0 false 0 false 0.

(** The [Traverse] object, together with the heap its states point into. *)
Record Traverse : Type := mkTraverse {
  tr_stack : list State;
  tr_top : Z;
  tr_size : Z;
  tr_num : Z;
  tr_spaces_size : Z;
  tr_heap : gmap positive (list cell)
}.

Definition with_stack (x : list State) (t : Traverse) : Traverse :=
  mkTraverse x (tr_top t) (tr_size t) (tr_num t) (tr_spaces_size t) (tr_heap t).
Definition with_top (x : Z) (t : Traverse) : Traverse :=
  mkTraverse (tr_stack t) x (tr_size t) (tr_num t) (tr_spaces_size t) (tr_heap t).
Definition with_size (x : Z) (t : Traverse) : Traverse :=
  mkTraverse (tr_stack t) (tr_top t) x (tr_num t) (tr_spaces_size t) (tr_heap t).
Definition with_num (x : Z) (t : Traverse) : Traverse :=
  mkTraverse (tr_stack t) (tr_top t) (tr_size t) x (tr_spaces_size t) (tr_heap t).
Definition with_heap (x : gmap positive (list cell)) (t : Traverse) : Traverse :=
  mkTraverse (tr_stack t) (tr_top t) (tr_size t) (tr_num t) (tr_spaces_size t) x.

(** [Traverse::Traverse(int spaces_size)], on a given heap. *)
Definition Traverse_new (spaces_size : Z) (h : gmap positive (list cell)) : Traverse :=
  mkTraverse [] 0 0 0 spaces_size h.

(** ** A state-and-error monad over the [Traverse] object *)

Definition M (A : Type) : Type := Traverse -> result (A * Traverse).

Definition ret {A : Type} (a : A) : M A := fun t => Ok (a, t).
Definition bind {A B : Type} (c : M A) (k : A -> M B) : M B :=
  fun t => match c t with
           | Ok (a, t') => k a t'
           | Err e => Err e
           end.
Definition throw {A : Type} (e : error) : M A := fun _ => Err e.
Definition undef {A : Type} (u : undefined) : M A := throw (Undefined u).
Definition lift {A : Type} (x : result A) : M A :=
  fun t => match x with Ok a => Ok (a, t) | Err e => Err e end.

Declare Scope traverse_scope.
Delimit Scope traverse_scope with trav.
Notation "'let*' x ':=' c 'in' k" := (bind c (fun x => k))
  (at level 10, x name, c at level 100, k at level 200) : traverse_scope.
Notation "c ';;' k" := (bind c (fun _ => k))
  (at level 100, k at level 200, right associativity) : traverse_scope.
Local Open Scope traverse_scope.

Definition gets {A : Type} (f : Traverse -> A) : M A := fun t => Ok (f t, t).

(** [for (i = from; i < from + n; i++) body(i)]. *)
Fixpoint for_loop (n : nat) (i : Z) (body : Z -> M unit) : M unit :=
  match n with
  | O => ret tt
  | S n' => body i ;; for_loop n' (i + 1) body
  end.

(** *** Stack slots *)

(** [stack[i]] read as a whole struct. *)
Definition slot (i : Z) : M State :=
  fun t => match zlookup (tr_stack t) i with
           | Some s => Ok (s, t)
           | None => Err (Undefined OutOfBounds)
           end.

(** An assignment to plain fields of [stack[i]]. *)
Definition update_slot (i : Z) (f : State -> State) : M unit :=
  fun t => match zlookup (tr_stack t) i with
           | Some s => Ok (tt, with_stack (<[Z.to_nat i := f s]> (tr_stack t)) t)
           | None => Err (Undefined OutOfBounds)
           end.

(** *** Arrays *)

Definition load (p : ptr) (i : Z) : M cell :=
  fun t => match p with
           | None => Err (Undefined NullDeref)
           | Some a =>
               match tr_heap t !! a with
               | None => Err (Undefined NullDeref)
               | Some arr =>
                   match zlookup arr i with
                   | Some c => Ok (c, t)
                   | None => Err (Undefined OutOfBounds)
                   end
               end
           end.

Definition store (p : ptr) (i : Z) (c : cell) : M unit :=
  fun t => match p with
           | None => Err (Undefined NullDeref)
           | Some a =>
               match tr_heap t !! a with
               | None => Err (Undefined NullDeref)
               | Some arr =>
                   match zlookup arr i with
                   | Some _ => Ok (tt, with_heap (<[a := <[Z.to_nat i := c]> arr]> (tr_heap t)) t)
                   | None => Err (Undefined OutOfBounds)
                   end
               end
           end.

(** [new T[n]]: a fresh array of [n] cells never written. *)
Definition alloc (n : Z) : M ptr :=
  fun t => let a := fresh (dom (tr_heap t)) in
           Ok (Some a, with_heap (<[a := replicate (Z.to_nat n) Indet]> (tr_heap t)) t).

(** [delete[] p]. *)
Definition dealloc (p : ptr) : M unit :=
  fun t => match p with
           | None => Ok (tt, t)
           | Some a => Ok (tt, with_heap (delete a (tr_heap t)) t)
           end.

Definition as_elem (c : cell) : result (option Element) :=
  match c with
  | CElem p => Ok p
  | Indet => Err (Undefined Uninitialized)
  | _ => Err (Undefined BadCell)
  end.
Definition as_rect (c : cell) : result Rect :=
  match c with
  | CRect x => Ok x
  | Indet => Err (Undefined Uninitialized)
  | _ => Err (Undefined BadCell)
  end.
Definition as_idx (c : cell) : result Z :=
  match c with
  | CIdx v => Ok v
  | Indet => Err (Undefined Uninitialized)
  | _ => Err (Undefined BadCell)
  end.

(** [s->e[i]], [s->er[i]], [s->sub_idx[i]] for [s = stack + si]. *)
Definition get_e (si i : Z) : M (option Element) :=
  let* s := slot si in let* c := load (st_e s) i in lift (as_elem c).
Definition get_er (si i : Z) : M Rect :=
  let* s := slot si in let* c := load (st_er s) i in lift (as_rect c).
Definition get_sub_idx (si i : Z) : M Z :=
  let* s := slot si in let* c := load (st_sub_idx s) i in lift (as_idx c).
Definition put_e (si i : Z) (v : option Element) : M unit :=
  let* s := slot si in store (st_e s) i (CElem v).
Definition put_er (si i : Z) (v : Rect) : M unit :=
  let* s := slot si in store (st_er s) i (CRect v).
Definition put_sub_idx (si i : Z) (v : Z) : M unit :=
  let* s := slot si in store (st_sub_idx s) i (CIdx v).

(** Dereferencing an [Element*]. *)
Definition deref (p : option Element) : M Element :=
  match p with
  | Some e => ret e
  | None => undef NullDeref
  end.

Definition set_top (x : Z) : M unit := fun t => Ok (tt, with_top x t).

(** Conversion of an [int] argument to an [unsigned char] parameter. *)
Definition wrap8 (z : Z) : Z := z mod 256.

Definition mesh_at (meshes : list Mesh) (i : Z) : result Mesh :=
  match zlookup meshes i with
  | Some m => Ok m
  | None => Err (Undefined OutOfBounds)
  end.

(** Modelled from the spec: [Mesh::get_element(id)] of the mesh provider,
    the element stored under [id]; an id outside the element array has no
    defined outcome here. *)
Definition get_element (m : Mesh) (id : Z) : result Element :=
  match zlookup (mesh_elements m) id with
  | Some e => Ok e
  | None => Err (Undefined OutOfBounds)
  end.

(** [e->sons[k]]. *)
Definition son_at (e : Element) (k : Z) : M (option Element) :=
  match zlookup (el_sons e) k with
  | Some p => ret p
  | None => undef OutOfBounds
  end.

(** [e->en[i]->bnd] and [e->vn[i]->bnd]. *)
Definition flag_at (flags : list bool) (i : Z) : M bool :=
  match zlookup flags i with
  | Some v => ret v
  | None => undef OutOfBounds
  end.

(** Short-circuit [a && c] and [a || c]. *)
Definition and_then (a : bool) (c : M bool) : M bool := if a then c else ret false.
Definition or_else (a : bool) (c : M bool) : M bool := if a then ret true else c.

(** [static int get_split_and_sons(Element* e, Rect* cr, Rect* er, int4& sons)]:
    the returned split and the four entries written to [sons]. *)
Definition get_split_and_sons (e : Element) (cr er : Rect) : Z * list Z :=
  let hmid := hmid_of er in
  let vmid := vmid_of er in
  if bsplit e then
    if (r_r cr <=? hmid) && (r_t cr <=? vmid) then (0, [0; 0; 0; 0])
    else if (hmid <=? r_l cr) && (r_t cr <=? vmid) then (0, [1; 1; 1; 1])
    else if (hmid <=? r_l cr) && (vmid <=? r_b cr) then (0, [2; 2; 2; 2])
    else if (r_r cr <=? hmid) && (vmid <=? r_b cr) then (0, [3; 3; 3; 3])
    else if r_r cr <=? hmid then (1, [0; 0; 3; 3])
    else if hmid <=? r_l cr then (1, [1; 1; 2; 2])
    else if r_t cr <=? vmid then (2, [0; 1; 1; 0])
    else if vmid <=? r_b cr then (2, [3; 2; 2; 3])
    else (3, [0; 1; 2; 3])
  else if hsplit e then
    if r_t cr <=? vmid then (0, [4; 4; 4; 4])
    else if vmid <=? r_b cr then (0, [5; 5; 5; 5])
    else (1, [4; 4; 5; 5])
  else
    if r_r cr <=? hmid then (0, [6; 6; 6; 6])
    else if hmid <=? r_l cr then (0, [7; 7; 7; 7])
    else (2, [6; 7; 7; 6]).

Section Traversal.

(** The resolution constant [ONE] of traverse.h, which is not part of the
    source at hand. *)
Variable ONE : Z.

(** The default value of the third parameter of [State::push_transform],
    declared in traverse.h. *)
Variable push_transform_default : bool.

Definition H2D_UNITY : Rect := mkRect 0 0 ONE ONE.

(** [Traverse::State::State()]. *)
Definition State_new : State :=
  mkState None None None H2D_UNITY (bnd_all true) None 0 false (-1) false 0.

(** [Traverse::State::push_transform(son, i, is_triangle)] on [stack[si]]. *)
Definition push_transform (si son i : Z) (is_triangle : bool) : M unit :=
  let son := wrap8 son in
  let i := wrap8 i in
  let* v := get_sub_idx si i in
  put_sub_idx si i (push_idx v son) ;;
  update_slot si (fun s => set_bnd (push_bnd (st_bnd s) son is_triangle) s).

(** [Traverse::State::get_transform(i)]. *)
Definition get_transform (si i : Z) : M Z := get_sub_idx si (wrap8 i).

(** [Traverse::State::is_triangle()] on [stack[si]]. *)
Fixpoint State_is_triangle_loop (n : nat) (si j : Z) : M bool :=
  match n with
  | O => ret false
  | S n' =>
      let* p := get_e si j in
      match p with
      | Some e => ret (el_is_triangle e)
      | None => State_is_triangle_loop n' si (j + 1)
      end
  end.

Definition State_is_triangle (si : Z) : M bool :=
  let* s := slot si in
  State_is_triangle_loop (Z.to_nat (st_num s)) si 0.

(** [Traverse::init_transforms(s, i)] for [s = stack + si]. *)
Fixpoint init_transforms_loop (fuel : nat) (si i : Z) (x : Rect) : M unit :=
  let* s := slot si in
  if rect_mismatch (st_cr s) x then
    match fuel with
    | O => throw OutOfFuel
    | S fuel' =>
        match transforms_son (st_cr s) x with
        | Some son =>
            let* tri := State_is_triangle si in
            push_transform si son i tri ;;
            init_transforms_loop fuel' si i (move_to_son x son)
        | None => undef AssertFailed
        end
    end
  else ret tt.

Definition init_transforms (fuel : nat) (si i : Z) : M unit :=
  let i := wrap8 i in
  let* x := get_er si i in
  init_transforms_loop fuel si i x.

(** [memset(p, 0, n * sizeof(uint64_t))]. *)
Definition memset_idx (p : ptr) (n : Z) : M unit :=
  for_loop (Z.to_nat n) 0 (fun i => store p i (CIdx 0)).

(** [memcpy(dst, src, n * sizeof(T))]. *)
Definition memcpy (dst src : ptr) (n : Z) : M unit :=
  for_loop (Z.to_nat n) 0 (fun i => let* c := load src i in store dst i c).

(** [Traverse::push_state(nullptr)]: the calls of this file all take the
    default argument, so the counter is [this->top].  The result is the
    index of the returned slot. *)
Definition push_state : M Z :=
  let* top := gets tr_top in
  let* size := gets tr_size in
  if size <=? top then throw (Exception "Stack overflow. Increase stack size.")
  else
    let* num := gets tr_num in
    let* s := slot top in
    match st_e s with
    | None =>
        let* pe := alloc num in
        let* per := alloc num in
        let* ps := alloc num in
        update_slot top (set_ptrs pe per ps)
    | Some _ => ret tt
    end ;;
    update_slot top (fun s => set_isurf (-1) (set_visited false s)) ;;
    let* s := slot top in
    memset_idx (st_sub_idx s) num ;;
    update_slot top (fun s => set_num num (set_bnd (bnd_all true) s)) ;;
    set_top (top + 1) ;;
    ret top.

(** The first non-null [s->e[i]], or [nullptr]. *)
Fixpoint first_element (n : nat) (si i : Z) : M (option Element) :=
  match n with
  | O => ret None
  | S n' =>
      let* p := get_e si i in
      match p with
      | Some _ => ret p
      | None => first_element n' si (i + 1)
      end
  end.

(** [Traverse::set_boundary_info(s)]. *)
Definition set_boundary_info (si : Z) : M unit :=
  let* num := gets tr_num in
  let* p := first_element (Z.to_nat num) si 0 in
  let* e := deref p in
  let* s := slot si in
  let bnd := st_bnd s in
  let cr := st_cr s in
  if el_is_triangle e then
    let* b0 := and_then (bnd0 bnd) (flag_at (el_en_bnd e) 0) in
    let* b1 := and_then (bnd1 bnd) (flag_at (el_en_bnd e) 1) in
    let* b2 := and_then (bnd2 bnd) (flag_at (el_en_bnd e) 2) in
    let* ib :=
      or_else (b0 || b1 || b2)
        (let* v0 := flag_at (el_vn_bnd e) 0 in
         or_else v0
           (let* v1 := flag_at (el_vn_bnd e) 1 in
            or_else v1 (flag_at (el_vn_bnd e) 2))) in
    update_slot si (fun s => set_isBnd ib (set_bnd (mkBnd b0 b1 b2 (bnd3 bnd)) s))
  else
    let* b0 := and_then (bnd0 bnd && (r_b cr =? 0)) (flag_at (el_en_bnd e) 0) in
    let* b1 := and_then (bnd1 bnd && (r_r cr =? ONE)) (flag_at (el_en_bnd e) 1) in
    let* b2 := and_then (bnd2 bnd && (r_t cr =? ONE)) (flag_at (el_en_bnd e) 2) in
    let* b3 := and_then (bnd3 bnd && (r_l cr =? 0)) (flag_at (el_en_bnd e) 3) in
    let* ib :=
      or_else (b0 || b1 || b2 || b3)
        (let* v0 := flag_at (el_vn_bnd e) 0 in
         or_else v0
           (let* v1 := flag_at (el_vn_bnd e) 1 in
            or_else v1
              (let* v2 := flag_at (el_vn_bnd e) 2 in
               or_else v2 (flag_at (el_vn_bnd e) 3)))) in
    update_slot si (fun s => set_isBnd ib (set_bnd (mkBnd b0 b1 b2 b3) s)).

(** [Traverse::State::clone(other)] for [other = stack + si]: the new
    [State] object, returned by value, with its two fresh arrays. *)
Definition clone (si : Z) : M State :=
  let* other := slot si in
  let num := st_num other in
  let* pe := alloc num in
  let* ps := alloc num in
  memcpy pe (st_e other) num ;;
  memcpy ps (st_sub_idx other) num ;;
  ret (mkState pe None ps H2D_UNITY (st_bnd other) (st_rep other) (st_rep_i other)
               (st_visited other) (st_isurf other) (st_isBnd other) num).

(** [Traverse::begin(n)]. *)
Definition begin (n : Z) : M unit :=
  if 0 <? n then
    fun t => let size := 256 in
             Ok (tt, mkTraverse (replicate (Z.to_nat size) zero_State) 0 size n
                                (tr_spaces_size t) (tr_heap t))
  else undef AssertFailed.

(** [Traverse::free_state(stack + si)]. *)
Definition free_state (si : Z) : M unit :=
  let* s := slot si in
  dealloc (st_e s) ;;
  dealloc (st_er s) ;;
  dealloc (st_sub_idx s) ;;
  update_slot si (fun _ => zero_State).

(** [Traverse::finish()]; the empty list stands for [stack == nullptr]. *)
Definition finish : M unit :=
  let* stack := gets tr_stack in
  match stack with
  | [] => ret tt
  | _ =>
      let* size := gets tr_size in
      for_loop (Z.to_nat size) 0
        (fun i => let* s := slot i in
                  match st_e s with
                  | Some _ => free_state i
                  | None => ret tt
                  end) ;;
      fun t => Ok (tt, with_stack [] t)
  end.

(** ** [Traverse::get_states] *)

(** The locals of [get_states] that live across iterations of its outer
    loop: the next base element [id], the returned array [states] (its
    [count] entries so far) and its capacity [predictedCount]. *)
Record Locals : Type := mkLocals {
  lc_id : Z;
  lc_states : list State;
  lc_predictedCount : Z
}.

Definition lc_count (lc : Locals) : Z := Z.of_nat (length (lc_states lc)).

(** [while (top > 0 && (s = stack + top - 1)->visited) top--;] which runs
    at most [top] times. *)
Fixpoint pop_visited (n : nat) : M unit :=
  match n with
  | O => ret tt
  | S n' =>
      let* top := gets tr_top in
      if 0 <? top then
        let* s := slot (top - 1) in
        if st_visited s then set_top (top - 1) ;; pop_visited n' else ret tt
      else ret tt
  end.

(** The loop over the meshes that loads base element [id] into the state
    [stack[si]]; the result is [nused]. *)
Fixpoint load_base_element (n : nat) (meshes : list Mesh) (si id i nused : Z) : M Z :=
  match n with
  | O => ret nused
  | S n' =>
      let* m := lift (mesh_at meshes i) in
      let* e := lift (get_element m id) in
      put_e si i (Some e) ;;
      if negb (el_used e) then
        put_e si i None ;;
        load_base_element n' meshes si id (i + 1) nused
      else
        update_slot si (fun s => set_rep_i 0 (set_rep (Some e) s)) ;;
        put_er si i H2D_UNITY ;;
        load_base_element n' meshes si id (i + 1) (nused + 1)
  end.

(** The inner [while (1)] that looks for the next base element with a
    used element on some mesh: [Some id] when one is found (before the
    [id++] that follows the loop), [None] when the base elements are
    exhausted.  It runs at most [num_base - id + 1] times. *)
Fixpoint next_base_element (n : nat) (meshes : list Mesh) (si id : Z) : M (option Z) :=
  let* m0 := lift (mesh_at meshes 0) in
  if mesh_num_base m0 <=? id then ret None
  else
    let* num := gets tr_num in
    let* nused := load_base_element (Z.to_nat num) meshes si id 0 0 in
    if negb (nused =? 0) then ret (Some id)
    else
      match n with
      | O => throw OutOfFuel
      | S n' => next_base_element n' meshes si (id + 1)
      end.

(** "Entering a new state, perform transformations." *)
Definition enter_state (fuel : nat) (si : Z) : M unit :=
  update_slot si (set_visited true) ;;
  let* num := gets tr_num in
  for_loop (Z.to_nat num) 0
    (fun i =>
       let* p := get_e si i in
       match p with
       | Some e =>
           if el_used e then
             let* v := get_sub_idx si i in
             if (v =? 0) && el_active e then
               if negb (el_is_triangle e) then init_transforms fuel si i else ret tt
             else ret tt
           else ret tt
       | None => ret tt
       end).

(** "Is this the leaf state?" *)
Fixpoint is_leaf (n : nat) (si i : Z) : M bool :=
  match n with
  | O => ret true
  | S n' =>
      let* p := get_e si i in
      match p with
      | Some e =>
          if el_used e && negb (el_active e) then ret false
          else is_leaf n' si (i + 1)
      | None => is_leaf n' si (i + 1)
      end
  end.

(** The loop over the spaces that designates the representative. *)
Definition choose_rep (si : Z) : M unit :=
  let* spaces_size := gets tr_spaces_size in
  for_loop (Z.to_nat spaces_size) 0
    (fun j =>
       let* p := get_e si j in
       match p with
       | Some e =>
           if el_used e then update_slot si (fun s => set_rep_i j (set_rep (Some e) s))
           else ret tt
       | None => ret tt
       end).

(** [predictedCount *= 1.5] on an [int]: the product is formed in
    [double] and truncated. *)
Definition grow_predicted (p : Z) : M Z :=
  let p' := Z.quot (3 * p) 2 in
  if (p' <? 2 ^ 31) && (- 2 ^ 31 <=? p') then ret p' else undef IntOverflow.

(** The body of [if (leaf) { ... continue; }]. *)
Definition emit_leaf (si : Z) (lc : Locals) : M Locals :=
  let* predicted :=
    (if lc_predictedCount lc - 1 <? lc_count lc
     then grow_predicted (lc_predictedCount lc)
     else ret (lc_predictedCount lc)) in
  set_boundary_info si ;;
  update_slot si (set_rep None) ;;
  choose_rep si ;;
  let* s := slot si in
  match st_rep s with
  | Some _ =>
      let* c := clone si in
      if lc_count lc <? predicted
      then ret (mkLocals (lc_id lc) (lc_states lc ++ [c]) predicted)
      else undef OutOfBounds
  | None => ret (mkLocals (lc_id lc) (lc_states lc) predicted)
  end.

(** "Triangle: push son states", one iteration of the loop over [son]. *)
Definition push_triangle_son (si son : Z) : M unit :=
  let* ns := push_state in
  let* num := gets tr_num in
  for_loop (Z.to_nat num) 0
    (fun i =>
       let* p := get_e si i in
       match p with
       | None => put_e ns i None
       | Some e =>
           if negb (el_used e) then put_e ns i None
           else if el_active e then
             put_e ns i (Some e) ;;
             let* v := get_sub_idx si i in
             put_sub_idx ns i v ;;
             push_transform ns son i true
           else
             let* c := son_at e son in
             put_e ns i c ;;
             let* ce := deref c in
             if el_active ce then put_sub_idx ns i 0 else ret tt
       end) ;;
  let* s := slot si in
  let bnd := st_bnd s in
  if son <? 3 then
    update_slot ns
      (set_bnd (match son with
                | 0 => mkBnd (bnd0 bnd) false (bnd2 bnd) (bnd3 bnd)
                | 1 => mkBnd (bnd0 bnd) (bnd1 bnd) false (bnd3 bnd)
                | 2 => mkBnd false (bnd1 bnd) (bnd2 bnd) (bnd3 bnd)
                | _ => bnd
                end))
  else update_slot ns (set_bnd (bnd_all false)).

(** [current_sons[i]], filled only for the non-active elements. *)
Fixpoint split_and_sons (n : nat) (si i split : Z) (acc : list (option (list Z)))
  : M (Z * list (option (list Z))) :=
  match n with
  | O => ret (split, acc)
  | S n' =>
      let* p := get_e si i in
      match p with
      | Some e =>
          if negb (el_active e) then
            let* s := slot si in
            let* x := get_er si i in
            let '(sp, sons) := get_split_and_sons e (st_cr s) x in
            split_and_sons n' si (i + 1) (Z.lor split sp) (acc ++ [Some sons])
          else split_and_sons n' si (i + 1) split (acc ++ [None])
      | None => split_and_sons n' si (i + 1) split (acc ++ [None])
      end
  end.

(** [current_sons[i][k]]. *)
Definition current_son (current_sons : list (option (list Z))) (i k : Z) : M Z :=
  match zlookup current_sons i with
  | Some (Some sons) =>
      match zlookup sons k with
      | Some v => ret v
      | None => undef OutOfBounds
      end
  | Some None => undef Uninitialized
  | None => undef OutOfBounds
  end.

(** The move of mesh [i] to the son with code [code], shared by the three
    quad branches. *)
Definition move_element (si ns i : Z) (e : Element) (code : Z) : M unit :=
  let* c := son_at e (Z.land code 3) in
  put_e ns i c ;;
  let* x := get_er si i in
  put_er ns i (move_to_son x code) ;;
  let* ce := deref c in
  if el_active ce then put_sub_idx ns i 0 else ret tt.

(** One son of the "both splits" and "v or h split" branches; [k] is the
    column of [current_sons] the branch reads ([son], resp. [j]). *)
Definition push_quad_son (si son k : Z) (current_sons : list (option (list Z))) : M unit :=
  let* ns := push_state in
  let* s := slot si in
  update_slot ns (set_cr (move_to_son (st_cr s) son)) ;;
  let* num := gets tr_num in
  for_loop (Z.to_nat num) 0
    (fun i =>
       let* p := get_e si i in
       match p with
       | None => put_e ns i None
       | Some e =>
           if negb (el_used e) then put_e ns i None
           else if el_active e then
             put_e ns i (Some e) ;;
             let* v := get_sub_idx si i in
             put_sub_idx ns i v ;;
             push_transform ns son i push_transform_default
           else
             let* code := current_son current_sons i k in
             move_element si ns i e code
       end).

(** "No splits, recur to one son." *)
Definition push_quad_single (si : Z) (current_sons : list (option (list Z))) : M unit :=
  let* ns := push_state in
  let* s := slot si in
  update_slot ns (set_cr (st_cr s)) ;;
  let* num := gets tr_num in
  for_loop (Z.to_nat num) 0
    (fun i =>
       let* p := get_e si i in
       match p with
       | None => put_e ns i None
       | Some e =>
           if negb (el_used e) then put_e ns i None
           else if el_active e then
             put_e ns i (Some e) ;;
             let* nst := slot ns in
             put_er ns i (st_cr nst)
           else
             let* code := current_son current_sons i 0 in
             move_element si ns i e code
       end).

(** The part of the outer loop body that pushes the son states of the
    non-leaf state [stack[si]]. *)
Definition push_sons (si : Z) : M unit :=
  let* tri := State_is_triangle si in
  if tri then
    for_loop 4 0 (fun son => push_triangle_son si son)
  else
    let* num := gets tr_num in
    let* sp := split_and_sons (Z.to_nat num) si 0 0 [] in
    let '(split, current_sons) := sp in
    if split =? 3 then
      for_loop 4 0 (fun son => push_quad_son si son son current_sons)
    else if 0 <? split then
      let son0 := if split =? 2 then 6 else 4 in
      for_loop 2 son0
        (fun son =>
           let j := if (son =? 4) || (son =? 6) then 0 else 2 in
           push_quad_son si son j current_sons)
    else push_quad_single si current_sons.

(** What one iteration of the outer [while (1)] ends with. *)
Inductive iteration : Type :=
| Continue (lc : Locals)
| Return (states : list State).

(** The start of an iteration: the state to process, with the updated
    [id], or [None] when the traversal is over. *)
Definition select_state (meshes : list Mesh) (lc : Locals) : M (option (Z * Z)) :=
  let* top0 := gets tr_top in
  pop_visited (Z.to_nat top0) ;;
  let* top := gets tr_top in
  if top <=? 0 then
    let* si := push_state in
    update_slot si (set_cr H2D_UNITY) ;;
    let* m0 := lift (mesh_at meshes 0) in
    let* found := next_base_element (Z.to_nat (mesh_num_base m0 - lc_id lc))
                                    meshes si (lc_id lc) in
    match found with
    | None => finish ;; ret None
    | Some id =>
        let* tri := State_is_triangle si in
        (if tri then
           update_slot si (fun s => set_bnd (mkBnd true true true (bnd3 (st_bnd s))) s)
         else ret tt) ;;
        ret (Some (si, id + 1))
    end
  else ret (Some (top - 1, lc_id lc)).

(** The second half of an iteration, from "Is this the leaf state?" on:
    the state [stack[si]] is emitted or its sons are pushed. *)
Definition finish_state (si : Z) (lc : Locals) : M iteration :=
  let* num := gets tr_num in
  let* leaf := is_leaf (Z.to_nat num) si 0 in
  if leaf then
    let* lc' := emit_leaf si lc in
    ret (Continue lc')
  else
    push_sons si ;;
    ret (Continue lc).

(** One iteration of the outer [while (1)]. *)
Definition loop_body (fuel : nat) (meshes : list Mesh) (lc : Locals) : M iteration :=
  let* sel := select_state meshes lc in
  match sel with
  | None => ret (Return (lc_states lc))
  | Some (si, id) =>
      enter_state fuel si ;;
      finish_state si (mkLocals id (lc_states lc) (lc_predictedCount lc))
  end.

Fixpoint get_states_loop (fuel : nat) (meshes : list Mesh) (lc : Locals) : M (list State) :=
  match fuel with
  | O => throw OutOfFuel
  | S fuel' =>
      let* it := loop_body fuel' meshes lc in
      match it with
      | Return states => ret states
      | Continue lc' => get_states_loop fuel' meshes lc'
      end
  end.

(** The initial [predictedCount]: the largest active-element count. *)
Fixpoint predicted_count (n : nat) (meshes : list Mesh) (i acc : Z) : result Z :=
  match n with
  | O => Ok acc
  | S n' =>
      match mesh_at meshes i with
      | Ok m =>
          predicted_count n' meshes (i + 1)
            (if acc <? mesh_num_active m then mesh_num_active m else acc)
      | Err e => Err e
      end
  end.

(** [Traverse::get_states(MeshSharedPtr* meshes, unsigned short
    meshes_count, unsigned int& states_count)]: the returned array;
    [states_count] is its length. *)
Definition get_states (fuel : nat) (meshes : list Mesh) (meshes_count : Z) : M (list State) :=
  (fun t => Ok (tt, with_num meshes_count t)) ;;
  let* predicted := lift (predicted_count (Z.to_nat meshes_count) meshes 0 0) in
  let* num := gets tr_num in
  begin num ;;
  get_states_loop fuel meshes (mkLocals 0 [] predicted).

End Traversal.

(** ** Compatibility checks *)

(** [static void testMeshesCompliance(int n, MeshSharedPtr* meshes)]. *)
Fixpoint testMeshesCompliance_loop (k : nat) (meshes : list Mesh) (base_elem_num i : Z)
  : result unit :=
  match k with
  | O => Ok tt
  | S k' =>
      match mesh_at meshes i with
      | Ok m =>
          if negb (base_elem_num =? mesh_num_base m)
          then Err (Exception "Meshes not compatible in Traverse::begin().")
          else testMeshesCompliance_loop k' meshes base_elem_num (i + 1)
      | Err e => Err e
      end
  end.

Definition testMeshesCompliance (n : Z) (meshes : list Mesh) : result unit :=
  match mesh_at meshes 0 with
  | Ok m0 => testMeshesCompliance_loop (Z.to_nat (n - 1)) meshes (mesh_num_base m0) 1
  | Err e => Err e
  end.

Section Quality.

(** [Hermes::HermesSqrtEpsilon], a constant of hermes_common. *)
Variable HermesSqrtEpsilon : float.

(** Modelled from the spec: the missing macro
    [for_all_base_elements_incl_inactive(e, mesh)] visits the base
    elements of the mesh, used or not, in the order of their ids. *)
Definition base_elements_incl_inactive (m : Mesh) : list Element :=
  take (Z.to_nat (mesh_num_base m)) (mesh_elements m).

(** The initial [min_elem_area], the [double] written [1e30]. *)
Definition min_elem_area_init : float := 0x1.93e5939a08ceap+99%float.

(** The first loop of [testMeshesQuality]: the areas of the base elements
    of the first mesh and the smallest area of a used one. *)
Fixpoint read_areas (es : list Element) (areas : list float) (counter : Z)
                    (min_elem_area : float) : result (list float * float) :=
  match es with
  | [] => Ok (areas, min_elem_area)
  | e :: es' =>
      match zlookup areas counter with
      | None => Err (Undefined OutOfBounds)
      | Some _ =>
          if negb (el_used e) then
            read_areas es' (<[Z.to_nat counter := 0%float]> areas) (counter + 1) min_elem_area
          else
            read_areas es' (<[Z.to_nat counter := el_area e]> areas) (counter + 1)
                       (if PrimFloat.ltb (el_area e) min_elem_area
                        then el_area e else min_elem_area)
      end
  end.

(** The comparison of one further mesh against [areas]. *)
Fixpoint compare_areas (es : list Element) (areas : list float) (counter : Z)
                       (tolerance : float) : result unit :=
  match es with
  | [] => Ok tt
  | e :: es' =>
      if el_used e then
        match zlookup areas counter with
        | None => Err (Undefined OutOfBounds)
        | Some a =>
            if PrimFloat.ltb tolerance (PrimFloat.abs (PrimFloat.sub a (el_area e)))
               && PrimFloat.ltb HermesSqrtEpsilon a
            then Err (Exception "An element is probably too distorted, try different meshing.")
            else compare_areas es' areas (counter + 1) tolerance
        end
      else compare_areas es' areas (counter + 1) tolerance
  end.

Fixpoint testMeshesQuality_loop (k : nat) (meshes : list Mesh) (i : Z)
                                (areas : list float) (tolerance : float) : result unit :=
  match k with
  | O => Ok tt
  | S k' =>
      match mesh_at meshes i with
      | Ok m =>
          match compare_areas (base_elements_incl_inactive m) areas 0 tolerance with
          | Ok _ => testMeshesQuality_loop k' meshes (i + 1) areas tolerance
          | Err e => Err e
          end
      | Err e => Err e
      end
  end.

(** [static void testMeshesQuality(int n, MeshSharedPtr* meshes)]. *)
Definition testMeshesQuality (n : Z) (meshes : list Mesh) : result unit :=
  match mesh_at meshes 0 with
  | Ok m0 =>
      let base_elem_num := mesh_num_base m0 in
      match read_areas (base_elements_incl_inactive m0)
                       (replicate (Z.to_nat base_elem_num) 0%float) 0 min_elem_area_init with
      | Ok (areas, min_elem_area) =>
          let tolerance := PrimFloat.div min_elem_area 100%float in
          if PrimFloat.ltb min_elem_area 0%float then Err (ValueException "min_elem_area")
          else testMeshesQuality_loop (Z.to_nat (n - 1)) meshes 1 areas tolerance
      | Err e => Err e
      end
  | Err e => Err e
  end.

End Quality.

(** ** Union mesh construction *)

Definition rbind {A B : Type} (x : result A) (k : A -> result B) : result B :=
  match x with
  | Ok a => k a
  | Err e => Err e
  end.

Notation "'let+' x ':=' c 'in' k" := (rbind c (fun x => k))
  (at level 10, x name, c at level 100, k at level 200) : traverse_scope.

(** Modelled from the spec: [struct UniData] of traverse.h, "pointer to
    the source mesh's element at that position plus the corresponding
    sub-address". *)
Record UniData : Type := mkUniData { ud_e : option Element; ud_idx : Z }.

(** Reads and writes of the local arrays of [union_recurrent]. *)
Definition rd (xs : list cell) (i : Z) : result cell :=
  match zlookup xs i with
  | Some c => Ok c
  | None => Err (Undefined OutOfBounds)
  end.

Definition wr (xs : list cell) (i : Z) (c : cell) : result (list cell) :=
  match zlookup xs i with
  | Some _ => Ok (<[Z.to_nat i := c]> xs)
  | None => Err (Undefined OutOfBounds)
  end.

(** [e[i]] dereferenced. *)
Definition rd_element (e : list cell) (i : Z) : result Element :=
  let+ c := rd e i in
  let+ p := as_elem c in
  match p with
  | Some x => Ok x
  | None => Err (Undefined NullDeref)
  end.

Definition rd_idx (idx : list cell) (i : Z) : result Z :=
  let+ c := rd idx i in as_idx c.

Definition rd_rect (er : option (list cell)) (i : Z) : result Rect :=
  match er with
  | None => Err (Undefined NullDeref)
  | Some xs => let+ c := rd xs i in as_rect c
  end.

(** [int] range. *)
Definition in_int (z : Z) : bool := (- 2 ^ 31 <=? z) && (z <? 2 ^ 31).

(** [while (udsize <= uni->id) udsize *= 2;] on [int]s: it doubles at most
    32 times before leaving the range of [int]. *)
Fixpoint double_udsize (n : nat) (udsize id : Z) : result Z :=
  if udsize <=? id then
    match n with
    | O => Err OutOfFuel
    | S n' =>
        if in_int (udsize * 2) then double_udsize n' (udsize * 2) id
        else Err (Undefined IntOverflow)
    end
  else Ok udsize.

(** [realloc(p, n * sizeof(UniData))]: the old entries, then entries
    never written. *)
Definition realloc_unidata (old : option (list (option UniData))) (n : Z)
  : option (list (option UniData)) :=
  let xs := default [] old in
  Some (take (Z.to_nat n) xs ++ replicate (Z.to_nat n - length xs)%nat None).

(** "are we at the bottom?" *)
Fixpoint all_active (n : nat) (e : list cell) (i : Z) : result bool :=
  match n with
  | O => Ok true
  | S n' =>
      let+ x := rd_element e i in
      if negb (el_active x) then Ok false else all_active n' e (i + 1)
  end.

(** [unidata[i][id].e = e[i]; unidata[i][id].idx = idx[i];] for every mesh. *)
Fixpoint store_unidata (n : nat) (e idx : list cell) (id i : Z)
                       (unidata : list (option (list (option UniData))))
  : result (list (option (list (option UniData)))) :=
  match n with
  | O => Ok unidata
  | S n' =>
      match zlookup unidata i with
      | None => Err (Undefined OutOfBounds)
      | Some None => Err (Undefined NullDeref)
      | Some (Some table) =>
          match zlookup table id with
          | None => Err (Undefined OutOfBounds)
          | Some _ =>
              let+ c := rd e i in
              let+ p := as_elem c in
              let+ v := rd_idx idx i in
              store_unidata n' e idx id (i + 1)
                (<[Z.to_nat i := Some (<[Z.to_nat id := Some (mkUniData p v)]> table)]> unidata)
          end
      end
  end.

(** The local arrays [e_new], [er_new] and [idx_new]. *)
Record Arrays : Type := mkArrays { a_e : list cell; a_er : list cell; a_idx : list cell }.

(** The loop over the meshes in the triangle branch, for one [son]. *)
Fixpoint fill_triangle (n : nat) (e idx : list cell) (son i : Z) (a : Arrays) : result Arrays :=
  match n with
  | O => Ok a
  | S n' =>
      let+ x := rd_element e i in
      if el_active x then
        let+ e_new := wr (a_e a) i (CElem (Some x)) in
        let+ v := rd_idx idx i in
        let+ idx_new := wr (a_idx a) i (CIdx (push_idx v son)) in
        fill_triangle n' e idx son (i + 1) (mkArrays e_new (a_er a) idx_new)
      else
        match zlookup (el_sons x) son with
        | None => Err (Undefined OutOfBounds)
        | Some p =>
            let+ e_new := wr (a_e a) i (CElem p) in
            fill_triangle n' e idx son (i + 1) (mkArrays e_new (a_er a) (a_idx a))
        end
  end.

(** [sons[i]], filled only for the non-active elements, and [split]. *)
Fixpoint union_split_and_sons (n : nat) (cr : option Rect) (e : list cell)
                              (er : option (list cell)) (i split : Z)
                              (acc : list (option (list Z)))
  : result (Z * list (option (list Z))) :=
  match n with
  | O => Ok (split, acc)
  | S n' =>
      let+ x := rd_element e i in
      if negb (el_active x) then
        match cr with
        | None => Err (Undefined NullDeref)
        | Some c =>
            let+ y := rd_rect er i in
            let '(sp, sons) := get_split_and_sons x c y in
            union_split_and_sons n' cr e er (i + 1) (Z.lor split sp) (acc ++ [Some sons])
        end
      else union_split_and_sons n' cr e er (i + 1) split (acc ++ [None])
  end.

Definition union_son (sons : list (option (list Z))) (i k : Z) : result Z :=
  match zlookup sons i with
  | Some (Some row) =>
      match zlookup row k with
      | Some v => Ok v
      | None => Err (Undefined OutOfBounds)
      end
  | Some None => Err (Undefined Uninitialized)
  | None => Err (Undefined OutOfBounds)
  end.

(** The loop over the meshes in a quad branch, for one son state: [k] is
    the column of [sons] read, [transform] the son appended to the index
    of an active element ([None] in the branch without split). *)
Fixpoint fill_quad (fuel n : nat) (cr_new : Rect) (e : list cell) (er : option (list cell))
                   (idx : list cell) (sons : list (option (list Z)))
                   (transform : option Z) (k i : Z) (a : Arrays) : result Arrays :=
  match n with
  | O => Ok a
  | S n' =>
      let+ x := rd_element e i in
      if el_active x then
        let+ e_new := wr (a_e a) i (CElem (Some x)) in
        match transform with
        | Some son =>
            let+ v := rd_idx idx i in
            let+ idx_new := wr (a_idx a) i (CIdx (push_idx v son)) in
            fill_quad fuel n' cr_new e er idx sons transform k (i + 1)
                      (mkArrays e_new (a_er a) idx_new)
        | None =>
            fill_quad fuel n' cr_new e er idx sons transform k (i + 1)
                      (mkArrays e_new (a_er a) (a_idx a))
        end
      else
        let+ code := union_son sons i k in
        match zlookup (el_sons x) (Z.land code 3) with
        | None => Err (Undefined OutOfBounds)
        | Some p =>
            let+ e_new := wr (a_e a) i (CElem p) in
            let+ y := rd_rect er i in
            let er_i := move_to_son y code in
            let+ er_new := wr (a_er a) i (CRect er_i) in
            match p with
            | None => Err (Undefined NullDeref)
            | Some son_el =>
                if el_active son_el then
                  let+ v := init_idx fuel cr_new er_i in
                  let+ idx_new := wr (a_idx a) i (CIdx v) in
                  fill_quad fuel n' cr_new e er idx sons transform k (i + 1)
                            (mkArrays e_new er_new idx_new)
                else
                  fill_quad fuel n' cr_new e er idx sons transform k (i + 1)
                            (mkArrays e_new er_new (a_idx a))
            end
        end
  end.

Section Union.

(** The resolution constant [ONE] of traverse.h, then the union mesh and
    the [Mesh] operations [union_recurrent] and [construct_union_mesh]
    call on it; they live in mesh.cpp.  [UElem] is an [Element*] into the
    union mesh, [refine_default] the default refinement argument of
    [Mesh::refine_element_id]. *)
Variable ONE : Z.
Variable UMesh : Type.
Variable UElem : Type.
Variable uni_id : UMesh -> UElem -> Z.
Variable uni_is_triangle : UMesh -> UElem -> bool.
Variable uni_sons : UMesh -> UElem -> Z -> UElem.
Variable refine_element_id : UMesh -> Z -> Z -> UMesh.
Variable refine_default : Z.
Variable copy_base : UMesh -> Mesh -> UMesh.
Variable uni_get_element : UMesh -> Z -> UElem.

(** The members of [Traverse] that the union construction uses. *)
Record Union : Type := mkUnion {
  un_num : Z;
  un_udsize : Z;
  un_unidata : list (option (list (option UniData)));
  un_unimesh : UMesh
}.

(** The body of [if (leaf) { ... return; }]. *)
Definition record_leaf (e idx : list cell) (uni : UElem) (u : Union) : result Union :=
  let id := uni_id (un_unimesh u) uni in
  let+ grown :=
    (if un_udsize u <=? id then
       let+ udsize := double_udsize 32 (if un_udsize u =? 0 then 1024 else un_udsize u) id in
       Ok (udsize, map (fun p => realloc_unidata p udsize) (take (Z.to_nat (un_num u)) (un_unidata u))
                   ++ drop (Z.to_nat (un_num u)) (un_unidata u))
     else Ok (un_udsize u, un_unidata u)) in
  let+ unidata := store_unidata (Z.to_nat (un_num u)) e idx id 0 (snd grown) in
  Ok (mkUnion (un_num u) (fst grown) unidata (un_unimesh u)).

(** The loop over the sons: [fill] prepares the arrays of one son state
    and its rectangle, [uni_son] reads [uni->sons[..]] in the current union
    mesh, [rec] is the recursive call. *)
Fixpoint sons_loop (rec : option Rect -> list cell -> option (list cell) -> list cell ->
                          UElem -> Union -> result Union)
                   (fill : Z -> Arrays -> result (option Rect * Arrays))
                   (uni_son : UMesh -> Z -> UElem)
                   (n : nat) (son : Z) (a : Arrays) (u : Union) : result Union :=
  match n with
  | O => Ok u
  | S n' =>
      let+ f := fill son a in
      let '(cr_new, a') := f in
      let+ u' := rec cr_new (a_e a')
                     (match cr_new with Some _ => Some (a_er a') | None => None end)
                     (a_idx a') (uni_son (un_unimesh u) son) u in
      sons_loop rec fill uni_son n' (son + 1) a' u'
  end.

(** [Traverse::union_recurrent(cr, e, er, idx, uni)]. *)
Fixpoint union_recurrent (fuel : nat) (cr : option Rect) (e : list cell)
                         (er : option (list cell)) (idx : list cell) (uni : UElem)
                         (u : Union) : result Union :=
  match fuel with
  | O => Err OutOfFuel
  | S fuel' =>
      let num := Z.to_nat (un_num u) in
      let+ leaf := all_active num e 0 in
      if leaf then record_leaf e idx uni u
      else
        let a := mkArrays (replicate num Indet) (replicate num Indet) (take num idx) in
        if uni_is_triangle (un_unimesh u) uni then
          let u1 := mkUnion (un_num u) (un_udsize u) (un_unidata u)
                      (refine_element_id (un_unimesh u) (uni_id (un_unimesh u) uni)
                                         refine_default) in
          sons_loop (union_recurrent fuel')
            (fun son a => let+ a' := fill_triangle num e idx son 0 a in Ok (None, a'))
            (fun m son => uni_sons m uni son)
            4 0 a u1
        else
          let+ ss := union_split_and_sons num cr e er 0 0 [] in
          let '(split, sons) := ss in
          match cr with
          | None => Err (Undefined NullDeref)
          | Some c =>
              if split =? 3 then
                let u1 := mkUnion (un_num u) (un_udsize u) (un_unidata u)
                            (refine_element_id (un_unimesh u) (uni_id (un_unimesh u) uni) 0) in
                sons_loop (union_recurrent fuel')
                  (fun son a =>
                     let cr_new := move_to_son c son in
                     let+ a' := fill_quad fuel' num cr_new e er idx sons (Some son) son 0 a in
                     Ok (Some cr_new, a'))
                  (fun m son => uni_sons m uni son)
                  4 0 a u1
              else if 0 <? split then
                let u1 := mkUnion (un_num u) (un_udsize u) (un_unidata u)
                            (refine_element_id (un_unimesh u) (uni_id (un_unimesh u) uni) split) in
                sons_loop (union_recurrent fuel')
                  (fun son a =>
                     let cr_new := move_to_son c son in
                     let j := if (son =? 4) || (son =? 6) then 0 else 2 in
                     let+ a' := fill_quad fuel' num cr_new e er idx sons (Some son) j 0 a in
                     Ok (Some cr_new, a'))
                  (fun m son => uni_sons m uni (Z.land son 3))
                  2 (if split =? 2 then 6 else 4) a u1
              else
                let+ a' := fill_quad fuel' num c e er idx sons None 0 0 a in
                union_recurrent fuel' (Some c) (a_e a') (Some (a_er a')) (a_idx a') uni u
          end
  end.

(** The loop over the base elements of [construct_union_mesh]. *)
Fixpoint union_base_elements (fuel k : nat) (n : Z) (meshes : list Mesh) (id : Z)
                             (u : Union) : result Union :=
  match k with
  | O => Ok u
  | S k' =>
      let+ m0 := mesh_at meshes 0 in
      let+ e0 := get_element m0 id in
      if negb (el_used e0) then union_base_elements fuel k' n meshes (id + 1) u
      else
        let+ e :=
          (fix load (j : nat) (i : Z) (acc : list cell) : result (list cell) :=
             match j with
             | O => Ok acc
             | S j' =>
                 let+ m := mesh_at meshes i in
                 let+ x := get_element m id in
                 load j' (i + 1) (acc ++ [CElem (Some x)])
             end) (Z.to_nat n) 0 [] in
        let unity := mkRect 0 0 ONE ONE in
        let+ u' := union_recurrent fuel (Some unity) e
                                   (Some (replicate (Z.to_nat n) (CRect unity)))
                                   (replicate (Z.to_nat n) (CIdx 0))
                                   (uni_get_element (un_unimesh u) id) u in
        union_base_elements fuel k' n meshes (id + 1) u'
  end.

(** [Traverse::construct_union_mesh(n, meshes, unimesh)]: the returned
    [unidata] tables, next to the union mesh built.  The local [Traverse]
    object serves only for its [begin] and [finish] and for the members
    gathered in [Union]. *)
Definition construct_union_mesh (fuel : nat) (n : Z) (meshes : list Mesh) (unimesh : UMesh)
  : result (list (option (list (option UniData))) * UMesh) :=
  let+ _ := testMeshesCompliance n meshes in
  if 0 <? n then
    let+ m0 := mesh_at meshes 0 in
    let u0 := mkUnion n 0 (replicate (Z.to_nat n) None) (copy_base unimesh m0) in
    let+ u := union_base_elements fuel (Z.to_nat (mesh_num_base m0)) n meshes 0 u0 in
    Ok (un_unidata u, un_unimesh u)
  else Err (Undefined AssertFailed).

End Union.

(** * Specification-level definitions *)

(** ** Bisections of a rectangle *)

(** The midpoint the code computes for an interval. *)
Definition mid (lo hi : Z) : Z := Z.shiftr (wrap64 (lo + hi)) 1.

(** [reach1 lo hi lo' hi']: the interval [lo', hi'] is obtained from
    [lo, hi] by finitely many midpoint cuts, keeping the lower or the
    upper part at each. *)
Inductive reach1 : Z -> Z -> Z -> Z -> Prop :=
| reach1_here lo hi : reach1 lo hi lo hi
| reach1_low lo hi lo' hi' :
    reach1 lo (mid lo hi) lo' hi' -> reach1 lo hi lo' hi'
| reach1_high lo hi lo' hi' :
    reach1 (mid lo hi) hi lo' hi' -> reach1 lo hi lo' hi'.

(** A son code of [move_to_son]. *)
Definition son_code (son : Z) : Prop := 0 <= son <= 7.

(** The rectangle reached from [er] by a sequence of bisections. *)
Definition bisect (er : Rect) (path : list Z) : Rect := fold_left move_to_son path er.

(** An ordered interval of the coordinate range whose midpoint sum does
    not wrap. *)
Definition ok1 (lo hi : Z) : Prop := 0 <= lo /\ lo <= hi /\ hi <= 2 ^ 63 /\ lo + hi < 2 ^ 64.

(** The rectangle lies in the coordinate range [0, 2^63]. *)
Definition in_range (x : Rect) : Prop :=
  0 <= r_l x /\ 0 <= r_b x /\ r_r x <= 2 ^ 63 /\ r_t x <= 2 ^ 63.

(** The rectangle has a positive width and a positive height. *)
Definition nondegenerate (x : Rect) : Prop := r_l x < r_r x /\ r_b x < r_t x.

(** The sons a tracking loop selects, and the rectangle it stops at;
    [pick] is the if-chain of the loop. *)
Fixpoint track (pick : Rect -> Rect -> option Z) (fuel : nat) (cr x : Rect)
  : result (list Z * Rect) :=
  if rect_mismatch cr x then
    match fuel with
    | O => Err OutOfFuel
    | S fuel' =>
        match pick cr x with
        | Some son =>
            match track pick fuel' cr (move_to_son x son) with
            | Ok (p, x') => Ok (son :: p, x')
            | Err e => Err e
            end
        | None => Err (Undefined AssertFailed)
        end
    end
  else Ok ([], x).

(** The invariant of the tracking loops: on each axis the tracked
    rectangle [x] is an ordered interval that still reaches the target. *)
Definition tracks (cr x : Rect) : Prop :=
  ok1 (r_l x) (r_r x) /\ ok1 (r_b x) (r_t x) /\
  reach1 (r_l x) (r_r x) (r_l cr) (r_r cr) /\
  reach1 (r_b x) (r_t x) (r_b cr) (r_t cr).

(** The size that shrinks at every iteration of a tracking loop. *)
Definition extent (x : Rect) : Z := (r_r x - r_l x) + (r_t x - r_b x).

(** The calls of [push_transform] that [init_transforms] makes for the
    sons [p]. *)
Fixpoint push_transforms (si i : Z) (p : list Z) : M unit :=
  match p with
  | [] => ret tt
  | son :: p' =>
      bind (State_is_triangle si)
           (fun tri => bind (push_transform si son i tri)
                            (fun _ => push_transforms si i p'))
  end.

(** ** Relational reasoning about monadic code *)

(** Every successful run of [c] relates the initial and the final
    [Traverse] object by [R]. *)
Definition respects {A : Type} (R : Traverse -> Traverse -> Prop) (c : M A) : Prop :=
  forall t a t', c t = Ok (a, t') -> R t t'.

(** The stacks of [t] and [t'] have the same slots up to [Q]. *)
Definition slots_rel (Q : State -> State -> Prop) (t t' : Traverse) : Prop :=
  Forall2 Q (tr_stack t) (tr_stack t').

Definition same_cr (s s' : State) : Prop := st_cr s' = st_cr s.

(** [c] never stops on a failed [assert] nor for want of fuel. *)
Definition no_abort {A : Type} (c : M A) : Prop :=
  forall t, c t <> Err (Undefined AssertFailed) /\ c t <> Err OutOfFuel.

(** Cell [i] of the array that field [sel] of [stack[si]] points to. *)
Definition slot_cell (sel : State -> ptr) (t : Traverse) (si i : Z) (c : cell) : Prop :=
  exists s a arr,
    zlookup (tr_stack t) si = Some s /\ sel s = Some a /\
    tr_heap t !! a = Some arr /\ zlookup arr i = Some c.

(** The statement of C10 for the two loops: each selects sons [p] that
    lead from [er] to [cr], and with fuel for [length p] iterations
    [init_idx] returns their address with the tracked rectangle at [cr],
    while [init_transforms] makes exactly the calls of [push_transform]
    for them. *)
Definition loops_stop_at (er cr : Rect) : Prop :=
  (exists p, bisect er p = cr /\
     forall fuel idx, (length p <= fuel)%nat ->
       init_idx_loop fuel cr er idx = Ok (path_idx idx p, cr)) /\
  (exists p, bisect er p = cr /\
     forall fuel si i t s, (length p <= fuel)%nat ->
       zlookup (tr_stack t) si = Some s -> st_cr s = cr ->
       get_er si (wrap8 i) t = Ok (er, t) ->
       init_transforms fuel si i t = push_transforms si (wrap8 i) p t /\
       init_transforms fuel si i t <> Err (Undefined AssertFailed) /\
       init_transforms fuel si i t <> Err OutOfFuel).

(** ** Ownership of the heap arrays *)

(** The arrays a state points to. *)
Definition slot_ptrs (s : State) : list positive :=
  omap id [st_e s; st_er s; st_sub_idx s].

(** The arrays the stack owns. *)
Definition stack_ptrs (t : Traverse) : list positive :=
  mjoin (slot_ptrs <$> tr_stack t).

(** [p] points to an allocated array of [n] cells. *)
Definition array_of (h : gmap positive (list cell)) (n : nat) (p : ptr) : Prop :=
  exists a arr, p = Some a /\ h !! a = Some arr /\ length arr = n.

(** A slot is either untouched since [begin] or holds its three arrays. *)
Definition slot_wf (h : gmap positive (list cell)) (n : nat) (s : State) : Prop :=
  (st_e s = None /\ st_er s = None /\ st_sub_idx s = None) \/
  (array_of h n (st_e s) /\ array_of h n (st_er s) /\ array_of h n (st_sub_idx s)).

(** The invariant of the stack: every slot is well formed for [num]
    meshes and no array is shared, within a slot or between slots. *)
Definition wf (t : Traverse) : Prop :=
  0 <= tr_num t /\
  Forall (slot_wf (tr_heap t) (Z.to_nat (tr_num t))) (tr_stack t) /\
  NoDup (stack_ptrs t).

(** The frame of a run from [t] to [t']: an allocated array that the stack
    does not own keeps its contents and stays outside the stack. *)
Definition frame (t t' : Traverse) : Prop :=
  forall a, is_Some (tr_heap t !! a) -> a ∉ stack_ptrs t ->
            tr_heap t' !! a = tr_heap t !! a /\ a ∉ stack_ptrs t'.

(** A run that keeps the invariant, the frame, and the members that are
    set once by [begin]. *)
Definition keeps (t t' : Traverse) : Prop :=
  wf t ->
  wf t' /\ frame t t' /\ tr_num t' = tr_num t /\ tr_size t' = tr_size t /\
  tr_spaces_size t' = tr_spaces_size t.

(** The assignment [f] leaves the array pointers of a state alone. *)
Definition keeps_ptrs (f : State -> State) : Prop :=
  forall s, st_e (f s) = st_e s /\ st_er (f s) = st_er s /\ st_sub_idx (f s) = st_sub_idx s.

(** A run that keeps the invariant and the frame while the stack owns
    the array [a]. *)
Definition keeps_owned (a : positive) (t t' : Traverse) : Prop :=
  wf t /\ a ∈ stack_ptrs t ->
  (wf t' /\ a ∈ stack_ptrs t') /\ frame t t' /\ tr_num t' = tr_num t /\
  tr_size t' = tr_size t /\ tr_spaces_size t' = tr_spaces_size t.

(** The cells [cells] are the first cells of the array that field [sel]
    of [stack[si]] points to. *)
Definition slot_cells (sel : State -> ptr) (t : Traverse) (si : Z) (cells : list cell) : Prop :=
  forall i c, cells !! i = Some c -> slot_cell sel t si (Z.of_nat i) c.

(** ** Leaf states and representatives *)

(** The leaf test of [get_states] on the state [stack[si]]: every
    [e[i]] is readable and, when non-null and used, active. *)
Definition all_used_active (t : Traverse) (si : Z) : Prop :=
  forall i, 0 <= i < tr_num t ->
    exists p, slot_cell st_e t si i (CElem p) /\
              forall e, p = Some e -> el_used e = true -> el_active e = true.

(** Mesh [j] of the state [stack[si]] holds a used element. *)
Definition used_at (t : Traverse) (si j : Z) (e : Element) : Prop :=
  slot_cell st_e t si j (CElem (Some e)) /\ el_used e = true.

(** Some mesh among the first [spaces_size] holds a used element. *)
Definition has_rep (t : Traverse) (si : Z) : Prop :=
  exists j e, 0 <= j < tr_spaces_size t /\ used_at t si j e.

(** [j] is the last mesh below [hi] that holds a used element, [e]. *)
Definition last_used (t : Traverse) (si hi j : Z) (e : Element) : Prop :=
  0 <= j < hi /\ used_at t si j e /\
  forall j' e', j < j' < hi -> ~ used_at t si j' e'.

(** Cell [i] of the array that field [sel] of the returned state [c]
    points to. *)
Definition state_cell (sel : State -> ptr) (h : gmap positive (list cell)) (c : State)
                      (i : Z) (x : cell) : Prop :=
  exists a arr, sel c = Some a /\ h !! a = Some arr /\ zlookup arr i = Some x.

(** A cell holds a null pointer or an element that, when used, is
    active. *)
Definition null_or_active (x : cell) : Prop :=
  exists p, x = CElem p /\ forall e, p = Some e -> el_used e = true -> el_active e = true.

(** In the returned state [c], the array [e] has [num] cells and every
    [e[i]] is null or an element that, when used, is active. *)
Definition used_are_active (h : gmap positive (list cell)) (c : State) : Prop :=
  exists a arr, st_e c = Some a /\ h !! a = Some arr /\
                length arr = Z.to_nat (st_num c) /\ Forall null_or_active arr.

(** A property of returned states that depends on the heap only through
    the arrays of the state. *)
Definition stable (P : gmap positive (list cell) -> State -> Prop) : Prop :=
  forall h h' c, (forall a, a ∈ slot_ptrs c -> h' !! a = h !! a) -> P h c -> P h' c.

(** The arrays of the returned state [c] are allocated and the stack
    does not own them. *)
Definition unowned (t : Traverse) (c : State) : Prop :=
  forall a, a ∈ slot_ptrs c -> is_Some (tr_heap t !! a) /\ a ∉ stack_ptrs t.

(** Two states with the same array pointers and the same [num]. *)
Definition same_ptrs (s s' : State) : Prop :=
  st_e s' = st_e s /\ st_er s' = st_er s /\ st_sub_idx s' = st_sub_idx s /\
  st_num s' = st_num s.

(** A run that assigns plain fields of states only. *)
Definition fields_only (t t' : Traverse) : Prop :=
  tr_heap t' = tr_heap t /\ slots_rel same_ptrs t t' /\
  tr_num t' = tr_num t /\ tr_spaces_size t' = tr_spaces_size t /\
  tr_top t' = tr_top t /\ tr_size t' = tr_size t.

(** What [finish_state] appends to the result has the property [P]. *)
Definition appends (P : gmap positive (list cell) -> State -> Prop) : Prop :=
  forall ONE dflt si lc t it t',
    wf t -> finish_state ONE dflt si lc t = Ok (it, t') ->
    exists lc', it = Continue lc' /\
      (lc_states lc' = lc_states lc \/
       exists c, lc_states lc' = lc_states lc ++ [c] /\ unowned t' c /\ P (tr_heap t') c).

(** The statement of C6: the clone [c] of [stack[si]], made in [t] with
    result [t1], has two fresh arrays that hold the cells of the arrays of
    the source, and the plain fields of the source; the source is left as
    it was; and the two arrays hold the same cells in [t2]. *)
Definition independent_copy (t : Traverse) (si : Z) (c : State) (t1 t2 : Traverse) : Prop :=
  exists other pe ps E S,
    zlookup (tr_stack t) si = Some other /\
    st_e c = Some pe /\ st_sub_idx c = Some ps /\ pe <> ps /\
    tr_heap t !! pe = None /\ tr_heap t !! ps = None /\
    length E = Z.to_nat (st_num other) /\ length S = Z.to_nat (st_num other) /\
    slot_cells st_e t si E /\ slot_cells st_sub_idx t si S /\
    tr_heap t1 !! pe = Some E /\ tr_heap t1 !! ps = Some S /\
    st_num c = st_num other /\ st_bnd c = st_bnd other /\
    st_rep c = st_rep other /\ st_rep_i c = st_rep_i other /\
    st_visited c = st_visited other /\ st_isurf c = st_isurf other /\
    st_isBnd c = st_isBnd other /\
    tr_stack t1 = tr_stack t /\
    (forall a, is_Some (tr_heap t !! a) -> tr_heap t1 !! a = tr_heap t !! a) /\
    tr_heap t2 !! pe = Some E /\ tr_heap t2 !! ps = Some S.

(** ** Example inputs *)

(** The value of [ONE] used in the examples, the top bit of a
    [uint64_t]. *)
Definition ex_ONE : Z := 2 ^ 63.

Definition ex_unity : Rect := mkRect 0 0 ex_ONE ex_ONE.

(** A rectangle two units wide and high. *)
Definition ex_small : Rect := mkRect 0 0 2 2.

(** A [Traverse] object with one pushed state for one mesh, whose
    [sub_idx[0]] is 5. *)
Definition ex_one_slot : Traverse :=
  mkTraverse
    [mkState (Some 1%positive) (Some 2%positive) (Some 3%positive) (mkRect 0 0 0 0)
             (bnd_all true) None 0 false (-1) false 1]
    1 256 1 1
    (<[3%positive := [CIdx 5]]> (<[2%positive := [Indet]]> (<[1%positive := [Indet]]> ∅))).

(** A descent of 22 steps. *)
Definition ex_long_path : list Z :=
  [0; 6; 6; 6; 6; 6; 6; 6; 6; 6; 6; 6; 6; 6; 6; 6; 6; 6; 6; 7; 0; 0].

(** The statement of C1 for one entered state and one run. *)
Definition leaf_emission_holds (si : Z) (lc : Locals) (t : Traverse) (it : iteration)
                               (t' : Traverse) (states : list State) (tf : Traverse) : Prop :=
  (exists lc', it = Continue lc' /\
     ((exists c, lc_states lc' = lc_states lc ++ [c]) <->
      (all_used_active t si /\ has_rep t si)) /\
     (lc_states lc' = lc_states lc \/
      exists c, lc_states lc' = lc_states lc ++ [c] /\ used_are_active (tr_heap t') c)) /\
  Forall (used_are_active (tr_heap tf)) states.

(** The statement of C2 for one leaf state. *)
Definition rep_is_last_used (si : Z) (lc lc' : Locals) (t : Traverse) : Prop :=
  ((exists c, lc_states lc' = lc_states lc ++ [c]) <-> has_rep t si) /\
  (forall c, lc_states lc' = lc_states lc ++ [c] ->
     exists j e, st_rep c = Some e /\ st_rep_i c = j /\
                 last_used t si (tr_spaces_size t) j e).

(** The result of a run, or the given default. *)
Definition run_from {A : Type} (c : M A) (t : Traverse) (d : A) : A * Traverse :=
  match c t with
  | Ok r => r
  | Err _ => (d, t)
  end.

(** An unrefined triangle. *)
Definition ex_leaf (id : Z) (used : bool) (area : float) : Element :=
  mkElement id used true true SplitNone [None; None; None; None]
            [true; true; true] [true; true; true] area.

(** A triangle refined into four sons. *)
Definition ex_refined (id : Z) (s0 s1 s2 s3 : Element) : Element :=
  mkElement id true false true SplitNone [Some s0; Some s1; Some s2; Some s3]
            [true; true; true] [true; true; true] 1%float.

(** A triangle whose last son is refined again, [d] times over. *)
Fixpoint ex_deep (d : nat) (id : Z) : Element :=
  match d with
  | O => ex_leaf id true 1%float
  | S d' =>
      ex_refined id (ex_leaf (id + 1) true 1%float) (ex_leaf (id + 2) true 1%float)
                 (ex_leaf (id + 3) true 1%float) (ex_deep d' (id + 4))
  end.

(** One used, unrefined base element of area 1. *)
Definition ex_mesh_leaf : Mesh := mkMesh [ex_leaf 0 true 1%float] 1 1.
(** One base element that is not used. *)
Definition ex_mesh_unused : Mesh := mkMesh [ex_leaf 0 false 1%float] 1 0.
(** Two used, unrefined base elements. *)
Definition ex_mesh_two : Mesh :=
  mkMesh [ex_leaf 0 true 1%float; ex_leaf 1 true 1%float] 2 2.
(** One used, unrefined base element of area 100. *)
Definition ex_mesh_large : Mesh := mkMesh [ex_leaf 0 true 100%float] 1 1.
(** One base element refined once. *)
Definition ex_mesh_refined : Mesh :=
  mkMesh [ex_refined 0 (ex_leaf 1 true 1%float) (ex_leaf 2 true 1%float)
                     (ex_leaf 3 true 1%float) (ex_leaf 4 true 1%float)] 1 4.
(** One base element refined 64 levels deep. *)
Definition ex_mesh_deep : Mesh := mkMesh [ex_deep 64 0] 1 193.

(** The start of [get_states] up to the state entered first. *)
Definition ex_enter (meshes : list Mesh) : M unit :=
  bind (fun t => Ok (tt, with_num (Z.of_nat (length meshes)) t))
    (fun _ => bind (begin (Z.of_nat (length meshes)))
       (fun _ => bind (select_state ex_ONE meshes (mkLocals 0 [] 1))
          (fun sel => match sel with
                      | Some (si, _) => enter_state 10 si
                      | None => ret tt
                      end))).

Definition ex_entered (meshes : list Mesh) (spaces_size : Z) : Traverse :=
  snd (run_from (ex_enter meshes) (Traverse_new spaces_size ∅) tt).

(** The locals when the first state has been entered. *)
Definition ex_locals : Locals := mkLocals 1 [] 1.

(** The second half of the first iteration. *)
Definition ex_finished (meshes : list Mesh) (spaces_size : Z) : iteration * Traverse :=
  run_from (finish_state ex_ONE false 0 ex_locals) (ex_entered meshes spaces_size) (Return []).

(** The leaf branch of the first iteration. *)
Definition ex_emitted (meshes : list Mesh) (spaces_size : Z) : Locals * Traverse :=
  run_from (emit_leaf ex_ONE 0 ex_locals) (ex_entered meshes spaces_size) ex_locals.

(** A whole run of [get_states]. *)
Definition ex_run (meshes : list Mesh) (spaces_size : Z) : list State * Traverse :=
  run_from (get_states ex_ONE false 1000 meshes (Z.of_nat (length meshes)))
           (Traverse_new spaces_size ∅) [].

(** A clone of the first state, and the rest of the run after it. *)
Definition ex_cloned (meshes : list Mesh) (spaces_size : Z) : State * Traverse :=
  run_from (clone ex_ONE 0) (ex_entered meshes spaces_size) zero_State.

Definition ex_after_clone (meshes : list Mesh) (spaces_size : Z) : list State * Traverse :=
  run_from (get_states_loop ex_ONE false 1000 meshes ex_locals)
           (snd (ex_cloned meshes spaces_size)) [].

(** A traversal whose stack is full. *)
Definition ex_full : Traverse := with_top 256 (ex_entered [ex_mesh_leaf] 1).

(** A union mesh that is only a counter of refinements; its elements are
    their ids. *)
Definition ex_union_run (meshes : list Mesh)
  : result (list (option (list (option UniData))) * Z) :=
  construct_union_mesh ex_ONE Z Z (fun _ x => x) (fun _ _ => true)
    (fun _ x son => 4 * x + son + 1) (fun m _ _ => m + 1) (-1) (fun m _ => m)
    (fun _ id => id) 100 (Z.of_nat (length meshes)) meshes 0.

(** ** The record tables of the union construction *)

(** One table per mesh: null while the capacity is 0, of [udsize] entries
    afterwards. *)
Definition table_ok (udsize : Z) (p : option (list (option UniData))) : Prop :=
  match p with
  | None => udsize = 0
  | Some tb => 0 < udsize /\ length tb = Z.to_nat udsize
  end.

Definition tables_ok {UMesh : Type} (u : Union UMesh) : Prop :=
  0 <= un_udsize _ u /\ length (un_unidata _ u) = Z.to_nat (un_num _ u) /\
  Forall (table_ok (un_udsize _ u)) (un_unidata _ u).

(** The capacity [n] reached from [udsize] for the id [id]: unchanged
    when [id] is below the capacity, else 1024 (or the capacity, when it
    is not 0) doubled the least number of times that exceeds [id]. *)
Definition grown_to (udsize id n : Z) : Prop :=
  if udsize <=? id then
    exists k, 0 <= k /\ n = (if udsize =? 0 then 1024 else udsize) * 2 ^ k /\
              id < n /\ (k = 0 \/ n <= 2 * id)
  else n = udsize.

(** The table of one mesh after the record of a leaf: the old entries,
    grown to [n] entries, then the entry [id] written. *)
Definition recorded (n id : Z) (old : option (list (option UniData))) (r : UniData)
  : list (option UniData) :=
  <[Z.to_nat id := Some r]> (resize (Z.to_nat n) None (default [] old)).

(** What the leaf case of [union_recurrent] leaves behind. *)
Definition leaf_recorded {UMesh : Type} (id : Z) (es : list Element) (vs : list Z)
                         (u u' : Union UMesh) : Prop :=
  un_unimesh _ u' = un_unimesh _ u /\ un_num _ u' = un_num _ u /\
  grown_to (un_udsize _ u) id (un_udsize _ u') /\ tables_ok u' /\
  forall (i : nat) x v, es !! i = Some x -> vs !! i = Some v ->
    exists old,
      un_unidata _ u !! i = Some old /\
      (Z.to_nat id < Z.to_nat (un_udsize _ u'))%nat /\
      un_unidata _ u' !! i
        = Some (Some (recorded (un_udsize _ u') id old (mkUniData (Some x) v))).

(** The tables of [construct_union_mesh] before the first record, for
    two meshes, and two active source elements. *)
Definition ex_union_start : Union Z := mkUnion Z 2 0 [None; None] 0.
Definition ex_sources : list Element := [ex_leaf 0 true 1%float; ex_leaf 7 true 1%float].

(** The leaf case at the union element of the given id. *)
Definition ex_union_leaf (id : Z) : result (Union Z) :=
  union_recurrent Z Z (fun _ x => x) (fun _ _ => true) (fun _ x son => 4 * x + son + 1)
                  (fun m _ _ => m + 1) (-1) 1 None
                  (map (fun x => CElem (Some x)) ex_sources) None (map CIdx [0; 9])
                  id ex_union_start.

(** ** The traversal as a recursive descent *)

Section Descent.

Variable ONE : Z.
Variable push_transform_default : bool.

(** The visit of the state [stack[si]] with everything below it in the
    tree: the state is entered and either emitted or replaced by its
    sons, which [pending] then visits.  [pending si] visits the states
    that lie above [stack[si]], always the topmost one that is not
    visited yet, that is, the son pushed last comes first. *)
Fixpoint descend (fuel : nat) (si : Z) (lc : Locals) : M Locals :=
  match fuel with
  | O => throw OutOfFuel
  | S fuel' =>
      enter_state fuel' si ;;
      let* it := finish_state ONE push_transform_default si lc in
      match it with
      | Continue lc' => pending fuel' si lc'
      | Return _ => ret lc
      end
  end
with pending (fuel : nat) (si : Z) (lc : Locals) : M Locals :=
  match fuel with
  | O => throw OutOfFuel
  | S fuel' =>
      let* top0 := gets tr_top in
      pop_visited (Z.to_nat top0) ;;
      let* top := gets tr_top in
      if top <=? si then ret lc
      else
        let* lc' := descend fuel' (top - 1) lc in
        pending fuel' si lc'
  end.

(** "The stack is empty, take next base element": the branch of
    [select_state] that pushes the root state and loads into it the next
    base element, from [lc_id lc] on, that is used on some mesh.  The
    result is the slot of the root state and the id to go on with, or
    [None] when the base elements are exhausted and the stack is
    released. *)
Definition load_next_base (meshes : list Mesh) (lc : Locals) : M (option (Z * Z)) :=
  let* si := push_state in
  update_slot si (set_cr (H2D_UNITY ONE)) ;;
  let* m0 := lift (mesh_at meshes 0) in
  let* found := next_base_element ONE (Z.to_nat (mesh_num_base m0 - lc_id lc))
                                  meshes si (lc_id lc) in
  match found with
  | None => finish ;; ret None
  | Some id =>
      let* tri := State_is_triangle si in
      (if tri then
         update_slot si (fun s => set_bnd (mkBnd true true true (bnd3 (st_bnd s))) s)
       else ret tt) ;;
      ret (Some (si, id + 1))
  end.

(** The two ways [select_state] goes on after its pops. *)
Definition select_popped (meshes : list Mesh) (lc : Locals) : M (option (Z * Z)) :=
  let* top := gets tr_top in
  if top <=? 0 then load_next_base meshes lc
  else ret (Some (top - 1, lc_id lc)).

(** The base elements in the order of their ids: the next base element
    is loaded into the root state and the tree below it is visited before
    the one after it is loaded. *)
Fixpoint traverse_bases (fuel : nat) (meshes : list Mesh) (lc : Locals) : M (list State) :=
  match fuel with
  | O => throw OutOfFuel
  | S fuel' =>
      let* sel := load_next_base meshes lc in
      match sel with
      | None => ret (lc_states lc)
      | Some (si, id) =>
          let* lc' := descend fuel' si (mkLocals id (lc_states lc) (lc_predictedCount lc)) in
          traverse_bases fuel' meshes lc'
      end
  end.

(** [Traverse::get_states] with the recursive descent in the place of
    its loop. *)
Definition get_states_descent (fuel : nat) (meshes : list Mesh) (meshes_count : Z)
  : M (list State) :=
  (fun t => Ok (tt, with_num meshes_count t)) ;;
  let* predicted := lift (predicted_count (Z.to_nat meshes_count) meshes 0 0) in
  let* num := gets tr_num in
  begin num ;;
  traverse_bases fuel meshes (mkLocals 0 [] predicted).

End Descent.

(** Every result of [c1] is a result of [c2]. *)
Definition refines {A : Type} (c1 c2 : M A) : Prop :=
  forall t r, c1 t = Ok r -> c2 t = Ok r.

(** ** Two runs side by side *)

(** The cells of the array [p] points to. *)
Definition cells_of (h : gmap positive (list cell)) (p : ptr) : option (list cell) :=
  match p with
  | Some a => h !! a
  | None => None
  end.

(** The fields of a state that are not pointers. *)
Definition plain (s : State)
  : Rect * Bnd * option Element * Z * bool * Z * bool * Z :=
  (st_cr s, st_bnd s, st_rep s, st_rep_i s, st_visited s, st_isurf s, st_isBnd s, st_num s).

(** What a state holds: its three arrays by value and its plain fields;
    the addresses of the arrays are left out. *)
Definition content (h : gmap positive (list cell)) (s : State)
  : option (list cell) * option (list cell) * option (list cell) *
    (Rect * Bnd * option Element * Z * bool * Z * bool * Z) :=
  (cells_of h (st_e s), cells_of h (st_er s), cells_of h (st_sub_idx s), plain s).

Definition same_content (h1 h2 : gmap positive (list cell)) (s1 s2 : State) : Prop :=
  content h1 s1 = content h2 s2.

(** Two [Traverse] objects that differ in the addresses of their arrays
    only. *)
Definition sim (t1 t2 : Traverse) : Prop :=
  wf t1 /\ wf t2 /\
  tr_top t1 = tr_top t2 /\ tr_size t1 = tr_size t2 /\ tr_num t1 = tr_num t2 /\
  tr_spaces_size t1 = tr_spaces_size t2 /\
  Forall2 (same_content (tr_heap t1) (tr_heap t2)) (tr_stack t1) (tr_stack t2).

(** From such objects, [c1] and [c2] return results related by [R] and
    leave such objects. *)
Definition rel {A : Type} (R : A -> A -> Prop) (c1 c2 : M A) : Prop :=
  forall t1 t2 a1 t1' a2 t2',
    sim t1 t2 -> c1 t1 = Ok (a1, t1') -> c2 t2 = Ok (a2, t2') ->
    R a1 a2 /\ sim t1' t2'.

(** The three arrays of a state. *)
Inductive fld : Type := FE | FER | FIDX.

Definition fld_sel (f : fld) : State -> ptr :=
  match f with
  | FE => st_e
  | FER => st_er
  | FIDX => st_sub_idx
  end.

(** The assignment [f] to plain fields depends on plain fields only. *)
Definition plain_only (f : State -> State) : Prop :=
  keeps_ptrs f /\ forall s1 s2, plain s1 = plain s2 -> plain (f s1) = plain (f s2).

(** The returned states of two runs hold the same, and no array of
    theirs belongs to the stack. *)
Definition same_returned (t1 t2 : Traverse) (l1 l2 : list State) : Prop :=
  Forall (unowned t1) l1 /\ Forall (unowned t2) l2 /\
  Forall2 (same_content (tr_heap t1) (tr_heap t2)) l1 l2.

(** The locals of two runs agree. *)
Definition same_locals (t1 t2 : Traverse) (lc1 lc2 : Locals) : Prop :=
  lc_id lc1 = lc_id lc2 /\ lc_predictedCount lc1 = lc_predictedCount lc2 /\
  same_returned t1 t2 (lc_states lc1) (lc_states lc2).

(** The contents of a state with the array of field [f] replaced. *)
Definition with_cells (f : fld) (arr : list cell)
    (c : option (list cell) * option (list cell) * option (list cell) *
         (Rect * Bnd * option Element * Z * bool * Z * bool * Z)) :=
  match f with
  | FE => (Some arr, snd (fst (fst c)), snd (fst c), snd c)
  | FER => (fst (fst (fst c)), Some arr, snd (fst c), snd c)
  | FIDX => (fst (fst (fst c)), snd (fst (fst c)), Some arr, snd c)
  end.


(** A run that leaves [top] alone. *)
Definition same_top (t t' : Traverse) : Prop := tr_top t' = tr_top t.

(** The statement of C9 for two runs of [get_states] with the results
    [l1], [t1'] and [l2], [t2'], the first one started from [t1]: the
    runs return equally many states, which hold the same one by one; the
    first run is a run of the recursive descent, which has no other
    result; the ids of the base elements ascend; and a visit appends the
    states of its subtree to those returned before. *)
Definition runs_agree (ONE : Z) (dflt : bool) (meshes : list Mesh) (meshes_count : Z)
                      (t1 : Traverse) (l1 : list State) (t1' : Traverse)
                      (l2 : list State) (t2' : Traverse) : Prop :=
  length l1 = length l2 /\
  Forall2 (same_content (tr_heap t1') (tr_heap t2')) l1 l2 /\
  (exists F, get_states_descent ONE dflt F meshes meshes_count t1 = Ok (l1, t1')) /\
  (forall F r, get_states_descent ONE dflt F meshes meshes_count t1 = Ok r -> r = (l1, t1')) /\
  (forall lc t si id t',
     load_next_base ONE meshes lc t = Ok (Some (si, id), t') -> lc_id lc < id) /\
  (forall F si lc t lc' t',
     descend ONE dflt F si lc t = Ok (lc', t') ->
     lc_id lc' = lc_id lc /\ exists l, lc_states lc' = lc_states lc ++ l).

(** A second run on the [Traverse] object and the heap that a first run
    has left. *)
Definition ex_rerun (meshes : list Mesh) (spaces_size : Z) : list State * Traverse :=
  run_from (get_states ex_ONE false 1000 meshes (Z.of_nat (length meshes)))
           (snd (ex_run meshes spaces_size)) [].

(** ** Further example inputs *)

(** A quadrilateral refined in both directions, with four active sons. *)
Definition ex_quad_leaf (id : Z) : Element :=
  mkElement id true true false SplitNone [None; None; None; None]
            [true; true; true; true] [true; true; true; true] 1%float.

Definition ex_quad (id : Z) : Element :=
  mkElement id true false false SplitBoth
            [Some (ex_quad_leaf (id + 1)); Some (ex_quad_leaf (id + 2));
             Some (ex_quad_leaf (id + 3)); Some (ex_quad_leaf (id + 4))]
            [true; true; true; true] [true; true; true; true] 1%float.

(** A state for one mesh that stands at the lower left quarter of the unit
    square. *)
Definition ex_quad_slot : State :=
  mkState (Some 1%positive) (Some 2%positive) (Some 3%positive)
          (move_to_son ex_unity 0) (bnd_all true) None 0 false (-1) false 1.

(** A [Traverse] object with that state pushed: the element of the mesh is
    an active quadrilateral whose rectangle is still the unit square, and
    [sub_idx[0]] is 0. *)
Definition ex_quad_state : Traverse :=
  mkTraverse [ex_quad_slot] 1 256 1 1
    (<[3%positive := [CIdx 0]]>
       (<[2%positive := [CRect ex_unity]]>
          (<[1%positive := [CElem (Some (ex_quad_leaf 0))]]> ∅))).

(** ** Base elements *)

(** Mesh [i] stores under [id] an element whose [used] flag is [u]. *)
Definition element_used (meshes : list Mesh) (id i : Z) (u : bool) : Prop :=
  exists m e, zlookup meshes i = Some m /\ zlookup (mesh_elements m) id = Some e /\
              el_used e = u.

(** A run that leaves [num] alone. *)
Definition same_num (t t' : Traverse) : Prop := tr_num t' = tr_num t.

(** [bnd[k]]. *)
Definition bnd_at (b : Bnd) (k : Z) : bool :=
  match k with
  | 0 => bnd0 b
  | 1 => bnd1 b
  | 2 => bnd2 b
  | 3 => bnd3 b
  | _ => false
  end.

(** Side [k] of the rectangle lies on the border of the unit square of the
    base element: 0 bottom, 1 right, 2 top, 3 left. *)
Definition on_border (ONE : Z) (cr : Rect) (k : Z) : Prop :=
  match k with
  | 0 => r_b cr = 0
  | 1 => r_r cr = ONE
  | 2 => r_t cr = ONE
  | 3 => r_l cr = 0
  | _ => False
  end.

(** The number of edges of an element. *)
Definition nvert (e : Element) : Z := if el_is_triangle e then 3 else 4.

(** The outcome of [set_boundary_info(s)] for [s = stack + si], from [t]
    to [t'], [s0] being the state before the call: some [s->e[i]] is
    non-null and the first of them, [e], decided the flags.  A flag
    [bnd[k]] that is true afterwards was true before and, for an edge of
    [e], belongs to an edge marked as boundary; on a quadrilateral the
    side [k] of [cr] then lies on the border of the base element, on a
    triangle [bnd[3]] is left as it was.  [isBnd] is set as soon as a flag
    of an edge of [e] is.  No array is written. *)
Definition boundary_info_set (ONE si : Z) (t : Traverse) (s0 : State) (t' : Traverse) : Prop :=
  exists e s',
    first_element (Z.to_nat (tr_num t)) si 0 t = Ok (Some e, t) /\
    zlookup (tr_stack t') si = Some s' /\
    tr_heap t' = tr_heap t /\
    (forall k, bnd_at (st_bnd s') k = true ->
       bnd_at (st_bnd s0) k = true /\
       (k < nvert e -> zlookup (el_en_bnd e) k = Some true) /\
       (el_is_triangle e = false -> on_border ONE (st_cr s0) k)) /\
    (el_is_triangle e = true -> bnd3 (st_bnd s') = bnd3 (st_bnd s0)) /\
    (forall k, 0 <= k < nvert e -> bnd_at (st_bnd s') k = true -> st_isBnd s' = true).

(** A mesh whose base element 0 is unused and whose base element 1 is an
    active triangle. *)
Definition ex_mesh_skip : Mesh :=
  mkMesh [ex_leaf 0 false 1%float; ex_leaf 1 true 1%float] 2 1.

(** ** The sons of a quadrilateral state *)

(** The sons that the quad branches of [get_states] push for the combined
    split [split], with the column of [current_sons] each one reads: four
    sons 0..3 with their own column for "both splits", the two halves
    4, 5 or 6, 7 with the columns 0 and 2 for one split. *)
Definition quad_son_column (split son k : Z) : Prop :=
  (split = 3 /\ 0 <= son <= 3 /\ k = son) \/
  (split = 1 /\ (son = 4 /\ k = 0 \/ son = 5 /\ k = 2)) \/
  (split = 2 /\ (son = 6 /\ k = 0 \/ son = 7 /\ k = 2)).

(** ** The arrays outside the stack and the slots below an index *)

(** The array [a] is allocated and the stack does not own it. *)
Definition outside (t : Traverse) (a : positive) : Prop :=
  is_Some (tr_heap t !! a) /\ a ∉ stack_ptrs t.

(** [k] is at most a valid index [z]. *)
Definition low (k z : Z) : Prop := 0 <= z -> k <= z.

(** The invariant of the stack, with [top] not below [k]. *)
Definition inv (k : Z) (t : Traverse) : Prop :=
  wf t /\ low k (tr_top t).

(** A run that works above slot [k]: it keeps the invariant, neither
    leaks an array of the stack nor takes one from outside, and leaves
    every slot below [k] as it is, with the cells of its arrays. *)
Definition above (k : Z) (t t' : Traverse) : Prop :=
  inv k t ->
  inv k t' /\
  tr_num t' = tr_num t /\ tr_size t' = tr_size t /\
  (forall a, outside t' a <-> outside t a) /\
  (forall j sj, 0 <= j < k -> zlookup (tr_stack t) j = Some sj ->
     zlookup (tr_stack t') j = Some sj /\
     content (tr_heap t') sj = content (tr_heap t) sj).

(** ** The slot that [push_state] returns *)

(** The outcome of [push_state] from [t] to [t'] with the result [si]:
    the slot is the one at the old [top], which advances by one; the
    fields [visited], [isurf], [bnd] and [num] are reset while [cr],
    [rep], [rep_i] and [isBnd] keep the values the slot held; [sub_idx]
    holds zeros.  A slot that had its arrays keeps them, with the cells of
    [e] and [er], and nothing is allocated; a slot that had none receives
    three new arrays, those of [e] and [er] not initialised. *)
Definition slot_pushed (t : Traverse) (si : Z) (t' : Traverse) : Prop :=
  si = tr_top t /\ tr_top t' = tr_top t + 1 /\
  exists s s',
    zlookup (tr_stack t) si = Some s /\ zlookup (tr_stack t') si = Some s' /\
    plain s' = (st_cr s, bnd_all true, st_rep s, st_rep_i s, false, -1, st_isBnd s, tr_num t) /\
    cells_of (tr_heap t') (st_sub_idx s')
      = Some (replicate (Z.to_nat (tr_num t)) (CIdx 0)) /\
    (st_e s <> None ->
       st_e s' = st_e s /\ st_er s' = st_er s /\ st_sub_idx s' = st_sub_idx s /\
       cells_of (tr_heap t') (st_e s') = cells_of (tr_heap t) (st_e s) /\
       cells_of (tr_heap t') (st_er s') = cells_of (tr_heap t) (st_er s) /\
       forall a, is_Some (tr_heap t' !! a) <-> is_Some (tr_heap t !! a)) /\
    (st_e s = None ->
       cells_of (tr_heap t') (st_e s') = Some (replicate (Z.to_nat (tr_num t)) Indet) /\
       cells_of (tr_heap t') (st_er s') = Some (replicate (Z.to_nat (tr_num t)) Indet) /\
       forall a, a ∈ slot_ptrs s' -> tr_heap t !! a = None).

(** ** The son states *)

(** A state as [push_state] leaves it for a traversal of [num] meshes. *)
Definition unvisited (num : Z) (s : State) : Prop :=
  st_visited s = false /\ st_isurf s = -1 /\ st_num s = num.

(** The fields that make a state unvisited are left alone. *)
Definition same_visit (s s' : State) : Prop :=
  st_visited s' = st_visited s /\ st_isurf s' = st_isurf s /\ st_num s' = st_num s.

(** The outcome of the son-pushing part of [get_states] from [t] to [t']:
    [n] states were pushed, with [n] one of 4, 2 and 1; each of them is
    unvisited; every slot below the old [top] is as it was, with the
    cells of its arrays; and the arrays outside the stack are the same. *)
Definition sons_pushed (t t' : Traverse) (n : Z) : Prop :=
  (n = 4 \/ n = 2 \/ n = 1) /\ tr_top t' = tr_top t + n /\
  (forall j, tr_top t <= j < tr_top t + n ->
     exists s, zlookup (tr_stack t') j = Some s /\ unvisited (tr_num t) s) /\
  (forall j sj, 0 <= j < tr_top t -> zlookup (tr_stack t) j = Some sj ->
     zlookup (tr_stack t') j = Some sj /\
     content (tr_heap t') sj = content (tr_heap t) sj) /\
  (forall a, outside t' a <-> outside t a).

(** ** The end of a traversal *)

(** The heap [h] without the arrays [ptrs]. *)
Definition freed (ptrs : list positive) (h h' : gmap positive (list cell)) : Prop :=
  forall a, h' !! a = if decide (a ∈ ptrs) then None else h !! a.

(** ** The arrays of a whole traversal *)

(** A run that keeps the number of slots and the capacity. *)
Definition same_shape (t t' : Traverse) : Prop :=
  length (tr_stack t') = length (tr_stack t) /\ tr_size t' = tr_size t.

(** The stack has no slot beyond [size]. *)
Definition sized (t : Traverse) : Prop :=
  wf t /\ Z.of_nat (length (tr_stack t)) <= tr_size t.

(** A run that neither leaks an array of the stack nor takes one from
    outside. *)
Definition tidy (t t' : Traverse) : Prop :=
  sized t -> sized t' /\ forall a, outside t' a <-> outside t a.

(** The arrays of the returned states. *)
Definition arrays_of (states : list State) : list positive :=
  mjoin (slot_ptrs <$> states).

(** The arrays when [get_states] has returned [states], from [t] to
    [t']: the stack is gone; the arrays of the returned states are
    pairwise distinct and were not allocated before; the arrays allocated
    afterwards are those allocated before and those of the returned
    states; and an array allocated before holds the cells it held. *)
Definition heap_accounted (t : Traverse) (states : list State) (t' : Traverse) : Prop :=
  tr_stack t' = [] /\
  NoDup (arrays_of states) /\
  (forall a, a ∈ arrays_of states -> tr_heap t !! a = None) /\
  (forall a, is_Some (tr_heap t' !! a) <->
             is_Some (tr_heap t !! a) \/ a ∈ arrays_of states) /\
  (forall a, is_Some (tr_heap t !! a) -> tr_heap t' !! a = tr_heap t !! a).

(** ** The returned states *)

(** The slots below [top] are those that [push_state] has set up. *)
Definition numbered (t : Traverse) : Prop :=
  forall j s, 0 <= j < tr_top t -> zlookup (tr_stack t) j = Some s ->
              st_isurf s = -1 /\ st_num s = tr_num t.

(** The fields that [push_state] sets up for good are left alone. *)
Definition same_setup (s s' : State) : Prop :=
  st_isurf s' = st_isurf s /\ st_num s' = st_num s.

(** A run that keeps the invariant of the stack and the slots below
    [top] set up. *)
Definition steady (t t' : Traverse) : Prop :=
  wf t /\ numbered t -> wf t' /\ numbered t'.

(** What a returned state holds, for [num] meshes and [sp] spaces: the
    rectangle [cr] is the unit square and [er] is null, as the constructor
    leaves them; the state was visited, [isurf] is -1 and [num] is the
    number of meshes; and the representative is a used and active
    element, the one of mesh [rep_i], a mesh below [sp]. *)
Definition returned_ok (ONE num sp : Z) (h : gmap positive (list cell)) (c : State) : Prop :=
  st_cr c = H2D_UNITY ONE /\ st_er c = None /\ st_visited c = true /\
  st_isurf c = -1 /\ st_num c = num /\
  exists e, st_rep c = Some e /\ el_used e = true /\ el_active e = true /\
            0 <= st_rep_i c < sp /\ st_rep_i c < num /\
            state_cell st_e h c (st_rep_i c) (CElem (Some e)).

(** ** The record tables of the union construction, as a whole *)

(** A record, if written, holds an active element. *)
Definition record_active (r : option UniData) : Prop :=
  match r with
  | None => True
  | Some d => exists x, ud_e d = Some x /\ el_active x = true
  end.

Definition table_active (p : option (list (option UniData))) : Prop :=
  match p with
  | None => True
  | Some tb => Forall record_active tb
  end.

(** The entries written in the table [p] are written in [p']. *)
Definition table_kept (p p' : option (list (option UniData))) : Prop :=
  forall k r, default [] p !! k = Some (Some r) ->
              exists r', default [] p' !! k = Some (Some r').

(** One table after one record. *)
Definition table_step (p p' : option (list (option UniData))) : Prop :=
  match p, p' with
  | Some tb, Some tb' =>
      length tb' = length tb /\ (Forall record_active tb -> Forall record_active tb')
  | None, None => True
  | _, _ => False
  end /\ table_kept p p'.

(** The invariant of the record tables: one table per mesh, all of the
    capacity [udsize], whose records hold active elements. *)
Definition union_inv {UMesh : Type} (u : Union UMesh) : Prop :=
  tables_ok u /\ Forall table_active (un_unidata _ u).

(** From [u] to [u']: the invariant is kept, with the number of meshes;
    the capacity does not shrink; and no record is erased. *)
Definition union_kept {UMesh : Type} (u u' : Union UMesh) : Prop :=
  union_inv u' /\ un_num _ u' = un_num _ u /\ un_udsize _ u <= un_udsize _ u' /\
  Forall2 table_kept (un_unidata _ u) (un_unidata _ u').

(** The tables that [construct_union_mesh] returns for [n] meshes: one
    table per mesh, all of one capacity, whose records hold active
    elements. *)
Definition union_tables_ok (n : Z) (tables : list (option (list (option UniData)))) : Prop :=
  length tables = Z.to_nat n /\
  exists udsize, 0 <= udsize /\ Forall (table_ok udsize) tables /\
                 Forall table_active tables.

(** ** The pop loop and the kind of a state *)

(** The outcome of the pop loop of [get_states] from [t] to [t']: only
    [top] has changed; it has not grown; every state between the new and
    the old [top] had been visited; and the loop stopped on the empty
    stack or below a state not yet visited. *)
Definition popped (t t' : Traverse) : Prop :=
  t' = with_top (tr_top t') t /\ tr_top t' <= tr_top t /\
  (forall j s, tr_top t' <= j < tr_top t -> zlookup (tr_stack t) j = Some s ->
               st_visited s = true) /\
  (tr_top t' <= 0 \/
   exists s, zlookup (tr_stack t) (tr_top t' - 1) = Some s /\ st_visited s = false).

(** ** Entering a state *)

(** A run that, of the arrays of [stack[si]], writes cells [sub_idx[j]]
    with [W j] only, and leaves the rectangle and the [visited] mark of
    the state alone. *)
Definition idx_cells (si : Z) (W : Z -> Prop) (t t' : Traverse) : Prop :=
  wf t ->
  wf t' /\ tr_num t' = tr_num t /\
  (forall s, zlookup (tr_stack t) si = Some s ->
     exists s', zlookup (tr_stack t') si = Some s' /\ st_cr s' = st_cr s /\
                st_visited s' = st_visited s) /\
  (forall f j c, (f <> FIDX \/ ~ W j) ->
     slot_cell (fld_sel f) t si j c -> slot_cell (fld_sel f) t' si j c).

(** The test that [get_states] makes on [e[i]] and [sub_idx[i]] before
    it calls [init_transforms(s, i)]. *)
Definition wants_transforms (p : option Element) (v : Z) : bool :=
  match p with
  | Some e => el_used e && ((v =? 0) && el_active e) && negb (el_is_triangle e)
  | None => false
  end.

(** The outcome of entering the state [stack[si]], from [t] to [t'], [s]
    being the state before: the state is marked visited and keeps its
    rectangle; the cells of [e] and [er] are as they were; [sub_idx[i]]
    holds the address [init_idx(&s->cr, s->er + i)] for every mesh that
    passes the test, and is as it was for every mesh that fails it. *)
Definition entered (fuel : nat) (si : Z) (s : State) (t t' : Traverse) : Prop :=
  (exists s', zlookup (tr_stack t') si = Some s' /\ st_visited s' = true /\
              st_cr s' = st_cr s) /\
  (forall f j c, f <> FIDX ->
     slot_cell (fld_sel f) t si j c -> slot_cell (fld_sel f) t' si j c) /\
  (forall i p v x, 0 <= i < tr_num t ->
     slot_cell st_e t si i (CElem p) -> slot_cell st_sub_idx t si i (CIdx v) ->
     wants_transforms p v = true -> slot_cell st_er t si i (CRect x) ->
     exists idx, init_idx fuel (st_cr s) x = Ok idx /\
                 slot_cell st_sub_idx t' si i (CIdx idx)) /\
  (forall i p v,
     slot_cell st_e t si i (CElem p) -> slot_cell st_sub_idx t si i (CIdx v) ->
     wants_transforms p v = false -> slot_cell st_sub_idx t' si i (CIdx v)).

(** ** What a son state holds *)

(** A run that writes, of the arrays of the stack, the cells [f[j]] with
    [W f j] of slot [ns] only, and leaves every other slot as it is, and
    the rectangle of slot [ns]. *)
Definition writes (ns : Z) (W : fld -> Z -> Prop) (t t' : Traverse) : Prop :=
  wf t ->
  wf t' /\ tr_num t' = tr_num t /\
  (forall sj s, sj <> ns -> zlookup (tr_stack t) sj = Some s ->
     zlookup (tr_stack t') sj = Some s) /\
  (forall sj f j c, (sj <> ns \/ ~ W f j) ->
     slot_cell (fld_sel f) t sj j c -> slot_cell (fld_sel f) t' sj j c) /\
  (forall s, zlookup (tr_stack t) ns = Some s ->
     exists s', zlookup (tr_stack t') ns = Some s' /\ st_cr s' = st_cr s).

(** [ns->bnd] of the son [son] of a triangle state with the flags [bnd]. *)
Definition triangle_son_bnd (bnd : Bnd) (son : Z) : Bnd :=
  if son <? 3 then
    match son with
    | 0 => mkBnd (bnd0 bnd) false (bnd2 bnd) (bnd3 bnd)
    | 1 => mkBnd (bnd0 bnd) (bnd1 bnd) false (bnd3 bnd)
    | 2 => mkBnd false (bnd1 bnd) (bnd2 bnd) (bnd3 bnd)
    | _ => bnd
    end
  else bnd_all false.

(** [ns->e[i]] of the son [son] of a triangle state whose [e[i]] is [p]:
    null for a null or unused element, the element itself when it is
    active, and its son [son] otherwise. *)
Definition triangle_son_element (p : option Element) (son : Z) (c : option Element) : Prop :=
  match p with
  | None => c = None
  | Some e =>
      if negb (el_used e) then c = None
      else if el_active e then c = Some e
      else zlookup (el_sons e) son = Some c
  end.

(** The element [p] of the parent state is carried over to the son state. *)
Definition carried (p : option Element) : bool :=
  match p with
  | Some e => el_used e && el_active e
  | None => false
  end.

(** The outcome of one iteration of the loop that pushes the sons of a
    triangle state [stack[si]], [s] by value, from [t] to [t']: the son state is the
    slot at the old [top]; its flags are those of the parent with the
    edge inside the parent cleared, none for the central son; for every
    mesh, [e[i]] follows [triangle_son_element], and [sub_idx[i]] is the
    parent's address extended by [son] for an element carried over, and 0
    otherwise. *)
Definition triangle_son_pushed (si son : Z) (s : State) (t t' : Traverse) : Prop :=
  tr_top t' = tr_top t + 1 /\
  exists s',
    zlookup (tr_stack t') (tr_top t) = Some s' /\
    st_bnd s' = triangle_son_bnd (st_bnd s) son /\
    forall i p, 0 <= i < tr_num t -> slot_cell st_e t si i (CElem p) ->
      exists c, triangle_son_element p son c /\
                slot_cell st_e t' (tr_top t) i (CElem c) /\
                if carried p
                then forall v, slot_cell st_sub_idx t si i (CIdx v) ->
                       slot_cell st_sub_idx t' (tr_top t) i (CIdx (push_idx v son))
                else slot_cell st_sub_idx t' (tr_top t) i (CIdx 0).

(** ** What the son of a quadrilateral state holds *)

(** Slot [ns] has the rectangle [cr]. *)
Definition has_cr (ns : Z) (cr : Rect) (t : Traverse) : Prop :=
  exists s, zlookup (tr_stack t) ns = Some s /\ st_cr s = cr.

(** Mesh [i] of the son state [stack[ns]] in [t'] has no element. *)
Definition dropped (ns : Z) (t' : Traverse) (i : Z) : Prop :=
  slot_cell st_e t' ns i (CElem None) /\ slot_cell st_sub_idx t' ns i (CIdx 0).

(** Mesh [i] of the son state [stack[ns]] in [t'] has moved from the
    element [e] of the parent state [stack[si]] in [t] to the son of [e]
    that [current_sons[i][k]] names: [e[i]] is that son, [er[i]] the part
    of the parent's [er[i]] with that code, and [sub_idx[i]] is 0. *)
Definition moved (si ns k : Z) (current_sons : list (option (list Z))) (e : Element)
           (t t' : Traverse) (i : Z) : Prop :=
  exists sons code c,
    zlookup current_sons i = Some (Some sons) /\ zlookup sons k = Some code /\
    zlookup (el_sons e) (Z.land code 3) = Some c /\
    slot_cell st_e t' ns i (CElem c) /\
    slot_cell st_sub_idx t' ns i (CIdx 0) /\
    forall x, slot_cell st_er t si i (CRect x) ->
      slot_cell st_er t' ns i (CRect (move_to_son x code)).

(** Mesh [i] of a son pushed by the branches for two and for four sons,
    [p] being the parent's [e[i]]: no element for a null or unused one;
    an active element is carried over, with the parent's address
    extended by [son]; an element with sons is moved. *)
Definition quad_son_mesh (si ns son k : Z) (current_sons : list (option (list Z)))
           (t t' : Traverse) (i : Z) (p : option Element) : Prop :=
  match p with
  | None => dropped ns t' i
  | Some e =>
      if negb (el_used e) then dropped ns t' i
      else if el_active e then
        slot_cell st_e t' ns i (CElem (Some e)) /\
        forall v, slot_cell st_sub_idx t si i (CIdx v) ->
          slot_cell st_sub_idx t' ns i (CIdx (push_idx v son))
      else moved si ns k current_sons e t t' i
  end.

(** Mesh [i] of the son pushed by the branch for one son, whose rectangle
    is [cr]: as above but for an active element, which is carried over
    with [er[i]] set to [cr] and [sub_idx[i]] 0, whatever address the
    parent had. *)
Definition quad_single_mesh (si ns : Z) (current_sons : list (option (list Z)))
           (cr : Rect) (t t' : Traverse) (i : Z) (p : option Element) : Prop :=
  match p with
  | None => dropped ns t' i
  | Some e =>
      if negb (el_used e) then dropped ns t' i
      else if el_active e then
        slot_cell st_e t' ns i (CElem (Some e)) /\
        slot_cell st_er t' ns i (CRect cr) /\
        slot_cell st_sub_idx t' ns i (CIdx 0)
      else moved si ns 0 current_sons e t t' i
  end.

(** The outcome of pushing the son with code [son] of the quadrilateral
    state [stack[si]], [s] by value, where the branch reads column [k] of
    [current_sons]: the son state is the slot at the old [top], its
    rectangle is the part of the parent's with that code, and every mesh
    follows [quad_son_mesh]. *)
Definition quad_son_pushed (si son k : Z) (current_sons : list (option (list Z)))
           (s : State) (t t' : Traverse) : Prop :=
  tr_top t' = tr_top t + 1 /\
  has_cr (tr_top t) (move_to_son (st_cr s) son) t' /\
  forall i p, 0 <= i < tr_num t -> slot_cell st_e t si i (CElem p) ->
    quad_son_mesh si (tr_top t) son k current_sons t t' i p.

(** The outcome of pushing the only son of the quadrilateral state
    [stack[si]], [s] by value: the son state is the slot at the old
    [top], its rectangle is the parent's, and every mesh follows
    [quad_single_mesh]. *)
Definition quad_single_pushed (si : Z) (current_sons : list (option (list Z)))
           (s : State) (t t' : Traverse) : Prop :=
  tr_top t' = tr_top t + 1 /\
  has_cr (tr_top t) (st_cr s) t' /\
  forall i p, 0 <= i < tr_num t -> slot_cell st_e t si i (CElem p) ->
    quad_single_mesh si (tr_top t) current_sons (st_cr s) t t' i p.

(** One base quadrilateral refined in both directions, and one that is
    not refined. *)
Definition ex_mesh_quad : Mesh := mkMesh [ex_quad 0] 1 4.
Definition ex_mesh_quad_leaf : Mesh := mkMesh [ex_quad_leaf 0] 1 1.

(** ** The state of a base element *)

(** The state [stack[si]] in [t'] holds base element [id] of [num]
    meshes: [e[i]] is the element with that id on mesh [i] when it is
    used, with [er[i]] the unit square, and null when it is not. *)
Definition base_loaded (ONE : Z) (meshes : list Mesh) (si id num : Z) (t' : Traverse)
  : Prop :=
  forall i, 0 <= i < num ->
    exists m e, zlookup meshes i = Some m /\ zlookup (mesh_elements m) id = Some e /\
                slot_cell st_e t' si i (CElem (if el_used e then Some e else None)) /\
                (el_used e = true -> slot_cell st_er t' si i (CRect (H2D_UNITY ONE))).

(** ** The rectangles of the quadrilateral states *)

(** The split [sp] leaves room in [cr]: it is one of 0..3, [cr] is at
    least two units high when it has the bit of the horizontal cut
    (sons 4 and 5), and at least two units wide when it has the bit of
    the vertical cut (sons 6 and 7). *)
Definition room (cr : Rect) (sp : Z) : Prop :=
  0 <= sp <= 3 /\
  (Z.testbit sp 0 = true -> r_b cr + 2 <= r_t cr) /\
  (Z.testbit sp 1 = true -> r_l cr + 2 <= r_r cr).

(** The sons that [get_states] pushes for the combined split [sp]. *)
Definition split_son (sp son : Z) : Prop :=
  (sp = 3 /\ 0 <= son <= 3) \/ (sp = 1 /\ 4 <= son <= 5) \/ (sp = 2 /\ 6 <= son <= 7).

(** What the traversal maintains of the rectangle [cr] of a state. *)
Definition cr_ok (cr : Rect) : Prop := in_range cr /\ nondegenerate cr.

(** ** The order of the returned states

    The enumeration of this section is written from the specification of
    the order, not from the loop of [get_states]: the base elements by
    ascending id and, below a base element, the states depth first, the
    sons of a state from the one pushed last to the one pushed first.  It
    is a function of the element trees alone; the stack, the heap and the
    counters of the traversal have no part in it. *)

(** What the descent below a state depends on: the rectangle [cr] of the
    state and, for every mesh, the element [e[i]] with its rectangle
    [er[i]].  A rectangle is [None] where the branch that pushes the
    state does not assign it. *)
Record Node : Type := mkNode {
  nd_cr : option Rect;
  nd_meshes : list (option Element * option Rect)
}.

(** The elements of a state, mesh by mesh. *)
Definition node_elements (nd : Node) : list (option Element) := fst <$> nd_meshes nd.

(** The kind of a state is the kind of its first non-null element. *)
Fixpoint spec_is_triangle (ms : list (option Element * option Rect)) : bool :=
  match ms with
  | [] => false
  | (Some e, _) :: _ => el_is_triangle e
  | (None, _) :: ms' => spec_is_triangle ms'
  end.

(** A leaf state: no mesh holds a used element that is refined. *)
Definition spec_leaf (ms : list (option Element * option Rect)) : bool :=
  forallb (fun m => match fst m with
                    | Some e => negb (el_used e && negb (el_active e))
                    | None => true
                    end) ms.

(** Some mesh among the first [sp] holds a used element. *)
Definition spec_has_rep (sp : Z) (ms : list (option Element * option Rect)) : bool :=
  existsb (fun m => match fst m with
                    | Some e => el_used e
                    | None => false
                    end) (take (Z.to_nat sp) ms).

(** One mesh of the son [son] of a triangle state: nothing for a null or
    unused element, the element itself when it is active, and its son
    [son] otherwise.  The result is [None] when that son is missing. *)
Definition spec_tri_mesh (son : Z) (m : option Element * option Rect)
  : option (option Element * option Rect) :=
  match fst m with
  | None => Some (None, None)
  | Some e =>
      if negb (el_used e) then Some (None, None)
      else if el_active e then Some (Some e, None)
      else match zlookup (el_sons e) son with
           | Some (Some c) => Some (Some c, None)
           | _ => None
           end
  end.

(** The son of the refined element [e] with the code [code], and the
    part of the rectangle [x] with that code. *)
Definition spec_moved (e : Element) (code : Z) (x : Rect)
  : option (option Element * option Rect) :=
  match zlookup (el_sons e) (Z.land code 3) with
  | Some (Some c) => Some (Some c, Some (move_to_son x code))
  | _ => None
  end.

(** One mesh of a son of a quadrilateral state with the rectangle [cr]:
    [k] is the column of the table of [get_split_and_sons] that names the
    son of a refined element; an active element stays, with [er[i]] left
    to [keep]. *)
Definition spec_quad_mesh (cr : Rect) (k : Z) (keep : option Rect)
           (m : option Element * option Rect) : option (option Element * option Rect) :=
  match fst m with
  | None => Some (None, None)
  | Some e =>
      if negb (el_used e) then Some (None, None)
      else if el_active e then Some (Some e, keep)
      else match snd m with
           | Some x =>
               match zlookup (snd (get_split_and_sons e cr x)) k with
               | Some code => spec_moved e code x
               | None => None
               end
           | None => None
           end
  end.

(** The cuts that the refined elements of a state ask for, combined. *)
Fixpoint spec_split (cr : Rect) (ms : list (option Element * option Rect)) (split : Z)
  : option Z :=
  match ms with
  | [] => Some split
  | (Some e, x) :: ms' =>
      if negb (el_active e) then
        match x with
        | Some x => spec_split cr ms' (Z.lor split (fst (get_split_and_sons e cr x)))
        | None => None
        end
      else spec_split cr ms' split
  | (None, _) :: ms' => spec_split cr ms' split
  end.

(** The sons of a state that is not a leaf, in the order in which they
    are pushed: the sons 0, 1, 2, 3 of a triangle; for a quadrilateral
    the four quarters 0, 1, 2, 3 when both cuts are asked for, the two
    halves 4, 5 or 6, 7 for one cut, and one son with the same rectangle
    when no cut is asked for. *)
Definition spec_sons (nd : Node) : option (list Node) :=
  let ms := nd_meshes nd in
  if spec_is_triangle ms then
    mapM (fun son => mkNode None <$> mapM (spec_tri_mesh son) ms) [0; 1; 2; 3]
  else
    match nd_cr nd with
    | None => None
    | Some cr =>
        match spec_split cr ms 0 with
        | None => None
        | Some split =>
            let son_node (sk : Z * Z) :=
              mkNode (Some (move_to_son cr (fst sk)))
                <$> mapM (spec_quad_mesh cr (snd sk) None) ms in
            if split =? 3 then mapM son_node [(0, 0); (1, 1); (2, 2); (3, 3)]
            else if 0 <? split then
              let son0 := if split =? 2 then 6 else 4 in
              mapM son_node [(son0, 0); (son0 + 1, 2)]
            else
              (fun ms' => [mkNode (Some cr) ms']) <$> mapM (spec_quad_mesh cr 0 (Some cr)) ms
        end
    end.

(** The states below [nd], [nd] included, in the order of the specification:
    depth first, the sons of a state from the last one pushed to the
    first.  A leaf is listed when one of its first [sp] meshes holds a
    used element. *)
Fixpoint spec_visit (fuel : nat) (sp : Z) (nd : Node)
  : option (list (list (option Element))) :=
  match fuel with
  | O => None
  | S fuel' =>
      if spec_leaf (nd_meshes nd) then
        Some (if spec_has_rep sp (nd_meshes nd) then [node_elements nd] else [])
      else
        sons ← spec_sons nd;
        (fun kss => concat kss) <$> mapM (spec_visit fuel' sp) (rev sons)
  end.

(** The state of the base element [id]: the unit square, and for every
    mesh the element with that id if it is used. *)
Definition spec_root_mesh (ONE id : Z) (m : Mesh) : option (option Element * option Rect) :=
  match zlookup (mesh_elements m) id with
  | Some e => Some (if el_used e then (Some e, Some (H2D_UNITY ONE)) else (None, None))
  | None => None
  end.

Definition spec_root (ONE : Z) (meshes : list Mesh) (num id : Z) : option Node :=
  if Z.of_nat (length meshes) <? num then None
  else mkNode (Some (H2D_UNITY ONE))
         <$> mapM (spec_root_mesh ONE id) (take (Z.to_nat num) meshes).

(** The base elements from [id] on by ascending id; an id under which no
    mesh holds a used element is passed over. *)
Fixpoint spec_bases (fuel : nat) (ONE : Z) (depth : nat) (meshes : list Mesh)
         (num sp id : Z) : option (list (list (option Element))) :=
  match fuel with
  | O => None
  | S fuel' =>
      m0 ← zlookup meshes 0;
      if mesh_num_base m0 <=? id then Some []
      else
        nd ← spec_root ONE meshes num id;
        if existsb (fun m => bool_decide (is_Some (fst m))) (nd_meshes nd) then
          ks ← spec_visit depth sp nd;
          rest ← spec_bases fuel' ONE depth meshes num sp (id + 1);
          Some (ks ++ rest)
        else spec_bases fuel' ONE depth meshes num sp (id + 1)
  end.

(** The elements of the states that a traversal of [num] meshes with
    [sp] spaces returns, state by state, in the order of the specification. *)
Definition states_in_order (ONE : Z) (fuel : nat) (meshes : list Mesh) (num sp : Z)
  : option (list (list (option Element))) :=
  spec_bases fuel ONE fuel meshes num sp 0.

(** The returned states [l] hold, one by one, the elements [ks]. *)
Definition returned_elements (h : gmap positive (list cell)) (l : list State)
           (ks : list (list (option Element))) : Prop :=
  Forall2 (fun c es => cells_of h (st_e c) = Some (CElem <$> es)) l ks.

(** *** The states of the stack as nodes *)

(** Mesh [i] of the state [stack[si]] of [t] is [m]: [e[i]] is the
    element of [m] and [er[i]] its rectangle, if [m] has one. *)
Definition mesh_cells (t : Traverse) (si : Z) (i : nat) (m : option Element * option Rect)
  : Prop :=
  slot_cell st_e t si (Z.of_nat i) (CElem (fst m)) /\
  forall r, snd m = Some r -> slot_cell st_er t si (Z.of_nat i) (CRect r).

(** The state [stack[si]] of [t] is the node [nd]: it has the rectangle
    of the node, if the node has one, and its arrays [e] and [er] hold
    the elements and the rectangles of the node. *)
Definition holds (t : Traverse) (si : Z) (nd : Node) : Prop :=
  exists s, zlookup (tr_stack t) si = Some s /\ st_num s = tr_num t /\
    (forall x, nd_cr nd = Some x -> st_cr s = x) /\
    length (nd_meshes nd) = Z.to_nat (tr_num t) /\
    forall i m, nd_meshes nd !! i = Some m -> mesh_cells t si i m.

(** From [t] to [t'] the slots below [k] are the same, with the cells of
    their arrays. *)
Definition frame_below (k : Z) (t t' : Traverse) : Prop :=
  forall j, 0 <= j < k ->
    (forall s, zlookup (tr_stack t) j = Some s -> zlookup (tr_stack t') j = Some s) /\
    (forall f i c, slot_cell (fld_sel f) t j i c -> slot_cell (fld_sel f) t' j i c).

(** The array [e] of the returned state [c] holds the elements [es]. *)
Definition holds_elements (es : list (option Element))
           (h : gmap positive (list cell)) (c : State) : Prop :=
  cells_of h (st_e c) = Some (CElem <$> es).

(** The returned states [l] are outside the stack and hold, one by one,
    the elements [ks]. *)
Definition emitted (t : Traverse) (l : list State) (ks : list (list (option Element)))
  : Prop :=
  Forall2 (fun c es => unowned t c /\ holds_elements es (tr_heap t) c) l ks.

(** The slot [stack[j]] of [t] is marked visited, resp. not visited. *)
Definition visited_at (t : Traverse) (j : Z) (b : bool) : Prop :=
  exists s, zlookup (tr_stack t) j = Some s /\ st_visited s = b.

(** The table [current_sons] of a quadrilateral state with the rectangle
    [cr]: the sons that [get_split_and_sons] names for the refined
    elements. *)
Definition spec_table (cr : Rect) (ms : list (option Element * option Rect))
  : list (option (list Z)) :=
  (fun m => match m with
            | (Some e, Some x) =>
                if negb (el_active e) then Some (snd (get_split_and_sons e cr x)) else None
            | _ => None
            end) <$> ms.

(** The cells of [e] from mesh [j] on are the elements of [ms]. *)
Definition e_from (t : Traverse) (si j : Z) (ms : list (option Element * option Rect))
  : Prop :=
  forall i p x, ms !! i = Some (p, x) -> slot_cell st_e t si (j + Z.of_nat i) (CElem p).

(** The values of the counter of a loop of [n] rounds that starts at [i]. *)
Fixpoint loop_indices (n : nat) (i : Z) : list Z :=
  match n with
  | O => []
  | S n' => i :: loop_indices n' (i + 1)
  end.

(** What the visit of the states above slot [k] leaves: the stack is
    popped to [k] or below, the slots below [k] are as they were, no
    state that waits for its visit is popped, and the states [l] that the
    visit returns hold the elements [ks]. *)
Definition visit_done (k : Z) (t t' : Traverse) (lc lc' : Locals)
           (ks : list (list (option Element))) : Prop :=
  wf t' /\ keeps t t' /\ 0 <= tr_top t' <= k /\ frame_below k t t' /\
  (forall i, 0 <= i < k -> i < tr_top t -> visited_at t i false -> i < tr_top t') /\
  lc_id lc' = lc_id lc /\
  exists l, lc_states lc' = lc_states lc ++ l /\ emitted t' l ks.

(** The slot [si] is the root state of a base element: it has the unit
    square for its rectangle. *)
Definition root_ready (ONE : Z) (si : Z) (t : Traverse) : Prop :=
  exists s, zlookup (tr_stack t) si = Some s /\ st_num s = tr_num t /\
            st_cr s = H2D_UNITY ONE.

(** Some mesh of the state holds an element. *)
Definition spec_some_used (ms : list (option Element * option Rect)) : bool :=
  existsb (fun m => bool_decide (is_Some (fst m))) ms.

(** The returned states [l] are those of the enumeration of the
    specification, in its order, whenever that enumeration is defined:
    by ascending id of the base element and, below a base element, depth
    first with the sons of a state from the one pushed last to the one
    pushed first. *)
Definition returned_in_order (ONE : Z) (meshes : list Mesh) (meshes_count sp : Z)
           (h : gmap positive (list cell)) (l : list State) : Prop :=
  forall F ks, states_in_order ONE F meshes meshes_count sp = Some ks ->
               returned_elements h l ks.

(** The ids of the elements of an enumeration. *)
Definition order_ids (ks : list (list (option Element))) : list (list (option Z)) :=
  map (map (option_map el_id)) ks.

(** ** Meshes of one kind per base element

    A base element of a mesh is a triangle or a quadrilateral, and a
    refinement cuts a triangle into triangles and a quadrilateral into
    quadrilaterals; the meshes of one traversal are refinements of the
    same base mesh. *)

(** The element [e] and the elements below it are all triangles ([tri])
    or all quadrilaterals. *)
Fixpoint kind_tree (tri : bool) (e : Element) : bool :=
  match e with
  | mkElement _ _ _ k _ sons _ _ _ =>
      Bool.eqb k tri &&
      forallb (fun c => match c with Some c' => kind_tree tri c' | None => true end) sons
  end.

Definition kind_at (tri : bool) (id : Z) (m : Mesh) : bool :=
  match zlookup (mesh_elements m) id with
  | Some e => kind_tree tri e
  | None => true
  end.

(** Under every id of a base element the meshes hold trees of one kind. *)
Definition uniform_kinds (meshes : list Mesh) : bool :=
  match meshes with
  | [] => true
  | m0 :: _ =>
      forallb (fun id => forallb (kind_at true (Z.of_nat id)) meshes
                         || forallb (kind_at false (Z.of_nat id)) meshes)
              (seq 0 (Z.to_nat (mesh_num_base m0)))
  end.

(** A state of triangles. *)
Definition tri_node (nd : Node) : Prop :=
  forall e x, (Some e, x) ∈ nd_meshes nd -> kind_tree true e = true.

(** A state of quadrilaterals: its rectangle is assigned, and so is the
    rectangle of every refined element. *)
Definition quad_node (nd : Node) : Prop :=
  is_Some (nd_cr nd) /\
  forall e x, (Some e, x) ∈ nd_meshes nd ->
    kind_tree false e = true /\ (el_active e = false -> is_Some x).

Definition one_kind (nd : Node) : Prop := tri_node nd \/ quad_node nd.

(** * Properties *)

(** ** Midpoints and bisections *)

Lemma wrap64_small z : 0 <= z < 2 ^ 64 -> wrap64 z = z.
Proof. intros H. unfold wrap64. apply Z.mod_small. exact H. Qed.

Lemma mid_div lo hi : ok1 lo hi -> mid lo hi = (lo + hi) / 2.
Proof.
  intros (H0 & H1 & H2 & H3). unfold mid. rewrite wrap64_small by lia.
  rewrite Z.shiftr_div_pow2 by lia. reflexivity.
Qed.

Lemma mid_between lo hi : ok1 lo hi -> lo <= mid lo hi <= hi.
Proof.
  intros H. rewrite mid_div by exact H. destruct H as (H0 & H1 & H2 & H3).
  split.
  - apply Z.div_le_lower_bound; lia.
  - apply Z.div_le_upper_bound; lia.
Qed.

Lemma mid_lt_hi lo hi : ok1 lo hi -> lo < hi -> mid lo hi < hi.
Proof.
  intros H Hlt. rewrite mid_div by exact H.
  apply Z.div_lt_upper_bound; lia.
Qed.

Lemma mid_gt_lo lo hi : ok1 lo hi -> lo + 1 < hi -> lo < mid lo hi.
Proof.
  intros H Hlt. rewrite mid_div by exact H.
  assert (lo + 1 <= (lo + hi) / 2); [|lia].
  apply Z.div_le_lower_bound; lia.
Qed.

Lemma mid_unit lo hi : ok1 lo hi -> hi <= lo + 1 -> mid lo hi = lo.
Proof.
  intros H Hle. rewrite mid_div by exact H. destruct H as (H0 & H1 & H2 & H3).
  assert ((lo + hi) / 2 < lo + 1) by (apply Z.div_lt_upper_bound; lia).
  assert (lo <= (lo + hi) / 2) by (apply Z.div_le_lower_bound; lia).
  lia.
Qed.

Lemma ok1_low lo hi : ok1 lo hi -> ok1 lo (mid lo hi).
Proof.
  intros H. pose proof (mid_between lo hi H). unfold ok1 in *. lia.
Qed.

Lemma ok1_high lo hi : ok1 lo hi -> ok1 (mid lo hi) hi.
Proof.
  intros H. pose proof (mid_between lo hi H).
  destruct (Z_lt_le_dec lo hi) as [Hlt | Hge].
  - pose proof (mid_lt_hi lo hi H Hlt). unfold ok1 in *. lia.
  - unfold ok1 in *. lia.
Qed.

(** An interval reached by cuts lies inside the start. *)
Lemma reach1_inside lo hi lo' hi' :
  reach1 lo hi lo' hi' -> ok1 lo hi -> ok1 lo' hi' /\ lo <= lo' /\ hi' <= hi.
Proof.
  induction 1 as [lo hi | lo hi lo' hi' H IH | lo hi lo' hi' H IH]; intros Hok.
  - unfold ok1 in *. lia.
  - pose proof (mid_between lo hi Hok). destruct (IH (ok1_low _ _ Hok)) as (? & ? & ?).
    split; [assumption | lia].
  - pose proof (mid_between lo hi Hok). destruct (IH (ok1_high _ _ Hok)) as (? & ? & ?).
    split; [assumption | lia].
Qed.

(** The decision the loops take on one axis: when the target ends at or
    below the midpoint the lower part still reaches it, when it starts at
    or above the midpoint the upper part does, and a target that differs
    from the interval is on one side. *)
Lemma reach1_decide lo hi lo' hi' :
  reach1 lo hi lo' hi' -> ok1 lo hi -> lo' < hi' ->
  (hi' <= mid lo hi -> reach1 lo (mid lo hi) lo' hi') /\
  (mid lo hi <= lo' -> reach1 (mid lo hi) hi lo' hi') /\
  (lo < lo' \/ hi' < hi -> hi' <= mid lo hi \/ mid lo hi <= lo') /\
  (mid lo hi <= lo' -> lo' = lo -> mid lo hi = lo).
Proof.
  intros Hr Hok Hnd.
  pose proof (mid_between lo hi Hok) as Hm.
  inversion Hr as [a b' | a b' c d Hlow | a b' c d Hhigh]; subst.
  - pose proof (mid_lt_hi lo' hi' Hok Hnd).
    repeat split; intros.
    + lia.
    + assert (mid lo' hi' = lo') as -> by lia. constructor.
    + lia.
    + lia.
  - destruct (reach1_inside _ _ _ _ Hlow (ok1_low _ _ Hok)) as (_ & ? & ?).
    repeat split; intros; [assumption | lia | lia | lia].
  - destruct (reach1_inside _ _ _ _ Hhigh (ok1_high _ _ Hok)) as (_ & ? & ?).
    repeat split; intros; [lia | assumption | lia | lia].
Qed.

Lemma reach1_progress lo hi lo' hi' :
  reach1 lo hi lo' hi' -> ok1 lo hi -> lo' < hi' ->
  lo < lo' \/ hi' < hi -> lo < mid lo hi < hi.
Proof.
  intros Hr Hok Hnd Hne.
  destruct (reach1_inside _ _ _ _ Hr Hok) as (_ & ? & ?).
  split.
  - apply mid_gt_lo; [assumption | lia].
  - apply mid_lt_hi; [assumption | lia].
Qed.

Lemma hmid_of_mid x : hmid_of x = mid (r_l x) (r_r x).
Proof. reflexivity. Qed.

Lemma vmid_of_mid x : vmid_of x = mid (r_b x) (r_t x).
Proof. unfold vmid_of, mid. rewrite Z.add_comm. reflexivity. Qed.

Lemma rect_mismatch_true cr x :
  rect_mismatch cr x = true <->
  r_l x < r_l cr \/ r_r cr < r_r x \/ r_b x < r_b cr \/ r_t cr < r_t x.
Proof.
  unfold rect_mismatch. rewrite !orb_true_iff, !Z.ltb_lt. tauto.
Qed.

Lemma rect_mismatch_false cr x :
  rect_mismatch cr x = false <->
  r_l cr <= r_l x /\ r_r x <= r_r cr /\ r_b cr <= r_b x /\ r_t x <= r_t cr.
Proof.
  unfold rect_mismatch. rewrite !orb_false_iff, !Z.ltb_ge. tauto.
Qed.

(** The facts about one iteration that both if-chains rest on. *)
Ltac axis_facts Hox Hrx Hndx :=
  let D := fresh "D" in
  pose proof (reach1_decide _ _ _ _ Hrx Hox Hndx) as D;
  destruct D as (? & ? & ? & ?);
  pose proof (reach1_progress _ _ _ _ Hrx Hox Hndx);
  pose proof (reach1_inside _ _ _ _ Hrx Hox) as D;
  destruct D as (_ & ? & ?);
  pose proof (mid_between _ _ Hox);
  pose proof (ok1_low _ _ Hox);
  pose proof (ok1_high _ _ Hox).

Ltac step_branch :=
  eexists; split; [reflexivity |];
  unfold tracks, extent; cbn [move_to_son r_l r_r r_b r_t];
  rewrite ?hmid_of_mid, ?vmid_of_mid; cbn [r_l r_r r_b r_t];
  repeat match goal with
         | |- _ /\ _ => split
         | |- ok1 _ _ => assumption
         | |- reach1 _ _ _ _ => first [assumption | match goal with H : _ -> reach1 _ _ _ _ |- _ => apply H; lia end]
         | |- _ => lia
         end.

Ltac split_chain :=
  repeat match goal with
         | |- context [if ?c then _ else _] =>
             let E := fresh "E" in
             destruct c eqn:E;
             [ rewrite ?andb_true_iff, ?Z.leb_le in E | rewrite ?andb_false_iff, ?Z.leb_gt in E ]
         end.

(** One iteration of [Traverse::init_transforms] keeps the invariant and
    shrinks the tracked rectangle; the [assert(0)] branch is not taken. *)
Lemma transforms_son_step cr x :
  tracks cr x -> nondegenerate cr -> rect_mismatch cr x = true ->
  exists son, transforms_son cr x = Some son /\
              tracks cr (move_to_son x son) /\
              0 <= extent (move_to_son x son) < extent x.
Proof.
  intros (Hox & Hoy & Hrx & Hry) (Hndx & Hndy) Hmis.
  apply rect_mismatch_true in Hmis.
  axis_facts Hox Hrx Hndx. axis_facts Hoy Hry Hndy.
  unfold transforms_son. rewrite hmid_of_mid, vmid_of_mid.
  split_chain; try step_branch.
  exfalso. lia.
Qed.

(** The same for [Traverse::init_idx]. *)
Lemma idx_son_step cr x :
  tracks cr x -> nondegenerate cr -> rect_mismatch cr x = true ->
  exists son, idx_son cr x = Some son /\
              tracks cr (move_to_son x son) /\
              0 <= extent (move_to_son x son) < extent x.
Proof.
  intros (Hox & Hoy & Hrx & Hry) (Hndx & Hndy) Hmis.
  apply rect_mismatch_true in Hmis.
  axis_facts Hox Hrx Hndx. axis_facts Hoy Hry Hndy.
  unfold idx_son. rewrite hmid_of_mid, vmid_of_mid.
  split_chain; try step_branch.
  exfalso. lia.
Qed.

(** The tracking loop stops at the target, whatever the if-chain, once
    each iteration keeps the invariant and shrinks the rectangle. *)
Lemma track_reaches pick cr :
  nondegenerate cr ->
  (forall x, tracks cr x -> rect_mismatch cr x = true ->
             exists son, pick cr x = Some son /\ tracks cr (move_to_son x son) /\
                         0 <= extent (move_to_son x son) < extent x) ->
  forall n x, tracks cr x -> extent x < Z.of_nat n ->
  exists p, bisect x p = cr /\
            forall fuel, (length p <= fuel)%nat -> track pick fuel cr x = Ok (p, cr).
Proof.
  intros Hnd Hstep n. induction n as [| n IH]; intros x Hx Hext.
  - destruct Hx as (Hox & Hoy & _). unfold extent, ok1 in *. lia.
  - destruct (rect_mismatch cr x) eqn:Hmis.
    + destruct (Hstep x Hx Hmis) as (son & Hpick & Hx' & Hlt).
      destruct (IH (move_to_son x son) Hx' ltac:(lia)) as (p & Hb & Hrun).
      exists (son :: p). split; [exact Hb |].
      intros [| fuel] Hlen; [simpl in Hlen; lia |].
      simpl. rewrite Hmis, Hpick, Hrun by (simpl in Hlen; lia). reflexivity.
    + exists []. apply rect_mismatch_false in Hmis.
      destruct Hx as (Hox & Hoy & Hrx & Hry).
      destruct (reach1_inside _ _ _ _ Hrx Hox) as (_ & ? & ?).
      destruct (reach1_inside _ _ _ _ Hry Hoy) as (_ & ? & ?).
      assert (Heq : x = cr).
      { destruct x, cr; simpl in *. f_equal; lia. }
      subst x. split; [reflexivity |].
      intros fuel _. destruct fuel; simpl;
        (destruct (rect_mismatch cr cr) eqn:E; [| reflexivity]);
        apply rect_mismatch_true in E; lia.
Qed.

Lemma move_to_son_reach x son cr :
  son_code son ->
  reach1 (r_l (move_to_son x son)) (r_r (move_to_son x son)) (r_l cr) (r_r cr) ->
  reach1 (r_b (move_to_son x son)) (r_t (move_to_son x son)) (r_b cr) (r_t cr) ->
  reach1 (r_l x) (r_r x) (r_l cr) (r_r cr) /\ reach1 (r_b x) (r_t x) (r_b cr) (r_t cr).
Proof.
  intros Hs. unfold son_code in Hs.
  assert (Hc : son = 0 \/ son = 1 \/ son = 2 \/ son = 3 \/
               son = 4 \/ son = 5 \/ son = 6 \/ son = 7) by lia.
  destruct Hc as [-> | [-> | [-> | [-> | [-> | [-> | [-> | ->]]]]]]];
    cbn [move_to_son r_l r_r r_b r_t]; rewrite ?hmid_of_mid, ?vmid_of_mid;
    intros Hx Hy; split;
    first [assumption | apply reach1_low; assumption | apply reach1_high; assumption].
Qed.

(** A rectangle obtained by bisections is reached on both axes. *)
Lemma bisect_reach path : forall er,
  Forall son_code path ->
  reach1 (r_l er) (r_r er) (r_l (bisect er path)) (r_r (bisect er path)) /\
  reach1 (r_b er) (r_t er) (r_b (bisect er path)) (r_t (bisect er path)).
Proof.
  induction path as [| son path IH]; intros er Hp.
  - split; constructor.
  - inversion Hp as [| ? ? Hs Hp']; subst.
    destruct (IH (move_to_son er son) Hp') as (Hx & Hy).
    exact (move_to_son_reach er son _ Hs Hx Hy).
Qed.

Lemma bisect_tracks er path :
  in_range er -> nondegenerate er -> Forall son_code path ->
  tracks (bisect er path) er.
Proof.
  intros (? & ? & ? & ?) (? & ?) Hp.
  destruct (bisect_reach path er Hp) as (Hx & Hy).
  unfold tracks, ok1. repeat split; first [assumption | lia].
Qed.

(** [init_idx_loop] follows [track] and packs the sons with [push_idx]. *)
Lemma init_idx_loop_track fuel cr : forall x idx,
  init_idx_loop fuel cr x idx =
  match track idx_son fuel cr x with
  | Ok (p, x') => Ok (path_idx idx p, x')
  | Err e => Err e
  end.
Proof.
  induction fuel as [| fuel IH]; intros x idx; simpl.
  - destruct (rect_mismatch cr x); reflexivity.
  - destruct (rect_mismatch cr x); [| reflexivity].
    destruct (idx_son cr x) as [son |]; [| reflexivity].
    rewrite IH. destruct (track idx_son fuel cr (move_to_son x son)) as [[p x'] | e];
      reflexivity.
Qed.

(** ** Inversion of the monadic primitives *)

Lemma bind_ok {A B : Type} (c : M A) (k : A -> M B) t b t' :
  bind c k t = Ok (b, t') ->
  exists a t1, c t = Ok (a, t1) /\ k a t1 = Ok (b, t').
Proof.
  unfold bind. destruct (c t) as [[a t1] | e]; [| discriminate].
  intros H. exists a, t1. split; [reflexivity | exact H].
Qed.

Lemma ret_ok {A : Type} (a : A) t b t' : ret a t = Ok (b, t') -> b = a /\ t' = t.
Proof. unfold ret. intros H. inversion H. split; reflexivity. Qed.

Lemma gets_ok {A : Type} (f : Traverse -> A) t b t' :
  gets f t = Ok (b, t') -> b = f t /\ t' = t.
Proof. unfold gets. intros H. inversion H. split; reflexivity. Qed.

Lemma lift_ok {A : Type} (x : result A) t b t' :
  lift x t = Ok (b, t') -> x = Ok b /\ t' = t.
Proof. unfold lift. destruct x; intros H; inversion H. split; reflexivity. Qed.

Lemma slot_ok i t s t' :
  slot i t = Ok (s, t') -> zlookup (tr_stack t) i = Some s /\ t' = t.
Proof.
  unfold slot. destruct (zlookup (tr_stack t) i); intros H; inversion H.
  split; reflexivity.
Qed.

Lemma update_slot_ok i f t u t' :
  update_slot i f t = Ok (u, t') ->
  exists s, zlookup (tr_stack t) i = Some s /\
            t' = with_stack (<[Z.to_nat i := f s]> (tr_stack t)) t.
Proof.
  unfold update_slot. destruct (zlookup (tr_stack t) i) as [s |]; intros H; inversion H.
  exists s. split; reflexivity.
Qed.

Lemma load_ok p i t c t' :
  load p i t = Ok (c, t') ->
  t' = t /\ exists a arr, p = Some a /\ tr_heap t !! a = Some arr /\ zlookup arr i = Some c.
Proof.
  unfold load. destruct p as [a |]; [| discriminate].
  destruct (tr_heap t !! a) as [arr |] eqn:Ha; [| discriminate].
  destruct (zlookup arr i) as [c0 |] eqn:Hi; intros H; inversion H; subst.
  split; [reflexivity |]. exists a, arr. split; [reflexivity |]. split; assumption.
Qed.

Lemma store_ok p i c t u t' :
  store p i c t = Ok (u, t') ->
  exists a arr, p = Some a /\ tr_heap t !! a = Some arr /\ is_Some (zlookup arr i) /\
                t' = with_heap (<[a := <[Z.to_nat i := c]> arr]> (tr_heap t)) t.
Proof.
  unfold store. destruct p as [a |]; [| discriminate].
  destruct (tr_heap t !! a) as [arr |] eqn:Ha; [| discriminate].
  destruct (zlookup arr i) as [c0 |] eqn:Hi; intros H; inversion H; subst.
  exists a, arr. split; [reflexivity |]. split; [assumption |].
  split; [exists c0; exact Hi | reflexivity].
Qed.

Lemma zlookup_Some {A : Type} (xs : list A) i x :
  zlookup xs i = Some x <-> 0 <= i /\ xs !! Z.to_nat i = Some x.
Proof.
  unfold zlookup. destruct (Z.ltb_spec i 0); split.
  - discriminate.
  - intros [? ?]. lia.
  - intros H'. split; [lia | exact H'].
  - intros [_ H']. exact H'.
Qed.

(** ** The [respects] combinators *)

Section Respects.
Context (R : Traverse -> Traverse -> Prop) {HR : PreOrder R}.

Lemma respects_ret {A : Type} (a : A) : respects R (ret a).
Proof. intros t b t' H. apply ret_ok in H as [_ ->]. reflexivity. Qed.

Lemma respects_throw {A : Type} e : respects R (@throw A e).
Proof. intros t b t' H. discriminate. Qed.

Lemma respects_undef {A : Type} u : respects R (@undef A u).
Proof. intros t b t' H. discriminate. Qed.

Lemma respects_gets {A : Type} (f : Traverse -> A) : respects R (gets f).
Proof. intros t b t' H. apply gets_ok in H as [_ ->]. reflexivity. Qed.

Lemma respects_lift {A : Type} (x : result A) : respects R (lift x).
Proof. intros t b t' H. apply lift_ok in H as [_ ->]. reflexivity. Qed.

Lemma respects_slot i : respects R (slot i).
Proof. intros t b t' H. apply slot_ok in H as [_ ->]. reflexivity. Qed.

Lemma respects_load p i : respects R (load p i).
Proof. intros t b t' H. apply load_ok in H as [-> _]. reflexivity. Qed.

Lemma respects_bind {A B : Type} (c : M A) (k : A -> M B) :
  respects R c -> (forall a, respects R (k a)) -> respects R (bind c k).
Proof.
  intros Hc Hk t b t' H. apply bind_ok in H as (a & t1 & H1 & H2).
  transitivity t1; [exact (Hc _ _ _ H1) | exact (Hk _ _ _ _ H2)].
Qed.

Lemma respects_for_loop n : forall i body,
  (forall j, respects R (body j)) -> respects R (for_loop n i body).
Proof.
  induction n as [| n IH]; intros i body Hb; simpl.
  - apply respects_ret.
  - apply respects_bind; [apply Hb | intros _; apply IH, Hb].
Qed.

Lemma respects_deref p : respects R (deref p).
Proof. destruct p; [apply respects_ret | apply respects_undef]. Qed.

Lemma respects_son_at e k : respects R (son_at e k).
Proof. unfold son_at. destruct (zlookup _ _); [apply respects_ret | apply respects_undef]. Qed.

Lemma respects_flag_at xs k : respects R (flag_at xs k).
Proof. unfold flag_at. destruct (zlookup _ _); [apply respects_ret | apply respects_undef]. Qed.

Lemma respects_get_e si i : respects R (get_e si i).
Proof.
  unfold get_e. apply respects_bind; [apply respects_slot | intros s].
  apply respects_bind; [apply respects_load | intros c; apply respects_lift].
Qed.

Lemma respects_get_er si i : respects R (get_er si i).
Proof.
  unfold get_er. apply respects_bind; [apply respects_slot | intros s].
  apply respects_bind; [apply respects_load | intros c; apply respects_lift].
Qed.

Lemma respects_get_sub_idx si i : respects R (get_sub_idx si i).
Proof.
  unfold get_sub_idx. apply respects_bind; [apply respects_slot | intros s].
  apply respects_bind; [apply respects_load | intros c; apply respects_lift].
Qed.

End Respects.

(** Structural steps on a [respects] goal; the facts about the writing
    primitives come from the hint database. *)
Create HintDb respects_db.
#[local] Hint Extern 1 (PreOrder _) => typeclasses eauto : respects_db.
#[local] Hint Extern 1 (Reflexive _) => typeclasses eauto : respects_db.

Ltac respects_step :=
  lazymatch goal with
  | |- respects ?R (bind _ _) => apply (respects_bind R); [| intros ?]
  | |- respects ?R (ret _) => apply (respects_ret R)
  | |- respects ?R (throw _) => apply (respects_throw R)
  | |- respects ?R (undef _) => apply (respects_undef R)
  | |- respects ?R (gets _) => apply (respects_gets R)
  | |- respects ?R (lift _) => apply (respects_lift R)
  | |- respects ?R (slot _) => apply (respects_slot R)
  | |- respects ?R (load _ _) => apply (respects_load R)
  | |- respects ?R (deref _) => apply (respects_deref R)
  | |- respects ?R (son_at _ _) => apply (respects_son_at R)
  | |- respects ?R (flag_at _ _) => apply (respects_flag_at R)
  | |- respects ?R (get_e _ _) => apply (respects_get_e R)
  | |- respects ?R (get_er _ _) => apply (respects_get_er R)
  | |- respects ?R (get_sub_idx _ _) => apply (respects_get_sub_idx R)
  | |- respects ?R (for_loop _ _ _) => apply (respects_for_loop R); intros ?
  | |- respects _ (and_then ?a _) => unfold and_then; destruct a
  | |- respects _ (or_else ?a _) => unfold or_else; destruct a
  | |- respects _ (match ?x with _ => _ end) => destruct x
  | |- respects _ _ => solve [eauto with respects_db]
  end.

Ltac respects_auto := repeat respects_step.

(** ** Relations between stacks *)

#[local] Instance slots_rel_preorder Q `{!PreOrder Q} : PreOrder (slots_rel Q).
Proof.
  split.
  - intros t. unfold slots_rel. apply Forall2_same_length_lookup_2; [reflexivity |].
    intros i x y Hx Hy. rewrite Hx in Hy. inversion Hy. reflexivity.
  - intros t1 t2 t3 H12 H23. unfold slots_rel in *.
    eapply Forall2_trans; [| exact H12 | exact H23].
    intros x y z. apply transitivity.
Qed.

#[local] Instance same_cr_preorder : PreOrder same_cr.
Proof.
  split.
  - intros s. reflexivity.
  - intros s1 s2 s3 H12 H23. unfold same_cr in *. congruence.
Qed.

Lemma slots_rel_lookup Q t t' i s :
  slots_rel Q t t' -> zlookup (tr_stack t) i = Some s ->
  exists s', zlookup (tr_stack t') i = Some s' /\ Q s s'.
Proof.
  intros HQ Hs. apply zlookup_Some in Hs as [Hi Hs].
  destruct (Forall2_lookup_l _ _ _ _ _ HQ Hs) as (s' & Hs' & Hq).
  exists s'. split; [apply zlookup_Some; split; assumption | exact Hq].
Qed.

Section SlotsRel.
Context (Q : State -> State -> Prop) {HQ : PreOrder Q}.

Lemma slots_rel_same_stack t t' : tr_stack t' = tr_stack t -> slots_rel Q t t'.
Proof.
  intros H. unfold slots_rel. rewrite H.
  change (slots_rel Q t t). reflexivity.
Qed.

Lemma respects_slots_store p i c : respects (slots_rel Q) (store p i c).
Proof.
  intros t u t' H. apply store_ok in H as (a & arr & _ & _ & _ & ->).
  apply slots_rel_same_stack. reflexivity.
Qed.

Lemma respects_slots_update i f :
  (forall s, Q s (f s)) -> respects (slots_rel Q) (update_slot i f).
Proof.
  intros Hf t u t' H. apply update_slot_ok in H as (s & Hs & ->).
  unfold slots_rel. simpl. apply zlookup_Some in Hs as [Hi Hs].
  apply Forall2_same_length_lookup_2.
  - rewrite length_insert. reflexivity.
  - intros j x y Hx Hy. destruct (decide (j = Z.to_nat i)) as [-> | Hne].
    + rewrite list_lookup_insert_eq in Hy by (eapply lookup_lt_Some; exact Hs).
      rewrite Hs in Hx. inversion Hx; inversion Hy; subst. apply Hf.
    + rewrite list_lookup_insert_ne in Hy by congruence.
      rewrite Hx in Hy. inversion Hy. reflexivity.
Qed.

Lemma respects_slots_put_sub_idx si i v : respects (slots_rel Q) (put_sub_idx si i v).
Proof. unfold put_sub_idx. respects_auto. apply respects_slots_store. Qed.

Lemma respects_slots_put_e si i v : respects (slots_rel Q) (put_e si i v).
Proof. unfold put_e. respects_auto. apply respects_slots_store. Qed.

Lemma respects_slots_put_er si i v : respects (slots_rel Q) (put_er si i v).
Proof. unfold put_er. respects_auto. apply respects_slots_store. Qed.

End SlotsRel.

Lemma respects_eq_State_is_triangle_loop n : forall si j,
  respects eq (State_is_triangle_loop n si j).
Proof. induction n as [| n IH]; intros si j; simpl; respects_auto. Qed.

Lemma respects_eq_State_is_triangle si : respects eq (State_is_triangle si).
Proof.
  unfold State_is_triangle. respects_auto. apply respects_eq_State_is_triangle_loop.
Qed.

Lemma respects_same_cr_push_transform si son i tri :
  respects (slots_rel same_cr) (push_transform si son i tri).
Proof.
  unfold push_transform. respects_auto.
  - apply (respects_slots_put_sub_idx same_cr).
  - apply (respects_slots_update same_cr). intros s. reflexivity.
Qed.

(** [init_transforms] makes the calls of [push_transform] for the sons
    that [track] lists. *)
Lemma init_transforms_loop_track fuel : forall si i x t s p x',
  zlookup (tr_stack t) si = Some s ->
  track transforms_son fuel (st_cr s) x = Ok (p, x') ->
  init_transforms_loop fuel si i x t = push_transforms si i p t.
Proof.
  induction fuel as [| fuel IH]; intros si i x t s p x' Hs Htr.
  - simpl in *. unfold bind, slot. rewrite Hs.
    destruct (rect_mismatch (st_cr s) x); [discriminate |].
    inversion Htr; subst. reflexivity.
  - simpl in *. unfold bind at 1. unfold slot at 1. rewrite Hs.
    destruct (rect_mismatch (st_cr s) x); [| inversion Htr; subst; reflexivity].
    destruct (transforms_son (st_cr s) x) as [son |]; [| discriminate].
    destruct (track transforms_son fuel (st_cr s) (move_to_son x son)) as [[p' x''] | e] eqn:Htr';
      [| discriminate].
    inversion Htr; subst. simpl.
    unfold bind at 1 3.
    destruct (State_is_triangle si t) as [[tri t1] | e] eqn:H1; [| reflexivity].
    apply respects_eq_State_is_triangle in H1. subst t1.
    unfold bind at 1 2.
    destruct (push_transform si son i tri t) as [[u t2] | e] eqn:H2; [| reflexivity].
    apply respects_same_cr_push_transform in H2.
    destruct (slots_rel_lookup _ _ _ _ _ H2 Hs) as (s2 & Hs2 & Hcr).
    unfold same_cr in Hcr.
    apply (IH si i _ t2 s2 p' x'); [exact Hs2 | rewrite Hcr; exact Htr'].
Qed.

(** ** Reading the arrays of a slot *)

Lemma slot_load_spec (sel : State -> ptr) si i t c t' :
  bind (slot si) (fun s => load (sel s) i) t = Ok (c, t') <->
  t' = t /\ slot_cell sel t si i c.
Proof.
  unfold bind, slot, load, slot_cell. split.
  - destruct (zlookup (tr_stack t) si) as [s |] eqn:Hs; [| discriminate].
    destruct (sel s) as [a |] eqn:Ha; [| discriminate].
    destruct (tr_heap t !! a) as [arr |] eqn:Harr; [| discriminate].
    destruct (zlookup arr i) as [c0 |] eqn:Hc; intros H; inversion H; subst.
    split; [reflexivity |]. exists s, a, arr. repeat split; assumption.
  - intros (-> & s & a & arr & Hs & Ha & Harr & Hc).
    rewrite Hs, Ha, Harr, Hc. reflexivity.
Qed.

Lemma get_sub_idx_spec si i t v t' :
  get_sub_idx si i t = Ok (v, t') <-> t' = t /\ slot_cell st_sub_idx t si i (CIdx v).
Proof.
  unfold get_sub_idx. split.
  - intros H. apply bind_ok in H as (s & t1 & H1 & H2).
    apply bind_ok in H2 as (c & t2 & H2 & H3).
    apply slot_ok in H1 as [Hs ->]. apply lift_ok in H3 as [Hc ->].
    assert (Hl : bind (slot si) (fun s => load (st_sub_idx s) i) t = Ok (c, t2)).
    { unfold bind, slot. rewrite Hs. exact H2. }
    apply slot_load_spec in Hl as [-> Hcell].
    destruct c; try discriminate. inversion Hc; subst. split; [reflexivity | exact Hcell].
  - intros [-> Hcell].
    pose proof (proj2 (slot_load_spec st_sub_idx si i t (CIdx v) t) (conj eq_refl Hcell)) as Hl.
    unfold bind in *. destruct (slot si t) as [[s t1] | e]; [| discriminate].
    rewrite Hl. reflexivity.
Qed.

Lemma get_e_spec si i t v t' :
  get_e si i t = Ok (v, t') <-> t' = t /\ slot_cell st_e t si i (CElem v).
Proof.
  unfold get_e. split.
  - intros H. apply bind_ok in H as (s & t1 & H1 & H2).
    apply bind_ok in H2 as (c & t2 & H2 & H3).
    apply slot_ok in H1 as [Hs ->]. apply lift_ok in H3 as [Hc ->].
    assert (Hl : bind (slot si) (fun s => load (st_e s) i) t = Ok (c, t2)).
    { unfold bind, slot. rewrite Hs. exact H2. }
    apply slot_load_spec in Hl as [-> Hcell].
    destruct c; try discriminate. inversion Hc; subst. split; [reflexivity | exact Hcell].
  - intros [-> Hcell].
    pose proof (proj2 (slot_load_spec st_e si i t (CElem v) t) (conj eq_refl Hcell)) as Hl.
    unfold bind in *. destruct (slot si t) as [[s t1] | e]; [| discriminate].
    rewrite Hl. reflexivity.
Qed.

Lemma get_er_spec si i t v t' :
  get_er si i t = Ok (v, t') <-> t' = t /\ slot_cell st_er t si i (CRect v).
Proof.
  unfold get_er. split.
  - intros H. apply bind_ok in H as (s & t1 & H1 & H2).
    apply bind_ok in H2 as (c & t2 & H2 & H3).
    apply slot_ok in H1 as [Hs ->]. apply lift_ok in H3 as [Hc ->].
    assert (Hl : bind (slot si) (fun s => load (st_er s) i) t = Ok (c, t2)).
    { unfold bind, slot. rewrite Hs. exact H2. }
    apply slot_load_spec in Hl as [-> Hcell].
    destruct c; try discriminate. inversion Hc; subst. split; [reflexivity | exact Hcell].
  - intros [-> Hcell].
    pose proof (proj2 (slot_load_spec st_er si i t (CRect v) t) (conj eq_refl Hcell)) as Hl.
    unfold bind in *. destruct (slot si t) as [[s t1] | e]; [| discriminate].
    rewrite Hl. reflexivity.
Qed.

(** ** The sub-element address *)

Lemma wrap8_small z : 0 <= z < 256 -> wrap8 z = z.
Proof. intros H. unfold wrap8. apply Z.mod_small. exact H. Qed.

(** What [State::push_transform] does to [sub_idx[i]]. *)
Lemma push_transform_sub_idx si son i tri t v :
  0 <= son < 256 -> 0 <= i < 256 ->
  get_sub_idx si i t = Ok (v, t) ->
  exists t', push_transform si son i tri t = Ok (tt, t') /\
             get_sub_idx si i t' = Ok (push_idx v son, t').
Proof.
  intros Hson Hi Hget. unfold push_transform.
  rewrite (wrap8_small son Hson), (wrap8_small i Hi).
  unfold bind at 1. rewrite Hget.
  apply get_sub_idx_spec in Hget as (_ & s & a & arr & Hs & Ha & Harr & Hc).
  unfold put_sub_idx, bind, slot, store, update_slot. rewrite Hs, Ha, Harr, Hc. cbn.
  rewrite Hs. eexists. split; [reflexivity |].
  apply get_sub_idx_spec. split; [reflexivity |].
  apply zlookup_Some in Hs as [Hsi Hs]. apply zlookup_Some in Hc as [Hi0 Hc].
  exists (set_bnd (push_bnd (st_bnd s) son tri) s), a, (<[Z.to_nat i := CIdx (push_idx v son)]> arr).
  cbn. split; [| split; [exact Ha | split]].
  - apply zlookup_Some. split; [exact Hsi |].
    apply list_lookup_insert_eq. eapply lookup_lt_Some. exact Hs.
  - apply lookup_insert_eq.
  - apply zlookup_Some. split; [exact Hi0 |].
    apply list_lookup_insert_eq. eapply lookup_lt_Some. exact Hc.
Qed.

(** Without the wrap-around, an address is a numeral in bijective base 8. *)
Lemma path_idx_snoc idx p son : path_idx idx (p ++ [son]) = push_idx (path_idx idx p) son.
Proof. unfold path_idx. rewrite fold_left_app. reflexivity. Qed.

Lemma path_idx_bound p :
  Forall son_code p -> (length p <= 21)%nat ->
  0 <= path_idx 0 p /\ 7 * path_idx 0 p <= 8 ^ (Z.of_nat (length p) + 1) - 8.
Proof.
  induction p as [| son p IH] using rev_ind; intros Hp Hlen.
  - simpl. lia.
  - apply Forall_app in Hp as [Hp Hs]. inversion Hs as [| ? ? Hson _]; subst.
    rewrite length_app in *. simpl in Hlen.
    destruct (IH Hp ltac:(lia)) as [H0 H7].
    rewrite path_idx_snoc. unfold push_idx. rewrite Z.shiftl_mul_pow2 by lia.
    unfold son_code in Hson.
    assert (Hpow : 8 ^ (Z.of_nat (length p) + 1) <= 8 ^ 21).
    { apply Z.pow_le_mono_r; lia. }
    assert (H821 : 8 ^ 21 = 2 ^ 63) by reflexivity.
    rewrite wrap64_small by lia.
    split; [lia |].
    replace (Z.of_nat (length p + length [son]) + 1) with (Z.succ (Z.of_nat (length p) + 1))
      by (simpl; lia).
    rewrite Z.pow_succ_r by lia. lia.
Qed.

Lemma path_idx_snoc_small p son :
  Forall son_code p -> son_code son -> (length p < 21)%nat ->
  path_idx 0 (p ++ [son]) = path_idx 0 p * 8 + son + 1.
Proof.
  intros Hp Hson Hlen. destruct (path_idx_bound p Hp ltac:(lia)) as [H0 H7].
  rewrite path_idx_snoc. unfold push_idx. rewrite Z.shiftl_mul_pow2 by lia.
  unfold son_code in Hson.
  assert (Hpow : 8 ^ (Z.of_nat (length p) + 1) <= 8 ^ 21).
  { apply Z.pow_le_mono_r; lia. }
  assert (H821 : 8 ^ 21 = 2 ^ 63) by reflexivity.
  rewrite wrap64_small by lia. change (2 ^ 3) with 8. reflexivity.
Qed.

(** Paths of at most 21 descent steps have distinct addresses. *)
Lemma path_idx_inj p : forall q,
  Forall son_code p -> Forall son_code q ->
  (length p <= 21)%nat -> (length q <= 21)%nat ->
  path_idx 0 p = path_idx 0 q -> p = q.
Proof.
  induction p as [| a p IH] using rev_ind; intros q Hp Hq Hlp Hlq Heq.
  - destruct q as [| b q] using rev_ind; [reflexivity |].
    apply Forall_app in Hq as [Hq Hb]. inversion Hb as [| ? ? Hb' _]; subst.
    rewrite length_app in Hlq. simpl in Hlq.
    rewrite path_idx_snoc_small in Heq by (assumption || lia).
    destruct (path_idx_bound q Hq ltac:(lia)) as [H0 _].
    unfold son_code in Hb'. simpl in Heq. lia.
  - apply Forall_app in Hp as [Hp Ha]. inversion Ha as [| ? ? Ha' _]; subst.
    rewrite length_app in Hlp. simpl in Hlp.
    rewrite path_idx_snoc_small in Heq by (assumption || lia).
    destruct (path_idx_bound p Hp ltac:(lia)) as [H0 _].
    destruct q as [| b q _] using rev_ind.
    + unfold son_code in Ha'. simpl in Heq. lia.
    + apply Forall_app in Hq as [Hq Hb]. inversion Hb as [| ? ? Hb' _]; subst.
      rewrite length_app in Hlq. simpl in Hlq.
      rewrite path_idx_snoc_small in Heq by (assumption || lia).
      destruct (path_idx_bound q Hq ltac:(lia)) as [H0' _].
      unfold son_code in Ha', Hb'.
      assert (a = b /\ path_idx 0 p = path_idx 0 q) as [-> Hpq] by lia.
      f_equal. apply IH; (assumption || lia).
Qed.

(** ** Code that cannot fail an assertion or run out of fuel *)

Lemma no_abort_bind {A B : Type} (c : M A) (k : A -> M B) :
  no_abort c -> (forall a, no_abort (k a)) -> no_abort (bind c k).
Proof.
  intros Hc Hk t. unfold bind. destruct (c t) as [[a t1] | e] eqn:E.
  - apply Hk.
  - specialize (Hc t). rewrite E in Hc. destruct Hc as [H1 H2].
    split; intros H; inversion H; subst; [apply H1 | apply H2]; reflexivity.
Qed.

Lemma no_abort_ret {A : Type} (a : A) : no_abort (ret a).
Proof. intros t. split; discriminate. Qed.

Lemma no_abort_slot i : no_abort (slot i).
Proof. intros t. unfold slot. destruct (zlookup _ _); split; discriminate. Qed.

Lemma no_abort_update_slot i f : no_abort (update_slot i f).
Proof. intros t. unfold update_slot. destruct (zlookup _ _); split; discriminate. Qed.

Lemma no_abort_load p i : no_abort (load p i).
Proof.
  intros t. unfold load. destruct p; [| split; discriminate].
  destruct (_ !! _); [| split; discriminate].
  destruct (zlookup _ _); split; discriminate.
Qed.

Lemma no_abort_store p i c : no_abort (store p i c).
Proof.
  intros t. unfold store. destruct p; [| split; discriminate].
  destruct (_ !! _); [| split; discriminate].
  destruct (zlookup _ _); split; discriminate.
Qed.

Lemma no_abort_get_e si i : no_abort (get_e si i).
Proof.
  unfold get_e. apply no_abort_bind; [apply no_abort_slot | intros s].
  apply no_abort_bind; [apply no_abort_load | intros c t].
  destruct c; split; discriminate.
Qed.

Lemma no_abort_get_sub_idx si i : no_abort (get_sub_idx si i).
Proof.
  unfold get_sub_idx. apply no_abort_bind; [apply no_abort_slot | intros s].
  apply no_abort_bind; [apply no_abort_load | intros c t].
  destruct c; split; discriminate.
Qed.

Lemma no_abort_State_is_triangle si : no_abort (State_is_triangle si).
Proof.
  unfold State_is_triangle. apply no_abort_bind; [apply no_abort_slot | intros s].
  generalize 0. induction (Z.to_nat (st_num s)) as [| n IH]; intros j; simpl.
  - apply no_abort_ret.
  - apply no_abort_bind; [apply no_abort_get_e | intros [e |]].
    + apply no_abort_ret.
    + apply IH.
Qed.

Lemma no_abort_push_transform si son i tri : no_abort (push_transform si son i tri).
Proof.
  unfold push_transform.
  apply no_abort_bind; [apply no_abort_get_sub_idx | intros v].
  apply no_abort_bind; [| intros _; apply no_abort_update_slot].
  unfold put_sub_idx. apply no_abort_bind; [apply no_abort_slot | intros s].
  apply no_abort_store.
Qed.

Lemma no_abort_push_transforms si i p : no_abort (push_transforms si i p).
Proof.
  induction p as [| son p IH]; simpl.
  - apply no_abort_ret.
  - apply no_abort_bind; [apply no_abort_State_is_triangle | intros tri].
    apply no_abort_bind; [apply no_abort_push_transform | intros _; exact IH].
Qed.

(** ** C7: the sub-element address *)

(** C7 (as amended).  [State::push_transform] replaces [sub_idx[i]] by
    [(sub_idx[i] << 3) + son + 1] reduced modulo 2^64, and two sequences of
    at most 21 descent steps with the same address are the same sequence. *)
Theorem push_transform_path_encoding (si son i : Z) (tri : bool) (t : Traverse) (v : Z)
    (p q : list Z) :
  son_code son -> 0 <= i < 256 ->
  get_sub_idx si i t = Ok (v, t) ->
  Forall son_code p -> Forall son_code q ->
  (length p <= 21)%nat -> (length q <= 21)%nat ->
  (exists t', push_transform si son i tri t = Ok (tt, t') /\
              get_sub_idx si i t' = Ok (wrap64 (Z.shiftl v 3 + son + 1), t')) /\
  (path_idx 0 p = path_idx 0 q -> p = q).
Proof.
  intros Hson Hi Hget Hp Hq Hlp Hlq. split.
  - unfold son_code in Hson.
    exact (push_transform_sub_idx si son i tri t v ltac:(lia) Hi Hget).
  - apply path_idx_inj; assumption.
Qed.

(** ** C10: the rectangle tracking loops *)

(** C10.  Under the invariant that the traversal maintains, [er] a
    rectangle of the coordinate range with a positive width and height
    and [cr] a rectangle with a positive width and height obtained from
    it by midpoint bisections, the loops of [Traverse::init_idx] and
    [Traverse::init_transforms] select a son at every iteration (the
    [assert(0)] branch is not taken) and stop, after as many iterations as
    they select sons, with the tracked rectangle equal to [cr].  The
    rectangles that the traversal cuts have a positive width and height:
    [get_split_and_sons] asks for a cut only where a midpoint lies
    strictly inside [cr], see [push_sons_rectangles]. *)
Theorem init_loops_reach_target (er : Rect) (path : list Z) :
  in_range er -> nondegenerate er -> Forall son_code path ->
  nondegenerate (bisect er path) ->
  loops_stop_at er (bisect er path).
Proof.
  intros Hin Hnd Hp Hcr. unfold loops_stop_at.
  pose proof (bisect_tracks er path Hin Hnd Hp) as Htr.
  set (cr := bisect er path) in *.
  assert (Hext : extent er < Z.of_nat (S (Z.to_nat (extent er)))).
  { destruct Hnd. unfold extent. lia. }
  split.
  - destruct (track_reaches idx_son cr Hcr
                (fun x Hx Hm => idx_son_step cr x Hx Hcr Hm) _ er Htr Hext) as (p & Hb & Hrun).
    exists p. split; [exact Hb |]. intros fuel idx Hlen.
    rewrite init_idx_loop_track, (Hrun fuel Hlen). reflexivity.
  - destruct (track_reaches transforms_son cr Hcr
                (fun x Hx Hm => transforms_son_step cr x Hx Hcr Hm) _ er Htr Hext)
      as (p & Hb & Hrun).
    exists p. split; [exact Hb |]. intros fuel si i t s Hlen Hs Hscr Her.
    assert (Heq : init_transforms fuel si i t = push_transforms si (wrap8 i) p t).
    { unfold init_transforms. unfold bind. rewrite Her.
      apply (init_transforms_loop_track fuel si (wrap8 i) er t s p cr Hs).
      rewrite Hscr. apply Hrun, Hlen. }
    split; [exact Heq |]. rewrite Heq. apply no_abort_push_transforms.
Qed.

Lemma init_loops_reach_target_witness : loops_stop_at ex_unity (bisect ex_unity [0; 7; 5]).
Proof.
  apply (init_loops_reach_target ex_unity [0; 7; 5]).
  - unfold in_range, ex_unity, ex_ONE. simpl. lia.
  - unfold nondegenerate, ex_unity, ex_ONE. simpl. lia.
  - repeat constructor; unfold son_code; lia.
  - vm_compute. split; reflexivity.
Defined.

(** Outside that invariant, [init_idx] called on its own with a
    rectangle of zero width, which the traversal never cuts: with [er]
    the rectangle (0, 0, 2, 2), the upper part of its horizontal extent
    cut again to its lower part is [cr] = (1, 0, 1, 2), and the loop of
    [Traverse::init_idx] never ends on it, since from (0, 0, 1, 2) on it
    selects son 7, which leaves the tracked rectangle as it is. *)
Lemma init_idx_diverges_on_degenerate :
  in_range ex_small /\ nondegenerate ex_small /\ Forall son_code [7; 6] /\
  bisect ex_small [7; 6] = mkRect 1 0 1 2 /\
  forall fuel, init_idx fuel (bisect ex_small [7; 6]) ex_small = Err OutOfFuel.
Proof.
  split; [unfold in_range, ex_small; simpl; lia |].
  split; [unfold nondegenerate, ex_small; simpl; lia |].
  split; [repeat constructor; unfold son_code; lia |].
  split; [reflexivity |].
  assert (Hstuck : forall fuel idx,
             init_idx_loop fuel (mkRect 1 0 1 2) (mkRect 0 0 1 2) idx = Err OutOfFuel).
  { induction fuel as [| fuel IH]; intros idx; [reflexivity |].
    change (init_idx_loop (S fuel) (mkRect 1 0 1 2) (mkRect 0 0 1 2) idx)
      with (init_idx_loop fuel (mkRect 1 0 1 2) (mkRect 0 0 1 2) (push_idx idx 7)).
    apply IH. }
  intros [| fuel]; [reflexivity |].
  unfold init_idx.
  change (init_idx_loop (S fuel) (bisect ex_small [7; 6]) ex_small 0)
    with (init_idx_loop fuel (mkRect 1 0 1 2) (mkRect 0 0 1 2) (push_idx 0 6)).
  rewrite Hstuck. reflexivity.
Qed.

Lemma push_transform_path_encoding_witness :
  (exists t', push_transform 0 2 0 false ex_one_slot = Ok (tt, t') /\
              get_sub_idx 0 0 t' = Ok (wrap64 (Z.shiftl 5 3 + 2 + 1), t')) /\
  (path_idx 0 [0; 1] = path_idx 0 [0; 1] -> [0; 1] = [0; 1]).
Proof.
  apply (push_transform_path_encoding 0 2 0 false ex_one_slot 5 [0; 1] [0; 1]).
  - unfold son_code. lia.
  - lia.
  - vm_compute. reflexivity.
  - repeat constructor; unfold son_code; lia.
  - repeat constructor; unfold son_code; lia.
  - simpl. lia.
  - simpl. lia.
Defined.

(** C7, counterexample to the claim as stated.  The two-step descent
    0, 0 and a 22-step descent have the same address 9: the 21st step of
    the long descent reaches 8 * (2^61 + 1), which wraps to 8. *)
Lemma path_idx_collision :
  Forall son_code [0; 0] /\ Forall son_code ex_long_path /\
  [0; 0] <> ex_long_path /\
  path_idx 0 [0; 0] = 9 /\ path_idx 0 ex_long_path = 9.
Proof.
  split; [repeat constructor; unfold son_code; lia |].
  split; [unfold ex_long_path; repeat constructor; unfold son_code; lia |].
  split; [discriminate |].
  split; vm_compute; reflexivity.
Qed.

(** ** The stack invariant and the frame *)

#[local] Instance keeps_preorder : PreOrder keeps.
Proof.
  split.
  - intros t Hwf. split; [exact Hwf |]. split; [| repeat split].
    intros a Ha Hna. split; [reflexivity | exact Hna].
  - intros t1 t2 t3 H12 H23 Hwf.
    destruct (H12 Hwf) as (Hwf2 & Hf12 & Hn12 & Hs12 & Hp12).
    destruct (H23 Hwf2) as (Hwf3 & Hf23 & Hn23 & Hs23 & Hp23).
    split; [exact Hwf3 |]. split; [| repeat split; congruence].
    intros a Ha Hna. destruct (Hf12 a Ha Hna) as [Heq Hna2].
    assert (Ha2 : is_Some (tr_heap t2 !! a)) by (rewrite Heq; exact Ha).
    destruct (Hf23 a Ha2 Hna2) as [Heq' Hna3].
    split; [congruence | exact Hna3].
Qed.

Lemma slot_ptrs_eq s s' :
  st_e s' = st_e s -> st_er s' = st_er s -> st_sub_idx s' = st_sub_idx s ->
  slot_ptrs s' = slot_ptrs s.
Proof. intros H1 H2 H3. unfold slot_ptrs. rewrite H1, H2, H3. reflexivity. Qed.

Lemma slot_wf_eq h n s s' :
  st_e s' = st_e s -> st_er s' = st_er s -> st_sub_idx s' = st_sub_idx s ->
  slot_wf h n s -> slot_wf h n s'.
Proof. intros H1 H2 H3. unfold slot_wf. rewrite H1, H2, H3. tauto. Qed.

Lemma stack_ptrs_elem t i s a :
  tr_stack t !! i = Some s -> a ∈ slot_ptrs s -> a ∈ stack_ptrs t.
Proof.
  intros Hs Ha. unfold stack_ptrs. apply list_elem_of_join.
  exists (slot_ptrs s). split; [exact Ha |].
  apply list_elem_of_fmap. exists s. split; [reflexivity |].
  eapply list_elem_of_lookup_2. exact Hs.
Qed.

Lemma slot_ptrs_e s a : st_e s = Some a -> a ∈ slot_ptrs s.
Proof. intros H. unfold slot_ptrs. simpl. rewrite H. simpl. left. Qed.

Lemma slot_ptrs_er s a : st_er s = Some a -> a ∈ slot_ptrs s.
Proof.
  intros H. unfold slot_ptrs. simpl. rewrite H.
  destruct (st_e s); simpl; [right; left | left].
Qed.

Lemma slot_ptrs_sub_idx s a : st_sub_idx s = Some a -> a ∈ slot_ptrs s.
Proof.
  intros H. unfold slot_ptrs. simpl. rewrite H.
  destruct (st_e s), (st_er s); simpl; repeat constructor.
Qed.

Lemma array_of_store h n p a arr i c :
  h !! a = Some arr -> array_of h n p ->
  array_of (<[a := <[i := c]> arr]> h) n p.
Proof.
  intros Ha (b & arr' & -> & Hb & Hlen).
  destruct (decide (a = b)) as [-> | Hne].
  - exists b, (<[i := c]> arr). split; [reflexivity |].
    split; [apply lookup_insert_eq |].
    rewrite length_insert. congruence.
  - exists b, arr'. split; [reflexivity |].
    split; [rewrite lookup_insert_ne by exact Hne; exact Hb | exact Hlen].
Qed.

Lemma slot_wf_store h n s a arr i c :
  h !! a = Some arr -> slot_wf h n s -> slot_wf (<[a := <[i := c]> arr]> h) n s.
Proof.
  intros Ha [H | (H1 & H2 & H3)]; [left; exact H | right].
  repeat split; apply array_of_store; assumption.
Qed.

(** A store through a pointer of a slot. *)
Lemma keeps_slot_store (sel : State -> ptr) si i c :
  (forall s a, sel s = Some a -> a ∈ slot_ptrs s) ->
  respects keeps (bind (slot si) (fun s => store (sel s) i c)).
Proof.
  intros Hsel t u t' H Hwf.
  apply bind_ok in H as (s & t1 & H1 & H2).
  apply slot_ok in H1 as [Hs ->].
  apply store_ok in H2 as (a & arr & Ha & Harr & _ & ->).
  destruct Hwf as (Hnum & Hslots & Hnd).
  apply zlookup_Some in Hs as [_ Hs].
  assert (Hown : a ∈ stack_ptrs t) by (eapply stack_ptrs_elem; [exact Hs | apply Hsel, Ha]).
  split; [| split; [| repeat split]].
  - split; [exact Hnum |]. split; [| exact Hnd]. cbn.
    eapply Forall_impl; [exact Hslots |]. intros s0. apply slot_wf_store, Harr.
  - intros b Hb Hnb. cbn. split; [| exact Hnb].
    apply lookup_insert_ne. intros ->. contradiction.
Qed.

Lemma keeps_put_e si i v : respects keeps (put_e si i v).
Proof. apply keeps_slot_store. apply slot_ptrs_e. Qed.

Lemma keeps_put_er si i v : respects keeps (put_er si i v).
Proof. apply keeps_slot_store. apply slot_ptrs_er. Qed.

Lemma keeps_put_sub_idx si i v : respects keeps (put_sub_idx si i v).
Proof. apply keeps_slot_store. apply slot_ptrs_sub_idx. Qed.

Lemma stack_ptrs_update t i s f :
  tr_stack t !! i = Some s -> slot_ptrs (f s) = slot_ptrs s ->
  stack_ptrs (with_stack (<[i := f s]> (tr_stack t)) t) = stack_ptrs t.
Proof.
  intros Hs Hf. unfold stack_ptrs. cbn. f_equal.
  rewrite list_fmap_insert, Hf.
  apply list_insert_id. rewrite list_lookup_fmap, Hs. reflexivity.
Qed.

(** An assignment to plain fields of a slot. *)
Lemma keeps_update_slot i f : keeps_ptrs f -> respects keeps (update_slot i f).
Proof.
  intros Hf t u t' H Hwf. apply update_slot_ok in H as (s & Hs & ->).
  apply zlookup_Some in Hs as [_ Hs].
  destruct (Hf s) as (He & Her & Hsub).
  pose proof (stack_ptrs_update t _ s f Hs (slot_ptrs_eq _ _ He Her Hsub)) as Hptrs.
  destruct Hwf as (Hnum & Hslots & Hnd).
  assert (Hnd' : NoDup (stack_ptrs (with_stack (<[Z.to_nat i := f s]> (tr_stack t)) t)))
    by (rewrite Hptrs; exact Hnd).
  split; [| split; [| repeat split]].
  - split; [exact Hnum |]. split; [| exact Hnd']. cbn.
    apply Forall_insert; [exact Hslots |].
    eapply slot_wf_eq; [exact He | exact Her | exact Hsub |].
    eapply Forall_lookup_1; [exact Hslots | exact Hs].
  - intros a Ha Hna. split; [reflexivity | rewrite Hptrs; exact Hna].
Qed.

Lemma keeps_set_top x : respects keeps (set_top x).
Proof.
  intros t u t' H Hwf. unfold set_top in H. inversion H; subst.
  split; [exact Hwf |]. split; [| repeat split].
  intros a Ha Hna. split; [reflexivity | exact Hna].
Qed.

#[local] Hint Resolve keeps_put_e keeps_put_er keeps_put_sub_idx keeps_set_top : respects_db.
#[local] Hint Extern 2 (respects keeps (update_slot _ _)) =>
  apply keeps_update_slot; intros []; repeat split : respects_db.

(** ** Allocation *)

Lemma alloc_ok n t p t' :
  alloc n t = Ok (p, t') ->
  exists a, p = Some a /\ tr_heap t !! a = None /\
            t' = with_heap (<[a := replicate (Z.to_nat n) Indet]> (tr_heap t)) t.
Proof.
  unfold alloc. intros H. inversion H; subst.
  exists (fresh (dom (tr_heap t))). split; [reflexivity |]. split; [| reflexivity].
  apply not_elem_of_dom. apply is_fresh.
Qed.

Lemma array_of_alloc h n p a arr :
  h !! a = None -> array_of h n p -> array_of (<[a := arr]> h) n p.
Proof.
  intros Ha (b & arr' & -> & Hb & Hlen). exists b, arr'.
  split; [reflexivity |]. split; [| exact Hlen].
  rewrite lookup_insert_ne; [exact Hb |]. intros ->. congruence.
Qed.

Lemma slot_wf_alloc h n s a arr :
  h !! a = None -> slot_wf h n s -> slot_wf (<[a := arr]> h) n s.
Proof.
  intros Ha [H | (H1 & H2 & H3)]; [left; exact H | right].
  repeat split; apply array_of_alloc; assumption.
Qed.

Lemma slot_wf_ptrs_allocated h n s a :
  slot_wf h n s -> a ∈ slot_ptrs s -> is_Some (h !! a).
Proof.
  intros Hwf Ha. unfold slot_ptrs in Ha. apply list_elem_of_omap in Ha as (p & Hp & Hpa).
  simpl in Hpa. subst p.
  destruct Hwf as [(H1 & H2 & H3) | (H1 & H2 & H3)].
  - rewrite H1, H2, H3 in Hp. repeat (apply elem_of_cons in Hp as [Hp | Hp]; [discriminate |]).
    inversion Hp.
  - repeat (apply elem_of_cons in Hp as [Hp | Hp];
            [ match goal with
              | H : array_of _ _ ?q |- _ =>
                  rewrite <- Hp in H; destruct H as (b & arr & Hb & Harr & _);
                  inversion Hb; subst; eexists; exact Harr
              end |]).
    inversion Hp.
Qed.

(** The arrays of a well-formed stack are allocated. *)
Lemma wf_ptrs_allocated t a : wf t -> a ∈ stack_ptrs t -> is_Some (tr_heap t !! a).
Proof.
  intros (_ & Hslots & _) Ha. unfold stack_ptrs in Ha.
  apply list_elem_of_join in Ha as (l & Hal & Hl).
  apply list_elem_of_fmap in Hl as (s & -> & Hs).
  eapply slot_wf_ptrs_allocated; [| exact Hal].
  eapply Forall_forall in Hslots; [exact Hslots | exact Hs].
Qed.

(** Replacing a slot replaces its arrays among those of the stack. *)
Lemma stack_ptrs_insert t i s s' :
  tr_stack t !! i = Some s ->
  stack_ptrs (with_stack (<[i := s']> (tr_stack t)) t) ++ slot_ptrs s
  ≡ₚ stack_ptrs t ++ slot_ptrs s'.
Proof.
  intros Hs. unfold stack_ptrs. cbn.
  rewrite <- (take_drop_middle _ _ _ Hs) at 2.
  rewrite insert_take_drop by (eapply lookup_lt_Some; exact Hs).
  rewrite !fmap_app, !fmap_cons, !join_app. cbn.
  set (A := mjoin (slot_ptrs <$> take i (tr_stack t))).
  set (B := mjoin (slot_ptrs <$> drop (S i) (tr_stack t))).
  rewrite <- !app_assoc.
  apply Permutation_app_head.
  rewrite (Permutation_app_comm (slot_ptrs s') (B ++ slot_ptrs s)).
  rewrite <- !app_assoc.
  rewrite (Permutation_app_comm (slot_ptrs s) (B ++ slot_ptrs s')).
  rewrite <- !app_assoc.
  apply Permutation_app_head. apply Permutation_app_comm.
Qed.

#[local] Instance keeps_owned_preorder a : PreOrder (keeps_owned a).
Proof.
  split.
  - intros t Hwf. split; [exact Hwf |]. split; [| repeat split].
    intros b Hb Hnb. split; [reflexivity | exact Hnb].
  - intros t1 t2 t3 H12 H23 Hwf.
    destruct (H12 Hwf) as (Hwf2 & Hf12 & Hn12 & Hs12 & Hp12).
    destruct (H23 Hwf2) as (Hwf3 & Hf23 & Hn23 & Hs23 & Hp23).
    split; [exact Hwf3 |]. split; [| repeat split; congruence].
    intros b Hb Hnb. destruct (Hf12 b Hb Hnb) as [Heq Hnb2].
    assert (Hb2 : is_Some (tr_heap t2 !! b)) by (rewrite Heq; exact Hb).
    destruct (Hf23 b Hb2 Hnb2) as [Heq' Hnb3].
    split; [congruence | exact Hnb3].
Qed.

(** A store into an array of the stack. *)
Lemma keeps_owned_store a i c : respects (keeps_owned a) (store (Some a) i c).
Proof.
  intros t u t' H [Hwf Hown].
  apply store_ok in H as (a' & arr & Ha & Harr & _ & ->).
  inversion Ha; subst a'.
  destruct Hwf as (Hnum & Hslots & Hnd).
  split; [| split; [| repeat split]].
  - split; [| exact Hown].
    split; [exact Hnum |]. split; [| exact Hnd]. cbn.
    eapply Forall_impl; [exact Hslots |]. intros s0. apply slot_wf_store, Harr.
  - intros b Hb Hnb. cbn. split; [| exact Hnb].
    apply lookup_insert_ne. intros ->. contradiction.
Qed.

Lemma keeps_of_owned {A : Type} (c : M A) a :
  respects (keeps_owned a) c ->
  forall t x t', c t = Ok (x, t') -> a ∈ stack_ptrs t -> keeps t t'.
Proof.
  intros Hc t x t' H Hown Hwf.
  destruct (Hc t x t' H (conj Hwf Hown)) as ((Hwf' & _) & Hrest).
  split; [exact Hwf' | exact Hrest].
Qed.

(** The [memset] of [push_state] on the [sub_idx] array of a slot. *)
Lemma keeps_slot_memset si n :
  respects keeps (bind (slot si) (fun s => memset_idx (st_sub_idx s) n)).
Proof.
  intros t u t' H. apply bind_ok in H as (s & t1 & H1 & H2).
  apply slot_ok in H1 as [Hs ->]. apply zlookup_Some in Hs as [_ Hs].
  destruct (st_sub_idx s) as [a |] eqn:Ha.
  - eapply (keeps_of_owned _ a); [| exact H2 |].
    + unfold memset_idx. apply (respects_for_loop (keeps_owned a)). intros j.
      apply keeps_owned_store.
    + eapply stack_ptrs_elem; [exact Hs | apply slot_ptrs_sub_idx, Ha].
  - unfold memset_idx in H2. destruct (Z.to_nat n) as [| k]; simpl in H2.
    + apply ret_ok in H2 as [_ ->]. reflexivity.
    + unfold bind, store in H2. discriminate.
Qed.

Lemma slot_wf_no_arrays h n s : slot_wf h n s -> st_e s = None -> slot_ptrs s = [].
Proof.
  intros [(H1 & H2 & H3) | ((a & arr & Ha & _) & _)] He.
  - unfold slot_ptrs. rewrite H1, H2, H3. reflexivity.
  - congruence.
Qed.

(** The three allocations of [push_state] for a slot without arrays. *)
Lemma keeps_alloc_arrays t top s u t2 :
  zlookup (tr_stack t) top = Some s -> st_e s = None ->
  bind (alloc (tr_num t))
    (fun pe => bind (alloc (tr_num t))
       (fun per => bind (alloc (tr_num t))
          (fun ps => update_slot top (set_ptrs pe per ps)))) t = Ok (u, t2) ->
  keeps t t2.
Proof.
  intros Hs He H Hwf.
  apply bind_ok in H as (pe & t1 & H1 & H). apply alloc_ok in H1 as (a1 & -> & Ha1 & ->).
  apply bind_ok in H as (per & t1 & H1 & H). apply alloc_ok in H1 as (a2 & -> & Ha2 & ->).
  apply bind_ok in H as (ps & t1 & H1 & H). apply alloc_ok in H1 as (a3 & -> & Ha3 & ->).
  apply update_slot_ok in H as (s0 & Hs0 & ->). cbn in *.
  rewrite Hs in Hs0. inversion Hs0; subst s0. clear Hs0.
  apply zlookup_Some in Hs as [_ Hs].
  apply lookup_insert_None in Ha2 as [Ha2 Hne12].
  apply lookup_insert_None in Ha3 as [Ha3 Hne23].
  apply lookup_insert_None in Ha3 as [Ha3 Hne13].
  destruct Hwf as (Hnum & Hslots & Hnd).
  assert (Hsw : slot_wf (tr_heap t) (Z.to_nat (tr_num t)) s)
    by (eapply Forall_lookup_1; [exact Hslots | exact Hs]).
  pose proof (slot_wf_no_arrays _ _ _ Hsw He) as Hnil.
  set (R := replicate (Z.to_nat (tr_num t)) Indet) in *.
  set (s' := set_ptrs (Some a1) (Some a2) (Some a3) s).
  set (t2 := with_stack _ _).
  assert (Hperm : stack_ptrs t2 ≡ₚ stack_ptrs t ++ [a1; a2; a3]).
  { pose proof (stack_ptrs_insert t (Z.to_nat top) s s' Hs) as Hp.
    rewrite Hnil, app_nil_r in Hp. exact Hp. }
  assert (Hfresh : forall b, b ∈ stack_ptrs t -> b ∉ [a1; a2; a3]).
  { intros b Hb Hin.
    destruct (wf_ptrs_allocated t b (conj Hnum (conj Hslots Hnd)) Hb) as [arr Harr].
    repeat (apply elem_of_cons in Hin as [-> | Hin]; [congruence |]). inversion Hin. }
  split; [| split; [| repeat split]].
  - split; [exact Hnum |]. split.
    + cbn. apply Forall_insert.
      * eapply Forall_impl; [exact Hslots |]. intros s0 Hs0.
        apply slot_wf_alloc; [rewrite !lookup_insert_ne by congruence; exact Ha3 |].
        apply slot_wf_alloc; [rewrite lookup_insert_ne by congruence; exact Ha2 |].
        apply slot_wf_alloc; [exact Ha1 | exact Hs0].
      * right. cbn. repeat split.
        -- exists a1, R. split; [reflexivity |]. split; [| apply length_replicate].
           rewrite !lookup_insert_ne by congruence. apply lookup_insert_eq.
        -- exists a2, R. split; [reflexivity |]. split; [| apply length_replicate].
           rewrite lookup_insert_ne by congruence. apply lookup_insert_eq.
        -- exists a3, R. split; [reflexivity |]. split; [| apply length_replicate].
           apply lookup_insert_eq.
    + rewrite Hperm. apply NoDup_app. split; [exact Hnd |]. split; [exact Hfresh |].
      repeat constructor; rewrite ?elem_of_cons, ?elem_of_nil; intuition congruence.
  - intros b [arr Harr] Hnb. split.
    + cbn. rewrite !lookup_insert_ne by congruence. reflexivity.
    + rewrite Hperm. rewrite elem_of_app. intros [Hin | Hin]; [contradiction |].
      repeat (apply elem_of_cons in Hin as [-> | Hin]; [congruence |]). inversion Hin.
Qed.

#[local] Hint Resolve keeps_slot_memset : respects_db.

(** [push_state] keeps the invariant and the frame. *)
Lemma keeps_push_state : respects keeps push_state.
Proof.
  intros t si t' H. unfold push_state in H.
  apply bind_ok in H as (top & t1 & H1 & H). apply gets_ok in H1 as [-> ->].
  apply bind_ok in H as (size & t1 & H1 & H). apply gets_ok in H1 as [-> ->].
  destruct (tr_size t <=? tr_top t); [discriminate |].
  apply bind_ok in H as (num & t1 & H1 & H). apply gets_ok in H1 as [-> ->].
  apply bind_ok in H as (s & t1 & H1 & H). apply slot_ok in H1 as [Hs ->].
  apply bind_ok in H as (u & t2 & Halloc & Hrest).
  transitivity t2.
  - destruct (st_e s) eqn:He.
    + apply ret_ok in Halloc as [_ ->]. reflexivity.
    + eapply keeps_alloc_arrays; eassumption.
  - revert Hrest. generalize t2 si t'.
    change (respects keeps
      (bind (update_slot (tr_top t) (fun s0 => set_isurf (-1) (set_visited false s0)))
         (fun _ => bind (slot (tr_top t))
            (fun s0 => bind (memset_idx (st_sub_idx s0) (tr_num t))
               (fun _ => bind (update_slot (tr_top t)
                                 (fun s1 => set_num (tr_num t) (set_bnd (bnd_all true) s1)))
                  (fun _ => bind (set_top (tr_top t + 1)) (fun _ => ret (tr_top t)))))))).
    apply (respects_bind keeps); [solve [eauto with respects_db] | intros _].
    (* the [memset] reads the pointer from the slot *)
    intros ta x tb Hb. apply bind_ok in Hb as (s0 & tc & Hc1 & Hc2).
    apply bind_ok in Hc2 as (u0 & td & Hd1 & Hd2).
    transitivity td.
    + apply (keeps_slot_memset (tr_top t) (tr_num t) ta u0 td).
      unfold bind. rewrite Hc1. exact Hd1.
    + revert Hd2. generalize td x tb.
      change (respects keeps
        (bind (update_slot (tr_top t)
                 (fun s1 => set_num (tr_num t) (set_bnd (bnd_all true) s1)))
           (fun _ => bind (set_top (tr_top t + 1)) (fun _ => ret (tr_top t))))).
      respects_auto.
Qed.

#[local] Hint Resolve keeps_push_state : respects_db.

(** ** Code that only reads *)

Section ReadOnly.
Context (R : Traverse -> Traverse -> Prop) {HR : PreOrder R}.

Lemma respects_State_is_triangle_loop n : forall si j,
  respects R (State_is_triangle_loop n si j).
Proof. induction n as [| n IH]; intros si j; simpl; respects_auto. Qed.

Lemma respects_State_is_triangle si : respects R (State_is_triangle si).
Proof.
  unfold State_is_triangle. respects_auto. apply respects_State_is_triangle_loop.
Qed.

Lemma respects_first_element n : forall si i, respects R (first_element n si i).
Proof. induction n as [| n IH]; intros si i; simpl; respects_auto. Qed.

Lemma respects_is_leaf n : forall si i, respects R (is_leaf n si i).
Proof. induction n as [| n IH]; intros si i; simpl; respects_auto. Qed.

Lemma respects_split_and_sons n : forall si i split acc,
  respects R (split_and_sons n si i split acc).
Proof. induction n as [| n IH]; intros si i split acc; simpl; respects_auto. Qed.

Lemma respects_current_son cs i k : respects R (current_son cs i k).
Proof. unfold current_son. respects_auto. Qed.

Lemma respects_grow_predicted p : respects R (grow_predicted p).
Proof. unfold grow_predicted. respects_auto. Qed.

End ReadOnly.

Ltac respects_ro :=
  lazymatch goal with
  | |- respects ?R (State_is_triangle _) => apply (respects_State_is_triangle R)
  | |- respects ?R (first_element _ _ _) => apply (respects_first_element R)
  | |- respects ?R (is_leaf _ _ _) => apply (respects_is_leaf R)
  | |- respects ?R (split_and_sons _ _ _ _ _) => apply (respects_split_and_sons R)
  | |- respects ?R (current_son _ _ _) => apply (respects_current_son R)
  | |- respects ?R (grow_predicted _) => apply (respects_grow_predicted R)
  end.

Ltac respects_all := repeat first [respects_ro | respects_step].

(** ** The traversal keeps the invariant and the frame *)

Lemma keeps_push_transform si son i tri : respects keeps (push_transform si son i tri).
Proof. unfold push_transform. respects_all. Qed.

#[local] Hint Resolve keeps_push_transform : respects_db.

Lemma keeps_init_transforms_loop fuel : forall si i x,
  respects keeps (init_transforms_loop fuel si i x).
Proof. induction fuel as [| fuel IH]; intros si i x; simpl; respects_all. Qed.

Lemma keeps_init_transforms fuel si i : respects keeps (init_transforms fuel si i).
Proof. unfold init_transforms. respects_all. apply keeps_init_transforms_loop. Qed.

#[local] Hint Resolve keeps_init_transforms : respects_db.

Lemma keeps_set_boundary_info ONE si : respects keeps (set_boundary_info ONE si).
Proof. unfold set_boundary_info. respects_all. Qed.

Lemma keeps_choose_rep si : respects keeps (choose_rep si).
Proof. unfold choose_rep. respects_all. Qed.

Lemma keeps_enter_state fuel si : respects keeps (enter_state fuel si).
Proof. unfold enter_state. respects_all. Qed.

Lemma keeps_push_triangle_son si son : respects keeps (push_triangle_son si son).
Proof. unfold push_triangle_son. respects_all. Qed.

Lemma keeps_move_element si ns i e code : respects keeps (move_element si ns i e code).
Proof. unfold move_element. respects_all. Qed.

#[local] Hint Resolve keeps_move_element : respects_db.

Lemma keeps_push_quad_son dflt si son k cs : respects keeps (push_quad_son dflt si son k cs).
Proof. unfold push_quad_son. respects_all. Qed.

Lemma keeps_push_quad_single si cs : respects keeps (push_quad_single si cs).
Proof. unfold push_quad_single. respects_all. Qed.

#[local] Hint Resolve keeps_push_triangle_son keeps_push_quad_son keeps_push_quad_single
  keeps_set_boundary_info keeps_choose_rep keeps_enter_state : respects_db.

Lemma keeps_push_sons dflt si : respects keeps (push_sons dflt si).
Proof. unfold push_sons. respects_all. Qed.

Lemma keeps_pop_visited n : respects keeps (pop_visited n).
Proof. induction n as [| n IH]; simpl; respects_all. Qed.

Lemma keeps_load_base_element ONE n : forall meshes si id i nused,
  respects keeps (load_base_element ONE n meshes si id i nused).
Proof. induction n as [| n IH]; intros meshes si id i nused; simpl; respects_all. Qed.

#[local] Hint Resolve keeps_load_base_element keeps_pop_visited keeps_push_sons : respects_db.

Lemma keeps_next_base_element ONE n : forall meshes si id,
  respects keeps (next_base_element ONE n meshes si id).
Proof. induction n as [| n IH]; intros meshes si id; simpl; respects_all. Qed.

#[local] Hint Resolve keeps_next_base_element : respects_db.

(** ** Deallocation *)

Lemma dealloc_ok p t u t' :
  dealloc p t = Ok (u, t') ->
  exists h, t' = with_heap h t /\ forall b, p <> Some b -> h !! b = tr_heap t !! b.
Proof.
  unfold dealloc. destruct p as [a |]; intros H.
  - exists (delete a (tr_heap t)). split; [congruence |].
    intros b Hb. apply lookup_delete_ne. congruence.
  - exists (tr_heap t). split; [| reflexivity].
    assert (t' = t) as -> by congruence. destruct t; reflexivity.
Qed.

Lemma array_of_agree h h' n p :
  (forall b, p = Some b -> h' !! b = h !! b) -> array_of h n p -> array_of h' n p.
Proof.
  intros Hag (b & arr & -> & Hb & Hlen). exists b, arr.
  split; [reflexivity |]. split; [rewrite Hag by reflexivity; exact Hb | exact Hlen].
Qed.

Lemma slot_wf_agree h h' n s :
  (forall b, b ∈ slot_ptrs s -> h' !! b = h !! b) -> slot_wf h n s -> slot_wf h' n s.
Proof.
  intros Hag [H | (H1 & H2 & H3)]; [left; exact H | right].
  repeat split; (eapply array_of_agree; [| eassumption]); intros b Hb; apply Hag.
  - apply slot_ptrs_e, Hb.
  - apply slot_ptrs_er, Hb.
  - apply slot_ptrs_sub_idx, Hb.
Qed.

Lemma slot_ptrs_zero : slot_ptrs zero_State = [].
Proof. reflexivity. Qed.

(** [free_state] returns the arrays of a slot and clears it. *)
Lemma keeps_free_state si : respects keeps (free_state si).
Proof.
  intros t u t' H Hwf. unfold free_state in H.
  apply bind_ok in H as (s & t1 & H1 & H). apply slot_ok in H1 as [Hs ->].
  apply bind_ok in H as (u1 & t1 & H1 & H).
  apply dealloc_ok in H1 as (h1 & -> & Hh1).
  apply bind_ok in H as (u2 & t2 & H2 & H).
  apply dealloc_ok in H2 as (h2 & -> & Hh2).
  apply bind_ok in H as (u3 & t3 & H3 & H).
  apply dealloc_ok in H3 as (h3 & -> & Hh3).
  apply update_slot_ok in H as (s0 & Hs0 & ->). cbn in *.
  apply zlookup_Some in Hs as [_ Hs].
  assert (Hag : forall b, b ∉ slot_ptrs s -> h3 !! b = tr_heap t !! b).
  { intros b Hb. rewrite Hh3, Hh2, Hh1; [reflexivity | | |]; intros Heq; apply Hb.
    - apply slot_ptrs_e, Heq.
    - apply slot_ptrs_er, Heq.
    - apply slot_ptrs_sub_idx, Heq. }
  set (t' := with_stack _ _).
  assert (Hperm : stack_ptrs t' ++ slot_ptrs s ≡ₚ stack_ptrs t).
  { pose proof (stack_ptrs_insert t (Z.to_nat si) s zero_State Hs) as Hp.
    rewrite slot_ptrs_zero, app_nil_r in Hp. exact Hp. }
  destruct Hwf as (Hnum & Hslots & Hnd).
  assert (Hnd' : NoDup (stack_ptrs t' ++ slot_ptrs s)) by (rewrite Hperm; exact Hnd).
  apply NoDup_app in Hnd' as (Hnd1 & Hdisj & _).
  split; [| split; [| repeat split]].
  - split; [exact Hnum |]. split; [| exact Hnd1].
    apply Forall_lookup. intros j sj Hj.
    assert (Hown : forall b, b ∈ slot_ptrs sj -> b ∈ stack_ptrs t')
      by (intros b Hb; eapply stack_ptrs_elem; [exact Hj | exact Hb]).
    cbn in Hj. destruct (decide (j = Z.to_nat si)) as [-> | Hne].
    + rewrite list_lookup_insert_eq in Hj by (eapply lookup_lt_Some; exact Hs).
      inversion Hj; subst sj. left. repeat split.
    + rewrite list_lookup_insert_ne in Hj by congruence.
      cbn. eapply slot_wf_agree; [| eapply Forall_lookup_1; [exact Hslots | exact Hj]].
      intros b Hb. apply Hag. apply Hdisj, Hown, Hb.
  - intros b Hb Hnb. split.
    + cbn. apply Hag. intros Hin. apply Hnb. rewrite <- Hperm.
      apply elem_of_app. right. exact Hin.
    + intros Hin. apply Hnb. rewrite <- Hperm. apply elem_of_app. left. exact Hin.
Qed.

#[local] Hint Resolve keeps_free_state : respects_db.

Lemma keeps_drop_stack : respects keeps (fun t => Ok (tt, with_stack [] t)).
Proof.
  intros t u t' H Hwf. inversion H; subst.
  destruct Hwf as (Hnum & _ & _).
  split; [| split; [| repeat split]].
  - split; [exact Hnum |]. split; [constructor | constructor].
  - intros b Hb Hnb. split; [reflexivity |]. cbn. apply not_elem_of_nil.
Qed.

(** [finish] keeps the arrays that the stack does not own. *)
Lemma keeps_finish : respects keeps finish.
Proof.
  unfold finish. respects_all. apply keeps_drop_stack.
Qed.

#[local] Hint Resolve keeps_finish : respects_db.

Lemma keeps_select_state ONE meshes lc : respects keeps (select_state ONE meshes lc).
Proof. unfold select_state. respects_all. Qed.

#[local] Hint Resolve keeps_select_state : respects_db.

(** ** [State::clone] *)

Lemma with_heap_id t : with_heap (tr_heap t) t = t.
Proof. destruct t; reflexivity. Qed.

Lemma load_agree src j t1 t2 c :
  (forall a, src = Some a -> tr_heap t1 !! a = tr_heap t2 !! a) ->
  load src j t1 = Ok (c, t1) -> load src j t2 = Ok (c, t2).
Proof.
  intros Hag H. apply load_ok in H as (_ & a & arr & -> & Ha & Hc).
  unfold load. rewrite <- (Hag a eq_refl), Ha, Hc. reflexivity.
Qed.

(** The copying loop of [memcpy] fills the destination with the cells it
    loads from the source. *)
Lemma memcpy_loop k : forall i t dst src darr u t',
  tr_heap t !! dst = Some darr -> src <> Some dst ->
  for_loop k (Z.of_nat i) (fun j => bind (load src j) (fun c => store (Some dst) j c)) t
    = Ok (u, t') ->
  exists darr',
    t' = with_heap (<[dst := darr']> (tr_heap t)) t /\
    length darr' = length darr /\
    (forall j c, (i <= j < i + k)%nat -> darr' !! j = Some c ->
                 load src (Z.of_nat j) t = Ok (c, t)) /\
    (forall j, ~ (i <= j < i + k)%nat -> darr' !! j = darr !! j) /\
    (i + k <= length darr \/ k = 0)%nat.
Proof.
  induction k as [| k IH]; intros i t dst src darr u t' Hd Hne H; simpl in H.
  - apply ret_ok in H as [_ ->]. exists darr.
    split; [rewrite insert_id by exact Hd; symmetry; apply with_heap_id |].
    split; [reflexivity |]. split; [intros j c Hj; lia |].
    split; [reflexivity | right; reflexivity].
  - apply bind_ok in H as (u1 & t1 & H1 & H).
    apply bind_ok in H1 as (c & t0 & Hl & Hst).
    pose proof Hl as Hl'. apply load_ok in Hl' as (-> & _).
    apply store_ok in Hst as (a & arr & Ha & Harr & [c0 Hc0] & ->).
    inversion Ha; subst a. rewrite Hd in Harr. inversion Harr; subst arr.
    apply zlookup_Some in Hc0 as [_ Hc0]. rewrite Nat2Z.id in *.
    pose proof (lookup_lt_Some _ _ _ Hc0) as Hlt.
    replace (Z.of_nat i + 1) with (Z.of_nat (S i)) in H by lia.
    set (t1 := with_heap (<[dst := <[i := c]> darr]> (tr_heap t)) t) in *.
    assert (Hd1 : tr_heap t1 !! dst = Some (<[i := c]> darr)) by apply lookup_insert_eq.
    destruct (IH (S i) t1 dst src _ u t' Hd1 Hne H) as (darr' & -> & Hlen & Hin & Hout & Hbound).
    exists darr'. split; [| split; [| split; [| split]]].
    + unfold t1. cbn. rewrite insert_insert_eq. reflexivity.
    + rewrite Hlen. apply length_insert.
    + intros j c' Hj Hc'. destruct (decide (j = i)) as [-> | Hji].
      * rewrite Hout in Hc' by lia.
        rewrite list_lookup_insert_eq in Hc' by exact Hlt. inversion Hc'; subst c'.
        exact Hl.
      * apply (load_agree src _ t1 t); [| apply Hin; [lia | exact Hc']].
        intros a Hsrc. unfold t1. cbn. apply lookup_insert_ne. congruence.
    + intros j Hj. rewrite Hout by lia. apply list_lookup_insert_ne. lia.
    + left. destruct Hbound as [Hb | ->]; [rewrite length_insert in Hb; lia | lia].
Qed.

Lemma memcpy_spec t dst src n darr u t' :
  tr_heap t !! dst = Some darr -> length darr = Z.to_nat n -> src <> Some dst ->
  memcpy (Some dst) src n t = Ok (u, t') ->
  exists darr',
    t' = with_heap (<[dst := darr']> (tr_heap t)) t /\
    length darr' = Z.to_nat n /\
    forall j c, darr' !! j = Some c -> load src (Z.of_nat j) t = Ok (c, t).
Proof.
  intros Hd Hlen Hne H. unfold memcpy in H.
  destruct (memcpy_loop (Z.to_nat n) 0%nat t dst src darr u t' Hd Hne H)
    as (darr' & -> & Hlen' & Hin & _ & _).
  exists darr'. split; [reflexivity |]. split; [congruence |].
  intros j c Hc. apply Hin; [| exact Hc].
  pose proof (lookup_lt_Some _ _ _ Hc). lia.
Qed.

Lemma load_slot_cell (sel : State -> ptr) t si s j c :
  zlookup (tr_stack t) si = Some s ->
  load (sel s) j t = Ok (c, t) -> slot_cell sel t si j c.
Proof.
  intros Hs H. apply load_ok in H as (_ & a & arr & Ha & Harr & Hc).
  exists s, a, arr. repeat split; assumption.
Qed.

(** [State::clone] allocates two fresh arrays, fills them with the cells
    of the source and copies the plain fields; nothing else changes. *)
Lemma clone_spec ONE si t c t' :
  wf t -> clone ONE si t = Ok (c, t') ->
  exists other pe ps E S,
    zlookup (tr_stack t) si = Some other /\
    tr_heap t !! pe = None /\ tr_heap t !! ps = None /\ pe <> ps /\
    t' = with_heap (<[ps := S]> (<[pe := E]> (tr_heap t))) t /\
    c = mkState (Some pe) None (Some ps) (H2D_UNITY ONE) (st_bnd other) (st_rep other)
                (st_rep_i other) (st_visited other) (st_isurf other) (st_isBnd other)
                (st_num other) /\
    length E = Z.to_nat (st_num other) /\ length S = Z.to_nat (st_num other) /\
    slot_cells st_e t si E /\ slot_cells st_sub_idx t si S.
Proof.
  intros Hwf H. unfold clone in H.
  apply bind_ok in H as (other & t1 & H1 & H). apply slot_ok in H1 as [Hs ->].
  apply bind_ok in H as (pe & t1 & H1 & H). apply alloc_ok in H1 as (a1 & -> & Ha1 & ->).
  apply bind_ok in H as (ps & t1 & H1 & H). apply alloc_ok in H1 as (a2 & -> & Ha2 & ->).
  cbn in Ha2. apply lookup_insert_None in Ha2 as [Ha2 Hne].
  set (n := Z.to_nat (st_num other)) in *.
  pose proof Hs as Hs'. apply zlookup_Some in Hs' as [_ Hs'].
  assert (Hsrc : forall sel a, (forall s b, sel s = Some b -> b ∈ slot_ptrs s) ->
                               sel other = Some a -> is_Some (tr_heap t !! a)).
  { intros sel a Hsel Ha. apply wf_ptrs_allocated; [exact Hwf |].
    eapply stack_ptrs_elem; [exact Hs' | apply Hsel, Ha]. }
  apply bind_ok in H as (u1 & t1 & H1 & H).
  eapply memcpy_spec in H1 as (E & -> & HlenE & HE); cycle 1.
  { cbn. rewrite lookup_insert_ne by congruence. apply lookup_insert_eq. }
  { apply length_replicate. }
  { intros Heq. destruct (Hsrc st_e a1 slot_ptrs_e Heq) as [x Hx]. congruence. }
  apply bind_ok in H as (u2 & t2 & H2 & H).
  eapply memcpy_spec in H2 as (S & -> & HlenS & HS); cycle 1.
  { cbn. rewrite lookup_insert_ne by congruence. apply lookup_insert_eq. }
  { apply length_replicate. }
  { intros Heq. destruct (Hsrc st_sub_idx a2 slot_ptrs_sub_idx Heq) as [x Hx]. congruence. }
  apply ret_ok in H as [-> ->]. cbn.
  exists other, a1, a2, E, S.
  split; [exact Hs |]. split; [exact Ha1 |]. split; [exact Ha2 |]. split; [congruence |].
  split.
  { unfold with_heap. cbn. f_equal. apply map_eq. intros b.
    destruct (decide (b = a2)) as [-> | Hb2]; [rewrite !lookup_insert_eq; reflexivity |].
    destruct (decide (b = a1)) as [-> | Hb1].
    - repeat first [rewrite lookup_insert_eq | rewrite lookup_insert_ne by congruence].
      reflexivity.
    - repeat (rewrite lookup_insert_ne by congruence). reflexivity. }
  split; [reflexivity |]. split; [exact HlenE |]. split; [exact HlenS |].
  split.
  - intros j c Hc. eapply load_slot_cell; [exact Hs |].
    specialize (HE j c Hc). apply (load_agree (st_e other) _ _ t) in HE; [exact HE |].
    intros a Ha. destruct (Hsrc st_e a slot_ptrs_e Ha) as [x Hx]. cbn.
    rewrite !lookup_insert_ne by congruence. reflexivity.
  - intros j c Hc. eapply load_slot_cell; [exact Hs |].
    specialize (HS j c Hc). apply (load_agree (st_sub_idx other) _ _ t) in HS; [exact HS |].
    intros a Ha. destruct (Hsrc st_sub_idx a slot_ptrs_sub_idx Ha) as [x Hx]. cbn.
    rewrite !lookup_insert_ne by congruence. reflexivity.
Qed.

Lemma keeps_clone ONE si : respects keeps (clone ONE si).
Proof.
  intros t c t' H Hwf.
  destruct (clone_spec ONE si t c t' Hwf H)
    as (other & pe & ps & E & S & Hs & Hpe & Hps & Hne & -> & _).
  destruct Hwf as (Hnum & Hslots & Hnd).
  split; [| split; [| repeat split]].
  - split; [exact Hnum |]. split; [| exact Hnd]. cbn.
    eapply Forall_impl; [exact Hslots |]. intros s0 Hs0.
    apply slot_wf_alloc; [rewrite lookup_insert_ne by congruence; exact Hps |].
    apply slot_wf_alloc; [exact Hpe | exact Hs0].
  - intros b [x Hb] Hnb. split; [| exact Hnb]. cbn.
    rewrite !lookup_insert_ne by congruence. reflexivity.
Qed.

#[local] Hint Resolve keeps_clone : respects_db.

Lemma keeps_emit_leaf ONE si lc : respects keeps (emit_leaf ONE si lc).
Proof. unfold emit_leaf. respects_all. Qed.

#[local] Hint Resolve keeps_emit_leaf : respects_db.

Lemma keeps_finish_state ONE dflt si lc : respects keeps (finish_state ONE dflt si lc).
Proof. unfold finish_state. respects_all. Qed.

#[local] Hint Resolve keeps_finish_state : respects_db.

Lemma keeps_loop_body ONE dflt fuel meshes lc :
  respects keeps (loop_body ONE dflt fuel meshes lc).
Proof. unfold loop_body. respects_all. Qed.

#[local] Hint Resolve keeps_loop_body : respects_db.

Lemma keeps_get_states_loop ONE dflt fuel : forall meshes lc,
  respects keeps (get_states_loop ONE dflt fuel meshes lc).
Proof. induction fuel as [| fuel IH]; intros meshes lc; simpl; respects_all. Qed.

Lemma stack_ptrs_replicate_zero k top size num sp h :
  stack_ptrs (mkTraverse (replicate k zero_State) top size num sp h) = [].
Proof.
  unfold stack_ptrs. cbn [tr_stack].
  induction k as [| k IH]; [reflexivity |]. cbn. exact IH.
Qed.

(** [begin] establishes the invariant, whatever the heap holds. *)
Lemma begin_wf n t u t' :
  begin n t = Ok (u, t') ->
  wf t' /\ tr_num t' = n /\ 0 < n /\ tr_size t' = 256 /\ tr_top t' = 0 /\
  tr_heap t' = tr_heap t /\ tr_spaces_size t' = tr_spaces_size t /\
  tr_stack t' = replicate (Z.to_nat 256) zero_State.
Proof.
  unfold begin. destruct (Z.ltb_spec 0 n) as [Hn | Hn]; [| discriminate].
  intros H.
  apply (f_equal (fun r => match r with Ok (_, x) => x | Err _ => t end)) in H.
  cbv beta iota zeta in H. subst t'.
  split; [| repeat split; exact Hn].
  unfold wf. cbn [tr_num tr_stack tr_heap].
  split; [lia |]. split.
  - apply Forall_replicate. left. repeat split.
  - rewrite stack_ptrs_replicate_zero. constructor.
Qed.

(** ** Assignments to plain fields *)

#[local] Instance same_ptrs_preorder : PreOrder same_ptrs.
Proof.
  split.
  - intros s. repeat split.
  - intros s1 s2 s3 (A1 & A2 & A3 & A4) (B1 & B2 & B3 & B4).
    repeat split; congruence.
Qed.

#[local] Instance fields_only_preorder : PreOrder fields_only.
Proof.
  split.
  - intros t. split; [reflexivity |]. split; [reflexivity | repeat split].
  - intros t1 t2 t3 (A1 & A2 & A3 & A4 & A5 & A6) (B1 & B2 & B3 & B4 & B5 & B6).
    split; [congruence |]. split; [etransitivity; eassumption |].
    repeat split; congruence.
Qed.

Lemma fields_only_update_slot i f :
  (forall s, same_ptrs s (f s)) -> respects fields_only (update_slot i f).
Proof.
  intros Hf t u t' H.
  pose proof (respects_slots_update same_ptrs i f Hf t u t' H) as Hrel.
  apply update_slot_ok in H as (s & Hs & ->).
  split; [reflexivity |]. split; [exact Hrel | repeat split].
Qed.

#[local] Hint Extern 2 (respects fields_only (update_slot _ _)) =>
  apply fields_only_update_slot; intros []; repeat split : respects_db.

Lemma fields_only_slot_cell (sel : State -> ptr) t t' si i c :
  (forall s s', same_ptrs s s' -> sel s' = sel s) ->
  fields_only t t' -> slot_cell sel t si i c <-> slot_cell sel t' si i c.
Proof.
  intros Hsel (Hh & Hrel & _). split.
  - intros (s & a & arr & Hs & Ha & Harr & Hc).
    destruct (slots_rel_lookup _ _ _ _ _ Hrel Hs) as (s' & Hs' & Hp).
    exists s', a, arr. rewrite (Hsel _ _ Hp), Hh. repeat split; assumption.
  - intros (s' & a & arr & Hs' & Ha & Harr & Hc).
    apply zlookup_Some in Hs' as [Hi Hs'].
    destruct (Forall2_lookup_r _ _ _ _ _ Hrel Hs') as (s & Hs & Hp).
    exists s, a, arr. rewrite <- (Hsel _ _ Hp), <- Hh.
    split; [apply zlookup_Some; split; assumption |]. repeat split; assumption.
Qed.

Lemma same_ptrs_e s s' : same_ptrs s s' -> st_e s' = st_e s.
Proof. intros (H & _). exact H. Qed.

Lemma same_ptrs_sub_idx s s' : same_ptrs s s' -> st_sub_idx s' = st_sub_idx s.
Proof. intros (_ & _ & H & _). exact H. Qed.

Lemma fields_only_set_boundary_info ONE si : respects fields_only (set_boundary_info ONE si).
Proof. unfold set_boundary_info. respects_all. Qed.

Lemma fields_only_choose_rep si : respects fields_only (choose_rep si).
Proof. unfold choose_rep. respects_all. Qed.

Lemma fields_only_all_used_active t t' si :
  fields_only t t' -> all_used_active t si <-> all_used_active t' si.
Proof.
  intros Hf. pose proof Hf as (_ & _ & Hn & _).
  unfold all_used_active. rewrite Hn.
  split; intros H i Hi; destruct (H i Hi) as (p & Hc & Hp); exists p;
    (split; [| exact Hp]);
    apply (fields_only_slot_cell st_e t t' si i _ same_ptrs_e Hf); exact Hc.
Qed.

Lemma fields_only_used_at t t' si j e :
  fields_only t t' -> used_at t si j e <-> used_at t' si j e.
Proof.
  intros Hf. unfold used_at.
  rewrite (fields_only_slot_cell st_e t t' si j _ same_ptrs_e Hf). reflexivity.
Qed.

Lemma slot_cell_det (sel : State -> ptr) t si i c c' :
  slot_cell sel t si i c -> slot_cell sel t si i c' -> c = c'.
Proof.
  intros (s & a & arr & Hs & Ha & Harr & Hc) (s' & a' & arr' & Hs' & Ha' & Harr' & Hc').
  congruence.
Qed.

(** ** The leaf test *)

Lemma is_leaf_spec n : forall si i t b t',
  is_leaf n si i t = Ok (b, t') ->
  t' = t /\
  (b = true ->
   forall j, i <= j < i + Z.of_nat n ->
     exists p, slot_cell st_e t si j (CElem p) /\
               forall e, p = Some e -> el_used e = true -> el_active e = true) /\
  (b = false ->
   exists j e, i <= j < i + Z.of_nat n /\ slot_cell st_e t si j (CElem (Some e)) /\
               el_used e = true /\ el_active e = false).
Proof.
  induction n as [| n IH]; intros si i t b t' H; simpl in H.
  - apply ret_ok in H as [-> ->]. split; [reflexivity |].
    split; [intros _ j Hj; lia | discriminate].
  - apply bind_ok in H as (p & t1 & H1 & H).
    apply get_e_spec in H1 as [-> Hcell].
    assert (Hrest : forall b0 t0, is_leaf n si (i + 1) t = Ok (b0, t0) ->
              (forall e, p = Some e -> el_used e = true -> el_active e = true) ->
              t0 = t /\
              (b0 = true ->
               forall j, i <= j < i + Z.of_nat (S n) ->
                 exists p, slot_cell st_e t si j (CElem p) /\
                           forall e, p = Some e -> el_used e = true -> el_active e = true) /\
              (b0 = false ->
               exists j e, i <= j < i + Z.of_nat (S n) /\
                           slot_cell st_e t si j (CElem (Some e)) /\
                           el_used e = true /\ el_active e = false)).
    { intros b0 t0 H0 Hp. destruct (IH si (i + 1) t b0 t0 H0) as (-> & Ht & Hf).
      split; [reflexivity |]. split.
      - intros Hb j Hj. destruct (Z.eq_dec j i) as [-> | Hne].
        + exists p. split; [exact Hcell | exact Hp].
        + apply (Ht Hb). lia.
      - intros Hb. destruct (Hf Hb) as (j & e & Hj & Hrest).
        exists j, e. split; [lia | exact Hrest]. }
    destruct p as [e |].
    + destruct (el_used e) eqn:Hu; destruct (el_active e) eqn:Hact; cbn in H.
      * apply Hrest; [exact H |]. intros e0 He0 _. inversion He0; subst. exact Hact.
      * apply ret_ok in H as [-> ->]. split; [reflexivity |].
        split; [discriminate |]. intros _. exists i, e.
        split; [lia |]. repeat split; assumption.
      * apply Hrest; [exact H |]. intros e0 He0 Hu0. inversion He0; subst. congruence.
      * apply Hrest; [exact H |]. intros e0 He0 Hu0. inversion He0; subst. congruence.
    + apply Hrest; [exact H |]. intros e0 He0. discriminate.
Qed.

(** On a well-formed stack the leaf test answers [all_used_active]. *)
Lemma is_leaf_all_used_active si t b t' :
  0 <= tr_num t ->
  is_leaf (Z.to_nat (tr_num t)) si 0 t = Ok (b, t') ->
  t' = t /\ (b = true <-> all_used_active t si).
Proof.
  intros Hnum H. destruct (is_leaf_spec _ _ _ _ _ _ H) as (-> & Ht & Hf).
  split; [reflexivity |]. rewrite Z2Nat.id in * by exact Hnum. split.
  - intros Hb i Hi. apply (Ht Hb). lia.
  - intros Hall. destruct b; [reflexivity |].
    destruct (Hf eq_refl) as (j & e & Hj & Hc & Hu & Hact).
    destruct (Hall j ltac:(lia)) as (p & Hc' & Hp).
    pose proof (slot_cell_det _ _ _ _ _ _ Hc Hc') as Heq. inversion Heq; subst p.
    rewrite (Hp e eq_refl Hu) in Hact. discriminate.
Qed.

(** ** The choice of the representative *)

Lemma choose_rep_loop si k : forall j0 t u t',
  for_loop k j0
    (fun j => bind (get_e si j)
       (fun p => match p with
                 | Some e =>
                     if el_used e
                     then update_slot si (fun s => set_rep_i j (set_rep (Some e) s))
                     else ret tt
                 | None => ret tt
                 end)) t = Ok (u, t') ->
  fields_only t t' /\
  forall s, zlookup (tr_stack t) si = Some s ->
    exists s', zlookup (tr_stack t') si = Some s' /\
      ((exists j e, j0 <= j < j0 + Z.of_nat k /\ used_at t si j e /\
                    (forall j' e', j < j' < j0 + Z.of_nat k -> ~ used_at t si j' e') /\
                    st_rep s' = Some e /\ st_rep_i s' = j) \/
       ((forall j e, j0 <= j < j0 + Z.of_nat k -> ~ used_at t si j e) /\
        st_rep s' = st_rep s /\ st_rep_i s' = st_rep_i s)).
Proof.
  induction k as [| k IH]; intros j0 t u t' H; simpl in H.
  - apply ret_ok in H as [_ ->]. split; [reflexivity |].
    intros s Hs. exists s. split; [exact Hs |]. right.
    split; [intros j e Hj; lia | split; reflexivity].
  - apply bind_ok in H as (u1 & t1 & H1 & H).
    apply bind_ok in H1 as (p & t0 & Hget & Hupd).
    apply get_e_spec in Hget as [-> Hcell].
    destruct (IH (j0 + 1) t1 u t' H) as (Hf1 & Hrep).
    assert (Hstep : fields_only t t1).
    { destruct p as [e |]; [destruct (el_used e) |].
      - refine (fields_only_update_slot si _ _ _ _ _ Hupd). intros []. repeat split.
      - apply ret_ok in Hupd as [_ ->]. reflexivity.
      - apply ret_ok in Hupd as [_ ->]. reflexivity. }
    split; [etransitivity; eassumption |].
    intros s Hs.
    assert (Hs1 : exists s1, zlookup (tr_stack t1) si = Some s1 /\
              ((exists e, p = Some e /\ el_used e = true /\
                          st_rep s1 = Some e /\ st_rep_i s1 = j0) \/
               ((forall e, p = Some e -> el_used e = false) /\
                st_rep s1 = st_rep s /\ st_rep_i s1 = st_rep_i s))).
    { destruct p as [e |]; [destruct (el_used e) eqn:Hu |].
      - apply update_slot_ok in Hupd as (s0 & Hs0 & ->).
        rewrite Hs in Hs0. inversion Hs0; subst s0.
        eexists. split.
        + apply zlookup_Some. apply zlookup_Some in Hs as [Hi Hs]. split; [exact Hi |].
          cbn. apply list_lookup_insert_eq. eapply lookup_lt_Some. exact Hs.
        + left. exists e. repeat split. exact Hu.
      - apply ret_ok in Hupd as [_ ->]. exists s. split; [exact Hs |]. right.
        split; [| split; reflexivity]. intros e0 He0. inversion He0; subst. exact Hu.
      - apply ret_ok in Hupd as [_ ->]. exists s. split; [exact Hs |]. right.
        split; [| split; reflexivity]. intros e0 He0. discriminate. }
    destruct Hs1 as (s1 & Hs1 & Hcase).
    destruct (Hrep s1 Hs1) as (s' & Hs' & Hlast).
    exists s'. split; [exact Hs' |].
    assert (Hconv : forall j e, used_at t si j e <-> used_at t1 si j e)
      by (intros j e; apply fields_only_used_at, Hstep).
    replace (j0 + Z.of_nat (S k)) with (j0 + 1 + Z.of_nat k) by lia.
    destruct Hlast as [(j & e & Hj & Hu & Hlater & Hr & Hri) | (Hnone & Hr & Hri)].
    + left. exists j, e. split; [lia |]. split; [apply Hconv, Hu |].
      split; [| split; assumption].
      intros j' e' Hj' Hu'. apply (Hlater j' e' Hj'). apply Hconv, Hu'.
    + destruct Hcase as [(e & -> & Hu & Hr1 & Hri1) | (Hnot & Hr1 & Hri1)].
      * left. exists j0, e. split; [lia |]. split; [split; assumption |].
        split; [| split; congruence].
        intros j' e' Hj' Hu'. apply (Hnone j' e'); [lia | apply Hconv, Hu'].
      * right. split; [| split; congruence].
        intros j e Hj Hu. destruct (Z.eq_dec j j0) as [-> | Hne].
        -- destruct Hu as [Hc Hu].
           pose proof (slot_cell_det _ _ _ _ _ _ Hc Hcell) as Heq. inversion Heq; subst p.
           rewrite (Hnot e eq_refl) in Hu. discriminate.
        -- apply (Hnone j e); [lia | apply Hconv, Hu].
Qed.

(** The body of the leaf branch: after the boundary flags, the state is
    cloned and appended when a representative was found, and dropped
    otherwise. *)
Lemma emit_leaf_spec ONE si lc t lc' t' :
  emit_leaf ONE si lc t = Ok (lc', t') ->
  exists t3 s3,
    fields_only t t3 /\ zlookup (tr_stack t3) si = Some s3 /\
    ((exists j e c,
        last_used t si (tr_spaces_size t) j e /\
        st_rep s3 = Some e /\ st_rep_i s3 = j /\
        clone ONE si t3 = Ok (c, t') /\ lc_states lc' = lc_states lc ++ [c]) \/
     ((forall j e, 0 <= j < tr_spaces_size t -> ~ used_at t si j e) /\
      lc_states lc' = lc_states lc /\ t' = t3)).
Proof.
  intros H. unfold emit_leaf in H.
  apply bind_ok in H as (predicted & t0 & Hp & H).
  assert (t0 = t) as ->.
  { destruct (_ <? _) in Hp.
    - symmetry. exact (respects_grow_predicted eq _ _ _ _ Hp).
    - apply ret_ok in Hp as [_ ->]. reflexivity. }
  apply bind_ok in H as (u1 & t1 & H1 & H).
  apply fields_only_set_boundary_info in H1.
  apply bind_ok in H as (u2 & t2 & H2 & H).
  pose proof H2 as H2'. apply update_slot_ok in H2' as (s1 & Hs1 & ->).
  assert (Hsame : forall s, same_ptrs s (set_rep None s)) by (intros []; repeat split).
  apply (fields_only_update_slot si _ Hsame) in H2. clear Hsame.
  apply bind_ok in H as (u3 & t3 & H3 & H).
  unfold choose_rep in H3. apply bind_ok in H3 as (sp & t2' & Hsp & H3).
  apply gets_ok in Hsp as [-> ->].
  destruct (choose_rep_loop si _ _ _ _ _ H3) as (H23 & Hrep).
  set (t2 := with_stack _ t1) in *.
  assert (Hs2 : zlookup (tr_stack t2) si = Some (set_rep None s1)).
  { apply zlookup_Some. apply zlookup_Some in Hs1 as [Hi Hs1]. split; [exact Hi |].
    cbn. apply list_lookup_insert_eq. eapply lookup_lt_Some. exact Hs1. }
  destruct (Hrep _ Hs2) as (s3 & Hs3 & Hcase).
  assert (H02 : fields_only t t2) by (etransitivity; eassumption).
  assert (Hsp : tr_spaces_size t2 = tr_spaces_size t) by (destruct H02 as (_ & _ & _ & E & _); exact E).
  assert (Hconv : forall j e, used_at t si j e <-> used_at t2 si j e)
    by (intros j e; apply fields_only_used_at, H02).
  apply bind_ok in H as (s & t3' & Hs & H). apply slot_ok in Hs as [Hs ->].
  rewrite Hs3 in Hs. inversion Hs; subst s. clear Hs.
  exists t3, s3. split; [etransitivity; eassumption |]. split; [exact Hs3 |].
  rewrite Hsp in Hcase.
  destruct Hcase as [(j & e & Hj & Hu & Hlater & Hr & Hri) | (Hnone & Hr & Hri)].
  - left. rewrite Hr in H.
    apply bind_ok in H as (c & t4 & Hc & H).
    destruct (_ <? _) in H; [| discriminate].
    apply ret_ok in H as [-> ->].
    exists j, e, c. split; [| repeat split; assumption].
    split; [lia |]. split; [apply Hconv, Hu |].
    intros j' e' Hj' Hu'. apply (Hlater j' e'); [lia | apply Hconv, Hu'].
  - right. rewrite Hr in H. cbn in H. apply ret_ok in H as [-> ->].
    split; [| split; reflexivity].
    intros j e Hj Hu. apply (Hnone j e); [lia | apply Hconv, Hu].
Qed.

Lemma fields_only_stack_ptrs t t' : fields_only t t' -> stack_ptrs t' = stack_ptrs t.
Proof.
  intros (_ & Hrel & _). unfold stack_ptrs. f_equal. apply list_eq_Forall2.
  apply Forall2_fmap. eapply Forall2_flip, Forall2_impl; [exact Hrel |].
  intros s s' (A1 & A2 & A3 & _). apply slot_ptrs_eq; assumption.
Qed.

Lemma fields_only_wf t t' : fields_only t t' -> wf t -> wf t'.
Proof.
  intros Hf (Hnum & Hslots & Hnd).
  pose proof (fields_only_stack_ptrs t t' Hf) as Hptrs.
  destruct Hf as (Hh & Hrel & Hn & _).
  split; [lia |]. split; [| rewrite Hptrs; exact Hnd].
  rewrite Hh, Hn. apply Forall_forall. intros s' Hs'.
  apply list_elem_of_lookup in Hs' as (i & Hi).
  destruct (Forall2_lookup_r _ _ _ _ _ Hrel Hi) as (s & Hs & (A1 & A2 & A3 & _)).
  eapply slot_wf_eq; [exact A1 | exact A2 | exact A3 |].
  eapply Forall_lookup_1; [exact Hslots | exact Hs].
Qed.

Lemma app_singleton_neq {A : Type} (l : list A) x : l ++ [x] <> l.
Proof.
  intros H. apply (f_equal length) in H. rewrite length_app in H. simpl in H. lia.
Qed.

(** The two outcomes of the leaf branch. *)
Lemma emit_leaf_cases ONE si lc t lc' t' :
  wf t -> emit_leaf ONE si lc t = Ok (lc', t') ->
  (has_rep t si /\
   exists t3 c j e,
     fields_only t t3 /\ wf t3 /\ clone ONE si t3 = Ok (c, t') /\
     lc_states lc' = lc_states lc ++ [c] /\
     st_rep c = Some e /\ st_rep_i c = j /\ last_used t si (tr_spaces_size t) j e) \/
  (~ has_rep t si /\ lc_states lc' = lc_states lc).
Proof.
  intros Hwf H.
  destruct (emit_leaf_spec ONE si lc t lc' t' H) as (t3 & s3 & Hf & Hs3 & Hcase).
  pose proof (fields_only_wf t t3 Hf Hwf) as Hwf3.
  destruct Hcase as [(j & e & c & Hlast & Hr & Hri & Hclone & Hst) | (Hnone & Hst & _)].
  - left. split.
    + destruct Hlast as (Hj & Hu & _). exists j, e. split; assumption.
    + destruct (clone_spec ONE si t3 c t' Hwf3 Hclone)
        as (other & pe & ps & E & S & Hother & _ & _ & _ & _ & Hc & _).
      rewrite Hs3 in Hother. inversion Hother; subst other.
      exists t3, c, j, e.
      split; [exact Hf |]. split; [exact Hwf3 |]. split; [exact Hclone |].
      split; [exact Hst |]. subst c. cbn.
      split; [exact Hr |]. split; [exact Hri | exact Hlast].
  - right. split; [| exact Hst].
    intros (j & e & Hj & Hu). exact (Hnone j e Hj Hu).
Qed.

(** ** C2: the representative *)

(** C2 (as amended).  In the leaf branch of [Traverse::get_states] the
    state is cloned and appended to the result exactly when some mesh
    below [spaces_size] holds a non-null used element, and the
    representative [(rep, rep_i)] of the clone is then the element of the
    LAST such mesh: the loop over the spaces has no [break]. *)
Theorem representative_is_last_used (ONE si : Z) (lc lc' : Locals) (t t' : Traverse) :
  wf t -> emit_leaf ONE si lc t = Ok (lc', t') ->
  ((exists c, lc_states lc' = lc_states lc ++ [c]) <-> has_rep t si) /\
  (forall c, lc_states lc' = lc_states lc ++ [c] ->
     exists j e, st_rep c = Some e /\ st_rep_i c = j /\
                 last_used t si (tr_spaces_size t) j e).
Proof.
  intros Hwf H.
  destruct (emit_leaf_cases ONE si lc t lc' t' Hwf H)
    as [(Hrep & t3 & c & j & e & _ & _ & _ & Hst & Hr & Hri & Hlast) | (Hnrep & Hst)].
  - split.
    + split; [intros _; exact Hrep | intros _; exists c; exact Hst].
    + intros c' Hc'. rewrite Hst in Hc'. apply app_inj_tail in Hc' as [_ <-].
      exists j, e. split; [exact Hr |]. split; [exact Hri | exact Hlast].
  - split.
    + split.
      * intros (c & Hc). rewrite Hst in Hc. symmetry in Hc.
        exfalso. exact (app_singleton_neq _ _ Hc).
      * intros Hrep. contradiction.
    + intros c Hc. rewrite Hst in Hc. symmetry in Hc.
      exfalso. exact (app_singleton_neq _ _ Hc).
Qed.

(** ** Returned states *)

Lemma clone_unowned ONE si t c t' :
  wf t -> clone ONE si t = Ok (c, t') -> unowned t' c.
Proof.
  intros Hwf H.
  destruct (clone_spec ONE si t c t' Hwf H)
    as (other & pe & ps & E & S & _ & Hpe & Hps & Hne & -> & -> & _).
  intros a Ha. unfold slot_ptrs in Ha. cbn in Ha.
  assert (Hcases : a = pe \/ a = ps).
  { apply elem_of_cons in Ha as [-> | Ha]; [left; reflexivity |].
    apply elem_of_cons in Ha as [-> | Ha]; [right; reflexivity | inversion Ha]. }
  split.
  - cbn. destruct Hcases as [-> | ->].
    + rewrite lookup_insert_ne by congruence. rewrite lookup_insert_eq. eexists; reflexivity.
    + rewrite lookup_insert_eq. eexists; reflexivity.
  - intros Hown. change (stack_ptrs (with_heap _ t)) with (stack_ptrs t) in Hown.
    destruct (wf_ptrs_allocated t a Hwf Hown) as [x Hx].
    destruct Hcases as [-> | ->]; congruence.
Qed.

Lemma clone_used_are_active ONE si t c t' :
  wf t -> all_used_active t si -> clone ONE si t = Ok (c, t') ->
  used_are_active (tr_heap t') c.
Proof.
  intros Hwf Hall H.
  destruct (clone_spec ONE si t c t' Hwf H)
    as (other & pe & ps & E & S & Hother & Hpe & Hps & Hne & -> & -> & HlenE & _ & HE & _).
  exists pe, E. cbn. split; [reflexivity |].
  split; [rewrite lookup_insert_ne by congruence; apply lookup_insert_eq |].
  split; [exact HlenE |].
  apply Forall_lookup. intros i x Hx.
  pose proof (HE i x Hx) as Hcell.
  pose proof Hcell as (s & a & arr & Hs & Ha & Harr & Hc).
  destruct Hwf as (Hnum & Hslots & _).
  apply zlookup_Some in Hs as [_ Hs].
  pose proof (Forall_lookup_1 _ _ _ _ Hslots Hs) as [(Hn & _) | ((a' & arr' & Ha' & Harr' & Hlen) & _)];
    [congruence |].
  rewrite Ha in Ha'. inversion Ha'; subst a'. rewrite Harr in Harr'. inversion Harr'; subst arr'.
  apply zlookup_Some in Hc as [_ Hc]. rewrite Nat2Z.id in Hc.
  pose proof (lookup_lt_Some _ _ _ Hc) as Hlt.
  destruct (Hall (Z.of_nat i) ltac:(lia)) as (p & Hcell' & Hp).
  pose proof (slot_cell_det _ _ _ _ _ _ Hcell Hcell') as ->.
  exists p. split; [reflexivity | exact Hp].
Qed.

Lemma stable_used_are_active : stable used_are_active.
Proof.
  intros h h' c Hag (a & arr & Ha & Harr & Hrest).
  exists a, arr. split; [exact Ha |]. split; [| exact Hrest].
  rewrite Hag; [exact Harr | apply slot_ptrs_e, Ha].
Qed.

(** A run that keeps the frame keeps the returned states. *)
Lemma keeps_returned P t t' c :
  stable P -> keeps t t' -> wf t -> unowned t c -> P (tr_heap t) c ->
  unowned t' c /\ P (tr_heap t') c.
Proof.
  intros HP Hk Hwf Hun Hc. destruct (Hk Hwf) as (_ & Hframe & _).
  split.
  - intros a Ha. destruct (Hun a Ha) as [Hal Hno].
    destruct (Hframe a Hal Hno) as [Heq Hno']. split; [rewrite Heq; exact Hal | exact Hno'].
  - eapply HP; [| exact Hc]. intros a Ha. destruct (Hun a Ha) as [Hal Hno].
    apply (Hframe a Hal Hno).
Qed.

Lemma keeps_returned_all P t t' cs :
  stable P -> keeps t t' -> wf t ->
  Forall (fun c => unowned t c /\ P (tr_heap t) c) cs ->
  Forall (fun c => unowned t' c /\ P (tr_heap t') c) cs.
Proof.
  intros HP Hk Hwf Hcs. eapply Forall_impl; [exact Hcs |].
  intros c [Hun Hc]. eapply keeps_returned; eassumption.
Qed.

(** The two outcomes of the second half of an iteration. *)
Lemma finish_state_cases ONE dflt si lc t it t' :
  wf t -> finish_state ONE dflt si lc t = Ok (it, t') ->
  exists lc', it = Continue lc' /\
    ((all_used_active t si /\ has_rep t si /\
      exists c j e, lc_states lc' = lc_states lc ++ [c] /\
                    unowned t' c /\ used_are_active (tr_heap t') c /\
                    st_rep c = Some e /\ st_rep_i c = j /\
                    last_used t si (tr_spaces_size t) j e) \/
     (~ (all_used_active t si /\ has_rep t si) /\ lc_states lc' = lc_states lc)).
Proof.
  intros Hwf H. unfold finish_state in H.
  apply bind_ok in H as (num & t0 & Hn & H). apply gets_ok in Hn as [-> ->].
  apply bind_ok in H as (leaf & t0 & Hleaf & H).
  pose proof Hwf as (Hnum & _).
  apply (is_leaf_all_used_active si t leaf t0 Hnum) in Hleaf as [-> Hiff].
  destruct leaf.
  - apply bind_ok in H as (lc' & t1 & Hemit & H). apply ret_ok in H as [-> <-].
    exists lc'. split; [reflexivity |].
    pose proof (proj1 Hiff eq_refl) as Hall.
    destruct (emit_leaf_cases ONE si lc t lc' t' Hwf Hemit)
      as [(Hrep & t3 & c & j & e & Hf & Hwf3 & Hclone & Hst & Hr & Hri & Hlast) | (Hnrep & Hst)].
    + left. split; [exact Hall |]. split; [exact Hrep |].
      exists c, j, e. split; [exact Hst |].
      split; [eapply clone_unowned; eassumption |].
      split; [| split; [exact Hr | split; [exact Hri | exact Hlast]]].
      eapply clone_used_are_active; [exact Hwf3 | | exact Hclone].
      apply (fields_only_all_used_active t t3 si Hf), Hall.
    + right. split; [| exact Hst]. intros [_ Hrep]. contradiction.
  - apply bind_ok in H as (u & t1 & _ & H). apply ret_ok in H as [-> <-].
    exists lc. split; [reflexivity |]. right. split; [| reflexivity].
    intros [Hall _]. apply Hiff in Hall. discriminate.
Qed.

Lemma appends_used_are_active : appends used_are_active.
Proof.
  intros ONE dflt si lc t it t' Hwf H.
  destruct (finish_state_cases ONE dflt si lc t it t' Hwf H)
    as (lc' & -> & [(_ & _ & c & j & e & Hst & Hun & Hact & _) | (_ & Hst)]).
  - exists lc'. split; [reflexivity |]. right. exists c.
    split; [exact Hst | split; [exact Hun | exact Hact]].
  - exists lc'. split; [reflexivity |]. left. exact Hst.
Qed.

(** Every state that the loop of [get_states] returns has a property
    that [finish_state] establishes and that is stable. *)
Lemma get_states_loop_returned P ONE dflt :
  stable P -> appends P ->
  forall fuel meshes lc t states t',
    wf t -> Forall (fun c => unowned t c /\ P (tr_heap t) c) (lc_states lc) ->
    get_states_loop ONE dflt fuel meshes lc t = Ok (states, t') ->
    Forall (fun c => unowned t' c /\ P (tr_heap t') c) states.
Proof.
  intros HP Happ. induction fuel as [| fuel IH]; intros meshes lc t states t' Hwf Hlc H;
    simpl in H; [discriminate |].
  apply bind_ok in H as (it & t1 & Hbody & H).
  unfold loop_body in Hbody.
  apply bind_ok in Hbody as (sel & t2 & Hsel & Hbody).
  pose proof (keeps_select_state ONE meshes lc t sel t2 Hsel) as K2.
  pose proof (keeps_returned_all P t t2 _ HP K2 Hwf Hlc) as Hlc2.
  destruct (K2 Hwf) as (Hwf2 & _).
  destruct sel as [[si id] |].
  - apply bind_ok in Hbody as (u & t3 & Henter & Hfin).
    pose proof (keeps_enter_state fuel si t2 u t3 Henter) as K3.
    pose proof (keeps_returned_all P t2 t3 _ HP K3 Hwf2 Hlc2) as Hlc3.
    destruct (K3 Hwf2) as (Hwf3 & _).
    pose proof (keeps_finish_state ONE dflt si _ t3 it t1 Hfin) as K4.
    pose proof (keeps_returned_all P t3 t1 _ HP K4 Hwf3 Hlc3) as Hlc4.
    destruct (K4 Hwf3) as (Hwf4 & _).
    destruct (Happ ONE dflt si _ t3 it t1 Hwf3 Hfin) as (lc' & -> & Hcase).
    apply (IH meshes lc' t1 states t' Hwf4); [| exact H].
    cbn in Hcase. destruct Hcase as [-> | (c & -> & Hun & Hc)]; [exact Hlc4 |].
    apply Forall_app. split; [exact Hlc4 |]. constructor; [split; assumption | constructor].
  - apply ret_ok in Hbody as [-> ->]. apply ret_ok in H as [-> ->]. exact Hlc2.
Qed.

Lemma get_states_returned P ONE dflt :
  stable P -> appends P ->
  forall fuel meshes meshes_count t states t',
    get_states ONE dflt fuel meshes meshes_count t = Ok (states, t') ->
    Forall (fun c => unowned t' c /\ P (tr_heap t') c) states.
Proof.
  intros HP Happ fuel meshes meshes_count t states t' H. unfold get_states in H.
  apply bind_ok in H as (u & t1 & _ & H).
  apply bind_ok in H as (predicted & t2 & _ & H).
  apply bind_ok in H as (num & t3 & _ & H).
  apply bind_ok in H as (u' & t4 & Hbegin & H).
  apply begin_wf in Hbegin as (Hwf & _).
  eapply get_states_loop_returned; [exact HP | exact Happ | exact Hwf | | exact H].
  constructor.
Qed.

(** ** C1: the states returned *)

(** C1 (as amended).  The state that [Traverse::get_states] has entered
    is cloned and appended to the result if and only if every non-null
    used element of it is active AND some mesh below [spaces_size] holds a
    non-null used element; otherwise the result is left as it is.  In
    every state that [get_states] returns, each [e[i]] is null or an
    element that, when used, is active. *)
Theorem leaf_emission (ONE : Z) (dflt : bool) (si : Z) (lc : Locals) (t : Traverse)
    (it : iteration) (t' : Traverse)
    (fuel : nat) (meshes : list Mesh) (meshes_count : Z) (t0 : Traverse)
    (states : list State) (tf : Traverse) :
  wf t -> finish_state ONE dflt si lc t = Ok (it, t') ->
  get_states ONE dflt fuel meshes meshes_count t0 = Ok (states, tf) ->
  (exists lc', it = Continue lc' /\
     ((exists c, lc_states lc' = lc_states lc ++ [c]) <->
      (all_used_active t si /\ has_rep t si)) /\
     (lc_states lc' = lc_states lc \/
      exists c, lc_states lc' = lc_states lc ++ [c] /\ used_are_active (tr_heap t') c)) /\
  Forall (used_are_active (tr_heap tf)) states.
Proof.
  intros Hwf Hfin Hrun. split.
  - destruct (finish_state_cases ONE dflt si lc t it t' Hwf Hfin)
      as (lc' & -> & [(Hall & Hrep & c & j & e & Hst & Hun & Hact & _) | (Hnot & Hst)]).
    + exists lc'. split; [reflexivity |]. split.
      * split; [intros _; split; assumption | intros _; exists c; exact Hst].
      * right. exists c. split; assumption.
    + exists lc'. split; [reflexivity |]. split.
      * split; [| intros Hboth; contradiction].
        intros (c & Hc). rewrite Hst in Hc. symmetry in Hc.
        exfalso. exact (app_singleton_neq _ _ Hc).
      * left. exact Hst.
  - pose proof (get_states_returned used_are_active ONE dflt stable_used_are_active
                  appends_used_are_active fuel meshes meshes_count t0 states tf Hrun) as Hall.
    eapply Forall_impl; [exact Hall |]. intros c [_ Hc]. exact Hc.
Qed.

(** ** C6: clones are independent of the stack *)

(** C6.  [State::clone] gives the clone two freshly allocated arrays [e]
    and [sub_idx] that hold, cell by cell, what the arrays of the source
    hold, and the fields [bnd], [rep], [rep_i], [visited], [isurf] and
    [isBnd] of the source; and whatever the rest of the traversal does to
    the stack, pushing and popping states in the slot the clone was made
    from and freeing the stack at the end, the arrays of the clone hold
    the same cells when [get_states] returns. *)
Theorem clone_is_independent_copy (ONE : Z) (dflt : bool) (si : Z) (t : Traverse)
    (c : State) (t1 : Traverse) (fuel : nat) (meshes : list Mesh) (lc : Locals)
    (states : list State) (t2 : Traverse) :
  wf t -> clone ONE si t = Ok (c, t1) ->
  get_states_loop ONE dflt fuel meshes lc t1 = Ok (states, t2) ->
  independent_copy t si c t1 t2.
Proof.
  intros Hwf Hclone Hrun.
  pose proof (clone_unowned ONE si t c t1 Hwf Hclone) as Hun.
  destruct (keeps_clone ONE si t c t1 Hclone Hwf) as (Hwf1 & _).
  destruct (keeps_get_states_loop ONE dflt fuel meshes lc t1 states t2 Hrun Hwf1)
    as (_ & Hframe & _).
  destruct (clone_spec ONE si t c t1 Hwf Hclone)
    as (other & pe & ps & E & S & Hother & Hpe & Hps & Hne & -> & -> & HlenE & HlenS & HE & HS).
  assert (H1e : tr_heap (with_heap (<[ps := S]> (<[pe := E]> (tr_heap t))) t) !! pe = Some E).
  { cbn. rewrite lookup_insert_ne by congruence. apply lookup_insert_eq. }
  assert (H1s : tr_heap (with_heap (<[ps := S]> (<[pe := E]> (tr_heap t))) t) !! ps = Some S).
  { cbn. apply lookup_insert_eq. }
  exists other, pe, ps, E, S. cbn [st_e st_sub_idx st_num st_bnd st_rep st_rep_i st_visited
                                 st_isurf st_isBnd].
  repeat match goal with
         | |- _ /\ _ => split
         end; try assumption; try reflexivity.
  - intros a [x Hx]. cbn. rewrite !lookup_insert_ne by congruence. reflexivity.
  - destruct (Hun pe ltac:(apply slot_ptrs_e; reflexivity)) as [Hal Hno].
    destruct (Hframe pe Hal Hno) as [Heq _]. rewrite Heq. exact H1e.
  - destruct (Hun ps ltac:(apply slot_ptrs_sub_idx; reflexivity)) as [Hal Hno].
    destruct (Hframe ps Hal Hno) as [Heq _]. rewrite Heq. exact H1s.
Qed.

(** ** C5: the capacity of the stack *)

Lemma update_slot_some i f t s :
  zlookup (tr_stack t) i = Some s ->
  update_slot i f t = Ok (tt, with_stack (<[Z.to_nat i := f s]> (tr_stack t)) t).
Proof. intros Hs. unfold update_slot. rewrite Hs. reflexivity. Qed.

Lemma stores_ok a n : forall i t arr,
  tr_heap t !! a = Some arr -> (i + n <= length arr)%nat ->
  exists arr', length arr' = length arr /\
    for_loop n (Z.of_nat i) (fun j => store (Some a) j (CIdx 0)) t
    = Ok (tt, with_heap (<[a := arr']> (tr_heap t)) t).
Proof.
  induction n as [| n IH]; intros i t arr Ha Hlen; simpl.
  - exists arr. split; [reflexivity |].
    rewrite insert_id by exact Ha. rewrite with_heap_id. reflexivity.
  - destruct (lookup_lt_is_Some_2 arr i ltac:(lia)) as [x Hx].
    unfold bind at 1. unfold store at 1. rewrite Ha. unfold zlookup.
    destruct (Z.ltb_spec (Z.of_nat i) 0) as [Hneg | _]; [lia |].
    rewrite Nat2Z.id, Hx.
    set (t1 := with_heap _ t).
    assert (Ha1 : tr_heap t1 !! a = Some (<[i := CIdx 0]> arr)) by apply lookup_insert_eq.
    replace (Z.of_nat i + 1) with (Z.of_nat (S i)) by lia.
    destruct (IH (S i) t1 _ Ha1 ltac:(rewrite length_insert; lia)) as (arr' & Hlen' & Hrun).
    exists arr'. split; [rewrite Hlen'; apply length_insert |].
    rewrite Hrun. unfold t1. cbn. rewrite insert_insert_eq. reflexivity.
Qed.

(** Below the capacity, [push_state] returns the slot at [top]. *)
Lemma push_state_ok t :
  wf t -> 0 <= tr_top t < tr_size t -> Z.of_nat (length (tr_stack t)) = tr_size t ->
  exists t', push_state t = Ok (tr_top t, t') /\ tr_top t' = tr_top t + 1.
Proof.
  intros Hwf Htop Hlen.
  destruct (lookup_lt_is_Some_2 (tr_stack t) (Z.to_nat (tr_top t)) ltac:(lia)) as [s Hs].
  assert (Hzs : zlookup (tr_stack t) (tr_top t) = Some s)
    by (apply zlookup_Some; split; [lia | exact Hs]).
  unfold push_state. unfold bind at 1. unfold gets at 1.
  unfold bind at 1. unfold gets at 1.
  destruct (Z.leb_spec (tr_size t) (tr_top t)) as [Hge | _]; [lia |].
  unfold bind at 1. unfold gets at 1.
  unfold bind at 1. unfold slot at 1. rewrite Hzs.
  (* the allocation part *)
  set (prep := match st_e s with
               | Some _ => ret tt
               | None => _
               end).
  assert (Hprep : exists t2 s2, prep t = Ok (tt, t2) /\ keeps t t2 /\
                    zlookup (tr_stack t2) (tr_top t) = Some s2 /\ st_e s2 <> None /\
                    tr_top t2 = tr_top t).
  { unfold prep. destruct (st_e s) as [a |] eqn:He.
    - exists t, s. split; [reflexivity |]. split; [reflexivity |].
      split; [exact Hzs |]. split; [congruence | reflexivity].
    - unfold bind, alloc. cbn [tr_heap with_heap tr_stack].
      rewrite (update_slot_some _ _ _ s) by exact Hzs.
      eexists _, _. split; [reflexivity |].
      split; [| split; [| split; [| reflexivity]]].
      + eapply keeps_alloc_arrays; [exact Hzs | exact He |].
        unfold bind, alloc. cbn [tr_heap with_heap tr_stack].
        rewrite (update_slot_some _ _ _ s) by exact Hzs. reflexivity.
      + apply zlookup_Some. split; [lia |]. cbn.
        apply list_lookup_insert_eq. eapply lookup_lt_Some. exact Hs.
      + cbn. discriminate. }
  destruct Hprep as (t2 & s2 & Hrun & Hk & Hs2 & He2 & Htop2).
  destruct (Hk Hwf) as (Hwf2 & _ & Hnum2 & _).
  unfold bind at 1. rewrite Hrun.
  unfold bind at 1. rewrite (update_slot_some _ _ _ s2) by exact Hs2.
  set (s3 := set_isurf (-1) (set_visited false s2)).
  set (t3 := with_stack _ t2).
  assert (Hs3 : zlookup (tr_stack t3) (tr_top t) = Some s3).
  { apply zlookup_Some. split; [lia |]. unfold t3. cbn.
    apply list_lookup_insert_eq. apply zlookup_Some in Hs2 as [_ Hs2].
    eapply lookup_lt_Some. exact Hs2. }
  unfold bind at 1. unfold slot at 1. rewrite Hs3.
  (* the array of [sub_idx] has [num] cells *)
  assert (Harr : exists a arr, st_sub_idx s3 = Some a /\ tr_heap t3 !! a = Some arr /\
                               length arr = Z.to_nat (tr_num t)).
  { destruct Hwf2 as (_ & Hslots & _).
    apply zlookup_Some in Hs2 as [_ Hs2].
    pose proof (Forall_lookup_1 _ _ _ _ Hslots Hs2) as [(Hn & _) | (_ & _ & (a & arr & Ha & Harr & Hl))];
      [congruence |].
    exists a, arr. split; [exact Ha |]. split; [exact Harr | congruence]. }
  destruct Harr as (a & arr & Ha & Harr & Hl).
  rewrite Ha. unfold memset_idx.
  destruct (stores_ok a (Z.to_nat (tr_num t)) 0%nat t3 arr Harr ltac:(lia)) as (arr' & _ & Hst).
  unfold bind at 1. change (Z.of_nat 0) with 0 in Hst. rewrite Hst.
  set (t4 := with_heap _ t3).
  assert (Hs4 : zlookup (tr_stack t4) (tr_top t) = Some s3) by exact Hs3.
  unfold bind at 1. rewrite (update_slot_some _ _ _ s3) by exact Hs4.
  unfold bind, set_top, ret. eexists. split; [reflexivity | reflexivity].
Qed.

(** ** Example runs *)

Lemma wf_Traverse_new sp h : wf (Traverse_new sp h).
Proof.
  unfold wf, Traverse_new. cbn. split; [lia |]. split; constructor.
Qed.

Lemma ex_entered_wf meshes sp : wf (ex_entered meshes sp).
Proof.
  unfold ex_entered, run_from.
  destruct (ex_enter meshes (Traverse_new sp ∅)) as [[u t] | e] eqn:H;
    [| apply wf_Traverse_new].
  cbn. unfold ex_enter in H.
  apply bind_ok in H as (u1 & t1 & _ & H).
  apply bind_ok in H as (u2 & t2 & Hb & H).
  apply begin_wf in Hb as (Hwf & _).
  apply bind_ok in H as (sel & t3 & Hsel & H).
  destruct (keeps_select_state ex_ONE meshes _ t2 sel t3 Hsel Hwf) as (Hwf3 & _).
  destruct sel as [[si id] |].
  - exact (proj1 (keeps_enter_state 10 si t3 u t H Hwf3)).
  - apply ret_ok in H as [_ ->]. exact Hwf3.
Qed.

Lemma leaf_emission_witness :
  leaf_emission_holds 0 ex_locals (ex_entered [ex_mesh_leaf] 1)
    (fst (ex_finished [ex_mesh_leaf] 1)) (snd (ex_finished [ex_mesh_leaf] 1))
    (fst (ex_run [ex_mesh_leaf] 1)) (snd (ex_run [ex_mesh_leaf] 1)).
Proof.
  apply (leaf_emission ex_ONE false 0 ex_locals (ex_entered [ex_mesh_leaf] 1)
           (fst (ex_finished [ex_mesh_leaf] 1)) (snd (ex_finished [ex_mesh_leaf] 1))
           1000 [ex_mesh_leaf] 1 (Traverse_new 1 ∅)).
  - apply ex_entered_wf.
  - vm_compute. reflexivity.
  - vm_compute. reflexivity.
Defined.

(** C1, counterexample to the claim as stated.  With two meshes of which
    only the second holds a used element, and [spaces_size] = 1, the state
    entered for base element 0 has every non-null used element active,
    yet [finish_state] appends nothing and [get_states] returns no
    state. *)
Lemma leaf_without_representative_dropped :
  all_used_active (ex_entered [ex_mesh_unused; ex_mesh_leaf] 1) 0 /\
  (exists lc' t',
     finish_state ex_ONE false 0 ex_locals (ex_entered [ex_mesh_unused; ex_mesh_leaf] 1)
       = Ok (Continue lc', t') /\ lc_states lc' = lc_states ex_locals) /\
  (exists tf,
     get_states ex_ONE false 1000 [ex_mesh_unused; ex_mesh_leaf] 2 (Traverse_new 1 ∅)
       = Ok ([], tf)).
Proof.
  split; [| split].
  - eapply (is_leaf_all_used_active 0 _ true).
    + vm_compute. discriminate.
    + vm_compute. reflexivity.
    + reflexivity.
  - eexists _, _. split; [vm_compute; reflexivity | reflexivity].
  - eexists. vm_compute. reflexivity.
Qed.

Lemma representative_is_last_used_witness :
  rep_is_last_used 0 ex_locals (fst (ex_emitted [ex_mesh_leaf; ex_mesh_leaf] 2))
                   (ex_entered [ex_mesh_leaf; ex_mesh_leaf] 2).
Proof.
  apply (representative_is_last_used ex_ONE 0 ex_locals _ _
           (snd (ex_emitted [ex_mesh_leaf; ex_mesh_leaf] 2))).
  - apply ex_entered_wf.
  - vm_compute. reflexivity.
Defined.

(** C2, counterexample to the claim as stated.  With two meshes that both
    hold a used element at base element 0 and [spaces_size] = 2, the one
    state returned has [rep_i] = 1 although mesh 0 holds a non-null used
    element. *)
Lemma representative_not_first :
  exists c tf e0,
    get_states ex_ONE false 1000 [ex_mesh_leaf; ex_mesh_leaf] 2 (Traverse_new 2 ∅)
      = Ok ([c], tf) /\
    state_cell st_e (tr_heap tf) c 0 (CElem (Some e0)) /\ el_used e0 = true /\
    st_rep_i c = 1.
Proof.
  eexists _, _, _. split; [vm_compute; reflexivity |].
  split; [| split; [| reflexivity]].
  - eexists _, _. split; [reflexivity |]. split; [vm_compute; reflexivity |].
    vm_compute. reflexivity.
  - reflexivity.
Qed.

Lemma clone_is_independent_copy_witness :
  independent_copy (ex_entered [ex_mesh_refined] 1) 0
    (fst (ex_cloned [ex_mesh_refined] 1)) (snd (ex_cloned [ex_mesh_refined] 1))
    (snd (ex_after_clone [ex_mesh_refined] 1)).
Proof.
  apply (clone_is_independent_copy ex_ONE false 0 (ex_entered [ex_mesh_refined] 1)
           (fst (ex_cloned [ex_mesh_refined] 1)) (snd (ex_cloned [ex_mesh_refined] 1))
           1000 [ex_mesh_refined] ex_locals (fst (ex_after_clone [ex_mesh_refined] 1))).
  - apply ex_entered_wf.
  - vm_compute. reflexivity.
  - vm_compute. reflexivity.
Defined.

(** ** Stack capacity *)

Lemma push_state_overflow t :
  tr_size t <= tr_top t ->
  push_state t = Err (Exception "Stack overflow. Increase stack size.").
Proof.
  intros H. unfold push_state, bind, gets, throw.
  destruct (Z.leb_spec (tr_size t) (tr_top t)); [reflexivity | lia].
Qed.

Lemma get_states_loop_abort ONE dflt fuel meshes lc t e :
  loop_body ONE dflt fuel meshes lc t = Err e ->
  get_states_loop ONE dflt (S fuel) meshes lc t = Err e.
Proof.
  intros H. cbn [get_states_loop]. unfold bind. rewrite H. reflexivity.
Qed.

(** C5.  [push_state] throws the stack-overflow exception exactly when the
    top index has reached the capacity: it throws whenever [size <= top],
    and on a well-formed traversal whose top index is below the capacity
    it returns the slot [top] and advances [top] by one.  [begin] sets the
    capacity to 256 slots.  An exception raised in one iteration of the
    loop of [get_states] is the result of the whole loop, which then
    returns no state; the traversal of a triangle refined 64 levels deep
    ends this way. *)
Theorem push_state_capacity (t : Traverse) :
  wf t -> 0 <= tr_top t -> Z.of_nat (length (tr_stack t)) = tr_size t ->
  (tr_size t <= tr_top t ->
     push_state t = Err (Exception "Stack overflow. Increase stack size.")) /\
  (tr_top t < tr_size t ->
     exists t', push_state t = Ok (tr_top t, t') /\ tr_top t' = tr_top t + 1) /\
  (forall n u t', begin n t = Ok (u, t') ->
     tr_size t' = 256 /\ length (tr_stack t') = 256%nat /\ tr_top t' = 0) /\
  (forall ONE dflt fuel meshes lc e,
     loop_body ONE dflt fuel meshes lc t = Err e ->
     get_states_loop ONE dflt (S fuel) meshes lc t = Err e) /\
  get_states ex_ONE false 1000 [ex_mesh_deep] 1 (Traverse_new 1 ∅)
    = Err (Exception "Stack overflow. Increase stack size.").
Proof.
  intros Hwf Htop Hlen.
  split; [apply push_state_overflow |].
  split; [intros Hlt; apply push_state_ok; [exact Hwf | lia | exact Hlen] |].
  split.
  - intros n u t' Hb. apply begin_wf in Hb as (_ & _ & _ & Hsize & Htop' & _ & _ & Hst).
    split; [exact Hsize |]. split; [| exact Htop'].
    rewrite Hst. apply length_replicate.
  - split; [intros; apply get_states_loop_abort; assumption |].
    vm_compute. reflexivity.
Qed.

Lemma ex_full_wf : wf ex_full.
Proof.
  exact (proj1 (keeps_set_top 256 (ex_entered [ex_mesh_leaf] 1) tt _ eq_refl
                  (ex_entered_wf _ _))).
Qed.

Lemma push_state_capacity_witness :
  push_state ex_full = Err (Exception "Stack overflow. Increase stack size.") /\
  exists t', push_state (ex_entered [ex_mesh_leaf] 1) = Ok (1, t') /\ tr_top t' = 2.
Proof.
  split.
  - apply (proj1 (push_state_capacity ex_full
                    ex_full_wf
                    ltac:(vm_compute; discriminate) ltac:(vm_compute; reflexivity))).
    vm_compute. discriminate.
  - apply (proj1 (proj2 (push_state_capacity (ex_entered [ex_mesh_leaf] 1)
                           (ex_entered_wf _ _)
                           ltac:(vm_compute; discriminate) ltac:(vm_compute; reflexivity)))).
    vm_compute. reflexivity.
Defined.

(** ** The compatibility checks *)

Lemma testMeshesCompliance_loop_rejects k meshes b i j m :
  0 <= i -> i <= j -> j < i + Z.of_nat k ->
  (forall l, 0 <= l < i + Z.of_nat k -> exists x, mesh_at meshes l = Ok x) ->
  mesh_at meshes j = Ok m -> mesh_num_base m <> b ->
  testMeshesCompliance_loop k meshes b i
    = Err (Exception "Meshes not compatible in Traverse::begin().").
Proof.
  revert i. induction k as [| k IH]; intros i Hi Hij Hjk Hall Hm Hne; [lia |].
  cbn [testMeshesCompliance_loop].
  destruct (Hall i ltac:(lia)) as [x Hx]. rewrite Hx.
  destruct (Z.eqb_spec b (mesh_num_base x)) as [Heq | Hneq]; cbn [negb]; [| reflexivity].
  assert (i <> j) by (intros ->; congruence).
  apply IH; [lia | lia | lia | | exact Hm | exact Hne].
  intros l Hl. apply Hall. lia.
Qed.

(** The sibling entry point does reject meshes whose numbers of base
    elements differ, whatever the union mesh is. *)
Lemma construct_union_mesh_rejects
      ONE (UMesh UElem : Type) uni_id uni_is_triangle uni_sons refine_element_id
      refine_default copy_base uni_get_element fuel n meshes (unimesh : UMesh) j m0 m :
  2 <= n -> (forall l, 0 <= l < n -> exists x, mesh_at meshes l = Ok x) ->
  mesh_at meshes 0 = Ok m0 -> 1 <= j < n -> mesh_at meshes j = Ok m ->
  mesh_num_base m <> mesh_num_base m0 ->
  construct_union_mesh ONE UMesh UElem uni_id uni_is_triangle uni_sons refine_element_id
                       refine_default copy_base uni_get_element fuel n meshes unimesh
    = Err (Exception "Meshes not compatible in Traverse::begin().").
Proof.
  intros Hn Hall H0 Hj Hm Hne.
  unfold construct_union_mesh, testMeshesCompliance. rewrite H0.
  rewrite (testMeshesCompliance_loop_rejects (Z.to_nat (n - 1)) meshes (mesh_num_base m0) 1 j m);
    [reflexivity | lia | lia | lia | | exact Hm | exact Hne].
  intros l Hl. apply Hall. lia.
Qed.

(** C3, the divergence.  For two meshes with one and with two base
    elements the compliance check throws, and so does
    [construct_union_mesh], which starts with it; [get_states] does not
    run the check: it traverses the meshes and returns a state. *)
Theorem get_states_skips_compliance :
  testMeshesCompliance 2 [ex_mesh_leaf; ex_mesh_two]
    = Err (Exception "Meshes not compatible in Traverse::begin().") /\
  ex_union_run [ex_mesh_leaf; ex_mesh_two]
    = Err (Exception "Meshes not compatible in Traverse::begin().") /\
  exists c tf,
    get_states ex_ONE false 1000 [ex_mesh_leaf; ex_mesh_two] 2 (Traverse_new 2 ∅)
      = Ok ([c], tf).
Proof.
  split; [reflexivity |]. split; [reflexivity |].
  eexists _, _. vm_compute. reflexivity.
Qed.

(** C4, the divergence.  For two meshes whose base elements have the
    areas 1 and 100 the quality check throws the distortion exception,
    but no entry point runs it: [get_states] returns a state and
    [construct_union_mesh] returns its tables. *)
Theorem quality_check_never_runs :
  testMeshesQuality 0x1p-26%float 2 [ex_mesh_leaf; ex_mesh_large]
    = Err (Exception "An element is probably too distorted, try different meshing.") /\
  (exists c tf,
     get_states ex_ONE false 1000 [ex_mesh_leaf; ex_mesh_large] 2 (Traverse_new 2 ∅)
       = Ok ([c], tf)) /\
  exists tables, ex_union_run [ex_mesh_leaf; ex_mesh_large] = Ok tables.
Proof.
  split; [vm_compute; reflexivity |]. split.
  - eexists _, _. vm_compute. reflexivity.
  - eexists. vm_compute. reflexivity.
Qed.

(** ** The leaf case of [union_recurrent] *)

Lemma zlookup_nat {A : Type} (xs : list A) (k : nat) :
  zlookup xs (Z.of_nat k) = xs !! k.
Proof.
  unfold zlookup. destruct (Z.ltb_spec (Z.of_nat k) 0); [lia |].
  rewrite Nat2Z.id. reflexivity.
Qed.

Lemma rd_element_map (es : list Element) (k : nat) x :
  es !! k = Some x ->
  rd_element (map (fun y => CElem (Some y)) es) (Z.of_nat k) = Ok x.
Proof.
  intros H. unfold rd_element, rd, rbind. rewrite zlookup_nat.
  change (map (fun y => CElem (Some y)) es) with ((fun y => CElem (Some y)) <$> es).
  rewrite list_lookup_fmap, H. reflexivity.
Qed.

Lemma all_active_true (es : list Element) (n k : nat) :
  Forall (fun x => el_active x = true) es -> (k + n)%nat = length es ->
  all_active n (map (fun y => CElem (Some y)) es) (Z.of_nat k) = Ok true.
Proof.
  intros Hact. revert k. induction n as [| n IH]; intros k Hk; [reflexivity |].
  cbn [all_active].
  destruct (lookup_lt_is_Some_2 es k ltac:(lia)) as [x Hx].
  rewrite (rd_element_map _ _ _ Hx). unfold rbind.
  rewrite (proj1 (Forall_lookup _ es) Hact k x Hx). cbn [negb].
  replace (Z.of_nat k + 1) with (Z.of_nat (S k)) by lia.
  apply IH. lia.
Qed.

Lemma double_udsize_spec (n : nat) (s id : Z) :
  1 <= s -> id < 2 ^ 30 -> id < s * 2 ^ Z.of_nat n ->
  exists k m, double_udsize n s id = Ok m /\ 0 <= k /\ m = s * 2 ^ k /\ id < m /\
              (k = 0 \/ m <= 2 * id).
Proof.
  revert s. induction n as [| n IH]; intros s Hs Hid Hn.
  - exists 0, s. cbn [double_udsize]. change (2 ^ Z.of_nat 0) with 1 in Hn.
    destruct (Z.leb_spec s id); [lia |].
    split; [reflexivity |]. split; [lia |]. split; [lia |]. split; [lia | left; reflexivity].
  - cbn [double_udsize]. destruct (Z.leb_spec s id) as [Hle | Hgt].
    + assert (Hin : in_int (s * 2) = true).
      { unfold in_int. apply andb_true_intro. split; [apply Z.leb_le | apply Z.ltb_lt]; lia. }
      rewrite Hin.
      destruct (IH (s * 2)) as (k & m & Hd & Hk & Hm & Hlt & Hmin); [lia | exact Hid | |].
      { rewrite Nat2Z.inj_succ, Z.pow_succ_r in Hn by lia. lia. }
      exists (k + 1), m. split; [exact Hd |]. split; [lia |].
      split; [rewrite Z.pow_add_r by lia; lia |]. split; [exact Hlt |].
      right. destruct Hmin as [-> | Hmin]; [| exact Hmin].
      rewrite Z.pow_0_r in Hm. lia.
    + exists 0, s. split; [reflexivity |]. split; [lia |]. split; [lia |].
      split; [lia | left; reflexivity].
Qed.

Lemma store_unidata_spec (es : list Element) (vs : list Z) (id : Z) (n k : nat)
      (unidata : list (option (list (option UniData)))) :
  0 <= id -> (k + n)%nat = length es -> length vs = length es ->
  length unidata = length es ->
  (forall i, (k <= i)%nat -> (i < length es)%nat ->
     exists tb, unidata !! i = Some (Some tb) /\ (Z.to_nat id < length tb)%nat) ->
  exists unidata',
    store_unidata n (map (fun y => CElem (Some y)) es) (map CIdx vs) id (Z.of_nat k) unidata
      = Ok unidata' /\
    length unidata' = length unidata /\
    (forall i, (i < k)%nat -> unidata' !! i = unidata !! i) /\
    (forall i x v tb, (k <= i)%nat -> es !! i = Some x -> vs !! i = Some v ->
       unidata !! i = Some (Some tb) ->
       unidata' !! i = Some (Some (<[Z.to_nat id := Some (mkUniData (Some x) v)]> tb))).
Proof.
  intros Hid. revert k unidata. induction n as [| n IH]; intros k unidata Hk Hvs Hlen Htb.
  - exists unidata. split; [reflexivity |]. split; [reflexivity |].
    split; [reflexivity |].
    intros i x v tb Hi Hx. apply lookup_lt_Some in Hx. lia.
  - cbn [store_unidata].
    destruct (Htb k ltac:(lia) ltac:(lia)) as (tb & Hk_tb & Hid_tb).
    rewrite zlookup_nat, Hk_tb.
    destruct (lookup_lt_is_Some_2 tb (Z.to_nat id) Hid_tb) as [old Hold].
    assert (Hz : zlookup tb id = Some old) by (apply zlookup_Some; split; [lia | exact Hold]).
    rewrite Hz.
    destruct (lookup_lt_is_Some_2 es k ltac:(lia)) as [x Hx].
    destruct (lookup_lt_is_Some_2 vs k ltac:(lia)) as [v Hv].
    unfold rd_idx, rd, rbind. rewrite !zlookup_nat.
    change (map (fun y => CElem (Some y)) es) with ((fun y => CElem (Some y)) <$> es).
    change (map CIdx vs) with (CIdx <$> vs).
    rewrite !list_lookup_fmap, Hx, Hv. cbn [fmap option_fmap option_map as_elem as_idx].
    rewrite Nat2Z.id.
    replace (Z.of_nat k + 1) with (Z.of_nat (S k)) by lia.
    set (unidata1 := <[k := Some (<[Z.to_nat id := Some (mkUniData (Some x) v)]> tb)]> unidata).
    destruct (IH (S k) unidata1) as (unidata' & Hst & Hlen' & Hlow & Hhigh).
    + lia.
    + exact Hvs.
    + unfold unidata1. rewrite length_insert. exact Hlen.
    + intros i Hi Hi'. destruct (Htb i ltac:(lia) Hi') as (tb' & Htb' & Hid').
      exists tb'. split; [| exact Hid'].
      unfold unidata1. rewrite list_lookup_insert_ne by lia. exact Htb'.
    + change ((fun y => CElem (Some y)) <$> es) with (map (fun y => CElem (Some y)) es) in Hst.
      change (CIdx <$> vs) with (map CIdx vs) in Hst.
      exists unidata'. split; [exact Hst |].
      split; [rewrite Hlen'; unfold unidata1; apply length_insert |].
      split.
      * intros i Hi. rewrite Hlow by lia. unfold unidata1.
        apply list_lookup_insert_ne. lia.
      * intros i x' v' tb' Hi Hx' Hv' Htb'.
        destruct (decide (i = k)) as [-> | Hne].
        -- rewrite Hlow by lia. unfold unidata1.
           assert (x' = x) by congruence. assert (v' = v) by congruence.
           assert (tb' = tb) by congruence. subst.
           apply list_lookup_insert_eq. apply lookup_lt_Some in Hk_tb. exact Hk_tb.
        -- apply Hhigh; [lia | exact Hx' | exact Hv' |].
           unfold unidata1. rewrite list_lookup_insert_ne by lia. exact Htb'.
Qed.

Lemma record_tail_spec {UMesh : Type} (id n : Z) (es : list Element) (vs : list Z)
      (u : Union UMesh) (unidata1 : list (option (list (option UniData)))) :
  0 <= id < n -> length es = Z.to_nat (un_num _ u) -> length vs = length es ->
  length (un_unidata _ u) = length es -> length unidata1 = length es ->
  grown_to (un_udsize _ u) id n ->
  (forall i old, un_unidata _ u !! i = Some old ->
     unidata1 !! i = Some (Some (resize (Z.to_nat n) None (default [] old)))) ->
  exists unidata',
    store_unidata (Z.to_nat (un_num _ u)) (map (fun y => CElem (Some y)) es) (map CIdx vs)
                  id 0 unidata1 = Ok unidata' /\
    leaf_recorded id es vs u (mkUnion UMesh (un_num _ u) n unidata' (un_unimesh _ u)).
Proof.
  intros Hid Hes Hvs Hlen Hlen1 Hgrown Hres.
  assert (Htb : forall i, (0 <= i)%nat -> (i < length es)%nat ->
            exists tb, unidata1 !! i = Some (Some tb) /\ (Z.to_nat id < length tb)%nat).
  { intros i _ Hi.
    destruct (lookup_lt_is_Some_2 (un_unidata _ u) i ltac:(lia)) as [old Hold].
    eexists. split; [apply (Hres i old Hold) |]. rewrite length_resize. lia. }
  destruct (store_unidata_spec es vs id (Z.to_nat (un_num _ u)) 0 unidata1)
    as (unidata' & Hst & Hlen' & _ & Hhigh); [lia | lia | exact Hvs | exact Hlen1 | exact Htb |].
  exists unidata'. split; [exact Hst |].
  assert (Hrec : forall (i : nat) x v, es !! i = Some x -> vs !! i = Some v ->
            exists old, un_unidata _ u !! i = Some old /\
              unidata' !! i = Some (Some (recorded n id old (mkUniData (Some x) v)))).
  { intros i x v Hx Hv.
    destruct (lookup_lt_is_Some_2 (un_unidata _ u) i) as [old Hold].
    { apply lookup_lt_Some in Hx. lia. }
    exists old. split; [exact Hold |].
    apply (Hhigh i x v _ ltac:(lia) Hx Hv (Hres i old Hold)). }
  split; [reflexivity |]. split; [reflexivity |]. split; [exact Hgrown |].
  split.
  - split; [cbn; lia |]. split; [cbn; lia |]. cbn [un_unidata un_udsize].
    apply Forall_lookup. intros i p Hp.
    assert (Hi : (i < length es)%nat) by (apply lookup_lt_Some in Hp; lia).
    destruct (lookup_lt_is_Some_2 es i Hi) as [x Hx].
    destruct (lookup_lt_is_Some_2 vs i ltac:(lia)) as [v Hv].
    destruct (Hrec i x v Hx Hv) as (old & _ & Hp').
    rewrite Hp' in Hp. injection Hp as <-.
    split; [lia |]. unfold recorded. rewrite length_insert, length_resize. reflexivity.
  - intros i x v Hx Hv. destruct (Hrec i x v Hx Hv) as (old & Hold & Hp').
    exists old. split; [exact Hold |]. split; [cbn; lia | exact Hp'].
Qed.

(** C8 (as amended).  When every source element is active,
    [union_recurrent] returns from its leaf case for any positive fuel:
    the union mesh is not
    refined, and for every mesh [i] the pair of [e[i]] and [idx[i]] is
    written at the entry [id] of the table of mesh [i], where [id] is
    [uni->id].  The capacity stays when [id] is below it and is otherwise
    1024 (or the old capacity, when that is not 0) doubled the least
    number of times that exceeds [id]; every table has that many entries,
    so the entry [id] lies within the table.  This holds when the tables
    are as the class keeps them and [id] is below 2^30. *)
Theorem union_leaf_recorded
        (UMesh UElem : Type) (uni_id : UMesh -> UElem -> Z)
        (uni_is_triangle : UMesh -> UElem -> bool) (uni_sons : UMesh -> UElem -> Z -> UElem)
        (refine_element_id : UMesh -> Z -> Z -> UMesh) (refine_default : Z)
        (fuel : nat) (cr : option Rect) (es : list Element) (er : option (list cell))
        (vs : list Z) (uni : UElem) (u : Union UMesh) :
  tables_ok u ->
  length es = Z.to_nat (un_num _ u) -> length vs = Z.to_nat (un_num _ u) ->
  Forall (fun x => el_active x = true) es ->
  0 <= uni_id (un_unimesh _ u) uni < 2 ^ 30 ->
  exists u',
    union_recurrent UMesh UElem uni_id uni_is_triangle uni_sons refine_element_id
                    refine_default (S fuel) cr (map (fun x => CElem (Some x)) es) er
                    (map CIdx vs) uni u = Ok u' /\
    leaf_recorded (uni_id (un_unimesh _ u) uni) es vs u u'.
Proof.
  intros (Hud & Hlen & Htabs) Hes Hvs Hact Hid.
  cbn [union_recurrent].
  pose proof (all_active_true es (Z.to_nat (un_num _ u)) 0 Hact ltac:(lia)) as Hleaf.
  change (Z.of_nat 0) with 0 in Hleaf. rewrite Hleaf.
  unfold rbind, record_leaf.
  set (id := uni_id (un_unimesh _ u) uni) in *.
  destruct (Z.leb_spec (un_udsize _ u) id) as [Hle | Hgt].
  - set (start := if un_udsize _ u =? 0 then 1024 else un_udsize _ u).
    assert (Hstart : 1 <= start).
    { unfold start. destruct (Z.eqb_spec (un_udsize _ u) 0); lia. }
    destruct (double_udsize_spec 32 start id Hstart ltac:(lia)) as (k & m & Hd & Hk & Hm & Hlt & Hmin).
    { change (2 ^ Z.of_nat 32) with (2 ^ 30 * 4). nia. }
    rewrite Hd. unfold rbind. cbn [fst snd].
    rewrite take_ge, drop_ge, app_nil_r by lia.
    destruct (record_tail_spec id m es vs u
                (map (fun p => realloc_unidata p m) (un_unidata _ u)))
      as (unidata' & Hst & Hrec).
    + lia.
    + exact Hes.
    + lia.
    + lia.
    + rewrite length_map. lia.
    + unfold grown_to. destruct (Z.leb_spec (un_udsize _ u) id); [| lia].
      exists k. split; [exact Hk |]. split; [exact Hm |]. split; [exact Hlt | exact Hmin].
    + intros i old Hold.
      change (map (fun p => realloc_unidata p m) (un_unidata _ u))
        with ((fun p => realloc_unidata p m) <$> un_unidata _ u).
      rewrite list_lookup_fmap, Hold. cbn [fmap option_fmap option_map].
      unfold realloc_unidata. rewrite resize_spec. reflexivity.
    + rewrite Hst. eexists. split; [reflexivity | exact Hrec].
  - unfold rbind. cbn [fst snd].
    destruct (record_tail_spec id (un_udsize _ u) es vs u (un_unidata _ u))
      as (unidata' & Hst & Hrec).
    + lia.
    + exact Hes.
    + lia.
    + lia.
    + lia.
    + unfold grown_to. destruct (Z.leb_spec (un_udsize _ u) id); [lia | reflexivity].
    + intros i old Hold.
      pose proof (proj1 (Forall_lookup _ _) Htabs i old Hold) as Hok.
      destruct old as [tb |]; cbn in Hok; [| lia].
      destruct Hok as [_ Hok]. cbn [default]. rewrite <- Hok, resize_all. exact Hold.
    + rewrite Hst. eexists. split; [reflexivity | exact Hrec].
Qed.

Lemma union_leaf_recorded_witness :
  exists u', ex_union_leaf 1500 = Ok u' /\
             leaf_recorded 1500 ex_sources [0; 9] ex_union_start u'.
Proof.
  apply (union_leaf_recorded Z Z (fun _ x => x) (fun _ _ => true)
           (fun _ x son => 4 * x + son + 1) (fun m _ _ => m + 1) (-1) 0 None
           ex_sources None [0; 9] 1500 ex_union_start).
  - split; [cbn; lia |]. split; [reflexivity |]. repeat constructor.
  - reflexivity.
  - reflexivity.
  - repeat constructor.
  - cbn. lia.
Defined.

(** C8, counterexample to the claim as stated.  At the union element of
    id 2^30, with all source elements active and the tables still empty,
    the capacity starts at 1024 and is doubled up to 2^30, which does not
    exceed the id; the next doubling leaves the range of [int], so the
    capacity never exceeds the id. *)
Lemma union_leaf_growth_overflows :
  Forall (fun x => el_active x = true) ex_sources /\
  ex_union_leaf (2 ^ 30) = Err (Undefined IntOverflow).
Proof.
  split; [repeat constructor | vm_compute; reflexivity].
Qed.

(** ** The loop of [get_states] is a depth-first descent *)

Lemma refines_refl {A : Type} (c : M A) : refines c c.
Proof. intros t r H. exact H. Qed.

Lemma refines_bind {A B : Type} (c1 c2 : M A) (k1 k2 : A -> M B) :
  refines c1 c2 -> (forall a, refines (k1 a) (k2 a)) ->
  refines (bind c1 k1) (bind c2 k2).
Proof.
  intros Hc Hk t [b t'] H. apply bind_ok in H as (a & t1 & H1 & H2).
  unfold bind. rewrite (Hc t (a, t1) H1). apply Hk. exact H2.
Qed.

Lemma refines_for_loop (body1 body2 : Z -> M unit) n i :
  (forall j, refines (body1 j) (body2 j)) ->
  refines (for_loop n i body1) (for_loop n i body2).
Proof.
  intros Hb. revert i. induction n as [| n IH]; intros i; [apply refines_refl |].
  cbn [for_loop]. apply refines_bind; [apply Hb | intros _; apply IH].
Qed.

Lemma init_transforms_loop_mono f f' si i x :
  (f <= f')%nat -> refines (init_transforms_loop f si i x) (init_transforms_loop f' si i x).
Proof.
  revert f' x. induction f as [| f IH]; intros f' x Hle.
  - intros t r H. destruct f'; [exact H |].
    cbn [init_transforms_loop] in *. unfold bind in *.
    destruct (slot si t) as [[s t1] |]; [| discriminate].
    destruct (rect_mismatch (st_cr s) x); [discriminate | exact H].
  - destruct f' as [| f']; [lia |].
    cbn [init_transforms_loop]. apply refines_bind; [apply refines_refl |].
    intros s. destruct (rect_mismatch (st_cr s) x); [| apply refines_refl].
    destruct (transforms_son (st_cr s) x); [| apply refines_refl].
    apply refines_bind; [apply refines_refl |]. intros tri.
    apply refines_bind; [apply refines_refl |]. intros _. apply IH. lia.
Qed.

Lemma enter_state_mono f f' si :
  (f <= f')%nat -> refines (enter_state f si) (enter_state f' si).
Proof.
  intros Hle. unfold enter_state.
  apply refines_bind; [apply refines_refl |]. intros _.
  apply refines_bind; [apply refines_refl |]. intros num.
  apply refines_for_loop. intros i.
  apply refines_bind; [apply refines_refl |]. intros [e |]; [| apply refines_refl].
  destruct (el_used e); [| apply refines_refl].
  apply refines_bind; [apply refines_refl |]. intros v.
  destruct ((v =? 0) && el_active e); [| apply refines_refl].
  destruct (negb (el_is_triangle e)); [| apply refines_refl].
  unfold init_transforms.
  apply refines_bind; [apply refines_refl |]. intros x.
  apply init_transforms_loop_mono. exact Hle.
Qed.

Lemma descend_pending_mono ONE dflt f :
  (forall f' si lc, (f <= f')%nat ->
     refines (descend ONE dflt f si lc) (descend ONE dflt f' si lc)) /\
  (forall f' si lc, (f <= f')%nat ->
     refines (pending ONE dflt f si lc) (pending ONE dflt f' si lc)).
Proof.
  induction f as [| f [IHd IHp]].
  - split; intros f' si lc _ t r H; discriminate H.
  - split; intros f' si lc Hle; (destruct f' as [| f']; [lia |]).
    + cbn [descend].
      apply refines_bind; [apply enter_state_mono; lia |]. intros _.
      apply refines_bind; [apply refines_refl |]. intros [lc' | s]; [| apply refines_refl].
      apply IHp. lia.
    + cbn [pending].
      apply refines_bind; [apply refines_refl |]. intros top0.
      apply refines_bind; [apply refines_refl |]. intros _.
      apply refines_bind; [apply refines_refl |]. intros top.
      destruct (top <=? si); [apply refines_refl |].
      apply refines_bind; [apply IHd; lia |]. intros lc'. apply IHp. lia.
Qed.

Lemma traverse_bases_mono ONE dflt f f' meshes lc :
  (f <= f')%nat ->
  refines (traverse_bases ONE dflt f meshes lc) (traverse_bases ONE dflt f' meshes lc).
Proof.
  revert f' lc. induction f as [| f IH]; intros f' lc Hle.
  - intros t r H. discriminate H.
  - destruct f' as [| f']; [lia |]. cbn [traverse_bases].
    apply refines_bind; [apply refines_refl |]. intros [[si id] |]; [| apply refines_refl].
    apply refines_bind; [apply (proj1 (descend_pending_mono ONE dflt f)); lia |].
    intros lc'. apply IH. lia.
Qed.

(** [pop_visited] leaves everything but [top] alone and stops at the
    bottom or below a state not visited yet; a second run does nothing. *)
Lemma pop_visited_spec n t u t' :
  (Z.to_nat (tr_top t) <= n)%nat -> pop_visited n t = Ok (u, t') ->
  t' = with_top (tr_top t') t /\ tr_top t' <= tr_top t /\
  (tr_top t' <= 0 \/
   exists s, zlookup (tr_stack t) (tr_top t' - 1) = Some s /\ st_visited s = false).
Proof.
  revert t. induction n as [| n IH]; intros t Hn H.
  - apply ret_ok in H as [_ ->]. split; [destruct t; reflexivity |].
    split; [lia | left; lia].
  - cbn [pop_visited] in H. apply bind_ok in H as (top & t0 & Hg & H).
    apply gets_ok in Hg as [-> ->].
    destruct (Z.ltb_spec 0 (tr_top t)) as [Hpos | Hneg].
    + apply bind_ok in H as (s & t0 & Hs & H). apply slot_ok in Hs as [Hs ->].
      destruct (st_visited s) eqn:Hv.
      * apply bind_ok in H as (u1 & t1 & Hset & H).
        injection Hset as <- <-.
        apply IH in H; [| cbn; lia]. cbn in H.
        destruct H as (Ht' & Hle & Hstop).
        split; [rewrite Ht'; destruct t; reflexivity |]. split; [lia | exact Hstop].
      * apply ret_ok in H as [_ ->]. split; [destruct t; reflexivity |].
        split; [lia |]. right. exists s. split; [exact Hs | exact Hv].
    + apply ret_ok in H as [_ ->]. split; [destruct t; reflexivity |].
      split; [lia | left; lia].
Qed.

Lemma pop_visited_stopped n t :
  (tr_top t <= 0 \/
   exists s, zlookup (tr_stack t) (tr_top t - 1) = Some s /\ st_visited s = false) ->
  pop_visited n t = Ok (tt, t).
Proof.
  intros Hstop. destruct n as [| n]; [reflexivity |].
  cbn [pop_visited]. unfold bind, gets.
  destruct (Z.ltb_spec 0 (tr_top t)) as [Hpos | Hneg]; [| reflexivity].
  destruct Hstop as [Hle | (s & Hs & Hv)]; [lia |].
  unfold slot. rewrite Hs, Hv. reflexivity.
Qed.

Lemma pop_visited_idem t u t' :
  pop_visited (Z.to_nat (tr_top t)) t = Ok (u, t') ->
  pop_visited (Z.to_nat (tr_top t')) t' = Ok (tt, t').
Proof.
  intros H. apply pop_visited_spec in H as (Ht' & _ & Hstop); [| lia].
  apply pop_visited_stopped.
  destruct Hstop as [Hle | (s & Hs & Hv)]; [left; exact Hle |].
  right. exists s. split; [| exact Hv]. rewrite Ht'. exact Hs.
Qed.

Lemma finish_state_continue ONE dflt si lc t it t' :
  finish_state ONE dflt si lc t = Ok (it, t') -> exists lc', it = Continue lc'.
Proof.
  unfold finish_state. intros H.
  apply bind_ok in H as (num & t0 & _ & H).
  apply bind_ok in H as ([|] & t1 & _ & H).
  - apply bind_ok in H as (lc' & t2 & _ & H). apply ret_ok in H as [-> _].
    exists lc'. reflexivity.
  - apply bind_ok in H as (u & t2 & _ & H). apply ret_ok in H as [-> _].
    exists lc. reflexivity.
Qed.

Lemma enter_state_index f si t r : enter_state f si t = Ok r -> 0 <= si.
Proof.
  unfold enter_state. destruct r as [u t']. intros H.
  apply bind_ok in H as (u0 & t0 & H & _).
  apply update_slot_ok in H as (s & Hs & _).
  apply zlookup_Some in Hs as [Hs _]. exact Hs.
Qed.

Lemma select_state_popped ONE meshes lc t :
  select_state ONE meshes lc t
  = bind (pop_visited (Z.to_nat (tr_top t))) (fun _ => select_popped ONE meshes lc) t.
Proof. reflexivity. Qed.

Lemma select_state_idem ONE meshes lc t u tp :
  pop_visited (Z.to_nat (tr_top t)) t = Ok (u, tp) ->
  select_state ONE meshes lc tp = select_state ONE meshes lc t.
Proof.
  intros H. rewrite !select_state_popped. unfold bind.
  rewrite (pop_visited_idem t u tp H), H. reflexivity.
Qed.

Lemma get_states_loop_idem ONE dflt n meshes lc t u tp :
  pop_visited (Z.to_nat (tr_top t)) t = Ok (u, tp) ->
  get_states_loop ONE dflt n meshes lc tp = get_states_loop ONE dflt n meshes lc t.
Proof.
  intros H. destruct n as [| n]; [reflexivity |].
  cbn [get_states_loop]. unfold loop_body, bind.
  rewrite (select_state_idem ONE meshes lc t u tp H). reflexivity.
Qed.

(** One iteration of the loop, taken apart. *)
Lemma get_states_loop_step ONE dflt n meshes lc t r :
  get_states_loop ONE dflt (S n) meshes lc t = Ok r ->
  exists sel t1,
    select_state ONE meshes lc t = Ok (sel, t1) /\
    match sel with
    | None => r = (lc_states lc, t1)
    | Some (si, id) =>
        exists t2 lc' t3,
          enter_state n si t1 = Ok (tt, t2) /\
          finish_state ONE dflt si (mkLocals id (lc_states lc) (lc_predictedCount lc)) t2
            = Ok (Continue lc', t3) /\
          get_states_loop ONE dflt n meshes lc' t3 = Ok r
    end.
Proof.
  cbn [get_states_loop]. destruct r as [states tf]. intros H.
  apply bind_ok in H as (it & t4 & Hbody & H).
  unfold loop_body in Hbody.
  apply bind_ok in Hbody as (sel & t1 & Hsel & Hbody).
  exists sel, t1. split; [exact Hsel |].
  destruct sel as [[si id] |].
  - apply bind_ok in Hbody as ([] & t2 & Hent & Hfin).
    destruct (finish_state_continue _ _ _ _ _ _ _ Hfin) as [lc' ->].
    exists t2, lc', t4. split; [exact Hent |]. split; [exact Hfin | exact H].
  - apply ret_ok in Hbody as [-> ->]. apply ret_ok in H as [-> ->]. reflexivity.
Qed.

Lemma descend_S ONE dflt f si lc :
  descend ONE dflt (S f) si lc
  = bind (enter_state f si)
      (fun _ => bind (finish_state ONE dflt si lc)
         (fun it => match it with
                    | Continue lc' => pending ONE dflt f si lc'
                    | Return _ => ret lc
                    end)).
Proof. reflexivity. Qed.

Lemma pending_S ONE dflt f si lc :
  pending ONE dflt (S f) si lc
  = bind (gets tr_top)
      (fun top0 => bind (pop_visited (Z.to_nat top0))
         (fun _ => bind (gets tr_top)
            (fun top => if top <=? si then ret lc
                        else bind (descend ONE dflt f (top - 1) lc)
                               (fun lc' => pending ONE dflt f si lc')))).
Proof. reflexivity. Qed.

Section DescentRefinement.

Variable ONE : Z.
Variable dflt : bool.
Variable meshes : list Mesh.

(** A run of the loop first visits everything above [stack[si]]. *)
Lemma get_states_loop_pending n :
  forall si lc t r,
    0 <= si -> get_states_loop ONE dflt n meshes lc t = Ok r ->
    exists F lc' t' m,
      (m <= n)%nat /\ pending ONE dflt F si lc t = Ok (lc', t') /\
      get_states_loop ONE dflt m meshes lc' t' = Ok r.
Proof.
  induction n as [n IH] using lt_wf_ind. intros si lc t r Hsi Hrun.
  destruct n as [| n]; [discriminate Hrun |].
  pose proof Hrun as Hstep.
  apply get_states_loop_step in Hstep as (sel & t1 & Hsel & Hstep).
  rewrite select_state_popped in Hsel.
  apply bind_ok in Hsel as (u & tp & Hpop & Hsel).
  destruct (Z.leb_spec (tr_top tp) si) as [Hle | Hgt].
  - exists 1%nat, lc, tp, (S n). split; [lia |]. split.
    + rewrite pending_S. unfold bind, gets. rewrite Hpop.
      destruct (Z.leb_spec (tr_top tp) si); [reflexivity | lia].
    + rewrite (get_states_loop_idem ONE dflt (S n) meshes lc t u tp Hpop). exact Hrun.
  - unfold select_popped, bind, gets in Hsel.
    destruct (Z.leb_spec (tr_top tp) 0) as [Hle0 | _]; [lia |].
    injection Hsel as <- <-.
    destruct Hstep as (t2 & lc3 & t3 & Hent & Hfin & Hrest).
    destruct (IH n ltac:(lia) (tr_top tp - 1) lc3 t3 r ltac:(lia) Hrest)
      as (F1 & lc1 & t1' & m1 & Hm1 & Hpend1 & Hrun1).
    destruct (IH m1 ltac:(lia) si lc1 t1' r Hsi Hrun1)
      as (F2 & lc' & t' & m & Hm & Hpend2 & Hrun2).
    exists (S (S (Nat.max (Nat.max F1 n) F2))), lc', t', m.
    split; [lia |]. split; [| exact Hrun2].
    rewrite pending_S. unfold bind at 1 2 3, gets. rewrite Hpop.
    destruct (Z.leb_spec (tr_top tp) si); [lia |].
    assert (Hd : descend ONE dflt (S (Nat.max (Nat.max F1 n) F2)) (tr_top tp - 1) lc tp
                 = Ok (lc1, t1')).
    { rewrite descend_S. unfold bind at 1.
      rewrite (enter_state_mono n (Nat.max (Nat.max F1 n) F2) (tr_top tp - 1) ltac:(lia) tp (tt, t2) Hent).
      destruct lc as [id states predicted]. cbn [lc_id lc_states lc_predictedCount] in Hfin.
      unfold bind. rewrite Hfin.
      apply (proj2 (descend_pending_mono ONE dflt F1) (Nat.max (Nat.max F1 n) F2) _ _ ltac:(lia)). exact Hpend1. }
    unfold bind. rewrite Hd.
    apply (proj2 (descend_pending_mono ONE dflt F2) (S (Nat.max (Nat.max F1 n) F2)) _ _ ltac:(lia)). exact Hpend2.
Qed.

Lemma pending_top f : forall si lc t lc' t',
  pending ONE dflt f si lc t = Ok (lc', t') -> tr_top t' <= si.
Proof.
  induction f as [f IH] using lt_wf_ind. intros si lc t lc' t' H.
  destruct f as [| f]; [discriminate H |].
  rewrite pending_S in H.
  apply bind_ok in H as (top0 & t0 & Hg & H). apply gets_ok in Hg as [-> ->].
  apply bind_ok in H as (u & tp & Hpop & H).
  apply bind_ok in H as (top & t0 & Hg & H). apply gets_ok in Hg as [-> ->].
  destruct (Z.leb_spec (tr_top tp) si) as [Hle | Hgt].
  - apply ret_ok in H as [_ ->]. exact Hle.
  - apply bind_ok in H as (lc1 & t1 & _ & H). exact (IH f ltac:(lia) _ _ _ _ _ H).
Qed.

Lemma push_state_index t si t' : push_state t = Ok (si, t') -> si = tr_top t.
Proof.
  unfold push_state. intros H.
  apply bind_ok in H as (top & t0 & Hg & H). apply gets_ok in Hg as [-> ->].
  apply bind_ok in H as (size & t0 & Hg & H). apply gets_ok in Hg as [-> ->].
  destruct (tr_size t <=? tr_top t); [discriminate |].
  apply bind_ok in H as (num & t0 & _ & H).
  apply bind_ok in H as (s & t1 & _ & H).
  apply bind_ok in H as (u1 & t2 & _ & H).
  apply bind_ok in H as (u2 & t3 & _ & H).
  apply bind_ok in H as (s3 & t4 & _ & H).
  apply bind_ok in H as (u4 & t5 & _ & H).
  apply bind_ok in H as (u5 & t6 & _ & H).
  apply bind_ok in H as (u6 & t7 & _ & H).
  apply ret_ok in H as [-> _]. reflexivity.
Qed.

Lemma load_next_base_root t lc si id t' :
  load_next_base ONE meshes lc t = Ok (Some (si, id), t') -> si = tr_top t.
Proof.
  unfold load_next_base. intros H.
  apply bind_ok in H as (si0 & t0 & Hpush & H). apply push_state_index in Hpush as ->.
  apply bind_ok in H as (u1 & t1 & _ & H).
  apply bind_ok in H as (m0 & t2 & _ & H).
  apply bind_ok in H as ([id0 |] & t3 & _ & H).
  - apply bind_ok in H as (tri & t4 & _ & H).
    apply bind_ok in H as (u5 & t5 & _ & H).
    apply ret_ok in H as [[= -> _] _]. reflexivity.
  - apply bind_ok in H as (u4 & t4 & _ & H). apply ret_ok in H as [[=] _].
Qed.

Lemma select_state_empty lc t :
  tr_top t <= 0 -> select_state ONE meshes lc t = load_next_base ONE meshes lc t.
Proof.
  intros Htop. rewrite select_state_popped.
  replace (Z.to_nat (tr_top t)) with 0%nat by lia.
  unfold bind at 1. cbn [pop_visited]. unfold ret.
  unfold select_popped, bind at 1, gets.
  destruct (Z.leb_spec (tr_top t) 0); [reflexivity | lia].
Qed.

Lemma get_states_loop_descent n :
  forall lc t r,
    tr_top t <= 0 ->
    get_states_loop ONE dflt n meshes lc t = Ok r ->
    exists F, traverse_bases ONE dflt F meshes lc t = Ok r.
Proof.
  induction n as [n IH] using lt_wf_ind. intros lc t r Htop Hrun.
  destruct n as [| n]; [discriminate Hrun |].
  apply get_states_loop_step in Hrun as (sel & t1 & Hsel & Hstep).
  rewrite (select_state_empty lc t Htop) in Hsel.
  destruct sel as [[si id] |].
  - destruct Hstep as (t2 & lc3 & t3 & Hent & Hfin & Hrest).
    pose proof (enter_state_index _ _ _ _ Hent) as Hsi.
    pose proof (load_next_base_root _ _ _ _ _ Hsel) as Hroot.
    destruct (get_states_loop_pending n si lc3 t3 r Hsi Hrest)
      as (F1 & lc1 & t1' & m1 & Hm1 & Hpend1 & Hrun1).
    pose proof (pending_top _ _ _ _ _ _ Hpend1) as Htop1.
    destruct (IH m1 ltac:(lia) lc1 t1' r ltac:(lia) Hrun1) as [F2 Hbases].
    exists (S (S (Nat.max (Nat.max F1 n) F2))).
    cbn [traverse_bases]. unfold bind at 1. rewrite Hsel.
    assert (Hd : descend ONE dflt (S (Nat.max (Nat.max F1 n) F2)) si
                   (mkLocals id (lc_states lc) (lc_predictedCount lc)) t1 = Ok (lc1, t1')).
    { rewrite descend_S. unfold bind at 1.
      rewrite (enter_state_mono n (Nat.max (Nat.max F1 n) F2) si ltac:(lia) t1 (tt, t2) Hent).
      unfold bind. rewrite Hfin.
      apply (proj2 (descend_pending_mono ONE dflt F1) (Nat.max (Nat.max F1 n) F2) _ _ ltac:(lia)). exact Hpend1. }
    unfold bind. rewrite Hd.
    apply (traverse_bases_mono ONE dflt F2 (S (Nat.max (Nat.max F1 n) F2)) meshes lc1 ltac:(lia)). exact Hbases.
  - exists 1%nat. cbn [traverse_bases]. unfold bind. rewrite Hsel. subst r. reflexivity.
Qed.

Lemma get_states_descent_refines fuel meshes_count t r :
  get_states ONE dflt fuel meshes meshes_count t = Ok r ->
  exists F, get_states_descent ONE dflt F meshes meshes_count t = Ok r.
Proof.
  unfold get_states, get_states_descent. destruct r as [states tf]. intros H.
  apply bind_ok in H as (u0 & t0 & H0 & H).
  apply bind_ok in H as (predicted & t1 & H1 & H).
  apply bind_ok in H as (num & t2 & H2 & H).
  apply bind_ok in H as (u3 & t3 & H3 & H).
  assert (Htop : tr_top t3 <= 0).
  { apply begin_wf in H3 as (_ & _ & _ & _ & Htop & _). lia. }
  destruct (get_states_loop_descent fuel _ _ _ Htop H) as [F HF].
  injection H0 as <- <-.
  exists F. unfold bind. rewrite H1, H2, H3. exact HF.
Qed.

End DescentRefinement.

(** *** The order of the descent *)

Lemma next_base_element_ge ONE meshes si n : forall id t id' t',
  next_base_element ONE n meshes si id t = Ok (Some id', t') -> id <= id'.
Proof.
  induction n as [| n IH]; intros id t id' t' H; cbn [next_base_element] in H;
    apply bind_ok in H as (m0 & t0 & _ & H);
    (destruct (mesh_num_base m0 <=? id); [apply ret_ok in H as [[=] _] |]);
    apply bind_ok in H as (num & t1 & _ & H);
    apply bind_ok in H as (nused & t2 & _ & H);
    (destruct (negb (nused =? 0)); [apply ret_ok in H as [[= ->] _]; lia |]).
  - discriminate H.
  - apply IH in H. lia.
Qed.

(** The id to go on with lies beyond the one the search started from. *)
Lemma load_next_base_ascending ONE meshes lc t si id t' :
  load_next_base ONE meshes lc t = Ok (Some (si, id), t') -> lc_id lc < id.
Proof.
  unfold load_next_base. intros H.
  apply bind_ok in H as (si0 & t0 & _ & H).
  apply bind_ok in H as (u1 & t1 & _ & H).
  apply bind_ok in H as (m0 & t2 & _ & H).
  apply bind_ok in H as ([id0 |] & t3 & Hnext & H).
  - apply next_base_element_ge in Hnext.
    apply bind_ok in H as (tri & t4 & _ & H).
    apply bind_ok in H as (u5 & t5 & _ & H).
    apply ret_ok in H as [[= _ ->] _]. lia.
  - apply bind_ok in H as (u4 & t4 & _ & H). apply ret_ok in H as [[=] _].
Qed.

Lemma emit_leaf_appends ONE si lc t lc' t' :
  emit_leaf ONE si lc t = Ok (lc', t') ->
  lc_id lc' = lc_id lc /\ exists l, lc_states lc' = lc_states lc ++ l.
Proof.
  unfold emit_leaf. intros H.
  apply bind_ok in H as (p & t0 & _ & H).
  apply bind_ok in H as (u1 & t1 & _ & H).
  apply bind_ok in H as (u2 & t2 & _ & H).
  apply bind_ok in H as (u3 & t3 & _ & H).
  apply bind_ok in H as (s & t4 & _ & H).
  destruct (st_rep s).
  - apply bind_ok in H as (c & t5 & _ & H).
    destruct (lc_count lc <? p); [| discriminate].
    apply ret_ok in H as [-> _]. split; [reflexivity |]. exists [c]. reflexivity.
  - apply ret_ok in H as [-> _]. split; [reflexivity |]. exists []. cbn.
    rewrite app_nil_r. reflexivity.
Qed.

Lemma finish_state_appends ONE dflt si lc t lc' t' :
  finish_state ONE dflt si lc t = Ok (Continue lc', t') ->
  lc_id lc' = lc_id lc /\ exists l, lc_states lc' = lc_states lc ++ l.
Proof.
  unfold finish_state. intros H.
  apply bind_ok in H as (num & t0 & _ & H).
  apply bind_ok in H as ([|] & t1 & _ & H).
  - apply bind_ok in H as (lc1 & t2 & Hemit & H). apply ret_ok in H as [[= ->] _].
    exact (emit_leaf_appends _ _ _ _ _ _ Hemit).
  - apply bind_ok in H as (u & t2 & _ & H). apply ret_ok in H as [[= ->] _].
    split; [reflexivity |]. exists []. rewrite app_nil_r. reflexivity.
Qed.

(** A visit appends the states of its subtree to those returned so far
    and leaves the id of the next base element alone. *)
Lemma descend_pending_appends ONE dflt f :
  (forall si lc t lc' t', descend ONE dflt f si lc t = Ok (lc', t') ->
     lc_id lc' = lc_id lc /\ exists l, lc_states lc' = lc_states lc ++ l) /\
  (forall si lc t lc' t', pending ONE dflt f si lc t = Ok (lc', t') ->
     lc_id lc' = lc_id lc /\ exists l, lc_states lc' = lc_states lc ++ l).
Proof.
  induction f as [| f [IHd IHp]].
  - split; intros si lc t lc' t' H; discriminate H.
  - split; intros si lc t lc' t' H.
    + rewrite descend_S in H.
      apply bind_ok in H as (u & t1 & _ & H).
      apply bind_ok in H as (it & t2 & Hfin & H).
      destruct (finish_state_continue _ _ _ _ _ _ _ Hfin) as [lc1 ->].
      apply finish_state_appends in Hfin as (Hid1 & l1 & Hl1).
      apply IHp in H as (Hid2 & l2 & Hl2).
      split; [congruence |]. exists (l1 ++ l2). rewrite Hl2, Hl1, app_assoc. reflexivity.
    + rewrite pending_S in H.
      apply bind_ok in H as (top0 & t0 & _ & H).
      apply bind_ok in H as (u & tp & _ & H).
      apply bind_ok in H as (top & t1 & _ & H).
      destruct (top <=? si).
      * apply ret_ok in H as [-> _]. split; [reflexivity |]. exists [].
        rewrite app_nil_r. reflexivity.
      * apply bind_ok in H as (lc1 & t2 & Hd & H).
        apply IHd in Hd as (Hid1 & l1 & Hl1). apply IHp in H as (Hid2 & l2 & Hl2).
        split; [congruence |]. exists (l1 ++ l2). rewrite Hl2, Hl1, app_assoc. reflexivity.
Qed.

(** ** Runs that differ in the addresses of the arrays only *)

Lemma rel_ret {A : Type} (R : A -> A -> Prop) a1 a2 : R a1 a2 -> rel R (ret a1) (ret a2).
Proof.
  intros HR t1 t2 x1 t1' x2 t2' Hsim H1 H2.
  apply ret_ok in H1 as [-> ->]. apply ret_ok in H2 as [-> ->].
  split; [exact HR | exact Hsim].
Qed.

Lemma rel_bind {A B : Type} (RA : A -> A -> Prop) (RB : B -> B -> Prop)
      (c1 c2 : M A) (k1 k2 : A -> M B) :
  rel RA c1 c2 -> (forall a1 a2, RA a1 a2 -> rel RB (k1 a1) (k2 a2)) ->
  rel RB (bind c1 k1) (bind c2 k2).
Proof.
  intros Hc Hk t1 t2 b1 t1' b2 t2' Hsim H1 H2.
  apply bind_ok in H1 as (a1 & u1 & Hc1 & Hk1).
  apply bind_ok in H2 as (a2 & u2 & Hc2 & Hk2).
  destruct (Hc _ _ _ _ _ _ Hsim Hc1 Hc2) as [HR Hsim'].
  exact (Hk a1 a2 HR _ _ _ _ _ _ Hsim' Hk1 Hk2).
Qed.

Lemma rel_bind_eq {A B : Type} (RB : B -> B -> Prop) (c1 c2 : M A) (k1 k2 : A -> M B) :
  rel eq c1 c2 -> (forall a, rel RB (k1 a) (k2 a)) -> rel RB (bind c1 k1) (bind c2 k2).
Proof.
  intros Hc Hk. apply (rel_bind eq RB); [exact Hc |]. intros a1 a2 <-. apply Hk.
Qed.

Lemma rel_throw {A : Type} (R : A -> A -> Prop) e (c2 : M A) : rel R (throw e) c2.
Proof. intros t1 t2 a1 t1' a2 t2' _ H1. discriminate H1. Qed.

Lemma rel_undef {A : Type} (R : A -> A -> Prop) u (c2 : M A) : rel R (undef u) c2.
Proof. apply rel_throw. Qed.

Lemma rel_throw_r {A : Type} (R : A -> A -> Prop) e (c1 : M A) : rel R c1 (throw e).
Proof. intros t1 t2 a1 t1' a2 t2' _ _ H2. discriminate H2. Qed.

Lemma rel_undef_r {A : Type} (R : A -> A -> Prop) u (c1 : M A) : rel R c1 (undef u).
Proof. apply rel_throw_r. Qed.

Lemma rel_lift {A : Type} (x : result A) : rel eq (lift x) (lift x).
Proof.
  intros t1 t2 a1 t1' a2 t2' Hsim H1 H2.
  apply lift_ok in H1 as [H1 ->]. apply lift_ok in H2 as [H2 ->].
  split; [congruence | exact Hsim].
Qed.

Lemma rel_gets {A : Type} (f : Traverse -> A) :
  (forall t1 t2, sim t1 t2 -> f t1 = f t2) -> rel eq (gets f) (gets f).
Proof.
  intros Hf t1 t2 a1 t1' a2 t2' Hsim H1 H2.
  apply gets_ok in H1 as [-> ->]. apply gets_ok in H2 as [-> ->].
  split; [apply Hf; exact Hsim | exact Hsim].
Qed.

Lemma rel_gets_top : rel eq (gets tr_top) (gets tr_top).
Proof. apply rel_gets. intros t1 t2 (_ & _ & H & _). exact H. Qed.

Lemma rel_gets_size : rel eq (gets tr_size) (gets tr_size).
Proof. apply rel_gets. intros t1 t2 (_ & _ & _ & H & _). exact H. Qed.

Lemma rel_gets_num : rel eq (gets tr_num) (gets tr_num).
Proof. apply rel_gets. intros t1 t2 (_ & _ & _ & _ & H & _). exact H. Qed.

Lemma rel_gets_spaces_size : rel eq (gets tr_spaces_size) (gets tr_spaces_size).
Proof. apply rel_gets. intros t1 t2 (_ & _ & _ & _ & _ & H & _). exact H. Qed.

Lemma rel_deref p : rel eq (deref p) (deref p).
Proof. destruct p; [apply rel_ret; reflexivity | apply rel_undef]. Qed.

Lemma rel_son_at e k : rel eq (son_at e k) (son_at e k).
Proof.
  unfold son_at. destruct (zlookup (el_sons e) k); [apply rel_ret; reflexivity | apply rel_undef].
Qed.

Lemma rel_flag_at flags i : rel eq (flag_at flags i) (flag_at flags i).
Proof.
  unfold flag_at. destruct (zlookup flags i); [apply rel_ret; reflexivity | apply rel_undef].
Qed.

Lemma rel_and_then a (c1 c2 : M bool) : rel eq c1 c2 -> rel eq (and_then a c1) (and_then a c2).
Proof. intros H. unfold and_then. destruct a; [exact H | apply rel_ret; reflexivity]. Qed.

Lemma rel_or_else a (c1 c2 : M bool) : rel eq c1 c2 -> rel eq (or_else a c1) (or_else a c2).
Proof. intros H. unfold or_else. destruct a; [apply rel_ret; reflexivity | exact H]. Qed.

Lemma rel_for_loop (body1 body2 : Z -> M unit) n i :
  (forall j, rel eq (body1 j) (body2 j)) -> rel eq (for_loop n i body1) (for_loop n i body2).
Proof.
  intros Hb. revert i. induction n as [| n IH]; intros i; [apply rel_ret; reflexivity |].
  cbn [for_loop]. apply rel_bind_eq; [apply Hb | intros _; apply IH].
Qed.

(** *** The slots *)

Lemma sim_lookup t1 t2 si s1 s2 :
  sim t1 t2 -> zlookup (tr_stack t1) si = Some s1 -> zlookup (tr_stack t2) si = Some s2 ->
  same_content (tr_heap t1) (tr_heap t2) s1 s2.
Proof.
  intros (_ & _ & _ & _ & _ & _ & Hst) H1 H2.
  apply zlookup_Some in H1 as [_ H1]. apply zlookup_Some in H2 as [_ H2].
  exact (Forall2_lookup_lr _ _ _ _ _ _ Hst H1 H2).
Qed.

Lemma content_plain h1 h2 s1 s2 : same_content h1 h2 s1 s2 -> plain s1 = plain s2.
Proof. intros H. exact (f_equal snd H). Qed.

Lemma content_fld f h1 h2 s1 s2 :
  same_content h1 h2 s1 s2 -> cells_of h1 (fld_sel f s1) = cells_of h2 (fld_sel f s2).
Proof.
  intros H. destruct f.
  - exact (f_equal (fun x => fst (fst (fst x))) H).
  - exact (f_equal (fun x => snd (fst (fst x))) H).
  - exact (f_equal (fun x => snd (fst x)) H).
Qed.

Lemma rel_slot si : rel (fun s1 s2 => plain s1 = plain s2) (slot si) (slot si).
Proof.
  intros t1 t2 s1 t1' s2 t2' Hsim H1 H2.
  apply slot_ok in H1 as [H1 ->]. apply slot_ok in H2 as [H2 ->].
  split; [| exact Hsim]. eapply content_plain, sim_lookup; eassumption.
Qed.

Lemma rel_bind_slot {B : Type} (RB : B -> B -> Prop) si (k1 k2 : State -> M B) :
  (forall s1 s2, plain s1 = plain s2 -> rel RB (k1 s1) (k2 s2)) ->
  rel RB (bind (slot si) k1) (bind (slot si) k2).
Proof. intros Hk. eapply rel_bind; [apply rel_slot | exact Hk]. Qed.

Lemma sim_slot_cell f t1 t2 si i c1 c2 :
  sim t1 t2 -> slot_cell (fld_sel f) t1 si i c1 -> slot_cell (fld_sel f) t2 si i c2 ->
  c1 = c2.
Proof.
  intros Hsim (s1 & a1 & arr1 & Hs1 & Ha1 & Harr1 & Hc1) (s2 & a2 & arr2 & Hs2 & Ha2 & Harr2 & Hc2).
  pose proof (content_fld f _ _ _ _ (sim_lookup _ _ _ _ _ Hsim Hs1 Hs2)) as Hcells.
  rewrite Ha1, Ha2 in Hcells. cbn [cells_of] in Hcells.
  rewrite Harr1, Harr2 in Hcells. injection Hcells as <-. congruence.
Qed.

Lemma rel_get_e si i : rel eq (get_e si i) (get_e si i).
Proof.
  intros t1 t2 v1 t1' v2 t2' Hsim H1 H2.
  apply get_e_spec in H1 as [-> H1]. apply get_e_spec in H2 as [-> H2].
  split; [| exact Hsim].
  pose proof (sim_slot_cell FE _ _ _ _ _ _ Hsim H1 H2) as H. congruence.
Qed.

Lemma rel_get_er si i : rel eq (get_er si i) (get_er si i).
Proof.
  intros t1 t2 v1 t1' v2 t2' Hsim H1 H2.
  apply get_er_spec in H1 as [-> H1]. apply get_er_spec in H2 as [-> H2].
  split; [| exact Hsim].
  pose proof (sim_slot_cell FER _ _ _ _ _ _ Hsim H1 H2) as H. congruence.
Qed.

Lemma rel_get_sub_idx si i : rel eq (get_sub_idx si i) (get_sub_idx si i).
Proof.
  intros t1 t2 v1 t1' v2 t2' Hsim H1 H2.
  apply get_sub_idx_spec in H1 as [-> H1]. apply get_sub_idx_spec in H2 as [-> H2].
  split; [| exact Hsim].
  pose proof (sim_slot_cell FIDX _ _ _ _ _ _ Hsim H1 H2) as H. congruence.
Qed.

(** *** Stores *)

Lemma NoDup_mjoin_lookup {A : Type} (ls : list (list A)) j k l1 l2 x :
  NoDup (mjoin ls) -> ls !! j = Some l1 -> ls !! k = Some l2 ->
  x ∈ l1 -> x ∈ l2 -> j = k.
Proof.
  revert j k. induction ls as [| l ls IH]; intros j k Hnd Hj Hk H1 H2; [discriminate |].
  cbn in Hnd. apply NoDup_app in Hnd as (_ & Hdisj & Hnd).
  destruct j as [| j], k as [| k]; cbn in Hj, Hk.
  - reflexivity.
  - injection Hj as ->. exfalso. apply (Hdisj x H1).
    apply list_elem_of_join. exists l2. split; [exact H2 |].
    eapply list_elem_of_lookup_2. exact Hk.
  - injection Hk as ->. exfalso. apply (Hdisj x H2).
    apply list_elem_of_join. exists l1. split; [exact H1 |].
    eapply list_elem_of_lookup_2. exact Hj.
  - f_equal. exact (IH j k Hnd Hj Hk H1 H2).
Qed.

Lemma NoDup_mjoin_inner {A : Type} (ls : list (list A)) j l :
  NoDup (mjoin ls) -> ls !! j = Some l -> NoDup l.
Proof.
  revert j. induction ls as [| l0 ls IH]; intros j Hnd Hj; [discriminate |].
  cbn in Hnd. apply NoDup_app in Hnd as (Hl0 & _ & Hnd).
  destruct j as [| j]; cbn in Hj; [injection Hj as <-; exact Hl0 | exact (IH j Hnd Hj)].
Qed.

Lemma slot_ptrs_fld f s a : fld_sel f s = Some a -> a ∈ slot_ptrs s.
Proof.
  unfold slot_ptrs. destruct f; cbn; intros ->; cbn.
  - left.
  - destruct (st_e s); cbn; [right |]; left.
  - destruct (st_e s), (st_er s); cbn; repeat first [left | right].
Qed.

(** Within a slot the three arrays are distinct. *)
Lemma slot_ptrs_distinct f g s a :
  NoDup (slot_ptrs s) -> fld_sel f s = Some a -> fld_sel g s = Some a -> f = g.
Proof.
  unfold slot_ptrs. intros Hnd Hf Hg.
  destruct f, g; try reflexivity; cbn in Hf, Hg; exfalso;
    rewrite Hf in Hnd; try rewrite Hg in Hnd; cbn in Hnd;
    destruct (st_e s), (st_er s), (st_sub_idx s); cbn in Hnd;
    try discriminate; repeat match goal with H : Some _ = Some _ |- _ => injection H as -> end;
    repeat match goal with
           | H : NoDup (_ :: _) |- _ => apply NoDup_cons in H as [? ?]
           end; set_solver.
Qed.

Lemma cells_of_insert h a arr p :
  cells_of (<[a := arr]> h) p = if decide (p = Some a) then Some arr else cells_of h p.
Proof.
  destruct p as [b |]; cbn.
  - case_decide as Hd.
    + injection Hd as ->. apply lookup_insert_eq.
    + apply lookup_insert_ne. congruence.
  - reflexivity.
Qed.

Lemma content_store t k s f a arr' j sj :
  wf t -> tr_stack t !! k = Some s -> fld_sel f s = Some a ->
  tr_stack t !! j = Some sj ->
  content (<[a := arr']> (tr_heap t)) sj
  = if decide (j = k) then with_cells f arr' (content (tr_heap t) sj)
    else content (tr_heap t) sj.
Proof.
  intros (_ & _ & Hnd) Hk Hf Hj. unfold stack_ptrs in Hnd.
  assert (Hk' : (slot_ptrs <$> tr_stack t) !! k = Some (slot_ptrs s))
    by (rewrite list_lookup_fmap, Hk; reflexivity).
  assert (Hj' : (slot_ptrs <$> tr_stack t) !! j = Some (slot_ptrs sj))
    by (rewrite list_lookup_fmap, Hj; reflexivity).
  pose proof (slot_ptrs_fld f s a Hf) as Hin.
  destruct (decide (j = k)) as [-> | Hne].
  - assert (sj = s) by congruence. subst sj.
    pose proof (NoDup_mjoin_inner _ _ _ Hnd Hk') as Hnds.
    assert (Hother : forall g, g <> f -> fld_sel g s <> Some a).
    { intros g Hg Hga. apply Hg. exact (slot_ptrs_distinct g f s a Hnds Hga Hf). }
    unfold content. rewrite !cells_of_insert.
    destruct f; cbn in Hf; cbn [with_cells fst snd].
    + pose proof (Hother FER ltac:(discriminate)) as H1.
      pose proof (Hother FIDX ltac:(discriminate)) as H2. cbn in H1, H2.
      rewrite Hf. repeat case_decide; congruence.
    + pose proof (Hother FE ltac:(discriminate)) as H1.
      pose proof (Hother FIDX ltac:(discriminate)) as H2. cbn in H1, H2.
      rewrite Hf. repeat case_decide; congruence.
    + pose proof (Hother FE ltac:(discriminate)) as H1.
      pose proof (Hother FER ltac:(discriminate)) as H2. cbn in H1, H2.
      rewrite Hf. repeat case_decide; congruence.
  - assert (Hout : forall g, fld_sel g sj <> Some a).
    { intros g Hga. apply Hne.
      exact (NoDup_mjoin_lookup _ _ _ _ _ a Hnd Hj' Hk' (slot_ptrs_fld g sj a Hga) Hin). }
    pose proof (Hout FE) as H1. pose proof (Hout FER) as H2. pose proof (Hout FIDX) as H3.
    cbn in H1, H2, H3.
    unfold content. rewrite !cells_of_insert. repeat case_decide; congruence.
Qed.

Lemma rel_store_slot f si i c :
  rel eq (bind (slot si) (fun s => store (fld_sel f s) i c))
         (bind (slot si) (fun s => store (fld_sel f s) i c)).
Proof.
  intros t1 t2 u1 t1' u2 t2' Hsim H1 H2.
  split; [destruct u1, u2; reflexivity |].
  pose proof Hsim as (Hwf1 & Hwf2 & Htop & Hsize & Hnum & Hsp & Hst).
  assert (Hk1 : keeps t1 t1').
  { eapply (keeps_slot_store (fld_sel f) si i c); [| exact H1].
    intros s a. apply slot_ptrs_fld. }
  assert (Hk2 : keeps t2 t2').
  { eapply (keeps_slot_store (fld_sel f) si i c); [| exact H2].
    intros s a. apply slot_ptrs_fld. }
  destruct (Hk1 Hwf1) as (Hwf1' & _). destruct (Hk2 Hwf2) as (Hwf2' & _).
  apply bind_ok in H1 as (s1 & t0 & Hs1 & H1). apply slot_ok in Hs1 as [Hs1 ->].
  apply bind_ok in H2 as (s2 & t0 & Hs2 & H2). apply slot_ok in Hs2 as [Hs2 ->].
  apply store_ok in H1 as (a1 & arr1 & Ha1 & Harr1 & _ & ->).
  apply store_ok in H2 as (a2 & arr2 & Ha2 & Harr2 & _ & ->).
  pose proof (content_fld f _ _ _ _ (sim_lookup _ _ _ _ _ Hsim Hs1 Hs2)) as Hcells.
  rewrite Ha1, Ha2 in Hcells. cbn [cells_of] in Hcells.
  rewrite Harr1, Harr2 in Hcells. injection Hcells as <-.
  apply zlookup_Some in Hs1 as [_ Hs1]. apply zlookup_Some in Hs2 as [_ Hs2].
  split; [exact Hwf1' |]. split; [exact Hwf2' |].
  split; [exact Htop |]. split; [exact Hsize |]. split; [exact Hnum |]. split; [exact Hsp |].
  cbn. apply Forall2_same_length_lookup_2; [exact (Forall2_length _ _ _ Hst) |].
  intros j x y Hx Hy. unfold same_content.
  rewrite (content_store t1 _ s1 f a1 _ j x Hwf1 Hs1 Ha1 Hx).
  rewrite (content_store t2 _ s2 f a2 _ j y Hwf2 Hs2 Ha2 Hy).
  pose proof (Forall2_lookup_lr _ _ _ _ _ _ Hst Hx Hy) as Hxy. unfold same_content in Hxy.
  rewrite Hxy. reflexivity.
Qed.

Lemma rel_put_e si i v : rel eq (put_e si i v) (put_e si i v).
Proof. exact (rel_store_slot FE si i (CElem v)). Qed.

Lemma rel_put_er si i v : rel eq (put_er si i v) (put_er si i v).
Proof. exact (rel_store_slot FER si i (CRect v)). Qed.

Lemma rel_put_sub_idx si i v : rel eq (put_sub_idx si i v) (put_sub_idx si i v).
Proof. exact (rel_store_slot FIDX si i (CIdx v)). Qed.

Lemma content_plain_only f h1 h2 s1 s2 :
  plain_only f -> same_content h1 h2 s1 s2 -> same_content h1 h2 (f s1) (f s2).
Proof.
  intros [Hptrs Hplain] H. unfold same_content, content in *.
  destruct (Hptrs s1) as (-> & -> & ->). destruct (Hptrs s2) as (-> & -> & ->).
  rewrite (Hplain s1 s2 (f_equal snd H)).
  rewrite (f_equal (fun x => fst (fst (fst x))) H : cells_of h1 (st_e s1) = _).
  rewrite (f_equal (fun x => snd (fst (fst x))) H : cells_of h1 (st_er s1) = _).
  rewrite (f_equal (fun x => snd (fst x)) H : cells_of h1 (st_sub_idx s1) = _).
  reflexivity.
Qed.

Lemma rel_update_slot si f : plain_only f -> rel eq (update_slot si f) (update_slot si f).
Proof.
  intros Hf t1 t2 u1 t1' u2 t2' Hsim H1 H2.
  split; [destruct u1, u2; reflexivity |].
  pose proof Hsim as (Hwf1 & Hwf2 & Htop & Hsize & Hnum & Hsp & Hst).
  destruct (keeps_update_slot si f (proj1 Hf) _ _ _ H1 Hwf1) as (Hwf1' & _).
  destruct (keeps_update_slot si f (proj1 Hf) _ _ _ H2 Hwf2) as (Hwf2' & _).
  apply update_slot_ok in H1 as (s1 & Hs1 & ->).
  apply update_slot_ok in H2 as (s2 & Hs2 & ->).
  split; [exact Hwf1' |]. split; [exact Hwf2' |].
  split; [exact Htop |]. split; [exact Hsize |]. split; [exact Hnum |]. split; [exact Hsp |].
  cbn. apply Forall2_insert; [exact Hst |].
  apply content_plain_only; [exact Hf |]. eapply sim_lookup; eassumption.
Qed.

Lemma rel_set_top x : rel eq (set_top x) (set_top x).
Proof.
  intros t1 t2 u1 t1' u2 t2' Hsim H1 H2.
  split; [destruct u1, u2; reflexivity |].
  destruct Hsim as (Hwf1 & Hwf2 & Htop & Hsize & Hnum & Hsp & Hst).
  destruct (keeps_set_top x _ _ _ H1 Hwf1) as (Hwf1' & _).
  destruct (keeps_set_top x _ _ _ H2 Hwf2) as (Hwf2' & _).
  injection H1 as _ <-. injection H2 as _ <-.
  split; [exact Hwf1' |]. split; [exact Hwf2' |]. repeat split; assumption.
Qed.

(** *** The functions that reach the arrays through the slots *)

Create HintDb rel_db.
#[local] Hint Resolve rel_lift rel_gets_top rel_gets_size rel_gets_num rel_gets_spaces_size
  rel_deref rel_son_at rel_flag_at rel_get_e rel_get_er rel_get_sub_idx
  rel_put_e rel_put_er rel_put_sub_idx rel_set_top : rel_db.

Ltac solve_plain_only :=
  split;
  [ intros []; repeat split
  | intros [] [] Hp; cbn in Hp; injection Hp; intros; subst; reflexivity ].

#[local] Hint Extern 2 (rel eq (update_slot _ _) (update_slot _ _)) =>
  apply rel_update_slot; solve_plain_only : rel_db.

Ltac plain_subst s1 s2 Hs :=
  destruct s1, s2; cbn in Hs; injection Hs; clear Hs; intros; subst;
  cbn [st_e st_er st_sub_idx st_cr st_bnd st_rep st_rep_i st_visited st_isurf st_isBnd st_num].

Ltac rel_struct :=
  lazymatch goal with
  | |- rel _ (throw _) _ => apply rel_throw
  | |- rel _ (undef _) _ => apply rel_undef
  | |- rel _ _ (throw _) => apply rel_throw_r
  | |- rel _ _ (undef _) => apply rel_undef_r
  | |- rel _ (bind (slot _) _) (bind (slot _) _) =>
      apply rel_bind_slot;
      let s1 := fresh "s" in let s2 := fresh "s" in let Hs := fresh "Hs" in
      intros s1 s2 Hs; plain_subst s1 s2 Hs
  | |- rel _ (bind _ _) (bind _ _) => apply rel_bind_eq; [| intros ?]
  | |- rel _ (ret _) (ret _) => apply rel_ret; reflexivity
  | |- rel _ (and_then _ _) (and_then _ _) => apply rel_and_then
  | |- rel _ (or_else _ _) (or_else _ _) => apply rel_or_else
  | |- rel _ (for_loop _ _ _) (for_loop _ _ _) => apply rel_for_loop; intros ?
  | |- rel _ (match ?x with _ => _ end) _ => destruct x
  end.

Ltac rel_step := first [solve [eauto with rel_db] | rel_struct | progress cbv zeta].
Ltac rel_auto := repeat rel_step.

Lemma rel_State_is_triangle_loop n si j :
  rel eq (State_is_triangle_loop n si j) (State_is_triangle_loop n si j).
Proof.
  revert j. induction n as [| n IH]; intros j; cbn [State_is_triangle_loop]; rel_auto.
Qed.
#[local] Hint Resolve rel_State_is_triangle_loop : rel_db.

Lemma rel_State_is_triangle si : rel eq (State_is_triangle si) (State_is_triangle si).
Proof. unfold State_is_triangle. rel_auto. Qed.
#[local] Hint Resolve rel_State_is_triangle : rel_db.

Lemma rel_push_transform si son i tri :
  rel eq (push_transform si son i tri) (push_transform si son i tri).
Proof. unfold push_transform. rel_auto. Qed.
#[local] Hint Resolve rel_push_transform : rel_db.

Lemma rel_init_transforms_loop f1 f2 si i x :
  rel eq (init_transforms_loop f1 si i x) (init_transforms_loop f2 si i x).
Proof.
  revert f2 x. induction f1 as [| f1 IH]; intros f2 x.
  - destruct f2; cbn [init_transforms_loop]; rel_auto.
  - destruct f2; cbn [init_transforms_loop]; rel_auto.
Qed.

Lemma rel_init_transforms f1 f2 si i :
  rel eq (init_transforms f1 si i) (init_transforms f2 si i).
Proof.
  unfold init_transforms. rel_step; [rel_auto |]. apply rel_init_transforms_loop.
Qed.

Lemma rel_first_element n si i : rel eq (first_element n si i) (first_element n si i).
Proof. revert i. induction n as [| n IH]; intros i; cbn [first_element]; rel_auto. Qed.
#[local] Hint Resolve rel_first_element : rel_db.

Lemma rel_set_boundary_info ONE si :
  rel eq (set_boundary_info ONE si) (set_boundary_info ONE si).
Proof. unfold set_boundary_info. rel_auto. Qed.
#[local] Hint Resolve rel_set_boundary_info : rel_db.

Lemma rel_pop_visited n : rel eq (pop_visited n) (pop_visited n).
Proof. induction n as [| n IH]; cbn [pop_visited]; rel_auto. Qed.
#[local] Hint Resolve rel_pop_visited : rel_db.

Lemma rel_load_base_element ONE n meshes si id i nused :
  rel eq (load_base_element ONE n meshes si id i nused)
         (load_base_element ONE n meshes si id i nused).
Proof.
  revert i nused. induction n as [| n IH]; intros i nused; cbn [load_base_element]; rel_auto.
Qed.
#[local] Hint Resolve rel_load_base_element : rel_db.

Lemma rel_next_base_element ONE n meshes si id :
  rel eq (next_base_element ONE n meshes si id) (next_base_element ONE n meshes si id).
Proof.
  revert id. induction n as [| n IH]; intros id; cbn [next_base_element]; rel_auto.
Qed.
#[local] Hint Resolve rel_next_base_element : rel_db.

Lemma rel_enter_state f1 f2 si : rel eq (enter_state f1 si) (enter_state f2 si).
Proof.
  unfold enter_state. rel_step; [rel_auto |]. rel_step; [rel_auto |].
  rel_step. rel_step; [rel_auto |]. rel_step; [| rel_auto].
  rel_step; [| rel_auto]. rel_step; [rel_auto |]. rel_step; [| rel_auto].
  rel_step; [| rel_auto]. apply rel_init_transforms.
Qed.

Lemma rel_is_leaf n si i : rel eq (is_leaf n si i) (is_leaf n si i).
Proof. revert i. induction n as [| n IH]; intros i; cbn [is_leaf]; rel_auto. Qed.
#[local] Hint Resolve rel_is_leaf : rel_db.

Lemma rel_choose_rep si : rel eq (choose_rep si) (choose_rep si).
Proof. unfold choose_rep. rel_auto. Qed.
#[local] Hint Resolve rel_choose_rep : rel_db.

Lemma rel_split_and_sons n si i split acc :
  rel eq (split_and_sons n si i split acc) (split_and_sons n si i split acc).
Proof.
  revert i split acc. induction n as [| n IH]; intros i split acc;
    cbn [split_and_sons]; rel_auto.
Qed.
#[local] Hint Resolve rel_split_and_sons : rel_db.

Lemma rel_current_son cs i k : rel eq (current_son cs i k) (current_son cs i k).
Proof. unfold current_son. rel_auto. Qed.
#[local] Hint Resolve rel_current_son : rel_db.

Lemma rel_move_element si ns i e code :
  rel eq (move_element si ns i e code) (move_element si ns i e code).
Proof. unfold move_element. rel_auto. Qed.
#[local] Hint Resolve rel_move_element : rel_db.

(** *** [push_state] *)

Lemma content_fresh h n s a arr :
  h !! a = None -> slot_wf h n s -> content (<[a := arr]> h) s = content h s.
Proof.
  intros Ha Hwf.
  assert (Hp : forall p, p ∈ [st_e s; st_er s; st_sub_idx s] -> p <> Some a).
  { intros p Hp ->.
    assert (Hin : a ∈ slot_ptrs s).
    { unfold slot_ptrs. apply list_elem_of_omap. exists (Some a). split; [exact Hp | reflexivity]. }
    destruct (slot_wf_ptrs_allocated h n s a Hwf Hin) as [x Hx]. congruence. }
  unfold content. rewrite !cells_of_insert.
  pose proof (Hp (st_e s) ltac:(set_solver)).
  pose proof (Hp (st_er s) ltac:(set_solver)).
  pose proof (Hp (st_sub_idx s) ltac:(set_solver)).
  repeat case_decide; congruence.
Qed.

Lemma Forall2_content_heap h1 h1' h2 h2' l1 l2 :
  (forall s, s ∈ l1 -> content h1' s = content h1 s) ->
  (forall s, s ∈ l2 -> content h2' s = content h2 s) ->
  Forall2 (same_content h1 h2) l1 l2 -> Forall2 (same_content h1' h2') l1 l2.
Proof.
  intros H1 H2 H. apply Forall2_same_length_lookup_2; [exact (Forall2_length _ _ _ H) |].
  intros i x y Hx Hy. unfold same_content.
  rewrite (H1 x (list_elem_of_lookup_2 _ _ _ Hx)), (H2 y (list_elem_of_lookup_2 _ _ _ Hy)).
  exact (Forall2_lookup_lr _ _ _ _ _ _ H Hx Hy).
Qed.

(** A slot of a well-formed stack has its arrays or none. *)
Lemma wf_slot t si s : wf t -> zlookup (tr_stack t) si = Some s ->
  slot_wf (tr_heap t) (Z.to_nat (tr_num t)) s.
Proof.
  intros (_ & Hslots & _) Hs. apply zlookup_Some in Hs as [_ Hs].
  exact (Forall_lookup_1 _ _ _ _ Hslots Hs).
Qed.

Lemma cells_of_null h n s :
  slot_wf h n s -> (st_e s = None <-> cells_of h (st_e s) = None).
Proof.
  intros [(H1 & _) | ((a & arr & Ha & Harr & _) & _)].
  - rewrite H1. cbn. tauto.
  - rewrite Ha. cbn. rewrite Harr. split; discriminate.
Qed.

Lemma sim_null_e t1 t2 si s1 s2 :
  sim t1 t2 -> zlookup (tr_stack t1) si = Some s1 -> zlookup (tr_stack t2) si = Some s2 ->
  (st_e s1 = None <-> st_e s2 = None).
Proof.
  intros Hsim H1 H2. pose proof Hsim as (Hwf1 & Hwf2 & _).
  rewrite (cells_of_null _ _ _ (wf_slot _ _ _ Hwf1 H1)).
  rewrite (cells_of_null _ _ _ (wf_slot _ _ _ Hwf2 H2)).
  rewrite (content_fld FE _ _ _ _ (sim_lookup _ _ _ _ _ Hsim H1 H2) : cells_of _ (st_e s1) = _).
  tauto.
Qed.

(** The three allocations, taken apart. *)
Lemma alloc_arrays_spec t top s u t2 :
  zlookup (tr_stack t) top = Some s ->
  bind (alloc (tr_num t))
    (fun pe => bind (alloc (tr_num t))
       (fun per => bind (alloc (tr_num t))
          (fun ps => update_slot top (set_ptrs pe per ps)))) t = Ok (u, t2) ->
  exists a1 a2 a3,
    tr_heap t !! a1 = None /\ tr_heap t !! a2 = None /\ tr_heap t !! a3 = None /\
    a1 <> a2 /\ a1 <> a3 /\ a2 <> a3 /\
    t2 = with_stack (<[Z.to_nat top := set_ptrs (Some a1) (Some a2) (Some a3) s]> (tr_stack t))
           (with_heap (<[a3 := replicate (Z.to_nat (tr_num t)) Indet]>
                         (<[a2 := replicate (Z.to_nat (tr_num t)) Indet]>
                            (<[a1 := replicate (Z.to_nat (tr_num t)) Indet]> (tr_heap t)))) t).
Proof.
  intros Hs H.
  apply bind_ok in H as (pe & t1 & H1 & H). apply alloc_ok in H1 as (a1 & -> & Ha1 & ->).
  apply bind_ok in H as (per & t1 & H1 & H). apply alloc_ok in H1 as (a2 & -> & Ha2 & ->).
  apply bind_ok in H as (ps & t1 & H1 & H). apply alloc_ok in H1 as (a3 & -> & Ha3 & ->).
  apply update_slot_ok in H as (s0 & Hs0 & ->). cbn in *.
  rewrite Hs in Hs0. injection Hs0 as <-.
  assert (a1 <> a2) by (intros ->; rewrite lookup_insert_eq in Ha2; discriminate).
  assert (a2 <> a3) by (intros ->; rewrite lookup_insert_eq in Ha3; discriminate).
  assert (a1 <> a3).
  { intros ->. rewrite lookup_insert_ne, lookup_insert_eq in Ha3 by congruence. discriminate. }
  rewrite lookup_insert_ne in Ha2 by congruence.
  rewrite !lookup_insert_ne in Ha3 by congruence.
  exists a1, a2, a3. repeat split; assumption.
Qed.

Lemma sim_alloc_arrays t1 t2 top s1 s2 u1 ta1 u2 ta2 :
  sim t1 t2 ->
  zlookup (tr_stack t1) top = Some s1 -> zlookup (tr_stack t2) top = Some s2 ->
  match st_e s1 with
  | None =>
      bind (alloc (tr_num t1))
        (fun pe => bind (alloc (tr_num t1))
           (fun per => bind (alloc (tr_num t1))
              (fun ps => update_slot top (set_ptrs pe per ps))))
  | Some _ => ret tt
  end t1 = Ok (u1, ta1) ->
  match st_e s2 with
  | None =>
      bind (alloc (tr_num t2))
        (fun pe => bind (alloc (tr_num t2))
           (fun per => bind (alloc (tr_num t2))
              (fun ps => update_slot top (set_ptrs pe per ps))))
  | Some _ => ret tt
  end t2 = Ok (u2, ta2) ->
  sim ta1 ta2.
Proof.
  intros Hsim Hs1 Hs2 H1 H2.
  pose proof (sim_null_e _ _ _ _ _ Hsim Hs1 Hs2) as Hnull.
  pose proof Hsim as (Hwf1 & Hwf2 & Htop & Hsize & Hnum & Hsp & Hst).
  destruct (st_e s1) as [e1 |] eqn:He1, (st_e s2) as [e2 |] eqn:He2;
    try (exfalso; destruct Hnull as [Ha Hb]; first [specialize (Ha eq_refl) | specialize (Hb eq_refl)];
         discriminate).
  - apply ret_ok in H1 as [_ ->]. apply ret_ok in H2 as [_ ->]. exact Hsim.
  - destruct (keeps_alloc_arrays _ _ _ _ _ Hs1 He1 H1 Hwf1) as (Hwf1' & _).
    destruct (keeps_alloc_arrays _ _ _ _ _ Hs2 He2 H2 Hwf2) as (Hwf2' & _).
    apply (alloc_arrays_spec _ _ _ _ _ Hs1) in H1
      as (a1 & a2 & a3 & Ha1 & Ha2 & Ha3 & Ha12 & Ha13 & Ha23 & ->).
    apply (alloc_arrays_spec _ _ _ _ _ Hs2) in H2
      as (b1 & b2 & b3 & Hb1 & Hb2 & Hb3 & Hb12 & Hb13 & Hb23 & ->).
    split; [exact Hwf1' |]. split; [exact Hwf2' |].
    split; [exact Htop |]. split; [exact Hsize |]. split; [exact Hnum |]. split; [exact Hsp |].
    cbn. apply Forall2_insert.
    + eapply Forall2_content_heap; [| | exact Hst].
      * intros s Hs. destruct Hwf1 as (_ & Hslots & _).
        pose proof (proj1 (Forall_forall _ _) Hslots s Hs) as Hswf.
        rewrite content_fresh with (n := Z.to_nat (tr_num t1)).
        -- rewrite content_fresh with (n := Z.to_nat (tr_num t1)).
           ++ apply content_fresh with (n := Z.to_nat (tr_num t1)); assumption.
           ++ rewrite lookup_insert_ne by congruence. exact Ha2.
           ++ apply slot_wf_alloc; assumption.
        -- rewrite !lookup_insert_ne by congruence. exact Ha3.
        -- apply slot_wf_alloc; [rewrite lookup_insert_ne by congruence; exact Ha2 |].
           apply slot_wf_alloc; assumption.
      * intros s Hs. destruct Hwf2 as (_ & Hslots & _).
        pose proof (proj1 (Forall_forall _ _) Hslots s Hs) as Hswf.
        rewrite content_fresh with (n := Z.to_nat (tr_num t2)).
        -- rewrite content_fresh with (n := Z.to_nat (tr_num t2)).
           ++ apply content_fresh with (n := Z.to_nat (tr_num t2)); assumption.
           ++ rewrite lookup_insert_ne by congruence. exact Hb2.
           ++ apply slot_wf_alloc; assumption.
        -- rewrite !lookup_insert_ne by congruence. exact Hb3.
        -- apply slot_wf_alloc; [rewrite lookup_insert_ne by congruence; exact Hb2 |].
           apply slot_wf_alloc; assumption.
    + unfold same_content, content. cbn [set_ptrs st_e st_er st_sub_idx cells_of].
      rewrite lookup_insert_ne, lookup_insert_ne, lookup_insert_eq by congruence.
      rewrite lookup_insert_ne, lookup_insert_eq by congruence.
      rewrite lookup_insert_eq.
      rewrite lookup_insert_ne, lookup_insert_ne, lookup_insert_eq by congruence.
      rewrite lookup_insert_ne, lookup_insert_eq by congruence.
      rewrite lookup_insert_eq.
      rewrite Hnum.
      pose proof (content_plain _ _ _ _ (sim_lookup _ _ _ _ _ Hsim Hs1 Hs2)) as Hp.
      unfold plain in *. cbn. rewrite Hp. reflexivity.
Qed.

Lemma stores_puts si s v k :
  forall i t r,
    zlookup (tr_stack t) si = Some s ->
    for_loop k i (fun j => store (st_sub_idx s) j (CIdx v)) t = Ok r ->
    for_loop k i (fun j => put_sub_idx si j v) t = Ok r.
Proof.
  induction k as [| k IH]; intros i t [u t'] Hs H; [exact H |].
  cbn [for_loop] in *.
  apply bind_ok in H as (u1 & t1 & H1 & H).
  assert (Hput : put_sub_idx si i v t = Ok (u1, t1)).
  { unfold put_sub_idx, bind, slot. rewrite Hs. exact H1. }
  unfold bind at 1. rewrite Hput. apply IH; [| exact H].
  apply store_ok in H1 as (a & arr & _ & _ & _ & ->). exact Hs.
Qed.

Lemma memset_puts si n :
  refines (bind (slot si) (fun s => memset_idx (st_sub_idx s) n))
          (for_loop (Z.to_nat n) 0 (fun i => put_sub_idx si i 0)).
Proof.
  intros t [u t'] H. apply bind_ok in H as (s & t0 & Hs & H). apply slot_ok in Hs as [Hs ->].
  apply (stores_puts si s 0); [exact Hs | exact H].
Qed.

Lemma rel_refines {A : Type} (R : A -> A -> Prop) (c1 c1' c2 c2' : M A) :
  refines c1 c1' -> refines c2 c2' -> rel R c1' c2' -> rel R c1 c2.
Proof.
  intros H1 H2 Hrel t1 t2 a1 t1' a2 t2' Hsim Hc1 Hc2.
  exact (Hrel _ _ _ _ _ _ Hsim (H1 _ _ Hc1) (H2 _ _ Hc2)).
Qed.

Lemma rel_slot_memset si n :
  rel eq (bind (slot si) (fun s => memset_idx (st_sub_idx s) n))
         (bind (slot si) (fun s => memset_idx (st_sub_idx s) n)).
Proof.
  eapply rel_refines; [apply memset_puts | apply memset_puts |]. rel_auto.
Qed.

Lemma rel_push_state : rel eq push_state push_state.
Proof.
  intros t1 t2 a1 t1' a2 t2' Hsim H1 H2.
  pose proof Hsim as (_ & _ & Htop & Hsize & Hnum & _).
  unfold push_state in H1, H2.
  apply bind_ok in H1 as (top1 & x & Hg & H1). apply gets_ok in Hg as [-> ->].
  apply bind_ok in H1 as (size1 & x & Hg & H1). apply gets_ok in Hg as [-> ->].
  apply bind_ok in H2 as (top2 & x & Hg & H2). apply gets_ok in Hg as [-> ->].
  apply bind_ok in H2 as (size2 & x & Hg & H2). apply gets_ok in Hg as [-> ->].
  destruct (tr_size t1 <=? tr_top t1); [discriminate |].
  destruct (tr_size t2 <=? tr_top t2); [discriminate |].
  apply bind_ok in H1 as (num1 & x & Hg & H1). apply gets_ok in Hg as [-> ->].
  apply bind_ok in H2 as (num2 & x & Hg & H2). apply gets_ok in Hg as [-> ->].
  apply bind_ok in H1 as (s1 & x & Hs1 & H1). apply slot_ok in Hs1 as [Hs1 ->].
  apply bind_ok in H2 as (s2 & x & Hs2 & H2). apply slot_ok in Hs2 as [Hs2 ->].
  apply bind_ok in H1 as (u1 & ta1 & Ha1 & H1).
  apply bind_ok in H2 as (u2 & ta2 & Ha2 & H2).
  rewrite <- Htop in Hs2, Ha2, H2.
  pose proof (sim_alloc_arrays _ _ _ _ _ _ _ _ _ Hsim Hs1 Hs2 Ha1 Ha2) as Hsima.
  rewrite <- Hnum in H2.
  assert (Hrest : rel eq
    (bind (update_slot (tr_top t1) (fun s0 => set_isurf (-1) (set_visited false s0)))
       (fun _ => bind (bind (slot (tr_top t1)) (fun s0 => memset_idx (st_sub_idx s0) (tr_num t1)))
          (fun _ => bind (update_slot (tr_top t1)
                            (fun s3 => set_num (tr_num t1) (set_bnd (bnd_all true) s3)))
             (fun _ => bind (set_top (tr_top t1 + 1)) (fun _ => ret (tr_top t1))))))
    (bind (update_slot (tr_top t1) (fun s0 => set_isurf (-1) (set_visited false s0)))
       (fun _ => bind (bind (slot (tr_top t1)) (fun s0 => memset_idx (st_sub_idx s0) (tr_num t1)))
          (fun _ => bind (update_slot (tr_top t1)
                            (fun s3 => set_num (tr_num t1) (set_bnd (bnd_all true) s3)))
             (fun _ => bind (set_top (tr_top t1 + 1)) (fun _ => ret (tr_top t1))))))).
  { rel_step; [rel_auto |]. rel_step; [apply rel_slot_memset |]. rel_auto. }
  assert (Hassoc : forall t r,
    bind (update_slot (tr_top t1) (fun s0 => set_isurf (-1) (set_visited false s0)))
       (fun _ => bind (slot (tr_top t1))
          (fun s0 => bind (memset_idx (st_sub_idx s0) (tr_num t1))
             (fun _ => bind (update_slot (tr_top t1)
                               (fun s3 => set_num (tr_num t1) (set_bnd (bnd_all true) s3)))
                (fun _ => bind (set_top (tr_top t1 + 1)) (fun _ => ret (tr_top t1)))))) t = Ok r ->
    bind (update_slot (tr_top t1) (fun s0 => set_isurf (-1) (set_visited false s0)))
       (fun _ => bind (bind (slot (tr_top t1)) (fun s0 => memset_idx (st_sub_idx s0) (tr_num t1)))
          (fun _ => bind (update_slot (tr_top t1)
                            (fun s3 => set_num (tr_num t1) (set_bnd (bnd_all true) s3)))
             (fun _ => bind (set_top (tr_top t1 + 1)) (fun _ => ret (tr_top t1))))) t = Ok r).
  { intros t r H. unfold bind in *.
    destruct (update_slot _ _ t) as [[u ta] |]; [| discriminate].
    destruct (slot (tr_top t1) ta) as [[s0 tb] |]; [| discriminate].
    exact H. }
  exact (Hrest _ _ _ _ _ _ Hsima (Hassoc _ _ H1) (Hassoc _ _ H2)).
Qed.
#[local] Hint Resolve rel_push_state : rel_db.

Lemma rel_push_triangle_son si son :
  rel eq (push_triangle_son si son) (push_triangle_son si son).
Proof. unfold push_triangle_son. rel_auto. Qed.
#[local] Hint Resolve rel_push_triangle_son : rel_db.

Lemma rel_push_quad_son dflt si son k cs :
  rel eq (push_quad_son dflt si son k cs) (push_quad_son dflt si son k cs).
Proof. unfold push_quad_son. rel_auto. Qed.
#[local] Hint Resolve rel_push_quad_son : rel_db.

Lemma rel_push_quad_single si cs :
  rel eq (push_quad_single si cs) (push_quad_single si cs).
Proof. unfold push_quad_single. rel_auto. Qed.
#[local] Hint Resolve rel_push_quad_single : rel_db.

Lemma rel_push_sons dflt si : rel eq (push_sons dflt si) (push_sons dflt si).
Proof. unfold push_sons. rel_auto. Qed.
#[local] Hint Resolve rel_push_sons : rel_db.

(** *** [finish], [select_state] and [clone] *)

#[local] Instance same_top_preorder : PreOrder same_top.
Proof.
  split; [intros t; reflexivity |].
  intros t1 t2 t3 H12 H23. unfold same_top in *. congruence.
Qed.

Lemma same_top_dealloc p : respects same_top (dealloc p).
Proof.
  intros t u t' H. unfold dealloc in H. destruct p; inversion H; reflexivity.
Qed.

Lemma same_top_update_slot i f : respects same_top (update_slot i f).
Proof. intros t u t' H. apply update_slot_ok in H as (s & _ & ->). reflexivity. Qed.

#[local] Hint Resolve same_top_dealloc same_top_update_slot : respects_db.

Lemma same_top_free_state i : respects same_top (free_state i).
Proof. unfold free_state. respects_auto. Qed.
#[local] Hint Resolve same_top_free_state : respects_db.

Lemma finish_stack t u t' :
  finish t = Ok (u, t') -> tr_stack t' = [] /\ tr_top t' = tr_top t.
Proof.
  unfold finish. intros H.
  apply bind_ok in H as (stack & t0 & Hg & H). apply gets_ok in Hg as [-> ->].
  destruct (tr_stack t) as [| s0 stack] eqn:Hst.
  - apply ret_ok in H as [_ ->]. split; [exact Hst | reflexivity].
  - apply bind_ok in H as (size & t0 & Hg & H). apply gets_ok in Hg as [-> ->].
    apply bind_ok in H as (u1 & t1 & Hloop & H). injection H as _ <-.
    split; [reflexivity |]. cbn.
    refine (_ : same_top t t1).
    eapply (respects_for_loop same_top); [| exact Hloop].
    intros j. cbv beta. respects_auto.
Qed.

Lemma rel_finish : rel eq finish finish.
Proof.
  intros t1 t2 u1 t1' u2 t2' Hsim H1 H2.
  split; [destruct u1, u2; reflexivity |].
  destruct Hsim as (Hwf1 & Hwf2 & Htop & Hsize & Hnum & Hsp & Hst).
  destruct (keeps_finish _ _ _ H1 Hwf1) as (Hwf1' & _ & Hn1 & Hs1 & Hp1).
  destruct (keeps_finish _ _ _ H2 Hwf2) as (Hwf2' & _ & Hn2 & Hs2 & Hp2).
  apply finish_stack in H1 as [Hst1 Ht1]. apply finish_stack in H2 as [Hst2 Ht2].
  split; [exact Hwf1' |]. split; [exact Hwf2' |].
  split; [congruence |]. split; [congruence |]. split; [congruence |]. split; [congruence |].
  rewrite Hst1, Hst2. constructor.
Qed.
#[local] Hint Resolve rel_finish : rel_db.

Lemma rel_select_state ONE meshes lc :
  rel eq (select_state ONE meshes lc) (select_state ONE meshes lc).
Proof. unfold select_state. rel_auto. Qed.

(** The cells a clone copies are those of the source array. *)
Lemma slot_cells_sim f t1 t2 si n E1 E2 :
  sim t1 t2 -> length E1 = n -> length E2 = n ->
  slot_cells (fld_sel f) t1 si E1 -> slot_cells (fld_sel f) t2 si E2 -> E1 = E2.
Proof.
  intros Hsim H1 H2 Hc1 Hc2. apply list_eq_same_length with n; [exact H2 | exact H1 |].
  intros i x y _ Hx Hy.
  exact (sim_slot_cell f _ _ _ _ _ _ Hsim (Hc1 i x Hx) (Hc2 i y Hy)).
Qed.

Lemma sim_clone ONE si t1 t2 c1 t1' c2 t2' :
  sim t1 t2 -> clone ONE si t1 = Ok (c1, t1') -> clone ONE si t2 = Ok (c2, t2') ->
  sim t1' t2' /\ same_content (tr_heap t1') (tr_heap t2') c1 c2 /\
  unowned t1' c1 /\ unowned t2' c2 /\ keeps t1 t1' /\ keeps t2 t2'.
Proof.
  intros Hsim H1 H2.
  pose proof Hsim as (Hwf1 & Hwf2 & Htop & Hsize & Hnum & Hsp & Hst).
  pose proof (keeps_clone ONE si _ _ _ H1) as Hk1.
  pose proof (keeps_clone ONE si _ _ _ H2) as Hk2.
  destruct (Hk1 Hwf1) as (Hwf1' & _). destruct (Hk2 Hwf2) as (Hwf2' & _).
  pose proof (clone_unowned _ _ _ _ _ Hwf1 H1) as Hu1.
  pose proof (clone_unowned _ _ _ _ _ Hwf2 H2) as Hu2.
  apply (clone_spec _ _ _ _ _ Hwf1) in H1
    as (o1 & pe1 & ps1 & E1 & S1 & Ho1 & Hpe1 & Hps1 & Hne1 & -> & -> & HE1 & HS1 & HcE1 & HcS1).
  apply (clone_spec _ _ _ _ _ Hwf2) in H2
    as (o2 & pe2 & ps2 & E2 & S2 & Ho2 & Hpe2 & Hps2 & Hne2 & -> & -> & HE2 & HS2 & HcE2 & HcS2).
  pose proof (content_plain _ _ _ _ (sim_lookup _ _ _ _ _ Hsim Ho1 Ho2)) as Hp.
  assert (Hnum12 : st_num o1 = st_num o2) by (exact (f_equal snd Hp)).
  assert (HE : E1 = E2).
  { apply (slot_cells_sim FE t1 t2 si (Z.to_nat (st_num o1))); try assumption. congruence. }
  assert (HS : S1 = S2).
  { apply (slot_cells_sim FIDX t1 t2 si (Z.to_nat (st_num o1))); try assumption. congruence. }
  subst E2 S2.
  split; [| split; [| split; [exact Hu1 | split; [exact Hu2 | split; [exact Hk1 | exact Hk2]]]]].
  - split; [exact Hwf1' |]. split; [exact Hwf2' |].
    split; [exact Htop |]. split; [exact Hsize |]. split; [exact Hnum |]. split; [exact Hsp |].
    cbn. eapply Forall2_content_heap; [| | exact Hst].
    + intros s Hs. destruct Hwf1 as (_ & Hslots & _).
      pose proof (proj1 (Forall_forall _ _) Hslots s Hs) as Hswf.
      rewrite content_fresh with (n := Z.to_nat (tr_num t1)).
      * apply content_fresh with (n := Z.to_nat (tr_num t1)); assumption.
      * rewrite lookup_insert_ne by congruence. exact Hps1.
      * apply slot_wf_alloc; assumption.
    + intros s Hs. destruct Hwf2 as (_ & Hslots & _).
      pose proof (proj1 (Forall_forall _ _) Hslots s Hs) as Hswf.
      rewrite content_fresh with (n := Z.to_nat (tr_num t2)).
      * apply content_fresh with (n := Z.to_nat (tr_num t2)); assumption.
      * rewrite lookup_insert_ne by congruence. exact Hps2.
      * apply slot_wf_alloc; assumption.
  - unfold same_content, content. cbn [st_e st_er st_sub_idx cells_of tr_heap with_heap].
    rewrite lookup_insert_ne, lookup_insert_eq by congruence. rewrite lookup_insert_eq.
    rewrite lookup_insert_ne, lookup_insert_eq by congruence. rewrite lookup_insert_eq.
    unfold plain in *. cbn.
    injection Hp as _ Hbnd Hrep Hrepi Hvis Hisurf HisBnd Hn.
    rewrite Hbnd, Hrep, Hrepi, Hvis, Hisurf, HisBnd, Hn. reflexivity.
Qed.

(** *** The returned states *)

Lemma returned_keeps t t' c :
  keeps t t' -> wf t -> unowned t c ->
  unowned t' c /\ content (tr_heap t') c = content (tr_heap t) c.
Proof.
  intros Hk Hwf Hu. destruct (Hk Hwf) as (_ & Hframe & _).
  assert (Hsame : forall a, a ∈ slot_ptrs c ->
            tr_heap t' !! a = tr_heap t !! a /\ a ∉ stack_ptrs t').
  { intros a Ha. destruct (Hu a Ha) as [Hal Hns]. exact (Hframe a Hal Hns). }
  split.
  - intros a Ha. destruct (Hsame a Ha) as [Heq Hns]. destruct (Hu a Ha) as [Hal _].
    split; [rewrite Heq; exact Hal | exact Hns].
  - assert (Hcells : forall f, cells_of (tr_heap t') (fld_sel f c) = cells_of (tr_heap t) (fld_sel f c)).
    { intros f. destruct (fld_sel f c) as [a |] eqn:Hf; [| reflexivity].
      cbn. exact (proj1 (Hsame a (slot_ptrs_fld f c a Hf))). }
    unfold content.
    rewrite (Hcells FE : cells_of _ (st_e c) = _).
    rewrite (Hcells FER : cells_of _ (st_er c) = _).
    rewrite (Hcells FIDX : cells_of _ (st_sub_idx c) = _). reflexivity.
Qed.

Lemma same_returned_keeps t1 t1' t2 t2' l1 l2 :
  keeps t1 t1' -> keeps t2 t2' -> wf t1 -> wf t2 ->
  same_returned t1 t2 l1 l2 -> same_returned t1' t2' l1 l2.
Proof.
  intros Hk1 Hk2 Hwf1 Hwf2 (Hu1 & Hu2 & Hc).
  split; [| split].
  - eapply Forall_impl; [exact Hu1 |]. intros c Hu. exact (proj1 (returned_keeps _ _ _ Hk1 Hwf1 Hu)).
  - eapply Forall_impl; [exact Hu2 |]. intros c Hu. exact (proj1 (returned_keeps _ _ _ Hk2 Hwf2 Hu)).
  - eapply Forall2_content_heap; [| | exact Hc].
    + intros s Hs. apply (returned_keeps _ _ _ Hk1 Hwf1).
      exact (proj1 (Forall_forall _ _) Hu1 s Hs).
    + intros s Hs. apply (returned_keeps _ _ _ Hk2 Hwf2).
      exact (proj1 (Forall_forall _ _) Hu2 s Hs).
Qed.

Lemma same_locals_keeps t1 t1' t2 t2' lc1 lc2 :
  keeps t1 t1' -> keeps t2 t2' -> wf t1 -> wf t2 ->
  same_locals t1 t2 lc1 lc2 -> same_locals t1' t2' lc1 lc2.
Proof.
  intros Hk1 Hk2 Hwf1 Hwf2 (Hid & Hp & Hr).
  split; [exact Hid |]. split; [exact Hp |].
  exact (same_returned_keeps _ _ _ _ _ _ Hk1 Hk2 Hwf1 Hwf2 Hr).
Qed.

Lemma same_returned_snoc t1 t2 l1 l2 c1 c2 :
  same_returned t1 t2 l1 l2 -> unowned t1 c1 -> unowned t2 c2 ->
  same_content (tr_heap t1) (tr_heap t2) c1 c2 ->
  same_returned t1 t2 (l1 ++ [c1]) (l2 ++ [c2]).
Proof.
  intros (Hu1 & Hu2 & Hc) Hc1 Hc2 Hcc.
  split; [| split].
  - apply Forall_app. split; [exact Hu1 | constructor; [exact Hc1 | constructor]].
  - apply Forall_app. split; [exact Hu2 | constructor; [exact Hc2 | constructor]].
  - apply Forall2_app; [exact Hc | constructor; [exact Hcc | constructor]].
Qed.

Lemma grow_predicted_ok p t p' t' :
  grow_predicted p t = Ok (p', t') -> t' = t /\ p' = Z.quot (3 * p) 2.
Proof.
  unfold grow_predicted. intros H.
  destruct ((Z.quot (3 * p) 2 <? 2 ^ 31) && (- 2 ^ 31 <=? Z.quot (3 * p) 2)); [| discriminate].
  apply ret_ok in H as [-> ->]. split; reflexivity.
Qed.

Lemma sim_emit_leaf ONE si lc1 lc2 t1 t2 lc1' t1' lc2' t2' :
  sim t1 t2 -> same_locals t1 t2 lc1 lc2 ->
  emit_leaf ONE si lc1 t1 = Ok (lc1', t1') -> emit_leaf ONE si lc2 t2 = Ok (lc2', t2') ->
  sim t1' t2' /\ same_locals t1' t2' lc1' lc2'.
Proof.
  intros Hsim Hlc H1 H2.
  pose proof Hsim as (Hwf1 & Hwf2 & _).
  pose proof (keeps_emit_leaf ONE si lc1 _ _ _ H1) as Hk1.
  pose proof (keeps_emit_leaf ONE si lc2 _ _ _ H2) as Hk2.
  pose proof (same_locals_keeps _ _ _ _ _ _ Hk1 Hk2 Hwf1 Hwf2 Hlc) as (Hid & Hpred & Hret).
  destruct Hlc as (_ & _ & (_ & _ & Hc0)).
  assert (Hcount : lc_count lc1 = lc_count lc2).
  { unfold lc_count. rewrite (Forall2_length _ _ _ Hc0). reflexivity. }
  unfold emit_leaf in H1, H2.
  apply bind_ok in H1 as (p1 & ta1 & Hp1 & H1).
  apply bind_ok in H2 as (p2 & ta2 & Hp2 & H2).
  assert (Hp12 : p1 = p2 /\ ta1 = t1 /\ ta2 = t2).
  { rewrite <- Hcount, <- Hpred in Hp2.
    destruct (lc_predictedCount lc1 - 1 <? lc_count lc1).
    - apply grow_predicted_ok in Hp1 as [-> ->].
      apply grow_predicted_ok in Hp2 as [-> ->].
      split; [reflexivity | split; reflexivity].
    - apply ret_ok in Hp1 as [-> ->]. apply ret_ok in Hp2 as [-> ->].
      split; [reflexivity | split; reflexivity]. }
  destruct Hp12 as (<- & -> & ->).
  apply bind_ok in H1 as (u1 & tb1 & Hb1 & H1).
  apply bind_ok in H2 as (u2 & tb2 & Hb2 & H2).
  destruct (rel_set_boundary_info ONE si _ _ _ _ _ _ Hsim Hb1 Hb2) as [_ Hsimb].
  apply bind_ok in H1 as (v1 & tc1 & Hc1 & H1).
  apply bind_ok in H2 as (v2 & tc2 & Hc2 & H2).
  assert (Hsimc : sim tc1 tc2).
  { refine (proj2 (rel_update_slot si (set_rep None) _ _ _ _ _ _ _ Hsimb Hc1 Hc2)).
    solve_plain_only. }
  apply bind_ok in H1 as (w1 & td1 & Hd1 & H1).
  apply bind_ok in H2 as (w2 & td2 & Hd2 & H2).
  destruct (rel_choose_rep si _ _ _ _ _ _ Hsimc Hd1 Hd2) as [_ Hsimd].
  apply bind_ok in H1 as (s1 & te1 & Hs1 & H1).
  apply bind_ok in H2 as (s2 & te2 & Hs2 & H2).
  destruct (rel_slot si _ _ _ _ _ _ Hsimd Hs1 Hs2) as [Hplain _].
  apply slot_ok in Hs1 as [_ ->]. apply slot_ok in Hs2 as [_ ->].
  assert (Hrep : st_rep s1 = st_rep s2).
  { unfold plain in Hplain. injection Hplain as _ _ Hrep _ _ _ _ _. exact Hrep. }
  rewrite <- Hrep in H2.
  destruct (st_rep s1) as [rep |].
  - apply bind_ok in H1 as (c1 & tf1 & Hcl1 & H1).
    apply bind_ok in H2 as (c2 & tf2 & Hcl2 & H2).
    destruct (sim_clone _ _ _ _ _ _ _ _ Hsimd Hcl1 Hcl2) as (Hsimf & Hcc & Hun1 & Hun2 & _).
    rewrite <- Hcount in H2.
    destruct (lc_count lc1 <? p1); [| discriminate].
    apply ret_ok in H1 as [-> ->]. apply ret_ok in H2 as [-> ->].
    split; [exact Hsimf |]. split; [exact Hid |]. split; [reflexivity |].
    cbn [lc_states]. apply same_returned_snoc; assumption.
  - apply ret_ok in H1 as [-> ->]. apply ret_ok in H2 as [-> ->].
    split; [exact Hsimd |]. split; [exact Hid |]. split; [reflexivity |]. exact Hret.
Qed.

Lemma sim_finish_state ONE dflt si lc1 lc2 t1 t2 lc1' t1' lc2' t2' :
  sim t1 t2 -> same_locals t1 t2 lc1 lc2 ->
  finish_state ONE dflt si lc1 t1 = Ok (Continue lc1', t1') ->
  finish_state ONE dflt si lc2 t2 = Ok (Continue lc2', t2') ->
  sim t1' t2' /\ same_locals t1' t2' lc1' lc2'.
Proof.
  intros Hsim Hlc H1 H2.
  pose proof Hsim as (Hwf1 & Hwf2 & _).
  pose proof (keeps_finish_state ONE dflt si lc1 _ _ _ H1) as Hk1.
  pose proof (keeps_finish_state ONE dflt si lc2 _ _ _ H2) as Hk2.
  unfold finish_state in H1, H2.
  apply bind_ok in H1 as (n1 & ta1 & Hn1 & H1).
  apply bind_ok in H2 as (n2 & ta2 & Hn2 & H2).
  destruct (rel_gets_num _ _ _ _ _ _ Hsim Hn1 Hn2) as [<- Hsima].
  apply bind_ok in H1 as (leaf1 & tb1 & Hl1 & H1).
  apply bind_ok in H2 as (leaf2 & tb2 & Hl2 & H2).
  destruct (rel_is_leaf _ si 0 _ _ _ _ _ _ Hsima Hl1 Hl2) as [<- Hsimb].
  assert (Hlcb : same_locals tb1 tb2 lc1 lc2).
  { apply gets_ok in Hn1 as [_ ->]. apply gets_ok in Hn2 as [_ ->].
    eapply same_locals_keeps; [| | exact Hwf1 | exact Hwf2 | exact Hlc].
    - exact (respects_is_leaf keeps _ _ _ _ _ _ Hl1).
    - exact (respects_is_leaf keeps _ _ _ _ _ _ Hl2). }
  destruct leaf1.
  - apply bind_ok in H1 as (x1 & tc1 & He1 & H1).
    apply bind_ok in H2 as (x2 & tc2 & He2 & H2).
    apply ret_ok in H1 as [[= ->] ->]. apply ret_ok in H2 as [[= ->] ->].
    exact (sim_emit_leaf _ _ _ _ _ _ _ _ _ _ Hsimb Hlcb He1 He2).
  - apply bind_ok in H1 as (x1 & tc1 & He1 & H1).
    apply bind_ok in H2 as (x2 & tc2 & He2 & H2).
    apply ret_ok in H1 as [[= ->] ->]. apply ret_ok in H2 as [[= ->] ->].
    destruct (rel_push_sons dflt si _ _ _ _ _ _ Hsimb He1 He2) as [_ Hsimc].
    split; [exact Hsimc |].
    exact (same_locals_keeps _ _ _ _ _ _ Hk1 Hk2 Hwf1 Hwf2 Hlc).
Qed.

(** *** The loop and [get_states] *)

Lemma select_state_id ONE meshes lc1 lc2 :
  lc_id lc1 = lc_id lc2 -> select_state ONE meshes lc1 = select_state ONE meshes lc2.
Proof. intros H. unfold select_state. rewrite H. reflexivity. Qed.

Lemma sim_get_states_loop ONE dflt meshes n1 :
  forall n2 lc1 lc2 t1 t2 l1 t1' l2 t2',
    sim t1 t2 -> same_locals t1 t2 lc1 lc2 ->
    get_states_loop ONE dflt n1 meshes lc1 t1 = Ok (l1, t1') ->
    get_states_loop ONE dflt n2 meshes lc2 t2 = Ok (l2, t2') ->
    same_returned t1' t2' l1 l2.
Proof.
  induction n1 as [| n1 IH]; intros n2 lc1 lc2 t1 t2 l1 t1' l2 t2' Hsim Hlc H1 H2;
    [discriminate H1 |].
  destruct n2 as [| n2]; [discriminate H2 |].
  apply get_states_loop_step in H1 as (sel1 & ts1 & Hsel1 & H1).
  apply get_states_loop_step in H2 as (sel2 & ts2 & Hsel2 & H2).
  pose proof Hsim as (Hwf1 & Hwf2 & _).
  pose proof Hlc as (Hid & Hpred & Hret).
  pose proof (keeps_select_state ONE meshes lc1 _ _ _ Hsel1) as Hk1.
  pose proof (keeps_select_state ONE meshes lc2 _ _ _ Hsel2) as Hk2.
  rewrite (select_state_id ONE meshes lc2 lc1 (eq_sym Hid)) in Hsel2.
  destruct (rel_select_state ONE meshes lc1 _ _ _ _ _ _ Hsim Hsel1 Hsel2) as [<- Hsims].
  pose proof (same_returned_keeps _ _ _ _ _ _ Hk1 Hk2 Hwf1 Hwf2 Hret) as Hrets.
  destruct sel1 as [[si id] |].
  - destruct H1 as (ta1 & lc1' & tb1 & Hent1 & Hfin1 & Hrest1).
    destruct H2 as (ta2 & lc2' & tb2 & Hent2 & Hfin2 & Hrest2).
    pose proof Hsims as (Hwfs1 & Hwfs2 & _).
    destruct (rel_enter_state n1 n2 si _ _ _ _ _ _ Hsims Hent1 Hent2) as [_ Hsima].
    pose proof (keeps_enter_state _ _ _ _ _ Hent1) as Hka1.
    pose proof (keeps_enter_state _ _ _ _ _ Hent2) as Hka2.
    pose proof (same_returned_keeps _ _ _ _ _ _ Hka1 Hka2 Hwfs1 Hwfs2 Hrets) as Hreta.
    assert (Hlca : same_locals ta1 ta2
                     (mkLocals id (lc_states lc1) (lc_predictedCount lc1))
                     (mkLocals id (lc_states lc2) (lc_predictedCount lc2))).
    { split; [reflexivity |]. split; [exact Hpred | exact Hreta]. }
    destruct (sim_finish_state _ _ _ _ _ _ _ _ _ _ _ Hsima Hlca Hfin1 Hfin2) as [Hsimb Hlcb].
    exact (IH n2 _ _ _ _ _ _ _ _ Hsimb Hlcb Hrest1 Hrest2).
  - injection H1 as -> ->. injection H2 as -> ->. exact Hrets.
Qed.

Lemma content_zero_State h1 h2 : same_content h1 h2 zero_State zero_State.
Proof. reflexivity. Qed.

Lemma sim_begin n t1 t2 u1 t1' u2 t2' :
  tr_spaces_size t1 = tr_spaces_size t2 ->
  begin n t1 = Ok (u1, t1') -> begin n t2 = Ok (u2, t2') -> sim t1' t2'.
Proof.
  intros Hsp H1 H2.
  apply begin_wf in H1 as (Hwf1 & Hn1 & _ & Hs1 & Ht1 & _ & Hp1 & Hst1).
  apply begin_wf in H2 as (Hwf2 & Hn2 & _ & Hs2 & Ht2 & _ & Hp2 & Hst2).
  split; [exact Hwf1 |]. split; [exact Hwf2 |].
  split; [congruence |]. split; [congruence |]. split; [congruence |]. split; [congruence |].
  rewrite Hst1, Hst2. apply Forall2_replicate. apply content_zero_State.
Qed.

(** Two runs of [get_states] over the same meshes, from [Traverse]
    objects with the same [spaces_size] and whatever else, return
    sequences of the same length whose states hold the same. *)
Lemma get_states_same_content ONE dflt meshes meshes_count n1 n2 t1 t2 l1 t1' l2 t2' :
  tr_spaces_size t1 = tr_spaces_size t2 ->
  get_states ONE dflt n1 meshes meshes_count t1 = Ok (l1, t1') ->
  get_states ONE dflt n2 meshes meshes_count t2 = Ok (l2, t2') ->
  same_returned t1' t2' l1 l2.
Proof.
  intros Hsp H1 H2. unfold get_states in H1, H2.
  apply bind_ok in H1 as (u1 & ta1 & Ha1 & H1). injection Ha1 as _ <-.
  apply bind_ok in H2 as (u2 & ta2 & Ha2 & H2). injection Ha2 as _ <-.
  apply bind_ok in H1 as (p1 & tb1 & Hp1 & H1). apply lift_ok in Hp1 as [Hp1 ->].
  apply bind_ok in H2 as (p2 & tb2 & Hp2 & H2). apply lift_ok in Hp2 as [Hp2 ->].
  assert (p2 = p1) by congruence. subst p2.
  apply bind_ok in H1 as (m1 & tc1 & Hm1 & H1). apply gets_ok in Hm1 as [-> ->].
  apply bind_ok in H2 as (m2 & tc2 & Hm2 & H2). apply gets_ok in Hm2 as [-> ->].
  apply bind_ok in H1 as (v1 & td1 & Hb1 & H1).
  apply bind_ok in H2 as (v2 & td2 & Hb2 & H2).
  cbn [tr_num with_num] in Hb1, Hb2.
  assert (Hsim : sim td1 td2) by (eapply sim_begin; [| exact Hb1 | exact Hb2]; exact Hsp).
  eapply sim_get_states_loop; [exact Hsim | | exact H1 | exact H2].
  split; [reflexivity |]. split; [reflexivity |].
  split; [constructor | split; constructor].
Qed.

(** ** Determinism and order of [get_states] *)

Lemma get_states_descent_mono ONE dflt f f' meshes meshes_count :
  (f <= f')%nat ->
  refines (get_states_descent ONE dflt f meshes meshes_count)
          (get_states_descent ONE dflt f' meshes meshes_count).
Proof.
  intros Hle. unfold get_states_descent.
  apply refines_bind; [apply refines_refl |]. intros _.
  apply refines_bind; [apply refines_refl |]. intros predicted.
  apply refines_bind; [apply refines_refl |]. intros num.
  apply refines_bind; [apply refines_refl |]. intros _.
  apply traverse_bases_mono. exact Hle.
Qed.

Lemma get_states_descent_unique ONE dflt meshes meshes_count t f1 f2 r1 r2 :
  get_states_descent ONE dflt f1 meshes meshes_count t = Ok r1 ->
  get_states_descent ONE dflt f2 meshes meshes_count t = Ok r2 -> r1 = r2.
Proof.
  intros H1 H2.
  apply (get_states_descent_mono ONE dflt f1 (Nat.max f1 f2) meshes meshes_count
           ltac:(lia)) in H1.
  apply (get_states_descent_mono ONE dflt f2 (Nat.max f1 f2) meshes meshes_count
           ltac:(lia)) in H2.
  congruence.
Qed.

(** * Further properties of the traversal code *)

(** ** Rectangles and sub-element addresses *)

(** X1.  [move_to_son]: a horizontal cut followed by a vertical one gives
    the quadrant, (4, 6) son 0, (4, 7) son 1, (5, 7) son 2 and (5, 6)
    son 3; the two cuts commute; and a son code outside 0..7 leaves the
    rectangle as it is, the [switch] having no default. *)
Theorem move_to_son_halves_compose (r : Rect) :
  move_to_son (move_to_son r 4) 6 = move_to_son r 0 /\
  move_to_son (move_to_son r 4) 7 = move_to_son r 1 /\
  move_to_son (move_to_son r 5) 7 = move_to_son r 2 /\
  move_to_son (move_to_son r 5) 6 = move_to_son r 3 /\
  (forall h v, (h = 4 \/ h = 5) -> (v = 6 \/ v = 7) ->
     move_to_son (move_to_son r h) v = move_to_son (move_to_son r v) h) /\
  (forall son, ~ son_code son -> move_to_son r son = r).
Proof.
  destruct r as [l b rr tt0].
  split; [reflexivity |]. split; [reflexivity |]. split; [reflexivity |].
  split; [reflexivity |]. split.
  - intros h v [-> | ->] [-> | ->]; reflexivity.
  - intros son Hson. unfold son_code in Hson.
    destruct son as [| p | p]; [lia | | reflexivity].
    destruct p as [[[p | p |] | [p | p |] |] | [[p | p |] | [p | p |] |] |];
      try reflexivity; lia.
Qed.

Lemma move_to_son_halves_compose_witness :
  move_to_son ex_unity (-1) = ex_unity /\ move_to_son ex_unity 8 = ex_unity.
Proof.
  split; apply (proj2 (proj2 (proj2 (proj2 (proj2 (move_to_son_halves_compose ex_unity))))));
    unfold son_code; lia.
Defined.

(** The two if-chains select the same son, although they test the cuts
    in different orders. *)
Lemma transforms_son_idx_son cr x : transforms_son cr x = idx_son cr x.
Proof.
  unfold transforms_son, idx_son.
  destruct (r_r cr <=? hmid_of x), (r_t cr <=? vmid_of x),
           (hmid_of x <=? r_l cr), (vmid_of x <=? r_b cr); reflexivity.
Qed.

Lemma transforms_son_range cr x son : transforms_son cr x = Some son -> 0 <= son <= 7.
Proof.
  unfold transforms_son.
  repeat match goal with
         | |- context [if ?b then _ else _] => destruct b
         end; intros [= <-]; lia.
Qed.

Lemma init_transforms_loop_idx fuel : forall si i x t t' s v,
  0 <= i < 256 ->
  zlookup (tr_stack t) si = Some s ->
  get_sub_idx si i t = Ok (v, t) ->
  init_transforms_loop fuel si i x t = Ok (tt, t') ->
  exists idx x', init_idx_loop fuel (st_cr s) x v = Ok (idx, x') /\
                 get_sub_idx si i t' = Ok (idx, t').
Proof.
  induction fuel as [| fuel IH]; intros si i x t t' s v Hi Hs Hv H.
  - cbn [init_transforms_loop] in H. apply bind_ok in H as (s0 & t0 & Hs0 & H).
    apply slot_ok in Hs0 as [Hs0 ->]. assert (s0 = s) by congruence. subst s0.
    cbn [init_idx_loop].
    destruct (rect_mismatch (st_cr s) x); [discriminate |].
    apply ret_ok in H as [_ ->]. exists v, x. split; [reflexivity | exact Hv].
  - cbn [init_transforms_loop] in H. apply bind_ok in H as (s0 & t0 & Hs0 & H).
    apply slot_ok in Hs0 as [Hs0 ->]. assert (s0 = s) by congruence. subst s0.
    cbn [init_idx_loop].
    destruct (rect_mismatch (st_cr s) x).
    + rewrite <- transforms_son_idx_son.
      destruct (transforms_son (st_cr s) x) as [son |] eqn:Hson; [| discriminate].
      apply transforms_son_range in Hson.
      apply bind_ok in H as (tri & t1 & Htri & H).
      pose proof (respects_eq_State_is_triangle si _ _ _ Htri) as ->.
      apply bind_ok in H as (u & t2 & Hpush & H).
      destruct (push_transform_sub_idx si son i tri t1 v ltac:(lia) Hi Hv)
        as (t2' & Hpush' & Hv').
      assert (t2' = t2) by congruence. subst t2'. destruct u.
      destruct (slots_rel_lookup _ _ _ _ _
                  (respects_same_cr_push_transform si son i tri _ _ _ Hpush) Hs)
        as (s2 & Hs2 & Hcr).
      unfold same_cr in Hcr. rewrite <- Hcr.
      exact (IH si i (move_to_son x son) t2 t' s2 (push_idx v son) Hi Hs2 Hv' H).
    + apply ret_ok in H as [_ ->]. exists v, x. split; [reflexivity | exact Hv].
Qed.

(** X2.  When [init_transforms(s, i)] returns for a mesh whose
    [sub_idx[i]] was 0, as in [get_states], it leaves in [sub_idx[i]] the
    address that [init_idx(&s->cr, s->er + i)] returns with the same
    number of iterations: the two loops encode the same path. *)
Theorem init_transforms_matches_init_idx (fuel : nat) (si i : Z) (t t' : Traverse)
        (s : State) (er : Rect) :
  zlookup (tr_stack t) si = Some s ->
  get_er si (wrap8 i) t = Ok (er, t) ->
  get_sub_idx si (wrap8 i) t = Ok (0, t) ->
  init_transforms fuel si i t = Ok (tt, t') ->
  exists idx, init_idx fuel (st_cr s) er = Ok idx /\
              get_sub_idx si (wrap8 i) t' = Ok (idx, t').
Proof.
  intros Hs Her Hv H. unfold init_transforms in H.
  apply bind_ok in H as (x & t0 & Hx & H).
  assert (x = er /\ t0 = t) as [-> ->] by (rewrite Her in Hx; inversion Hx; split; reflexivity).
  assert (Hi : 0 <= wrap8 i < 256) by (unfold wrap8; apply Z.mod_pos_bound; lia).
  destruct (init_transforms_loop_idx fuel si (wrap8 i) er t t' s 0 Hi Hs Hv H)
    as (idx & x' & Hidx & Hv').
  exists idx. split; [| exact Hv']. unfold init_idx. rewrite Hidx. reflexivity.
Qed.

Lemma init_transforms_matches_init_idx_witness :
  exists t' idx,
    init_transforms 5 0 0 ex_quad_state = Ok (tt, t') /\
    init_idx 5 (move_to_son ex_unity 0) ex_unity = Ok idx /\
    get_sub_idx 0 (wrap8 0) t' = Ok (idx, t').
Proof.
  destruct (init_transforms 5 0 0 ex_quad_state) as [[[] t'] | e] eqn:H;
    [| vm_compute in H; discriminate H].
  destruct (init_transforms_matches_init_idx 5 0 0 ex_quad_state t'
              ex_quad_slot ex_unity eq_refl eq_refl eq_refl H) as (idx & Hidx & Hv).
  exists t', idx. split; [reflexivity |]. split; [exact Hidx | exact Hv].
Defined.

(** ** Boundary flags *)

Lemma push_transform_stack si son i tri t t' s :
  zlookup (tr_stack t) si = Some s ->
  push_transform si son i tri t = Ok (tt, t') ->
  tr_stack t' =
    <[Z.to_nat si := set_bnd (push_bnd (st_bnd s) (wrap8 son) tri) s]> (tr_stack t).
Proof.
  intros Hs H. unfold push_transform in H.
  apply bind_ok in H as (v & t0 & Hv & H). apply get_sub_idx_spec in Hv as [-> _].
  apply bind_ok in H as (u & t1 & Hput & H). unfold put_sub_idx in Hput.
  apply bind_ok in Hput as (s0 & t0 & Hs0 & Hput). apply slot_ok in Hs0 as [Hs0 ->].
  apply store_ok in Hput as (a & arr & _ & _ & _ & ->).
  apply update_slot_ok in H as (s1 & Hs1 & ->). cbn in Hs1 |- *.
  assert (s1 = s) by congruence. subst s1. reflexivity.
Qed.

(** X3.  [State::push_transform] never sets a boundary flag: a flag that
    is true afterwards was true before.  For a triangle, a son code of 3
    or more clears all four flags. *)
Theorem push_transform_only_clears_flags (si son i : Z) (tri : bool) (t t' : Traverse)
        (s : State) :
  zlookup (tr_stack t) si = Some s ->
  push_transform si son i tri t = Ok (tt, t') ->
  exists s', zlookup (tr_stack t') si = Some s' /\
    (bnd0 (st_bnd s') = true -> bnd0 (st_bnd s) = true) /\
    (bnd1 (st_bnd s') = true -> bnd1 (st_bnd s) = true) /\
    (bnd2 (st_bnd s') = true -> bnd2 (st_bnd s) = true) /\
    (bnd3 (st_bnd s') = true -> bnd3 (st_bnd s) = true) /\
    (tri = true -> 3 <= wrap8 son -> st_bnd s' = bnd_all false).
Proof.
  intros Hs H. pose proof (push_transform_stack _ _ _ _ _ _ _ Hs H) as Hst.
  exists (set_bnd (push_bnd (st_bnd s) (wrap8 son) tri) s). split.
  - rewrite Hst. apply zlookup_Some in Hs as [Hsi Hs]. apply zlookup_Some.
    split; [exact Hsi |]. apply list_lookup_insert_eq. eapply lookup_lt_Some. exact Hs.
  - cbn [st_bnd set_bnd]. unfold push_bnd. destruct tri.
    + destruct (Z.ltb_spec (wrap8 son) 3) as [Hlt | Hge].
      * destruct (wrap8 son) as [| [[|  |] | [|  |] |] |]; cbn;
          repeat split; try (intros; assumption); try discriminate; intros; lia.
      * cbn. repeat split; discriminate.
    + cbn [bnd0 bnd1 bnd2 bnd3]. repeat split; try discriminate;
        intros Hb; apply andb_true_iff in Hb as [Hb _]; exact Hb.
Qed.

Lemma push_transform_only_clears_flags_witness :
  exists s', zlookup (tr_stack (snd (run_from (push_transform 0 3 0 true) ex_one_slot tt))) 0
             = Some s' /\ st_bnd s' = bnd_all false.
Proof.
  destruct (zlookup (tr_stack ex_one_slot) 0) as [s |] eqn:Hs; [| discriminate Hs].
  destruct (push_transform_only_clears_flags 0 3 0 true ex_one_slot
              (snd (run_from (push_transform 0 3 0 true) ex_one_slot tt)) s Hs eq_refl)
    as (s' & Hs' & _ & _ & _ & _ & Hall).
  exists s'. split; [exact Hs' |]. apply Hall; [reflexivity | vm_compute; discriminate].
Defined.

(** X4.  On a quadrilateral the table of [State::push_transform] agrees
    with the geometry of [move_to_son]: when both midpoints lie strictly
    inside the rectangle, the flag of an edge survives the push of a son
    exactly when the rectangle of that son keeps the corresponding side
    (0 bottom, 1 right, 2 top, 3 left). *)
Theorem quad_flags_follow_rectangle (bnd : Bnd) (r : Rect) (son : Z) :
  son_code son ->
  r_l r < hmid_of r < r_r r -> r_b r < vmid_of r < r_t r ->
  bnd0 (push_bnd bnd son false) = bnd0 bnd && (r_b (move_to_son r son) =? r_b r) /\
  bnd1 (push_bnd bnd son false) = bnd1 bnd && (r_r (move_to_son r son) =? r_r r) /\
  bnd2 (push_bnd bnd son false) = bnd2 bnd && (r_t (move_to_son r son) =? r_t r) /\
  bnd3 (push_bnd bnd son false) = bnd3 bnd && (r_l (move_to_son r son) =? r_l r).
Proof.
  intros Hson Hh Hv. unfold son_code in Hson.
  assert (Hl : (hmid_of r =? r_l r) = false) by (apply Z.eqb_neq; lia).
  assert (Hr : (hmid_of r =? r_r r) = false) by (apply Z.eqb_neq; lia).
  assert (Hb : (vmid_of r =? r_b r) = false) by (apply Z.eqb_neq; lia).
  assert (Ht : (vmid_of r =? r_t r) = false) by (apply Z.eqb_neq; lia).
  assert (Hcases : son = 0 \/ son = 1 \/ son = 2 \/ son = 3 \/
                   son = 4 \/ son = 5 \/ son = 6 \/ son = 7) by lia.
  destruct Hcases as [-> | [-> | [-> | [-> | [-> | [-> | [-> | ->]]]]]]];
    cbn [push_bnd move_to_son bnd0 bnd1 bnd2 bnd3 r_l r_b r_r r_t in_sons existsb Z.eqb
         Pos.eqb orb];
    rewrite ?Z.eqb_refl, ?Hl, ?Hr, ?Hb, ?Ht, ?andb_true_r, ?andb_false_r;
    repeat split; reflexivity.
Qed.

Lemma quad_flags_follow_rectangle_witness :
  bnd0 (push_bnd (bnd_all true) 6 false)
    = bnd0 (bnd_all true) && (r_b (move_to_son ex_unity 6) =? r_b ex_unity) /\
  bnd1 (push_bnd (bnd_all true) 6 false)
    = bnd1 (bnd_all true) && (r_r (move_to_son ex_unity 6) =? r_r ex_unity) /\
  bnd2 (push_bnd (bnd_all true) 6 false)
    = bnd2 (bnd_all true) && (r_t (move_to_son ex_unity 6) =? r_t ex_unity) /\
  bnd3 (push_bnd (bnd_all true) 6 false)
    = bnd3 (bnd_all true) && (r_l (move_to_son ex_unity 6) =? r_l ex_unity).
Proof.
  apply (quad_flags_follow_rectangle (bnd_all true) ex_unity 6).
  - unfold son_code. lia.
  - vm_compute. split; reflexivity.
  - vm_compute. split; reflexivity.
Defined.

Lemma and_then_flag_ok a fl k t b t' :
  and_then a (flag_at fl k) t = Ok (b, t') ->
  t' = t /\ (b = true -> a = true /\ zlookup fl k = Some true).
Proof.
  unfold and_then, flag_at. destruct a.
  - destruct (zlookup fl k) as [v |]; [| discriminate].
    intros H. apply ret_ok in H as [-> ->]. split; [reflexivity |].
    intros ->. split; reflexivity.
  - intros H. apply ret_ok in H as [-> ->]. split; [reflexivity | discriminate].
Qed.

Lemma or_else_ok a (c : M bool) t b t' :
  respects eq c -> or_else a c t = Ok (b, t') -> t = t' /\ (a = true -> b = true).
Proof.
  intros Hc. unfold or_else. destruct a.
  - intros H. apply ret_ok in H as [-> ->]. split; reflexivity.
  - intros H. split; [exact (Hc _ _ _ H) | discriminate].
Qed.

(** X5.  When [set_boundary_info(s)] returns, some [s->e[i]] is non-null
    and the first of them decided the flags: a flag that is true
    afterwards was true before and belongs to a boundary edge of that
    element, on a quadrilateral only when the side of [cr] lies on the
    border of the base element; [isBnd] is set as soon as such a flag is;
    no array is written. *)
Theorem set_boundary_info_flags (ONE si : Z) (t t' : Traverse) (s : State) :
  zlookup (tr_stack t) si = Some s ->
  set_boundary_info ONE si t = Ok (tt, t') ->
  boundary_info_set ONE si t s t'.
Proof.
  intros Hs H. unfold boundary_info_set. unfold set_boundary_info in H.
  apply bind_ok in H as (num & t0 & Hg & H). apply gets_ok in Hg as [-> ->].
  apply bind_ok in H as (p & t0 & Hfirst & H).
  pose proof (respects_first_element eq _ _ _ _ _ _ Hfirst) as Heq. subst t0.
  destruct p as [e |]; [| discriminate H].
  apply bind_ok in H as (e0 & t0 & He & H). apply ret_ok in He as [-> ->].
  apply bind_ok in H as (s0 & t0 & Hs0 & H). apply slot_ok in Hs0 as [Hs0 ->].
  assert (s0 = s) by congruence. subst s0.
  assert (Hslot : forall x, zlookup (<[Z.to_nat si := x]> (tr_stack t)) si = Some x).
  { intros x. apply zlookup_Some in Hs as [Hsi Hs]. apply zlookup_Some.
    split; [exact Hsi |]. apply list_lookup_insert_eq. eapply lookup_lt_Some. exact Hs. }
  exists e. unfold nvert. destruct (el_is_triangle e) eqn:Htri.
  - apply bind_ok in H as (b0 & t0 & H0 & H). apply and_then_flag_ok in H0 as [-> H0].
    apply bind_ok in H as (b1 & t0 & H1 & H). apply and_then_flag_ok in H1 as [-> H1].
    apply bind_ok in H as (b2 & t0 & H2 & H). apply and_then_flag_ok in H2 as [-> H2].
    apply bind_ok in H as (ib & t0 & Hib & H).
    apply or_else_ok in Hib as [<- Hib]; [| respects_auto].
    apply update_slot_ok in H as (s1 & Hs1 & ->).
    assert (s1 = s) by congruence. subst s1.
    eexists. split; [exact Hfirst |]. split; [cbn [tr_stack with_stack]; apply Hslot |]. split; [reflexivity |].
    cbn [st_bnd st_isBnd set_isBnd set_bnd st_cr]. split; [| split; [reflexivity |]].
    + intros k Hk. unfold bnd_at in *.
      destruct k as [| [[| |] | [| |] |] |]; cbn in Hk |- *; try discriminate Hk.
      * destruct (H0 Hk) as [Ha Hb]. split; [exact Ha |]. split; [intros _; exact Hb | discriminate].
      * split; [exact Hk |]. split; [lia | discriminate].
      * destruct (H2 Hk) as [Ha Hb]. split; [exact Ha |]. split; [intros _; exact Hb | discriminate].
      * destruct (H1 Hk) as [Ha Hb]. split; [exact Ha |]. split; [intros _; exact Hb | discriminate].
    + intros k Hk Hb. apply Hib. unfold bnd_at in Hb.
      assert (Hcases : k = 0 \/ k = 1 \/ k = 2) by lia.
      destruct Hcases as [-> | [-> | ->]]; cbn in Hb; rewrite Hb;
        rewrite ?orb_true_r; reflexivity.
  - apply bind_ok in H as (b0 & t0 & H0 & H). apply and_then_flag_ok in H0 as [-> H0].
    apply bind_ok in H as (b1 & t0 & H1 & H). apply and_then_flag_ok in H1 as [-> H1].
    apply bind_ok in H as (b2 & t0 & H2 & H). apply and_then_flag_ok in H2 as [-> H2].
    apply bind_ok in H as (b3 & t0 & H3 & H). apply and_then_flag_ok in H3 as [-> H3].
    apply bind_ok in H as (ib & t0 & Hib & H).
    apply or_else_ok in Hib as [<- Hib]; [| respects_auto].
    apply update_slot_ok in H as (s1 & Hs1 & ->).
    assert (s1 = s) by congruence. subst s1.
    eexists. split; [exact Hfirst |]. split; [cbn [tr_stack with_stack]; apply Hslot |]. split; [reflexivity |].
    cbn [st_bnd st_isBnd set_isBnd set_bnd st_cr]. split; [| split; [discriminate |]].
    + intros k Hk. unfold bnd_at, on_border in *.
      destruct k as [| [[| |] | [| |] |] |]; cbn in Hk |- *; try discriminate Hk.
      * destruct (H0 Hk) as [Ha Hb]. apply andb_true_iff in Ha as [Ha Hc].
        split; [exact Ha |]. split; [intros _; exact Hb | intros _; lia].
      * destruct (H3 Hk) as [Ha Hb]. apply andb_true_iff in Ha as [Ha Hc].
        split; [exact Ha |]. split; [intros _; exact Hb | intros _; lia].
      * destruct (H2 Hk) as [Ha Hb]. apply andb_true_iff in Ha as [Ha Hc].
        split; [exact Ha |]. split; [intros _; exact Hb | intros _; lia].
      * destruct (H1 Hk) as [Ha Hb]. apply andb_true_iff in Ha as [Ha Hc].
        split; [exact Ha |]. split; [intros _; exact Hb | intros _; lia].
    + intros k Hk Hb. apply Hib. unfold bnd_at in Hb.
      assert (Hcases : k = 0 \/ k = 1 \/ k = 2 \/ k = 3) by lia.
      destruct Hcases as [-> | [-> | [-> | ->]]]; cbn in Hb; rewrite Hb;
        rewrite ?orb_true_r; reflexivity.
Qed.

Lemma set_boundary_info_flags_witness :
  boundary_info_set ex_ONE 0 ex_quad_state ex_quad_slot
    (snd (run_from (set_boundary_info ex_ONE 0) ex_quad_state tt)).
Proof.
  apply (set_boundary_info_flags ex_ONE 0 ex_quad_state).
  - reflexivity.
  - vm_compute. reflexivity.
Defined.

(** ** The compatibility test and the base elements *)

Lemma testMeshesCompliance_loop_accepts k : forall meshes b i,
  0 <= i -> i + Z.of_nat k <= Z.of_nat (length meshes) ->
  (testMeshesCompliance_loop k meshes b i = Ok tt <->
   forall j m, i <= j < i + Z.of_nat k -> zlookup meshes j = Some m -> mesh_num_base m = b) /\
  (testMeshesCompliance_loop k meshes b i = Ok tt \/
   testMeshesCompliance_loop k meshes b i
     = Err (Exception "Meshes not compatible in Traverse::begin().")).
Proof.
  induction k as [| k IH]; intros meshes b i Hi Hlen.
  - cbn. split; [| left; reflexivity]. split; [intros _ j m Hj; lia | reflexivity].
  - cbn [testMeshesCompliance_loop]. unfold mesh_at.
    destruct (zlookup meshes i) as [m |] eqn:Hm.
    + destruct (Z.eqb_spec b (mesh_num_base m)) as [Heq | Hne]; cbn [negb].
      * destruct (IH meshes b (i + 1) ltac:(lia) ltac:(lia)) as [Hiff Hor].
        split; [| exact Hor]. rewrite Hiff. split.
        -- intros Hall j m' Hj Hm'. destruct (Z.eq_dec j i) as [-> | Hji].
           ++ congruence.
           ++ apply (Hall j m'); [lia | exact Hm'].
        -- intros Hall j m' Hj Hm'. apply (Hall j m'); [lia | exact Hm'].
      * split; [| right; reflexivity]. split; [discriminate |].
        intros Hall. exfalso. apply Hne. symmetry. apply (Hall i m); [lia | exact Hm].
    + exfalso. unfold zlookup in Hm. destruct (Z.ltb_spec i 0); [lia |].
      apply lookup_ge_None in Hm. lia.
Qed.

(** X6.  With [n] meshes at hand, [testMeshesCompliance(n, meshes)]
    returns exactly when each of the meshes 1 .. n-1 has as many base
    elements as mesh 0, and otherwise throws its exception; with one mesh
    it always returns. *)
Theorem testMeshesCompliance_accepts_iff (n : Z) (meshes : list Mesh) (m0 : Mesh) :
  zlookup meshes 0 = Some m0 ->
  n <= Z.of_nat (length meshes) ->
  (testMeshesCompliance n meshes = Ok tt <->
   forall j m, 1 <= j < n -> zlookup meshes j = Some m ->
               mesh_num_base m = mesh_num_base m0) /\
  (testMeshesCompliance n meshes = Ok tt \/
   testMeshesCompliance n meshes
     = Err (Exception "Meshes not compatible in Traverse::begin().")).
Proof.
  intros Hm0 Hn. unfold testMeshesCompliance, mesh_at. rewrite Hm0.
  assert (Hlen : 1 <= Z.of_nat (length meshes)).
  { destruct meshes; [discriminate Hm0 | cbn [length]; lia]. }
  destruct (testMeshesCompliance_loop_accepts (Z.to_nat (n - 1)) meshes (mesh_num_base m0) 1
              ltac:(lia) ltac:(lia)) as [Hiff Hor].
  split; [| exact Hor]. rewrite Hiff. split.
  - intros Hall j m Hj. apply Hall. lia.
  - intros Hall j m Hj. apply Hall. lia.
Qed.

Lemma testMeshesCompliance_accepts_iff_witness :
  testMeshesCompliance 2 [ex_mesh_leaf; ex_mesh_two]
    = Err (Exception "Meshes not compatible in Traverse::begin().").
Proof.
  destruct (testMeshesCompliance_accepts_iff 2 [ex_mesh_leaf; ex_mesh_two] ex_mesh_leaf
              eq_refl ltac:(cbn; lia)) as [Hiff [Hok | Herr]]; [| exact Herr].
  exfalso. pose proof (proj1 Hiff Hok 1 ex_mesh_two ltac:(lia) eq_refl) as H.
  vm_compute in H. discriminate H.
Defined.

#[local] Instance same_num_preorder : PreOrder same_num.
Proof.
  split; [intros t; reflexivity |].
  intros t1 t2 t3 H12 H23. unfold same_num in *. congruence.
Qed.

Lemma same_num_store p i c : respects same_num (store p i c).
Proof. intros t u t' H. apply store_ok in H as (a & arr & _ & _ & _ & ->). reflexivity. Qed.

Lemma same_num_update_slot i f : respects same_num (update_slot i f).
Proof. intros t u t' H. apply update_slot_ok in H as (s & _ & ->). reflexivity. Qed.

Lemma same_num_put_e si i v : respects same_num (put_e si i v).
Proof. unfold put_e. respects_auto. apply same_num_store. Qed.

Lemma same_num_put_er si i v : respects same_num (put_er si i v).
Proof. unfold put_er. respects_auto. apply same_num_store. Qed.

Lemma same_num_put_sub_idx si i v : respects same_num (put_sub_idx si i v).
Proof. unfold put_sub_idx. respects_auto. apply same_num_store. Qed.

#[local] Hint Resolve same_num_store same_num_update_slot same_num_put_e same_num_put_er
  same_num_put_sub_idx : respects_db.

Lemma same_num_load_base_element ONE n : forall meshes si id i nused,
  respects same_num (load_base_element ONE n meshes si id i nused).
Proof. induction n as [| n IH]; intros meshes si id i nused; simpl; respects_auto. Qed.

(** What the loop over the meshes counts. *)
Lemma load_base_element_count ONE n : forall meshes si id i nused t r t',
  load_base_element ONE n meshes si id i nused t = Ok (r, t') ->
  nused <= r /\
  (r = nused -> forall k, i <= k < i + Z.of_nat n -> element_used meshes id k false) /\
  (nused < r -> exists k, i <= k < i + Z.of_nat n /\ element_used meshes id k true).
Proof.
  induction n as [| n IH]; intros meshes si id i nused t r t' H.
  - apply ret_ok in H as [-> _]. split; [lia |]. split; [intros _ k Hk; lia | lia].
  - cbn [load_base_element] in H.
    apply bind_ok in H as (m & t0 & Hm & H). apply lift_ok in Hm as [Hm ->].
    apply bind_ok in H as (e & t0 & He & H). apply lift_ok in He as [He ->].
    unfold mesh_at in Hm. destruct (zlookup meshes i) as [m' |] eqn:Hmi; [| discriminate Hm].
    injection Hm as ->.
    unfold get_element in He.
    destruct (zlookup (mesh_elements m) id) as [e' |] eqn:Hei; [| discriminate He].
    injection He as ->.
    apply bind_ok in H as (u & t1 & _ & H).
    destruct (el_used e) eqn:Hu; cbn [negb] in H.
    + apply bind_ok in H as (u1 & t2 & _ & H). apply bind_ok in H as (u2 & t3 & _ & H).
      apply IH in H as (Hle & _ & _). split; [lia |]. split; [lia |].
      intros _. exists i. split; [lia |]. exists m, e. repeat split; assumption.
    + apply bind_ok in H as (u1 & t2 & _ & H).
      apply IH in H as (Hle & Hzero & Hpos). split; [exact Hle |]. split.
      * intros Hr k Hk. destruct (Z.eq_dec k i) as [-> | Hki].
        -- exists m, e. repeat split; assumption.
        -- apply (Hzero Hr). lia.
      * intros Hr. destruct (Hpos Hr) as (k & Hk & Hused). exists k. split; [lia | exact Hused].
Qed.

(** X7.  The search for the next base element returns the least id, from
    the one it starts at, under which some mesh stores a used element: on
    every mesh the elements of the ids it passes over are unused.  It
    reports the end of the base elements only when that holds for every
    id up to the number of base elements of mesh 0. *)
Theorem next_base_element_least_used (ONE : Z) (n : nat) (meshes : list Mesh) (si id : Z)
        (t t' : Traverse) (found : option Z) (m0 : Mesh) :
  zlookup meshes 0 = Some m0 ->
  next_base_element ONE n meshes si id t = Ok (found, t') ->
  (forall j i, id <= j < match found with Some id' => id' | None => mesh_num_base m0 end ->
               0 <= i < tr_num t -> element_used meshes j i false) /\
  (forall id', found = Some id' ->
     id <= id' < mesh_num_base m0 /\
     exists i, 0 <= i < tr_num t /\ element_used meshes id' i true).
Proof.
  intros Hm0. revert id t.
  induction n as [| n IH]; intros id t H.
  - cbn [next_base_element] in H.
    apply bind_ok in H as (m & t0 & Hm & H). apply lift_ok in Hm as [Hm ->].
    unfold mesh_at in Hm. rewrite Hm0 in Hm. injection Hm as <-.
    destruct (Z.leb_spec (mesh_num_base m0) id) as [Hend | Hlt].
    + apply ret_ok in H as [-> _]. split; [intros j i Hj; lia | discriminate].
    + apply bind_ok in H as (num & t0 & Hg & H). apply gets_ok in Hg as [-> ->].
      apply bind_ok in H as (nused & t1 & Hload & H).
      apply load_base_element_count in Hload as (Hle & _ & Hpos).
      destruct (Z.eqb_spec nused 0) as [-> | Hne]; cbn [negb] in H; [discriminate H |].
      apply ret_ok in H as [-> _]. split; [intros j i Hj; lia |].
      intros id' [= <-]. split; [lia |].
      destruct (Hpos ltac:(lia)) as (k & Hk & Hused). exists k. split; [lia | exact Hused].
  - cbn [next_base_element] in H.
    apply bind_ok in H as (m & t0 & Hm & H). apply lift_ok in Hm as [Hm ->].
    unfold mesh_at in Hm. rewrite Hm0 in Hm. injection Hm as <-.
    destruct (Z.leb_spec (mesh_num_base m0) id) as [Hend | Hlt].
    + apply ret_ok in H as [-> _]. split; [intros j i Hj; lia | discriminate].
    + apply bind_ok in H as (num & t0 & Hg & H). apply gets_ok in Hg as [-> ->].
      apply bind_ok in H as (nused & t1 & Hload & H).
      pose proof (same_num_load_base_element _ _ _ _ _ _ _ _ _ _ Hload) as Hnum.
      apply load_base_element_count in Hload as (Hle & Hzero & Hpos).
      destruct (Z.eqb_spec nused 0) as [-> | Hne]; cbn [negb] in H.
      * apply IH in H as [Hskip Hfound]. unfold same_num in Hnum. rewrite Hnum in *.
        split.
        -- intros j i Hj Hi. destruct (Z.eq_dec j id) as [-> | Hjid].
           ++ apply (Hzero eq_refl). lia.
           ++ apply Hskip; [| exact Hi]. lia.
        -- intros id' Hid'. destruct (Hfound id' Hid') as [Hrange Hex]. split; [lia | exact Hex].
      * apply ret_ok in H as [-> _]. split; [intros j i Hj; lia |].
        intros id' [= <-]. split; [lia |].
        destruct (Hpos ltac:(lia)) as (k & Hk & Hused). exists k. split; [lia | exact Hused].
Qed.

Lemma next_base_element_least_used_witness :
  (forall j i, 0 <= j < 1 -> 0 <= i < tr_num (ex_entered [ex_mesh_skip] 1) ->
               element_used [ex_mesh_skip] j i false) /\
  (forall id', Some 1 = Some id' ->
     0 <= id' < mesh_num_base ex_mesh_skip /\
     exists i, 0 <= i < tr_num (ex_entered [ex_mesh_skip] 1) /\
               element_used [ex_mesh_skip] id' i true).
Proof.
  apply (next_base_element_least_used ex_ONE 2 [ex_mesh_skip] 0 0
           (ex_entered [ex_mesh_skip] 1)
           (snd (run_from (next_base_element ex_ONE 2 [ex_mesh_skip] 0 0)
                          (ex_entered [ex_mesh_skip] 1) None))
           (Some 1) ex_mesh_skip).
  - reflexivity.
  - vm_compute. reflexivity.
Defined.

(** ** The rectangles of the son states *)

Lemma reach1_trans a b c d c' d' :
  reach1 a b c d -> reach1 c d c' d' -> reach1 a b c' d'.
Proof.
  induction 1 as [lo hi | lo hi lo' hi' H IH | lo hi lo' hi' H IH]; intros H';
    [exact H' | apply reach1_low, IH, H' | apply reach1_high, IH, H'].
Qed.

Lemma reach1_to_low a b c d :
  ok1 a b -> reach1 a b c d -> c < d -> d <= mid a b -> reach1 a (mid a b) c d.
Proof. intros Hok Hr Hnd Hle. exact (proj1 (reach1_decide _ _ _ _ Hr Hok Hnd) Hle). Qed.

Lemma reach1_to_high a b c d :
  ok1 a b -> reach1 a b c d -> c < d -> mid a b <= c -> reach1 (mid a b) b c d.
Proof.
  intros Hok Hr Hnd Hle. exact (proj1 (proj2 (reach1_decide _ _ _ _ Hr Hok Hnd)) Hle).
Qed.

(** A target that the midpoint cuts is the interval itself. *)
Lemma reach1_span a b c d :
  ok1 a b -> reach1 a b c d -> c < mid a b -> mid a b < d -> c = a /\ d = b.
Proof.
  intros Hok Hr Hc Hd.
  destruct (reach1_inside _ _ _ _ Hr Hok) as (_ & Hac & Hdb).
  destruct (reach1_decide _ _ _ _ Hr Hok ltac:(lia)) as (_ & _ & Hside & _).
  destruct (Z_lt_le_dec a c) as [Hlt | Hge]; [specialize (Hside (or_introl Hlt)); lia |].
  destruct (Z_lt_le_dec d b) as [Hlt | Hge']; [specialize (Hside (or_intror Hlt)); lia |].
  lia.
Qed.

Ltac reach_last :=
  first [apply reach1_here | apply reach1_low, reach1_here | apply reach1_high, reach1_here].

Ltac reach_via H Hok :=
  lazymatch type of H with
  | reach1 ?a ?b ?c ?d =>
      apply (reach1_trans _ _ c d);
      [ first [ exact H
              | apply (reach1_to_low a b c d Hok H); lia
              | apply (reach1_to_high a b c d Hok H); lia ]
      | reach_last ]
  end.

Ltac span_axis H Hok :=
  lazymatch type of H with
  | reach1 ?a ?b ?c ?d =>
      try (let E := fresh "E" in
           assert (E : c = a /\ d = b) by (apply (reach1_span a b c d Hok H); lia);
           destruct E; subst c d)
  end.

(** The element rectangle of a son state still leads to the rectangle of
    that state. *)
Lemma get_split_and_sons_tracks_son e cr er split son k code :
  tracks cr er -> nondegenerate cr ->
  Z.lor split (fst (get_split_and_sons e cr er)) = split ->
  quad_son_column split son k ->
  zlookup (snd (get_split_and_sons e cr er)) k = Some code ->
  tracks (move_to_son cr son) (move_to_son er code).
Proof.
  destruct cr as [cl cb crr ct], er as [el eb err et].
  unfold tracks, nondegenerate. cbn [r_l r_b r_r r_t].
  intros (Hox & Hoy & Hrx & Hry) (Hndx & Hndy) Hsplit Hcol Hcode.
  pose proof (ok1_low _ _ Hox). pose proof (ok1_high _ _ Hox).
  pose proof (ok1_low _ _ Hoy). pose proof (ok1_high _ _ Hoy).
  unfold get_split_and_sons in Hsplit, Hcode.
  rewrite hmid_of_mid, vmid_of_mid in Hsplit, Hcode. cbn [r_l r_b r_r r_t] in Hsplit, Hcode.
  assert (Hcases :
    (split = 3 /\ (son = 0 \/ son = 1 \/ son = 2 \/ son = 3) /\ k = son) \/
    (split = 1 /\ (son = 4 /\ k = 0 \/ son = 5 /\ k = 2)) \/
    (split = 2 /\ (son = 6 /\ k = 0 \/ son = 7 /\ k = 2))).
  { destruct Hcol as [(? & ? & ?) | [? | ?]]; [left | right; left | right; right];
      first [assumption | repeat split; [assumption | lia | assumption]]. }
  clear Hcol.
  destruct (bsplit e); [| destruct (hsplit e)];
    repeat match type of Hcode with
           | context [if ?c then _ else _] =>
               let E := fresh "E" in
               destruct c eqn:E;
               [ rewrite ?andb_true_iff, ?Z.leb_le in E
               | rewrite ?andb_false_iff, ?Z.leb_gt in E ]
           end;
    cbn [fst snd] in Hsplit, Hcode;
    destruct Hcases as [(-> & Hson & ->) | [(-> & Hson) | (-> & Hson)]];
    try discriminate Hsplit;
    repeat match goal with
           | H : _ \/ _ |- _ => destruct H
           | H : _ /\ _ |- _ => destruct H
           end; subst; try lia;
    cbn in Hcode; injection Hcode as <-;
    span_axis Hrx Hox; span_axis Hry Hoy;
    cbn [move_to_son r_l r_b r_r r_t]; rewrite ?hmid_of_mid, ?vmid_of_mid;
    cbn [r_l r_b r_r r_t];
    repeat match goal with
           | |- _ /\ _ => split
           | |- ok1 _ _ => assumption
           | |- reach1 _ _ _ _ =>
               first [ reach_last | solve [reach_via Hrx Hox] | solve [reach_via Hry Hoy] ]
           end.
Qed.

Ltac reach_keep H Hok :=
  lazymatch type of H with
  | reach1 ?a ?b ?c ?d =>
      first [ exact H
            | apply (reach1_to_low a b c d Hok H); lia
            | apply (reach1_to_high a b c d Hok H); lia ]
  end.

(** With no split to follow, the state keeps its rectangle and the
    element rectangle moves to the son that holds it. *)
Lemma get_split_and_sons_tracks_single e cr er code :
  tracks cr er -> nondegenerate cr ->
  fst (get_split_and_sons e cr er) = 0 ->
  zlookup (snd (get_split_and_sons e cr er)) 0 = Some code ->
  tracks cr (move_to_son er code).
Proof.
  destruct cr as [cl cb crr ct], er as [el eb err et].
  unfold tracks, nondegenerate. cbn [r_l r_b r_r r_t].
  intros (Hox & Hoy & Hrx & Hry) (Hndx & Hndy) Hsplit Hcode.
  pose proof (ok1_low _ _ Hox). pose proof (ok1_high _ _ Hox).
  pose proof (ok1_low _ _ Hoy). pose proof (ok1_high _ _ Hoy).
  unfold get_split_and_sons in Hsplit, Hcode.
  rewrite hmid_of_mid, vmid_of_mid in Hsplit, Hcode. cbn [r_l r_b r_r r_t] in Hsplit, Hcode.
  destruct (bsplit e); [| destruct (hsplit e)];
    repeat match type of Hcode with
           | context [if ?c then _ else _] =>
               let E := fresh "E" in
               destruct c eqn:E;
               [ rewrite ?andb_true_iff, ?Z.leb_le in E
               | rewrite ?andb_false_iff, ?Z.leb_gt in E ]
           end;
    cbn [fst snd] in Hsplit, Hcode; try discriminate Hsplit;
    repeat match goal with
           | H : _ /\ _ |- _ => destruct H
           end;
    cbn in Hcode; injection Hcode as <-;
    cbn [move_to_son r_l r_b r_r r_t]; rewrite ?hmid_of_mid, ?vmid_of_mid;
    cbn [r_l r_b r_r r_t];
    repeat match goal with
           | |- _ /\ _ => split
           | |- ok1 _ _ => assumption
           | |- reach1 _ _ _ _ => first [ solve [reach_keep Hrx Hox] | solve [reach_keep Hry Hoy] ]
           end.
Qed.

(** X8.  The sons that the quad branches of [get_states] push stay on
    track: when the rectangle [cr] of a state is reached from the
    rectangle [er] of a refined element by bisections, and the combined
    split contains the split that [get_split_and_sons] returns for the
    element, then for every son pushed the rectangle of the son state is
    reached by bisections from the element rectangle moved to the son
    code read from [current_sons]; with no split, the state rectangle is
    reached from the element rectangle moved to [current_sons[i][0]]. *)
Theorem quad_sons_stay_on_track (e : Element) (cr er : Rect) (split : Z) :
  tracks cr er -> nondegenerate cr ->
  Z.lor split (fst (get_split_and_sons e cr er)) = split ->
  (forall son k code,
     quad_son_column split son k ->
     zlookup (snd (get_split_and_sons e cr er)) k = Some code ->
     tracks (move_to_son cr son) (move_to_son er code)) /\
  (split = 0 -> forall code,
     zlookup (snd (get_split_and_sons e cr er)) 0 = Some code ->
     tracks cr (move_to_son er code)).
Proof.
  intros Htr Hnd Hsplit. split.
  - intros son k code Hcol Hcode.
    exact (get_split_and_sons_tracks_son e cr er split son k code Htr Hnd Hsplit Hcol Hcode).
  - intros -> code Hcode.
    apply (get_split_and_sons_tracks_single e cr er code Htr Hnd); [| exact Hcode].
    rewrite Z.lor_0_l in Hsplit. exact Hsplit.
Qed.

Lemma ex_unity_tracks : tracks ex_unity ex_unity.
Proof.
  unfold tracks, ok1, ex_unity, ex_ONE. cbn [r_l r_b r_r r_t].
  repeat split; first [lia | apply reach1_here].
Qed.

Lemma quad_sons_stay_on_track_witness :
  tracks (move_to_son ex_unity 2) (move_to_son ex_unity 2).
Proof.
  apply (proj1 (quad_sons_stay_on_track (ex_quad 0) ex_unity ex_unity 3 ex_unity_tracks
                  ltac:(unfold nondegenerate; vm_compute; split; reflexivity)
                  ltac:(vm_compute; reflexivity)) 2 2 2).
  - left. lia.
  - vm_compute. reflexivity.
Defined.

(** ** Runs that work above a slot *)

#[local] Instance above_preorder k : PreOrder (above k).
Proof.
  split.
  - intros t Hinv. split; [exact Hinv |]. split; [reflexivity |]. split; [reflexivity |].
    split; [intros a; reflexivity |]. intros j sj _ Hj. split; [exact Hj | reflexivity].
  - intros t1 t2 t3 H12 H23 Hinv.
    destruct (H12 Hinv) as (Hinv2 & Hn12 & Hs12 & Ho12 & Hc12).
    destruct (H23 Hinv2) as (Hinv3 & Hn23 & Hs23 & Ho23 & Hc23).
    split; [exact Hinv3 |]. split; [congruence |]. split; [congruence |].
    split; [intros a; rewrite Ho23; apply Ho12 |].
    intros j sj Hj Hsj. destruct (Hc12 j sj Hj Hsj) as [Hsj2 Hcont2].
    destruct (Hc23 j sj Hj Hsj2) as [Hsj3 Hcont3].
    split; [exact Hsj3 | congruence].
Qed.

Lemma respects_refines {A : Type} R (c c' : M A) :
  refines c c' -> respects R c' -> respects R c.
Proof. intros Href Hc t a t' H. exact (Hc t a t' (Href _ _ H)). Qed.

(** A store through a pointer of slot [ns]. *)
Lemma above_store (f : fld) k ns i c :
  low k ns ->
  respects (above k) (bind (slot ns) (fun s => store (fld_sel f s) i c)).
Proof.
  intros Hns t u t' H (Hwf & Htop).
  assert (Hk : keeps t t').
  { refine (keeps_slot_store (fld_sel f) ns i c _ t u t' H).
    intros s a. apply slot_ptrs_fld. }
  destruct (Hk Hwf) as (Hwf' & _ & Hnum & Hsize & _).
  apply bind_ok in H as (s & t1 & H1 & H2). apply slot_ok in H1 as [Hs ->].
  apply store_ok in H2 as (a & arr & Ha & Harr & _ & ->).
  apply zlookup_Some in Hs as [Hns0 Hs].
  split; [split; [exact Hwf' | exact Htop] |].
  split; [exact Hnum |]. split; [exact Hsize |]. split.
  - intros b. unfold outside. cbn [tr_heap with_heap].
    change (stack_ptrs (with_heap _ t)) with (stack_ptrs t).
    destruct (decide (b = a)) as [-> | Hne].
    + rewrite lookup_insert_eq, Harr. split; intros [_ Hb]; (split; [eexists; reflexivity | exact Hb]).
    + rewrite lookup_insert_ne by congruence. reflexivity.
  - intros j sj Hj Hsj. split; [exact Hsj |]. cbn [tr_heap with_heap].
    apply zlookup_Some in Hsj as [_ Hsj].
    rewrite (content_store t (Z.to_nat ns) s f a _ (Z.to_nat j) sj Hwf Hs Ha Hsj).
    case_decide as Hd; [| reflexivity].
    exfalso. specialize (Hns Hns0). lia.
Qed.

Lemma above_put_e k ns i v : low k ns -> respects (above k) (put_e ns i v).
Proof. apply (above_store FE). Qed.

Lemma above_put_er k ns i v : low k ns -> respects (above k) (put_er ns i v).
Proof. apply (above_store FER). Qed.

Lemma above_put_sub_idx k ns i v : low k ns -> respects (above k) (put_sub_idx ns i v).
Proof. apply (above_store FIDX). Qed.

(** An assignment to plain fields of slot [ns]. *)
Lemma above_update_slot k ns f :
  keeps_ptrs f -> low k ns -> respects (above k) (update_slot ns f).
Proof.
  intros Hf Hns t u t' H (Hwf & Htop).
  destruct (keeps_update_slot ns f Hf t u t' H Hwf) as (Hwf' & _ & Hnum & Hsize & _).
  apply update_slot_ok in H as (s & Hs & ->).
  apply zlookup_Some in Hs as [Hns0 Hs].
  destruct (Hf s) as (He & Her & Hsub).
  pose proof (stack_ptrs_update t _ s f Hs (slot_ptrs_eq _ _ He Her Hsub)) as Hptrs.
  split; [split; [exact Hwf' | exact Htop] |].
  split; [exact Hnum |]. split; [exact Hsize |]. split.
  - intros b. unfold outside. rewrite Hptrs. reflexivity.
  - intros j sj Hj Hsj. split; [| reflexivity].
    apply zlookup_Some in Hsj as [Hj0 Hsj]. apply zlookup_Some. split; [exact Hj0 |].
    cbn [tr_stack with_stack]. rewrite list_lookup_insert_ne; [exact Hsj |].
    specialize (Hns Hns0). lia.
Qed.

Lemma above_set_top k x : low k x -> respects (above k) (set_top x).
Proof.
  intros Hx t u t' H (Hwf & Htop). unfold set_top in H. inversion H; subst.
  split; [split; [exact Hwf | exact Hx] |].
  split; [reflexivity |]. split; [reflexivity |].
  split; [intros a; reflexivity |]. intros j sj _ Hj. split; [exact Hj | reflexivity].
Qed.

#[local] Hint Extern 2 (respects (above _) (put_e _ _ _)) =>
  apply above_put_e; unfold low in *; intros; lia : respects_db.
#[local] Hint Extern 2 (respects (above _) (put_er _ _ _)) =>
  apply above_put_er; unfold low in *; intros; lia : respects_db.
#[local] Hint Extern 2 (respects (above _) (put_sub_idx _ _ _)) =>
  apply above_put_sub_idx; unfold low in *; intros; lia : respects_db.
#[local] Hint Extern 2 (respects (above _) (update_slot _ _)) =>
  apply above_update_slot; [intros []; repeat split | unfold low in *; intros; lia]
  : respects_db.
#[local] Hint Extern 2 (respects (above _) (set_top _)) =>
  apply above_set_top; unfold low in *; intros; lia : respects_db.

(** The three allocations of [push_state]. *)
Lemma above_alloc_arrays k t top s u t2 :
  zlookup (tr_stack t) top = Some s -> st_e s = None -> low k top ->
  bind (alloc (tr_num t))
    (fun pe => bind (alloc (tr_num t))
       (fun per => bind (alloc (tr_num t))
          (fun ps => update_slot top (set_ptrs pe per ps)))) t = Ok (u, t2) ->
  above k t t2.
Proof.
  intros Hs He Hlow H (Hwf & Htop).
  destruct (keeps_alloc_arrays t top s u t2 Hs He H Hwf) as (Hwf2 & _ & Hnum & Hsize & _).
  apply bind_ok in H as (pe & t1 & H1 & H). apply alloc_ok in H1 as (a1 & -> & Ha1 & ->).
  apply bind_ok in H as (per & t1 & H1 & H). apply alloc_ok in H1 as (a2 & -> & Ha2 & ->).
  apply bind_ok in H as (ps & t1 & H1 & H). apply alloc_ok in H1 as (a3 & -> & Ha3 & ->).
  apply update_slot_ok in H as (s0 & Hs0 & ->). cbn in Hs0, Ha2, Ha3.
  rewrite Hs in Hs0. inversion Hs0; subst s0. clear Hs0.
  pose proof Hs as Hzs. apply zlookup_Some in Hs as [Htop0 Hs].
  apply lookup_insert_None in Ha2 as [Ha2 Hne12].
  apply lookup_insert_None in Ha3 as [Ha3 Hne23].
  apply lookup_insert_None in Ha3 as [Ha3 Hne13].
  pose proof (slot_wf_no_arrays _ _ _ (wf_slot t top s Hwf Hzs) He) as Hnil.
  set (R := replicate (Z.to_nat (tr_num t)) Indet) in *.
  set (s' := set_ptrs (Some a1) (Some a2) (Some a3) s).
  assert (Hperm : stack_ptrs (with_stack (<[Z.to_nat top := s']> (tr_stack t)) t)
                  ≡ₚ stack_ptrs t ++ [a1; a2; a3]).
  { pose proof (stack_ptrs_insert t (Z.to_nat top) s s' Hs) as Hp.
    rewrite Hnil, app_nil_r in Hp. exact Hp. }
  split; [split; [exact Hwf2 | exact Htop] |].
  split; [exact Hnum |]. split; [exact Hsize |]. split.
  - intros b. unfold outside. cbn [tr_heap with_heap with_stack].
    change (stack_ptrs _) with
      (stack_ptrs (with_stack (<[Z.to_nat top := s']> (tr_stack t)) t)) at 1.
    rewrite Hperm, elem_of_app.
    destruct (decide (b ∈ [a1; a2; a3])) as [Hin | Hout].
    + split; [intros [_ Hno]; exfalso; apply Hno; right; exact Hin |].
      intros [[x Hx] _]. exfalso.
      repeat (apply elem_of_cons in Hin as [-> | Hin]; [congruence |]). inversion Hin.
    + assert (b <> a1 /\ b <> a2 /\ b <> a3) as (? & ? & ?).
      { repeat split; intros ->; apply Hout; set_solver. }
      rewrite !lookup_insert_ne by congruence. tauto.
  - intros j sj Hj Hsj. split.
    + apply zlookup_Some in Hsj as [Hj0 Hsj]. apply zlookup_Some. split; [exact Hj0 |].
      cbn [tr_stack with_stack with_heap]. rewrite list_lookup_insert_ne; [exact Hsj |].
      specialize (Hlow Htop0). lia.
    + cbn [tr_heap with_heap with_stack].
      pose proof (wf_slot t j sj Hwf Hsj) as Hsw.
      rewrite content_fresh with (n := Z.to_nat (tr_num t)).
      * rewrite content_fresh with (n := Z.to_nat (tr_num t)).
        -- apply content_fresh with (n := Z.to_nat (tr_num t)); assumption.
        -- rewrite lookup_insert_ne by congruence. exact Ha2.
        -- apply slot_wf_alloc; assumption.
      * rewrite !lookup_insert_ne by congruence. exact Ha3.
      * apply slot_wf_alloc; [rewrite lookup_insert_ne by congruence; exact Ha2 |].
        apply slot_wf_alloc; assumption.
Qed.

Lemma above_slot_memset k si n :
  low k si -> respects (above k) (bind (slot si) (fun s => memset_idx (st_sub_idx s) n)).
Proof.
  intros Hsi. eapply respects_refines; [apply memset_puts |]. respects_auto.
Qed.

(** [push_state] works above the old top. *)
Lemma above_push_state k : respects (above k) push_state.
Proof.
  intros t si t' H Hinv. revert Hinv.
  unfold push_state in H.
  apply bind_ok in H as (top & t1 & H1 & H). apply gets_ok in H1 as [-> ->].
  apply bind_ok in H as (size & t1 & H1 & H). apply gets_ok in H1 as [-> ->].
  destruct (tr_size t <=? tr_top t); [discriminate |].
  apply bind_ok in H as (num & t1 & H1 & H). apply gets_ok in H1 as [-> ->].
  apply bind_ok in H as (s & t1 & H1 & H). apply slot_ok in H1 as [Hs ->].
  pose proof Hs as Hs'. apply zlookup_Some in Hs' as [Htop0 _].
  apply bind_ok in H as (u & t2 & Halloc & Hrest).
  intros Hinv. pose proof Hinv as (_ & Hlow). specialize (Hlow Htop0).
  revert Hinv. change (above k t t'). transitivity t2.
  - destruct (st_e s) eqn:He.
    + apply ret_ok in Halloc as [_ ->]. reflexivity.
    + eapply above_alloc_arrays; [exact Hs | exact He | intros _; exact Hlow | exact Halloc].
  - revert Hrest. generalize t2 si t'.
    change (respects (above k)
      (bind (update_slot (tr_top t) (fun s0 => set_isurf (-1) (set_visited false s0)))
         (fun _ => bind (slot (tr_top t))
            (fun s0 => bind (memset_idx (st_sub_idx s0) (tr_num t))
               (fun _ => bind (update_slot (tr_top t)
                                 (fun s1 => set_num (tr_num t) (set_bnd (bnd_all true) s1)))
                  (fun _ => bind (set_top (tr_top t + 1)) (fun _ => ret (tr_top t)))))))).
    apply (respects_bind (above k)); [solve [eauto with respects_db] | intros _].
    intros ta x tb Hb. apply bind_ok in Hb as (s0 & tc & Hc1 & Hc2).
    apply bind_ok in Hc2 as (u0 & td & Hd1 & Hd2).
    transitivity td.
    + apply (above_slot_memset k (tr_top t) (tr_num t) ltac:(intros _; exact Hlow) ta u0 td).
      unfold bind. rewrite Hc1. exact Hd1.
    + revert Hd2. generalize td x tb.
      change (respects (above k)
        (bind (update_slot (tr_top t)
                 (fun s1 => set_num (tr_num t) (set_bnd (bnd_all true) s1)))
           (fun _ => bind (set_top (tr_top t + 1)) (fun _ => ret (tr_top t))))).
      respects_auto.
Qed.

(** What follows a [push_state] works on the slot it returns. *)
Lemma above_bind_push_state {B : Type} k (body : Z -> M B) :
  (forall ns, k <= ns -> respects (above k) (body ns)) ->
  respects (above k) (bind push_state body).
Proof.
  intros Hbody t b t' H Hinv.
  apply bind_ok in H as (ns & t1 & Hpush & H).
  pose proof (push_state_index _ _ _ Hpush) as ->.
  assert (Hns : k <= tr_top t).
  { destruct Hinv as (_ & Hlow). apply Hlow.
    unfold push_state in Hpush.
    apply bind_ok in Hpush as (top & t0 & H1 & Hpush). apply gets_ok in H1 as [-> ->].
    apply bind_ok in Hpush as (size & t0 & H1 & Hpush). apply gets_ok in H1 as [-> ->].
    destruct (tr_size t <=? tr_top t); [discriminate |].
    apply bind_ok in Hpush as (num & t0 & H1 & Hpush). apply gets_ok in H1 as [-> ->].
    apply bind_ok in Hpush as (s & t0 & H1 & _). apply slot_ok in H1 as [Hs _].
    apply zlookup_Some in Hs as [Htop0 _]. exact Htop0. }
  revert Hinv. change (above k t t'). transitivity t1.
  - exact (above_push_state k t _ t1 Hpush).
  - exact (Hbody _ Hns t1 b t' H).
Qed.

Ltac above_step :=
  first [ lazymatch goal with
          | |- respects _ (bind push_state _) => apply above_bind_push_state; intros ? ?
          end
        | respects_ro
        | respects_step ].
Ltac above_auto := repeat above_step.

Lemma above_push_transform k ns son i tri :
  low k ns -> respects (above k) (push_transform ns son i tri).
Proof. intros Hns. unfold push_transform. above_auto. Qed.
#[local] Hint Extern 2 (respects (above _) (push_transform _ _ _ _)) =>
  apply above_push_transform; unfold low in *; intros; lia : respects_db.

Lemma above_move_element k si ns i e code :
  low k ns -> respects (above k) (move_element si ns i e code).
Proof. intros Hns. unfold move_element. above_auto. Qed.
#[local] Hint Extern 2 (respects (above _) (move_element _ _ _ _ _)) =>
  apply above_move_element; unfold low in *; intros; lia : respects_db.

Lemma above_push_triangle_son k si son : respects (above k) (push_triangle_son si son).
Proof. unfold push_triangle_son. above_auto. Qed.

Lemma above_push_quad_son k dflt si son j cs :
  respects (above k) (push_quad_son dflt si son j cs).
Proof. unfold push_quad_son. above_auto. Qed.

Lemma above_push_quad_single k si cs : respects (above k) (push_quad_single si cs).
Proof. unfold push_quad_single. above_auto. Qed.

#[local] Hint Resolve above_push_triangle_son above_push_quad_son above_push_quad_single
  : respects_db.

Lemma above_push_sons k dflt si : respects (above k) (push_sons dflt si).
Proof. unfold push_sons. above_auto. Qed.

(** ** The slot that [push_state] returns *)

Lemma memset_loop k : forall i t a arr u t',
  tr_heap t !! a = Some arr ->
  for_loop k (Z.of_nat i) (fun j => store (Some a) j (CIdx 0)) t = Ok (u, t') ->
  exists arr',
    t' = with_heap (<[a := arr']> (tr_heap t)) t /\
    length arr' = length arr /\
    (forall j, (i <= j < i + k)%nat -> arr' !! j = Some (CIdx 0)) /\
    (forall j, ~ (i <= j < i + k)%nat -> arr' !! j = arr !! j).
Proof.
  induction k as [| k IH]; intros i t a arr u t' Ha H; simpl in H.
  - apply ret_ok in H as [_ ->]. exists arr.
    split; [rewrite insert_id by exact Ha; symmetry; apply with_heap_id |].
    split; [reflexivity |]. split; [intros j Hj; lia | reflexivity].
  - apply bind_ok in H as (u1 & t1 & H1 & H).
    apply store_ok in H1 as (a' & arr0 & Ha' & Harr0 & Hi & ->).
    injection Ha' as <-. rewrite Ha in Harr0. injection Harr0 as <-.
    destruct Hi as [x Hx]. apply zlookup_Some in Hx as [_ Hx]. rewrite Nat2Z.id in Hx.
    replace (Z.of_nat i + 1) with (Z.of_nat (S i)) in H by lia.
    eapply IH in H as (arr' & -> & Hlen & Hset & Hkeep);
      [| cbn [tr_heap with_heap]; apply lookup_insert_eq].
    exists arr'. cbn [tr_heap with_heap]. rewrite insert_insert_eq.
    split; [reflexivity |]. split; [rewrite Hlen; apply length_insert |]. split.
    + intros j Hj. destruct (decide (j = i)) as [-> | Hne].
      * rewrite Hkeep by lia. rewrite Nat2Z.id. apply list_lookup_insert_eq.
        eapply lookup_lt_Some. exact Hx.
      * apply Hset. lia.
    + intros j Hj. rewrite Hkeep by lia. rewrite Nat2Z.id.
      apply list_lookup_insert_ne. lia.
Qed.

Lemma memset_spec t a arr n u t' :
  tr_heap t !! a = Some arr -> length arr = Z.to_nat n ->
  memset_idx (Some a) n t = Ok (u, t') ->
  t' = with_heap (<[a := replicate (Z.to_nat n) (CIdx 0)]> (tr_heap t)) t.
Proof.
  intros Ha Hlen H. unfold memset_idx in H.
  apply (memset_loop (Z.to_nat n) 0 t a arr u t' Ha) in H as (arr' & -> & Hlen' & Hset & _).
  f_equal. f_equal. apply list_eq_same_length with (n := Z.to_nat n).
  - apply length_replicate.
  - congruence.
  - intros j x y Hj Hx Hy. rewrite Hset in Hx by lia.
    apply lookup_replicate in Hy as [-> _]. congruence.
Qed.

Lemma lookup_insert_slot (stack : list State) si s x :
  zlookup stack si = Some s -> zlookup (<[Z.to_nat si := x]> stack) si = Some x.
Proof.
  intros Hs. apply zlookup_Some in Hs as [Hsi Hs]. apply zlookup_Some.
  split; [exact Hsi |]. apply list_lookup_insert_eq. eapply lookup_lt_Some. exact Hs.
Qed.

Lemma push_state_spec t si t' :
  wf t -> push_state t = Ok (si, t') -> slot_pushed t si t'.
Proof.
  intros Hwf H. pose proof (push_state_index _ _ _ H) as ->.
  unfold slot_pushed. split; [reflexivity |].
  unfold push_state in H.
  apply bind_ok in H as (top & t1 & H1 & H). apply gets_ok in H1 as [-> ->].
  apply bind_ok in H as (size & t1 & H1 & H). apply gets_ok in H1 as [-> ->].
  destruct (tr_size t <=? tr_top t); [discriminate |].
  apply bind_ok in H as (num & t1 & H1 & H). apply gets_ok in H1 as [-> ->].
  apply bind_ok in H as (s & t1 & H1 & H). apply slot_ok in H1 as [Hs ->].
  apply bind_ok in H as (u & t2 & Halloc & H).
  (* the slot after the allocation part *)
  assert (Hprep : exists s2,
    zlookup (tr_stack t2) (tr_top t) = Some s2 /\ plain s2 = plain s /\ wf t2 /\
    tr_num t2 = tr_num t /\ st_e s2 <> None /\
    (st_e s <> None -> t2 = t /\ s2 = s) /\
    (st_e s = None ->
       cells_of (tr_heap t2) (st_e s2) = Some (replicate (Z.to_nat (tr_num t)) Indet) /\
       cells_of (tr_heap t2) (st_er s2) = Some (replicate (Z.to_nat (tr_num t)) Indet) /\
       forall a, a ∈ slot_ptrs s2 -> tr_heap t !! a = None)).
  { destruct (st_e s) as [a |] eqn:He.
    - apply ret_ok in Halloc as [_ ->]. exists s.
      split; [exact Hs |]. split; [reflexivity |]. split; [exact Hwf |].
      split; [reflexivity |]. split; [congruence |].
      split; [intros _; split; reflexivity | discriminate].
    - destruct (keeps_alloc_arrays t _ s u t2 Hs He Halloc Hwf) as (Hwf2 & _ & Hnum2 & _).
      apply alloc_arrays_spec with (s := s) in Halloc
        as (a1 & a2 & a3 & Ha1 & Ha2 & Ha3 & H12 & H13 & H23 & ->); [| exact Hs].
      exists (set_ptrs (Some a1) (Some a2) (Some a3) s).
      split; [cbn [tr_stack with_stack]; apply (lookup_insert_slot _ _ s), Hs |].
      split; [reflexivity |]. split; [exact Hwf2 |]. split; [exact Hnum2 |].
      split; [discriminate |]. split; [congruence |]. intros _.
      cbn [tr_heap with_heap with_stack st_e st_er set_ptrs cells_of].
      split; [rewrite !lookup_insert_ne by congruence; apply lookup_insert_eq |].
      split; [rewrite lookup_insert_ne by congruence; apply lookup_insert_eq |].
      intros a Ha. unfold slot_ptrs in Ha. cbn in Ha.
      repeat (apply elem_of_cons in Ha as [-> | Ha]; [assumption |]). inversion Ha. }
  destruct Hprep as (s2 & Hs2 & Hp2 & Hwf2 & Hnum2 & He2 & Hreuse & Hfresh).
  apply bind_ok in H as (u1 & t3 & H1 & H). apply update_slot_ok in H1 as (s2' & Hs2' & ->).
  assert (s2' = s2) by congruence. subst s2'. clear Hs2'.
  apply bind_ok in H as (s3 & t3 & H1 & H). apply slot_ok in H1 as [Hs3 ->].
  cbn [tr_stack with_stack] in Hs3. rewrite (lookup_insert_slot _ _ s2 _ Hs2) in Hs3.
  injection Hs3 as <-.
  (* the array of [sub_idx] *)
  destruct (wf_slot t2 _ s2 Hwf2 Hs2) as [(Hn & _) | (Harr_e & Harr_er & (a & arr & Ha & Harr & Hl))];
    [congruence |].
  apply bind_ok in H as (u2 & t4 & Hmem & H).
  cbn [st_sub_idx set_isurf set_visited] in Hmem. rewrite Ha in Hmem.
  apply (memset_spec _ a arr) in Hmem; [| exact Harr | congruence]. subst t4.
  apply bind_ok in H as (u3 & t5 & H1 & H). apply update_slot_ok in H1 as (s4 & Hs4 & ->).
  cbn [tr_stack with_stack with_heap] in Hs4.
  rewrite (lookup_insert_slot _ _ s2 _ Hs2) in Hs4. injection Hs4 as <-.
  apply bind_ok in H as (u4 & t6 & H1 & H). unfold set_top in H1. injection H1 as _ <-.
  apply ret_ok in H as [_ ->].
  split; [reflexivity |].
  exists s. eexists. split; [exact Hs |].
  split.
  { cbn [tr_stack with_stack with_heap with_top]. rewrite list_insert_insert_eq.
    apply (lookup_insert_slot _ _ s2), Hs2. }
  cbn [tr_heap with_stack with_heap with_top].
  assert (Hsw2 : slot_wf (tr_heap t2) (Z.to_nat (tr_num t2)) s2)
    by exact (wf_slot t2 _ s2 Hwf2 Hs2).
  assert (Hnd2 : NoDup (slot_ptrs s2)).
  { destruct Hwf2 as (_ & _ & Hnd). apply zlookup_Some in Hs2 as [_ Hs2].
    eapply (NoDup_mjoin_inner _ (Z.to_nat (tr_top t))); [exact Hnd |].
    rewrite list_lookup_fmap, Hs2. reflexivity. }
  assert (Hother : forall g, g <> FIDX -> fld_sel g s2 <> Some a).
  { intros g Hg Hga. apply Hg. exact (slot_ptrs_distinct g FIDX s2 a Hnd2 Hga Ha). }
  pose proof (Hother FE ltac:(discriminate)) as HneE.
  pose proof (Hother FER ltac:(discriminate)) as HneER. cbn in HneE, HneER.
  split.
  { unfold plain. cbn. unfold plain in Hp2. injection Hp2 as -> _ -> -> _ _ -> _.
    reflexivity. }
  split.
  { cbn [st_sub_idx set_num set_bnd set_isurf set_visited]. rewrite Ha. cbn [cells_of].
    apply lookup_insert_eq. }
  cbn [st_e st_er st_sub_idx set_num set_bnd set_isurf set_visited].
  rewrite !cells_of_insert. repeat case_decide; try congruence.
  split.
  - intros He. destruct (Hreuse He) as [-> ->].
    repeat split; try reflexivity.
    + intros [x Hx]. destruct (decide (a0 = a)) as [-> | Hne].
      * rewrite Harr. eexists; reflexivity.
      * rewrite lookup_insert_ne in Hx by congruence. eexists; exact Hx.
    + intros [x Hx]. destruct (decide (a0 = a)) as [-> | Hne].
      * rewrite lookup_insert_eq. eexists; reflexivity.
      * rewrite lookup_insert_ne by congruence. eexists; exact Hx.
  - intros He. destruct (Hfresh He) as (HE & HER & Hnew).
    split; [exact HE |]. split; [exact HER |].
    intros b Hb. apply Hnew. exact Hb.
Qed.

(** X9.  The slot that [push_state] returns is the one at the old [top];
    [visited], [isurf], [bnd] and [num] are reset and [sub_idx] holds
    zeros, while [cr], [rep], [rep_i] and [isBnd] are left as the slot
    held them.  A slot that had its arrays keeps them, with the cells of
    [e] and [er], and nothing is allocated; a slot without arrays
    receives three new ones, those of [e] and [er] not initialised. *)
Theorem push_state_resets_slot (t : Traverse) (si : Z) (t' : Traverse) :
  wf t -> push_state t = Ok (si, t') -> slot_pushed t si t'.
Proof. exact (push_state_spec t si t'). Qed.

Lemma push_state_resets_slot_witness :
  slot_pushed (ex_entered [ex_mesh_leaf] 1) 1
    (snd (run_from push_state (ex_entered [ex_mesh_leaf] 1) 0)).
Proof.
  apply (push_state_resets_slot (ex_entered [ex_mesh_leaf] 1) 1).
  - apply ex_entered_wf.
  - vm_compute. reflexivity.
Defined.

(** ** The son states *)

Lemma push_state_top t si t' : push_state t = Ok (si, t') -> tr_top t' = tr_top t + 1.
Proof.
  unfold push_state. intros H.
  apply bind_ok in H as (top & t0 & Hg & H). apply gets_ok in Hg as [-> ->].
  apply bind_ok in H as (size & t0 & Hg & H). apply gets_ok in Hg as [-> ->].
  destruct (tr_size t <=? tr_top t); [discriminate |].
  apply bind_ok in H as (num & t0 & _ & H).
  apply bind_ok in H as (s & t1 & _ & H).
  apply bind_ok in H as (u1 & t2 & _ & H).
  apply bind_ok in H as (u2 & t3 & _ & H).
  apply bind_ok in H as (s3 & t4 & _ & H).
  apply bind_ok in H as (u4 & t5 & _ & H).
  apply bind_ok in H as (u5 & t6 & _ & H).
  apply bind_ok in H as (u6 & t7 & Hset & H).
  apply ret_ok in H as [_ ->]. unfold set_top in Hset. injection Hset as _ <-. reflexivity.
Qed.

Lemma same_top_store p i c : respects same_top (store p i c).
Proof. intros t u t' H. apply store_ok in H as (a & arr & _ & _ & _ & ->). reflexivity. Qed.

Lemma same_top_put_e si i v : respects same_top (put_e si i v).
Proof. unfold put_e. respects_auto. apply same_top_store. Qed.

Lemma same_top_put_er si i v : respects same_top (put_er si i v).
Proof. unfold put_er. respects_auto. apply same_top_store. Qed.

Lemma same_top_put_sub_idx si i v : respects same_top (put_sub_idx si i v).
Proof. unfold put_sub_idx. respects_auto. apply same_top_store. Qed.

#[local] Hint Resolve same_top_store same_top_put_e same_top_put_er same_top_put_sub_idx
  : respects_db.

Lemma same_top_push_transform si son i tri : respects same_top (push_transform si son i tri).
Proof. unfold push_transform. respects_auto. Qed.

Lemma same_top_move_element si ns i e code : respects same_top (move_element si ns i e code).
Proof. unfold move_element. respects_auto. Qed.

#[local] Hint Resolve same_top_push_transform same_top_move_element : respects_db.

#[local] Instance same_visit_preorder : PreOrder same_visit.
Proof.
  split.
  - intros s. repeat split.
  - intros s1 s2 s3 (? & ? & ?) (? & ? & ?). unfold same_visit. repeat split; congruence.
Qed.

#[local] Hint Extern 2 (respects (slots_rel same_visit) (put_e _ _ _)) =>
  apply (respects_slots_put_e same_visit) : respects_db.
#[local] Hint Extern 2 (respects (slots_rel same_visit) (put_er _ _ _)) =>
  apply (respects_slots_put_er same_visit) : respects_db.
#[local] Hint Extern 2 (respects (slots_rel same_visit) (put_sub_idx _ _ _)) =>
  apply (respects_slots_put_sub_idx same_visit) : respects_db.
#[local] Hint Extern 2 (respects (slots_rel same_visit) (update_slot _ _)) =>
  apply (respects_slots_update same_visit); intros []; repeat split : respects_db.

Lemma same_visit_push_transform si son i tri :
  respects (slots_rel same_visit) (push_transform si son i tri).
Proof. unfold push_transform. respects_auto. Qed.

Lemma same_visit_move_element si ns i e code :
  respects (slots_rel same_visit) (move_element si ns i e code).
Proof. unfold move_element. respects_auto. Qed.

#[local] Hint Resolve same_visit_push_transform same_visit_move_element : respects_db.

(** What the three kinds of son have in common: a state is pushed, and
    filled in by a run that leaves [top] and the visit fields alone. *)
Lemma pushed_unvisited {B : Type} (body : Z -> M B) t b t' :
  (forall ns, respects same_top (body ns)) ->
  (forall ns, respects (slots_rel same_visit) (body ns)) ->
  wf t -> bind push_state body t = Ok (b, t') ->
  tr_top t' = tr_top t + 1 /\
  exists s, zlookup (tr_stack t') (tr_top t) = Some s /\ unvisited (tr_num t) s.
Proof.
  intros Htop Hvisit Hwf H. apply bind_ok in H as (ns & t1 & Hpush & H).
  destruct (push_state_spec t ns t1 Hwf Hpush)
    as (-> & Htop1 & s & s1 & _ & Hs1 & Hplain & _).
  split; [rewrite (Htop _ _ _ _ H); exact Htop1 |].
  destruct (slots_rel_lookup _ _ _ _ _ (Hvisit _ _ _ _ H) Hs1) as (s' & Hs' & Hv & Hi & Hn).
  exists s'. split; [exact Hs' |].
  unfold plain in Hplain. injection Hplain as _ _ _ _ Hv1 Hi1 _ Hn1.
  unfold unvisited. repeat split; congruence.
Qed.

Lemma push_triangle_son_unvisited si son t u t' :
  wf t -> push_triangle_son si son t = Ok (u, t') ->
  tr_top t' = tr_top t + 1 /\
  exists s, zlookup (tr_stack t') (tr_top t) = Some s /\ unvisited (tr_num t) s.
Proof.
  unfold push_triangle_son. apply pushed_unvisited; intros ns; respects_all.
Qed.

Lemma push_quad_son_unvisited dflt si son k cs t u t' :
  wf t -> push_quad_son dflt si son k cs t = Ok (u, t') ->
  tr_top t' = tr_top t + 1 /\
  exists s, zlookup (tr_stack t') (tr_top t) = Some s /\ unvisited (tr_num t) s.
Proof.
  unfold push_quad_son. apply pushed_unvisited; intros ns; respects_all.
Qed.

Lemma push_quad_single_unvisited si cs t u t' :
  wf t -> push_quad_single si cs t = Ok (u, t') ->
  tr_top t' = tr_top t + 1 /\
  exists s, zlookup (tr_stack t') (tr_top t) = Some s /\ unvisited (tr_num t) s.
Proof.
  unfold push_quad_single. apply pushed_unvisited; intros ns; respects_all.
Qed.

(** A loop that pushes one son per iteration. *)
Lemma for_loop_pushes (body : Z -> M unit) n : forall i t u t',
  (forall j t u t', wf t -> body j t = Ok (u, t') ->
     tr_top t' = tr_top t + 1 /\
     exists s, zlookup (tr_stack t') (tr_top t) = Some s /\ unvisited (tr_num t) s) ->
  (forall k j, respects (above k) (body j)) ->
  wf t -> 0 <= tr_top t -> for_loop n i body t = Ok (u, t') ->
  tr_top t' = tr_top t + Z.of_nat n /\
  forall j, tr_top t <= j < tr_top t + Z.of_nat n ->
    exists s, zlookup (tr_stack t') j = Some s /\ unvisited (tr_num t) s.
Proof.
  induction n as [| n IH]; intros i t u t' Hpush Habove Hwf Htop H; cbn [for_loop] in H.
  - apply ret_ok in H as [_ ->]. split; [lia | intros j Hj; lia].
  - apply bind_ok in H as (u1 & t1 & H1 & H).
    destruct (Hpush i t u1 t1 Hwf H1) as (Htop1 & s & Hs & Hun).
    destruct (Habove (tr_top t) i t u1 t1 H1 (conj Hwf (fun _ => Z.le_refl _)))
      as ((Hwf1 & _) & Hnum1 & _).
    destruct (IH (i + 1) t1 u t' Hpush Habove Hwf1 ltac:(lia) H) as (Htop' & Hsons).
    split; [lia |]. intros j Hj.
    destruct (Z.eq_dec j (tr_top t)) as [-> | Hne].
    + assert (Hrest : above (tr_top t1) t1 t').
      { refine (respects_for_loop (above (tr_top t1)) n (i + 1) body _ t1 u t' H).
        intros j'. apply Habove. }
      destruct (Hrest (conj Hwf1 (fun _ => Z.le_refl _))) as (_ & _ & _ & _ & Hkeep).
      destruct (Hkeep (tr_top t) s ltac:(lia) Hs) as [Hs' _].
      exists s. split; [exact Hs' | exact Hun].
    + destruct (Hsons j ltac:(lia)) as (s' & Hs' & Hun').
      exists s'. split; [exact Hs' |]. rewrite <- Hnum1. exact Hun'.
Qed.

Lemma push_sons_spec dflt si t u t' :
  wf t -> 0 <= tr_top t -> push_sons dflt si t = Ok (u, t') ->
  exists n, sons_pushed t t' n.
Proof.
  intros Hwf Htop H.
  destruct (above_push_sons (tr_top t) dflt si t u t' H (conj Hwf (fun _ => Z.le_refl _)))
    as (_ & _ & _ & Hout & Hkeep).
  assert (Hcount : exists n : nat,
            (n = 4 \/ n = 2 \/ n = 1)%nat /\ tr_top t' = tr_top t + Z.of_nat n /\
            forall j, tr_top t <= j < tr_top t + Z.of_nat n ->
              exists s, zlookup (tr_stack t') j = Some s /\ unvisited (tr_num t) s).
  { unfold push_sons in H.
    apply bind_ok in H as (tri & t0 & Htri & H).
    pose proof (respects_eq_State_is_triangle si _ _ _ Htri) as <-.
    destruct tri.
    - exists 4%nat. split; [left; reflexivity |].
      refine (for_loop_pushes _ 4 0 t u t' _ _ Hwf Htop H).
      + intros j ta ua tb. apply push_triangle_son_unvisited.
      + intros k j. apply above_push_triangle_son.
    - apply bind_ok in H as (num & t0 & Hg & H). apply gets_ok in Hg as [-> ->].
      apply bind_ok in H as ([split cs] & t0 & Hsp & H).
      pose proof (respects_split_and_sons eq _ _ _ _ _ _ _ _ Hsp) as <-.
      destruct (split =? 3).
      + exists 4%nat. split; [left; reflexivity |].
        refine (for_loop_pushes _ 4 0 t u t' _ _ Hwf Htop H).
        * intros j ta ua tb. apply push_quad_son_unvisited.
        * intros k j. apply above_push_quad_son.
      + destruct (0 <? split).
        * exists 2%nat. split; [right; left; reflexivity |].
          refine (for_loop_pushes _ 2 _ t u t' _ _ Hwf Htop H).
          -- intros j ta ua tb. apply push_quad_son_unvisited.
          -- intros k j. apply above_push_quad_son.
        * exists 1%nat. split; [right; right; reflexivity |].
          destruct (push_quad_single_unvisited si cs t u t' Hwf H) as (Htop' & s & Hs & Hun).
          split; [lia |]. intros j Hj. assert (j = tr_top t) as -> by lia.
          exists s. split; assumption. }
  destruct Hcount as (n & Hn & Htop' & Hsons).
  exists (Z.of_nat n). unfold sons_pushed.
  split; [lia |]. split; [exact Htop' |]. split; [exact Hsons |].
  split; [exact Hkeep | exact Hout].
Qed.

(** X10.  The part of [get_states] that pushes the sons of a state pushes
    4, 2 or 1 states; each of them is unvisited; every slot below the old
    [top], the father among them, is as it was, with the cells of its
    arrays; and no array is leaked or taken from outside the stack. *)
Theorem push_sons_pushes_unvisited_sons (dflt : bool) (si : Z) (t t' : Traverse) :
  wf t -> 0 <= tr_top t -> push_sons dflt si t = Ok (tt, t') ->
  exists n, sons_pushed t t' n.
Proof. exact (push_sons_spec dflt si t tt t'). Qed.

Lemma push_sons_pushes_unvisited_sons_witness :
  exists n, sons_pushed (ex_entered [ex_mesh_refined] 1)
              (snd (run_from (push_sons false 0) (ex_entered [ex_mesh_refined] 1) tt)) n.
Proof.
  apply (push_sons_pushes_unvisited_sons false 0 (ex_entered [ex_mesh_refined] 1)).
  - apply ex_entered_wf.
  - vm_compute. discriminate.
  - vm_compute. reflexivity.
Defined.

(** ** [finish] *)

Lemma dealloc_lookup p t u t' :
  dealloc p t = Ok (u, t') ->
  exists h, t' = with_heap h t /\
            forall b, h !! b = if decide (p = Some b) then None else tr_heap t !! b.
Proof.
  unfold dealloc. destruct p as [a |]; intros H; injection H as _ <-.
  - exists (delete a (tr_heap t)). split; [reflexivity |].
    intros b. case_decide as Hd.
    + injection Hd as ->. apply lookup_delete_eq.
    + apply lookup_delete_ne. congruence.
  - exists (tr_heap t). split; [symmetry; apply with_heap_id |].
    intros b. case_decide; [discriminate | reflexivity].
Qed.

Lemma elem_of_slot_ptrs s a :
  a ∈ slot_ptrs s <-> st_e s = Some a \/ st_er s = Some a \/ st_sub_idx s = Some a.
Proof.
  unfold slot_ptrs. rewrite list_elem_of_omap. split.
  - intros (p & Hp & Ha). unfold id in Ha. subst p.
    repeat (apply elem_of_cons in Hp as [Hp | Hp]; [auto |]). inversion Hp.
  - intros [H | [H | H]]; exists (Some a); (split; [| reflexivity]); rewrite <- H; set_solver.
Qed.

(** [free_state] returns the three arrays of the slot and nothing else. *)
Lemma free_state_spec si t u t' :
  free_state si t = Ok (u, t') ->
  exists s, zlookup (tr_stack t) si = Some s /\
            tr_stack t' = <[Z.to_nat si := zero_State]> (tr_stack t) /\
            freed (slot_ptrs s) (tr_heap t) (tr_heap t').
Proof.
  unfold free_state. intros H.
  apply bind_ok in H as (s & t1 & H1 & H). apply slot_ok in H1 as [Hs ->].
  apply bind_ok in H as (u1 & t1 & H1 & H). apply dealloc_lookup in H1 as (h1 & -> & Hh1).
  apply bind_ok in H as (u2 & t2 & H2 & H). apply dealloc_lookup in H2 as (h2 & -> & Hh2).
  apply bind_ok in H as (u3 & t3 & H3 & H). apply dealloc_lookup in H3 as (h3 & -> & Hh3).
  apply update_slot_ok in H as (s0 & Hs0 & ->). cbn in *.
  exists s. split; [exact Hs |]. split; [reflexivity |].
  intros a. rewrite Hh3, Hh2, Hh1.
  pose proof (elem_of_slot_ptrs s a) as Hin.
  repeat case_decide; try reflexivity; exfalso; tauto.
Qed.

Lemma finish_loop n : forall i t u t',
  wf t ->
  for_loop n (Z.of_nat i)
    (fun i => bind (slot i) (fun s => match st_e s with
                                      | Some _ => free_state i
                                      | None => ret tt
                                      end)) t = Ok (u, t') ->
  freed (mjoin (slot_ptrs <$> take n (drop i (tr_stack t)))) (tr_heap t) (tr_heap t').
Proof.
  induction n as [| n IH]; intros i t u t' Hwf H; cbn [for_loop] in H.
  - apply ret_ok in H as [_ ->]. intros a. rewrite take_0. cbn.
    case_decide as Hd; [inversion Hd | reflexivity].
  - apply bind_ok in H as (u1 & t1 & H1 & H).
    apply bind_ok in H1 as (s & t0 & Hs & H1). apply slot_ok in Hs as [Hs ->].
    pose proof Hs as Hzs. apply zlookup_Some in Hs as [_ Hs]. rewrite Nat2Z.id in Hs.
    replace (Z.of_nat i + 1) with (Z.of_nat (S i)) in H by lia.
    rewrite (drop_S _ _ _ Hs).
    change (mjoin (slot_ptrs <$> take (S n) (s :: drop (S i) (tr_stack t))))
      with (slot_ptrs s ++ mjoin (slot_ptrs <$> take n (drop (S i) (tr_stack t)))).
    assert (Hstep : wf t1 /\ drop (S i) (tr_stack t1) = drop (S i) (tr_stack t) /\
                    freed (slot_ptrs s) (tr_heap t) (tr_heap t1)).
    { destruct (st_e s) as [a |] eqn:He.
      - split; [exact (proj1 (keeps_free_state _ _ _ _ H1 Hwf)) |].
        apply free_state_spec in H1 as (s' & Hs' & Hst & Hfreed).
        assert (s' = s) by congruence. subst s'.
        split; [| exact Hfreed]. rewrite Hst, Nat2Z.id. apply drop_insert_lt. lia.
      - apply ret_ok in H1 as [_ ->]. split; [exact Hwf |]. split; [reflexivity |].
        rewrite (slot_wf_no_arrays _ _ _ (wf_slot t _ s Hwf Hzs) He).
        intros a. case_decide as Hd; [inversion Hd | reflexivity]. }
    destruct Hstep as (Hwf1 & Hdrop & Hfreed).
    specialize (IH (S i) t1 u t' Hwf1 H). rewrite Hdrop in IH.
    intros a. rewrite (IH a), (Hfreed a).
    repeat case_decide; try reflexivity; exfalso;
      match goal with H : context [_ ++ _] |- _ => rewrite elem_of_app in H end; tauto.
Qed.

Lemma finish_spec t u t' :
  wf t -> Z.of_nat (length (tr_stack t)) <= tr_size t -> finish t = Ok (u, t') ->
  tr_stack t' = [] /\ freed (stack_ptrs t) (tr_heap t) (tr_heap t').
Proof.
  intros Hwf Hlen H. split; [exact (proj1 (finish_stack t u t' H)) |].
  unfold finish in H.
  apply bind_ok in H as (stack & t0 & Hg & H). apply gets_ok in Hg as [-> ->].
  destruct (tr_stack t) as [| s0 stack] eqn:Hst.
  - apply ret_ok in H as [_ ->]. unfold stack_ptrs. rewrite Hst. intros a. cbn.
    case_decide as Hd; [inversion Hd | reflexivity].
  - apply bind_ok in H as (size & t0 & Hg & H). apply gets_ok in Hg as [-> ->].
    apply bind_ok in H as (u1 & t1 & Hloop & H). injection H as _ <-.
    cbn [tr_heap with_stack].
    pose proof (finish_loop (Z.to_nat (tr_size t)) 0 t u1 t1 Hwf Hloop) as Hfreed.
    rewrite drop_0, take_ge in Hfreed by (rewrite Hst; lia).
    exact Hfreed.
Qed.

(** X11.  On a well-formed stack of at most [size] slots, [finish] frees
    exactly the arrays that the stack owns: they are gone afterwards,
    every other array is left with its cells, and the stack is null.
    A second [finish] changes nothing. *)
Theorem finish_frees_the_stack (t t' : Traverse) :
  wf t -> Z.of_nat (length (tr_stack t)) <= tr_size t -> finish t = Ok (tt, t') ->
  tr_stack t' = [] /\ freed (stack_ptrs t) (tr_heap t) (tr_heap t') /\
  finish t' = Ok (tt, t').
Proof.
  intros Hwf Hlen H. destruct (finish_spec t tt t' Hwf Hlen H) as [Hst Hfreed].
  split; [exact Hst |]. split; [exact Hfreed |].
  unfold finish, bind, gets. rewrite Hst. reflexivity.
Qed.

Lemma finish_frees_the_stack_witness :
  tr_stack (snd (run_from finish (ex_entered [ex_mesh_leaf] 1) tt)) = [] /\
  freed (stack_ptrs (ex_entered [ex_mesh_leaf] 1)) (tr_heap (ex_entered [ex_mesh_leaf] 1))
        (tr_heap (snd (run_from finish (ex_entered [ex_mesh_leaf] 1) tt))) /\
  finish (snd (run_from finish (ex_entered [ex_mesh_leaf] 1) tt))
    = Ok (tt, snd (run_from finish (ex_entered [ex_mesh_leaf] 1) tt)).
Proof.
  apply (finish_frees_the_stack (ex_entered [ex_mesh_leaf] 1)).
  - apply ex_entered_wf.
  - vm_compute. discriminate.
  - vm_compute. reflexivity.
Defined.

(** ** The arrays of a whole traversal *)

#[local] Instance same_shape_preorder : PreOrder same_shape.
Proof.
  split; [intros t; split; reflexivity |].
  intros t1 t2 t3 [? ?] [? ?]. unfold same_shape. split; congruence.
Qed.

Lemma same_shape_store p i c : respects same_shape (store p i c).
Proof.
  intros t u t' H. apply store_ok in H as (a & arr & _ & _ & _ & ->). split; reflexivity.
Qed.

Lemma same_shape_update_slot i f : respects same_shape (update_slot i f).
Proof.
  intros t u t' H. apply update_slot_ok in H as (s & _ & ->).
  split; [apply length_insert | reflexivity].
Qed.

Lemma same_shape_set_top x : respects same_shape (set_top x).
Proof. intros t u t' H. unfold set_top in H. injection H as _ <-. split; reflexivity. Qed.

Lemma same_shape_alloc n : respects same_shape (alloc n).
Proof. intros t u t' H. apply alloc_ok in H as (a & _ & _ & ->). split; reflexivity. Qed.

#[local] Hint Resolve same_shape_store same_shape_update_slot same_shape_set_top
  same_shape_alloc : respects_db.

Lemma same_shape_put_e si i v : respects same_shape (put_e si i v).
Proof. unfold put_e. respects_auto. Qed.

Lemma same_shape_put_er si i v : respects same_shape (put_er si i v).
Proof. unfold put_er. respects_auto. Qed.

Lemma same_shape_put_sub_idx si i v : respects same_shape (put_sub_idx si i v).
Proof. unfold put_sub_idx. respects_auto. Qed.

#[local] Hint Resolve same_shape_put_e same_shape_put_er same_shape_put_sub_idx : respects_db.

Lemma same_shape_push_state : respects same_shape push_state.
Proof. unfold push_state, memset_idx. respects_auto. Qed.

#[local] Instance tidy_preorder : PreOrder tidy.
Proof.
  split.
  - intros t Hs. split; [exact Hs | intros a; reflexivity].
  - intros t1 t2 t3 H12 H23 Hs. destruct (H12 Hs) as [Hs2 Ho12].
    destruct (H23 Hs2) as [Hs3 Ho23]. split; [exact Hs3 |].
    intros a. rewrite Ho23. apply Ho12.
Qed.

Lemma tidy_intro {A : Type} (c : M A) :
  respects (above 0) c -> respects same_shape c -> respects tidy c.
Proof.
  intros Ha Hs t x t' H [Hwf Hlen].
  destruct (Ha t x t' H (conj Hwf (fun H0 => H0))) as ((Hwf' & _) & _ & _ & Hout & _).
  destruct (Hs t x t' H) as [Hl Hsz].
  split; [split; [exact Hwf' | rewrite Hl, Hsz; exact Hlen] | exact Hout].
Qed.

Lemma tidy_put_e si i v : respects tidy (put_e si i v).
Proof. apply tidy_intro; eauto with respects_db. Qed.

Lemma tidy_put_er si i v : respects tidy (put_er si i v).
Proof. apply tidy_intro; eauto with respects_db. Qed.

Lemma tidy_put_sub_idx si i v : respects tidy (put_sub_idx si i v).
Proof. apply tidy_intro; eauto with respects_db. Qed.

Lemma tidy_update_slot i f : keeps_ptrs f -> respects tidy (update_slot i f).
Proof.
  intros Hf. apply tidy_intro; [| apply same_shape_update_slot].
  apply above_update_slot; [exact Hf | intros H; exact H].
Qed.

Lemma tidy_set_top x : respects tidy (set_top x).
Proof. apply tidy_intro; eauto with respects_db. Qed.

Lemma tidy_push_state : respects tidy push_state.
Proof. apply tidy_intro; [apply above_push_state | apply same_shape_push_state]. Qed.

#[local] Hint Resolve tidy_put_e tidy_put_er tidy_put_sub_idx tidy_set_top tidy_push_state
  : respects_db.
#[local] Hint Extern 2 (respects tidy (update_slot _ _)) =>
  apply tidy_update_slot; intros []; repeat split : respects_db.

(** [finish] returns what the stack owns. *)
Lemma tidy_finish : respects tidy finish.
Proof.
  intros t u t' H [Hwf Hlen].
  destruct (keeps_finish t u t' H Hwf) as (Hwf' & _ & _ & Hsize & _).
  destruct (finish_spec t u t' Hwf Hlen H) as [Hst Hfreed].
  split; [split; [exact Hwf' | rewrite Hst, Hsize; cbn; lia] |].
  intros a. unfold outside, stack_ptrs at 1. rewrite Hst, (Hfreed a). cbn.
  case_decide as Hd.
  - split; [intros [[x Hx] _]; discriminate | intros [_ Hno]; contradiction].
  - split; [intros [Ha _]; split; assumption | intros [Ha _]; split; [exact Ha | inversion 1]].
Qed.
#[local] Hint Resolve tidy_finish : respects_db.

Lemma tidy_fields_only t t' : fields_only t t' -> tidy t t'.
Proof.
  intros Hf [Hwf Hlen]. pose proof (fields_only_wf t t' Hf Hwf) as Hwf'.
  pose proof (fields_only_stack_ptrs t t' Hf) as Hptrs.
  destruct Hf as (Hheap & Hslots & _ & _ & _ & Hsize).
  split.
  - split; [exact Hwf' |]. rewrite <- (Forall2_length _ _ _ Hslots), Hsize. exact Hlen.
  - intros a. unfold outside. rewrite Hheap, Hptrs. reflexivity.
Qed.

Lemma tidy_push_transform si son i tri : respects tidy (push_transform si son i tri).
Proof. unfold push_transform. respects_all. Qed.
#[local] Hint Resolve tidy_push_transform : respects_db.

Lemma tidy_init_transforms_loop fuel : forall si i x,
  respects tidy (init_transforms_loop fuel si i x).
Proof. induction fuel as [| fuel IH]; intros si i x; simpl; respects_all. Qed.

Lemma tidy_init_transforms fuel si i : respects tidy (init_transforms fuel si i).
Proof. unfold init_transforms. respects_all. apply tidy_init_transforms_loop. Qed.
#[local] Hint Resolve tidy_init_transforms : respects_db.

Lemma tidy_enter_state fuel si : respects tidy (enter_state fuel si).
Proof. unfold enter_state. respects_all. Qed.

Lemma tidy_move_element si ns i e code : respects tidy (move_element si ns i e code).
Proof. unfold move_element. respects_all. Qed.
#[local] Hint Resolve tidy_move_element : respects_db.

Lemma tidy_push_triangle_son si son : respects tidy (push_triangle_son si son).
Proof. unfold push_triangle_son. respects_all. Qed.

Lemma tidy_push_quad_son dflt si son k cs : respects tidy (push_quad_son dflt si son k cs).
Proof. unfold push_quad_son. respects_all. Qed.

Lemma tidy_push_quad_single si cs : respects tidy (push_quad_single si cs).
Proof. unfold push_quad_single. respects_all. Qed.

#[local] Hint Resolve tidy_push_triangle_son tidy_push_quad_son tidy_push_quad_single
  tidy_enter_state : respects_db.

Lemma tidy_push_sons dflt si : respects tidy (push_sons dflt si).
Proof. unfold push_sons. respects_all. Qed.

Lemma tidy_pop_visited n : respects tidy (pop_visited n).
Proof. induction n as [| n IH]; simpl; respects_all. Qed.

Lemma tidy_load_base_element ONE n : forall meshes si id i nused,
  respects tidy (load_base_element ONE n meshes si id i nused).
Proof. induction n as [| n IH]; intros meshes si id i nused; simpl; respects_all. Qed.
#[local] Hint Resolve tidy_load_base_element tidy_pop_visited tidy_push_sons : respects_db.

Lemma tidy_next_base_element ONE n : forall meshes si id,
  respects tidy (next_base_element ONE n meshes si id).
Proof. induction n as [| n IH]; intros meshes si id; simpl; respects_all. Qed.
#[local] Hint Resolve tidy_next_base_element : respects_db.

Lemma tidy_select_state ONE meshes lc : respects tidy (select_state ONE meshes lc).
Proof. unfold select_state. respects_all. Qed.

(** The arrays of a clone are new, and the only new ones. *)
Lemma clone_outside ONE si t c t' :
  sized t -> clone ONE si t = Ok (c, t') ->
  sized t' /\ NoDup (slot_ptrs c) /\
  (forall a, a ∈ slot_ptrs c -> tr_heap t !! a = None) /\
  (forall a, outside t' a <-> outside t a \/ a ∈ slot_ptrs c).
Proof.
  intros [Hwf Hlen] H.
  destruct (keeps_clone ONE si t c t' H Hwf) as (Hwf' & _ & _ & Hsize & _).
  destruct (clone_spec ONE si t c t' Hwf H)
    as (other & pe & ps & E & S & _ & Hpe & Hps & Hne & -> & -> & _).
  assert (Hptrs : forall a, a ∈ slot_ptrs (mkState (Some pe) None (Some ps) (H2D_UNITY ONE)
                    (st_bnd other) (st_rep other) (st_rep_i other) (st_visited other)
                    (st_isurf other) (st_isBnd other) (st_num other))
                  <-> a = pe \/ a = ps).
  { intros a. rewrite elem_of_slot_ptrs. cbn. split.
    - intros [[= ->] | [[=] | [= ->]]]; auto.
    - intros [-> | ->]; auto. }
  split; [split; [exact Hwf' | exact Hlen] |]. split.
  { unfold slot_ptrs. cbn. constructor; [| constructor; [inversion 1 | constructor]].
    intros Hin. apply list_elem_of_singleton in Hin. contradiction. }
  split.
  { intros a Ha. apply Hptrs in Ha as [-> | ->]; assumption. }
  intros a. rewrite Hptrs. unfold outside. cbn [tr_heap with_heap].
  change (stack_ptrs (with_heap _ t)) with (stack_ptrs t).
  destruct (decide (a = ps)) as [-> | Hps'].
  - rewrite lookup_insert_eq. split; [intros _; right; right; reflexivity |].
    intros _. split; [eexists; reflexivity |].
    intros Hown. destruct (wf_ptrs_allocated t ps Hwf Hown) as [x Hx]. congruence.
  - rewrite lookup_insert_ne by congruence.
    destruct (decide (a = pe)) as [-> | Hpe'].
    + rewrite lookup_insert_eq. split; [intros _; right; left; reflexivity |].
      intros _. split; [eexists; reflexivity |].
      intros Hown. destruct (wf_ptrs_allocated t pe Hwf Hown) as [x Hx]. congruence.
    + rewrite lookup_insert_ne by congruence. tauto.
Qed.

(** The invariant of the loop of [get_states]: the arrays outside the
    stack are those [D] of the start and those of the states returned so
    far, which are distinct and were not among [D]. *)
Lemma finish_state_accounts ONE dflt (D : positive -> Prop) si lc t it t' :
  sized t ->
  (forall a, outside t a <-> D a \/ a ∈ arrays_of (lc_states lc)) ->
  NoDup (arrays_of (lc_states lc)) ->
  (forall a, a ∈ arrays_of (lc_states lc) -> ~ D a) ->
  finish_state ONE dflt si lc t = Ok (it, t') ->
  exists lc', it = Continue lc' /\ sized t' /\
    (forall a, outside t' a <-> D a \/ a ∈ arrays_of (lc_states lc')) /\
    NoDup (arrays_of (lc_states lc')) /\
    (forall a, a ∈ arrays_of (lc_states lc') -> ~ D a).
Proof.
  intros Hs Hout Hnd Hnew H. unfold finish_state in H.
  apply bind_ok in H as (num & t0 & Hg & H). apply gets_ok in Hg as [-> ->].
  apply bind_ok in H as (leaf & t0 & Hleaf & H).
  pose proof (respects_is_leaf eq _ _ _ _ _ _ Hleaf) as <-.
  destruct leaf.
  - apply bind_ok in H as (lc' & t1 & Hemit & H). apply ret_ok in H as [-> <-].
    exists lc'. split; [reflexivity |].
    destruct (emit_leaf_spec ONE si lc t lc' t' Hemit)
      as (t3 & s3 & Hf & _ & [(j & e & c & _ & _ & _ & Hclone & Hst) | (_ & Hst & ->)]).
    + destruct (tidy_fields_only t t3 Hf Hs) as [Hs3 Hout3].
      destruct (clone_outside ONE si t3 c t' Hs3 Hclone) as (Hs' & Hndc & Hfresh & Hout').
      assert (Hnot : forall a, a ∈ slot_ptrs c -> ~ outside t a).
      { intros a Ha Ho. apply Hout3 in Ho. destruct Ho as [[x Hx] _].
        rewrite (Hfresh a Ha) in Hx. discriminate. }
      assert (Harr : arrays_of (lc_states lc') = arrays_of (lc_states lc) ++ slot_ptrs c).
      { rewrite Hst. unfold arrays_of. rewrite fmap_app, join_app. cbn.
        rewrite app_nil_r. reflexivity. }
      rewrite Harr. split; [exact Hs' |]. split; [| split].
      * intros a. rewrite Hout', Hout3, Hout, elem_of_app. tauto.
      * apply NoDup_app. split; [exact Hnd |]. split; [| exact Hndc].
        intros a Ha Hc. apply (Hnot a Hc). apply Hout. right. exact Ha.
      * intros a Ha HD. apply elem_of_app in Ha as [Ha | Ha]; [exact (Hnew a Ha HD) |].
        apply (Hnot a Ha). apply Hout. left. exact HD.
    + destruct (tidy_fields_only t t3 Hf Hs) as [Hs3 Hout3].
      rewrite Hst. split; [exact Hs3 |]. split; [| split; assumption].
      intros a. rewrite Hout3. apply Hout.
  - apply bind_ok in H as (u & t1 & Hpush & H). apply ret_ok in H as [-> <-].
    exists lc. split; [reflexivity |].
    destruct (tidy_push_sons dflt si t u t' Hpush Hs) as [Hs' Hout'].
    split; [exact Hs' |]. split; [| split; assumption].
    intros a. rewrite Hout'. apply Hout.
Qed.

Lemma get_states_loop_accounts ONE dflt (D : positive -> Prop) :
  forall fuel meshes lc t states t',
    sized t ->
    (forall a, outside t a <-> D a \/ a ∈ arrays_of (lc_states lc)) ->
    NoDup (arrays_of (lc_states lc)) ->
    (forall a, a ∈ arrays_of (lc_states lc) -> ~ D a) ->
    get_states_loop ONE dflt fuel meshes lc t = Ok (states, t') ->
    tr_stack t' = [] /\
    (forall a, is_Some (tr_heap t' !! a) <-> D a \/ a ∈ arrays_of states) /\
    NoDup (arrays_of states) /\
    (forall a, a ∈ arrays_of states -> ~ D a).
Proof.
  induction fuel as [| fuel IH]; intros meshes lc t states t' Hs Hout Hnd Hnew H;
    simpl in H; [discriminate |].
  apply bind_ok in H as (it & t1 & Hbody & H).
  unfold loop_body in Hbody.
  apply bind_ok in Hbody as (sel & t2 & Hsel & Hbody).
  destruct (tidy_select_state ONE meshes lc t sel t2 Hsel Hs) as [Hs2 Hout2].
  destruct sel as [[si id] |].
  - apply bind_ok in Hbody as (u & t3 & Henter & Hfin).
    destruct (tidy_enter_state fuel si t2 u t3 Henter Hs2) as [Hs3 Hout3].
    assert (Hout3' : forall a, outside t3 a <-> D a \/ a ∈ arrays_of (lc_states lc)).
    { intros a. rewrite Hout3, Hout2. apply Hout. }
    destruct (finish_state_accounts ONE dflt D si
                (mkLocals id (lc_states lc) (lc_predictedCount lc)) t3 it t1
                Hs3 Hout3' Hnd Hnew Hfin)
      as (lc' & -> & Hs1 & Hout1 & Hnd1 & Hnew1).
    exact (IH meshes lc' t1 states t' Hs1 Hout1 Hnd1 Hnew1 H).
  - apply ret_ok in Hbody as [-> ->]. apply ret_ok in H as [-> <-].
    assert (Hst : tr_stack t' = []).
    { unfold select_state in Hsel.
      apply bind_ok in Hsel as (top0 & ta & _ & Hsel).
      apply bind_ok in Hsel as (u1 & tb & _ & Hsel).
      apply bind_ok in Hsel as (top & tc & _ & Hsel).
      destruct (top <=? 0); [| apply ret_ok in Hsel as [[=] _]].
      apply bind_ok in Hsel as (si & td & _ & Hsel).
      apply bind_ok in Hsel as (u2 & te & _ & Hsel).
      apply bind_ok in Hsel as (m0 & tf & _ & Hsel).
      apply bind_ok in Hsel as (found & tg & _ & Hsel).
      destruct found as [id |].
      - apply bind_ok in Hsel as (tri & th & _ & Hsel).
        apply bind_ok in Hsel as (u3 & ti & _ & Hsel). apply ret_ok in Hsel as [[=] _].
      - apply bind_ok in Hsel as (u3 & th & Hfin & Hsel). apply ret_ok in Hsel as [_ ->].
        exact (proj1 (finish_stack _ _ _ Hfin)). }
    split; [exact Hst |]. split; [| split; assumption].
    intros a. rewrite <- Hout, <- Hout2. unfold outside, stack_ptrs. rewrite Hst. cbn.
    split; [intros Ha; split; [exact Ha | inversion 1] | intros [Ha _]; exact Ha].
Qed.

Lemma get_states_accounts ONE dflt fuel meshes meshes_count t states t' :
  get_states ONE dflt fuel meshes meshes_count t = Ok (states, t') ->
  heap_accounted t states t'.
Proof.
  intros H. pose proof H as Hrun. unfold get_states in H.
  apply bind_ok in H as (u & t1 & H1 & H). injection H1 as _ <-.
  apply bind_ok in H as (predicted & t2 & H2 & H). apply lift_ok in H2 as [_ ->].
  apply bind_ok in H as (num & t3 & H3 & H). apply gets_ok in H3 as [-> ->].
  apply bind_ok in H as (u' & t4 & Hbegin & H).
  apply begin_wf in Hbegin as (Hwf & _ & _ & Hsize & _ & Hheap & _ & Hst).
  cbn [tr_heap with_num] in Hheap.
  assert (Hptrs : stack_ptrs t4 = []).
  { unfold stack_ptrs. rewrite Hst. generalize (Z.to_nat 256).
    induction n as [| n IHn]; [reflexivity | exact IHn]. }
  assert (Hs4 : sized t4).
  { split; [exact Hwf |]. rewrite Hst, Hsize, length_replicate. lia. }
  assert (Hout4 : forall a, outside t4 a <->
                    is_Some (tr_heap t !! a) \/ a ∈ arrays_of (lc_states (mkLocals 0 [] predicted))).
  { intros a. unfold outside. rewrite Hptrs, Hheap. cbn. unfold arrays_of. cbn.
    split; [intros [Ha _]; left; exact Ha | intros [Ha | Ha]; [| inversion Ha]].
    split; [exact Ha | inversion 1]. }
  destruct (get_states_loop_accounts ONE dflt (fun a => is_Some (tr_heap t !! a))
              fuel meshes _ t4 states t' Hs4 Hout4 (NoDup_nil_2)
              ltac:(intros a Ha; inversion Ha) H) as (Hst' & Hdom & Hnd & Hnew).
  - split; [exact Hst' |]. split; [exact Hnd |]. split; [| split; [exact Hdom |]].
    + intros a Ha. specialize (Hnew a Ha).
      destruct (tr_heap t !! a) eqn:E; [exfalso; apply Hnew; eexists; reflexivity | reflexivity].
    + intros a Ha.
      destruct (keeps_get_states_loop ONE dflt fuel meshes _ t4 states t' H Hwf)
        as (_ & Hframe & _).
      rewrite <- Hheap. apply Hframe; [rewrite Hheap; exact Ha |].
      rewrite Hptrs. inversion 1.
Qed.

(** X12.  When [get_states] returns, the stack has been freed with all
    its arrays: the arrays allocated afterwards are exactly those
    allocated before the call and the arrays [e] and [sub_idx] of the
    returned states, which are pairwise distinct and new; and every array
    allocated before the call holds the cells it held. *)
Theorem get_states_leaves_no_array (ONE : Z) (dflt : bool) (fuel : nat) (meshes : list Mesh)
        (meshes_count : Z) (t : Traverse) (states : list State) (t' : Traverse) :
  get_states ONE dflt fuel meshes meshes_count t = Ok (states, t') ->
  heap_accounted t states t'.
Proof. exact (get_states_accounts ONE dflt fuel meshes meshes_count t states t'). Qed.

Lemma get_states_leaves_no_array_witness :
  heap_accounted (Traverse_new 1 ∅) (fst (ex_run [ex_mesh_refined] 1))
                 (snd (ex_run [ex_mesh_refined] 1)).
Proof.
  apply (get_states_leaves_no_array ex_ONE false 1000 [ex_mesh_refined] 1).
  vm_compute. reflexivity.
Defined.

(** ** The returned states *)

Lemma stable_returned_ok ONE num sp : stable (returned_ok ONE num sp).
Proof.
  intros h h' c Hag
    (Hcr & Her & Hv & Hi & Hn & e & Hrep & Hu & Hact & Hj & Hjn & a & arr & Ha & Harr & Hc).
  split; [exact Hcr |]. split; [exact Her |]. split; [exact Hv |].
  split; [exact Hi |]. split; [exact Hn |].
  exists e. split; [exact Hrep |]. split; [exact Hu |]. split; [exact Hact |].
  split; [exact Hj |]. split; [exact Hjn |].
  exists a, arr. split; [exact Ha |]. split; [| exact Hc].
  rewrite Hag; [exact Harr | apply slot_ptrs_e, Ha].
Qed.

Lemma same_visit_alloc n : respects (slots_rel same_visit) (alloc n).
Proof.
  intros t p t' H. apply alloc_ok in H as (a & _ & _ & ->).
  apply (slots_rel_same_stack same_visit). reflexivity.
Qed.

#[local] Hint Resolve same_visit_alloc : respects_db.
#[local] Hint Extern 2 (respects (slots_rel same_visit) (store _ _ _)) =>
  apply (respects_slots_store same_visit) : respects_db.

Lemma same_visit_init_transforms_loop fuel : forall si i x,
  respects (slots_rel same_visit) (init_transforms_loop fuel si i x).
Proof. induction fuel as [| fuel IH]; intros si i x; simpl; respects_all. Qed.

Lemma same_visit_init_transforms fuel si i :
  respects (slots_rel same_visit) (init_transforms fuel si i).
Proof. unfold init_transforms. respects_all. apply same_visit_init_transforms_loop. Qed.
#[local] Hint Resolve same_visit_init_transforms : respects_db.

(** A state that has been entered is marked as visited. *)
Lemma enter_state_visited fuel si t u t' :
  enter_state fuel si t = Ok (u, t') ->
  exists s, zlookup (tr_stack t') si = Some s /\ st_visited s = true.
Proof.
  unfold enter_state. intros H.
  apply bind_ok in H as (u1 & t1 & H1 & H). apply update_slot_ok in H1 as (s & Hs & ->).
  set (t1 := with_stack (<[Z.to_nat si := set_visited true s]> (tr_stack t)) t) in *.
  assert (Hs1 : zlookup (tr_stack t1) si = Some (set_visited true s))
    by (apply (lookup_insert_slot _ _ s), Hs).
  assert (Hrel : slots_rel same_visit t1 t').
  { revert H. generalize t1 u t'.
    change (respects (slots_rel same_visit)
      (bind (gets tr_num) (fun num =>
         for_loop (Z.to_nat num) 0
           (fun i => bind (get_e si i) (fun p =>
              match p with
              | Some e =>
                  if el_used e then
                    bind (get_sub_idx si i) (fun v =>
                      if (v =? 0) && el_active e then
                        if negb (el_is_triangle e) then init_transforms fuel si i else ret tt
                      else ret tt)
                  else ret tt
              | None => ret tt
              end))))).
    respects_all. }
  destruct (slots_rel_lookup _ _ _ _ _ Hrel Hs1) as (s' & Hs' & Hv & _).
  exists s'. split; [exact Hs' |]. rewrite Hv. reflexivity.
Qed.

Lemma same_visit_set_boundary_info ONE si :
  respects (slots_rel same_visit) (set_boundary_info ONE si).
Proof. unfold set_boundary_info. respects_all. Qed.

Lemma same_visit_choose_rep si : respects (slots_rel same_visit) (choose_rep si).
Proof. unfold choose_rep. respects_all. Qed.

Lemma same_visit_clone ONE si : respects (slots_rel same_visit) (clone ONE si).
Proof. unfold clone, memcpy. respects_all. Qed.

#[local] Hint Resolve same_visit_set_boundary_info same_visit_choose_rep same_visit_clone
  : respects_db.

Lemma same_visit_emit_leaf ONE si lc : respects (slots_rel same_visit) (emit_leaf ONE si lc).
Proof. unfold emit_leaf. respects_all. Qed.

(** What the leaf branch appends for a visited state that [push_state]
    has set up. *)
Lemma emit_leaf_returned ONE si lc t lc' t' s :
  wf t -> zlookup (tr_stack t) si = Some s ->
  st_visited s = true -> st_isurf s = -1 -> st_num s = tr_num t ->
  all_used_active t si ->
  emit_leaf ONE si lc t = Ok (lc', t') ->
  lc_states lc' = lc_states lc \/
  exists c, lc_states lc' = lc_states lc ++ [c] /\ unowned t' c /\
            returned_ok ONE (tr_num t) (tr_spaces_size t) (tr_heap t') c.
Proof.
  intros Hwf Hs Hv Hi Hn Hall H.
  pose proof (same_visit_emit_leaf ONE si lc t lc' t' H) as Hrel.
  destruct (emit_leaf_cases ONE si lc t lc' t' Hwf H)
    as [(_ & t3 & c & j & e & Hf & Hwf3 & Hclone & Hst & Hr & Hri & Hlast) | (_ & Hst)];
    [right | left; exact Hst].
  exists c. split; [exact Hst |]. split; [eapply clone_unowned; eassumption |].
  destruct (clone_spec ONE si t3 c t' Hwf3 Hclone)
    as (other & pe & ps & E & S & Hother & _ & _ & Hne & Ht' & Hc & HlenE & _ & HE & _).
  (* the source of the clone is the slot as the branch leaves it *)
  destruct (slots_rel_lookup _ _ _ _ _ Hrel Hs) as (s' & Hs' & Hv' & Hi' & Hn').
  assert (other = s').
  { rewrite Ht' in Hs'. cbn [tr_stack with_heap] in Hs'. congruence. }
  subst other.
  destruct Hlast as (Hj & [Hcell Hused] & _).
  (* the mesh of the representative is one of the [num] meshes *)
  assert (Hjn : 0 <= j < tr_num t).
  { destruct Hcell as (s0 & a & arr & Hs0 & Ha & Harr & Hcj).
    assert (s0 = s) by congruence. subst s0.
    destruct (wf_slot t si s Hwf Hs) as [(Hnone & _) | ((a' & arr' & Ha' & Harr' & Hl) & _)];
      [congruence |].
    assert (a' = a) by congruence. subst a'.
    assert (arr' = arr) by congruence. subst arr'.
    apply zlookup_Some in Hcj as [Hj0 Hcj]. apply lookup_lt_Some in Hcj. lia. }
  (* the element is active, the state being a leaf *)
  assert (Hact : el_active e = true).
  { destruct (Hall j Hjn) as (p & Hp & Hpa).
    pose proof (slot_cell_det _ _ _ _ _ _ Hcell Hp) as Heq. injection Heq as <-.
    exact (Hpa e eq_refl Hused). }
  (* the copy holds the cell of the representative *)
  assert (HEj : E !! Z.to_nat j = Some (CElem (Some e))).
  { destruct (lookup_lt_is_Some_2 E (Z.to_nat j)) as [x Hx]; [rewrite HlenE, Hn', Hn; lia |].
    rewrite Hx. f_equal.
    pose proof (HE _ _ Hx) as Hx3. rewrite Z2Nat.id in Hx3 by lia.
    apply (fields_only_slot_cell st_e t t3 si j _ same_ptrs_e Hf) in Hcell.
    exact (slot_cell_det _ _ _ _ _ _ Hx3 Hcell). }
  subst c. unfold returned_ok. cbn [st_cr st_er st_visited st_isurf st_num st_rep st_rep_i].
  split; [reflexivity |]. split; [reflexivity |]. split; [congruence |].
  split; [congruence |]. split; [congruence |].
  cbn [st_rep st_rep_i] in Hr, Hri.
  exists e. split; [exact Hr |]. split; [exact Hused |]. split; [exact Hact |].
  rewrite Hri. split; [exact Hj |]. split; [lia |].
  exists pe, E. split; [reflexivity |]. split.
  - rewrite Ht'. cbn [tr_heap with_heap]. rewrite lookup_insert_ne by congruence.
    apply lookup_insert_eq.
  - apply zlookup_Some. split; [lia | exact HEj].
Qed.

#[local] Instance steady_preorder : PreOrder steady.
Proof.
  split; [intros t H; exact H |].
  intros t1 t2 t3 H12 H23 H. exact (H23 (H12 H)).
Qed.

#[local] Instance same_setup_preorder : PreOrder same_setup.
Proof.
  split.
  - intros s. split; reflexivity.
  - intros s1 s2 s3 [? ?] [? ?]. unfold same_setup. split; congruence.
Qed.

Lemma setup_of_visit {A : Type} (c : M A) :
  respects (slots_rel same_visit) c -> respects (slots_rel same_setup) c.
Proof.
  intros Hc t a t' H. eapply Forall2_impl; [exact (Hc t a t' H) |].
  intros s s' (_ & Hi & Hn). split; assumption.
Qed.

#[local] Hint Extern 4 (respects (slots_rel same_setup) _) =>
  apply setup_of_visit; solve [eauto with respects_db] : respects_db.

(** A run that leaves [top] and the set-up fields alone is steady. *)
Lemma steady_intro {A : Type} (c : M A) :
  respects keeps c -> respects (slots_rel same_setup) c -> respects same_top c ->
  respects steady c.
Proof.
  intros Hk Hv Ht t a t' H [Hwf Hnum].
  destruct (Hk t a t' H Hwf) as (Hwf' & _ & Hn & _).
  split; [exact Hwf' |]. intros j s' Hj Hs'.
  rewrite (Ht t a t' H) in Hj. apply zlookup_Some in Hs' as [Hj0 Hs'].
  destruct (Forall2_lookup_r _ _ _ _ _ (Hv t a t' H) Hs') as (s & Hs & Hi & Hm).
  destruct (Hnum j s Hj (proj2 (zlookup_Some _ _ _) (conj Hj0 Hs))) as [Hi0 Hm0].
  split; congruence.
Qed.

Lemma steady_put_e si i v : respects steady (put_e si i v).
Proof. apply steady_intro; eauto with respects_db. Qed.

Lemma steady_put_er si i v : respects steady (put_er si i v).
Proof. apply steady_intro; eauto with respects_db. Qed.

Lemma steady_put_sub_idx si i v : respects steady (put_sub_idx si i v).
Proof. apply steady_intro; eauto with respects_db. Qed.

Lemma steady_update_slot i f :
  keeps_ptrs f -> (forall s, same_setup s (f s)) -> respects steady (update_slot i f).
Proof.
  intros Hp Hv. apply steady_intro.
  - apply keeps_update_slot, Hp.
  - apply (respects_slots_update same_setup), Hv.
  - apply same_top_update_slot.
Qed.

Lemma steady_push_transform si son i tri : respects steady (push_transform si son i tri).
Proof. apply steady_intro; eauto with respects_db. Qed.

Lemma steady_move_element si ns i e code : respects steady (move_element si ns i e code).
Proof. apply steady_intro; eauto with respects_db. Qed.

#[local] Hint Resolve steady_put_e steady_put_er steady_put_sub_idx steady_push_transform
  steady_move_element : respects_db.
#[local] Hint Extern 2 (respects steady (update_slot _ _)) =>
  apply steady_update_slot; intros []; repeat split : respects_db.

(** [push_state] sets up the slot it returns. *)
Lemma steady_push_state : respects steady push_state.
Proof.
  intros t si t' H [Hwf Hnum].
  destruct (keeps_push_state t si t' H Hwf) as (Hwf' & _ & Hn & _).
  split; [exact Hwf' |].
  destruct (push_state_spec t si t' Hwf H)
    as (-> & Htop & s & s' & Hs & Hs' & Hplain & _).
  pose proof Hs as Hs0. apply zlookup_Some in Hs0 as [Htop0 _].
  destruct (above_push_state (tr_top t) t _ t' H (conj Hwf (fun _ => Z.le_refl _)))
    as (_ & _ & _ & _ & Hkeep).
  intros j sj Hj Hsj. rewrite Hn.
  destruct (Z.eq_dec j (tr_top t)) as [-> | Hne].
  - assert (sj = s') by congruence. subst sj.
    unfold plain in Hplain. injection Hplain as _ _ _ _ _ Hi _ Hm. split; assumption.
  - assert (Hlt : 0 <= j < tr_top t) by lia.
    destruct (lookup_lt_is_Some_2 (tr_stack t) (Z.to_nat j)) as [s0 Hs0].
    { apply zlookup_Some in Hs as [_ Hs]. apply lookup_lt_Some in Hs. lia. }
    assert (Hzs0 : zlookup (tr_stack t) j = Some s0)
      by (apply zlookup_Some; split; [lia | exact Hs0]).
    destruct (Hkeep j s0 Hlt Hzs0) as [Hs0' _].
    assert (sj = s0) by congruence. subst sj. exact (Hnum j s0 Hlt Hzs0).
Qed.
#[local] Hint Resolve steady_push_state : respects_db.

Lemma steady_pop_visited n : respects steady (pop_visited n).
Proof.
  induction n as [| n IH]; intros t u t' H; cbn [pop_visited] in H.
  - apply ret_ok in H as [_ ->]. reflexivity.
  - apply bind_ok in H as (top & t0 & Hg & H). apply gets_ok in Hg as [-> ->].
    destruct (Z.ltb_spec 0 (tr_top t)) as [Hpos | Hnpos];
      [| apply ret_ok in H as [_ ->]; reflexivity].
    apply bind_ok in H as (s & t0 & Hs & H). apply slot_ok in Hs as [_ ->].
    destruct (st_visited s); [| apply ret_ok in H as [_ ->]; reflexivity].
    apply bind_ok in H as (u1 & t1 & Hset & H). unfold set_top in Hset. injection Hset as _ <-.
    transitivity (with_top (tr_top t - 1) t); [| exact (IH _ _ _ H)].
    intros [Hwf Hnum]. split.
    + exact (proj1 (keeps_set_top (tr_top t - 1) t tt _ eq_refl Hwf)).
    + intros j sj Hj Hsj. cbn [tr_top with_top] in Hj. apply (Hnum j sj); [lia | exact Hsj].
Qed.

Lemma steady_finish : respects steady finish.
Proof.
  intros t u t' H [Hwf _]. split; [exact (proj1 (keeps_finish t u t' H Hwf)) |].
  intros j s _ Hs. rewrite (proj1 (finish_stack t u t' H)) in Hs.
  unfold zlookup in Hs. destruct (j <? 0); discriminate Hs.
Qed.
#[local] Hint Resolve steady_pop_visited steady_finish : respects_db.

Lemma steady_load_base_element ONE n : forall meshes si id i nused,
  respects steady (load_base_element ONE n meshes si id i nused).
Proof. induction n as [| n IH]; intros meshes si id i nused; simpl; respects_all. Qed.
#[local] Hint Resolve steady_load_base_element : respects_db.

Lemma steady_next_base_element ONE n : forall meshes si id,
  respects steady (next_base_element ONE n meshes si id).
Proof. induction n as [| n IH]; intros meshes si id; simpl; respects_all. Qed.
#[local] Hint Resolve steady_next_base_element : respects_db.

Lemma steady_select_state ONE meshes lc : respects steady (select_state ONE meshes lc).
Proof. unfold select_state. respects_all. Qed.

Lemma steady_init_transforms_loop fuel : forall si i x,
  respects steady (init_transforms_loop fuel si i x).
Proof. induction fuel as [| fuel IH]; intros si i x; simpl; respects_all. Qed.

Lemma steady_init_transforms fuel si i : respects steady (init_transforms fuel si i).
Proof. unfold init_transforms. respects_all. apply steady_init_transforms_loop. Qed.
#[local] Hint Resolve steady_init_transforms : respects_db.

Lemma steady_enter_state fuel si : respects steady (enter_state fuel si).
Proof. unfold enter_state. respects_all. Qed.

Lemma steady_push_triangle_son si son : respects steady (push_triangle_son si son).
Proof. unfold push_triangle_son. respects_all. Qed.

Lemma steady_push_quad_son dflt si son k cs : respects steady (push_quad_son dflt si son k cs).
Proof. unfold push_quad_son. respects_all. Qed.

Lemma steady_push_quad_single si cs : respects steady (push_quad_single si cs).
Proof. unfold push_quad_single. respects_all. Qed.

#[local] Hint Resolve steady_push_triangle_son steady_push_quad_son steady_push_quad_single
  : respects_db.

Lemma steady_push_sons dflt si : respects steady (push_sons dflt si).
Proof. unfold push_sons. respects_all. Qed.

Lemma same_top_alloc n : respects same_top (alloc n).
Proof. intros t p t' H. apply alloc_ok in H as (a & _ & _ & ->). reflexivity. Qed.
#[local] Hint Resolve same_top_alloc : respects_db.

Lemma same_top_clone ONE si : respects same_top (clone ONE si).
Proof. unfold clone, memcpy. respects_auto. Qed.

Lemma same_top_set_boundary_info ONE si : respects same_top (set_boundary_info ONE si).
Proof. unfold set_boundary_info. respects_all. Qed.

Lemma same_top_choose_rep si : respects same_top (choose_rep si).
Proof. unfold choose_rep. respects_all. Qed.

#[local] Hint Resolve same_top_clone same_top_set_boundary_info same_top_choose_rep
  : respects_db.

Lemma same_top_emit_leaf ONE si lc : respects same_top (emit_leaf ONE si lc).
Proof. unfold emit_leaf. respects_all. Qed.

Lemma steady_emit_leaf ONE si lc : respects steady (emit_leaf ONE si lc).
Proof.
  apply steady_intro;
    [apply keeps_emit_leaf | apply setup_of_visit, same_visit_emit_leaf
    | apply same_top_emit_leaf].
Qed.

(** The state that an iteration works on lies below [top]. *)
Lemma same_top_load_base_element ONE n : forall meshes si id i nused,
  respects same_top (load_base_element ONE n meshes si id i nused).
Proof. induction n as [| n IH]; intros meshes si id i nused; simpl; respects_auto. Qed.
#[local] Hint Resolve same_top_load_base_element : respects_db.

Lemma same_top_next_base_element ONE n : forall meshes si id,
  respects same_top (next_base_element ONE n meshes si id).
Proof. induction n as [| n IH]; intros meshes si id; simpl; respects_auto. Qed.

Lemma select_state_below_top ONE meshes lc t si id t' :
  select_state ONE meshes lc t = Ok (Some (si, id), t') -> 0 <= si < tr_top t'.
Proof.
  unfold select_state. intros H.
  apply bind_ok in H as (top0 & ta & _ & H).
  apply bind_ok in H as (u1 & tb & _ & H).
  apply bind_ok in H as (top & tc & Hg & H). apply gets_ok in Hg as [-> ->].
  destruct (Z.leb_spec (tr_top tb) 0) as [Hle | Hgt].
  - apply bind_ok in H as (ns & td & Hpush & H).
    pose proof (push_state_index _ _ _ Hpush) as ->.
    pose proof (push_state_top _ _ _ Hpush) as Htd.
    assert (Hns : 0 <= tr_top tb).
    { unfold push_state in Hpush.
      apply bind_ok in Hpush as (x1 & y1 & Hg & Hpush). apply gets_ok in Hg as [-> ->].
      apply bind_ok in Hpush as (x2 & y2 & Hg & Hpush). apply gets_ok in Hg as [-> ->].
      destruct (tr_size tb <=? tr_top tb); [discriminate |].
      apply bind_ok in Hpush as (x3 & y3 & Hg & Hpush). apply gets_ok in Hg as [-> ->].
      apply bind_ok in Hpush as (s & y4 & Hs & _). apply slot_ok in Hs as [Hs _].
      apply zlookup_Some in Hs as [Hs _]. exact Hs. }
    apply bind_ok in H as (u2 & te & H2 & H).
    pose proof (same_top_update_slot _ _ _ _ _ H2) as Hte.
    apply bind_ok in H as (m0 & tf & H3 & H). apply lift_ok in H3 as [_ ->].
    apply bind_ok in H as (found & tg & H4 & H).
    pose proof (same_top_next_base_element _ _ _ _ _ _ _ _ H4) as Htg.
    destruct found as [id0 |].
    + apply bind_ok in H as (tri & th & H5 & H).
      pose proof (respects_State_is_triangle same_top _ _ _ _ H5) as Hth.
      apply bind_ok in H as (u3 & ti & H6 & H).
      assert (Hti : same_top th ti).
      { destruct tri; [exact (same_top_update_slot _ _ _ _ _ H6) |].
        apply ret_ok in H6 as [_ ->]. reflexivity. }
      apply ret_ok in H as [[= -> _] ->]. unfold same_top in *. lia.
    + apply bind_ok in H as (u3 & th & _ & H). apply ret_ok in H as [[=] _].
  - apply ret_ok in H as [[= -> _] ->]. lia.
Qed.

Lemma same_top_init_transforms_loop fuel : forall si i x,
  respects same_top (init_transforms_loop fuel si i x).
Proof. induction fuel as [| fuel IH]; intros si i x; simpl; respects_all. Qed.

Lemma same_top_enter_state fuel si : respects same_top (enter_state fuel si).
Proof.
  unfold enter_state, init_transforms. respects_all. apply same_top_init_transforms_loop.
Qed.

(** One iteration of the loop of [get_states]. *)
Lemma loop_body_returned ONE dflt fuel meshes lc t it t' :
  wf t -> numbered t ->
  loop_body ONE dflt fuel meshes lc t = Ok (it, t') ->
  (wf t' /\ numbered t') /\
  (it = Return (lc_states lc) \/
   exists lc', it = Continue lc' /\
     (lc_states lc' = lc_states lc \/
      exists c, lc_states lc' = lc_states lc ++ [c] /\ unowned t' c /\
                returned_ok ONE (tr_num t) (tr_spaces_size t) (tr_heap t') c)).
Proof.
  intros Hwf Hnum H. unfold loop_body in H.
  apply bind_ok in H as (sel & t2 & Hsel & H).
  destruct (steady_select_state ONE meshes lc t sel t2 Hsel (conj Hwf Hnum)) as [Hwf2 Hnum2].
  destruct (keeps_select_state ONE meshes lc t sel t2 Hsel Hwf) as (_ & _ & Hn2 & _ & Hsp2).
  destruct sel as [[si id] |]; [| apply ret_ok in H as [-> ->]; split; [split; assumption | left; reflexivity]].
  pose proof (select_state_below_top _ _ _ _ _ _ _ Hsel) as Hsi.
  apply bind_ok in H as (u & t3 & Henter & Hfin).
  destruct (steady_enter_state fuel si t2 u t3 Henter (conj Hwf2 Hnum2)) as [Hwf3 Hnum3].
  destruct (keeps_enter_state fuel si t2 u t3 Henter Hwf2) as (_ & _ & Hn3 & _ & Hsp3).
  pose proof (same_top_enter_state fuel si _ _ _ Henter) as Htop3.
  destruct (enter_state_visited fuel si t2 u t3 Henter) as (s & Hs & Hv).
  destruct (Hnum3 si s ltac:(unfold same_top in Htop3; lia) Hs) as [Hi Hm].
  unfold finish_state in Hfin.
  apply bind_ok in Hfin as (num & t0 & Hg & Hfin). apply gets_ok in Hg as [-> ->].
  apply bind_ok in Hfin as (leaf & t0 & Hleaf & Hfin).
  apply (is_leaf_all_used_active si t3 leaf t0 (proj1 Hwf3)) in Hleaf as [-> Hiff].
  destruct leaf.
  - apply bind_ok in Hfin as (lc' & t1 & Hemit & Hfin). apply ret_ok in Hfin as [-> <-].
    split; [exact (steady_emit_leaf ONE si _ t3 lc' t' Hemit (conj Hwf3 Hnum3)) |].
    right. exists lc'. split; [reflexivity |].
    destruct (emit_leaf_returned ONE si _ t3 lc' t' s Hwf3 Hs Hv Hi Hm
                (proj1 Hiff eq_refl) Hemit) as [Hsame | (c & Hc & Hun & Hok)].
    + left. exact Hsame.
    + right. exists c. split; [exact Hc |]. split; [exact Hun |].
      rewrite <- Hn2, <- Hn3, <- Hsp2, <- Hsp3. exact Hok.
  - apply bind_ok in Hfin as (u1 & t1 & Hpush & Hfin). apply ret_ok in Hfin as [-> <-].
    split; [exact (steady_push_sons dflt si t3 u1 t' Hpush (conj Hwf3 Hnum3)) |].
    right. exists (mkLocals id (lc_states lc) (lc_predictedCount lc)).
    split; [reflexivity | left; reflexivity].
Qed.

Lemma get_states_loop_returned_ok ONE dflt num sp :
  forall fuel meshes lc t states t',
    wf t -> numbered t -> tr_num t = num -> tr_spaces_size t = sp ->
    Forall (fun c => unowned t c /\ returned_ok ONE num sp (tr_heap t) c) (lc_states lc) ->
    get_states_loop ONE dflt fuel meshes lc t = Ok (states, t') ->
    Forall (fun c => unowned t' c /\ returned_ok ONE num sp (tr_heap t') c) states.
Proof.
  induction fuel as [| fuel IH]; intros meshes lc t states t' Hwf Hnum Hn Hsp Hlc H;
    simpl in H; [discriminate |].
  apply bind_ok in H as (it & t1 & Hbody & H).
  pose proof (keeps_loop_body ONE dflt fuel meshes lc t it t1 Hbody) as K.
  pose proof (keeps_returned_all _ t t1 _ (stable_returned_ok ONE num sp) K Hwf Hlc) as Hlc1.
  destruct (K Hwf) as (_ & _ & Hn1 & _ & Hsp1).
  destruct (loop_body_returned ONE dflt fuel meshes lc t it t1 Hwf Hnum Hbody)
    as ([Hwf1 Hnum1] & [-> | (lc' & -> & Hcase)]).
  - apply ret_ok in H as [-> <-]. exact Hlc1.
  - apply (IH meshes lc' t1 states t' Hwf1 Hnum1); [congruence | congruence | | exact H].
    destruct Hcase as [-> | (c & -> & Hun & Hc)]; [exact Hlc1 |].
    apply Forall_app. split; [exact Hlc1 |].
    constructor; [| constructor]. split; [exact Hun |]. rewrite <- Hn, <- Hsp. exact Hc.
Qed.

(** X13.  Every state that [get_states] returns has the rectangle [cr] of
    the unit square and a null [er], as the constructor leaves them, not
    those of the state it was cloned from; it is marked visited, its
    [isurf] is -1 and its [num] is the number of meshes; its
    representative is a used and active element, namely [e[rep_i]], with
    [rep_i] below both the number of spaces and the number of meshes; and
    its arrays are not arrays of the stack. *)
Theorem get_states_returns_complete_states (ONE : Z) (dflt : bool) (fuel : nat)
        (meshes : list Mesh) (meshes_count : Z) (t : Traverse) (states : list State)
        (t' : Traverse) :
  get_states ONE dflt fuel meshes meshes_count t = Ok (states, t') ->
  Forall (fun c => unowned t' c /\
                   returned_ok ONE meshes_count (tr_spaces_size t) (tr_heap t') c) states.
Proof.
  intros H. unfold get_states in H.
  apply bind_ok in H as (u & t1 & H1 & H). injection H1 as _ <-.
  apply bind_ok in H as (predicted & t2 & H2 & H). apply lift_ok in H2 as [_ ->].
  apply bind_ok in H as (num & t3 & H3 & H). apply gets_ok in H3 as [-> ->].
  apply bind_ok in H as (u' & t4 & Hbegin & H).
  apply begin_wf in Hbegin as (Hwf & Hnum & _ & _ & Htop & _ & Hsp & _).
  cbn [tr_num tr_spaces_size with_num] in Hnum, Hsp.
  refine (get_states_loop_returned_ok ONE dflt meshes_count (tr_spaces_size t)
            fuel meshes _ t4 states t' Hwf _ Hnum Hsp _ H).
  - intros j s Hj. rewrite Htop in Hj. lia.
  - constructor.
Qed.

Lemma get_states_returns_complete_states_witness :
  Forall (fun c => unowned (snd (ex_run [ex_mesh_refined] 1)) c /\
                   returned_ok ex_ONE 1 (tr_spaces_size (Traverse_new 1 ∅))
                               (tr_heap (snd (ex_run [ex_mesh_refined] 1))) c)
         (fst (ex_run [ex_mesh_refined] 1)).
Proof.
  apply (get_states_returns_complete_states ex_ONE false 1000 [ex_mesh_refined] 1
           (Traverse_new 1 ∅)).
  vm_compute. reflexivity.
Defined.

(** ** The record tables of the union construction, as a whole *)

Lemma rbind_ok {A B : Type} (x : result A) (k : A -> result B) b :
  rbind x k = Ok b -> exists a, x = Ok a /\ k a = Ok b.
Proof. destruct x as [a | e]; [| discriminate]. intros H. exists a. split; [reflexivity | exact H]. Qed.

Lemma all_active_ok n : forall e i,
  all_active n e i = Ok true ->
  forall k, i <= k < i + Z.of_nat n -> exists x, rd_element e k = Ok x /\ el_active x = true.
Proof.
  induction n as [| n IH]; intros e i H k Hk; [lia |].
  cbn [all_active] in H. apply rbind_ok in H as (x & Hx & H).
  destruct (el_active x) eqn:Hact; cbn [negb] in H; [| discriminate].
  destruct (Z.eq_dec k i) as [-> | Hne].
  - exists x. split; assumption.
  - apply (IH e (i + 1) H). lia.
Qed.

Lemma default_Some {A : Type} (x : list A) : default [] (Some x) = x.
Proof. reflexivity. Qed.

#[local] Instance table_kept_preorder : PreOrder table_kept.
Proof.
  split.
  - intros p k r H. exists r. exact H.
  - intros p1 p2 p3 H12 H23 k r H. destruct (H12 k r H) as [r' H']. exact (H23 k r' H').
Qed.

#[local] Instance table_step_preorder : PreOrder table_step.
Proof.
  split.
  - intros p. split; [| reflexivity]. destruct p; [split; [reflexivity | tauto] | exact I].
  - intros p1 p2 p3 [H12 K12] [H23 K23]. split; [| etransitivity; eassumption].
    destruct p1, p2, p3; try contradiction; try exact I.
    destruct H12 as [? ?], H23 as [? ?]. split; [congruence | tauto].
Qed.

Lemma store_unidata_steps n : forall e idx id i unidata unidata',
  (forall k, i <= k < i + Z.of_nat n ->
     exists x, rd_element e k = Ok x /\ el_active x = true) ->
  store_unidata n e idx id i unidata = Ok unidata' ->
  Forall2 table_step unidata unidata'.
Proof.
  induction n as [| n IH]; intros e idx id i unidata unidata' Hact H; cbn [store_unidata] in H.
  - injection H as <-. apply Forall2_same_length_lookup_2; [reflexivity |].
    intros j x y Hx Hy. assert (x = y) by congruence. subst. reflexivity.
  - destruct (zlookup unidata i) as [[tb |] |] eqn:Hi; try discriminate.
    destruct (zlookup tb id) as [old |] eqn:Hid; [| discriminate].
    apply rbind_ok in H as (c & Hc & H). apply rbind_ok in H as (p & Hp & H).
    apply rbind_ok in H as (v & Hv & H).
    destruct (Hact i ltac:(lia)) as (x & Hx & Hxa).
    assert (p = Some x).
    { unfold rd_element in Hx. rewrite Hc in Hx. unfold rbind in Hx. rewrite Hp in Hx.
      destruct p; [congruence | discriminate]. }
    subst p.
    apply IH in H; [| intros k Hk; apply Hact; lia].
    transitivity (<[Z.to_nat i := Some (<[Z.to_nat id := Some (mkUniData (Some x) v)]> tb)]>
                    unidata); [| exact H].
    apply zlookup_Some in Hi as [_ Hi]. apply zlookup_Some in Hid as [_ Hid].
    rewrite <- (list_insert_id unidata (Z.to_nat i) (Some tb) Hi) at 1.
    apply Forall2_insert.
    + apply Forall2_same_length_lookup_2; [reflexivity |].
      intros j y z Hy Hz. assert (y = z) by congruence. subst. reflexivity.
    + split; [split; [apply length_insert |] |].
      * intros Htb. apply Forall_insert; [exact Htb |]. exists x. split; [reflexivity | exact Hxa].
      * intros k r Hk. rewrite !default_Some in *.
        destruct (decide (k = Z.to_nat id)) as [-> | Hne].
        -- eexists. apply list_lookup_insert_eq. eapply lookup_lt_Some. exact Hid.
        -- exists r. rewrite list_lookup_insert_ne by congruence. exact Hk.
Qed.

Lemma double_udsize_grows n : forall s id m,
  double_udsize n s id = Ok m -> 0 < s -> s <= m /\ id < m.
Proof.
  induction n as [| n IH]; intros s id m H Hs; cbn [double_udsize] in H.
  - destruct (Z.leb_spec s id); [discriminate |]. injection H as <-. lia.
  - destruct (Z.leb_spec s id).
    + destruct (in_int (s * 2)); [| discriminate]. apply IH in H; lia.
    + injection H as <-. lia.
Qed.

Lemma Forall2_table_step_inv (udsize : Z) l l' :
  Forall2 table_step l l' ->
  Forall (table_ok udsize) l -> Forall table_active l ->
  Forall (table_ok udsize) l' /\ Forall table_active l' /\ Forall2 table_kept l l'.
Proof.
  intros H. induction H as [| p p' l l' [Hstep Hkept] _ IH]; intros Hok Hact.
  - split; [constructor | split; constructor].
  - apply Forall_cons in Hok as [Hok1 Hok]. apply Forall_cons in Hact as [Hact1 Hact].
    destruct (IH Hok Hact) as (IH1 & IH2 & IH3).
    split; [| split].
    + constructor; [| exact IH1].
      destruct p as [tb |], p' as [tb' |]; try contradiction; [| exact Hok1].
      destruct Hstep as [Hlen _]. cbn in *. rewrite Hlen. exact Hok1.
    + constructor; [| exact IH2].
      destruct p as [tb |], p' as [tb' |]; try contradiction; [| exact I].
      destruct Hstep as [_ Ha]. exact (Ha Hact1).
    + constructor; assumption.
Qed.

Section UnionTables.

Context {UMesh UElem : Type}.
Variable uni_id : UMesh -> UElem -> Z.
Variable uni_is_triangle : UMesh -> UElem -> bool.
Variable uni_sons : UMesh -> UElem -> Z -> UElem.
Variable refine_element_id : UMesh -> Z -> Z -> UMesh.
Variable refine_default : Z.

Lemma union_kept_trans (u1 u2 u3 : Union UMesh) :
  union_kept u1 u2 -> union_kept u2 u3 -> union_kept u1 u3.
Proof.
  intros (_ & Hn12 & Hs12 & K12) (Hinv & Hn23 & Hs23 & K23).
  split; [exact Hinv |]. split; [congruence |]. split; [lia |].
  eapply Forall2_trans; [| exact K12 | exact K23]. intros x y z. apply transitivity.
Qed.

#[local] Instance union_kept_transitive : Transitive (@union_kept UMesh) := union_kept_trans.

Lemma union_kept_refl (u : Union UMesh) : union_inv u -> union_kept u u.
Proof.
  intros Hinv. split; [exact Hinv |]. split; [reflexivity |]. split; [lia |].
  apply Forall2_same_length_lookup_2; [reflexivity |].
  intros j x y Hx Hy. assert (x = y) by congruence. subst. reflexivity.
Qed.

(** The union mesh is not part of the invariant. *)
Lemma union_kept_unimesh (u : Union UMesh) m :
  union_inv u ->
  union_kept u (mkUnion UMesh (un_num _ u) (un_udsize _ u) (un_unidata _ u) m).
Proof.
  intros Hinv. split; [exact Hinv |]. split; [reflexivity |]. split; [cbn; lia |].
  apply Forall2_same_length_lookup_2; [reflexivity |].
  intros j x y Hx Hy. cbn in Hy. assert (x = y) by congruence. subst. reflexivity.
Qed.

(** The leaf case keeps the invariant. *)
Lemma record_leaf_kept e idx uni (u u' : Union UMesh) :
  union_inv u ->
  (forall k, 0 <= k < un_num _ u -> exists x, rd_element e k = Ok x /\ el_active x = true) ->
  record_leaf UMesh UElem uni_id e idx uni u = Ok u' ->
  union_kept u u'.
Proof.
  intros ((Hud & Hlen & Htabs) & Hact) Hleaf H. unfold record_leaf in H.
  set (id := uni_id (un_unimesh _ u) uni) in *.
  apply rbind_ok in H as ([udsize' unidata1] & Hgrow & H).
  apply rbind_ok in H as (unidata' & Hstore & H). injection H as <-.
  cbn [fst snd] in *.
  assert (Hleaf' : forall k, 0 <= k < 0 + Z.of_nat (Z.to_nat (un_num _ u)) ->
            exists x, rd_element e k = Ok x /\ el_active x = true)
    by (intros k Hk; apply Hleaf; lia).
  pose proof (store_unidata_steps _ _ _ _ _ _ _ Hleaf' Hstore) as Hsteps.
  (* the tables after the reallocation *)
  assert (Hgrown : 0 <= udsize' /\ un_udsize _ u <= udsize' /\
                   length unidata1 = Z.to_nat (un_num _ u) /\
                   Forall (table_ok udsize') unidata1 /\ Forall table_active unidata1 /\
                   Forall2 table_kept (un_unidata _ u) unidata1).
  { destruct (Z.leb_spec (un_udsize _ u) id) as [Hle | Hgt].
    - apply rbind_ok in Hgrow as (m & Hm & Hgrow). injection Hgrow as <- <-.
      assert (Hstart : 0 < (if un_udsize _ u =? 0 then 1024 else un_udsize _ u)
                       /\ un_udsize _ u <= (if un_udsize _ u =? 0 then 1024 else un_udsize _ u)).
      { destruct (Z.eqb_spec (un_udsize _ u) 0); lia. }
      destruct (double_udsize_grows _ _ _ _ Hm (proj1 Hstart)) as [Hsm Hidm].
      rewrite take_ge, drop_ge, app_nil_r by lia.
      split; [lia |]. split; [lia |]. split; [rewrite length_map; exact Hlen |].
      assert (Hxs : forall p, table_ok (un_udsize _ u) p ->
                (length (default [] p) <= Z.to_nat m)%nat).
      { intros [tb |]; cbn; [intros [_ ->] |]; lia. }
      split; [| split].
      + apply Forall_forall. intros p' Hp'. apply list_elem_of_fmap in Hp' as (p & -> & Hp).
        unfold realloc_unidata. cbn. split; [lia |].
        pose proof (Hxs p (proj1 (Forall_forall _ _) Htabs p Hp)).
        rewrite length_app, length_take, length_replicate. lia.
      + apply Forall_forall. intros p' Hp'. apply list_elem_of_fmap in Hp' as (p & -> & Hp).
        unfold realloc_unidata. cbn.
        pose proof (Hxs p (proj1 (Forall_forall _ _) Htabs p Hp)).
        rewrite take_ge by lia. apply Forall_app. split.
        * pose proof (proj1 (Forall_forall _ _) Hact p Hp) as Ha.
          destruct p; [exact Ha | constructor].
        * apply Forall_replicate. exact I.
      + apply Forall2_fmap_r. apply Forall2_same_length_lookup_2; [reflexivity |].
        intros j p q Hp Hq. assert (q = p) by congruence. subst q.
        pose proof (Hxs p (proj1 (Forall_lookup _ _) Htabs j p Hp)).
        intros k r Hk. exists r. unfold realloc_unidata. rewrite default_Some.
        rewrite take_ge by lia. apply lookup_app_l_Some. exact Hk.
    - injection Hgrow as <- <-. split; [exact Hud |]. split; [lia |].
      split; [exact Hlen |]. split; [exact Htabs |]. split; [exact Hact |].
      apply Forall2_same_length_lookup_2; [reflexivity |].
      intros j x y Hx Hy. assert (x = y) by congruence. subst. reflexivity. }
  destruct Hgrown as (Hud' & Hmono & Hlen1 & Htabs1 & Hact1 & Hkept1).
  destruct (Forall2_table_step_inv udsize' _ _ Hsteps Htabs1 Hact1) as (Htabs' & Hact' & Hkept').
  split; [split; [split; [exact Hud' | split; [| exact Htabs']] | exact Hact'] |].
  { cbn. rewrite <- (Forall2_length _ _ _ Hsteps). exact Hlen1. }
  split; [reflexivity |]. split; [exact Hmono |]. cbn [un_unidata].
  eapply Forall2_trans; [| exact Hkept1 | exact Hkept']. intros x y z. apply transitivity.
Qed.

(** The loop over the sons keeps the invariant when the recursive calls
    do. *)
Lemma sons_loop_kept rec fill uni_son n : forall son a (u u' : Union UMesh),
  (forall cr e er idx uni v v', union_inv v -> rec cr e er idx uni v = Ok v' -> union_kept v v') ->
  union_inv u ->
  sons_loop UMesh UElem rec fill uni_son n son a u = Ok u' ->
  union_kept u u'.
Proof.
  induction n as [| n IH]; intros son a u u' Hrec Hinv H; cbn [sons_loop] in H.
  - injection H as <-. apply union_kept_refl, Hinv.
  - apply rbind_ok in H as ([cr_new a'] & Hfill & H).
    apply rbind_ok in H as (u1 & Hcall & H).
    pose proof (Hrec _ _ _ _ _ _ _ Hinv Hcall) as K1.
    transitivity u1; [exact K1 |].
    exact (IH _ _ _ _ Hrec (proj1 K1) H).
Qed.

Lemma union_recurrent_kept fuel : forall cr e er idx uni (u u' : Union UMesh),
  union_inv u ->
  union_recurrent UMesh UElem uni_id uni_is_triangle uni_sons refine_element_id
                  refine_default fuel cr e er idx uni u = Ok u' ->
  union_kept u u'.
Proof.
  induction fuel as [| fuel IH]; intros cr e er idx uni u u' Hinv H;
    cbn [union_recurrent] in H; [discriminate |].
  apply rbind_ok in H as (leaf & Hleaf & H).
  destruct leaf.
  - apply (record_leaf_kept e idx uni u u' Hinv); [| exact H].
    intros k Hk. apply (all_active_ok _ _ _ Hleaf). lia.
  - destruct (uni_is_triangle (un_unimesh _ u) uni).
    + etransitivity; [apply (union_kept_unimesh u), Hinv |].
      eapply sons_loop_kept; [exact IH | exact (proj1 (union_kept_unimesh u _ Hinv)) | exact H].
    + apply rbind_ok in H as ([split sons] & Hss & H).
      destruct cr as [c |]; [| discriminate].
      destruct (split =? 3).
      * etransitivity; [apply (union_kept_unimesh u), Hinv |].
        eapply sons_loop_kept; [exact IH | exact (proj1 (union_kept_unimesh u _ Hinv)) | exact H].
      * destruct (0 <? split).
        -- etransitivity; [apply (union_kept_unimesh u), Hinv |].
           eapply sons_loop_kept;
             [exact IH | exact (proj1 (union_kept_unimesh u _ Hinv)) | exact H].
        -- apply rbind_ok in H as (a' & Hfill & H). exact (IH _ _ _ _ _ _ _ Hinv H).
Qed.

End UnionTables.

(** X14.  A call of [union_recurrent] that returns keeps the record
    tables as the class holds them: one table per mesh, all of the
    capacity [udsize], every record holding an active element; the
    number of meshes stays, the capacity does not shrink, and no record
    written before is erased. *)
Theorem union_recurrent_keeps_tables
        (UMesh UElem : Type) (uni_id : UMesh -> UElem -> Z)
        (uni_is_triangle : UMesh -> UElem -> bool) (uni_sons : UMesh -> UElem -> Z -> UElem)
        (refine_element_id : UMesh -> Z -> Z -> UMesh) (refine_default : Z)
        (fuel : nat) (cr : option Rect) (e : list cell) (er : option (list cell))
        (idx : list cell) (uni : UElem) (u u' : Union UMesh) :
  union_inv u ->
  union_recurrent UMesh UElem uni_id uni_is_triangle uni_sons refine_element_id
                  refine_default fuel cr e er idx uni u = Ok u' ->
  union_kept u u'.
Proof.
  intros Hinv H.
  exact (union_recurrent_kept uni_id uni_is_triangle uni_sons refine_element_id
           refine_default fuel cr e er idx uni u u' Hinv H).
Qed.

Lemma ex_union_start_inv : union_inv ex_union_start.
Proof.
  split; [split; [cbn; lia | split; [reflexivity | repeat constructor]] | repeat constructor].
Qed.

Lemma union_recurrent_keeps_tables_witness :
  exists u', ex_union_leaf 1500 = Ok u' /\ union_kept ex_union_start u'.
Proof.
  destruct (ex_union_leaf 1500) as [u' | err] eqn:H; [| vm_compute in H; discriminate H].
  exists u'. split; [reflexivity |]. unfold ex_union_leaf in H.
  exact (union_recurrent_keeps_tables Z Z _ _ _ _ _ _ _ _ _ _ _ _ u' ex_union_start_inv H).
Defined.

Lemma union_base_elements_kept
      ONE (UMesh UElem : Type) uni_id uni_is_triangle uni_sons refine_element_id
      refine_default uni_get_element fuel k : forall n meshes id (u u' : Union UMesh),
  union_inv u ->
  union_base_elements ONE UMesh UElem uni_id uni_is_triangle uni_sons refine_element_id
                      refine_default uni_get_element fuel k n meshes id u = Ok u' ->
  union_kept u u'.
Proof.
  induction k as [| k IH]; intros n meshes id u u' Hinv H; cbn [union_base_elements] in H.
  - injection H as <-. apply union_kept_refl, Hinv.
  - apply rbind_ok in H as (m0 & _ & H). apply rbind_ok in H as (e0 & _ & H).
    destruct (negb (el_used e0)); [exact (IH _ _ _ _ _ Hinv H) |].
    apply rbind_ok in H as (e & _ & H). apply rbind_ok in H as (u1 & Hrec & H).
    pose proof (union_recurrent_kept _ _ _ _ _ _ _ _ _ _ _ _ _ Hinv Hrec) as K1.
    exact (union_kept_trans _ _ _ K1 (IH _ _ _ _ _ (proj1 K1) H)).
Qed.

(** X15.  When [construct_union_mesh] returns, there is at least one
    mesh, the meshes have passed the compatibility test, and the result
    has one table per mesh, all of one capacity, in which every record
    written holds an active element of a source mesh. *)
Theorem construct_union_mesh_tables
        (ONE : Z) (UMesh UElem : Type) (uni_id : UMesh -> UElem -> Z)
        (uni_is_triangle : UMesh -> UElem -> bool) (uni_sons : UMesh -> UElem -> Z -> UElem)
        (refine_element_id : UMesh -> Z -> Z -> UMesh) (refine_default : Z)
        (copy_base : UMesh -> Mesh -> UMesh) (uni_get_element : UMesh -> Z -> UElem)
        (fuel : nat) (n : Z) (meshes : list Mesh) (unimesh : UMesh)
        (tables : list (option (list (option UniData)))) (m : UMesh) :
  construct_union_mesh ONE UMesh UElem uni_id uni_is_triangle uni_sons refine_element_id
                       refine_default copy_base uni_get_element fuel n meshes unimesh
    = Ok (tables, m) ->
  0 < n /\ testMeshesCompliance n meshes = Ok tt /\ union_tables_ok n tables.
Proof.
  intros H. unfold construct_union_mesh in H.
  apply rbind_ok in H as ([] & Hcomp & H).
  destruct (Z.ltb_spec 0 n) as [Hn | Hn]; [| discriminate].
  apply rbind_ok in H as (m0 & _ & H). apply rbind_ok in H as (u & Hbase & H).
  injection H as <- <-.
  split; [exact Hn |]. split; [exact Hcomp |].
  apply union_base_elements_kept in Hbase as (((Hud & Hlen & Htabs) & Hact) & Hnum & _).
  - split; [rewrite Hlen, Hnum; reflexivity |].
    exists (un_udsize _ u). split; [exact Hud |]. split; assumption.
  - split; [split; [cbn; lia | split; [apply length_replicate |]] |];
      apply Forall_replicate; [reflexivity | exact I].
Qed.

Lemma construct_union_mesh_tables_witness :
  exists tables, ex_union_run [ex_mesh_refined; ex_mesh_leaf] = Ok tables /\
                 union_tables_ok 2 (fst tables).
Proof.
  destruct (ex_union_run [ex_mesh_refined; ex_mesh_leaf]) as [[tables m] | err] eqn:H;
    [| vm_compute in H; discriminate H].
  exists (tables, m). split; [reflexivity |]. unfold ex_union_run in H.
  exact (proj2 (proj2 (construct_union_mesh_tables _ _ _ _ _ _ _ _ _ _ _ _ _ _ _ _ H))).
Defined.

(** ** The pop loop and the kind of a state *)

Lemma pop_visited_visited n : forall t u t',
  pop_visited n t = Ok (u, t') ->
  forall j s, tr_top t' <= j < tr_top t -> zlookup (tr_stack t) j = Some s ->
              st_visited s = true.
Proof.
  induction n as [| n IH]; intros t u t' H j s Hj Hs; cbn [pop_visited] in H.
  - apply ret_ok in H as [_ ->]. lia.
  - apply bind_ok in H as (top & t0 & Hg & H). apply gets_ok in Hg as [-> ->].
    destruct (Z.ltb_spec 0 (tr_top t)) as [Hpos | Hneg]; [| apply ret_ok in H as [_ ->]; lia].
    apply bind_ok in H as (s0 & t0 & Hs0 & H). apply slot_ok in Hs0 as [Hs0 ->].
    destruct (st_visited s0) eqn:Hv; [| apply ret_ok in H as [_ ->]; lia].
    apply bind_ok in H as (u1 & t1 & Hset & H). injection Hset as <- <-.
    destruct (Z.eq_dec j (tr_top t - 1)) as [-> | Hne].
    + assert (s = s0) by congruence. subst s. exact Hv.
    + apply (IH _ _ _ H j s); [cbn [tr_top with_top]; lia | exact Hs].
Qed.

(** X16.  The pop loop at the start of an iteration of [get_states]
    changes nothing but [top]; it removes exactly the visited states on
    top of the stack: every state between the new and the old [top] had
    been visited, and the loop stops on the empty stack or below a state
    not yet visited.  Run again, it changes nothing. *)
Theorem pop_visited_pops_visited (t t' : Traverse) :
  pop_visited (Z.to_nat (tr_top t)) t = Ok (tt, t') ->
  popped t t' /\ pop_visited (Z.to_nat (tr_top t')) t' = Ok (tt, t').
Proof.
  intros H. split; [| exact (pop_visited_idem t tt t' H)].
  destruct (pop_visited_spec (Z.to_nat (tr_top t)) t tt t' (Nat.le_refl _) H)
    as (Ht' & Hle & Hstop).
  split; [exact Ht' |]. split; [exact Hle |]. split; [| exact Hstop].
  exact (pop_visited_visited _ t tt t' H).
Qed.

Lemma pop_visited_pops_visited_witness :
  popped (ex_entered [ex_mesh_leaf] 1)
         (snd (run_from (pop_visited 1) (ex_entered [ex_mesh_leaf] 1) tt)) /\
  pop_visited (Z.to_nat (tr_top (snd (run_from (pop_visited 1) (ex_entered [ex_mesh_leaf] 1) tt))))
              (snd (run_from (pop_visited 1) (ex_entered [ex_mesh_leaf] 1) tt))
    = Ok (tt, snd (run_from (pop_visited 1) (ex_entered [ex_mesh_leaf] 1) tt)).
Proof.
  apply (pop_visited_pops_visited (ex_entered [ex_mesh_leaf] 1)).
  vm_compute. reflexivity.
Defined.

Lemma State_is_triangle_loop_first n : forall si j t p,
  first_element n si j t = Ok (p, t) ->
  State_is_triangle_loop n si j t
    = Ok (match p with Some e => el_is_triangle e | None => false end, t).
Proof.
  induction n as [| n IH]; intros si j t p H; cbn [first_element State_is_triangle_loop] in *.
  - apply ret_ok in H as [-> _]. reflexivity.
  - apply bind_ok in H as (q & t0 & Hq & H).
    pose proof (respects_get_e eq si j _ _ _ Hq) as <-.
    unfold bind at 1. rewrite Hq.
    destruct q as [e |].
    + apply ret_ok in H as [-> _]. reflexivity.
    + apply IH. exact H.
Qed.

(** X17.  [State::is_triangle] reports the kind of the first non-null
    element of the state, the element that [set_boundary_info] goes by
    when the state has as many meshes as the traversal; a state without
    any element is reported as a quadrilateral. *)
Theorem State_is_triangle_first_element (si : Z) (t : Traverse) (s : State)
        (p : option Element) :
  zlookup (tr_stack t) si = Some s -> st_num s = tr_num t ->
  first_element (Z.to_nat (tr_num t)) si 0 t = Ok (p, t) ->
  State_is_triangle si t
    = Ok (match p with Some e => el_is_triangle e | None => false end, t).
Proof.
  intros Hs Hn H. unfold State_is_triangle, bind, slot. rewrite Hs, Hn.
  apply State_is_triangle_loop_first. exact H.
Qed.

Lemma State_is_triangle_first_element_witness :
  State_is_triangle 0 ex_quad_state = Ok (false, ex_quad_state).
Proof.
  apply (State_is_triangle_first_element 0 ex_quad_state ex_quad_slot
           (Some (ex_quad_leaf 0))); reflexivity.
Defined.

(** ** Entering a state *)

#[local] Instance idx_cells_preorder si W : PreOrder (idx_cells si W).
Proof.
  split.
  - intros t Hwf. split; [exact Hwf |]. split; [reflexivity |].
    split; [intros s Hs; exists s; split; [exact Hs | split; reflexivity] |].
    intros f j c _ Hc. exact Hc.
  - intros t1 t2 t3 H12 H23 Hwf.
    destruct (H12 Hwf) as (Hwf2 & Hn12 & Hs12 & Hc12).
    destruct (H23 Hwf2) as (Hwf3 & Hn23 & Hs23 & Hc23).
    split; [exact Hwf3 |]. split; [congruence |]. split.
    + intros s Hs. destruct (Hs12 s Hs) as (s2 & Hs2 & Hcr2 & Hv2).
      destruct (Hs23 s2 Hs2) as (s3 & Hs3 & Hcr3 & Hv3).
      exists s3. split; [exact Hs3 | split; congruence].
    + intros f j c Hfj Hc. exact (Hc23 f j c Hfj (Hc12 f j c Hfj Hc)).
Qed.

Lemma idx_cells_weaken si (W W' : Z -> Prop) t t' :
  (forall j, W j -> W' j) -> idx_cells si W t t' -> idx_cells si W' t t'.
Proof.
  intros HW H Hwf. destruct (H Hwf) as (Hwf' & Hn & Hs & Hc).
  split; [exact Hwf' |]. split; [exact Hn |]. split; [exact Hs |].
  intros f j c [Hf | Hj] Hcell; apply Hc; try exact Hcell; [left; exact Hf |].
  right. intros Hw. apply Hj, HW, Hw.
Qed.

Lemma idx_cells_put_sub_idx si i v :
  respects (idx_cells si (fun j => j = i)) (put_sub_idx si i v).
Proof.
  intros t u t' H Hwf.
  destruct (keeps_put_sub_idx si i v t u t' H Hwf) as (Hwf' & _ & Hn & _).
  unfold put_sub_idx in H.
  apply bind_ok in H as (s & t0 & Hs & H). apply slot_ok in Hs as [Hs ->].
  apply store_ok in H as (a & arr & Ha & Harr & [c0 Hc0] & ->).
  split; [exact Hwf' |]. split; [exact Hn |]. split.
  - intros s0 Hs0. exists s0. split; [exact Hs0 | split; reflexivity].
  - intros f j c Hfj (s1 & a1 & arr1 & Hs1 & Ha1 & Harr1 & Hc).
    assert (s1 = s) by congruence. subst s1.
    assert (Hnd : NoDup (slot_ptrs s)).
    { destruct Hwf as (_ & _ & Hnd). apply zlookup_Some in Hs as [_ Hs].
      eapply (NoDup_mjoin_inner _ (Z.to_nat si)); [exact Hnd |].
      rewrite list_lookup_fmap, Hs. reflexivity. }
    destruct (decide (a1 = a)) as [-> | Hne].
    + assert (f = FIDX) by exact (slot_ptrs_distinct f FIDX s a Hnd Ha1 Ha). subst f.
      assert (arr1 = arr) by congruence. subst arr1.
      destruct Hfj as [Hf | Hj]; [congruence |].
      exists s, a, (<[Z.to_nat i := CIdx v]> arr).
      split; [exact Hs |]. split; [exact Ha1 |].
      split; [cbn [tr_heap with_heap]; apply lookup_insert_eq |].
      apply zlookup_Some in Hc as [Hj0 Hc]. apply zlookup_Some in Hc0 as [Hi0 _].
      apply zlookup_Some. split; [exact Hj0 |].
      rewrite list_lookup_insert_ne; [exact Hc |]. intros Heq. apply Hj. lia.
    + exists s, a1, arr1. split; [exact Hs |]. split; [exact Ha1 |].
      split; [cbn [tr_heap with_heap]; rewrite lookup_insert_ne by congruence; exact Harr1 |].
      exact Hc.
Qed.

Lemma idx_cells_update_slot si W f :
  keeps_ptrs f -> (forall s, st_cr (f s) = st_cr s /\ st_visited (f s) = st_visited s) ->
  respects (idx_cells si W) (update_slot si f).
Proof.
  intros Hf Hcr t u t' H Hwf.
  destruct (keeps_update_slot si f Hf t u t' H Hwf) as (Hwf' & _ & Hn & _).
  apply update_slot_ok in H as (s & Hs & ->).
  split; [exact Hwf' |]. split; [exact Hn |]. split.
  - intros s0 Hs0. assert (s0 = s) by congruence. subst s0.
    exists (f s). split; [| apply Hcr].
    cbn [tr_stack with_stack]. exact (lookup_insert_slot _ si s (f s) Hs).
  - intros g j c _ (s1 & a1 & arr1 & Hs1 & Ha1 & Harr1 & Hc).
    assert (s1 = s) by congruence. subst s1.
    exists (f s), a1, arr1.
    split; [cbn [tr_stack with_stack]; exact (lookup_insert_slot _ si s (f s) Hs) |].
    split; [| split; [exact Harr1 | exact Hc]].
    destruct (Hf s) as (He & Her & Hidx). destruct g; cbn [fld_sel] in *; congruence.
Qed.

Lemma idx_cells_push_transform si son i tri :
  respects (idx_cells si (fun j => j = wrap8 i)) (push_transform si son i tri).
Proof.
  unfold push_transform. respects_step; [respects_step |].
  respects_step; [apply idx_cells_put_sub_idx |].
  apply idx_cells_update_slot; intros s; repeat split.
Qed.

Lemma idx_cells_init_transforms_loop fuel : forall si i x,
  0 <= i < 256 ->
  respects (idx_cells si (fun j => j = i)) (init_transforms_loop fuel si i x).
Proof.
  induction fuel as [| fuel IH]; intros si i x Hi; cbn [init_transforms_loop].
  - respects_all.
  - respects_step; [respects_step |].
    destruct (rect_mismatch _ _); [| respects_step].
    destruct (transforms_son _ _) as [son |]; [| respects_step].
    respects_step; [respects_ro |].
    respects_step; [| exact (IH si i _ Hi)].
    pose proof (idx_cells_push_transform si son i a0) as H.
    rewrite (wrap8_small i Hi) in H. exact H.
Qed.

Lemma idx_cells_init_transforms fuel si i :
  0 <= i < 256 ->
  respects (idx_cells si (fun j => j = i)) (init_transforms fuel si i).
Proof.
  intros Hi. unfold init_transforms. rewrite (wrap8_small i Hi).
  respects_step; [respects_step |]. apply idx_cells_init_transforms_loop, Hi.
Qed.

(** The body of the loop that enters a state. *)
#[local] Abbreviation enter_mesh fuel si :=
  (fun i : Z =>
     let* p := get_e si i in
     match p with
     | Some e =>
         if el_used e then
           let* v := get_sub_idx si i in
           if (v =? 0) && el_active e then
             if negb (el_is_triangle e) then init_transforms fuel si i else ret tt
           else ret tt
         else ret tt
     | None => ret tt
     end).

Lemma enter_mesh_cells fuel si j p v t :
  slot_cell st_e t si j (CElem p) -> slot_cell st_sub_idx t si j (CIdx v) ->
  enter_mesh fuel si j t =
  (if wants_transforms p v then init_transforms fuel si j else ret tt) t.
Proof.
  intros Hp Hv.
  pose proof (proj2 (get_e_spec si j t p t) (conj eq_refl Hp)) as He.
  pose proof (proj2 (get_sub_idx_spec si j t v t) (conj eq_refl Hv)) as Hi.
  unfold bind at 1. rewrite He. destruct p as [e |]; [| reflexivity].
  cbn [wants_transforms]. destruct (el_used e); [| reflexivity].
  unfold bind at 1. rewrite Hi.
  destruct ((v =? 0) && el_active e); [| reflexivity].
  destruct (negb (el_is_triangle e)); reflexivity.
Qed.

Lemma enter_mesh_frame fuel si j :
  0 <= j < 256 -> respects (idx_cells si (fun k => k = j)) (enter_mesh fuel si j).
Proof.
  intros Hj. cbn beta. respects_step; [respects_step |].
  destruct a as [e |]; [| respects_step].
  destruct (el_used e); [| respects_step].
  respects_step; [respects_step |].
  destruct ((a =? 0) && el_active e); [| respects_step].
  destruct (negb (el_is_triangle e)); [| respects_step].
  apply idx_cells_init_transforms, Hj.
Qed.

Section EnterLoop.
Variables (fuel : nat) (si : Z) (body : Z -> M unit).
Hypothesis Hframe : forall j, 0 <= j < 256 ->
  respects (idx_cells si (fun k => k = j)) (body j).
Hypothesis Hbody : forall j p v t,
  slot_cell st_e t si j (CElem p) -> slot_cell st_sub_idx t si j (CIdx v) ->
  body j t = (if wants_transforms p v then init_transforms fuel si j else ret tt) t.

Lemma enter_mesh_wanted j p v x t t' s :
  0 <= j < 256 -> zlookup (tr_stack t) si = Some s ->
  slot_cell st_e t si j (CElem p) -> slot_cell st_sub_idx t si j (CIdx v) ->
  wants_transforms p v = true -> slot_cell st_er t si j (CRect x) ->
  body j t = Ok (tt, t') ->
  exists idx, init_idx fuel (st_cr s) x = Ok idx /\
              slot_cell st_sub_idx t' si j (CIdx idx).
Proof.
  intros Hj Hs Hp Hv Hw Hx H. rewrite (Hbody j p v t Hp Hv), Hw in H.
  assert (v = 0) as ->.
  { destruct p as [e |]; [| discriminate]. cbn [wants_transforms] in Hw.
    destruct (Z.eqb_spec v 0); [assumption |].
    rewrite andb_false_r in Hw. discriminate. }
  unfold init_transforms in H. rewrite (wrap8_small j Hj) in H.
  apply bind_ok in H as (x0 & t0 & Hx0 & H).
  apply get_er_spec in Hx0 as [-> Hx0].
  assert (x0 = x) by (pose proof (slot_cell_det _ _ _ _ _ _ Hx0 Hx); congruence). subst x0.
  pose proof (proj2 (get_sub_idx_spec si j t 0 t) (conj eq_refl Hv)) as Hi.
  destruct (init_transforms_loop_idx fuel si j x t t' s 0 Hj Hs Hi H)
    as (idx & x' & Hidx & Hv').
  exists idx. split; [unfold init_idx; rewrite Hidx; reflexivity |].
  apply get_sub_idx_spec in Hv' as [_ Hv']. exact Hv'.
Qed.

Lemma enter_loop n : forall i0 t t' s,
  0 <= i0 -> i0 + Z.of_nat n <= 256 -> wf t ->
  zlookup (tr_stack t) si = Some s ->
  for_loop n i0 body t = Ok (tt, t') ->
  idx_cells si (fun j => i0 <= j < i0 + Z.of_nat n) t t' /\
  (forall i p v x, i0 <= i < i0 + Z.of_nat n ->
     slot_cell st_e t si i (CElem p) -> slot_cell st_sub_idx t si i (CIdx v) ->
     wants_transforms p v = true -> slot_cell st_er t si i (CRect x) ->
     exists idx, init_idx fuel (st_cr s) x = Ok idx /\
                 slot_cell st_sub_idx t' si i (CIdx idx)) /\
  (forall i p v,
     slot_cell st_e t si i (CElem p) -> slot_cell st_sub_idx t si i (CIdx v) ->
     wants_transforms p v = false -> slot_cell st_sub_idx t' si i (CIdx v)).
Proof.
  induction n as [| n IH]; intros i0 t t' s Hi0 Hn Hwf Hs H.
  - cbn [for_loop] in H. apply ret_ok in H as [_ ->].
    split; [reflexivity |]. split; [intros i p v x Hi; lia |].
    intros i p v _ Hv _. exact Hv.
  - cbn [for_loop] in H. apply bind_ok in H as ([] & t1 & H1 & H).
    assert (Hj : 0 <= i0 < 256) by lia.
    pose proof (Hframe i0 Hj t tt t1 H1) as H01.
    destruct (H01 Hwf) as (Hwf1 & Hn1 & Hs1 & Hc1).
    destruct (Hs1 s Hs) as (s1 & Hs1' & Hcr1 & _).
    destruct (IH (i0 + 1) t1 t' s1 ltac:(lia) ltac:(lia) Hwf1 Hs1' H)
      as (Hrest & Hwant & Hskip).
    destruct (Hrest Hwf1) as (_ & _ & _ & Hc').
    split; [| split].
    + transitivity t1.
      * eapply idx_cells_weaken; [| exact H01]. cbn. intros j ->. lia.
      * eapply idx_cells_weaken; [| exact Hrest]. cbn. intros j Hjr. lia.
    + intros i p v x Hi Hp Hv Hw Hx.
      destruct (decide (i = i0)) as [-> | Hne].
      * destruct (enter_mesh_wanted i0 p v x t t1 s Hj Hs Hp Hv Hw Hx H1)
          as (idx & Hidx & Hcell).
        exists idx. split; [exact Hidx |].
        apply (Hc' FIDX i0 _); [right; lia | exact Hcell].
      * rewrite <- Hcr1.
        apply (Hwant i p v x); [lia | | | exact Hw |].
        -- apply (Hc1 FE); [left; discriminate | exact Hp].
        -- apply (Hc1 FIDX); [right; exact Hne | exact Hv].
        -- apply (Hc1 FER); [left; discriminate | exact Hx].
    + intros i p v Hp Hv Hw.
      destruct (decide (i = i0)) as [-> | Hne].
      * rewrite (Hbody i0 p v t Hp Hv), Hw in H1. apply ret_ok in H1 as [_ <-].
        exact (Hskip i0 p v Hp Hv Hw).
      * apply (Hskip i p v); [| | exact Hw].
        -- apply (Hc1 FE); [left; discriminate | exact Hp].
        -- apply (Hc1 FIDX); [right; exact Hne | exact Hv].
Qed.

End EnterLoop.

(** X18.  Entering a state of at most 256 meshes, when it returns, marks
    the state visited and keeps its rectangle and the cells of [e] and
    [er].  For every mesh whose element is non-null, used, active and a
    quadrilateral, with [sub_idx[i]] 0, it leaves in [sub_idx[i]] the
    address that [init_idx(&s->cr, s->er + i)] returns with the same
    number of iterations; for every other mesh [sub_idx[i]] is as it
    was. *)
Theorem enter_state_computes_addresses (fuel : nat) (si : Z) (t t' : Traverse)
        (s : State) :
  wf t -> tr_num t <= 256 -> zlookup (tr_stack t) si = Some s ->
  enter_state fuel si t = Ok (tt, t') -> entered fuel si s t t'.
Proof.
  intros Hwf Hnum Hs H. unfold enter_state in H.
  apply bind_ok in H as ([] & t1 & H1 & H).
  apply bind_ok in H as (num & t2 & Hg & H). apply gets_ok in Hg as [-> ->].
  pose proof (keeps_update_slot si (set_visited true) ltac:(intros s0; repeat split)
                t tt t1 H1 Hwf) as (Hwf1 & _ & Hn1 & _).
  apply update_slot_ok in H1 as (s0 & Hs0 & Ht1).
  assert (s0 = s) by congruence. subst s0.
  assert (Hs1 : zlookup (tr_stack t1) si = Some (set_visited true s)).
  { rewrite Ht1. cbn [tr_stack with_stack]. exact (lookup_insert_slot _ si s _ Hs). }
  assert (Hcells : forall f j c,
            slot_cell (fld_sel f) t si j c -> slot_cell (fld_sel f) t1 si j c).
  { intros f j c (s0 & a & arr & Hs0' & Ha & Harr & Hc).
    assert (s0 = s) by congruence. subst s0.
    exists (set_visited true s), a, arr. split; [exact Hs1 |].
    split; [destruct f; exact Ha |]. split; [rewrite Ht1; exact Harr | exact Hc]. }
  destruct Hwf as (Hnum0 & Hwf').
  destruct (enter_loop fuel si (enter_mesh fuel si)
              (enter_mesh_frame fuel si) (enter_mesh_cells fuel si)
              (Z.to_nat (tr_num t1)) 0 t1 t' (set_visited true s)
              ltac:(lia) ltac:(lia) Hwf1 Hs1 H) as (Hfr & Hwant & Hskip).
  destruct (Hfr Hwf1) as (_ & _ & Hslot & Hc).
  destruct (Hslot _ Hs1) as (s' & Hs' & Hcr' & Hv').
  split; [exists s'; split; [exact Hs' | split; [exact Hv' | exact Hcr']] |].
  split; [| split].
  - intros f j c Hf Hcell. apply Hc; [left; exact Hf |]. apply Hcells, Hcell.
  - intros i p v x Hi Hp Hv Hw Hx.
    apply (Hwant i p v x); [lia | | | exact Hw |]; apply (Hcells FE) || idtac.
    + exact Hp.
    + apply (Hcells FIDX), Hv.
    + apply (Hcells FER), Hx.
  - intros i p v Hp Hv Hw.
    apply (Hskip i p v); [apply (Hcells FE), Hp | apply (Hcells FIDX), Hv | exact Hw].
Qed.

Lemma ex_quad_state_wf : wf ex_quad_state.
Proof.
  split; [cbn; lia |]. split.
  - constructor; [| constructor]. right.
    repeat split; eexists; eexists; (split; [reflexivity |]); split; reflexivity.
  - cbn. constructor; [| constructor; [| constructor; [inversion 1 | constructor]]].
    + intros H. apply elem_of_cons in H as [H | H]; [discriminate |].
      apply list_elem_of_singleton in H. discriminate.
    + intros H. apply list_elem_of_singleton in H. discriminate.
Qed.

Lemma enter_state_computes_addresses_witness :
  entered 5 0 ex_quad_slot ex_quad_state
    (snd (run_from (enter_state 5 0) ex_quad_state tt)).
Proof.
  apply (enter_state_computes_addresses 5 0 ex_quad_state).
  - apply ex_quad_state_wf.
  - cbn. lia.
  - reflexivity.
  - vm_compute. reflexivity.
Defined.

(** ** What a son state holds *)

#[local] Instance writes_preorder ns W : PreOrder (writes ns W).
Proof.
  split.
  - intros t Hwf. split; [exact Hwf |]. split; [reflexivity |].
    split; [intros sj s _ Hs; exact Hs |].
    split; [intros sj f j c _ Hc; exact Hc |].
    intros s Hs. exists s. split; [exact Hs | reflexivity].
  - intros t1 t2 t3 H12 H23 Hwf.
    destruct (H12 Hwf) as (Hwf2 & Hn12 & Hs12 & Hc12 & Hr12).
    destruct (H23 Hwf2) as (Hwf3 & Hn23 & Hs23 & Hc23 & Hr23).
    split; [exact Hwf3 |]. split; [congruence |]. split; [| split].
    + intros sj s Hsj Hs. exact (Hs23 sj s Hsj (Hs12 sj s Hsj Hs)).
    + intros sj f j c Hfj Hc. exact (Hc23 sj f j c Hfj (Hc12 sj f j c Hfj Hc)).
    + intros s Hs. destruct (Hr12 s Hs) as (s2 & Hs2 & Hcr2).
      destruct (Hr23 s2 Hs2) as (s3 & Hs3 & Hcr3).
      exists s3. split; [exact Hs3 | congruence].
Qed.

Lemma writes_weaken ns (W W' : fld -> Z -> Prop) t t' :
  (forall f j, W f j -> W' f j) -> writes ns W t t' -> writes ns W' t t'.
Proof.
  intros HW H Hwf. destruct (H Hwf) as (Hwf' & Hn & Hs & Hc & Hr).
  split; [exact Hwf' |]. split; [exact Hn |]. split; [exact Hs |]. split; [| exact Hr].
  intros sj f j c [Hf | Hj] Hcell; apply Hc; try exact Hcell; [left; exact Hf |].
  right. intros Hw. apply Hj, HW, Hw.
Qed.

Lemma respects_weaken {A : Type} ns (W W' : fld -> Z -> Prop) (c : M A) :
  (forall f j, W f j -> W' f j) -> respects (writes ns W) c -> respects (writes ns W') c.
Proof. intros HW H t a t' Hc. eapply writes_weaken; [exact HW | exact (H t a t' Hc)]. Qed.

Lemma slot_NoDup t si s : wf t -> zlookup (tr_stack t) si = Some s -> NoDup (slot_ptrs s).
Proof.
  intros (_ & _ & Hnd) Hs. apply zlookup_Some in Hs as [_ Hs].
  eapply (NoDup_mjoin_inner _ (Z.to_nat si)); [exact Hnd |].
  rewrite list_lookup_fmap, Hs. reflexivity.
Qed.

(** Two slots that share an array are the same slot. *)
Lemma slot_ptrs_shared t si sj s s' f g a :
  wf t -> zlookup (tr_stack t) si = Some s -> zlookup (tr_stack t) sj = Some s' ->
  fld_sel f s = Some a -> fld_sel g s' = Some a -> si = sj.
Proof.
  intros (_ & _ & Hnd) Hs Hs' Ha Ha'.
  apply zlookup_Some in Hs as [Hsi Hs]. apply zlookup_Some in Hs' as [Hsj Hs'].
  assert (Z.to_nat si = Z.to_nat sj); [| lia].
  eapply (NoDup_mjoin_lookup _ _ _ (slot_ptrs s) (slot_ptrs s') a Hnd).
  - rewrite list_lookup_fmap, Hs. reflexivity.
  - rewrite list_lookup_fmap, Hs'. reflexivity.
  - exact (slot_ptrs_fld f s a Ha).
  - exact (slot_ptrs_fld g s' a Ha').
Qed.

(** A store to cell [i] of an array of slot [ns]. *)
Lemma writes_store (g : fld) ns i c0 :
  respects (writes ns (fun f j => f = g /\ j = i))
           (bind (slot ns) (fun s => store (fld_sel g s) i c0)).
Proof.
  intros t u t' H Hwf.
  destruct (keeps_slot_store (fld_sel g) ns i c0 (slot_ptrs_fld g) t u t' H Hwf)
    as (Hwf' & _ & Hn & _).
  apply bind_ok in H as (s & t0 & Hs & H). apply slot_ok in Hs as [Hs ->].
  apply store_ok in H as (a & arr & Ha & Harr & [c1 Hc1] & ->).
  split; [exact Hwf' |]. split; [exact Hn |]. split; [intros sj s0 _ Hs0; exact Hs0 |].
  split; [| intros s0 Hs0; exists s0; split; [exact Hs0 | reflexivity]].
  intros sj f j c Hfj (s1 & a1 & arr1 & Hs1 & Ha1 & Harr1 & Hc).
  destruct (decide (a1 = a)) as [-> | Hne].
  - assert (sj = ns) by exact (slot_ptrs_shared t sj ns s1 s f g a Hwf Hs1 Hs Ha1 Ha).
    subst sj. assert (s1 = s) by congruence. subst s1.
    assert (f = g) by exact (slot_ptrs_distinct f g s a (slot_NoDup t ns s Hwf Hs) Ha1 Ha).
    subst f. assert (arr1 = arr) by congruence. subst arr1.
    destruct Hfj as [Hf | Hj]; [congruence |].
    exists s, a, (<[Z.to_nat i := c0]> arr).
    split; [exact Hs |]. split; [exact Ha1 |].
    split; [cbn [tr_heap with_heap]; apply lookup_insert_eq |].
    apply zlookup_Some in Hc as [Hj0 Hc]. apply zlookup_Some in Hc1 as [Hi0 _].
    apply zlookup_Some. split; [exact Hj0 |].
    rewrite list_lookup_insert_ne; [exact Hc |]. intros Heq. apply Hj.
    split; [reflexivity | lia].
  - exists s1, a1, arr1. split; [exact Hs1 |]. split; [exact Ha1 |].
    split; [cbn [tr_heap with_heap]; rewrite lookup_insert_ne by congruence; exact Harr1 |].
    exact Hc.
Qed.

(** The cell that a store has written. *)
Lemma store_cell (g : fld) ns i c t u t' :
  bind (slot ns) (fun s => store (fld_sel g s) i c) t = Ok (u, t') ->
  slot_cell (fld_sel g) t' ns i c.
Proof.
  intros H. apply bind_ok in H as (s & t0 & Hs & H). apply slot_ok in Hs as [Hs ->].
  apply store_ok in H as (a & arr & Ha & Harr & [c1 Hc1] & ->).
  exists s, a, (<[Z.to_nat i := c]> arr).
  split; [exact Hs |]. split; [exact Ha |].
  split; [cbn [tr_heap with_heap]; apply lookup_insert_eq |].
  apply zlookup_Some in Hc1 as [Hi0 Hc1]. apply zlookup_Some. split; [exact Hi0 |].
  apply list_lookup_insert_eq. eapply lookup_lt_Some. exact Hc1.
Qed.

(** An assignment to plain fields of slot [ns]. *)
Lemma update_slot_cells ns f t t' :
  keeps_ptrs f -> wf t -> update_slot ns f t = Ok (tt, t') ->
  wf t' /\ tr_num t' = tr_num t /\
  (exists s, zlookup (tr_stack t) ns = Some s /\ zlookup (tr_stack t') ns = Some (f s)) /\
  (forall sj s, sj <> ns -> zlookup (tr_stack t) sj = Some s ->
     zlookup (tr_stack t') sj = Some s) /\
  (forall sj g j c, slot_cell (fld_sel g) t sj j c -> slot_cell (fld_sel g) t' sj j c).
Proof.
  intros Hf Hwf H.
  destruct (keeps_update_slot ns f Hf t tt t' H Hwf) as (Hwf' & _ & Hn & _).
  apply update_slot_ok in H as (s & Hs & ->).
  assert (Hns : zlookup (<[Z.to_nat ns := f s]> (tr_stack t)) ns = Some (f s))
    by exact (lookup_insert_slot _ ns s (f s) Hs).
  assert (Hother : forall sj s0, sj <> ns -> zlookup (tr_stack t) sj = Some s0 ->
                     zlookup (<[Z.to_nat ns := f s]> (tr_stack t)) sj = Some s0).
  { intros sj s0 Hsj Hs0. apply zlookup_Some in Hs0 as [Hsj0 Hs0].
    apply zlookup_Some in Hs as [Hns0 _]. apply zlookup_Some. split; [exact Hsj0 |].
    rewrite list_lookup_insert_ne by lia. exact Hs0. }
  split; [exact Hwf' |]. split; [exact Hn |].
  split; [exists s; split; [exact Hs | exact Hns] |]. split; [exact Hother |].
  intros sj g j c (s1 & a1 & arr1 & Hs1 & Ha1 & Harr1 & Hc).
  destruct (decide (sj = ns)) as [-> | Hne].
  - assert (s1 = s) by congruence. subst s1.
    exists (f s), a1, arr1. split; [exact Hns |].
    split; [| split; [exact Harr1 | exact Hc]].
    destruct (Hf s) as (He & Her & Hidx). destruct g; cbn [fld_sel] in *; congruence.
  - exists s1, a1, arr1. split; [exact (Hother sj s1 Hne Hs1) |].
    split; [exact Ha1 |]. split; [exact Harr1 | exact Hc].
Qed.

Lemma writes_update_slot ns W f :
  keeps_ptrs f -> (forall s, st_cr (f s) = st_cr s) ->
  respects (writes ns W) (update_slot ns f).
Proof.
  intros Hf Hcr t [] t' H Hwf.
  destruct (update_slot_cells ns f t t' Hf Hwf H) as (Hwf' & Hn & (s & Hs & Hs') & Ho & Hc).
  split; [exact Hwf' |]. split; [exact Hn |]. split; [exact Ho |].
  split; [intros sj g j c _; apply Hc |].
  intros s0 Hs0. assert (s0 = s) by congruence. subst s0.
  exists (f s). split; [exact Hs' | apply Hcr].
Qed.

Lemma writes_put_e ns i v :
  respects (writes ns (fun f j => f = FE /\ j = i)) (put_e ns i v).
Proof. exact (writes_store FE ns i (CElem v)). Qed.

Lemma writes_put_er ns i v :
  respects (writes ns (fun f j => f = FER /\ j = i)) (put_er ns i v).
Proof. exact (writes_store FER ns i (CRect v)). Qed.

Lemma writes_put_sub_idx ns i v :
  respects (writes ns (fun f j => f = FIDX /\ j = i)) (put_sub_idx ns i v).
Proof. exact (writes_store FIDX ns i (CIdx v)). Qed.

Lemma writes_push_transform ns son i tri :
  respects (writes ns (fun f j => f = FIDX /\ j = wrap8 i)) (push_transform ns son i tri).
Proof.
  unfold push_transform. respects_step; [respects_step |].
  respects_step; [apply writes_put_sub_idx |].
  apply writes_update_slot; intros s; repeat split.
Qed.

#[local] Hint Extern 2 (respects (writes _ _) (put_e _ _ _)) =>
  eapply respects_weaken; [| apply writes_put_e]; cbn; intros ? ? [_ ->]; reflexivity
  : respects_db.
#[local] Hint Extern 2 (respects (writes _ _) (put_er _ _ _)) =>
  eapply respects_weaken; [| apply writes_put_er]; cbn; intros ? ? [_ ->]; reflexivity
  : respects_db.
#[local] Hint Extern 2 (respects (writes _ _) (put_sub_idx _ _ _)) =>
  eapply respects_weaken; [| apply writes_put_sub_idx]; cbn; intros ? ? [_ ->]; reflexivity
  : respects_db.

Lemma writes_push_transform_mesh ns son i tri :
  0 <= i < 256 -> respects (writes ns (fun _ j => j = i)) (push_transform ns son i tri).
Proof.
  intros Hi. eapply respects_weaken; [| apply writes_push_transform].
  cbn. intros f j [_ ->]. apply wrap8_small, Hi.
Qed.

Lemma slot_cell_content t t' j sj f i c :
  zlookup (tr_stack t) j = Some sj -> zlookup (tr_stack t') j = Some sj ->
  content (tr_heap t') sj = content (tr_heap t) sj ->
  slot_cell (fld_sel f) t j i c -> slot_cell (fld_sel f) t' j i c.
Proof.
  intros Hs Hs' Hcont (s & a & arr & Hs0 & Ha & Harr & Hc).
  assert (s = sj) by congruence. subst s.
  exists sj, a, arr. split; [exact Hs' |]. split; [exact Ha |]. split; [| exact Hc].
  unfold content in Hcont. injection Hcont as He Her Hidx.
  destruct f; cbn [fld_sel] in Ha; rewrite Ha in *; cbn [cells_of] in *; congruence.
Qed.

(** The body of the loop over the meshes for a triangle son. *)
#[local] Abbreviation triangle_mesh si ns son :=
  (fun i : Z =>
     let* p := get_e si i in
     match p with
     | None => put_e ns i None
     | Some e =>
         if negb (el_used e) then put_e ns i None
         else if el_active e then
           put_e ns i (Some e) ;;
           let* v := get_sub_idx si i in
           put_sub_idx ns i v ;;
           push_transform ns son i true
         else
           let* c := son_at e son in
           put_e ns i c ;;
           let* ce := deref c in
           if el_active ce then put_sub_idx ns i 0 else ret tt
     end).

Lemma triangle_mesh_frame si ns son j :
  0 <= j < 256 -> respects (writes ns (fun _ k => k = j)) (triangle_mesh si ns son j).
Proof.
  intros Hj. cbn beta. respects_step; [respects_step |].
  destruct a as [e |]; [| respects_step].
  destruct (negb (el_used e)); [respects_step |].
  destruct (el_active e).
  - respects_step; [respects_step |].
    respects_step; [respects_step |].
    respects_step; [respects_step |]. apply writes_push_transform_mesh, Hj.
  - respects_all.
Qed.

Lemma triangle_mesh_cells si ns son i p t t' :
  wf t -> si <> ns -> 0 <= son < 256 -> 0 <= i < 256 ->
  slot_cell st_e t si i (CElem p) -> slot_cell st_sub_idx t ns i (CIdx 0) ->
  triangle_mesh si ns son i t = Ok (tt, t') ->
  exists c, triangle_son_element p son c /\
            slot_cell st_e t' ns i (CElem c) /\
            if carried p
            then forall v, slot_cell st_sub_idx t si i (CIdx v) ->
                   slot_cell st_sub_idx t' ns i (CIdx (push_idx v son))
            else slot_cell st_sub_idx t' ns i (CIdx 0).
Proof.
  intros Hwf Hne Hson Hi Hp Hz H. cbn beta in H.
  apply bind_ok in H as (p' & t0 & Hp' & H). apply get_e_spec in Hp' as [-> Hp'].
  assert (p' = p) by (pose proof (slot_cell_det _ _ _ _ _ _ Hp' Hp); congruence). subst p'.
  assert (Hnull : forall t1, put_e ns i None t = Ok (tt, t1) ->
            slot_cell st_e t1 ns i (CElem None) /\ slot_cell st_sub_idx t1 ns i (CIdx 0)).
  { intros t1 H1. split; [exact (store_cell FE ns i _ t tt t1 H1) |].
    destruct (writes_put_e ns i None t tt t1 H1 Hwf) as (_ & _ & _ & Hc & _).
    apply (Hc ns FIDX i); [right; intros [Hf _]; discriminate | exact Hz]. }
  destruct p as [e |]; cbn [carried triangle_son_element].
  2: { exists None. split; [reflexivity |]. exact (Hnull t' H). }
  destruct (el_used e); cbn [negb andb] in *.
  2: { exists None. split; [reflexivity |]. exact (Hnull t' H). }
  destruct (el_active e).
  - apply bind_ok in H as ([] & t1 & H1 & H).
    apply bind_ok in H as (v1 & t1' & Hv1 & H). apply get_sub_idx_spec in Hv1 as [-> Hv1].
    apply bind_ok in H as ([] & t2 & H2 & H).
    destruct (writes_put_e ns i (Some e) t tt t1 H1 Hwf) as (Hwf1 & _ & _ & Hc1 & _).
    destruct (writes_put_sub_idx ns i v1 t1 tt t2 H2 Hwf1) as (Hwf2 & _ & _ & Hc2 & _).
    destruct (writes_push_transform ns son i true t2 tt t' H Hwf2) as (_ & _ & _ & Hc3 & _).
    exists (Some e). split; [reflexivity |]. split.
    + apply (Hc3 ns FE i); [right; intros [Hf _]; discriminate |].
      apply (Hc2 ns FE i); [right; intros [Hf _]; discriminate |].
      exact (store_cell FE ns i _ t tt t1 H1).
    + intros v Hv.
      assert (v1 = v).
      { pose proof (Hc1 si FIDX i _ (or_introl Hne) Hv) as Hv'.
        pose proof (slot_cell_det _ _ _ _ _ _ Hv1 Hv'). congruence. }
      subst v1.
      pose proof (store_cell FIDX ns i _ t1 tt t2 H2) as Hcell.
      pose proof (proj2 (get_sub_idx_spec ns i t2 v t2) (conj eq_refl Hcell)) as Hget.
      destruct (push_transform_sub_idx ns son i true t2 v Hson Hi Hget) as (t3 & H3 & Hget3).
      assert (t3 = t') by congruence. subst t3.
      apply get_sub_idx_spec in Hget3 as [_ Hget3]. exact Hget3.
  - unfold son_at in H. destruct (zlookup (el_sons e) son) as [c |] eqn:Hson_e.
    2: { apply bind_ok in H as (? & ? & H & _). discriminate H. }
    apply bind_ok in H as (c' & t0 & Hret & H). apply ret_ok in Hret as [-> ->].
    apply bind_ok in H as ([] & t1 & H1 & H).
    destruct (writes_put_e ns i c t tt t1 H1 Hwf) as (Hwf1 & _ & _ & Hc1 & _).
    pose proof (store_cell FE ns i _ t tt t1 H1) as He1.
    assert (Hz1 : slot_cell st_sub_idx t1 ns i (CIdx 0)).
    { apply (Hc1 ns FIDX i); [right; intros [Hf _]; discriminate | exact Hz]. }
    apply bind_ok in H as (ce & t1' & Hd & H).
    destruct c as [ce' |]; [| discriminate Hd]. apply ret_ok in Hd as [-> ->].
    exists (Some ce'). split; [reflexivity |].
    destruct (el_active ce').
    + destruct (writes_put_sub_idx ns i 0 t1 tt t' H Hwf1) as (_ & _ & _ & Hc2 & _).
      split; [| exact (store_cell FIDX ns i _ t1 tt t' H)].
      apply (Hc2 ns FE i); [right; intros [Hf _]; discriminate | exact He1].
    + apply ret_ok in H as [_ <-]. split; [exact He1 | exact Hz1].
Qed.

Lemma triangle_loop si ns son n : forall i0 t t',
  wf t -> si <> ns -> 0 <= son < 256 -> 0 <= i0 -> i0 + Z.of_nat n <= 256 ->
  (forall i, i0 <= i < i0 + Z.of_nat n -> slot_cell st_sub_idx t ns i (CIdx 0)) ->
  for_loop n i0 (triangle_mesh si ns son) t = Ok (tt, t') ->
  writes ns (fun _ j => i0 <= j < i0 + Z.of_nat n) t t' /\
  forall i p, i0 <= i < i0 + Z.of_nat n -> slot_cell st_e t si i (CElem p) ->
    exists c, triangle_son_element p son c /\
              slot_cell st_e t' ns i (CElem c) /\
              if carried p
              then forall v, slot_cell st_sub_idx t si i (CIdx v) ->
                     slot_cell st_sub_idx t' ns i (CIdx (push_idx v son))
              else slot_cell st_sub_idx t' ns i (CIdx 0).
Proof.
  induction n as [| n IH]; intros i0 t t' Hwf Hne Hson Hi0 Hn Hz H.
  - cbn [for_loop] in H. apply ret_ok in H as [_ ->].
    split; [reflexivity | intros i p Hi; lia].
  - cbn [for_loop] in H. apply bind_ok in H as ([] & t1 & H1 & H).
    assert (Hj : 0 <= i0 < 256) by lia.
    pose proof (triangle_mesh_frame si ns son i0 Hj t tt t1 H1) as H01.
    destruct (H01 Hwf) as (Hwf1 & _ & _ & Hc1 & _).
    assert (Hz1 : forall i, i0 + 1 <= i < i0 + 1 + Z.of_nat n ->
                    slot_cell st_sub_idx t1 ns i (CIdx 0)).
    { intros i Hi. apply (Hc1 ns FIDX i); [right; lia | apply Hz; lia]. }
    destruct (IH (i0 + 1) t1 t' Hwf1 Hne Hson ltac:(lia) ltac:(lia) Hz1 H)
      as (Hrest & Hpost).
    destruct (Hrest Hwf1) as (_ & _ & _ & Hc' & _).
    split.
    + transitivity t1.
      * eapply writes_weaken; [| exact H01]. cbn. intros _ j ->. lia.
      * eapply writes_weaken; [| exact Hrest]. cbn. intros _ j Hjr. lia.
    + intros i p Hi Hp.
      destruct (decide (i = i0)) as [-> | Hne0].
      * destruct (triangle_mesh_cells si ns son i0 p t t1 Hwf Hne Hson Hj Hp
                    (Hz i0 ltac:(lia)) H1) as (c & Hel & Hec & Hidx).
        exists c. split; [exact Hel |].
        split; [apply (Hc' ns FE i0); [right; lia | exact Hec] |].
        destruct (carried p).
        -- intros v Hv. apply (Hc' ns FIDX i0); [right; lia | exact (Hidx v Hv)].
        -- apply (Hc' ns FIDX i0); [right; lia | exact Hidx].
      * destruct (Hpost i p ltac:(lia) (Hc1 si FE i _ (or_introl Hne) Hp))
          as (c & Hel & Hec & Hidx).
        exists c. split; [exact Hel |]. split; [exact Hec |].
        destruct (carried p); [| exact Hidx].
        intros v Hv. apply Hidx. exact (Hc1 si FIDX i _ (or_introl Hne) Hv).
Qed.

(** X19.  One iteration of the loop that pushes the sons of a triangle
    state, for a traversal of at most 256 meshes: the son state is the
    slot at the old [top]; its boundary flags are the parent's with the
    edge inside the parent cleared, and none for the central son,
    whatever [push_transform] did to them meanwhile; [e[i]] is null for a
    null or unused element, the parent's element when that is active and
    its son [son] otherwise; [sub_idx[i]] is the parent's address extended
    by [son] for an active element and 0 otherwise. *)
Theorem push_triangle_son_fills_son (si son : Z) (s : State) (t t' : Traverse) :
  wf t -> 0 <= si < tr_top t -> tr_num t <= 256 -> 0 <= son <= 3 ->
  zlookup (tr_stack t) si = Some s ->
  push_triangle_son si son t = Ok (tt, t') ->
  triangle_son_pushed si son s t t'.
Proof.
  intros Hwf Hsi Hnum Hson Hs H.
  destruct (push_triangle_son_unvisited si son t tt t' Hwf H) as (Htop & _).
  split; [exact Htop |].
  unfold push_triangle_son in H.
  apply bind_ok in H as (ns & t1 & Hpush & H).
  destruct (push_state_spec t ns t1 Hwf Hpush)
    as (-> & _ & s0 & s1 & _ & Hs1 & _ & Hzero & _).
  destruct (above_push_state (tr_top t) t _ t1 Hpush (conj Hwf (fun _ => Z.le_refl _)))
    as ((Hwf1 & _) & Hnum1 & _ & _ & Hbelow).
  destruct (Hbelow si s Hsi Hs) as (Hs_1 & Hcont).
  assert (Hne : si <> tr_top t) by lia.
  apply bind_ok in H as (num & t0 & Hg & H). apply gets_ok in Hg as [-> ->].
  apply bind_ok in H as ([] & t2 & Hloop & H).
  assert (Hz : forall i, 0 <= i < 0 + Z.of_nat (Z.to_nat (tr_num t1)) ->
                 slot_cell st_sub_idx t1 (tr_top t) i (CIdx 0)).
  { intros i Hi. destruct (st_sub_idx s1) as [a |] eqn:Ha; [| discriminate Hzero].
    cbn [cells_of] in Hzero.
    exists s1, a, (replicate (Z.to_nat (tr_num t)) (CIdx 0)).
    split; [exact Hs1 |]. split; [exact Ha |]. split; [exact Hzero |].
    apply zlookup_Some. split; [lia |]. apply lookup_replicate. split; [reflexivity | lia]. }
  destruct (triangle_loop si (tr_top t) son (Z.to_nat (tr_num t1)) 0 t1 t2
              Hwf1 Hne ltac:(lia) ltac:(lia) ltac:(lia) Hz Hloop) as (Hw & Hpost).
  destruct (Hw Hwf1) as (Hwf2 & _ & Hslots2 & _ & _).
  apply bind_ok in H as (s2 & t0 & Hs2 & H). apply slot_ok in Hs2 as [Hs2 ->].
  assert (s2 = s) by (pose proof (Hslots2 si s Hne Hs_1); congruence). subst s2.
  assert (Hlast : exists f, keeps_ptrs f /\ (forall x, st_cr (f x) = st_cr x) /\
                    (forall x, st_bnd (f x) = triangle_son_bnd (st_bnd s) son) /\
                    update_slot (tr_top t) f t2 = Ok (tt, t')).
  { unfold triangle_son_bnd. destruct (son <? 3).
    - eexists. split; [| split; [| split; [| exact H]]];
        [intros x; repeat split | reflexivity | reflexivity].
    - eexists. split; [| split; [| split; [| exact H]]];
        [intros x; repeat split | reflexivity | reflexivity]. }
  destruct Hlast as (f & Hf & Hfcr & Hbnd & Hupd).
  destruct (writes_update_slot (tr_top t) (fun _ _ => False) f Hf Hfcr t2 tt t' Hupd Hwf2)
    as (_ & _ & _ & Hc' & _).
  apply update_slot_ok in Hupd as (s2 & Hs2' & ->).
  exists (f s2). split; [exact (lookup_insert_slot _ _ s2 (f s2) Hs2') |].
  split; [apply Hbnd |].
  intros i p Hi Hp.
  destruct (Hpost i p ltac:(lia) (slot_cell_content t t1 si s FE i _ Hs Hs_1 Hcont Hp))
    as (c & Hel & Hec & Hidx).
  exists c. split; [exact Hel |].
  split; [apply (Hc' _ FE i); [right; tauto | exact Hec] |].
  destruct (carried p).
  - intros v Hv. apply (Hc' _ FIDX i); [right; tauto |].
    apply Hidx. exact (slot_cell_content t t1 si s FIDX i _ Hs Hs_1 Hcont Hv).
  - apply (Hc' _ FIDX i); [right; tauto | exact Hidx].
Qed.

Lemma push_triangle_son_fills_son_witness :
  triangle_son_pushed 0 1
    (default zero_State (tr_stack (ex_entered [ex_mesh_refined] 1) !! 0%nat))
    (ex_entered [ex_mesh_refined] 1)
    (snd (run_from (push_triangle_son 0 1) (ex_entered [ex_mesh_refined] 1) tt)).
Proof.
  apply (push_triangle_son_fills_son 0 1).
  - apply ex_entered_wf.
  - vm_compute. split; [discriminate | reflexivity].
  - vm_compute. discriminate.
  - lia.
  - vm_compute. reflexivity.
  - vm_compute. reflexivity.
Defined.

(** ** What the son of a quadrilateral state holds *)

Lemma has_cr_writes ns W cr t t' : wf t -> writes ns W t t' -> has_cr ns cr t -> has_cr ns cr t'.
Proof.
  intros Hwf Hw (s & Hs & Hcr). destruct (Hw Hwf) as (_ & _ & _ & _ & Hr).
  destruct (Hr s Hs) as (s' & Hs' & Hcr'). exists s'. split; [exact Hs' | congruence].
Qed.

(** The loop over the meshes that fills a son state: [post t t' i p] is
    what iteration [i] achieves from [t] to [t'] when the parent's
    [e[i]] is [p]. *)
Section SonLoop.
Variables (si ns : Z) (cr : Rect) (body : Z -> M unit).
Variable post : Traverse -> Traverse -> Z -> option Element -> Prop.
Hypothesis Hne : si <> ns.
Hypothesis Hframe : forall j, 0 <= j < 256 ->
  respects (writes ns (fun _ k => k = j)) (body j).
Hypothesis Hstep : forall i p t t',
  wf t -> 0 <= i < 256 -> has_cr ns cr t ->
  slot_cell st_e t si i (CElem p) -> slot_cell st_sub_idx t ns i (CIdx 0) ->
  body i t = Ok (tt, t') -> post t t' i p.
Hypothesis Hlater : forall i p t t1 t',
  (forall f c, slot_cell (fld_sel f) t1 ns i c -> slot_cell (fld_sel f) t' ns i c) ->
  post t t1 i p -> post t t' i p.
Hypothesis Hearlier : forall i p t t1 t',
  (forall f c, slot_cell (fld_sel f) t si i c -> slot_cell (fld_sel f) t1 si i c) ->
  post t1 t' i p -> post t t' i p.

Lemma son_loop n : forall i0 t t',
  wf t -> 0 <= i0 -> i0 + Z.of_nat n <= 256 -> has_cr ns cr t ->
  (forall i, i0 <= i < i0 + Z.of_nat n -> slot_cell st_sub_idx t ns i (CIdx 0)) ->
  for_loop n i0 body t = Ok (tt, t') ->
  writes ns (fun _ j => i0 <= j < i0 + Z.of_nat n) t t' /\
  forall i p, i0 <= i < i0 + Z.of_nat n -> slot_cell st_e t si i (CElem p) ->
    post t t' i p.
Proof.
  induction n as [| n IH]; intros i0 t t' Hwf Hi0 Hn Hcr Hz H.
  - cbn [for_loop] in H. apply ret_ok in H as [_ ->].
    split; [reflexivity | intros i p Hi; lia].
  - cbn [for_loop] in H. apply bind_ok in H as ([] & t1 & H1 & H).
    assert (Hj : 0 <= i0 < 256) by lia.
    pose proof (Hframe i0 Hj t tt t1 H1) as H01.
    destruct (H01 Hwf) as (Hwf1 & _ & _ & Hc1 & _).
    assert (Hz1 : forall i, i0 + 1 <= i < i0 + 1 + Z.of_nat n ->
                    slot_cell st_sub_idx t1 ns i (CIdx 0)).
    { intros i Hi. apply (Hc1 ns FIDX i); [right; lia | apply Hz; lia]. }
    destruct (IH (i0 + 1) t1 t' Hwf1 ltac:(lia) ltac:(lia)
                 (has_cr_writes _ _ _ _ _ Hwf H01 Hcr) Hz1 H) as (Hrest & Hpost).
    destruct (Hrest Hwf1) as (_ & _ & _ & Hc' & _).
    split.
    + transitivity t1.
      * eapply writes_weaken; [| exact H01]. cbn. intros _ j ->. lia.
      * eapply writes_weaken; [| exact Hrest]. cbn. intros _ j Hjr. lia.
    + intros i p Hi Hp.
      destruct (decide (i = i0)) as [-> | Hne0].
      * apply (Hlater i0 p t t1 t').
        -- intros f c. apply Hc'. right. lia.
        -- exact (Hstep i0 p t t1 Hwf Hj Hcr Hp (Hz i0 ltac:(lia)) H1).
      * apply (Hearlier i p t t1 t').
        -- intros f c. apply Hc1. left. exact Hne.
        -- apply Hpost; [lia |]. exact (Hc1 si FE i _ (or_introl Hne) Hp).
Qed.

End SonLoop.

(** A mesh without a used element. *)
Lemma put_e_dropped ns i t t' :
  wf t -> slot_cell st_sub_idx t ns i (CIdx 0) ->
  put_e ns i None t = Ok (tt, t') -> dropped ns t' i.
Proof.
  intros Hwf Hz H. split; [exact (store_cell FE ns i _ t tt t' H) |].
  destruct (writes_put_e ns i None t tt t' H Hwf) as (_ & _ & _ & Hc & _).
  apply (Hc ns FIDX i); [right; intros [Hf _]; discriminate | exact Hz].
Qed.

(** An active element carried over with its address. *)
Lemma carry_cells si ns son i e tri t t' :
  wf t -> si <> ns -> 0 <= son < 256 -> 0 <= i < 256 ->
  (put_e ns i (Some e) ;;
   let* v := get_sub_idx si i in
   put_sub_idx ns i v ;;
   push_transform ns son i tri) t = Ok (tt, t') ->
  slot_cell st_e t' ns i (CElem (Some e)) /\
  forall v, slot_cell st_sub_idx t si i (CIdx v) ->
    slot_cell st_sub_idx t' ns i (CIdx (push_idx v son)).
Proof.
  intros Hwf Hne Hson Hi H.
  apply bind_ok in H as ([] & t1 & H1 & H).
  apply bind_ok in H as (v1 & t1' & Hv1 & H). apply get_sub_idx_spec in Hv1 as [-> Hv1].
  apply bind_ok in H as ([] & t2 & H2 & H).
  destruct (writes_put_e ns i (Some e) t tt t1 H1 Hwf) as (Hwf1 & _ & _ & Hc1 & _).
  destruct (writes_put_sub_idx ns i v1 t1 tt t2 H2 Hwf1) as (Hwf2 & _ & _ & Hc2 & _).
  destruct (writes_push_transform ns son i tri t2 tt t' H Hwf2) as (_ & _ & _ & Hc3 & _).
  split.
  - apply (Hc3 ns FE i); [right; intros [Hf _]; discriminate |].
    apply (Hc2 ns FE i); [right; intros [Hf _]; discriminate |].
    exact (store_cell FE ns i _ t tt t1 H1).
  - intros v Hv.
    assert (v1 = v).
    { pose proof (Hc1 si FIDX i _ (or_introl Hne) Hv) as Hv'.
      pose proof (slot_cell_det _ _ _ _ _ _ Hv1 Hv'). congruence. }
    subst v1.
    pose proof (store_cell FIDX ns i _ t1 tt t2 H2) as Hcell.
    pose proof (proj2 (get_sub_idx_spec ns i t2 v t2) (conj eq_refl Hcell)) as Hget.
    destruct (push_transform_sub_idx ns son i tri t2 v Hson Hi Hget) as (t3 & H3 & Hget3).
    assert (t3 = t') by congruence. subst t3.
    apply get_sub_idx_spec in Hget3 as [_ Hget3]. exact Hget3.
Qed.

(** An element with sons, moved to the son that [current_sons] names. *)
Lemma move_cells si ns k cs e i t t' :
  wf t -> si <> ns -> slot_cell st_sub_idx t ns i (CIdx 0) ->
  (let* code := current_son cs i k in move_element si ns i e code) t = Ok (tt, t') ->
  moved si ns k cs e t t' i.
Proof.
  intros Hwf Hne Hz H.
  apply bind_ok in H as (code0 & t0 & Hcode & H). unfold current_son in Hcode.
  destruct (zlookup cs i) as [[sons |] |] eqn:Hcs; try discriminate Hcode.
  destruct (zlookup sons k) as [code |] eqn:Hk; [| discriminate Hcode].
  apply ret_ok in Hcode as [-> ->].
  unfold move_element in H.
  apply bind_ok in H as (c0 & t0 & Hc & H). unfold son_at in Hc.
  destruct (zlookup (el_sons e) (Z.land code 3)) as [c |] eqn:Hson; [| discriminate Hc].
  apply ret_ok in Hc as [-> ->].
  apply bind_ok in H as ([] & t1 & H1 & H).
  apply bind_ok in H as (x1 & t1' & Hx1 & H). apply get_er_spec in Hx1 as [-> Hx1].
  apply bind_ok in H as ([] & t2 & H2 & H).
  apply bind_ok in H as (ce0 & t2' & Hd & H).
  destruct c as [ce |]; [| discriminate Hd]. apply ret_ok in Hd as [-> ->].
  destruct (writes_put_e ns i (Some ce) t tt t1 H1 Hwf) as (Hwf1 & _ & _ & Hc1 & _).
  destruct (writes_put_er ns i (move_to_son x1 code) t1 tt t2 H2 Hwf1)
    as (Hwf2 & _ & _ & Hc2 & _).
  assert (He2 : slot_cell st_e t2 ns i (CElem (Some ce))).
  { apply (Hc2 ns FE i); [right; intros [Hf _]; discriminate |].
    exact (store_cell FE ns i _ t tt t1 H1). }
  assert (Hz2 : slot_cell st_sub_idx t2 ns i (CIdx 0)).
  { apply (Hc2 ns FIDX i); [right; intros [Hf _]; discriminate |].
    apply (Hc1 ns FIDX i); [right; intros [Hf _]; discriminate | exact Hz]. }
  assert (Her2 : forall x, slot_cell st_er t si i (CRect x) ->
                   slot_cell st_er t2 ns i (CRect (move_to_son x code))).
  { intros x Hx.
    assert (x1 = x).
    { pose proof (Hc1 si FER i _ (or_introl Hne) Hx) as Hx'.
      pose proof (slot_cell_det _ _ _ _ _ _ Hx1 Hx'). congruence. }
    subst x1. exact (store_cell FER ns i _ t1 tt t2 H2). }
  exists sons, code, (Some ce).
  split; [exact Hcs |]. split; [exact Hk |]. split; [exact Hson |].
  destruct (el_active ce).
  - destruct (writes_put_sub_idx ns i 0 t2 tt t' H Hwf2) as (_ & _ & _ & Hc3 & _).
    split; [apply (Hc3 ns FE i); [right; intros [Hf _]; discriminate | exact He2] |].
    split; [exact (store_cell FIDX ns i _ t2 tt t' H) |].
    intros x Hx. apply (Hc3 ns FER i); [right; intros [Hf _]; discriminate |].
    exact (Her2 x Hx).
  - apply ret_ok in H as [_ <-]. split; [exact He2 |]. split; [exact Hz2 | exact Her2].
Qed.

Lemma writes_move_element si ns i e code :
  respects (writes ns (fun _ k => k = i)) (move_element si ns i e code).
Proof. unfold move_element. respects_all. Qed.

Lemma dropped_later ns i t1 t' :
  (forall f c, slot_cell (fld_sel f) t1 ns i c -> slot_cell (fld_sel f) t' ns i c) ->
  dropped ns t1 i -> dropped ns t' i.
Proof. intros Hc [He Hz]. split; [exact (Hc FE _ He) | exact (Hc FIDX _ Hz)]. Qed.

Lemma moved_later si ns k cs e i t t1 t' :
  (forall f c, slot_cell (fld_sel f) t1 ns i c -> slot_cell (fld_sel f) t' ns i c) ->
  moved si ns k cs e t t1 i -> moved si ns k cs e t t' i.
Proof.
  intros Hc (sons & code & c & Hcs & Hk & Hson & He & Hz & Her).
  exists sons, code, c. repeat (split; [assumption |]).
  split; [exact (Hc FE _ He) |]. split; [exact (Hc FIDX _ Hz) |].
  intros x Hx. exact (Hc FER _ (Her x Hx)).
Qed.

Lemma moved_earlier si ns k cs e i t t1 t' :
  (forall f c, slot_cell (fld_sel f) t si i c -> slot_cell (fld_sel f) t1 si i c) ->
  moved si ns k cs e t1 t' i -> moved si ns k cs e t t' i.
Proof.
  intros Hc (sons & code & c & Hcs & Hk & Hson & He & Hz & Her).
  exists sons, code, c. repeat (split; [assumption |]).
  intros x Hx. exact (Her x (Hc FER _ Hx)).
Qed.

#[local] Hint Resolve writes_move_element : respects_db.

(** The bodies of the loops over the meshes in the quadrilateral branches. *)
#[local] Abbreviation quad_mesh dflt si ns son k cs :=
  (fun i : Z =>
     let* p := get_e si i in
     match p with
     | None => put_e ns i None
     | Some e =>
         if negb (el_used e) then put_e ns i None
         else if el_active e then
           put_e ns i (Some e) ;;
           let* v := get_sub_idx si i in
           put_sub_idx ns i v ;;
           push_transform ns son i dflt
         else
           let* code := current_son cs i k in
           move_element si ns i e code
     end).

#[local] Abbreviation single_mesh si ns cs :=
  (fun i : Z =>
     let* p := get_e si i in
     match p with
     | None => put_e ns i None
     | Some e =>
         if negb (el_used e) then put_e ns i None
         else if el_active e then
           put_e ns i (Some e) ;;
           let* nst := slot ns in
           put_er ns i (st_cr nst)
         else
           let* code := current_son cs i 0 in
           move_element si ns i e code
     end).

Lemma quad_mesh_frame dflt si ns son k cs j :
  0 <= j < 256 -> respects (writes ns (fun _ i => i = j)) (quad_mesh dflt si ns son k cs j).
Proof.
  intros Hj. cbn beta. respects_step; [respects_step |].
  destruct a as [e |]; [| respects_step].
  destruct (negb (el_used e)); [respects_step |].
  destruct (el_active e).
  - respects_step; [respects_step |].
    respects_step; [respects_step |].
    respects_step; [respects_step |]. apply writes_push_transform_mesh, Hj.
  - respects_all.
Qed.

Lemma single_mesh_frame si ns cs j :
  respects (writes ns (fun _ i => i = j)) (single_mesh si ns cs j).
Proof. cbn beta. respects_all. Qed.

Lemma quad_mesh_cells dflt si ns son k cs i p t t' :
  wf t -> si <> ns -> 0 <= son < 256 -> 0 <= i < 256 ->
  slot_cell st_e t si i (CElem p) -> slot_cell st_sub_idx t ns i (CIdx 0) ->
  quad_mesh dflt si ns son k cs i t = Ok (tt, t') ->
  quad_son_mesh si ns son k cs t t' i p.
Proof.
  intros Hwf Hne Hson Hi Hp Hz H. cbn beta in H.
  apply bind_ok in H as (p' & t0 & Hp' & H). apply get_e_spec in Hp' as [-> Hp'].
  assert (p' = p) by (pose proof (slot_cell_det _ _ _ _ _ _ Hp' Hp); congruence). subst p'.
  destruct p as [e |]; cbn [quad_son_mesh]; [| exact (put_e_dropped ns i t t' Hwf Hz H)].
  destruct (negb (el_used e)); [exact (put_e_dropped ns i t t' Hwf Hz H) |].
  destruct (el_active e).
  - exact (carry_cells si ns son i e dflt t t' Hwf Hne Hson Hi H).
  - exact (move_cells si ns k cs e i t t' Hwf Hne Hz H).
Qed.

Lemma single_mesh_cells si ns cs cr i p t t' :
  wf t -> si <> ns -> has_cr ns cr t ->
  slot_cell st_e t si i (CElem p) -> slot_cell st_sub_idx t ns i (CIdx 0) ->
  single_mesh si ns cs i t = Ok (tt, t') ->
  quad_single_mesh si ns cs cr t t' i p.
Proof.
  intros Hwf Hne Hcr Hp Hz H. cbn beta in H.
  apply bind_ok in H as (p' & t0 & Hp' & H). apply get_e_spec in Hp' as [-> Hp'].
  assert (p' = p) by (pose proof (slot_cell_det _ _ _ _ _ _ Hp' Hp); congruence). subst p'.
  destruct p as [e |]; cbn [quad_single_mesh]; [| exact (put_e_dropped ns i t t' Hwf Hz H)].
  destruct (negb (el_used e)); [exact (put_e_dropped ns i t t' Hwf Hz H) |].
  destruct (el_active e).
  - apply bind_ok in H as ([] & t1 & H1 & H).
    apply bind_ok in H as (nst & t1' & Hnst & H). apply slot_ok in Hnst as [Hnst ->].
    pose proof (writes_put_e ns i (Some e) t tt t1 H1) as Hw1.
    destruct (Hw1 Hwf) as (Hwf1 & _ & _ & Hc1 & _).
    destruct (has_cr_writes _ _ cr _ _ Hwf Hw1 Hcr) as (s1 & Hs1 & Hcr1).
    assert (s1 = nst) by congruence. subst s1. rewrite Hcr1 in H.
    destruct (writes_put_er ns i cr t1 tt t' H Hwf1) as (_ & _ & _ & Hc2 & _).
    split; [| split].
    + apply (Hc2 ns FE i); [right; intros [Hf _]; discriminate |].
      exact (store_cell FE ns i _ t tt t1 H1).
    + exact (store_cell FER ns i _ t1 tt t' H).
    + apply (Hc2 ns FIDX i); [right; intros [Hf _]; discriminate |].
      apply (Hc1 ns FIDX i); [right; intros [Hf _]; discriminate | exact Hz].
  - exact (move_cells si ns 0 cs e i t t' Hwf Hne Hz H).
Qed.

Lemma quad_son_mesh_later si ns son k cs i p t t1 t' :
  (forall f c, slot_cell (fld_sel f) t1 ns i c -> slot_cell (fld_sel f) t' ns i c) ->
  quad_son_mesh si ns son k cs t t1 i p -> quad_son_mesh si ns son k cs t t' i p.
Proof.
  intros Hc. destruct p as [e |]; cbn [quad_son_mesh]; [| apply dropped_later, Hc].
  destruct (negb (el_used e)); [apply dropped_later, Hc |].
  destruct (el_active e); [| apply moved_later, Hc].
  intros [He Hidx]. split; [exact (Hc FE _ He) |].
  intros v Hv. exact (Hc FIDX _ (Hidx v Hv)).
Qed.

Lemma quad_son_mesh_earlier si ns son k cs i p t t1 t' :
  (forall f c, slot_cell (fld_sel f) t si i c -> slot_cell (fld_sel f) t1 si i c) ->
  quad_son_mesh si ns son k cs t1 t' i p -> quad_son_mesh si ns son k cs t t' i p.
Proof.
  intros Hc. destruct p as [e |]; cbn [quad_son_mesh]; [| exact (fun H => H)].
  destruct (negb (el_used e)); [exact (fun H => H) |].
  destruct (el_active e); [| apply moved_earlier, Hc].
  intros [He Hidx]. split; [exact He |].
  intros v Hv. exact (Hidx v (Hc FIDX _ Hv)).
Qed.

Lemma quad_single_mesh_later si ns cs cr i p t t1 t' :
  (forall f c, slot_cell (fld_sel f) t1 ns i c -> slot_cell (fld_sel f) t' ns i c) ->
  quad_single_mesh si ns cs cr t t1 i p -> quad_single_mesh si ns cs cr t t' i p.
Proof.
  intros Hc. destruct p as [e |]; cbn [quad_single_mesh]; [| apply dropped_later, Hc].
  destruct (negb (el_used e)); [apply dropped_later, Hc |].
  destruct (el_active e); [| apply moved_later, Hc].
  intros (He & Her & Hidx).
  split; [exact (Hc FE _ He) |]. split; [exact (Hc FER _ Her) | exact (Hc FIDX _ Hidx)].
Qed.

Lemma quad_single_mesh_earlier si ns cs cr i p t t1 t' :
  (forall f c, slot_cell (fld_sel f) t si i c -> slot_cell (fld_sel f) t1 si i c) ->
  quad_single_mesh si ns cs cr t1 t' i p -> quad_single_mesh si ns cs cr t t' i p.
Proof.
  intros Hc. destruct p as [e |]; cbn [quad_single_mesh]; [| exact (fun H => H)].
  destruct (negb (el_used e)); [exact (fun H => H) |].
  destruct (el_active e); [exact (fun H => H) | apply moved_earlier, Hc].
Qed.

(** The start of every quadrilateral branch: the son state is pushed and
    receives its rectangle. *)
Lemma push_with_cr si s cr t ns t1 t2 :
  wf t -> 0 <= si < tr_top t -> zlookup (tr_stack t) si = Some s ->
  push_state t = Ok (ns, t1) -> update_slot ns (set_cr cr) t1 = Ok (tt, t2) ->
  ns = tr_top t /\ si <> ns /\ wf t2 /\ tr_num t2 = tr_num t /\ has_cr ns cr t2 /\
  zlookup (tr_stack t1) si = Some s /\
  (forall i, 0 <= i < tr_num t -> slot_cell st_sub_idx t2 ns i (CIdx 0)) /\
  (forall f i c, slot_cell (fld_sel f) t si i c -> slot_cell (fld_sel f) t2 si i c).
Proof.
  intros Hwf Hsi Hs Hpush Hupd.
  destruct (push_state_spec t ns t1 Hwf Hpush)
    as (-> & _ & s0 & s1 & _ & Hs1 & _ & Hzero & _).
  destruct (above_push_state (tr_top t) t _ t1 Hpush (conj Hwf (fun _ => Z.le_refl _)))
    as ((Hwf1 & _) & Hnum1 & _ & _ & Hbelow).
  destruct (Hbelow si s Hsi Hs) as (Hs_1 & Hcont).
  destruct (update_slot_cells (tr_top t) (set_cr cr) t1 t2
              ltac:(intros x; repeat split) Hwf1 Hupd)
    as (Hwf2 & Hnum2 & (s1' & Hs1' & Hs2) & _ & Hc2).
  split; [reflexivity |]. split; [lia |]. split; [exact Hwf2 |].
  split; [congruence |].
  split; [exists (set_cr cr s1'); split; [exact Hs2 | reflexivity] |].
  split; [exact Hs_1 |]. split.
  - intros i Hi. apply (Hc2 _ FIDX).
    destruct (st_sub_idx s1) as [a |] eqn:Ha; [| discriminate Hzero].
    cbn [cells_of] in Hzero.
    exists s1, a, (replicate (Z.to_nat (tr_num t)) (CIdx 0)).
    split; [exact Hs1 |]. split; [exact Ha |]. split; [exact Hzero |].
    apply zlookup_Some. split; [lia |]. apply lookup_replicate. split; [reflexivity | lia].
  - intros f i c Hcell. apply Hc2.
    exact (slot_cell_content t t1 si s f i c Hs Hs_1 Hcont Hcell).
Qed.

(** X20.  One son pushed by the branches of [get_states] for two and for
    four sons of a quadrilateral state, for a traversal of at most 256
    meshes: the son state is the slot at the old [top], its rectangle
    [cr] is the part of the parent's with the code [son]; [e[i]] is null
    for a null or unused element; an active element is carried over with
    the parent's address extended by [son]; an element with sons is
    replaced by the son that [current_sons[i][k]] names, with [er[i]] the
    part of the parent's [er[i]] with that code and [sub_idx[i]] 0. *)
Theorem push_quad_son_fills_son (dflt : bool) (si son k : Z)
        (current_sons : list (option (list Z))) (s : State) (t t' : Traverse) :
  wf t -> 0 <= si < tr_top t -> tr_num t <= 256 -> 0 <= son < 256 ->
  zlookup (tr_stack t) si = Some s ->
  push_quad_son dflt si son k current_sons t = Ok (tt, t') ->
  quad_son_pushed si son k current_sons s t t'.
Proof.
  intros Hwf Hsi Hnum Hson Hs H.
  destruct (push_quad_son_unvisited dflt si son k current_sons t tt t' Hwf H) as (Htop & _).
  split; [exact Htop |].
  unfold push_quad_son in H.
  apply bind_ok in H as (ns & t1 & Hpush & H).
  apply bind_ok in H as (s' & t0 & Hs' & H). apply slot_ok in Hs' as [Hs' ->].
  apply bind_ok in H as ([] & t2 & Hupd & H).
  destruct (push_with_cr si s _ t ns t1 t2 Hwf Hsi Hs Hpush Hupd)
    as (-> & Hne & Hwf2 & Hnum2 & Hcr & Hs1 & Hz & Hcells).
  assert (s' = s) by congruence. subst s'.
  apply bind_ok in H as (num & t0 & Hg & H). apply gets_ok in Hg as [-> ->].
  destruct (son_loop si (tr_top t) (move_to_son (st_cr s) son)
              (quad_mesh dflt si (tr_top t) son k current_sons)
              (quad_son_mesh si (tr_top t) son k current_sons) Hne
              (quad_mesh_frame dflt si (tr_top t) son k current_sons)
              (fun i p ta tb Hwfa Hi _ =>
                 quad_mesh_cells dflt si (tr_top t) son k current_sons i p ta tb
                                 Hwfa Hne Hson Hi)
              (quad_son_mesh_later si (tr_top t) son k current_sons)
              (quad_son_mesh_earlier si (tr_top t) son k current_sons)
              (Z.to_nat (tr_num t2)) 0 t2 t' Hwf2 ltac:(lia) ltac:(lia) Hcr
              ltac:(intros i Hi; apply Hz; lia) H) as (Hw & Hpost).
  split; [exact (has_cr_writes _ _ _ _ _ Hwf2 Hw Hcr) |].
  intros i p Hi Hp.
  apply (quad_son_mesh_earlier si (tr_top t) son k current_sons i p t t2 t').
  - intros f c. apply Hcells.
  - apply Hpost; [lia |]. exact (Hcells FE i _ Hp).
Qed.

Lemma push_quad_son_fills_son_witness :
  quad_son_pushed 0 1 1 [Some [0; 1; 2; 3]]
    (default zero_State (tr_stack (ex_entered [ex_mesh_quad] 1) !! 0%nat))
    (ex_entered [ex_mesh_quad] 1)
    (snd (run_from (push_quad_son false 0 1 1 [Some [0; 1; 2; 3]])
                   (ex_entered [ex_mesh_quad] 1) tt)).
Proof.
  apply (push_quad_son_fills_son false 0 1 1).
  - apply ex_entered_wf.
  - vm_compute. split; [discriminate | reflexivity].
  - vm_compute. discriminate.
  - lia.
  - vm_compute. reflexivity.
  - vm_compute. reflexivity.
Defined.

(** X21.  The son pushed by the branch of [get_states] for one son of a
    quadrilateral state: the son state is the slot at the old [top] and
    has the parent's rectangle [cr]; [e[i]] is null for a null or unused
    element; an active element is carried over with [er[i]] set to [cr]
    and [sub_idx[i]] 0, the parent's address is not copied; an element
    with sons is replaced by the son that [current_sons[i][0]] names,
    with [er[i]] the part of the parent's [er[i]] with that code and
    [sub_idx[i]] 0. *)
Theorem push_quad_single_fills_son (si : Z) (current_sons : list (option (list Z)))
        (s : State) (t t' : Traverse) :
  wf t -> 0 <= si < tr_top t -> tr_num t <= 256 ->
  zlookup (tr_stack t) si = Some s ->
  push_quad_single si current_sons t = Ok (tt, t') ->
  quad_single_pushed si current_sons s t t'.
Proof.
  intros Hwf Hsi Hnum Hs H.
  destruct (push_quad_single_unvisited si current_sons t tt t' Hwf H) as (Htop & _).
  split; [exact Htop |].
  unfold push_quad_single in H.
  apply bind_ok in H as (ns & t1 & Hpush & H).
  apply bind_ok in H as (s' & t0 & Hs' & H). apply slot_ok in Hs' as [Hs' ->].
  apply bind_ok in H as ([] & t2 & Hupd & H).
  destruct (push_with_cr si s _ t ns t1 t2 Hwf Hsi Hs Hpush Hupd)
    as (-> & Hne & Hwf2 & Hnum2 & Hcr & Hs1 & Hz & Hcells).
  assert (s' = s) by congruence. subst s'.
  apply bind_ok in H as (num & t0 & Hg & H). apply gets_ok in Hg as [-> ->].
  destruct (son_loop si (tr_top t) (st_cr s)
              (single_mesh si (tr_top t) current_sons)
              (quad_single_mesh si (tr_top t) current_sons (st_cr s)) Hne
              (fun j _ => single_mesh_frame si (tr_top t) current_sons j)
              (fun i p ta tb Hwfa _ Hcra =>
                 single_mesh_cells si (tr_top t) current_sons (st_cr s) i p ta tb
                                   Hwfa Hne Hcra)
              (quad_single_mesh_later si (tr_top t) current_sons (st_cr s))
              (quad_single_mesh_earlier si (tr_top t) current_sons (st_cr s))
              (Z.to_nat (tr_num t2)) 0 t2 t' Hwf2 ltac:(lia) ltac:(lia) Hcr
              ltac:(intros i Hi; apply Hz; lia) H) as (Hw & Hpost).
  split; [exact (has_cr_writes _ _ _ _ _ Hwf2 Hw Hcr) |].
  intros i p Hi Hp.
  apply (quad_single_mesh_earlier si (tr_top t) current_sons (st_cr s) i p t t2 t').
  - intros f c. apply Hcells.
  - apply Hpost; [lia |]. exact (Hcells FE i _ Hp).
Qed.

Lemma push_quad_single_fills_son_witness :
  quad_single_pushed 0 [None]
    (default zero_State (tr_stack (ex_entered [ex_mesh_quad_leaf] 1) !! 0%nat))
    (ex_entered [ex_mesh_quad_leaf] 1)
    (snd (run_from (push_quad_single 0 [None]) (ex_entered [ex_mesh_quad_leaf] 1) tt)).
Proof.
  apply (push_quad_single_fills_son 0 [None]).
  - apply ex_entered_wf.
  - vm_compute. split; [discriminate | reflexivity].
  - vm_compute. discriminate.
  - vm_compute. reflexivity.
  - vm_compute. reflexivity.
Defined.

(** ** The state of a base element *)

Lemma load_base_element_cells ONE n : forall meshes si id i0 nused t r t',
  wf t -> 0 <= i0 ->
  load_base_element ONE n meshes si id i0 nused t = Ok (r, t') ->
  writes si (fun f k => f <> FIDX /\ i0 <= k) t t' /\
  forall i, i0 <= i < i0 + Z.of_nat n ->
    exists m e, zlookup meshes i = Some m /\ zlookup (mesh_elements m) id = Some e /\
                slot_cell st_e t' si i (CElem (if el_used e then Some e else None)) /\
                (el_used e = true -> slot_cell st_er t' si i (CRect (H2D_UNITY ONE))).
Proof.
  induction n as [| n IH]; intros meshes si id i0 nused t r t' Hwf Hi0 H;
    cbn [load_base_element] in H.
  - apply ret_ok in H as [_ ->]. split; [reflexivity | intros i Hi; lia].
  - apply bind_ok in H as (m & t0 & Hm & H). apply lift_ok in Hm as [Hm ->].
    apply bind_ok in H as (e & t0 & He & H). apply lift_ok in He as [He ->].
    unfold mesh_at in Hm. destruct (zlookup meshes i0) as [m' |] eqn:Hm'; [| discriminate Hm].
    injection Hm as ->.
    unfold get_element in He.
    destruct (zlookup (mesh_elements m) id) as [e' |] eqn:He'; [| discriminate He].
    injection He as ->.
    apply bind_ok in H as ([] & t1 & H1 & H).
    pose proof (writes_put_e si i0 (Some e) t tt t1 H1) as W1.
    destruct (W1 Hwf) as (Hwf1 & _).
    assert (Hweak : forall g ta tb, g <> FIDX ->
              writes si (fun f k => f = g /\ k = i0) ta tb ->
              writes si (fun f k => f <> FIDX /\ i0 <= k) ta tb).
    { intros g ta tb Hg. apply writes_weaken. intros f k [-> ->]. split; [exact Hg | lia]. }
    assert (Hrest : forall ta tb,
              writes si (fun f k => f <> FIDX /\ i0 + 1 <= k) ta tb ->
              writes si (fun f k => f <> FIDX /\ i0 <= k) ta tb).
    { intros ta tb. apply writes_weaken. intros f k [Hf Hk]. split; [exact Hf | lia]. }
    destruct (el_used e) eqn:Hused; cbn [negb] in H.
    + apply bind_ok in H as ([] & t2 & H2 & H).
      apply bind_ok in H as ([] & t3 & H3 & H).
      pose proof (writes_update_slot si (fun _ _ => False)
                    (fun s => set_rep_i 0 (set_rep (Some e) s))
                    ltac:(intros x; repeat split) ltac:(reflexivity) t1 tt t2 H2) as W2.
      destruct (W2 Hwf1) as (Hwf2 & _ & _ & Hc2 & _).
      pose proof (writes_put_er si i0 (H2D_UNITY ONE) t2 tt t3 H3) as W3.
      destruct (W3 Hwf2) as (Hwf3 & _ & _ & Hc3 & _).
      destruct (IH meshes si id (i0 + 1) (nused + 1) t3 r t' Hwf3 ltac:(lia) H)
        as (W & Hcells).
      destruct (W Hwf3) as (_ & _ & _ & Hc' & _).
      split.
      * transitivity t1; [exact (Hweak FE _ _ ltac:(discriminate) W1) |].
        transitivity t2; [eapply writes_weaken; [| exact W2]; cbn; tauto |].
        transitivity t3; [exact (Hweak FER _ _ ltac:(discriminate) W3) | exact (Hrest _ _ W)].
      * intros i Hi. destruct (decide (i = i0)) as [-> | Hne]; [| apply Hcells; lia].
        exists m, e. split; [exact Hm' |]. split; [exact He' |]. rewrite Hused. split.
        -- apply (Hc' si FE i0); [right; intros [_ Hk]; lia |].
           apply (Hc3 si FE i0); [right; intros [Hf _]; discriminate |].
           apply (Hc2 si FE i0); [right; tauto |].
           exact (store_cell FE si i0 _ t tt t1 H1).
        -- intros _. apply (Hc' si FER i0); [right; intros [_ Hk]; lia |].
           exact (store_cell FER si i0 _ t2 tt t3 H3).
    + apply bind_ok in H as ([] & t2 & H2 & H).
      pose proof (writes_put_e si i0 None t1 tt t2 H2) as W2.
      destruct (W2 Hwf1) as (Hwf2 & _).
      destruct (IH meshes si id (i0 + 1) nused t2 r t' Hwf2 ltac:(lia) H) as (W & Hcells).
      destruct (W Hwf2) as (_ & _ & _ & Hc' & _).
      split.
      * transitivity t1; [exact (Hweak FE _ _ ltac:(discriminate) W1) |].
        transitivity t2; [exact (Hweak FE _ _ ltac:(discriminate) W2) | exact (Hrest _ _ W)].
      * intros i Hi. destruct (decide (i = i0)) as [-> | Hne]; [| apply Hcells; lia].
        exists m, e. split; [exact Hm' |]. split; [exact He' |]. rewrite Hused.
        split; [| discriminate].
        apply (Hc' si FE i0); [right; intros [_ Hk]; lia |].
        exact (store_cell FE si i0 _ t1 tt t2 H2).
Qed.

(** X22.  When the search for the next base element in [get_states]
    finds one, the state holds that base element of every mesh: [e[i]] is
    the element with the id found on mesh [i] if it is used, with [er[i]]
    the unit square, and null if it is not.  The search writes cells of
    [e] and [er] of that state only: [sub_idx], the rectangle [cr] and
    every other slot are as they were. *)
Theorem next_base_element_loads_state (ONE : Z) (n : nat) (meshes : list Mesh)
        (si id id' : Z) (t t' : Traverse) :
  wf t ->
  next_base_element ONE n meshes si id t = Ok (Some id', t') ->
  base_loaded ONE meshes si id' (tr_num t) t' /\
  writes si (fun f _ => f <> FIDX) t t'.
Proof.
  revert id t. induction n as [| n IH]; intros id t Hwf H; cbn [next_base_element] in H.
  - apply bind_ok in H as (m0 & t0 & Hm0 & H). apply lift_ok in Hm0 as [_ ->].
    destruct (mesh_num_base m0 <=? id); [discriminate H |].
    apply bind_ok in H as (num & t0 & Hg & H). apply gets_ok in Hg as [-> ->].
    apply bind_ok in H as (nused & t1 & Hload & H).
    destruct (negb (nused =? 0)); [| discriminate H].
    apply ret_ok in H as [[= ->] <-].
    destruct (load_base_element_cells ONE _ _ _ _ _ _ _ _ _ Hwf (Z.le_refl 0) Hload)
      as (W & Hcells).
    split; [intros i Hi; apply Hcells; destruct Hwf; lia |].
    eapply writes_weaken; [| exact W]. cbn. intros f k [Hf _]. exact Hf.
  - apply bind_ok in H as (m0 & t0 & Hm0 & H). apply lift_ok in Hm0 as [_ ->].
    destruct (mesh_num_base m0 <=? id); [discriminate H |].
    apply bind_ok in H as (num & t0 & Hg & H). apply gets_ok in Hg as [-> ->].
    apply bind_ok in H as (nused & t1 & Hload & H).
    destruct (load_base_element_cells ONE _ _ _ _ _ _ _ _ _ Hwf (Z.le_refl 0) Hload)
      as (W & Hcells).
    assert (W' : writes si (fun f _ => f <> FIDX) t t1).
    { eapply writes_weaken; [| exact W]. cbn. intros f k [Hf _]. exact Hf. }
    destruct (negb (nused =? 0)).
    + apply ret_ok in H as [[= ->] <-].
      split; [intros i Hi; apply Hcells; destruct Hwf; lia | exact W'].
    + destruct (W Hwf) as (Hwf1 & Hnum1 & _).
      destruct (IH (id + 1) t1 Hwf1 H) as (Hb & W2).
      split; [rewrite <- Hnum1; exact Hb | transitivity t1; [exact W' | exact W2]].
Qed.

Lemma next_base_element_loads_state_witness :
  base_loaded ex_ONE [ex_mesh_skip] 0 1 (tr_num (ex_entered [ex_mesh_skip] 1))
    (snd (run_from (next_base_element ex_ONE 2 [ex_mesh_skip] 0 0)
                   (ex_entered [ex_mesh_skip] 1) None)) /\
  writes 0 (fun f _ => f <> FIDX) (ex_entered [ex_mesh_skip] 1)
    (snd (run_from (next_base_element ex_ONE 2 [ex_mesh_skip] 0 0)
                   (ex_entered [ex_mesh_skip] 1) None)).
Proof.
  apply (next_base_element_loads_state ex_ONE 2 [ex_mesh_skip] 0 0 1).
  - apply ex_entered_wf.
  - vm_compute. reflexivity.
Defined.

(** ** The rectangles of the quadrilateral states *)

(** [get_split_and_sons] asks for a cut only when the midpoint of [er]
    lies strictly inside [cr]. *)
Lemma get_split_and_sons_room e cr er :
  room cr (fst (get_split_and_sons e cr er)).
Proof.
  unfold get_split_and_sons, room.
  repeat match goal with
         | |- context [if ?b && ?c then _ else _] =>
             destruct b eqn:?, c eqn:?; cbn [andb]
         | |- context [if ?b then _ else _] => destruct b eqn:?
         end; cbn [fst];
    (split; [lia |]); split; intros Hbit; cbn in Hbit; try discriminate Hbit;
    repeat match goal with
           | H : (_ <=? _) = true |- _ => apply Z.leb_le in H
           | H : (_ <=? _) = false |- _ => apply Z.leb_gt in H
           end; lia.
Qed.

Lemma room_lor cr a b : room cr a -> room cr b -> room cr (Z.lor a b).
Proof.
  intros (Ha & Ha0 & Ha1) (Hb & Hb0 & Hb1).
  split; [| split].
  - assert (Hcases : (a = 0 \/ a = 1 \/ a = 2 \/ a = 3) /\ (b = 0 \/ b = 1 \/ b = 2 \/ b = 3))
      by lia.
    destruct Hcases as [[-> | [-> | [-> | ->]]] [-> | [-> | [-> | ->]]]];
      vm_compute; split; discriminate.
  - rewrite Z.lor_spec. intros H. apply orb_true_iff in H as [H | H]; auto.
  - rewrite Z.lor_spec. intros H. apply orb_true_iff in H as [H | H]; auto.
Qed.

Lemma room_zero cr : room cr 0.
Proof. split; [lia |]. split; intros H; discriminate H. Qed.

(** The combined split of a state leaves room in its rectangle. *)
Lemma split_and_sons_room n : forall si i split acc t sp cs t' s,
  zlookup (tr_stack t) si = Some s -> room (st_cr s) split ->
  split_and_sons n si i split acc t = Ok ((sp, cs), t') ->
  room (st_cr s) sp.
Proof.
  induction n as [| n IH]; intros si i split acc t sp cs t' s Hs Hroom H;
    cbn [split_and_sons] in H.
  - apply ret_ok in H as [[= -> _] _]. exact Hroom.
  - apply bind_ok in H as (p & t0 & Hp & H).
    pose proof (respects_get_e eq si i _ _ _ Hp) as <-.
    destruct p as [e |]; [| exact (IH _ _ _ _ _ _ _ _ _ Hs Hroom H)].
    destruct (negb (el_active e)); [| exact (IH _ _ _ _ _ _ _ _ _ Hs Hroom H)].
    apply bind_ok in H as (s0 & t0 & Hs0 & H). apply slot_ok in Hs0 as [Hs0 ->].
    assert (s0 = s) by congruence. subst s0.
    apply bind_ok in H as (x & t0 & Hx & H).
    pose proof (respects_get_er eq si i _ _ _ Hx) as <-.
    pose proof (get_split_and_sons_room e (st_cr s) x) as Hr.
    destruct (get_split_and_sons e (st_cr s) x) as [sp0 sons]. cbn [fst] in Hr.
    refine (IH _ _ _ _ _ _ _ _ _ Hs _ H). apply room_lor; assumption.
Qed.

(** A son cut from a rectangle with room for it is not degenerate. *)
Lemma split_son_ok cr sp son :
  cr_ok cr -> room cr sp -> split_son sp son -> cr_ok (move_to_son cr son).
Proof.
  intros [(Hl & Hb & Hr & Ht) [Hw Hh]] (_ & Hroom0 & Hroom1) Hson.
  assert (Hox : ok1 (r_l cr) (r_r cr)) by (unfold ok1; lia).
  assert (Hoy : ok1 (r_b cr) (r_t cr)) by (unfold ok1; lia).
  pose proof (mid_between _ _ Hox) as Hmx. pose proof (mid_between _ _ Hoy) as Hmy.
  pose proof (mid_lt_hi _ _ Hox Hw) as Hmxr. pose proof (mid_lt_hi _ _ Hoy Hh) as Hmyt.
  assert (Hcut : forall k, Z.testbit sp k = true ->
            (k = 0 -> r_b cr < mid (r_b cr) (r_t cr)) /\
            (k = 1 -> r_l cr < mid (r_l cr) (r_r cr))).
  { intros k Hk. split; intros ->.
    - apply mid_gt_lo; [exact Hoy |]. specialize (Hroom0 Hk). lia.
    - apply mid_gt_lo; [exact Hox |]. specialize (Hroom1 Hk). lia. }
  unfold cr_ok, in_range, nondegenerate.
  destruct Hson as [[-> Hs] | [[-> Hs] | [-> Hs]]].
  - destruct (Hcut 0 eq_refl) as [H0 _]. destruct (Hcut 1 eq_refl) as [_ H1].
    specialize (H0 eq_refl). specialize (H1 eq_refl).
    assert (Hcase : son = 0 \/ son = 1 \/ son = 2 \/ son = 3) by lia.
    destruct Hcase as [-> | [-> | [-> | ->]]]; cbn [move_to_son r_l r_b r_r r_t];
      rewrite ?hmid_of_mid, ?vmid_of_mid; lia.
  - destruct (Hcut 0 eq_refl) as [H0 _]. specialize (H0 eq_refl).
    assert (Hcase : son = 4 \/ son = 5) by lia.
    destruct Hcase as [-> | ->]; cbn [move_to_son r_l r_b r_r r_t];
      rewrite ?hmid_of_mid, ?vmid_of_mid; lia.
  - destruct (Hcut 1 eq_refl) as [_ H1]. specialize (H1 eq_refl).
    assert (Hcase : son = 6 \/ son = 7) by lia.
    destruct Hcase as [-> | ->]; cbn [move_to_son r_l r_b r_r r_t];
      rewrite ?hmid_of_mid, ?vmid_of_mid; lia.
Qed.

(** ** The order of the returned states *)

(** *** Frames *)

Lemma frame_below_refl k t : frame_below k t t.
Proof. intros j Hj. split; [intros s Hs; exact Hs | intros f i c Hc; exact Hc]. Qed.

Lemma frame_below_trans k t1 t2 t3 :
  frame_below k t1 t2 -> frame_below k t2 t3 -> frame_below k t1 t3.
Proof.
  intros H12 H23 j Hj. destruct (H12 j Hj) as [Hs12 Hc12]. destruct (H23 j Hj) as [Hs23 Hc23].
  split; [intros s Hs; exact (Hs23 s (Hs12 s Hs)) |].
  intros f i c Hc. exact (Hc23 f i c (Hc12 f i c Hc)).
Qed.

Lemma frame_below_le k k' t t' : k' <= k -> frame_below k t t' -> frame_below k' t t'.
Proof. intros Hle H j Hj. apply H. lia. Qed.

Lemma frame_below_writes ns W k t t' :
  wf t -> k <= ns -> writes ns W t t' -> frame_below k t t'.
Proof.
  intros Hwf Hk Hw j Hj. destruct (Hw Hwf) as (_ & _ & Hs & Hc & _).
  split; [intros s; apply Hs; lia | intros f i c; apply Hc; left; lia].
Qed.

Lemma frame_below_above k t t' :
  wf t -> low k (tr_top t) -> above k t t' -> frame_below k t t'.
Proof.
  intros Hwf Hlow Ha j Hj. destruct (Ha (conj Hwf Hlow)) as (_ & _ & _ & _ & Hkeep).
  split.
  - intros s Hs. exact (proj1 (Hkeep j s Hj Hs)).
  - intros f i c Hc. pose proof Hc as (s & _ & _ & Hs & _).
    destruct (Hkeep j s Hj Hs) as [Hs' Hcont].
    exact (slot_cell_content t t' j s f i c Hs Hs' Hcont Hc).
Qed.

Lemma frame_below_top k x t : frame_below k t (with_top x t).
Proof. intros j Hj. split; [intros s Hs; exact Hs | intros f i c Hc; exact Hc]. Qed.

Lemma holds_frame k t t' j nd :
  tr_num t' = tr_num t -> frame_below k t t' -> 0 <= j < k -> holds t j nd -> holds t' j nd.
Proof.
  intros Hnum Hf Hj (s & Hs & Hn & Hcr & Hlen & Hcells).
  destruct (Hf j Hj) as [Hs' Hc].
  exists s. split; [exact (Hs' s Hs) |]. split; [congruence |]. split; [exact Hcr |].
  split; [congruence |]. intros i m Hi. destruct (Hcells i m Hi) as [He Her].
  split; [exact (Hc FE _ _ He) |]. intros r Hr. exact (Hc FER _ _ (Her r Hr)).
Qed.

Lemma visited_at_frame k t t' j b :
  frame_below k t t' -> 0 <= j < k -> visited_at t j b -> visited_at t' j b.
Proof.
  intros Hf Hj (s & Hs & Hv). exists s. split; [exact (proj1 (Hf j Hj) s Hs) | exact Hv].
Qed.

Lemma stable_holds_elements es : stable (holds_elements es).
Proof.
  intros h h' c Hsame Hc. unfold holds_elements in *.
  destruct (st_e c) as [a |] eqn:Ha; [| discriminate Hc]. cbn [cells_of] in *.
  rewrite Hsame; [exact Hc |]. apply (slot_ptrs_fld FE). exact Ha.
Qed.

Lemma emitted_keeps t t' l ks :
  wf t -> keeps t t' -> emitted t l ks -> emitted t' l ks.
Proof.
  intros Hwf Hk H. unfold emitted in *.
  eapply Forall2_impl; [exact H |]. intros c es [Hun Hc].
  exact (keeps_returned (holds_elements es) t t' c (stable_holds_elements es) Hk Hwf Hun Hc).
Qed.

Lemma emitted_app t l1 l2 ks1 ks2 :
  emitted t l1 ks1 -> emitted t l2 ks2 -> emitted t (l1 ++ l2) (ks1 ++ ks2).
Proof. apply Forall2_app. Qed.

(** *** The tests on a state *)

Lemma holds_cell_e t si nd i p x :
  holds t si nd -> nd_meshes nd !! i = Some (p, x) ->
  slot_cell st_e t si (Z.of_nat i) (CElem p).
Proof. intros (s & _ & _ & _ & _ & Hc) Hi. exact (proj1 (Hc i (p, x) Hi)). Qed.

Lemma holds_cell_er t si nd i p r :
  holds t si nd -> nd_meshes nd !! i = Some (p, Some r) ->
  slot_cell st_er t si (Z.of_nat i) (CRect r).
Proof. intros (s & _ & _ & _ & _ & Hc) Hi. exact (proj2 (Hc i (p, Some r) Hi) r eq_refl). Qed.

Lemma e_from_holds t si nd : holds t si nd -> e_from t si 0 (nd_meshes nd).
Proof. intros H i p x Hi. exact (holds_cell_e t si nd i p x H Hi). Qed.

Lemma e_from_tail t si j m ms : e_from t si j (m :: ms) -> e_from t si (j + 1) ms.
Proof.
  intros H i p x Hi. replace (j + 1 + Z.of_nat i) with (j + Z.of_nat (S i)) by lia.
  apply (H (S i) p x). exact Hi.
Qed.

Lemma e_from_head t si j p x ms v t' :
  e_from t si j ((p, x) :: ms) -> get_e si j t = Ok (v, t') -> v = p /\ t' = t.
Proof.
  intros H Hget. apply get_e_spec in Hget as [-> Hc]. split; [| reflexivity].
  pose proof (H 0%nat p x eq_refl) as Hc'. rewrite Z.add_0_r in Hc'.
  pose proof (slot_cell_det _ _ _ _ _ _ Hc Hc') as Heq. congruence.
Qed.

Lemma State_is_triangle_loop_spec n : forall si j t ms b t',
  length ms = n -> e_from t si j ms ->
  State_is_triangle_loop n si j t = Ok (b, t') ->
  t' = t /\ b = spec_is_triangle ms.
Proof.
  induction n as [| n IH]; intros si j t ms b t' Hlen Hms H;
    cbn [State_is_triangle_loop] in H.
  - apply ret_ok in H as [-> ->]. destruct ms; [split; reflexivity | discriminate Hlen].
  - destruct ms as [| [p x] ms]; [discriminate Hlen |].
    apply bind_ok in H as (v & t0 & Hv & H).
    destruct (e_from_head _ _ _ _ _ _ _ _ Hms Hv) as [-> ->].
    destruct p as [e |]; cbn [spec_is_triangle].
    + apply ret_ok in H as [-> ->]. split; reflexivity.
    + apply (IH si (j + 1) t ms b t'); [cbn in Hlen; lia | | exact H].
      exact (e_from_tail _ _ _ _ _ Hms).
Qed.

Lemma holds_is_triangle t si nd b t' :
  holds t si nd -> State_is_triangle si t = Ok (b, t') ->
  t' = t /\ b = spec_is_triangle (nd_meshes nd).
Proof.
  intros Hh H. pose proof Hh as (s & Hs & Hn & _ & Hlen & _).
  unfold State_is_triangle in H.
  apply bind_ok in H as (s0 & t0 & Hs0 & H). apply slot_ok in Hs0 as [Hs0 ->].
  assert (s0 = s) by congruence. subst s0. rewrite Hn in H.
  exact (State_is_triangle_loop_spec _ si 0 t _ b t' Hlen (e_from_holds _ _ _ Hh) H).
Qed.

Lemma is_leaf_loop_spec n : forall si j t ms b t',
  length ms = n -> e_from t si j ms ->
  is_leaf n si j t = Ok (b, t') ->
  t' = t /\ b = spec_leaf ms.
Proof.
  induction n as [| n IH]; intros si j t ms b t' Hlen Hms H; cbn [is_leaf] in H.
  - apply ret_ok in H as [-> ->]. destruct ms; [split; reflexivity | discriminate Hlen].
  - destruct ms as [| [p x] ms]; [discriminate Hlen |].
    apply bind_ok in H as (v & t0 & Hv & H).
    destruct (e_from_head _ _ _ _ _ _ _ _ Hms Hv) as [-> ->].
    assert (Hrest : is_leaf n si (j + 1) t = Ok (b, t') -> t' = t /\ b = spec_leaf ms).
    { apply IH; [cbn in Hlen; lia | exact (e_from_tail _ _ _ _ _ Hms)]. }
    unfold spec_leaf. cbn [forallb fst]. fold (spec_leaf ms).
    destruct p as [e |]; [| exact (Hrest H)].
    destruct (el_used e && negb (el_active e)); cbn [negb andb].
    + apply ret_ok in H as [-> ->]. split; reflexivity.
    + exact (Hrest H).
Qed.

Lemma holds_is_leaf t si nd b t' :
  holds t si nd -> is_leaf (Z.to_nat (tr_num t)) si 0 t = Ok (b, t') ->
  t' = t /\ b = spec_leaf (nd_meshes nd).
Proof.
  intros Hh H. pose proof Hh as (s & _ & _ & _ & Hlen & _).
  exact (is_leaf_loop_spec _ si 0 t _ b t' Hlen (e_from_holds _ _ _ Hh) H).
Qed.

(** An array of a slot has [num] cells. *)
Lemma slot_cell_bound (f : fld) t si i c :
  wf t -> slot_cell (fld_sel f) t si i c -> 0 <= i < tr_num t.
Proof.
  intros Hwf (s & a & arr & Hs & Ha & Harr & Hc).
  pose proof Hwf as (Hnum & Hslots & _).
  apply zlookup_Some in Hs as [_ Hs]. apply zlookup_Some in Hc as [Hi Hc].
  pose proof (Forall_lookup_1 _ _ _ _ Hslots Hs) as [(He & Her & Hidx) | (He & Her & Hidx)].
  - destruct f; cbn [fld_sel] in Ha; congruence.
  - assert (Hlen : length arr = Z.to_nat (tr_num t)).
    { destruct f; cbn [fld_sel] in Ha;
        [destruct He as (a' & arr' & Hp & Hh & Hl)
        | destruct Her as (a' & arr' & Hp & Hh & Hl)
        | destruct Hidx as (a' & arr' & Hp & Hh & Hl)];
        congruence. }
    apply lookup_lt_Some in Hc. lia.
Qed.

Lemma holds_has_rep t si nd :
  wf t -> holds t si nd ->
  (has_rep t si <-> spec_has_rep (tr_spaces_size t) (nd_meshes nd) = true).
Proof.
  intros Hwf Hh. pose proof Hh as (s & _ & _ & _ & Hlen & Hcells).
  unfold spec_has_rep. rewrite existsb_exists. split.
  - intros (j & e & Hj & Hc & Hu).
    pose proof (slot_cell_bound FE t si j _ Hwf Hc) as Hjn.
    destruct (lookup_lt_is_Some_2 (nd_meshes nd) (Z.to_nat j) ltac:(lia)) as [[p x] Hm].
    pose proof (proj1 (Hcells _ (p, x) Hm)) as Hc'. cbn [fst] in Hc'.
    rewrite Z2Nat.id in Hc' by lia.
    pose proof (slot_cell_det _ _ _ _ _ _ Hc Hc') as Heq.
    assert (p = Some e) by congruence. subst p.
    exists (Some e, x). split; [| exact Hu].
    apply list_elem_of_In, list_elem_of_lookup. exists (Z.to_nat j).
    rewrite lookup_take_lt by lia. exact Hm.
  - intros ([p x] & Hin & Hu). cbn [fst] in Hu. destruct p as [e |]; [| discriminate Hu].
    apply list_elem_of_In, list_elem_of_lookup in Hin as [j Hj].
    pose proof (lookup_lt_Some _ _ _ Hj) as Hjl. rewrite length_take in Hjl.
    rewrite lookup_take_lt in Hj by lia.
    exists (Z.of_nat j), e. split; [lia |]. split; [| exact Hu].
    exact (proj1 (Hcells j _ Hj)).
Qed.

(** *** Entering a state and emitting it *)

Lemma writes_idx_push_transform ns son i tri :
  respects (writes ns (fun f _ => f = FIDX)) (push_transform ns son i tri).
Proof.
  eapply respects_weaken; [| apply writes_push_transform]. cbn. intros f j [-> _]. reflexivity.
Qed.

Lemma writes_idx_init_transforms_loop fuel : forall si i x,
  respects (writes si (fun f _ => f = FIDX)) (init_transforms_loop fuel si i x).
Proof.
  induction fuel as [| fuel IH]; intros si i x; cbn [init_transforms_loop].
  - respects_all.
  - respects_step; [respects_step |].
    destruct (rect_mismatch _ _); [| respects_step].
    destruct (transforms_son _ _) as [son |]; [| respects_step].
    respects_step; [respects_ro |].
    respects_step; [apply writes_idx_push_transform | apply IH].
Qed.

Lemma writes_enter_state fuel si :
  respects (writes si (fun f _ => f = FIDX)) (enter_state fuel si).
Proof.
  unfold enter_state, init_transforms. respects_all.
  - apply writes_update_slot; intros s; repeat split.
  - apply writes_idx_init_transforms_loop.
Qed.

Lemma same_visit_enter_loop fuel si n :
  respects (slots_rel same_visit)
    (for_loop n 0
       (fun i =>
          let* p := get_e si i in
          match p with
          | Some e =>
              if el_used e then
                let* v := get_sub_idx si i in
                if (v =? 0) && el_active e then
                  if negb (el_is_triangle e) then init_transforms fuel si i else ret tt
                else ret tt
              else ret tt
          | None => ret tt
          end)).
Proof. respects_all. Qed.

(** Entering the state [stack[si]] leaves the node it is, marks it
    visited and leaves the slots below it alone. *)
Lemma enter_state_node fuel si t t' nd :
  wf t -> 0 <= si -> holds t si nd -> enter_state fuel si t = Ok (tt, t') ->
  wf t' /\ keeps t t' /\ tr_top t' = tr_top t /\
  holds t' si nd /\ visited_at t' si true /\ frame_below si t t'.
Proof.
  intros Hwf Hsi Hh H.
  pose proof (keeps_enter_state fuel si t tt t' H) as Hk.
  pose proof (writes_enter_state fuel si t tt t' H) as Hw.
  destruct (Hk Hwf) as (Hwf' & _ & Hnum & _).
  destruct (Hw Hwf) as (_ & _ & _ & Hc & Hcr).
  split; [exact Hwf' |]. split; [exact Hk |].
  split; [exact (same_top_enter_state fuel si t tt t' H) |].
  assert (Hslot : forall s, zlookup (tr_stack t) si = Some s ->
            exists s', zlookup (tr_stack t') si = Some s' /\ st_cr s' = st_cr s /\
                       st_num s' = st_num s /\ st_visited s' = true).
  { intros s Hs. destruct (Hcr s Hs) as (s' & Hs' & Hcr').
    exists s'. split; [exact Hs' |]. split; [exact Hcr' |].
    unfold enter_state in H.
    apply bind_ok in H as ([] & t1 & H1 & H).
    apply bind_ok in H as (num & t0 & Hg & H). apply gets_ok in Hg as [-> ->].
    apply update_slot_ok in H1 as (s0 & Hs0 & ->).
    assert (s0 = s) by congruence. subst s0.
    pose proof (same_visit_enter_loop fuel si _ _ _ _ H) as Hv.
    destruct (slots_rel_lookup _ _ _ si (set_visited true s) Hv
                (lookup_insert_slot _ si s _ Hs)) as (s2 & Hs2 & Hv2 & _ & Hn2).
    assert (s2 = s') by congruence. subst s2. split; [exact Hn2 | exact Hv2]. }
  destruct Hh as (s & Hs & Hn & Hncr & Hlen & Hcells).
  destruct (Hslot s Hs) as (s' & Hs' & Hcr' & Hn' & Hv').
  split; [| split; [exists s'; split; assumption |]].
  - exists s'. split; [exact Hs' |]. split; [congruence |].
    split; [intros x Hx; rewrite Hcr'; exact (Hncr x Hx) |]. split; [congruence |].
    intros i m Hi. destruct (Hcells i m Hi) as [He Her].
    split; [apply (Hc si FE); [right; discriminate | exact He] |].
    intros r Hr. apply (Hc si FER); [right; discriminate | exact (Her r Hr)].
  - exact (frame_below_writes si _ si t t' Hwf (Z.le_refl _) Hw).
Qed.

Lemma writes_clone ONE si W : respects (writes si W) (clone ONE si).
Proof.
  intros t c t' H Hwf.
  destruct (keeps_clone ONE si t c t' H Hwf) as (Hwf' & _ & Hnum & _).
  destruct (clone_spec ONE si t c t' Hwf H)
    as (other & pe & ps & E & S & _ & Hpe & Hps & _ & -> & _).
  split; [exact Hwf' |]. split; [exact Hnum |].
  split; [intros sj s _ Hs; exact Hs |].
  split; [| intros s Hs; exists s; split; [exact Hs | reflexivity]].
  intros sj f j x _ (s & a & arr & Hs & Ha & Harr & Hx).
  exists s, a, arr. split; [exact Hs |]. split; [exact Ha |]. split; [| exact Hx].
  cbn [tr_heap with_heap]. rewrite !lookup_insert_ne by congruence. exact Harr.
Qed.

Lemma writes_none_update_slot si f :
  keeps_ptrs f -> (forall s, st_cr (f s) = st_cr s) ->
  respects (writes si (fun _ _ => False)) (update_slot si f).
Proof. apply writes_update_slot. Qed.

Lemma writes_set_boundary_info ONE si :
  respects (writes si (fun _ _ => False)) (set_boundary_info ONE si).
Proof.
  unfold set_boundary_info. respects_all;
    apply writes_none_update_slot; intros s; repeat split.
Qed.

Lemma writes_choose_rep si : respects (writes si (fun _ _ => False)) (choose_rep si).
Proof.
  unfold choose_rep. respects_all.
  apply writes_none_update_slot; intros s; repeat split.
Qed.

Lemma writes_emit_leaf ONE si lc :
  respects (writes si (fun _ _ => False)) (emit_leaf ONE si lc).
Proof.
  unfold emit_leaf. respects_all.
  - apply writes_set_boundary_info.
  - apply writes_none_update_slot; intros s; repeat split.
  - apply writes_choose_rep.
  - apply writes_clone.
Qed.

(** The leaf branch: the state is returned exactly when the node has a
    representative, and the clone holds the elements of the node. *)
Lemma emit_leaf_node ONE si lc t lc' t' nd :
  wf t -> 0 <= si -> holds t si nd -> emit_leaf ONE si lc t = Ok (lc', t') ->
  wf t' /\ keeps t t' /\ tr_top t' = tr_top t /\ lc_id lc' = lc_id lc /\
  (exists l, lc_states lc' = lc_states lc ++ l /\
     emitted t' l (if spec_has_rep (tr_spaces_size t) (nd_meshes nd)
                   then [node_elements nd] else [])) /\
  frame_below si t t' /\ (forall b, visited_at t si b -> visited_at t' si b).
Proof.
  intros Hwf Hsi Hh H.
  pose proof (keeps_emit_leaf ONE si lc t lc' t' H) as Hk.
  destruct (Hk Hwf) as (Hwf' & _).
  split; [exact Hwf' |]. split; [exact Hk |].
  split; [exact (same_top_emit_leaf ONE si lc t lc' t' H) |].
  split; [exact (proj1 (emit_leaf_appends _ _ _ _ _ _ H)) |].
  split; [| split].
  - destruct (emit_leaf_cases ONE si lc t lc' t' Hwf H)
      as [(Hrep & t3 & c & j & e & Hf & Hwf3 & Hclone & Hst & _) | (Hnone & Hst)].
    + rewrite (proj1 (holds_has_rep t si nd Hwf Hh) Hrep).
      exists [c]. split; [exact Hst |]. constructor; [| constructor].
      split; [exact (clone_unowned ONE si t3 c t' Hwf3 Hclone) |].
      destruct (clone_spec ONE si t3 c t' Hwf3 Hclone)
        as (other & pe & ps & E & S & Hother & Hpe & Hps & Hne & -> & -> & HlenE & _ & HE & _).
      unfold holds_elements. cbn [st_e cells_of tr_heap with_heap].
      rewrite lookup_insert_ne by congruence. rewrite lookup_insert_eq. f_equal.
      destruct Hh as (s & Hs & Hn & _ & Hlen & Hcells).
      pose proof Hf as (Hheap & Hrel & Hnum3 & _).
      destruct (slots_rel_lookup _ _ _ _ _ Hrel Hs) as (s3 & Hs3 & _ & _ & _ & Hn3).
      assert (s3 = other) by congruence. subst s3.
      apply (list_eq_same_length _ _ (Z.to_nat (tr_num t))).
      * unfold node_elements. rewrite !length_fmap. exact Hlen.
      * rewrite HlenE. congruence.
      * intros i x y Hi Hx Hy. unfold node_elements in Hy.
        rewrite !list_lookup_fmap in Hy.
        destruct (nd_meshes nd !! i) as [[p r] |] eqn:Hm; [| discriminate Hy].
        cbn in Hy. injection Hy as <-.
        pose proof (HE i x Hx) as Hc3.
        pose proof (proj1 (Hcells i (p, r) Hm)) as Hc. cbn [fst] in Hc.
        apply (fields_only_slot_cell st_e t _ si _ _
                 ltac:(intros ? ? (? & _); assumption) Hf) in Hc.
        exact (slot_cell_det _ _ _ _ _ _ Hc3 Hc).
    + destruct (spec_has_rep _ _) eqn:Hspec.
      * exfalso. apply Hnone. exact (proj2 (holds_has_rep t si nd Hwf Hh) Hspec).
      * exists []. split; [rewrite app_nil_r; exact Hst | constructor].
  - exact (frame_below_writes si _ si t t' Hwf (Z.le_refl _)
             (writes_emit_leaf ONE si lc t lc' t' H)).
  - intros b (s & Hs & Hv).
    pose proof (same_visit_emit_leaf ONE si lc t lc' t' H) as Hrel.
    destruct (slots_rel_lookup _ _ _ _ _ Hrel Hs) as (s' & Hs' & Hv' & _).
    exists s'. split; [exact Hs' | congruence].
Qed.

(** *** The loop over the meshes that fills a son state *)

Lemma mesh_cells_other ns W t t' si i m :
  wf t -> si <> ns -> writes ns W t t' -> mesh_cells t si i m -> mesh_cells t' si i m.
Proof.
  intros Hwf Hne Hw [He Her]. destruct (Hw Hwf) as (_ & _ & _ & Hc & _).
  split; [exact (Hc si FE _ _ (or_introl Hne) He) |].
  intros r Hr. exact (Hc si FER _ _ (or_introl Hne) (Her r Hr)).
Qed.

Lemma mesh_cells_same ns (W : fld -> Z -> Prop) t t' i m :
  wf t -> ~ W FE (Z.of_nat i) -> ~ W FER (Z.of_nat i) ->
  writes ns W t t' -> mesh_cells t ns i m -> mesh_cells t' ns i m.
Proof.
  intros Hwf He0 Her0 Hw [He Her]. destruct (Hw Hwf) as (_ & _ & _ & Hc & _).
  split; [exact (Hc ns FE _ _ (or_intror He0) He) |].
  intros r Hr. exact (Hc ns FER _ _ (or_intror Her0) (Her r Hr)).
Qed.

(** The stores of the son loops, for any set of cells that contains the
    one they write. *)
Ltac writes_weak :=
  eapply respects_weaken;
    [| first [apply writes_put_e | apply writes_put_er | apply writes_put_sub_idx
             | apply writes_push_transform]];
  cbn; intros ? ? [? ?]; subst;
  solve [discriminate | reflexivity | left; reflexivity | right; reflexivity
        | intros ?; discriminate].

#[local] Hint Extern 3 (respects (writes _ _) (put_e _ _ _)) => writes_weak : respects_db.
#[local] Hint Extern 3 (respects (writes _ _) (put_er _ _ _)) => writes_weak : respects_db.
#[local] Hint Extern 3 (respects (writes _ _) (put_sub_idx _ _ _)) => writes_weak
  : respects_db.
#[local] Hint Extern 3 (respects (writes _ _) (push_transform _ _ _ _)) => writes_weak
  : respects_db.

(** What follows a store to [e[i]] leaves it alone when it writes no
    cell of [e]. *)
Lemma put_e_then {A : Type} ns i v (rest : M A) t a t' :
  wf t -> respects (writes ns (fun f _ => f <> FE)) rest ->
  (put_e ns i v ;; rest) t = Ok (a, t') -> slot_cell st_e t' ns i (CElem v).
Proof.
  intros Hwf Hrest H. apply bind_ok in H as ([] & t1 & H1 & H).
  destruct (writes_put_e ns i v t tt t1 H1 Hwf) as (Hwf1 & _).
  destruct (Hrest t1 a t' H Hwf1) as (_ & _ & _ & Hc & _).
  apply (Hc ns FE i); [right; intros Hf; apply Hf; reflexivity |].
  exact (store_cell FE ns i _ t tt t1 H1).
Qed.

Lemma put_er_then {A : Type} ns i v (rest : M A) t a t' :
  wf t -> respects (writes ns (fun f _ => f = FIDX)) rest ->
  (put_er ns i v ;; rest) t = Ok (a, t') -> slot_cell st_er t' ns i (CRect v).
Proof.
  intros Hwf Hrest H. apply bind_ok in H as ([] & t1 & H1 & H).
  destruct (writes_put_er ns i v t tt t1 H1 Hwf) as (Hwf1 & _).
  destruct (Hrest t1 a t' H Hwf1) as (_ & _ & _ & Hc & _).
  apply (Hc ns FER i); [right; discriminate |].
  exact (store_cell FER ns i _ t tt t1 H1).
Qed.

Section NodeLoop.
Variables (si ns : Z) (c0 : Rect) (body : Z -> M unit).
Variable g : option Element * option Rect -> option (option Element * option Rect).
Variable ms : list (option Element * option Rect).
Hypothesis Hne : si <> ns.
Hypothesis Hframe : forall j,
  respects (writes ns (fun f k => f = FIDX \/ k = j)) (body j).
Hypothesis Hstep : forall (i : nat) m m' t1 t2,
  ms !! i = Some m -> g m = Some m' -> wf t1 -> has_cr ns c0 t1 ->
  mesh_cells t1 si i m -> body (Z.of_nat i) t1 = Ok (tt, t2) -> mesh_cells t2 ns i m'.

Lemma node_loop n : forall (i0 : nat) t t',
  wf t -> has_cr ns c0 t ->
  (forall i m, ms !! i = Some m -> mesh_cells t si i m) ->
  for_loop n (Z.of_nat i0) body t = Ok (tt, t') ->
  writes ns (fun f k => f = FIDX \/ Z.of_nat i0 <= k) t t' /\
  forall i m m', (i0 <= i < i0 + n)%nat -> ms !! i = Some m -> g m = Some m' ->
    mesh_cells t' ns i m'.
Proof.
  induction n as [| n IH]; intros i0 t t' Hwf Hcr Hms H; cbn [for_loop] in H.
  - apply ret_ok in H as [_ ->]. split; [reflexivity | intros i m m' Hi; lia].
  - apply bind_ok in H as ([] & t1 & H1 & H).
    pose proof (Hframe _ t tt t1 H1) as H01.
    destruct (H01 Hwf) as (Hwf1 & _).
    replace (Z.of_nat i0 + 1) with (Z.of_nat (S i0)) in H by lia.
    destruct (IH (S i0) t1 t' Hwf1 (has_cr_writes _ _ _ _ _ Hwf H01 Hcr)
                 (fun i m Hm => mesh_cells_other _ _ _ _ _ _ _ Hwf Hne H01 (Hms i m Hm)) H)
      as (Hrest & Hpost).
    split.
    + transitivity t1.
      * eapply writes_weaken; [| exact H01]. cbn. intros f k [-> | ->]; [left; reflexivity | right; lia].
      * eapply writes_weaken; [| exact Hrest]. cbn. intros f k [-> | Hk]; [left; reflexivity | right; lia].
    + intros i m m' Hi Hm Hg.
      destruct (decide (i = i0)) as [-> | Hne0]; [| apply (Hpost i m m'); [lia | assumption..]].
      refine (mesh_cells_same ns _ t1 t' i0 m' Hwf1 _ _ Hrest _).
      * intros [Hf | Hk]; [discriminate | lia].
      * intros [Hf | Hk]; [discriminate | lia].
      * exact (Hstep i0 m m' t t1 Hm Hg Hwf Hcr (Hms i0 m Hm) H1).
Qed.

End NodeLoop.

Lemma writes_mesh_move_element si ns j e code :
  respects (writes ns (fun f k => f = FIDX \/ k = j)) (move_element si ns j e code).
Proof. unfold move_element. respects_all. Qed.

Lemma triangle_mesh_writes si ns son j :
  respects (writes ns (fun f k => f = FIDX \/ k = j)) (triangle_mesh si ns son j).
Proof. cbn beta. respects_all. Qed.

Lemma quad_mesh_writes dflt si ns son k cs j :
  respects (writes ns (fun f k => f = FIDX \/ k = j)) (quad_mesh dflt si ns son k cs j).
Proof. cbn beta. respects_all. apply writes_mesh_move_element. Qed.

Lemma single_mesh_writes si ns cs j :
  respects (writes ns (fun f k => f = FIDX \/ k = j)) (single_mesh si ns cs j).
Proof. cbn beta. respects_all. apply writes_mesh_move_element. Qed.

(** The element that a son loop reads is the one of the node. *)
Lemma mesh_cells_get_e t si i p x v t' :
  mesh_cells t si i (p, x) -> get_e si (Z.of_nat i) t = Ok (v, t') -> v = p /\ t' = t.
Proof.
  intros [He _] H. apply get_e_spec in H as [-> Hc]. split; [| reflexivity].
  pose proof (slot_cell_det _ _ _ _ _ _ Hc He) as Heq. cbn [fst] in Heq. congruence.
Qed.

Lemma mesh_cells_null ns i t t' :
  put_e ns (Z.of_nat i) None t = Ok (tt, t') -> mesh_cells t' ns i (None, None).
Proof.
  intros H. split; [exact (store_cell FE ns _ _ t tt t' H) | intros r Hr; discriminate Hr].
Qed.

Lemma carried_cell si ns son i e tri t t' :
  wf t ->
  (put_e ns i (Some e) ;;
   let* v := get_sub_idx si i in
   put_sub_idx ns i v ;;
   push_transform ns son i tri) t = Ok (tt, t') ->
  slot_cell st_e t' ns i (CElem (Some e)).
Proof. intros Hwf. apply put_e_then; [exact Hwf |]. respects_all. Qed.

Lemma moved_tri_cell ns i c t t' :
  wf t ->
  (put_e ns i (Some c) ;;
   let* ce := deref (Some c) in
   if el_active ce then put_sub_idx ns i 0 else ret tt) t = Ok (tt, t') ->
  slot_cell st_e t' ns i (CElem (Some c)).
Proof. intros Hwf. apply put_e_then; [exact Hwf |]. respects_all. Qed.

Lemma move_element_cells si ns i e code x c t t' :
  wf t -> si <> ns -> slot_cell st_er t si i (CRect x) ->
  zlookup (el_sons e) (Z.land code 3) = Some (Some c) ->
  move_element si ns i e code t = Ok (tt, t') ->
  slot_cell st_e t' ns i (CElem (Some c)) /\
  slot_cell st_er t' ns i (CRect (move_to_son x code)).
Proof.
  intros Hwf Hne Hx Hson H. unfold move_element, son_at in H. rewrite Hson in H.
  apply bind_ok in H as (c0 & t0 & Hret & H). apply ret_ok in Hret as [-> ->].
  split.
  - revert H. apply put_e_then; [exact Hwf |]. respects_all.
  - apply bind_ok in H as ([] & t1 & H1 & H).
    pose proof (writes_put_e ns i (Some c) t tt t1 H1) as W1.
    destruct (W1 Hwf) as (Hwf1 & _ & _ & Hc1 & _).
    apply bind_ok in H as (x1 & t1' & Hx1 & H). apply get_er_spec in Hx1 as [-> Hx1].
    assert (x1 = x).
    { pose proof (slot_cell_det _ _ _ _ _ _ Hx1 (Hc1 si FER i _ (or_introl Hne) Hx)).
      congruence. }
    subst x1. revert H. apply put_er_then; [exact Hwf1 |]. respects_all.
Qed.

Lemma triangle_mesh_step si ns son (i : nat) m m' t1 t2 :
  spec_tri_mesh son m = Some m' -> wf t1 -> mesh_cells t1 si i m ->
  triangle_mesh si ns son (Z.of_nat i) t1 = Ok (tt, t2) -> mesh_cells t2 ns i m'.
Proof.
  intros Hg Hwf Hm H. destruct m as [p x]. cbn beta in H.
  apply bind_ok in H as (v & t0 & Hv & H).
  destruct (mesh_cells_get_e _ _ _ _ _ _ _ Hm Hv) as [-> ->].
  unfold spec_tri_mesh in Hg. cbn [fst] in Hg.
  destruct p as [e |]; [| injection Hg as <-; exact (mesh_cells_null _ _ _ _ H)].
  destruct (negb (el_used e)); [injection Hg as <-; exact (mesh_cells_null _ _ _ _ H) |].
  destruct (el_active e).
  - injection Hg as <-. split; [| intros r Hr; discriminate Hr].
    exact (carried_cell si ns son _ e true t1 t2 Hwf H).
  - unfold son_at in H.
    destruct (zlookup (el_sons e) son) as [[c |] |]; try discriminate Hg.
    injection Hg as <-. split; [| intros r Hr; discriminate Hr].
    apply bind_ok in H as (c0 & t0 & Hret & H). apply ret_ok in Hret as [-> ->].
    exact (moved_tri_cell ns _ c t1 t2 Hwf H).
Qed.

(** The entry of [current_sons] for a refined element of the node. *)
Lemma spec_table_lookup cr ms (i : nat) e x k :
  ms !! i = Some (Some e, Some x) -> el_active e = false ->
  current_son (spec_table cr ms) (Z.of_nat i) k
  = match zlookup (snd (get_split_and_sons e cr x)) k with
    | Some v => ret v
    | None => undef OutOfBounds
    end.
Proof.
  intros Hm Hact. unfold current_son, spec_table.
  assert (Hl : zlookup ((fun m : option Element * option Rect =>
                           match m with
                           | (Some e, Some x) =>
                               if negb (el_active e)
                               then Some (snd (get_split_and_sons e cr x)) else None
                           | _ => None
                           end) <$> ms) (Z.of_nat i)
               = Some (Some (snd (get_split_and_sons e cr x)))).
  { apply zlookup_Some. split; [lia |]. rewrite Nat2Z.id, list_lookup_fmap, Hm.
    cbn. rewrite Hact. reflexivity. }
  rewrite Hl. reflexivity.
Qed.

Lemma moved_quad_cells si ns k cr ms (i : nat) e x m' t1 t2 :
  si <> ns -> ms !! i = Some (Some e, Some x) -> el_active e = false ->
  match zlookup (snd (get_split_and_sons e cr x)) k with
  | Some code => spec_moved e code x
  | None => None
  end = Some m' ->
  wf t1 -> mesh_cells t1 si i (Some e, Some x) ->
  (let* code := current_son (spec_table cr ms) (Z.of_nat i) k in
   move_element si ns (Z.of_nat i) e code) t1 = Ok (tt, t2) ->
  mesh_cells t2 ns i m'.
Proof.
  intros Hne Hm Hact Hg Hwf [_ Her] H.
  rewrite (spec_table_lookup cr ms i e x k Hm Hact) in H.
  destruct (zlookup (snd (get_split_and_sons e cr x)) k) as [code |]; [| discriminate Hg].
  unfold spec_moved in Hg.
  destruct (zlookup (el_sons e) (Z.land code 3)) as [[c |] |] eqn:Hson; try discriminate Hg.
  injection Hg as <-.
  apply bind_ok in H as (c0 & t0 & Hret & H). apply ret_ok in Hret as [-> ->].
  destruct (move_element_cells si ns _ e code x c t1 t2 Hwf Hne (Her x eq_refl) Hson H)
    as [He' Her'].
  split; [exact He' |]. intros r [= <-]. exact Her'.
Qed.

Lemma quad_mesh_step dflt si ns son k cr ms (i : nat) m m' t1 t2 :
  si <> ns -> ms !! i = Some m -> spec_quad_mesh cr k None m = Some m' ->
  wf t1 -> mesh_cells t1 si i m ->
  quad_mesh dflt si ns son k (spec_table cr ms) (Z.of_nat i) t1 = Ok (tt, t2) ->
  mesh_cells t2 ns i m'.
Proof.
  intros Hne Hi Hg Hwf Hm H. destruct m as [p x]. cbn beta in H.
  apply bind_ok in H as (v & t0 & Hv & H).
  destruct (mesh_cells_get_e _ _ _ _ _ _ _ Hm Hv) as [-> ->].
  unfold spec_quad_mesh in Hg. cbn [fst snd] in Hg.
  destruct p as [e |]; [| injection Hg as <-; exact (mesh_cells_null _ _ _ _ H)].
  destruct (negb (el_used e)); [injection Hg as <-; exact (mesh_cells_null _ _ _ _ H) |].
  destruct (el_active e) eqn:Hact.
  - injection Hg as <-. split; [| intros r Hr; discriminate Hr].
    exact (carried_cell si ns son _ e dflt t1 t2 Hwf H).
  - destruct x as [x |]; [| discriminate Hg].
    exact (moved_quad_cells si ns k cr ms i e x m' t1 t2 Hne Hi Hact Hg Hwf Hm H).
Qed.

Lemma single_mesh_step si ns cr ms (i : nat) m m' t1 t2 :
  si <> ns -> ms !! i = Some m -> spec_quad_mesh cr 0 (Some cr) m = Some m' ->
  wf t1 -> has_cr ns cr t1 -> mesh_cells t1 si i m ->
  single_mesh si ns (spec_table cr ms) (Z.of_nat i) t1 = Ok (tt, t2) ->
  mesh_cells t2 ns i m'.
Proof.
  intros Hne Hi Hg Hwf Hcr Hm H. destruct m as [p x]. cbn beta in H.
  apply bind_ok in H as (v & t0 & Hv & H).
  destruct (mesh_cells_get_e _ _ _ _ _ _ _ Hm Hv) as [-> ->].
  unfold spec_quad_mesh in Hg. cbn [fst snd] in Hg.
  destruct p as [e |]; [| injection Hg as <-; exact (mesh_cells_null _ _ _ _ H)].
  destruct (negb (el_used e)); [injection Hg as <-; exact (mesh_cells_null _ _ _ _ H) |].
  destruct (el_active e) eqn:Hact.
  - injection Hg as <-. split.
    + revert H. apply put_e_then; [exact Hwf |]. respects_all.
    + intros r [= <-].
      apply bind_ok in H as ([] & t3 & H1 & H).
      pose proof (writes_put_e ns (Z.of_nat i) (Some e) t1 tt t3 H1) as W1.
      destruct (has_cr_writes _ _ cr _ _ Hwf W1 Hcr) as (s1 & Hs1 & Hcr1).
      apply bind_ok in H as (nst & t3' & Hnst & H). apply slot_ok in Hnst as [Hnst ->].
      assert (s1 = nst) by congruence. subst s1. rewrite Hcr1 in H.
      exact (store_cell FER ns _ _ t3 tt t2 H).
  - destruct x as [x |]; [| discriminate Hg].
    exact (moved_quad_cells si ns 0 cr ms i e x m' t1 t2 Hne Hi Hact Hg Hwf Hm H).
Qed.

(** *** The son states *)

Lemma mapM_lookup {A B : Type} (f : A -> option B) l k (i : nat) y :
  mapM f l = Some k -> k !! i = Some y -> exists x, l !! i = Some x /\ f x = Some y.
Proof.
  intros H Hy. apply mapM_Some in H.
  destruct (Forall2_lookup_r _ _ _ _ _ H Hy) as (x & Hx & Hf). exists x. split; assumption.
Qed.

Lemma mapM_same_length {A B : Type} (f : A -> option B) l k :
  mapM f l = Some k -> length k = length l.
Proof. intros H. apply mapM_Some in H. symmetry. exact (Forall2_length _ _ _ H). Qed.

(** What the start of a push leaves: the new slot at the old [top], the
    parent as it was. *)
Lemma push_state_node si nd t ns t1 :
  wf t -> 0 <= si < tr_top t -> holds t si nd -> push_state t = Ok (ns, t1) ->
  ns = tr_top t /\ si <> ns /\ wf t1 /\ tr_num t1 = tr_num t /\ holds t1 si nd /\
  exists s1, zlookup (tr_stack t1) ns = Some s1.
Proof.
  intros Hwf Hsi Hh Hpush.
  destruct (push_state_spec t ns t1 Hwf Hpush) as (-> & _ & s0 & s1 & _ & Hs1 & _).
  pose proof (above_push_state (tr_top t) t _ t1 Hpush) as Ha.
  destruct (Ha (conj Hwf (fun _ => Z.le_refl _))) as ((Hwf1 & _) & Hnum1 & _).
  split; [reflexivity |]. split; [lia |]. split; [exact Hwf1 |]. split; [exact Hnum1 |].
  split; [| exists s1; exact Hs1].
  apply (holds_frame (tr_top t) t t1 si nd Hnum1); [| exact Hsi | exact Hh].
  exact (frame_below_above _ t t1 Hwf (fun _ => Z.le_refl _) Ha).
Qed.

Lemma push_triangle_son_node si son t t' nd ms' :
  wf t -> 0 <= si < tr_top t -> holds t si nd ->
  mapM (spec_tri_mesh son) (nd_meshes nd) = Some ms' ->
  push_triangle_son si son t = Ok (tt, t') ->
  tr_top t' = tr_top t + 1 /\ holds t' (tr_top t) (mkNode None ms') /\
  visited_at t' (tr_top t) false.
Proof.
  intros Hwf Hsi Hh Hspec H.
  destruct (push_triangle_son_unvisited si son t tt t' Hwf H)
    as (Htop & s' & Hs' & Hv & _ & Hn).
  destruct (keeps_push_triangle_son si son t tt t' H Hwf) as (_ & _ & Hnum' & _).
  split; [exact Htop |]. split; [| exists s'; split; assumption].
  unfold push_triangle_son in H.
  apply bind_ok in H as (ns & t1 & Hpush & H).
  destruct (push_state_node si nd t ns t1 Hwf Hsi Hh Hpush)
    as (-> & Hne & Hwf1 & Hnum1 & Hh1 & s1 & Hs1).
  apply bind_ok in H as (num & t0 & Hg & H). apply gets_ok in Hg as [-> ->].
  apply bind_ok in H as ([] & t2 & Hloop & H).
  destruct Hh1 as (s & Hs & _ & _ & Hlen & Hcells).
  destruct (node_loop si (tr_top t) (st_cr s1) (triangle_mesh si (tr_top t) son)
              (spec_tri_mesh son) (nd_meshes nd) Hne
              (triangle_mesh_writes si (tr_top t) son)
              (fun i m m' ta tb _ Hgm Hwfa _ =>
                 triangle_mesh_step si (tr_top t) son i m m' ta tb Hgm Hwfa)
              (Z.to_nat (tr_num t1)) 0 t1 t2 Hwf1
              (ex_intro _ s1 (conj Hs1 eq_refl)) Hcells Hloop) as (Hw & Hpost).
  destruct (Hw Hwf1) as (Hwf2 & _).
  apply bind_ok in H as (s2 & t0 & Hs2 & H). apply slot_ok in Hs2 as [_ ->].
  assert (Hlast : exists f, keeps_ptrs f /\ update_slot (tr_top t) f t2 = Ok (tt, t')).
  { destruct (son <? 3); eexists; (split; [| exact H]); intros x; repeat split. }
  destruct Hlast as (f & Hf & Hupd).
  destruct (update_slot_cells (tr_top t) f t2 t' Hf Hwf2 Hupd) as (_ & _ & _ & _ & Hc').
  exists s'. split; [exact Hs' |]. split; [congruence |].
  split; [intros x Hx; discriminate Hx |].
  split; [cbn [nd_meshes]; rewrite (mapM_same_length _ _ _ Hspec); congruence |].
  intros i m' Hi. cbn [nd_meshes] in Hi.
  destruct (mapM_lookup _ _ _ _ _ Hspec Hi) as (m & Hm & Hgm).
  pose proof (lookup_lt_Some _ _ _ Hm) as Hlt.
  destruct (Hpost i m m' ltac:(lia) Hm Hgm) as [He Her].
  split; [exact (Hc' _ FE _ _ He) |]. intros r Hr. exact (Hc' _ FER _ _ (Her r Hr)).
Qed.

Lemma quad_start si nd cr0 t ns t1 t2 :
  wf t -> 0 <= si < tr_top t -> holds t si nd ->
  push_state t = Ok (ns, t1) -> update_slot ns (set_cr cr0) t1 = Ok (tt, t2) ->
  ns = tr_top t /\ si <> ns /\ wf t2 /\ tr_num t2 = tr_num t /\ has_cr ns cr0 t2 /\
  (exists s, zlookup (tr_stack t) si = Some s /\ zlookup (tr_stack t1) si = Some s) /\
  (forall i m, nd_meshes nd !! i = Some m -> mesh_cells t2 si i m).
Proof.
  intros Hwf Hsi Hh Hpush Hupd. pose proof Hh as (s & Hs & _ & _ & _ & Hcells).
  destruct (push_with_cr si s cr0 t ns t1 t2 Hwf Hsi Hs Hpush Hupd)
    as (-> & Hne & Hwf2 & Hnum2 & Hcr & Hs1 & _ & Hc).
  split; [reflexivity |]. split; [exact Hne |]. split; [exact Hwf2 |].
  split; [exact Hnum2 |]. split; [exact Hcr |].
  split; [exists s; split; assumption |].
  intros i m Hm. destruct (Hcells i m Hm) as [He Her].
  split; [exact (Hc FE _ _ He) |]. intros r Hr. exact (Hc FER _ _ (Her r Hr)).
Qed.

Lemma push_quad_son_node dflt si son k t t' nd cr ms' :
  wf t -> 0 <= si < tr_top t -> holds t si nd -> nd_cr nd = Some cr ->
  mapM (spec_quad_mesh cr k None) (nd_meshes nd) = Some ms' ->
  push_quad_son dflt si son k (spec_table cr (nd_meshes nd)) t = Ok (tt, t') ->
  tr_top t' = tr_top t + 1 /\
  holds t' (tr_top t) (mkNode (Some (move_to_son cr son)) ms') /\
  visited_at t' (tr_top t) false.
Proof.
  intros Hwf Hsi Hh Hcr Hspec H.
  destruct (push_quad_son_unvisited dflt si son k _ t tt t' Hwf H)
    as (Htop & s' & Hs' & Hv & _ & Hn).
  destruct (keeps_push_quad_son dflt si son k _ t tt t' H Hwf) as (_ & _ & Hnum' & _).
  split; [exact Htop |]. split; [| exists s'; split; assumption].
  unfold push_quad_son in H.
  apply bind_ok in H as (ns & t1 & Hpush & H).
  apply bind_ok in H as (s0 & t0 & Hs0 & H). apply slot_ok in Hs0 as [Hs0 ->].
  apply bind_ok in H as ([] & t2 & Hupd & H).
  destruct (quad_start si nd _ t ns t1 t2 Hwf Hsi Hh Hpush Hupd)
    as (-> & Hne & Hwf2 & Hnum2 & Hhas & (s & Hs & Hs1) & Hcells).
  assert (s0 = s) by congruence. subst s0.
  assert (Hscr : st_cr s = cr).
  { destruct Hh as (s2 & Hs2 & _ & Hc & _). assert (s2 = s) by congruence. subst s2.
    exact (Hc cr Hcr). }
  rewrite Hscr in Hhas.
  apply bind_ok in H as (num & t0 & Hg & H). apply gets_ok in Hg as [-> ->].
  destruct (node_loop si (tr_top t) (move_to_son cr son)
              (quad_mesh dflt si (tr_top t) son k (spec_table cr (nd_meshes nd)))
              (spec_quad_mesh cr k None) (nd_meshes nd) Hne
              (quad_mesh_writes dflt si (tr_top t) son k _)
              (fun i m m' ta tb Hm Hgm Hwfa _ =>
                 quad_mesh_step dflt si (tr_top t) son k cr (nd_meshes nd) i m m' ta tb
                                Hne Hm Hgm Hwfa)
              (Z.to_nat (tr_num t2)) 0 t2 t' Hwf2 Hhas Hcells H) as (Hw & Hpost).
  destruct (has_cr_writes _ _ _ _ _ Hwf2 Hw Hhas) as (s2 & Hs2 & Hcr2).
  assert (s2 = s') by congruence. subst s2.
  exists s'. split; [exact Hs' |]. split; [congruence |].
  split; [intros x [= <-]; exact Hcr2 |].
  destruct Hh as (_ & _ & _ & _ & Hlen & _).
  split; [cbn [nd_meshes]; rewrite (mapM_same_length _ _ _ Hspec); congruence |].
  intros i m' Hi. cbn [nd_meshes] in Hi.
  destruct (mapM_lookup _ _ _ _ _ Hspec Hi) as (m & Hm & Hgm).
  pose proof (lookup_lt_Some _ _ _ Hm) as Hlt.
  exact (Hpost i m m' ltac:(lia) Hm Hgm).
Qed.

Lemma push_quad_single_node si t t' nd cr ms' :
  wf t -> 0 <= si < tr_top t -> holds t si nd -> nd_cr nd = Some cr ->
  mapM (spec_quad_mesh cr 0 (Some cr)) (nd_meshes nd) = Some ms' ->
  push_quad_single si (spec_table cr (nd_meshes nd)) t = Ok (tt, t') ->
  tr_top t' = tr_top t + 1 /\ holds t' (tr_top t) (mkNode (Some cr) ms') /\
  visited_at t' (tr_top t) false.
Proof.
  intros Hwf Hsi Hh Hcr Hspec H.
  destruct (push_quad_single_unvisited si _ t tt t' Hwf H)
    as (Htop & s' & Hs' & Hv & _ & Hn).
  destruct (keeps_push_quad_single si _ t tt t' H Hwf) as (_ & _ & Hnum' & _).
  split; [exact Htop |]. split; [| exists s'; split; assumption].
  unfold push_quad_single in H.
  apply bind_ok in H as (ns & t1 & Hpush & H).
  apply bind_ok in H as (s0 & t0 & Hs0 & H). apply slot_ok in Hs0 as [Hs0 ->].
  apply bind_ok in H as ([] & t2 & Hupd & H).
  destruct (quad_start si nd _ t ns t1 t2 Hwf Hsi Hh Hpush Hupd)
    as (-> & Hne & Hwf2 & Hnum2 & Hhas & (s & Hs & Hs1) & Hcells).
  assert (s0 = s) by congruence. subst s0.
  assert (Hscr : st_cr s = cr).
  { destruct Hh as (s2 & Hs2 & _ & Hc & _). assert (s2 = s) by congruence. subst s2.
    exact (Hc cr Hcr). }
  rewrite Hscr in Hhas.
  apply bind_ok in H as (num & t0 & Hg & H). apply gets_ok in Hg as [-> ->].
  destruct (node_loop si (tr_top t) cr
              (single_mesh si (tr_top t) (spec_table cr (nd_meshes nd)))
              (spec_quad_mesh cr 0 (Some cr)) (nd_meshes nd) Hne
              (single_mesh_writes si (tr_top t) _)
              (fun i m m' ta tb Hm Hgm Hwfa Hcra =>
                 single_mesh_step si (tr_top t) cr (nd_meshes nd) i m m' ta tb
                                  Hne Hm Hgm Hwfa Hcra)
              (Z.to_nat (tr_num t2)) 0 t2 t' Hwf2 Hhas Hcells H) as (Hw & Hpost).
  destruct (has_cr_writes _ _ _ _ _ Hwf2 Hw Hhas) as (s2 & Hs2 & Hcr2).
  assert (s2 = s') by congruence. subst s2.
  exists s'. split; [exact Hs' |]. split; [congruence |].
  split; [intros x [= <-]; exact Hcr2 |].
  destruct Hh as (_ & _ & _ & _ & Hlen & _).
  split; [cbn [nd_meshes]; rewrite (mapM_same_length _ _ _ Hspec); congruence |].
  intros i m' Hi. cbn [nd_meshes] in Hi.
  destruct (mapM_lookup _ _ _ _ _ Hspec Hi) as (m & Hm & Hgm).
  pose proof (lookup_lt_Some _ _ _ Hm) as Hlt.
  exact (Hpost i m m' ltac:(lia) Hm Hgm).
Qed.

(** *** The sons of a state *)

Lemma split_and_sons_spec si cr n : forall (j : nat) split acc t ms sp' r t',
  length ms = n -> has_cr si cr t ->
  (forall i m, ms !! i = Some m -> mesh_cells t si (j + i) m) ->
  spec_split cr ms split = Some sp' ->
  split_and_sons n si (Z.of_nat j) split acc t = Ok (r, t') ->
  t' = t /\ r = (sp', acc ++ spec_table cr ms).
Proof.
  induction n as [| n IH]; intros j split acc t ms sp' r t' Hlen Hcr Hms Hsp H;
    cbn [split_and_sons] in H.
  - apply ret_ok in H as [-> ->]. destruct ms; [| discriminate Hlen].
    cbn in Hsp. injection Hsp as <-. split; [reflexivity |].
    unfold spec_table. rewrite fmap_nil, app_nil_r. reflexivity.
  - destruct ms as [| [p x] ms]; [discriminate Hlen |].
    apply bind_ok in H as (v & t0 & Hv & H). apply get_e_spec in Hv as [-> Hc].
    pose proof (Hms 0%nat (p, x) eq_refl) as [He Her]. rewrite Nat.add_0_r in He, Her.
    cbn [fst snd] in He, Her.
    pose proof (slot_cell_det _ _ _ _ _ _ Hc He) as Heq.
    assert (v = p) by congruence. subst v. clear Heq.
    assert (IH' : forall split' acc',
               spec_split cr ms split' = Some sp' ->
               split_and_sons n si (Z.of_nat j + 1) split' acc' t = Ok (r, t') ->
               t' = t /\ r = (sp', acc' ++ spec_table cr ms)).
    { intros split' acc' Hsp' H'. replace (Z.of_nat j + 1) with (Z.of_nat (S j)) in H' by lia.
      apply (IH (S j) split' acc' t ms sp' r t'); [cbn in Hlen; lia | exact Hcr | | exact Hsp' | exact H'].
      intros i m Hm. replace (S j + i)%nat with (j + S i)%nat by lia. apply Hms. exact Hm. }
    destruct p as [e |]; cbn [spec_split] in Hsp.
    + destruct (negb (el_active e)) eqn:Hact.
      * destruct x as [x |]; [| discriminate Hsp].
        apply bind_ok in H as (s0 & t0 & Hs0 & H). apply slot_ok in Hs0 as [Hs0 ->].
        apply bind_ok in H as (x0 & t0 & Hx0 & H). apply get_er_spec in Hx0 as [-> Hcx].
        pose proof (slot_cell_det _ _ _ _ _ _ Hcx (Her x eq_refl)) as Heq.
        assert (x0 = x) by congruence. subst x0. clear Heq.
        destruct Hcr as (s1 & Hs1 & Hcr1).
        assert (s1 = s0) by congruence. subst s1. rewrite Hcr1 in H.
        destruct (get_split_and_sons e cr x) as [sp sons] eqn:Hg. cbn [fst] in Hsp.
        destruct (IH' _ _ Hsp H) as [-> ->]. split; [reflexivity |].
        unfold spec_table. rewrite fmap_cons. cbv beta iota. rewrite Hact, Hg. cbn [snd].
        rewrite <- app_assoc. reflexivity.
      * destruct (IH' _ _ Hsp H) as [-> ->]. split; [reflexivity |].
        unfold spec_table. rewrite fmap_cons. cbv beta iota. rewrite Hact.
        rewrite <- app_assoc. destruct x; reflexivity.
    + destruct (IH' _ _ Hsp H) as [-> ->]. split; [reflexivity |].
      unfold spec_table. rewrite fmap_cons. cbv beta iota.
      rewrite <- app_assoc. reflexivity.
Qed.

Lemma mapM_cons_Some {A B : Type} (f : A -> option B) x l k :
  mapM f (x :: l) = Some k ->
  exists y k', f x = Some y /\ mapM f l = Some k' /\ k = y :: k'.
Proof.
  intros H. apply mapM_Some in H. apply Forall2_cons_inv_l in H as (y & k' & Hy & Hk & ->).
  exists y, k'. split; [exact Hy |]. split; [apply mapM_Some; exact Hk | reflexivity].
Qed.

(** A loop that pushes one son per round: the sons lie on the stack in
    the order of the rounds. *)
Lemma for_loop_nodes si nd (body : Z -> M unit) (F : Z -> option Node) n :
  (forall j t t' sd, wf t -> 0 <= si < tr_top t -> holds t si nd -> F j = Some sd ->
     body j t = Ok (tt, t') ->
     tr_top t' = tr_top t + 1 /\ holds t' (tr_top t) sd /\ visited_at t' (tr_top t) false) ->
  (forall k j, respects (above k) (body j)) ->
  forall i t t' sons,
  wf t -> 0 <= si < tr_top t -> holds t si nd ->
  mapM F (loop_indices n i) = Some sons ->
  for_loop n i body t = Ok (tt, t') ->
  wf t' /\ tr_num t' = tr_num t /\ tr_top t' = tr_top t + Z.of_nat (length sons) /\
  (forall (d : nat) sd, sons !! d = Some sd ->
     holds t' (tr_top t + Z.of_nat d) sd /\ visited_at t' (tr_top t + Z.of_nat d) false) /\
  frame_below (tr_top t) t t'.
Proof.
  intros Hpush Habove.
  induction n as [| n IH]; intros i t t' sons Hwf Hsi Hh Hsons H;
    cbn [for_loop loop_indices] in H, Hsons.
  - apply ret_ok in H as [_ ->]. cbn in Hsons. injection Hsons as <-.
    split; [exact Hwf |]. split; [reflexivity |]. split; [cbn; lia |].
    split; [intros d sd Hd; discriminate Hd | apply frame_below_refl].
  - apply mapM_cons_Some in Hsons as (sd0 & rest & Hsd0 & Hrest & ->).
    apply bind_ok in H as ([] & t1 & H1 & H).
    destruct (Hpush i t t1 sd0 Hwf Hsi Hh Hsd0 H1) as (Htop1 & Hh0 & Hv0).
    pose proof (Habove (tr_top t) i t tt t1 H1) as Ha.
    destruct (Ha (conj Hwf (fun _ => Z.le_refl _))) as ((Hwf1 & _) & Hnum1 & _).
    pose proof (frame_below_above _ t t1 Hwf (fun _ => Z.le_refl _) Ha) as Hf1.
    pose proof (holds_frame _ t t1 si nd Hnum1 Hf1 Hsi Hh) as Hh1.
    destruct (IH (i + 1) t1 t' rest Hwf1 ltac:(lia) Hh1 Hrest H)
      as (Hwf' & Hnum' & Htop' & Hnodes & Hf').
    split; [exact Hwf' |]. split; [congruence |]. split; [cbn [length]; lia |].
    split.
    + intros d sd Hd. destruct d as [| d]; cbn in Hd.
      * injection Hd as <-. rewrite Z.add_0_r.
        split; [exact (holds_frame (tr_top t1) t1 t' (tr_top t) sd0 Hnum' Hf' ltac:(lia) Hh0)
               | exact (visited_at_frame (tr_top t1) t1 t' (tr_top t) false Hf' ltac:(lia) Hv0)].
      * replace (tr_top t + Z.of_nat (S d)) with (tr_top t1 + Z.of_nat d) by lia.
        exact (Hnodes d sd Hd).
    + apply (frame_below_trans _ t t1 t' Hf1). apply (frame_below_le (tr_top t1)); [lia | exact Hf'].
Qed.

Lemma push_sons_node dflt si t t' nd sons :
  wf t -> 0 <= si < tr_top t -> holds t si nd -> spec_sons nd = Some sons ->
  push_sons dflt si t = Ok (tt, t') ->
  wf t' /\ tr_num t' = tr_num t /\ tr_top t' = tr_top t + Z.of_nat (length sons) /\
  (forall (d : nat) sd, sons !! d = Some sd ->
     holds t' (tr_top t + Z.of_nat d) sd /\ visited_at t' (tr_top t + Z.of_nat d) false) /\
  frame_below (tr_top t) t t'.
Proof.
  intros Hwf Hsi Hh Hsons H. unfold push_sons in H.
  apply bind_ok in H as (tri & t0 & Htri & H).
  destruct (holds_is_triangle t si nd tri t0 Hh Htri) as [-> ->].
  unfold spec_sons in Hsons.
  destruct (spec_is_triangle (nd_meshes nd)).
  - refine (for_loop_nodes si nd _
              (fun son => mkNode None <$> mapM (spec_tri_mesh son) (nd_meshes nd)) 4
              _ _ 0 t t' sons Hwf Hsi Hh Hsons H).
    + intros j ta tb sd Hwfa Hsia Hha Hsd Hb.
      apply fmap_Some in Hsd as (ms' & Hms' & ->).
      exact (push_triangle_son_node si j ta tb nd ms' Hwfa Hsia Hha Hms' Hb).
    + intros k j. apply above_push_triangle_son.
  - destruct (nd_cr nd) as [cr |] eqn:Hcr; [| discriminate Hsons].
    destruct (spec_split cr (nd_meshes nd) 0) as [split0 |] eqn:Hsp; [| discriminate Hsons].
    apply bind_ok in H as (num & t0 & Hg & H). apply gets_ok in Hg as [-> ->].
    apply bind_ok in H as ([split cs] & t0 & Hss & H).
    pose proof Hh as (s & Hs & _ & Hc & Hlen & Hcells).
    destruct (split_and_sons_spec si cr (Z.to_nat (tr_num t)) 0 0 [] t (nd_meshes nd)
                split0 (split, cs) t0 Hlen
                (ex_intro _ s (conj Hs (Hc cr Hcr))) Hcells Hsp Hss) as [-> Heq].
    injection Heq as -> ->. change ([] ++ spec_table cr (nd_meshes nd)) with (spec_table cr (nd_meshes nd)) in H.
    destruct (split0 =? 3).
    + refine (for_loop_nodes si nd _
                (fun son => mkNode (Some (move_to_son cr son))
                              <$> mapM (spec_quad_mesh cr son None) (nd_meshes nd)) 4
                _ _ 0 t t' sons Hwf Hsi Hh Hsons H).
      * intros j ta tb sd Hwfa Hsia Hha Hsd Hb.
        apply fmap_Some in Hsd as (ms' & Hms' & ->).
        exact (push_quad_son_node dflt si j j ta tb nd cr ms' Hwfa Hsia Hha Hcr Hms' Hb).
      * intros k j. apply above_push_quad_son.
    + destruct (0 <? split0).
      * refine (for_loop_nodes si nd _
                  (fun son => mkNode (Some (move_to_son cr son))
                                <$> mapM (spec_quad_mesh cr
                                            (if (son =? 4) || (son =? 6) then 0 else 2) None)
                                         (nd_meshes nd)) 2
                  _ _ _ t t' sons Hwf Hsi Hh _ H).
        -- intros j ta tb sd Hwfa Hsia Hha Hsd Hb.
           apply fmap_Some in Hsd as (ms' & Hms' & ->).
           exact (push_quad_son_node dflt si j _ ta tb nd cr ms' Hwfa Hsia Hha Hcr Hms' Hb).
        -- intros k j. apply above_push_quad_son.
        -- destruct (split0 =? 2); exact Hsons.
      * apply fmap_Some in Hsons as (ms' & Hms' & ->).
        destruct (push_quad_single_node si t t' nd cr ms' Hwf Hsi Hh Hcr Hms' H)
          as (Htop & Hh' & Hv').
        pose proof (above_push_quad_single (tr_top t) si _ t tt t' H) as Ha.
        destruct (Ha (conj Hwf (fun _ => Z.le_refl _))) as ((Hwf' & _) & Hnum' & _).
        split; [exact Hwf' |]. split; [exact Hnum' |]. split; [cbn [length]; lia |].
        split; [| exact (frame_below_above _ t t' Hwf (fun _ => Z.le_refl _) Ha)].
        intros d sd Hd. destruct d as [| d]; [| discriminate Hd].
        injection Hd as <-. rewrite Z.add_0_r. split; assumption.
Qed.

(** *** The descent and the order of the specification *)

Lemma pop_visited_nonneg n : forall t u t',
  0 <= tr_top t -> pop_visited n t = Ok (u, t') -> 0 <= tr_top t'.
Proof.
  induction n as [| n IH]; intros t u t' Htop H; cbn [pop_visited] in H.
  - apply ret_ok in H as [_ ->]. exact Htop.
  - apply bind_ok in H as (top & t0 & Hg & H). apply gets_ok in Hg as [-> ->].
    destruct (Z.ltb_spec 0 (tr_top t)) as [Hpos | Hneg]; [| apply ret_ok in H as [_ ->]; exact Htop].
    apply bind_ok in H as (s0 & t0 & Hs0 & H). apply slot_ok in Hs0 as [Hs0 ->].
    destruct (st_visited s0); [| apply ret_ok in H as [_ ->]; exact Htop].
    apply bind_ok in H as (u1 & t1 & Hset & H). injection Hset as <- <-.
    apply IH in H; [exact H | cbn; lia].
Qed.

Lemma with_top_same t : with_top (tr_top t) t = t.
Proof. destruct t; reflexivity. Qed.

Lemma visit_done_after k t t1 t' lc lc1 lc' l1 ks1 ks2 :
  wf t -> keeps t t1 -> frame_below k t t1 ->
  (forall i, 0 <= i < k -> i < tr_top t -> visited_at t i false -> i < tr_top t1) ->
  lc_id lc1 = lc_id lc -> lc_states lc1 = lc_states lc ++ l1 -> emitted t1 l1 ks1 ->
  visit_done k t1 t' lc1 lc' ks2 ->
  visit_done k t t' lc lc' (ks1 ++ ks2).
Proof.
  intros Hwf Hk1 Hf1 Hlow1 Hid1 Hl1 Hem1 (Hwf' & Hk' & Htop' & Hf' & Hlow' & Hid' & l2 & Hl2 & Hem2).
  destruct (Hk1 Hwf) as (Hwf1 & _).
  split; [exact Hwf' |]. split; [transitivity t1; assumption |]. split; [exact Htop' |].
  split; [exact (frame_below_trans _ _ _ _ Hf1 Hf') |].
  split.
  { intros i Hi Hit Hv. apply (Hlow' i Hi (Hlow1 i Hi Hit Hv)).
    exact (visited_at_frame k t t1 i false Hf1 Hi Hv). }
  split; [congruence |].
  exists (l1 ++ l2). split; [rewrite Hl2, Hl1, app_assoc; reflexivity |].
  apply emitted_app; [| exact Hem2]. exact (emitted_keeps t1 t' l1 ks1 Hwf1 Hk' Hem1).
Qed.

Lemma visit_done_le k k' t t' lc lc' ks :
  k' <= k -> visit_done k t t' lc lc' ks ->
  wf t' /\ keeps t t' /\ 0 <= tr_top t' <= k /\ frame_below k' t t' /\
  (forall i, 0 <= i < k' -> i < tr_top t -> visited_at t i false -> i < tr_top t').
Proof.
  intros Hle (Hwf' & Hk' & Htop' & Hf' & Hlow' & _).
  split; [exact Hwf' |]. split; [exact Hk' |]. split; [exact Htop' |].
  split; [exact (frame_below_le k k' t t' Hle Hf') |].
  intros i Hi. apply Hlow'. lia.
Qed.

Lemma visited_at_det t j b b' : visited_at t j b -> visited_at t j b' -> b = b'.
Proof. intros (s & Hs & <-) (s' & Hs' & <-). congruence. Qed.

Lemma descend_pending_order ONE dflt f :
  (forall F si lc t lc' t' nd ks,
     wf t -> 0 <= si -> tr_top t = si + 1 -> holds t si nd ->
     spec_visit F (tr_spaces_size t) nd = Some ks ->
     descend ONE dflt f si lc t = Ok (lc', t') ->
     visit_done si t t' lc lc' ks) /\
  (forall F j lc t lc' t' nds kss,
     wf t -> 0 <= j -> 0 <= tr_top t <= j + 1 + Z.of_nat (length nds) ->
     (nds <> [] -> tr_top t = j + 1 + Z.of_nat (length nds)) ->
     visited_at t j true ->
     (forall (d : nat) nd, nds !! d = Some nd ->
        holds t (j + 1 + Z.of_nat d) nd /\ visited_at t (j + 1 + Z.of_nat d) false) ->
     mapM (spec_visit F (tr_spaces_size t)) (rev nds) = Some kss ->
     pending ONE dflt f j lc t = Ok (lc', t') ->
     visit_done j t t' lc lc' (concat kss)).
Proof.
  induction f as [| f [IHd IHp]].
  - split; intros; discriminate.
  - split.
    + intros F si lc t lc' t' nd ks Hwf Hsi Htop Hh Hspec H.
      rewrite descend_S in H.
      apply bind_ok in H as ([] & t1 & Hent & H).
      destruct (enter_state_node f si t t1 nd Hwf Hsi Hh Hent)
        as (Hwf1 & Hk1 & Htop1 & Hh1 & Hv1 & Hf1).
      destruct (Hk1 Hwf) as (_ & _ & Hnum1 & _ & Hsp1).
      apply bind_ok in H as (it & t2 & Hfin & H).
      unfold finish_state in Hfin.
      apply bind_ok in Hfin as (num & t0 & Hg & Hfin). apply gets_ok in Hg as [-> ->].
      apply bind_ok in Hfin as (leaf & t0 & Hleaf & Hfin).
      destruct (holds_is_leaf t1 si nd leaf t0 Hh1 Hleaf) as [-> ->].
      destruct F as [| F']; [discriminate Hspec |]. cbn [spec_visit] in Hspec.
      destruct (spec_leaf (nd_meshes nd)).
      * injection Hspec as <-.
        apply bind_ok in Hfin as (lc1 & t3 & Hemit & Hfin).
        apply ret_ok in Hfin as [Hit Ht2]. subst it t2.
        destruct (emit_leaf_node ONE si lc t1 lc1 t3 nd Hwf1 Hsi Hh1 Hemit)
          as (Hwf3 & Hk3 & Htop3 & Hid3 & (l & Hl & Hem) & Hf3 & Hv3).
        destruct (Hk3 Hwf1) as (_ & _ & Hnum3 & _ & Hsp3).
        assert (Hdone : visit_done si t3 t' lc1 lc' (concat [])).
        { apply (IHp F' si lc1 t3 lc' t' [] []); try assumption.
          - cbn [length]. lia.
          - intros Hne. contradiction Hne. reflexivity.
          - exact (Hv3 true Hv1).
          - intros d nd' Hd. discriminate Hd.
          - reflexivity. }
        rewrite <- (app_nil_r (if spec_has_rep _ _ then _ else _)).
        rewrite <- Hsp1.
        refine (visit_done_after si t t3 t' lc lc1 lc' l _ _ Hwf _ _ _ Hid3 Hl Hem Hdone).
        -- transitivity t1; assumption.
        -- exact (frame_below_trans _ _ _ _ Hf1 Hf3).
        -- intros i Hi Hit _. lia.
      * destruct (spec_sons nd) as [sons |] eqn:Hsons; [| discriminate Hspec].
        cbn in Hspec. apply fmap_Some in Hspec as (kss & Hkss & ->).
        apply bind_ok in Hfin as ([] & t3 & Hpush & Hfin).
        apply ret_ok in Hfin as [Hit Ht2]. subst it t2.
        destruct (push_sons_node dflt si t1 t3 nd sons Hwf1 ltac:(lia) Hh1 Hsons Hpush)
          as (Hwf3 & Hnum3 & Htop3 & Hnodes & Hf3).
        pose proof (keeps_push_sons dflt si t1 tt t3 Hpush) as Hk3.
        destruct (Hk3 Hwf1) as (_ & _ & _ & _ & Hsp3).
        assert (Hdone : visit_done si t3 t' lc lc' (concat kss)).
        { apply (IHp F' si lc t3 lc' t' sons kss); try assumption.
          - lia.
          - intros _. lia.
          - exact (visited_at_frame (tr_top t1) t1 t3 si true Hf3 ltac:(lia) Hv1).
          - intros d sd Hd. replace (si + 1 + Z.of_nat d) with (tr_top t1 + Z.of_nat d) by lia.
            exact (Hnodes d sd Hd).
          - rewrite Hsp3, Hsp1. exact Hkss. }
        refine (visit_done_after si t t3 t' lc lc lc' [] [] _ Hwf _ _ _ eq_refl _ _ Hdone).
        -- transitivity t1; assumption.
        -- apply (frame_below_trans _ _ _ _ Hf1).
           exact (frame_below_le (tr_top t1) si t1 t3 ltac:(lia) Hf3).
        -- intros i Hi Hit _. lia.
        -- rewrite app_nil_r. reflexivity.
        -- constructor.
    + intros F j lc t lc' t' nds kss Hwf Hj Htop Hfull Hvj Hnodes Hspec H.
      rewrite pending_S in H.
      apply bind_ok in H as (top0 & t0 & Hg & H). apply gets_ok in Hg as [-> ->].
      apply bind_ok in H as ([] & tp & Hpop & H).
      apply bind_ok in H as (top & t0 & Hg & H). apply gets_ok in Hg as [-> ->].
      destruct (pop_visited_spec _ t tt tp (Nat.le_refl _) Hpop) as (Htp & Hle & Hstop).
      pose proof (pop_visited_visited _ t tt tp Hpop) as Hvis.
      pose proof (keeps_pop_visited _ t tt tp Hpop) as Hkp.
      pose proof (pop_visited_nonneg _ t tt tp ltac:(lia) Hpop) as Hnn.
      destruct (Hkp Hwf) as (Hwfp & _).
      destruct (rev nds) as [| nd rn] eqn:Hrev;
        apply (f_equal (@rev _)) in Hrev; rewrite rev_involutive in Hrev; subst nds;
        cbn [rev] in *.
      * injection Hspec as <-. cbn [length] in Htop.
        destruct (Z.leb_spec (tr_top tp) j) as [Hlej | Hgtj].
        -- apply ret_ok in H as [Hlc Ht]. subst lc' t'.
           split; [exact Hwfp |]. split; [exact Hkp |]. split; [lia |].
           split; [rewrite Htp; apply frame_below_top |].
           split.
           { intros i Hi Hit (s & Hs & Hv).
             destruct (Z.lt_ge_cases i (tr_top tp)) as [Hlt | Hge]; [exact Hlt |].
             pose proof (Hvis i s ltac:(lia) Hs). congruence. }
           split; [reflexivity |].
           exists []. split; [rewrite app_nil_r; reflexivity | constructor].
        -- exfalso. destruct Hstop as [Hz | (s & Hs & Hv)]; [lia |].
           replace (tr_top tp - 1) with j in Hs by lia.
           destruct Hvj as (s' & Hs' & Hv'). congruence.
      * rewrite length_app, length_rev in Htop, Hfull. cbn [length] in Htop, Hfull.
        assert (Hfull' : tr_top t = j + 1 + Z.of_nat (length rn + 1)).
        { apply Hfull. intros Hnil. apply (f_equal (@length _)) in Hnil.
          rewrite length_app in Hnil. cbn in Hnil. lia. }
        clear Hfull Htop.
        assert (Hlast : (rev rn ++ [nd]) !! length rn = Some nd).
        { rewrite <- (length_rev rn). apply list_lookup_middle. reflexivity. }
        destruct (Hnodes _ _ Hlast) as [Hhn Hvn].
        assert (Hsame : tr_top tp = tr_top t).
        { destruct (Z.eq_dec (tr_top tp) (tr_top t)) as [Heq | Hne]; [exact Heq |].
          destruct Hvn as (s & Hs & Hv).
          pose proof (Hvis (j + 1 + Z.of_nat (length rn)) s ltac:(lia) Hs). congruence. }
        assert (tp = t) by (rewrite Htp, Hsame; apply with_top_same). subst tp.
        destruct (Z.leb_spec (tr_top t) j) as [Hlej | Hgtj]; [lia |].
        apply bind_ok in H as (lc1 & t1 & Hd & H).
        apply mapM_cons_Some in Hspec as (ks_nd & rest & Hks & Hrest & ->).
        replace (tr_top t - 1) with (j + 1 + Z.of_nat (length rn)) in Hd by lia.
        pose proof (IHd F (j + 1 + Z.of_nat (length rn)) lc t lc1 t1 nd ks_nd Hwf ltac:(lia) ltac:(lia) Hhn Hks Hd)
          as Hdone1.
        destruct (visit_done_le (j + 1 + Z.of_nat (length rn)) j _ _ _ _ _ ltac:(lia) Hdone1)
          as (Hwf1 & Hk1 & Htop1 & Hf1 & Hlow1).
        destruct Hdone1 as (_ & _ & _ & Hf1' & Hlow1' & Hid1 & l1 & Hl1 & Hem1).
        destruct (Hk1 Hwf) as (_ & _ & Hnum1 & _ & Hsp1).
        assert (Hdone : visit_done j t1 t' lc1 lc' (concat rest)).
        { apply (IHp F j lc1 t1 lc' t' (rev rn) rest); try assumption.
          - rewrite length_rev. lia.
          - intros Hne. rewrite length_rev.
            destruct rn as [| x rn']; [contradiction Hne; reflexivity |].
            cbn [length] in *.
            assert (Hprev : (rev (x :: rn') ++ [nd]) !! length rn' = Some (hd x (x :: rn'))).
            { cbn [rev hd]. rewrite <- app_assoc. cbn [app].
              rewrite <- (length_rev rn'). apply list_lookup_middle. reflexivity. }
            destruct (Hnodes _ _ Hprev) as [_ Hvp].
            pose proof (Hlow1' (j + 1 + Z.of_nat (length rn')) ltac:(lia) ltac:(lia) Hvp).
            lia.
          - exact (visited_at_frame (j + 1 + Z.of_nat (length rn)) t t1 j true Hf1' ltac:(lia) Hvj).
          - intros d sd Hd'. pose proof (lookup_lt_Some _ _ _ Hd') as Hlt.
            rewrite length_rev in Hlt.
            destruct (Hnodes d sd) as [Hhd Hvd].
            { rewrite lookup_app_l by (rewrite length_rev; exact Hlt). exact Hd'. }
            split; [exact (holds_frame (j + 1 + Z.of_nat (length rn)) t t1 (j + 1 + Z.of_nat d) sd Hnum1 Hf1' ltac:(lia) Hhd)
                   | exact (visited_at_frame (j + 1 + Z.of_nat (length rn)) t t1 (j + 1 + Z.of_nat d) false Hf1' ltac:(lia) Hvd)].
          - rewrite rev_involutive, Hsp1. exact Hrest. }
        cbn [concat].
        exact (visit_done_after j t t1 t' lc lc1 lc' l1 ks_nd (concat rest)
                 Hwf Hk1 Hf1 Hlow1 Hid1 Hl1 Hem1 Hdone).
Qed.

(** *** The base elements *)

Lemma same_visit_load_base_element ONE n : forall meshes si id i nused,
  respects (slots_rel same_visit) (load_base_element ONE n meshes si id i nused).
Proof. induction n as [| n IH]; intros meshes si id i nused; simpl; respects_all. Qed.

Lemma spec_root_row ONE meshes num id nd (i : nat) x :
  spec_root ONE meshes num id = Some nd -> nd_meshes nd !! i = Some x ->
  exists m e, zlookup meshes (Z.of_nat i) = Some m /\
              zlookup (mesh_elements m) id = Some e /\
              x = if el_used e then (Some e, Some (H2D_UNITY ONE)) else (None, None).
Proof.
  unfold spec_root. destruct (Z.of_nat (length meshes) <? num); [discriminate |].
  intros H Hx. apply fmap_Some in H as (ms & Hms & ->). cbn [nd_meshes] in Hx.
  destruct (mapM_lookup _ _ _ _ _ Hms Hx) as (m & Hm & Hrow).
  apply lookup_take_Some in Hm as [Hm _].
  unfold spec_root_mesh in Hrow.
  destruct (zlookup (mesh_elements m) id) as [e |] eqn:He; [| discriminate Hrow].
  injection Hrow as <-. exists m, e.
  split; [apply zlookup_Some; split; [lia | rewrite Nat2Z.id; exact Hm] |].
  split; [exact He | reflexivity].
Qed.

Lemma spec_root_length ONE meshes num id nd :
  0 <= num -> spec_root ONE meshes num id = Some nd ->
  nd_cr nd = Some (H2D_UNITY ONE) /\ length (nd_meshes nd) = Z.to_nat num.
Proof.
  unfold spec_root. intros Hnum H.
  destruct (Z.ltb_spec (Z.of_nat (length meshes)) num) as [Hlt | Hge]; [discriminate |].
  apply fmap_Some in H as (ms & Hms & ->). cbn [nd_cr nd_meshes].
  split; [reflexivity |]. rewrite (mapM_same_length _ _ _ Hms), length_take. lia.
Qed.

Lemma root_ready_step ONE si W t t' :
  wf t -> writes si W t t' -> slots_rel same_visit t t' ->
  root_ready ONE si t -> root_ready ONE si t'.
Proof.
  intros Hwf Hw Hv (s & Hs & Hn & Hcr).
  destruct (Hw Hwf) as (_ & Hnum & _ & _ & Hkeep).
  destruct (Hkeep s Hs) as (s' & Hs' & Hcr').
  destruct (slots_rel_lookup _ _ _ _ _ Hv Hs) as (s2 & Hs2 & _ & _ & Hn2).
  assert (s2 = s') by congruence. subst s2.
  exists s'. split; [exact Hs' |]. split; congruence.
Qed.

Lemma load_base_element_holds ONE meshes si id t nused t' nd :
  wf t -> root_ready ONE si t ->
  spec_root ONE meshes (tr_num t) id = Some nd ->
  load_base_element ONE (Z.to_nat (tr_num t)) meshes si id 0 0 t = Ok (nused, t') ->
  wf t' /\ tr_num t' = tr_num t /\ holds t' si nd /\ root_ready ONE si t' /\
  negb (nused =? 0) = spec_some_used (nd_meshes nd).
Proof.
  intros Hwf Hroot Hnd H.
  destruct (load_base_element_cells ONE _ meshes si id 0 0 t nused t' Hwf ltac:(lia) H)
    as (Hw & Hcells).
  pose proof (same_visit_load_base_element ONE _ meshes si id 0 0 t nused t' H) as Hv.
  destruct (Hw Hwf) as (Hwf' & Hnum' & _).
  pose proof (root_ready_step ONE si _ t t' Hwf Hw Hv Hroot) as Hroot'.
  pose proof Hwf as (Hnum & _).
  destruct (spec_root_length ONE meshes (tr_num t) id nd ltac:(lia) Hnd) as [Hcr Hlen].
  split; [exact Hwf' |]. split; [exact Hnum' |].
  split; [| split; [exact Hroot' |]].
  - destruct Hroot' as (s' & Hs' & Hn' & Hcr').
    exists s'. split; [exact Hs' |]. split; [exact Hn' |].
    split; [intros x Hx; congruence |]. split; [congruence |].
    intros i x Hx. pose proof (lookup_lt_Some _ _ _ Hx) as Hlt.
    destruct (spec_root_row ONE meshes _ id nd i x Hnd Hx) as (m & e & Hm & He & ->).
    destruct (Hcells (Z.of_nat i) ltac:(lia)) as (m' & e' & Hm' & He' & Hce & Hcer).
    assert (m' = m) by congruence. subst m'. assert (e' = e) by congruence. subst e'.
    destruct (el_used e); split; cbn [fst snd].
    + exact Hce.
    + intros r [= <-]. exact (Hcer eq_refl).
    + exact Hce.
    + intros r Hr. discriminate Hr.
  - destruct (load_base_element_count ONE _ meshes si id 0 0 t nused t' H)
      as (Hge & Hzero & Hpos).
    unfold spec_some_used.
    destruct (Z.eqb_spec nused 0) as [-> | Hne]; cbn [negb]; symmetry.
    + apply not_true_is_false. intros Hex.
      apply existsb_exists in Hex as (x & Hin & Hx).
      apply list_elem_of_In, list_elem_of_lookup in Hin as [i Hi].
      pose proof (lookup_lt_Some _ _ _ Hi) as Hlt.
      destruct (spec_root_row ONE meshes _ id nd i x Hnd Hi) as (m & e & Hm & He & ->).
      destruct (Hzero eq_refl (Z.of_nat i) ltac:(lia)) as (m' & e' & Hm' & He' & Hu).
      assert (m' = m) by congruence. subst m'. assert (e' = e) by congruence. subst e'.
      rewrite Hu in Hx. cbn in Hx. discriminate Hx.
    + destruct (Hpos ltac:(lia)) as (k & Hk & m & e & Hm & He & Hu).
      destruct (lookup_lt_is_Some_2 (nd_meshes nd) (Z.to_nat k) ltac:(lia)) as [x Hx].
      destruct (spec_root_row ONE meshes _ id nd _ x Hnd Hx) as (m' & e' & Hm' & He' & ->).
      rewrite Z2Nat.id in Hm' by lia.
      assert (m' = m) by congruence. subst m'. assert (e' = e) by congruence. subst e'.
      apply existsb_exists. exists (if el_used e then (Some e, Some (H2D_UNITY ONE)) else (None, None)).
      split; [apply list_elem_of_In, list_elem_of_lookup; exists (Z.to_nat k); exact Hx |].
      rewrite Hu. reflexivity.
Qed.

(** The search for the next base element against the enumeration of the
    base elements. *)
Lemma next_base_element_order ONE depth meshes si n :
  forall F id t r t' ks,
  wf t -> root_ready ONE si t ->
  spec_bases F ONE depth meshes (tr_num t) (tr_spaces_size t) id = Some ks ->
  next_base_element ONE n meshes si id t = Ok (r, t') ->
  wf t' /\ keeps t t' /\ tr_top t' = tr_top t /\
  match r with
  | None => ks = []
  | Some id' =>
      exists F' nd ks1 rest,
        holds t' si nd /\
        spec_visit depth (tr_spaces_size t) nd = Some ks1 /\
        spec_bases F' ONE depth meshes (tr_num t) (tr_spaces_size t) (id' + 1) = Some rest /\
        ks = ks1 ++ rest
  end.
Proof.
  induction n as [| n IH]; intros F id t r t' ks Hwf Hroot Hspec H;
    pose proof (keeps_next_base_element ONE _ meshes si id t r t' H) as Hk;
    pose proof (same_top_next_base_element ONE _ meshes si id t r t' H) as Htop;
    (destruct F as [| F']; [discriminate Hspec |]); cbn [spec_bases] in Hspec;
    cbn [next_base_element] in H;
    apply bind_ok in H as (m0 & t0 & Hm0 & H); apply lift_ok in Hm0 as [Hm0 ->];
    unfold mesh_at in Hm0;
    (destruct (zlookup meshes 0) as [m0' |]; [| discriminate Hm0]);
    injection Hm0 as ->; cbn in Hspec;
    (destruct (mesh_num_base m0 <=? id);
     [apply ret_ok in H as [Hr Ht]; subst r t'; injection Hspec as <-;
      split; [exact Hwf |]; split; [exact Hk |]; split; [reflexivity | reflexivity] |]);
    (destruct (spec_root ONE meshes (tr_num t) id) as [nd |] eqn:Hnd; [| discriminate Hspec]);
    cbn in Hspec;
    apply bind_ok in H as (num & t0 & Hg & H); apply gets_ok in Hg as [-> ->];
    apply bind_ok in H as (nused & t2 & Hload & H);
    destruct (load_base_element_holds ONE meshes si id t nused t2 nd Hwf Hroot Hnd Hload)
      as (Hwf2 & Hnum2 & Hh2 & Hroot2 & Hused);
    fold (spec_some_used (nd_meshes nd)) in Hspec; rewrite <- Hused in Hspec;
    pose proof (keeps_load_base_element ONE _ meshes si id 0 0 t nused t2 Hload Hwf)
      as (_ & _ & _ & _ & Hsp2);
    (destruct (negb (nused =? 0));
     [apply ret_ok in H as [Hr Ht]; subst r t2;
      destruct (spec_visit depth (tr_spaces_size t) nd) as [ks1 |] eqn:Hks1; [| discriminate Hspec];
      cbn in Hspec;
      destruct (spec_bases F' ONE depth meshes (tr_num t) (tr_spaces_size t) (id + 1))
        as [rest |] eqn:Hrest; [| discriminate Hspec];
      injection Hspec as <-;
      split; [exact Hwf2 |]; split; [exact Hk |]; split; [exact Htop |];
      exists F', nd, ks1, rest; split; [exact Hh2 |]; split; [exact Hks1 |]; split; [exact Hrest | reflexivity] |]).
  - discriminate H.
  - rewrite <- Hnum2, <- Hsp2 in Hspec.
    destruct (IH F' (id + 1) t2 r t' ks Hwf2 Hroot2 Hspec H) as (Hwf' & _ & _ & Hres).
    split; [exact Hwf' |]. split; [exact Hk |]. split; [exact Htop |].
    rewrite Hnum2, Hsp2 in Hres. exact Hres.
Qed.

Lemma keeps_load_next_base ONE meshes lc : respects keeps (load_next_base ONE meshes lc).
Proof. unfold load_next_base. respects_all. Qed.

Lemma holds_update_slot si f t t' nd :
  keeps_ptrs f -> (forall s, st_cr (f s) = st_cr s /\ st_num (f s) = st_num s) ->
  wf t -> holds t si nd -> update_slot si f t = Ok (tt, t') ->
  wf t' /\ holds t' si nd /\ tr_top t' = tr_top t.
Proof.
  intros Hf Hsame Hwf (s & Hs & Hn & Hcr & Hlen & Hcells) H.
  destruct (update_slot_cells si f t t' Hf Hwf H) as (Hwf' & Hnum' & (s0 & Hs0 & Hs') & _ & Hc).
  assert (s0 = s) by congruence. subst s0.
  destruct (Hsame s) as [Hcr' Hn'].
  split; [exact Hwf' |]. split.
  - exists (f s). split; [exact Hs' |]. split; [congruence |].
    split; [intros x Hx; rewrite Hcr'; exact (Hcr x Hx) |]. split; [congruence |].
    intros i m Hm. destruct (Hcells i m Hm) as [He Her].
    split; [exact (Hc _ FE _ _ He) |]. intros r Hr. exact (Hc _ FER _ _ (Her r Hr)).
  - apply update_slot_ok in H as (s1 & _ & ->). reflexivity.
Qed.

(** The root state of the next base element against the enumeration of
    the base elements. *)
Lemma load_next_base_order ONE depth meshes F lc t r t' ks :
  wf t -> 0 <= tr_top t ->
  spec_bases F ONE depth meshes (tr_num t) (tr_spaces_size t) (lc_id lc) = Some ks ->
  load_next_base ONE meshes lc t = Ok (r, t') ->
  keeps t t' /\
  match r with
  | None => ks = []
  | Some (si, id) =>
      wf t' /\ si = tr_top t /\ tr_top t' = si + 1 /\
      exists F' nd ks1 rest,
        holds t' si nd /\
        spec_visit depth (tr_spaces_size t) nd = Some ks1 /\
        spec_bases F' ONE depth meshes (tr_num t) (tr_spaces_size t) id = Some rest /\
        ks = ks1 ++ rest
  end.
Proof.
  intros Hwf Htop Hspec H.
  split; [exact (keeps_load_next_base ONE meshes lc t r t' H) |].
  unfold load_next_base in H.
  apply bind_ok in H as (si & t0 & Hpush & H).
  destruct (push_state_spec t si t0 Hwf Hpush)
    as (-> & Htop0 & s & s1 & Hs & Hs1 & Hplain & _).
  pose proof (keeps_push_state t _ t0 Hpush Hwf) as (Hwf0 & _ & Hnum0 & _ & Hsp0).
  apply bind_ok in H as ([] & t1 & Hupd & H).
  destruct (update_slot_cells (tr_top t) (set_cr (H2D_UNITY ONE)) t0 t1
              ltac:(intros x; repeat split) Hwf0 Hupd)
    as (Hwf1 & Hnum1 & (s0 & Hs0 & Hs0') & _).
  assert (s0 = s1) by congruence. subst s0.
  pose proof (keeps_update_slot (tr_top t) (set_cr (H2D_UNITY ONE))
                ltac:(intros x; repeat split) t0 tt t1 Hupd Hwf0)
    as (_ & _ & _ & _ & Hsp1).
  assert (Htop1 : tr_top t1 = tr_top t + 1).
  { apply update_slot_ok in Hupd as (sx & _ & ->). exact Htop0. }
  assert (Hroot : root_ready ONE (tr_top t) t1).
  { exists (set_cr (H2D_UNITY ONE) s1). split; [exact Hs0' |].
    unfold plain in Hplain. injection Hplain as _ _ _ _ _ _ _ Hn.
    split; [| reflexivity]. cbn. congruence. }
  apply bind_ok in H as (m0 & t2 & Hm0 & H). apply lift_ok in Hm0 as [_ ->].
  apply bind_ok in H as (found & t2 & Hnext & H).
  assert (Hspec1 : spec_bases F ONE depth meshes (tr_num t1) (tr_spaces_size t1) (lc_id lc)
                   = Some ks) by (rewrite Hnum1, Hnum0, Hsp1, Hsp0; exact Hspec).
  destruct (next_base_element_order ONE depth meshes (tr_top t) _ F (lc_id lc) t1 found t2 ks
              Hwf1 Hroot Hspec1 Hnext) as (Hwf2 & Hk2 & Htop2 & Hres).
  destruct found as [id |].
  - destruct Hres as (F' & nd & ks1 & rest & Hh & Hks1 & Hrest & ->).
    apply bind_ok in H as (tri & t3 & Htri & H).
    pose proof (respects_eq_State_is_triangle _ _ _ _ Htri) as <-.
    apply bind_ok in H as ([] & t3 & Hbnd & H).
    apply ret_ok in H as [Hr Ht]. subst r t'.
    assert (Hlast : wf t3 /\ holds t3 (tr_top t) nd /\ tr_top t3 = tr_top t2).
    { destruct tri.
      - refine (holds_update_slot (tr_top t) _ t2 t3 nd _ _ Hwf2 Hh Hbnd).
        + intros x; repeat split.
        + intros x; split; reflexivity.
      - apply ret_ok in Hbnd as [_ ->]. split; [assumption |]. split; [assumption | reflexivity]. }
    destruct Hlast as (Hwf3 & Hh3 & Htop3).
    split; [exact Hwf3 |]. split; [reflexivity |].
    split; [unfold same_top in Htop2; lia |].
    exists F', nd, ks1, rest.
    rewrite Hsp1, Hsp0 in Hks1. rewrite Hnum1, Hnum0, Hsp1, Hsp0 in Hrest.
    split; [exact Hh3 |]. split; [exact Hks1 |]. split; [exact Hrest | reflexivity].
  - apply bind_ok in H as (u & t3 & _ & H). apply ret_ok in H as [Hr _]. subst r.
    exact Hres.
Qed.

(** The descent over the base elements returns the states of the
    enumeration, in its order. *)
Lemma traverse_bases_order ONE dflt depth meshes f : forall F lc t l t' ks,
  wf t -> tr_top t = 0 ->
  spec_bases F ONE depth meshes (tr_num t) (tr_spaces_size t) (lc_id lc) = Some ks ->
  traverse_bases ONE dflt f meshes lc t = Ok (l, t') ->
  keeps t t' /\ exists l', l = lc_states lc ++ l' /\ emitted t' l' ks.
Proof.
  induction f as [| f IH]; intros F lc t l t' ks Hwf Htop Hspec H; [discriminate H |].
  cbn [traverse_bases] in H.
  apply bind_ok in H as (sel & t1 & Hsel & H).
  destruct (load_next_base_order ONE depth meshes F lc t sel t1 ks Hwf ltac:(lia) Hspec Hsel)
    as (Hk1 & Hres).
  destruct sel as [[si id] |].
  - destruct Hres as (Hwf1 & -> & Htop1 & F' & nd & ks1 & rest & Hh & Hks1 & Hrest & ->).
    destruct (Hk1 Hwf) as (_ & _ & Hnum1 & _ & Hsp1).
    apply bind_ok in H as (lc1 & t2 & Hd & H).
    rewrite <- Hsp1 in Hks1.
    destruct (proj1 (descend_pending_order ONE dflt f) depth (tr_top t) _ t1 lc1 t2 nd ks1
                Hwf1 ltac:(lia) Htop1 Hh Hks1 Hd)
      as (Hwf2 & Hk2 & Htop2 & _ & _ & Hid & l1 & Hl1 & Hem1).
    destruct (Hk2 Hwf1) as (_ & _ & Hnum2 & _ & Hsp2).
    cbn [lc_id lc_states] in Hid, Hl1.
    assert (Hrest2 : spec_bases F' ONE depth meshes (tr_num t2) (tr_spaces_size t2) (lc_id lc1)
                     = Some rest) by (rewrite Hnum2, Hnum1, Hsp2, Hsp1, Hid; exact Hrest).
    destruct (IH F' lc1 t2 l t' rest Hwf2 ltac:(lia) Hrest2 H) as (Hk' & l2 & -> & Hem2).
    split; [transitivity t1; [exact Hk1 |]; transitivity t2; assumption |].
    exists (l1 ++ l2). split; [rewrite Hl1, app_assoc; reflexivity |].
    apply emitted_app; [| exact Hem2]. exact (emitted_keeps t2 t' l1 ks1 Hwf2 Hk' Hem1).
  - apply ret_ok in H as [Hl Ht]. subst l t' ks.
    split; [exact Hk1 |]. exists []. split; [rewrite app_nil_r; reflexivity | constructor].
Qed.

Lemma get_states_descent_order ONE dflt meshes meshes_count f F t l t' ks :
  states_in_order ONE F meshes meshes_count (tr_spaces_size t) = Some ks ->
  get_states_descent ONE dflt f meshes meshes_count t = Ok (l, t') ->
  returned_elements (tr_heap t') l ks.
Proof.
  intros Hspec H. unfold get_states_descent in H.
  apply bind_ok in H as (u0 & t0 & H0 & H). injection H0 as _ <-.
  apply bind_ok in H as (predicted & t1 & H1 & H). apply lift_ok in H1 as [_ ->].
  apply bind_ok in H as (num & t2 & H2 & H). apply gets_ok in H2 as [-> ->].
  apply bind_ok in H as (u3 & t3 & H3 & H).
  apply begin_wf in H3 as (Hwf3 & Hnum3 & _ & _ & Htop3 & _ & Hsp3 & _).
  cbn [tr_num with_num tr_spaces_size] in Hnum3, Hsp3.
  unfold states_in_order in Hspec.
  assert (Hspec3 : spec_bases F ONE F meshes (tr_num t3) (tr_spaces_size t3)
                     (lc_id (mkLocals 0 [] predicted)) = Some ks)
    by (rewrite Hnum3, Hsp3; exact Hspec).
  destruct (traverse_bases_order ONE dflt F meshes f F _ t3 l t' ks Hwf3 Htop3 Hspec3 H)
    as (_ & l' & -> & Hem).
  cbn [lc_states app]. unfold returned_elements.
  eapply Forall2_impl; [exact Hem |]. intros c es [_ Hc]. exact Hc.
Qed.

(** ** The rectangles that the traversal hands to the tracking loops *)

Lemma push_quad_son_rectangle dflt si son k cs s t t' :
  wf t -> 0 <= si < tr_top t -> zlookup (tr_stack t) si = Some s ->
  push_quad_son dflt si son k cs t = Ok (tt, t') ->
  tr_top t' = tr_top t + 1 /\ has_cr (tr_top t) (move_to_son (st_cr s) son) t'.
Proof.
  intros Hwf Hsi Hs H.
  destruct (push_quad_son_unvisited dflt si son k cs t tt t' Hwf H) as (Htop & _).
  split; [exact Htop |].
  unfold push_quad_son in H.
  apply bind_ok in H as (ns & t1 & Hpush & H).
  apply bind_ok in H as (s0 & t0 & Hs0 & H). apply slot_ok in Hs0 as [Hs0 ->].
  apply bind_ok in H as ([] & t2 & Hupd & H).
  destruct (push_with_cr si s _ t ns t1 t2 Hwf Hsi Hs Hpush Hupd)
    as (-> & Hne & Hwf2 & Hnum2 & Hhas & Hs1 & _).
  assert (s0 = s) by congruence. subst s0.
  apply bind_ok in H as (num & t0 & Hg & H). apply gets_ok in Hg as [-> ->].
  assert (Hw : writes (tr_top t) (fun _ _ => True) t2 t').
  { refine (respects_for_loop (writes (tr_top t) (fun _ _ => True)) _ 0 _ _ t2 tt t' H).
    intros j. eapply respects_weaken; [| apply (quad_mesh_writes dflt si (tr_top t) son k cs j)].
    intros f i _. exact I. }
  exact (has_cr_writes _ _ _ _ _ Hwf2 Hw Hhas).
Qed.

Lemma push_quad_single_rectangle si cs s t t' :
  wf t -> 0 <= si < tr_top t -> zlookup (tr_stack t) si = Some s ->
  push_quad_single si cs t = Ok (tt, t') ->
  tr_top t' = tr_top t + 1 /\ has_cr (tr_top t) (st_cr s) t'.
Proof.
  intros Hwf Hsi Hs H.
  destruct (push_quad_single_unvisited si cs t tt t' Hwf H) as (Htop & _).
  split; [exact Htop |].
  unfold push_quad_single in H.
  apply bind_ok in H as (ns & t1 & Hpush & H).
  apply bind_ok in H as (s0 & t0 & Hs0 & H). apply slot_ok in Hs0 as [Hs0 ->].
  apply bind_ok in H as ([] & t2 & Hupd & H).
  destruct (push_with_cr si s _ t ns t1 t2 Hwf Hsi Hs Hpush Hupd)
    as (-> & Hne & Hwf2 & Hnum2 & Hhas & Hs1 & _).
  assert (s0 = s) by congruence. subst s0.
  apply bind_ok in H as (num & t0 & Hg & H). apply gets_ok in Hg as [-> ->].
  assert (Hw : writes (tr_top t) (fun _ _ => True) t2 t').
  { refine (respects_for_loop (writes (tr_top t) (fun _ _ => True)) _ 0 _ _ t2 tt t' H).
    intros j. eapply respects_weaken; [| apply (single_mesh_writes si (tr_top t) cs j)].
    intros f i _. exact I. }
  exact (has_cr_writes _ _ _ _ _ Hwf2 Hw Hhas).
Qed.

(** A loop that pushes the sons [i], [i + 1], ... of the state [s]. *)
Lemma for_loop_rects si s (body : Z -> M unit) (P : Rect -> Prop) n :
  (forall j t t', wf t -> 0 <= si < tr_top t -> zlookup (tr_stack t) si = Some s ->
     body j t = Ok (tt, t') ->
     tr_top t' = tr_top t + 1 /\ has_cr (tr_top t) (move_to_son (st_cr s) j) t') ->
  (forall k j, respects (above k) (body j)) ->
  forall i t t',
  wf t -> 0 <= si < tr_top t -> zlookup (tr_stack t) si = Some s ->
  (forall j, i <= j < i + Z.of_nat n -> P (move_to_son (st_cr s) j)) ->
  for_loop n i body t = Ok (tt, t') ->
  tr_top t' = tr_top t + Z.of_nat n /\
  forall j s', tr_top t <= j < tr_top t + Z.of_nat n ->
    zlookup (tr_stack t') j = Some s' -> P (st_cr s').
Proof.
  intros Hpush Habove.
  induction n as [| n IH]; intros i t t' Hwf Hsi Hs HP H; cbn [for_loop] in H.
  - apply ret_ok in H as [_ ->]. split; [lia | intros j s' Hj; lia].
  - apply bind_ok in H as ([] & t1 & H1 & H).
    destruct (Hpush i t t1 Hwf Hsi Hs H1) as (Htop1 & s1 & Hs1 & Hcr1).
    destruct (Habove (tr_top t) i t tt t1 H1 (conj Hwf (fun _ => Z.le_refl _)))
      as ((Hwf1 & _) & _ & _ & _ & Hkeep1).
    destruct (Hkeep1 si s Hsi Hs) as [Hs_1 _].
    destruct (IH (i + 1) t1 t' Hwf1 ltac:(lia) Hs_1 ltac:(intros j Hj; apply HP; lia) H)
      as (Htop' & Hrest).
    split; [lia |]. intros j s' Hj Hs'.
    destruct (Z.eq_dec j (tr_top t)) as [-> | Hne].
    + assert (Ha : above (tr_top t1) t1 t').
      { refine (respects_for_loop (above (tr_top t1)) n (i + 1) body _ t1 tt t' H).
        intros j'. apply Habove. }
      destruct (Ha (conj Hwf1 (fun _ => Z.le_refl _))) as (_ & _ & _ & _ & Hkeep).
      destruct (Hkeep (tr_top t) s1 ltac:(lia) Hs1) as [Hs1' _].
      assert (s' = s1) by congruence. subst s'. rewrite Hcr1. apply HP. lia.
    + apply (Hrest j s'); [lia | exact Hs'].
Qed.

(** The rectangles of the sons of a quadrilateral state: a son is cut
    from the rectangle of its parent only where the midpoint of a refined
    element lies strictly inside it, so a rectangle of the coordinate
    range with a positive width and height has sons of that kind.  With
    the unit square of the root state this is the invariant under which
    [init_transforms] is called. *)
Lemma push_sons_rectangles dflt si s t t' :
  wf t -> 0 <= si < tr_top t -> zlookup (tr_stack t) si = Some s ->
  cr_ok (st_cr s) ->
  State_is_triangle si t = Ok (false, t) ->
  push_sons dflt si t = Ok (tt, t') ->
  forall j s', tr_top t <= j < tr_top t' -> zlookup (tr_stack t') j = Some s' ->
               cr_ok (st_cr s').
Proof.
  intros Hwf Hsi Hs Hok Htri H. unfold push_sons in H.
  apply bind_ok in H as (tri & t0 & Htri' & H).
  rewrite Htri in Htri'. injection Htri' as <- <-.
  apply bind_ok in H as (num & t0 & Hg & H). apply gets_ok in Hg as [-> ->].
  apply bind_ok in H as ([split cs] & t0 & Hss & H).
  pose proof (split_and_sons_room _ si 0 0 [] t split cs t0 s Hs (room_zero _) Hss) as Hroom.
  pose proof (respects_split_and_sons eq _ _ _ _ _ _ _ _ Hss) as <-.
  pose proof Hroom as (Hrange & _).
  destruct (Z.eqb_spec split 3) as [-> | Hne3].
  - destruct (for_loop_rects si s _ cr_ok 4
                (fun j ta tb => push_quad_son_rectangle dflt si j j cs s ta tb)
                (fun k j => above_push_quad_son k dflt si j j cs)
                0 t t' Hwf Hsi Hs) as (Htop & Hall); [| exact H |].
    + intros j Hj. apply (split_son_ok _ 3 j Hok Hroom). left. split; [reflexivity | lia].
    + intros j s' Hj. apply Hall. lia.
  - destruct (Z.ltb_spec 0 split) as [Hpos | Hzero].
    + destruct (for_loop_rects si s _ cr_ok 2
                  (fun j ta tb => push_quad_son_rectangle dflt si j
                                    (if (j =? 4) || (j =? 6) then 0 else 2) cs s ta tb)
                  (fun k j => above_push_quad_son k dflt si j
                                (if (j =? 4) || (j =? 6) then 0 else 2) cs)
                  (if split =? 2 then 6 else 4) t t' Hwf Hsi Hs) as (Htop & Hall);
        [| exact H |].
      * intros j Hj. apply (split_son_ok _ split j Hok Hroom).
        destruct (Z.eqb_spec split 2) as [-> | Hne2].
        -- right. right. split; [reflexivity | lia].
        -- right. left. split; lia.
      * intros j s' Hj. apply Hall. lia.
    + destruct (push_quad_single_rectangle si cs s t t' Hwf Hsi Hs H) as (Htop & s1 & Hs1 & Hcr).
      intros j s' Hj Hs'. assert (j = tr_top t) by lia. subst j.
      assert (s' = s1) by congruence. subst s'. rewrite Hcr. exact Hok.
Qed.

(** The unit square of the root state. *)
Lemma unity_ok ONE : 0 < ONE <= 2 ^ 63 -> cr_ok (H2D_UNITY ONE).
Proof.
  intros H. unfold cr_ok, in_range, nondegenerate, H2D_UNITY. cbn [r_l r_b r_r r_t].
  repeat split; lia.
Qed.

(** *** States of one kind *)

Lemma kind_tree_unfold tri e :
  kind_tree tri e
  = Bool.eqb (el_is_triangle e) tri &&
    forallb (fun c => match c with Some c' => kind_tree tri c' | None => true end) (el_sons e).
Proof. destruct e; reflexivity. Qed.

Lemma kind_tree_kind tri e : kind_tree tri e = true -> el_is_triangle e = tri.
Proof.
  rewrite kind_tree_unfold. intros H. apply andb_true_iff in H as [H _].
  apply Bool.eqb_prop. exact H.
Qed.

Lemma kind_tree_son tri e k c :
  kind_tree tri e = true -> zlookup (el_sons e) k = Some (Some c) -> kind_tree tri c = true.
Proof.
  rewrite kind_tree_unfold. intros H Hc. apply andb_true_iff in H as [_ H].
  rewrite forallb_forall in H. apply zlookup_Some in Hc as [_ Hc].
  apply (H (Some c)). apply list_elem_of_In. eapply list_elem_of_lookup_2. exact Hc.
Qed.

(** A state of triangles that is not of the triangle kind holds no
    element. *)
Lemma tri_node_kind ms :
  (forall e x, (Some e, x) ∈ ms -> kind_tree true e = true) ->
  spec_is_triangle ms = false -> spec_leaf ms = true.
Proof.
  induction ms as [| [[e |] x] ms IH]; intros Hk Htri; [reflexivity | |].
  - cbn [spec_is_triangle] in Htri.
    rewrite (kind_tree_kind true e (Hk e x ltac:(left))) in Htri. discriminate Htri.
  - unfold spec_leaf. cbn [forallb fst andb]. apply IH; [| exact Htri].
    intros e' x' Hin. apply (Hk e' x'). right. exact Hin.
Qed.

Lemma quad_node_kind ms :
  (forall e x, (Some e, x) ∈ ms -> kind_tree false e = true) ->
  spec_is_triangle ms = false.
Proof.
  induction ms as [| [[e |] x] ms IH]; intros Hk; [reflexivity | |].
  - cbn [spec_is_triangle]. exact (kind_tree_kind false e (Hk e x ltac:(left))).
  - cbn [spec_is_triangle]. apply IH. intros e' x' Hin. apply (Hk e' x'). right. exact Hin.
Qed.

Lemma mapM_elem {A B : Type} (f : A -> option B) l k y :
  mapM f l = Some k -> y ∈ k -> exists x, x ∈ l /\ f x = Some y.
Proof.
  intros H Hy. apply list_elem_of_lookup in Hy as [i Hi].
  destruct (mapM_lookup f l k i y H Hi) as (x & Hx & Hf).
  exists x. split; [eapply list_elem_of_lookup_2; exact Hx | exact Hf].
Qed.

(** The sons of a state of triangles are states of triangles. *)
Lemma tri_node_son nd son ms' :
  tri_node nd -> mapM (spec_tri_mesh son) (nd_meshes nd) = Some ms' ->
  tri_node (mkNode None ms').
Proof.
  intros Hk Hms e' x' Hin. cbn [nd_meshes] in Hin.
  destruct (mapM_elem _ _ _ _ Hms Hin) as ([p x] & Hm & Hg).
  unfold spec_tri_mesh in Hg. cbn [fst] in Hg.
  destruct p as [e |]; [| discriminate Hg].
  pose proof (Hk e x Hm) as He.
  destruct (negb (el_used e)); [discriminate Hg |].
  destruct (el_active e); [injection Hg as <- _; exact He |].
  destruct (zlookup (el_sons e) son) as [[c |] |] eqn:Hc; try discriminate Hg.
  injection Hg as <- _. exact (kind_tree_son true e son c He Hc).
Qed.

(** The sons of a state of quadrilaterals are states of quadrilaterals. *)
Lemma quad_node_son nd cr cr' k keep ms' :
  quad_node nd -> mapM (spec_quad_mesh cr k keep) (nd_meshes nd) = Some ms' ->
  quad_node (mkNode (Some cr') ms').
Proof.
  intros [_ Hk] Hms. split; [eexists; reflexivity |].
  intros e' x' Hin. cbn [nd_meshes] in Hin.
  destruct (mapM_elem _ _ _ _ Hms Hin) as ([p x] & Hm & Hg).
  unfold spec_quad_mesh in Hg. cbn [fst snd] in Hg.
  destruct p as [e |]; [| discriminate Hg].
  destruct (Hk e x Hm) as [He Hx].
  destruct (negb (el_used e)); [discriminate Hg |].
  destruct (el_active e) eqn:Hact.
  - injection Hg as <- _. split; [exact He |]. intros Hf. congruence.
  - destruct x as [x |]; [| discriminate Hg].
    destruct (zlookup (snd (get_split_and_sons e cr x)) k) as [code |]; [| discriminate Hg].
    unfold spec_moved in Hg.
    destruct (zlookup (el_sons e) (Z.land code 3)) as [[c |] |] eqn:Hc; try discriminate Hg.
    injection Hg as <- <-. split; [exact (kind_tree_son false e _ c He Hc) |].
    intros _. eexists; reflexivity.
Qed.

(** The cuts of a state of quadrilaterals are defined. *)
Lemma spec_split_defined cr ms : forall split,
  (forall e x, (Some e, x) ∈ ms -> el_active e = false -> is_Some x) ->
  is_Some (spec_split cr ms split).
Proof.
  induction ms as [| [[e |] x] ms IH]; intros split Hk; cbn [spec_split].
  - eexists; reflexivity.
  - assert (Hrest : forall sp, is_Some (spec_split cr ms sp)).
    { intros sp. apply IH. intros e' x' Hin. apply (Hk e' x'). right. exact Hin. }
    destruct (negb (el_active e)) eqn:Hact; [| apply Hrest].
    destruct (Hk e x ltac:(left)) as [x0 ->]; [| apply Hrest].
    apply negb_true_iff in Hact. exact Hact.
  - apply IH. intros e' x' Hin. apply (Hk e' x'). right. exact Hin.
Qed.

(** The enumeration below a state with more fuel. *)
Lemma spec_visit_mono sp F : forall F' nd ks,
  (F <= F')%nat -> spec_visit F sp nd = Some ks -> spec_visit F' sp nd = Some ks.
Proof.
  induction F as [| F IH]; intros F' nd ks Hle H; [discriminate H |].
  destruct F' as [| F']; [lia |]. cbn [spec_visit] in H |- *.
  destruct (spec_leaf (nd_meshes nd)); [exact H |].
  destruct (spec_sons nd) as [sons |]; [| discriminate H]. cbn in H |- *.
  apply fmap_Some in H as (kss & Hkss & ->).
  assert (Hkss' : mapM (spec_visit F' sp) (rev sons) = Some kss).
  { apply mapM_Some. apply mapM_Some in Hkss.
    eapply Forall2_impl; [exact Hkss |]. intros x y Hxy. apply (IH F' x y); [lia | exact Hxy]. }
  rewrite Hkss'. reflexivity.
Qed.

Lemma spec_bases_mono ONE meshes num sp F : forall F' depth depth' id ks,
  (F <= F')%nat -> (depth <= depth')%nat ->
  spec_bases F ONE depth meshes num sp id = Some ks ->
  spec_bases F' ONE depth' meshes num sp id = Some ks.
Proof.
  induction F as [| F IH]; intros F' depth depth' id ks Hle Hd H; [discriminate H |].
  destruct F' as [| F']; [lia |]. cbn [spec_bases] in H |- *.
  destruct (zlookup meshes 0) as [m0 |]; [| discriminate H]. cbn in H |- *.
  destruct (mesh_num_base m0 <=? id); [exact H |].
  destruct (spec_root ONE meshes num id) as [nd |]; [| discriminate H]. cbn in H |- *.
  destruct (existsb _ (nd_meshes nd)).
  - destruct (spec_visit depth sp nd) as [ks1 |] eqn:Hks1; [| discriminate H].
    rewrite (spec_visit_mono sp depth depth' nd ks1 Hd Hks1). cbn in H |- *.
    destruct (spec_bases F ONE depth meshes num sp (id + 1)) as [rest |] eqn:Hrest;
      [| discriminate H].
    rewrite (IH F' depth depth' (id + 1) rest ltac:(lia) Hd Hrest). exact H.
  - apply (IH F' depth depth' (id + 1) ks ltac:(lia) Hd H).
Qed.

(** *** The sons that the traversal pushes are those of the enumeration *)

Lemma triangle_mesh_defined si ns son (i : nat) m t1 t2 :
  mesh_cells t1 si i m ->
  triangle_mesh si ns son (Z.of_nat i) t1 = Ok (tt, t2) -> is_Some (spec_tri_mesh son m).
Proof.
  intros Hm H. destruct m as [p x]. cbn beta in H.
  apply bind_ok in H as (v & t0 & Hv & H).
  destruct (mesh_cells_get_e _ _ _ _ _ _ _ Hm Hv) as [-> ->].
  unfold spec_tri_mesh. cbn [fst].
  destruct p as [e |]; [| eexists; reflexivity].
  destruct (negb (el_used e)); [eexists; reflexivity |].
  destruct (el_active e); [eexists; reflexivity |].
  unfold son_at in H.
  destruct (zlookup (el_sons e) son) as [[c |] |]; [eexists; reflexivity | |].
  - apply bind_ok in H as (c0 & t0 & Hret & H). apply ret_ok in Hret as [-> ->].
    apply bind_ok in H as (u & t3 & _ & H).
    apply bind_ok in H as (ce & t4 & Hd & _). discriminate Hd.
  - apply bind_ok in H as (c0 & t0 & Hret & _). discriminate Hret.
Qed.

Lemma moved_quad_defined si ns k cr ms (i : nat) e x t1 t2 :
  ms !! i = Some (Some e, Some x) -> el_active e = false ->
  (let* code := current_son (spec_table cr ms) (Z.of_nat i) k in
   move_element si ns (Z.of_nat i) e code) t1 = Ok (tt, t2) ->
  is_Some (match zlookup (snd (get_split_and_sons e cr x)) k with
           | Some code => spec_moved e code x
           | None => None
           end).
Proof.
  intros Hm Hact H. rewrite (spec_table_lookup cr ms i e x k Hm Hact) in H.
  destruct (zlookup (snd (get_split_and_sons e cr x)) k) as [code |];
    [| apply bind_ok in H as (c0 & t0 & Hret & _); discriminate Hret].
  apply bind_ok in H as (c0 & t0 & Hret & H). apply ret_ok in Hret as [-> ->].
  unfold spec_moved. unfold move_element, son_at in H.
  destruct (zlookup (el_sons e) (Z.land code 3)) as [[c |] |]; [eexists; reflexivity | |].
  - apply bind_ok in H as (c1 & t3 & Hret & H). apply ret_ok in Hret as [-> ->].
    apply bind_ok in H as (u1 & t4 & _ & H).
    apply bind_ok in H as (x1 & t5 & _ & H).
    apply bind_ok in H as (u2 & t6 & _ & H).
    apply bind_ok in H as (ce & t7 & Hd & _). discriminate Hd.
  - apply bind_ok in H as (c1 & t3 & Hret & _). discriminate Hret.
Qed.

Lemma quad_mesh_defined dflt si ns son k cr keep ms (i : nat) m t1 t2 :
  ms !! i = Some m ->
  (forall e, fst m = Some e -> el_active e = false -> is_Some (snd m)) ->
  mesh_cells t1 si i m ->
  quad_mesh dflt si ns son k (spec_table cr ms) (Z.of_nat i) t1 = Ok (tt, t2) ->
  is_Some (spec_quad_mesh cr k keep m).
Proof.
  intros Hi Hx Hm H. destruct m as [p x]. cbn beta in H.
  apply bind_ok in H as (v & t0 & Hv & H).
  destruct (mesh_cells_get_e _ _ _ _ _ _ _ Hm Hv) as [-> ->].
  unfold spec_quad_mesh. cbn [fst snd] in *.
  destruct p as [e |]; [| eexists; reflexivity].
  destruct (negb (el_used e)); [eexists; reflexivity |].
  destruct (el_active e) eqn:Hact; [eexists; reflexivity |].
  destruct (Hx e eq_refl Hact) as [x0 ->].
  exact (moved_quad_defined si ns k cr ms i e x0 t1 t2 Hi Hact H).
Qed.

Lemma single_mesh_defined si ns cr keep ms (i : nat) m t1 t2 :
  ms !! i = Some m ->
  (forall e, fst m = Some e -> el_active e = false -> is_Some (snd m)) ->
  mesh_cells t1 si i m ->
  single_mesh si ns (spec_table cr ms) (Z.of_nat i) t1 = Ok (tt, t2) ->
  is_Some (spec_quad_mesh cr 0 keep m).
Proof.
  intros Hi Hx Hm H. destruct m as [p x]. cbn beta in H.
  apply bind_ok in H as (v & t0 & Hv & H).
  destruct (mesh_cells_get_e _ _ _ _ _ _ _ Hm Hv) as [-> ->].
  unfold spec_quad_mesh. cbn [fst snd] in *.
  destruct p as [e |]; [| eexists; reflexivity].
  destruct (negb (el_used e)); [eexists; reflexivity |].
  destruct (el_active e) eqn:Hact; [eexists; reflexivity |].
  destruct (Hx e eq_refl Hact) as [x0 ->].
  exact (moved_quad_defined si ns 0 cr ms i e x0 t1 t2 Hi Hact H).
Qed.

Section NodeLoopDefined.
Variables (si ns : Z) (body : Z -> M unit).
Variable g : option Element * option Rect -> option (option Element * option Rect).
Variable ms : list (option Element * option Rect).
Hypothesis Hne : si <> ns.
Hypothesis Hframe : forall j,
  respects (writes ns (fun f k => f = FIDX \/ k = j)) (body j).
Hypothesis Hdef : forall (i : nat) m t1 t2,
  ms !! i = Some m -> mesh_cells t1 si i m -> body (Z.of_nat i) t1 = Ok (tt, t2) ->
  is_Some (g m).

Lemma node_loop_defined n : forall (i0 : nat) t t',
  wf t -> (forall i m, ms !! i = Some m -> mesh_cells t si i m) ->
  for_loop n (Z.of_nat i0) body t = Ok (tt, t') ->
  forall i m, (i0 <= i < i0 + n)%nat -> ms !! i = Some m -> is_Some (g m).
Proof.
  induction n as [| n IH]; intros i0 t t' Hwf Hms H i m Hi Hm; cbn [for_loop] in H; [lia |].
  apply bind_ok in H as ([] & t1 & H1 & H).
  pose proof (Hframe _ t tt t1 H1) as H01.
  destruct (H01 Hwf) as (Hwf1 & _).
  replace (Z.of_nat i0 + 1) with (Z.of_nat (S i0)) in H by lia.
  destruct (decide (i = i0)) as [-> | Hne0].
  - exact (Hdef i0 m t t1 Hm (Hms i0 m Hm) H1).
  - apply (IH (S i0) t1 t' Hwf1
               (fun i m Hm => mesh_cells_other _ _ _ _ _ _ _ Hwf Hne H01 (Hms i m Hm)) H i m);
      [lia | exact Hm].
Qed.

Lemma node_loop_mapM t t' :
  wf t -> (forall i m, ms !! i = Some m -> mesh_cells t si i m) ->
  for_loop (length ms) 0 body t = Ok (tt, t') -> is_Some (mapM g ms).
Proof.
  intros Hwf Hms H. apply mapM_is_Some_2. apply Forall_lookup_2. intros i m Hm.
  pose proof (lookup_lt_Some _ _ _ Hm) as Hlt.
  exact (node_loop_defined (length ms) 0 t t' Hwf Hms H i m ltac:(lia) Hm).
Qed.

End NodeLoopDefined.

Lemma push_triangle_son_defined si son t t' nd :
  wf t -> 0 <= si < tr_top t -> holds t si nd ->
  push_triangle_son si son t = Ok (tt, t') ->
  is_Some (mapM (spec_tri_mesh son) (nd_meshes nd)).
Proof.
  intros Hwf Hsi Hh H. unfold push_triangle_son in H.
  apply bind_ok in H as (ns & t1 & Hpush & H).
  destruct (push_state_node si nd t ns t1 Hwf Hsi Hh Hpush)
    as (-> & Hne & Hwf1 & Hnum1 & Hh1 & s1 & Hs1).
  apply bind_ok in H as (num & t0 & Hg & H). apply gets_ok in Hg as [-> ->].
  apply bind_ok in H as ([] & t2 & Hloop & H).
  destruct Hh1 as (s & Hs & _ & _ & Hlen & Hcells).
  rewrite <- Hlen in Hloop.
  exact (node_loop_mapM si (tr_top t) (triangle_mesh si (tr_top t) son)
           (spec_tri_mesh son) (nd_meshes nd) Hne
           (triangle_mesh_writes si (tr_top t) son)
           (fun i m ta tb _ => triangle_mesh_defined si (tr_top t) son i m ta tb)
           t1 t2 Hwf1 Hcells Hloop).
Qed.

Lemma quad_node_er nd (i : nat) m :
  quad_node nd -> nd_meshes nd !! i = Some m ->
  forall e, fst m = Some e -> el_active e = false -> is_Some (snd m).
Proof.
  intros [_ Hk] Hm e He Hact. destruct m as [p x]. cbn [fst snd] in *. subst p.
  apply (Hk e x); [eapply list_elem_of_lookup_2; exact Hm | exact Hact].
Qed.

Lemma push_quad_son_defined dflt si son k t t' nd cr :
  wf t -> 0 <= si < tr_top t -> holds t si nd -> quad_node nd ->
  push_quad_son dflt si son k (spec_table cr (nd_meshes nd)) t = Ok (tt, t') ->
  is_Some (mapM (spec_quad_mesh cr k None) (nd_meshes nd)).
Proof.
  intros Hwf Hsi Hh Hq H. unfold push_quad_son in H.
  apply bind_ok in H as (ns & t1 & Hpush & H).
  apply bind_ok in H as (s0 & t0 & Hs0 & H). apply slot_ok in Hs0 as [Hs0 ->].
  apply bind_ok in H as ([] & t2 & Hupd & H).
  destruct (quad_start si nd _ t ns t1 t2 Hwf Hsi Hh Hpush Hupd)
    as (-> & Hne & Hwf2 & Hnum2 & Hhas & _ & Hcells).
  apply bind_ok in H as (num & t0 & Hg & H). apply gets_ok in Hg as [-> ->].
  destruct Hh as (_ & _ & _ & _ & Hlen & _).
  rewrite Hnum2, <- Hlen in H.
  exact (node_loop_mapM si (tr_top t)
           (quad_mesh dflt si (tr_top t) son k (spec_table cr (nd_meshes nd)))
           (spec_quad_mesh cr k None) (nd_meshes nd) Hne
           (quad_mesh_writes dflt si (tr_top t) son k _)
           (fun i m ta tb Hm =>
              quad_mesh_defined dflt si (tr_top t) son k cr None (nd_meshes nd) i m ta tb
                                Hm (quad_node_er nd i m Hq Hm))
           t2 t' Hwf2 Hcells H).
Qed.

Lemma push_quad_single_defined si t t' nd cr keep :
  wf t -> 0 <= si < tr_top t -> holds t si nd -> quad_node nd ->
  push_quad_single si (spec_table cr (nd_meshes nd)) t = Ok (tt, t') ->
  is_Some (mapM (spec_quad_mesh cr 0 keep) (nd_meshes nd)).
Proof.
  intros Hwf Hsi Hh Hq H. unfold push_quad_single in H.
  apply bind_ok in H as (ns & t1 & Hpush & H).
  apply bind_ok in H as (s0 & t0 & Hs0 & H). apply slot_ok in Hs0 as [Hs0 ->].
  apply bind_ok in H as ([] & t2 & Hupd & H).
  destruct (quad_start si nd _ t ns t1 t2 Hwf Hsi Hh Hpush Hupd)
    as (-> & Hne & Hwf2 & Hnum2 & Hhas & _ & Hcells).
  apply bind_ok in H as (num & t0 & Hg & H). apply gets_ok in Hg as [-> ->].
  destruct Hh as (_ & _ & _ & _ & Hlen & _).
  rewrite Hnum2, <- Hlen in H.
  exact (node_loop_mapM si (tr_top t)
           (single_mesh si (tr_top t) (spec_table cr (nd_meshes nd)))
           (spec_quad_mesh cr 0 keep) (nd_meshes nd) Hne
           (single_mesh_writes si (tr_top t) _)
           (fun i m ta tb Hm =>
              single_mesh_defined si (tr_top t) cr keep (nd_meshes nd) i m ta tb
                                  Hm (quad_node_er nd i m Hq Hm))
           t2 t' Hwf2 Hcells H).
Qed.

(** A loop that pushes one son per round and returns: the sons of the
    enumeration are defined. *)
Lemma for_loop_defined si nd (body : Z -> M unit) (F : Z -> option Node) n :
  (forall j t t', wf t -> 0 <= si < tr_top t -> holds t si nd ->
     body j t = Ok (tt, t') -> tr_top t' = tr_top t + 1 /\ is_Some (F j)) ->
  (forall k j, respects (above k) (body j)) ->
  forall i t t',
  wf t -> 0 <= si < tr_top t -> holds t si nd ->
  for_loop n i body t = Ok (tt, t') -> is_Some (mapM F (loop_indices n i)).
Proof.
  intros Hpush Habove.
  induction n as [| n IH]; intros i t t' Hwf Hsi Hh H; cbn [for_loop loop_indices] in H |- *.
  - eexists; reflexivity.
  - apply bind_ok in H as ([] & t1 & H1 & H).
    destruct (Hpush i t t1 Hwf Hsi Hh H1) as (Htop1 & Hdef).
    pose proof (Habove (tr_top t) i t tt t1 H1) as Ha.
    destruct (Ha (conj Hwf (fun _ => Z.le_refl _))) as ((Hwf1 & _) & Hnum1 & _).
    pose proof (frame_below_above _ t t1 Hwf (fun _ => Z.le_refl _) Ha) as Hf1.
    pose proof (holds_frame _ t t1 si nd Hnum1 Hf1 Hsi Hh) as Hh1.
    pose proof (IH (i + 1) t1 t' Hwf1 ltac:(lia) Hh1 H) as Hrest.
    apply mapM_is_Some_2. constructor; [exact Hdef |].
    apply mapM_is_Some_1. exact Hrest.
Qed.

Lemma push_sons_defined dflt si t t' nd :
  wf t -> 0 <= si < tr_top t -> holds t si nd -> one_kind nd ->
  spec_leaf (nd_meshes nd) = false ->
  push_sons dflt si t = Ok (tt, t') ->
  exists sons, spec_sons nd = Some sons /\ Forall one_kind sons.
Proof.
  intros Hwf Hsi Hh Hkind Hleaf H. unfold push_sons in H.
  apply bind_ok in H as (tri & t0 & Htri & H).
  destruct (holds_is_triangle t si nd tri t0 Hh Htri) as [-> ->].
  unfold spec_sons.
  destruct (spec_is_triangle (nd_meshes nd)) eqn:Hkd.
  - assert (Ht : tri_node nd).
    { destruct Hkind as [Ht | [_ Hq]]; [exact Ht |].
      rewrite (quad_node_kind (nd_meshes nd)) in Hkd; [discriminate Hkd |].
      intros e x Hin. exact (proj1 (Hq e x Hin)). }
    destruct (for_loop_defined si nd _
                (fun son => mkNode None <$> mapM (spec_tri_mesh son) (nd_meshes nd)) 4
                (fun j ta tb Hwfa Hsia Hha Hb =>
                   conj (proj1 (push_triangle_son_unvisited si j ta tt tb Hwfa Hb))
                        (proj2 (fmap_is_Some _ _)
                           (push_triangle_son_defined si j ta tb nd Hwfa Hsia Hha Hb)))
                (fun k j => above_push_triangle_son k si j)
                0 t t' Hwf Hsi Hh H) as [sons Hsons].
    exists sons. split; [exact Hsons |].
    apply Forall_forall. intros sd Hsd.
    destruct (mapM_elem _ _ _ _ Hsons Hsd) as (son & _ & Hson).
    apply fmap_Some in Hson as (ms' & Hms' & ->).
    left. exact (tri_node_son nd son ms' Ht Hms').
  - assert (Hq : quad_node nd).
    { destruct Hkind as [Ht | Hq]; [| exact Hq].
      rewrite (tri_node_kind (nd_meshes nd) Ht Hkd) in Hleaf. discriminate Hleaf. }
    pose proof Hq as [[cr Hcr] Hk]. rewrite Hcr.
    destruct (spec_split_defined cr (nd_meshes nd) 0) as [split0 Hsp].
    { intros e x Hin. exact (proj2 (Hk e x Hin)). }
    rewrite Hsp.
    apply bind_ok in H as (num & t0 & Hg & H). apply gets_ok in Hg as [-> ->].
    apply bind_ok in H as ([split cs] & t0 & Hss & H).
    pose proof Hh as (s & Hs & _ & Hc & Hlen & Hcells).
    destruct (split_and_sons_spec si cr (Z.to_nat (tr_num t)) 0 0 [] t (nd_meshes nd)
                split0 (split, cs) t0 Hlen
                (ex_intro _ s (conj Hs (Hc cr Hcr))) Hcells Hsp Hss) as [-> Heq].
    injection Heq as -> ->.
    change ([] ++ spec_table cr (nd_meshes nd)) with (spec_table cr (nd_meshes nd)) in H.
    destruct (split0 =? 3).
    + destruct (for_loop_defined si nd _
                  (fun son => mkNode (Some (move_to_son cr son))
                                <$> mapM (spec_quad_mesh cr son None) (nd_meshes nd)) 4
                  (fun j ta tb Hwfa Hsia Hha Hb =>
                     conj (proj1 (push_quad_son_unvisited dflt si j j _ ta tt tb Hwfa Hb))
                          (proj2 (fmap_is_Some _ _)
                             (push_quad_son_defined dflt si j j ta tb nd cr Hwfa Hsia Hha Hq Hb)))
                  (fun k j => above_push_quad_son k dflt si j j _)
                  0 t t' Hwf Hsi Hh H) as [sons Hsons].
      exists sons. split; [exact Hsons |].
      apply Forall_forall. intros sd Hsd.
      destruct (mapM_elem _ _ _ _ Hsons Hsd) as (son & _ & Hson).
      apply fmap_Some in Hson as (ms' & Hms' & ->).
      right. exact (quad_node_son nd cr _ _ None ms' Hq Hms').
    + destruct (0 <? split0).
      * destruct (for_loop_defined si nd _
                    (fun son => mkNode (Some (move_to_son cr son))
                                  <$> mapM (spec_quad_mesh cr
                                              (if (son =? 4) || (son =? 6) then 0 else 2) None)
                                           (nd_meshes nd)) 2
                    (fun j ta tb Hwfa Hsia Hha Hb =>
                       conj (proj1 (push_quad_son_unvisited dflt si j _ _ ta tt tb Hwfa Hb))
                            (proj2 (fmap_is_Some _ _)
                               (push_quad_son_defined dflt si j
                                  (if (j =? 4) || (j =? 6) then 0 else 2)
                                  ta tb nd cr Hwfa Hsia Hha Hq Hb)))
                    (fun k j => above_push_quad_son k dflt si j
                                  (if (j =? 4) || (j =? 6) then 0 else 2) _)
                    _ t t' Hwf Hsi Hh H) as [sons Hsons].
        exists sons. split; [destruct (split0 =? 2); exact Hsons |].
        apply Forall_forall. intros sd Hsd.
        destruct (mapM_elem _ _ _ _ Hsons Hsd) as (son & _ & Hson).
        apply fmap_Some in Hson as (ms' & Hms' & ->).
        right. exact (quad_node_son nd cr _ _ None ms' Hq Hms').
      * destruct (push_quad_single_defined si t t' nd cr (Some cr) Hwf Hsi Hh Hq H)
          as [ms' Hms'].
        exists [mkNode (Some cr) ms']. rewrite Hms'. split; [reflexivity |].
        constructor; [| constructor].
        right. exact (quad_node_son nd cr cr 0 (Some cr) ms' Hq Hms').
Qed.

(** *** The enumeration is defined where the traversal returns *)

Lemma mapM_mono_fuel sp F F' l kss :
  (F <= F')%nat -> mapM (spec_visit F sp) l = Some kss -> mapM (spec_visit F' sp) l = Some kss.
Proof.
  intros Hle H. apply mapM_Some. apply mapM_Some in H.
  eapply Forall2_impl; [exact H |]. intros x y Hxy.
  exact (spec_visit_mono sp F F' x y Hle Hxy).
Qed.

Lemma descend_pending_defined ONE dflt f :
  (forall si lc t lc' t' nd,
     wf t -> 0 <= si -> tr_top t = si + 1 -> holds t si nd -> one_kind nd ->
     descend ONE dflt f si lc t = Ok (lc', t') ->
     is_Some (spec_visit f (tr_spaces_size t) nd)) /\
  (forall j lc t lc' t' nds,
     wf t -> 0 <= j -> 0 <= tr_top t <= j + 1 + Z.of_nat (length nds) ->
     (nds <> [] -> tr_top t = j + 1 + Z.of_nat (length nds)) ->
     visited_at t j true ->
     (forall (d : nat) nd, nds !! d = Some nd ->
        holds t (j + 1 + Z.of_nat d) nd /\ visited_at t (j + 1 + Z.of_nat d) false) ->
     Forall one_kind nds ->
     pending ONE dflt f j lc t = Ok (lc', t') ->
     is_Some (mapM (spec_visit f (tr_spaces_size t)) (rev nds))).
Proof.
  induction f as [| f [IHd IHp]].
  - split; intros; discriminate.
  - split.
    + intros si lc t lc' t' nd Hwf Hsi Htop Hh Hkind H.
      rewrite descend_S in H.
      apply bind_ok in H as ([] & t1 & Hent & H).
      destruct (enter_state_node f si t t1 nd Hwf Hsi Hh Hent)
        as (Hwf1 & Hk1 & Htop1 & Hh1 & Hv1 & Hf1).
      destruct (Hk1 Hwf) as (_ & _ & Hnum1 & _ & Hsp1).
      apply bind_ok in H as (it & t2 & Hfin & H).
      unfold finish_state in Hfin.
      apply bind_ok in Hfin as (num & t0 & Hg & Hfin). apply gets_ok in Hg as [-> ->].
      apply bind_ok in Hfin as (leaf & t0 & Hleaf & Hfin).
      destruct (holds_is_leaf t1 si nd leaf t0 Hh1 Hleaf) as [-> ->].
      cbn [spec_visit].
      destruct (spec_leaf (nd_meshes nd)) eqn:Hlf; [eexists; reflexivity |].
      apply bind_ok in Hfin as ([] & t3 & Hpush & Hfin).
      apply ret_ok in Hfin as [Hit Ht2]. subst it t2.
      destruct (push_sons_defined dflt si t1 t3 nd Hwf1 ltac:(lia) Hh1 Hkind Hlf Hpush)
        as (sons & Hsons & Hgood).
      destruct (push_sons_node dflt si t1 t3 nd sons Hwf1 ltac:(lia) Hh1 Hsons Hpush)
        as (Hwf3 & Hnum3 & Htop3 & Hnodes & Hf3).
      pose proof (keeps_push_sons dflt si t1 tt t3 Hpush) as Hk3.
      destruct (Hk3 Hwf1) as (_ & _ & _ & _ & Hsp3).
      destruct (IHp si lc t3 lc' t' sons Hwf3 Hsi ltac:(lia) ltac:(intros _; lia)
                  (visited_at_frame (tr_top t1) t1 t3 si true Hf3 ltac:(lia) Hv1))
        as [kss Hkss]; [| exact Hgood | exact H |].
      { intros d sd Hd. replace (si + 1 + Z.of_nat d) with (tr_top t1 + Z.of_nat d) by lia.
        exact (Hnodes d sd Hd). }
      rewrite Hsp3, Hsp1 in Hkss. rewrite Hsons. cbn. rewrite Hkss. eexists; reflexivity.
    + intros j lc t lc' t' nds Hwf Hj Htop Hfull Hvj Hnodes Hgood H.
      destruct (rev nds) as [| nd rn] eqn:Hrev; [eexists; reflexivity |].
      apply (f_equal (@rev _)) in Hrev. rewrite rev_involutive in Hrev. subst nds.
      cbn [rev] in *.
      rewrite pending_S in H.
      apply bind_ok in H as (top0 & t0 & Hg & H). apply gets_ok in Hg as [-> ->].
      apply bind_ok in H as ([] & tp & Hpop & H).
      apply bind_ok in H as (top & t0 & Hg & H). apply gets_ok in Hg as [-> ->].
      destruct (pop_visited_spec _ t tt tp (Nat.le_refl _) Hpop) as (Htp & Hle & Hstop).
      pose proof (pop_visited_visited _ t tt tp Hpop) as Hvis.
      rewrite length_app, length_rev in Htop, Hfull. cbn [length] in Htop, Hfull.
      assert (Hfull' : tr_top t = j + 1 + Z.of_nat (length rn + 1)).
      { apply Hfull. intros Hnil. apply (f_equal (@length _)) in Hnil.
        rewrite length_app in Hnil. cbn in Hnil. lia. }
      clear Hfull Htop.
      assert (Hlast : (rev rn ++ [nd]) !! length rn = Some nd).
      { rewrite <- (length_rev rn). apply list_lookup_middle. reflexivity. }
      destruct (Hnodes _ _ Hlast) as [Hhn Hvn].
      assert (Hsame : tr_top tp = tr_top t).
      { destruct (Z.eq_dec (tr_top tp) (tr_top t)) as [Heq | Hne]; [exact Heq |].
        destruct Hvn as (s & Hs & Hv).
        pose proof (Hvis (j + 1 + Z.of_nat (length rn)) s ltac:(lia) Hs). congruence. }
      assert (tp = t) by (rewrite Htp, Hsame; apply with_top_same). subst tp.
      destruct (Z.leb_spec (tr_top t) j) as [Hlej | Hgtj]; [lia |].
      apply bind_ok in H as (lc1 & t1 & Hd & H).
      replace (tr_top t - 1) with (j + 1 + Z.of_nat (length rn)) in Hd by lia.
      apply Forall_app in Hgood as [Hgood Hgn]. apply Forall_inv in Hgn.
      destruct (IHd (j + 1 + Z.of_nat (length rn)) lc t lc1 t1 nd Hwf ltac:(lia) ltac:(lia)
                  Hhn Hgn Hd) as [ks_nd Hks].
      pose proof (proj1 (descend_pending_order ONE dflt f) f (j + 1 + Z.of_nat (length rn))
                    lc t lc1 t1 nd ks_nd Hwf ltac:(lia) ltac:(lia) Hhn Hks Hd) as Hdone1.
      destruct Hdone1 as (Hwf1 & Hk1 & Htop1 & Hf1' & Hlow1' & _).
      destruct (Hk1 Hwf) as (_ & _ & Hnum1 & _ & Hsp1).
      destruct (IHp j lc1 t1 lc' t' (rev rn)) as [rest Hrest]; try assumption.
      * rewrite length_rev. lia.
      * intros Hne. rewrite length_rev.
        destruct rn as [| x rn']; [contradiction Hne; reflexivity |].
        cbn [length] in *.
        assert (Hprev : (rev (x :: rn') ++ [nd]) !! length rn' = Some (hd x (x :: rn'))).
        { cbn [rev hd]. rewrite <- app_assoc. cbn [app].
          rewrite <- (length_rev rn'). apply list_lookup_middle. reflexivity. }
        destruct (Hnodes _ _ Hprev) as [_ Hvp].
        pose proof (Hlow1' (j + 1 + Z.of_nat (length rn')) ltac:(lia) ltac:(lia) Hvp).
        lia.
      * exact (visited_at_frame (j + 1 + Z.of_nat (length rn)) t t1 j true Hf1' ltac:(lia) Hvj).
      * intros d sd Hd'. pose proof (lookup_lt_Some _ _ _ Hd') as Hlt.
        rewrite length_rev in Hlt.
        destruct (Hnodes d sd) as [Hhd Hvd].
        { rewrite lookup_app_l by (rewrite length_rev; exact Hlt). exact Hd'. }
        split; [exact (holds_frame (j + 1 + Z.of_nat (length rn)) t t1
                         (j + 1 + Z.of_nat d) sd Hnum1 Hf1' ltac:(lia) Hhd)
               | exact (visited_at_frame (j + 1 + Z.of_nat (length rn)) t t1
                          (j + 1 + Z.of_nat d) false Hf1' ltac:(lia) Hvd)].
      * rewrite rev_involutive, Hsp1 in Hrest.
        apply mapM_is_Some_2. constructor.
        -- exists ks_nd. exact (spec_visit_mono _ f (S f) nd ks_nd ltac:(lia) Hks).
        -- apply mapM_is_Some_1. exists rest.
           exact (mapM_mono_fuel _ f (S f) rn rest ltac:(lia) Hrest).
Qed.

(** *** The base elements of meshes of one kind *)

Lemma spec_root_defined ONE meshes si id t nused t' :
  wf t -> load_base_element ONE (Z.to_nat (tr_num t)) meshes si id 0 0 t = Ok (nused, t') ->
  is_Some (spec_root ONE meshes (tr_num t) id).
Proof.
  intros Hwf H. pose proof Hwf as (Hnum & _).
  destruct (load_base_element_cells ONE _ meshes si id 0 0 t nused t' Hwf ltac:(lia) H)
    as (_ & Hcells).
  unfold spec_root.
  destruct (Z.ltb_spec (Z.of_nat (length meshes)) (tr_num t)) as [Hlt | Hge].
  - exfalso. destruct (Hcells (tr_num t - 1) ltac:(lia)) as (m & e & Hm & _).
    apply zlookup_Some in Hm as [_ Hm]. apply lookup_lt_Some in Hm. lia.
  - apply fmap_is_Some. apply mapM_is_Some_2. apply Forall_lookup_2. intros i m Hi.
    apply lookup_take_Some in Hi as [Hm Hlt].
    destruct (Hcells (Z.of_nat i) ltac:(lia)) as (m' & e & Hm' & He & _).
    apply zlookup_Some in Hm' as [_ Hm']. rewrite Nat2Z.id in Hm'.
    assert (m' = m) by congruence. subst m'.
    unfold compose, spec_root_mesh. rewrite He. eexists; reflexivity.
Qed.

Lemma root_one_kind ONE meshes num id nd m0 :
  uniform_kinds meshes = true -> zlookup meshes 0 = Some m0 ->
  0 <= id < mesh_num_base m0 -> 0 <= num ->
  spec_root ONE meshes num id = Some nd -> one_kind nd.
Proof.
  intros Hu Hm0 Hid Hnum Hnd.
  destruct meshes as [| m0' rest]; [discriminate Hm0 |].
  apply zlookup_Some in Hm0 as [_ Hm0]. cbn in Hm0. injection Hm0 as ->.
  unfold uniform_kinds in Hu. rewrite forallb_forall in Hu.
  specialize (Hu (Z.to_nat id)). rewrite Z2Nat.id in Hu by lia.
  assert (Hk : exists tri, forall m, m ∈ m0 :: rest -> kind_at tri id m = true).
  { destruct (proj1 (orb_true_iff _ _) (Hu ltac:(apply in_seq; lia))) as [Ht | Hq].
    - exists true. intros m Hm. rewrite forallb_forall in Ht.
      apply Ht, list_elem_of_In, Hm.
    - exists false. intros m Hm. rewrite forallb_forall in Hq.
      apply Hq, list_elem_of_In, Hm. }
  destruct Hk as [tri Hk].
  assert (Hrow : forall e x, (Some e, x) ∈ nd_meshes nd ->
                   kind_tree tri e = true /\ x = Some (H2D_UNITY ONE)).
  { intros e x Hin. apply list_elem_of_lookup in Hin as [i Hi].
    destruct (spec_root_row ONE _ num id nd i _ Hnd Hi) as (m & e0 & Hm & He0 & Heq).
    destruct (el_used e0); [| discriminate Heq]. injection Heq as -> ->.
    split; [| reflexivity].
    apply zlookup_Some in Hm as [_ Hm].
    pose proof (Hk m ltac:(eapply list_elem_of_lookup_2; exact Hm)) as Hkm.
    unfold kind_at in Hkm. rewrite He0 in Hkm. exact Hkm. }
  destruct (spec_root_length ONE _ num id nd Hnum Hnd) as [Hcr _].
  destruct tri.
  - left. intros e x Hin. exact (proj1 (Hrow e x Hin)).
  - right. split; [rewrite Hcr; eexists; reflexivity |].
    intros e x Hin. destruct (Hrow e x Hin) as [Hkd ->].
    split; [exact Hkd | intros _; eexists; reflexivity].
Qed.

Lemma spec_bases_done ONE depth meshes num sp id m0 :
  zlookup meshes 0 = Some m0 -> (mesh_num_base m0 <=? id) = true ->
  spec_bases 1 ONE depth meshes num sp id = Some [].
Proof. intros Hm0 Hle. cbn [spec_bases]. rewrite Hm0. cbn. rewrite Hle. reflexivity. Qed.

Lemma spec_bases_skip ONE depth meshes num sp id m0 nd F ks :
  zlookup meshes 0 = Some m0 -> (mesh_num_base m0 <=? id) = false ->
  spec_root ONE meshes num id = Some nd -> spec_some_used (nd_meshes nd) = false ->
  spec_bases F ONE depth meshes num sp (id + 1) = Some ks ->
  spec_bases (S F) ONE depth meshes num sp id = Some ks.
Proof.
  intros Hm0 Hle Hnd Hu H. cbn [spec_bases]. rewrite Hm0. cbn. rewrite Hle, Hnd. cbn.
  fold (spec_some_used (nd_meshes nd)). rewrite Hu. exact H.
Qed.

Lemma spec_bases_visit ONE depth meshes num sp id m0 nd F ks1 rest :
  zlookup meshes 0 = Some m0 -> (mesh_num_base m0 <=? id) = false ->
  spec_root ONE meshes num id = Some nd -> spec_some_used (nd_meshes nd) = true ->
  spec_visit depth sp nd = Some ks1 ->
  spec_bases F ONE depth meshes num sp (id + 1) = Some rest ->
  spec_bases (S F) ONE depth meshes num sp id = Some (ks1 ++ rest).
Proof.
  intros Hm0 Hle Hnd Hu Hks1 H. cbn [spec_bases]. rewrite Hm0. cbn. rewrite Hle, Hnd. cbn.
  fold (spec_some_used (nd_meshes nd)). rewrite Hu, Hks1. cbn. rewrite H. reflexivity.
Qed.

Lemma next_base_element_defined ONE depth meshes si n : forall id t r t',
  wf t -> root_ready ONE si t -> uniform_kinds meshes = true -> 0 <= id ->
  next_base_element ONE n meshes si id t = Ok (r, t') ->
  match r with
  | None =>
      exists F, spec_bases F ONE depth meshes (tr_num t) (tr_spaces_size t) id = Some []
  | Some id' =>
      0 <= id' /\
      exists nd, wf t' /\ holds t' si nd /\ one_kind nd /\
        forall ks1 F' rest,
          spec_visit depth (tr_spaces_size t) nd = Some ks1 ->
          spec_bases F' ONE depth meshes (tr_num t) (tr_spaces_size t) (id' + 1) = Some rest ->
          exists F, spec_bases F ONE depth meshes (tr_num t) (tr_spaces_size t) id
                    = Some (ks1 ++ rest)
  end.
Proof.
  induction n as [| n IH]; intros id t r t' Hwf Hroot Hu Hid H;
    cbn [next_base_element] in H;
    apply bind_ok in H as (m0 & t0 & Hm0 & H); apply lift_ok in Hm0 as [Hm0 ->];
    unfold mesh_at in Hm0;
    (destruct (zlookup meshes 0) as [m0' |] eqn:Hz; [| discriminate Hm0]);
    injection Hm0 as ->;
    (destruct (mesh_num_base m0 <=? id) eqn:Hle;
     [apply ret_ok in H as [Hr Ht]; subst r t'; exists 1%nat;
      exact (spec_bases_done ONE depth meshes _ _ id m0 Hz Hle) |]);
    apply bind_ok in H as (num & t0 & Hg & H); apply gets_ok in Hg as [-> ->];
    apply bind_ok in H as (nused & t2 & Hload & H);
    destruct (spec_root_defined ONE meshes si id t nused t2 Hwf Hload) as [nd Hnd];
    destruct (load_base_element_holds ONE meshes si id t nused t2 nd Hwf Hroot Hnd Hload)
      as (Hwf2 & Hnum2 & Hh2 & Hroot2 & Hused);
    pose proof (keeps_load_base_element ONE _ meshes si id 0 0 t nused t2 Hload Hwf)
      as (_ & _ & _ & _ & Hsp2);
    pose proof Hwf as (Hnum & _);
    apply Z.leb_gt in Hle as Hlt;
    pose proof (root_one_kind ONE meshes (tr_num t) id nd m0 Hu Hz ltac:(lia) Hnum Hnd)
      as Hkind;
    (destruct (negb (nused =? 0));
     [apply ret_ok in H as [Hr Ht]; subst r t2;
      split; [exact Hid |]; exists nd;
      split; [exact Hwf2 |]; split; [exact Hh2 |]; split; [exact Hkind |];
      intros ks1 F' rest Hks1 Hrest; exists (S F');
      exact (spec_bases_visit ONE depth meshes _ _ id m0 nd F' ks1 rest Hz Hle Hnd
               (eq_sym Hused) Hks1 Hrest) |]).
  - discriminate H.
  - pose proof (IH (id + 1) t2 r t' Hwf2 Hroot2 Hu ltac:(lia) H) as Hres.
    rewrite Hnum2, Hsp2 in Hres.
    destruct r as [id' |].
    + destruct Hres as (Hid' & nd' & Hwf' & Hh' & Hkind' & Hcont).
      split; [exact Hid' |]. exists nd'.
      split; [exact Hwf' |]. split; [exact Hh' |]. split; [exact Hkind' |].
      intros ks1 F' rest Hks1 Hrest.
      destruct (Hcont ks1 F' rest Hks1 Hrest) as [F1 HF1].
      exists (S F1).
      exact (spec_bases_skip ONE depth meshes _ _ id m0 nd F1 _ Hz Hle Hnd (eq_sym Hused) HF1).
    + destruct Hres as [F1 HF1]. exists (S F1).
      exact (spec_bases_skip ONE depth meshes _ _ id m0 nd F1 _ Hz Hle Hnd (eq_sym Hused) HF1).
Qed.

Lemma load_next_base_defined ONE depth meshes lc t r t' :
  wf t -> 0 <= tr_top t -> uniform_kinds meshes = true -> 0 <= lc_id lc ->
  load_next_base ONE meshes lc t = Ok (r, t') ->
  match r with
  | None =>
      exists F, spec_bases F ONE depth meshes (tr_num t) (tr_spaces_size t) (lc_id lc)
                = Some []
  | Some (si, id) =>
      0 <= id /\ wf t' /\ si = tr_top t /\ tr_top t' = si + 1 /\
      exists nd, holds t' si nd /\ one_kind nd /\
        forall ks1 F' rest,
          spec_visit depth (tr_spaces_size t) nd = Some ks1 ->
          spec_bases F' ONE depth meshes (tr_num t) (tr_spaces_size t) id = Some rest ->
          exists F, spec_bases F ONE depth meshes (tr_num t) (tr_spaces_size t) (lc_id lc)
                    = Some (ks1 ++ rest)
  end.
Proof.
  intros Hwf Htop Hu Hid H. unfold load_next_base in H.
  apply bind_ok in H as (si & t0 & Hpush & H).
  destruct (push_state_spec t si t0 Hwf Hpush)
    as (-> & Htop0 & s & s1 & Hs & Hs1 & Hplain & _).
  pose proof (keeps_push_state t _ t0 Hpush Hwf) as (Hwf0 & _ & Hnum0 & _ & Hsp0).
  apply bind_ok in H as ([] & t1 & Hupd & H).
  destruct (update_slot_cells (tr_top t) (set_cr (H2D_UNITY ONE)) t0 t1
              ltac:(intros x; repeat split) Hwf0 Hupd)
    as (Hwf1 & Hnum1 & (s0 & Hs0 & Hs0') & _).
  assert (s0 = s1) by congruence. subst s0.
  pose proof (keeps_update_slot (tr_top t) (set_cr (H2D_UNITY ONE))
                ltac:(intros x; repeat split) t0 tt t1 Hupd Hwf0)
    as (_ & _ & _ & _ & Hsp1).
  assert (Htop1 : tr_top t1 = tr_top t + 1).
  { apply update_slot_ok in Hupd as (sx & _ & ->). exact Htop0. }
  assert (Hroot : root_ready ONE (tr_top t) t1).
  { exists (set_cr (H2D_UNITY ONE) s1). split; [exact Hs0' |].
    unfold plain in Hplain. injection Hplain as _ _ _ _ _ _ _ Hn.
    split; [| reflexivity]. cbn. congruence. }
  apply bind_ok in H as (m0 & t2 & Hm0 & H). apply lift_ok in Hm0 as [_ ->].
  apply bind_ok in H as (found & t2 & Hnext & H).
  pose proof (next_base_element_defined ONE depth meshes (tr_top t) _ (lc_id lc) t1 found t2
                Hwf1 Hroot Hu Hid Hnext) as Hres.
  pose proof (same_top_next_base_element ONE _ meshes _ _ t1 found t2 Hnext) as Htop2.
  rewrite Hnum1, Hnum0, Hsp1, Hsp0 in Hres.
  destruct found as [id |].
  - destruct Hres as (Hid' & nd & Hwf2 & Hh & Hkind & Hcont).
    apply bind_ok in H as (tri & t3 & Htri & H).
    pose proof (respects_eq_State_is_triangle _ _ _ _ Htri) as <-.
    apply bind_ok in H as ([] & t3 & Hbnd & H).
    apply ret_ok in H as [Hr Ht]. subst r t'.
    assert (Hlast : wf t3 /\ holds t3 (tr_top t) nd /\ tr_top t3 = tr_top t2).
    { destruct tri.
      - refine (holds_update_slot (tr_top t) _ t2 t3 nd _ _ Hwf2 Hh Hbnd).
        + intros x; repeat split.
        + intros x; split; reflexivity.
      - apply ret_ok in Hbnd as [_ ->]. split; [assumption |]. split; [assumption | reflexivity]. }
    destruct Hlast as (Hwf3 & Hh3 & Htop3).
    split; [lia |]. split; [exact Hwf3 |]. split; [reflexivity |].
    split; [unfold same_top in Htop2; lia |].
    exists nd. split; [exact Hh3 |]. split; [exact Hkind |].
    intros ks1 F' rest Hks1 Hrest. exact (Hcont ks1 F' rest Hks1 Hrest).
  - apply bind_ok in H as (u & t3 & _ & H). apply ret_ok in H as [Hr _]. subst r.
    exact Hres.
Qed.

(** For meshes of one kind per base element, the enumeration of the base
    elements is defined when the descent over them returns. *)
Lemma traverse_bases_defined ONE dflt meshes depth f : forall lc t l t',
  (f <= depth)%nat -> wf t -> tr_top t = 0 -> uniform_kinds meshes = true ->
  0 <= lc_id lc ->
  traverse_bases ONE dflt f meshes lc t = Ok (l, t') ->
  exists F ks,
    spec_bases F ONE depth meshes (tr_num t) (tr_spaces_size t) (lc_id lc) = Some ks.
Proof.
  induction f as [| f IH]; intros lc t l t' Hle Hwf Htop Hu Hid H; [discriminate H |].
  cbn [traverse_bases] in H.
  apply bind_ok in H as (sel & t1 & Hsel & H).
  pose proof (load_next_base_defined ONE depth meshes lc t sel t1 Hwf ltac:(lia) Hu Hid Hsel)
    as Hres.
  pose proof (keeps_load_next_base ONE meshes lc t sel t1 Hsel Hwf)
    as (_ & _ & Hnum1 & _ & Hsp1).
  destruct sel as [[si id] |].
  - destruct Hres as (Hid' & Hwf1 & -> & Htop1 & nd & Hh & Hkind & Hcont).
    apply bind_ok in H as (lc1 & t2 & Hd & H).
    destruct (proj1 (descend_pending_defined ONE dflt f) (tr_top t) _ t1 lc1 t2 nd
                Hwf1 ltac:(lia) Htop1 Hh Hkind Hd) as [ks1 Hks1].
    destruct (proj1 (descend_pending_order ONE dflt f) f (tr_top t) _ t1 lc1 t2 nd ks1
                Hwf1 ltac:(lia) Htop1 Hh Hks1 Hd)
      as (Hwf2 & Hk2 & Htop2 & _ & _ & Hid2 & _).
    destruct (Hk2 Hwf1) as (_ & _ & Hnum2 & _ & Hsp2).
    cbn [lc_id] in Hid2.
    destruct (IH lc1 t2 l t' ltac:(lia) Hwf2 ltac:(lia) Hu ltac:(lia) H) as (F' & rest & Hrest).
    rewrite Hnum2, Hnum1, Hsp2, Hsp1, Hid2 in Hrest. rewrite Hsp1 in Hks1.
    destruct (Hcont ks1 F' rest (spec_visit_mono _ f depth nd ks1 ltac:(lia) Hks1) Hrest)
      as [F HF].
    exists F, (ks1 ++ rest). exact HF.
  - destruct Hres as [F HF]. exists F, []. exact HF.
Qed.

Lemma get_states_descent_defined ONE dflt meshes meshes_count f t l t' :
  uniform_kinds meshes = true ->
  get_states_descent ONE dflt f meshes meshes_count t = Ok (l, t') ->
  exists F ks, states_in_order ONE F meshes meshes_count (tr_spaces_size t) = Some ks.
Proof.
  intros Hu H. unfold get_states_descent in H.
  apply bind_ok in H as (u0 & t0 & H0 & H). injection H0 as _ <-.
  apply bind_ok in H as (predicted & t1 & H1 & H). apply lift_ok in H1 as [_ ->].
  apply bind_ok in H as (num & t2 & H2 & H). apply gets_ok in H2 as [-> ->].
  apply bind_ok in H as (u3 & t3 & H3 & H).
  apply begin_wf in H3 as (Hwf3 & Hnum3 & _ & _ & Htop3 & _ & Hsp3 & _).
  cbn [tr_num with_num tr_spaces_size] in Hnum3, Hsp3.
  destruct (traverse_bases_defined ONE dflt meshes f f (mkLocals 0 [] predicted) t3 l t'
              (Nat.le_refl _) Hwf3 Htop3 Hu
              ltac:(cbn; lia) H) as (F & ks & HF).
  rewrite Hnum3, Hsp3 in HF. cbn [lc_id] in HF.
  exists (Nat.max F f), ks. unfold states_in_order.
  exact (spec_bases_mono ONE meshes _ _ F (Nat.max F f) f (Nat.max F f) 0 ks
           ltac:(lia) ltac:(lia) HF).
Qed.

(** ** C9: determinism and the order of the returned states *)

(** C9 (as amended).  Two runs of [get_states] over the same meshes,
    started from [Traverse] objects with the same [spaces_size] and otherwise
    arbitrary (stack, counters and heap may differ), return the same
    number of states, and the states agree one by one in what they hold:
    the cells of [e] and of [sub_idx], [bnd], [rep], [rep_i], [visited],
    [isurf], [isBnd] and [num]; only the addresses of the arrays may
    differ.  The order is that of the enumeration [states_in_order]:
    whenever it is defined, the states that either run returns hold, one
    by one, the elements it lists, that is, the base elements are taken
    by ascending id, and below a base element the states are visited
    depth first, the sons of a state from the one pushed last to the one
    pushed first (son 3 of a triangle first, son 0 last).  For meshes
    that hold, under every base element, triangles only or
    quadrilaterals only, the enumeration is defined whenever a run
    returns. *)
Theorem get_states_deterministic (ONE : Z) (dflt : bool) (meshes : list Mesh) (meshes_count : Z)
        (n1 n2 : nat) (t1 t2 : Traverse) (l1 l2 : list State) (t1' t2' : Traverse) :
  tr_spaces_size t1 = tr_spaces_size t2 ->
  get_states ONE dflt n1 meshes meshes_count t1 = Ok (l1, t1') ->
  get_states ONE dflt n2 meshes meshes_count t2 = Ok (l2, t2') ->
  runs_agree ONE dflt meshes meshes_count t1 l1 t1' l2 t2' /\
  returned_in_order ONE meshes meshes_count (tr_spaces_size t1) (tr_heap t1') l1 /\
  returned_in_order ONE meshes meshes_count (tr_spaces_size t1) (tr_heap t2') l2 /\
  (uniform_kinds meshes = true ->
   exists F ks, states_in_order ONE F meshes meshes_count (tr_spaces_size t1) = Some ks).
Proof.
  intros Hsp H1 H2.
  destruct (get_states_same_content _ _ _ _ _ _ _ _ _ _ _ _ Hsp H1 H2) as (_ & _ & Hc).
  destruct (get_states_descent_refines ONE dflt meshes n1 meshes_count t1 (l1, t1') H1)
    as [F1 HF1].
  destruct (get_states_descent_refines ONE dflt meshes n2 meshes_count t2 (l2, t2') H2)
    as [F2 HF2].
  split; [| split; [| split]].
  - split; [exact (Forall2_length _ _ _ Hc) |]. split; [exact Hc |].
    split; [exists F1; exact HF1 |].
    split; [intros F r Hr; exact (get_states_descent_unique _ _ _ _ _ _ _ _ _ Hr HF1) |].
    split.
    + intros lc t si id t'. apply load_next_base_ascending.
    + intros F. exact (proj1 (descend_pending_appends ONE dflt F)).
  - intros F ks Hks.
    exact (get_states_descent_order ONE dflt meshes meshes_count F1 F t1 l1 t1' ks Hks HF1).
  - intros F ks Hks. rewrite Hsp in Hks.
    exact (get_states_descent_order ONE dflt meshes meshes_count F2 F t2 l2 t2' ks Hks HF2).
  - intros Hu.
    exact (get_states_descent_defined ONE dflt meshes meshes_count F1 t1 l1 t1' Hu HF1).
Qed.

Lemma get_states_deterministic_witness :
  runs_agree ex_ONE false [ex_mesh_refined] 1 (Traverse_new 1 ∅)
             (fst (ex_run [ex_mesh_refined] 1)) (snd (ex_run [ex_mesh_refined] 1))
             (fst (ex_rerun [ex_mesh_refined] 1)) (snd (ex_rerun [ex_mesh_refined] 1)) /\
  uniform_kinds [ex_mesh_refined] = true /\
  exists ks,
    states_in_order ex_ONE 3 [ex_mesh_refined] 1 1 = Some ks /\
    order_ids ks = [[Some 4]; [Some 3]; [Some 2]; [Some 1]] /\
    returned_elements (tr_heap (snd (ex_run [ex_mesh_refined] 1)))
                      (fst (ex_run [ex_mesh_refined] 1)) ks /\
    returned_elements (tr_heap (snd (ex_rerun [ex_mesh_refined] 1)))
                      (fst (ex_rerun [ex_mesh_refined] 1)) ks.
Proof.
  destruct (get_states_deterministic ex_ONE false [ex_mesh_refined] 1 1000 1000
              (Traverse_new 1 ∅) (snd (ex_run [ex_mesh_refined] 1))
              (fst (ex_run [ex_mesh_refined] 1)) (fst (ex_rerun [ex_mesh_refined] 1))
              (snd (ex_run [ex_mesh_refined] 1)) (snd (ex_rerun [ex_mesh_refined] 1)))
    as (Hagree & Ho1 & Ho2 & _).
  - vm_compute. reflexivity.
  - vm_compute. reflexivity.
  - vm_compute. reflexivity.
  - split; [exact Hagree |]. split; [vm_compute; reflexivity |].
    eexists. split; [vm_compute; reflexivity |].
    split; [vm_compute; reflexivity |].
    split; [apply (Ho1 3%nat) | apply (Ho2 3%nat)]; vm_compute; reflexivity.
Defined.

(** C9, counterexample to the claim as stated.  For one mesh whose base
    triangle is refined once, the sons 0, 1, 2, 3 having the ids 1, 2, 3,
    4, the states come out with the representatives 4, 3, 2, 1: the son
    pushed last is visited first. *)
Lemma sons_visited_last_first :
  map (option_map el_id) (concat (map el_sons (mesh_elements ex_mesh_refined)))
    = [Some 1; Some 2; Some 3; Some 4] /\
  exists states tf,
    get_states ex_ONE false 1000 [ex_mesh_refined] 1 (Traverse_new 1 ∅) = Ok (states, tf) /\
    map (fun c => option_map el_id (st_rep c)) states = [Some 4; Some 3; Some 2; Some 1].
Proof.
  split; [reflexivity |].
  eexists _, _. split; [vm_compute; reflexivity | reflexivity].
Qed.

(** The same with quadrilaterals: for one mesh whose base quadrilateral
    is cut both ways, the sons 0, 1, 2, 3 having the ids 1, 2, 3, 4, the
    enumeration lists the sons 4, 3, 2, 1, and so does the run. *)
Lemma quads_in_reverse_push_order :
  map (option_map el_id) (concat (map el_sons (mesh_elements ex_mesh_quad)))
    = [Some 1; Some 2; Some 3; Some 4] /\
  uniform_kinds [ex_mesh_quad] = true /\
  option_map order_ids (states_in_order ex_ONE 3 [ex_mesh_quad] 1 1)
    = Some [[Some 4]; [Some 3]; [Some 2]; [Some 1]] /\
  map (fun c => option_map el_id (st_rep c)) (fst (ex_run [ex_mesh_quad] 1))
    = [Some 4; Some 3; Some 2; Some 1].
Proof. repeat split; vm_compute; reflexivity. Qed.
